(* ===== verification/_CoqProject ===== *)
-Q . S2P
Prelude.v
Status.v
Scheduling.v
FilePhase.v
Job.v
JobFacts.v
Recovery.v
RecoveryFacts.v
Registry.v
RegistryFacts.v
StartupFacts.v
RegistryTheorems.v
Interval.v
WorkControl.v
DpAlign.v
DpAlignFacts.v
PackedBits.v
PackedLiteral.v
PackedLiteralFacts.v
PackedScoreFacts.v
Interleaving.v
InterleavingFacts.v
FloatFacts.v
FaDtw.v
FaDtwFacts.v
