(* ===== verification/Prelude.v ===== *)
(** * A verification library for the batchalign job server and its aligners

    The repository holds the TalkBank batch-processing system: a server that
    queues, runs, retries, stops, restarts and recovers jobs over transcript
    and media files, and the numerical kernels its pipelines share.  This
    library models, from the Rust sources, the server's job state (everything
    that decides what a job may do and what becomes of each of its files) and
    the alignment kernels, and proves what makes them correct.

    ** How the parts fit together

    A submission becomes a [Job] ([Job.submitted_job]) and is inserted into
    the [JobRegistry], an actor that owns every job and applies one operation
    at a time.  A task per job begins a runner ([begin_runner], which takes
    the runner slot and a lease), moves the job's files through their phases,
    renews the lease, defers the job when memory is short, and finalizes it;
    the staged remote orchestrator writes the job's last status itself
    ([update_job_status]); clients stop, restart and delete jobs; a shutdown
    interrupts what is active, and the next start reads the stored rows back
    and reconciles what the previous process left ([load_jobs]).  The runner's
    work on a file uses the aligners: recognizer words are aligned with
    transcript words (the Hirschberg aligner) and acoustic frames with text
    (the dynamic time warp).

    ** The files and the code they model

    Paths are under src/crates.

    - [Prelude] (this file): [result] and its bind, machine integers and
      their saturating operations, strings, generic list lemmas, tactics and
      hint databases.
    - [Status]: batchalign/src/types/status.rs.  [JobStatus.t] with its
      restart predicate and the transition table [can_transition_to] indexed
      by the reason of a change ([StatusChange.t]), the file statuses, the
      progress stages and every spelling.
    - [Scheduling]: batchalign/src/types/scheduling.rs, types/config/lease.rs
      and batchalign-types/src/machine_time.rs.  Failure categories and their
      retryability, the retry policy and its capped backoff, leases,
      millisecond time that saturates at the ends of the representable range.
    - [FilePhase]: batchalign/src/store/mod.rs.  The phase of one file, its
      database image (the columns of [FilePhaseColumns]) and the row reader,
      the counted waits on the worker pools, the API entry of a file.
    - [Job]: batchalign/src/store/job (types, lifecycle, projections, lease,
      file_status, conflict) and submission.rs.  The whole job record and one
      definition per method; state is passed explicitly and a refused
      transition is a value of the result.
    - [JobFacts]: what each job operation does on every branch.
    - [Recovery]: batchalign/src/store/queries/recovery.rs, with the row
      structs of db/schema.rs.  The readers of a stored job row and of its
      file rows, and the closure [load_from_db] runs on the registry: what it
      inserts and what it returns to be written back.
    - [RecoveryFacts], [StartupFacts]: what each row becomes, and that a row
      the previous process left ([startup_row]) becomes a job that satisfies
      the registry's invariant.
    - [Registry]: batchalign/src/store/registry.rs, the two closures of
      store/queries/mod.rs on one job, and the status decision of
      runner/execution.rs.  The registry is a finite map from job ids to jobs.
      [Command] and [JobOp] have a constructor for each input by which a
      production build changes it: the operations of registry.rs,
      [update_job_status] and [set_execution_plan] of store/queries/mod.rs and
      the load of store/queries/recovery.rs; [exec] is the handler and
      [run_registry] a history from the empty registry.
    - [RegistryFacts], [RegistryTheorems]: the step lemma for each operation,
      the invariant, and the theorems over all histories.
    - [Interval]: batchalign-types/src/interval.rs, domain.rs and
      batchalign-transform/src/asr_postprocess/timing.rs.  Positions are
      binary64 numbers ([spec_float]); admission rounds, scales and converts
      them exactly as the code does.
    - [WorkControl]: batchalign-transform/src/dp_align/control.rs.  The
      cooperative control trait as an effect, with its weakest precondition.
    - [DpAlign], [DpAlignFacts]: batchalign-transform/src/dp_align (mod.rs,
      comparison.rs).  Comparison policies, linear-space row passes, the full
      table with its traceback, the Hirschberg recursion, prefix and suffix
      stripping, the public entry points.
    - [PackedBits]: dp_align/zero_padded.rs.  Packed 64-bit words read
      through windows that see zeros on both sides.
    - [PackedLiteral], [PackedLiteralFacts], [PackedScoreFacts]:
      dp_align/packed_literal.rs with its arithmetic.rs and edge.rs.  The
      postings of a reference, the bit-parallel row step with its carry and
      borrow, rows over windows, prefix scores, the byte-parallel maximum of
      two score profiles, the byte-parallel scan for cuts, reversal.
    - [Interleaving], [InterleavingFacts]: dp_align/interleaving.rs.  The
      joint analysis of two speakers against one reference: budgeted shape,
      match relation, forward and backward scores, the evidence of every
      word, the selected assignment, common matches.
    - [FloatFacts]: the order and the rounding of [SpecFloat] as integers of
      a format's smallest unit, for any format.
    - [FaDtw], [FaDtwFacts]: batchalign-fa-core/src/lib.rs.  Matrix
      admission, the warp table and its backtrace, jump frames, lexical
      alignment, the median filter.  The class [CostOps] is the arithmetic the
      code uses and [float_costs] its instance, [f32] values accumulated in
      [f64].  [CostLaws] states what the optimality argument needs, of the
      values and costs that occur; [float_laws] proves it of the floats.

    Some functions of these sources are compiled for the repository's tests
    alone ([#[cfg(test)]]): [lease_blocks_local_dispatch],
    [next_local_dispatch_wake_at], [ready_for_local_dispatch] and
    [claim_for_local_dispatch] of store/job/lease.rs, [claim_ready_queued_jobs]
    of registry.rs over them, and [is_held_at] of types/scheduling.rs.  They
    are modelled as the readiness poll those tests drive, and no [Command]
    runs them; one conjunct of [runner_is_exclusive_until_released] is about
    the poll, and [lease_survives_heartbeat] reads a lease by [is_held_at].

    ** What the theorems show

    - Statuses and jobs: the status of a job moves only along the table of
      [can_transition_to]; a terminal status stays until a restart; a restart
      of a cancelled or failed job leaves it clean and queued, keeps the files
      that wrote output and makes the unfinished ones pending; finalization
      records the outcome the files have; the failure reason does not depend
      on the order of the files.
    - The registry, over every history of commands: the invariant
      [registry_ok] holds, startup loads and remote status updates included; a
      runner slot is held by one run until it is released; a run whose
      generation was superseded cannot finalize; admission refuses exactly the
      submissions that conflict and names exactly the conflicts, so that as
      long as no job is restarted and none loaded, active jobs never share a
      file of one submitter; shutdown interrupts every active job.
    - Recovery: reconciliation requeues a job with unfinished files, file by
      file, and ends one whose files all wrote output or all failed; a stored
      job whose command and options disagree is loaded read-only.
    - Scheduling: the backoff is the capped exponential, the retry budget
      ends, a lease that is renewed in time never expires between heartbeats.
    - Persistence: file phases round-trip through their columns, with the one
      phase that does not told apart, and the row reader reports exactly what
      is lost.
    - Intervals: which binary64 pairs are admitted and with what value, for
      every input; merging gives the least cover.
    - Alignment: the result costs the edit distance (insertion and deletion
      1, substitution 2) and spells both sequences, for every comparison
      policy and cutoff, and every aligner names each index once; an
      interrupted or charged control never changes the result.
    - Packed bits: a window is the zero-extended shift of the packed words,
      and the edits keep the padding clear.
    - Packed rows: after any words, every prefix of the reference has the
      score of the optimal alignments the scalar aligner computes; a merge is
      the pointwise maximum of its parents and a scan finds exactly the cuts
      of the sought score, with no byte lane spilling into the next.
    - Two speakers: the analysis returns the size of the optimal assignments
      and one of them, and for every word the reference words it can have and
      whether it can be missing, over all optimal assignments; a common match
      is one that every optimal assignment makes.
    - Forced alignment: admission is exact and the path is legal, for any
      arithmetic.  On a matrix of finite [f32] values the path is cheapest
      among all legal paths, in the rounded [f64] sums the source accumulates,
      and its cost is finite; the lexical rows are all covered; the filter
      gives the median of each mirrored row window, specified without the
      code's index arithmetic.

    ** Bounds and fuel

    The recursion on halves of [hirschberg] has the reference length as fuel:
    each half is strictly shorter.  The traceback of the full table and the
    backtrace of the warp have rows + columns: each step leaves at least one
    of the two smaller.  The traceback of the two-speaker analysis has the sum
    of the three lengths: each step consumes a word.  The retry loop has one
    more than the attempt budget.  The theorems are about the functions with
    that fuel, and show that they return the full result, so none is vacuous
    when fuel runs out.  Sequences
    are taken to fit in memory ([in_memory], at most isize::MAX elements),
    which is what a Rust slice satisfies; u64 and i64 arithmetic is written
    with its saturation or checks, except where a comment says that a sum is
    left unbounded ([observe_edge_cuts]) or wraps as in a release build
    ([generation_next]).

    ** Parameters

    [FuzzyLibrary] (Unicode lowercasing and the Jaro-Winkler score),
    [TimestampRange] (the calendar library's range) and the JSON decoders of
    [StoredText] stand for code outside the repository.  [Payload] is request
    data the lifecycle only carries.  [Catalog] (the command table, generated,
    and the output policy it gives) and the rest of [StoredText] (the language
    parser, the output planner over that table and the text of its error) are
    repository code the modelled operations only call: the theorems hold for
    whatever they answer.

    ** What is not modelled

    The asynchronous runtime around the registry (the actor handles messages
    one at a time, so a history is a sequence), the database and the file
    system (of db/recovery.rs only what it leaves in a row is stated, as
    [startup_row]; the writes that follow a load are its outcome, a value),
    HTTP and websocket routes, the command line, process management of the
    workers, CHAT documents (a crate outside the repository), column
    standardization and frame scaling of the forced aligner, the Python
    bindings and the dashboard.

    ** Plan

    Next: the correspondence analysis (dp_align/correspondence.rs and its
    sparse, literal, fuzzy and inspection routes) over [PackedLiteral] and
    [DpAlign]: both routes certify exactly the matches common to all optimal
    alignments; the local interleaving episodes over packed windows; request
    validation (types/request.rs); the worker pool as a state machine. *)

From stdpp Require Import base decidable option list list_numbers gmap strings pretty numbers.

(** ** Fallible code

    Rust's [Result<T, E>]; the error comes first so that [result E] is a
    monad, with the [?] operator written as [let?]. *)
Inductive result (E A : Type) : Type :=
| Ok (a : A)
| Err (e : E).
Arguments Ok {E A} _.
Arguments Err {E A} _.

Declare Scope rust_scope.
Delimit Scope rust_scope with rust.

Notation "'let?' x ':=' m 'in' k" :=
  (match m with Ok x => k | Err e => Err e end)
  (at level 10, x pattern, m at level 100, k at level 200,
   format "'[v' 'let?'  x  ':='  m  'in' '/' k ']'") : rust_scope.

Definition is_ok {E A} (r : result E A) : bool :=
  match r with Ok _ => true | Err _ => false end.

(** [Option::ok_or]. *)
Definition ok_or {E A} (o : option A) (e : E) : result E A :=
  match o with Some a => Ok a | None => Err e end.

(** [bool::then_some]. *)
Definition then_some {A} (b : bool) (a : A) : option A :=
  if b then Some a else None.

#[export] Instance result_eq_dec `{EqDecision E, EqDecision A} : EqDecision (result E A).
Proof. solve_decision. Defined.

(** [slice::join] on strings. *)
Definition join_with (sep : string) (l : list string) : string :=
  match l with
  | [] => ""
  | x :: l => foldl (fun acc y => acc +:+ sep +:+ y) x l
  end.

(** ** Machine integers

    A [w]-bit integer is a [Z] in its range; the operations that leave the
    range (saturating, checked) are written out. *)
Definition u32_max : Z := 4294967295.
Definition u64_max : Z := 18446744073709551615.
Definition i64_max : Z := 9223372036854775807.
Definition i64_min : Z := -9223372036854775808.

Definition in_i64 (x : Z) : bool := (i64_min <=? x)%Z && (x <=? i64_max)%Z.
Definition in_u64 (x : Z) : bool := (0 <=? x)%Z && (x <=? u64_max)%Z.

(** [i64::checked_add]. *)
Definition checked_add_i64 (a b : Z) : option Z :=
  if in_i64 (a + b) then Some (a + b)%Z else None.

(** [i64::saturating_add] and [i64::saturating_sub]. *)
Definition clamp (lo hi x : Z) : Z := Z.max lo (Z.min hi x).
Definition saturating_add_i64 (a b : Z) : Z := clamp i64_min i64_max (a + b).
Definition saturating_sub_i64 (a b : Z) : Z := clamp i64_min i64_max (a - b).

(** [u64::saturating_mul] and [u32::saturating_add]. *)
Definition saturating_mul_u64 (a b : Z) : Z := Z.min u64_max (a * b).
Definition saturating_add_u32 (a b : Z) : Z := Z.min u32_max (a + b).

(** ** Counting

    [iter().filter(p).count()] over the values of a collection. *)
Fixpoint count_if {A} (p : A -> bool) (l : list A) : nat :=
  match l with
  | [] => 0
  | x :: l => (if p x then 1 else 0) + count_if p l
  end.

(** The values of a [HashMap], in some order: the source iterates in an
    unspecified order, so no statement may depend on it. *)
Definition map_values {K A} `{Countable K} (m : gmap K A) : list A :=
  (map_to_list m).*2.

(** ** Automation *)

(** Case analysis on every boolean test and match the goal or a hypothesis
    is stuck on. *)
Ltac split_ifs :=
  repeat match goal with
  | |- context [if ?b then _ else _] => destruct b eqn:?
  | H : context [if ?b then _ else _] |- _ => destruct b eqn:?
  end.

(** Turn the integer tests of the source into the propositions they decide. *)
Ltac bool_to_prop :=
  repeat match goal with
  | H : (_ && _)%bool = true |- _ => apply andb_true_iff in H as [? ?]
  | H : (_ || _)%bool = false |- _ => apply orb_false_iff in H as [? ?]
  | H : negb _ = true |- _ => apply negb_true_iff in H
  | H : negb _ = false |- _ => apply negb_false_iff in H
  | H : (_ <=? _)%Z = true |- _ => apply Z.leb_le in H
  | H : (_ <=? _)%Z = false |- _ => apply Z.leb_gt in H
  | H : (_ <? _)%Z = true |- _ => apply Z.ltb_lt in H
  | H : (_ <? _)%Z = false |- _ => apply Z.ltb_ge in H
  | H : (_ =? _)%Z = true |- _ => apply Z.eqb_eq in H
  | H : (_ =? _)%Z = false |- _ => apply Z.eqb_neq in H
  | H : (_ <=? _)%nat = true |- _ => apply Nat.leb_le in H
  | H : (_ <=? _)%nat = false |- _ => apply Nat.leb_gt in H
  | H : (_ <? _)%nat = true |- _ => apply Nat.ltb_lt in H
  | H : (_ <? _)%nat = false |- _ => apply Nat.ltb_ge in H
  | H : (_ =? _)%nat = true |- _ => apply Nat.eqb_eq in H
  | H : (_ =? _)%nat = false |- _ => apply Nat.eqb_neq in H
  end.

Create HintDb rust.

(** ** Lemmas shared by the components *)

Section counting.
Context {A : Type} (p : A -> bool).

Lemma count_if_app l k : count_if p (l ++ k) = count_if p l + count_if p k.
Proof. induction l; simpl; lia. Qed.

Lemma count_if_perm l k : l ≡ₚ k -> count_if p l = count_if p k.
Proof. induction 1; simpl; lia. Qed.

Lemma count_if_le_length l : count_if p l <= length l.
Proof. induction l as [|x l IH]; simpl; [lia|]. destruct (p x); lia. Qed.

Lemma count_if_zero l : count_if p l = 0 <-> Forall (fun x => p x = false) l.
Proof.
  induction l as [|x l IH]; simpl; [by split|].
  rewrite Forall_cons_iff, <- IH. destruct (p x); simpl; intuition (try lia; try congruence).
Qed.

Lemma count_if_pos l : 0 < count_if p l <-> Exists (fun x => p x = true) l.
Proof.
  induction l as [|x l IH]; simpl.
  - split; [lia|]. inversion 1.
  - rewrite Exists_cons, <- IH. destruct (p x); simpl; intuition (try lia; try congruence).
Qed.

Lemma count_if_all l : count_if p l = length l <-> Forall (fun x => p x = true) l.
Proof.
  induction l as [|x l IH]; simpl; [by split|].
  pose proof (count_if_le_length l).
  rewrite Forall_cons_iff, <- IH. destruct (p x); simpl; intuition (try lia; try congruence).
Qed.

Lemma count_if_le (q : A -> bool) l :
  (forall x, x ∈ l -> p x = true -> q x = true) -> count_if p l <= count_if q l.
Proof.
  induction l as [|x l IH]; intros Hpq; simpl; [lia|].
  assert (count_if p l <= count_if q l) by (apply IH; set_solver).
  destruct (p x) eqn:Hx; [rewrite (Hpq x) by (done || set_solver)|destruct (q x)]; lia.
Qed.
End counting.

Lemma elem_of_nil_inv_iff {A} (l : list A) : l = [] <-> forall x, x ∉ l.
Proof.
  split; [intros ->; intros x; apply not_elem_of_nil|]. destruct l as [|x l]; [done|].
  intros Hx. exfalso. apply (Hx x). set_solver.
Qed.

Lemma size_list_to_set_le `{Countable A} (l : list A) :
  size (list_to_set l : gset A) <= length l.
Proof.
  induction l as [|x l IH]; simpl; [done|].
  rewrite size_union_alt, size_singleton.
  assert (size (list_to_set l ∖ {[x]} : gset A) <= size (list_to_set l : gset A))
    by (apply subseteq_size; set_solver). lia.
Qed.

Section map_counting.
Context {K A : Type} `{Countable K} (p : A -> bool).
Implicit Types m : gmap K A.

Lemma elem_of_map_values m x : x ∈ map_values m <-> exists k, m !! k = Some x.
Proof.
  unfold map_values. rewrite list_elem_of_fmap. split.
  - intros ([k y] & -> & Hin). exists k. by apply elem_of_map_to_list.
  - intros [k Hk]. exists (k, x). split; [done|]. by apply elem_of_map_to_list.
Qed.

Lemma map_values_insert_new m k x :
  m !! k = None -> map_values (<[k:=x]> m) ≡ₚ x :: map_values m.
Proof.
  intros Hk. unfold map_values. rewrite (map_to_list_insert m k x Hk). done.
Qed.

Lemma map_values_split m k x :
  m !! k = Some x -> map_values m ≡ₚ x :: map_values (delete k m).
Proof.
  intros Hk. rewrite <- (insert_delete_id m k x Hk) at 1.
  apply map_values_insert_new, lookup_delete_eq.
Qed.

Lemma map_values_update m k x y :
  m !! k = Some x -> map_values (<[k:=y]> m) ≡ₚ y :: map_values (delete k m).
Proof.
  intros Hk. rewrite <- insert_delete_eq.
  apply map_values_insert_new, lookup_delete_eq.
Qed.

(** Replacing one value moves the count by the two values alone. *)
Lemma count_map_update m k x y :
  m !! k = Some x ->
  count_if p (map_values (<[k:=y]> m)) + (if p x then 1 else 0) =
  count_if p (map_values m) + (if p y then 1 else 0).
Proof.
  intros Hk.
  rewrite (count_if_perm p _ _ (map_values_update m k x y Hk)),
    (count_if_perm p _ _ (map_values_split m k x Hk)). simpl. lia.
Qed.

Lemma map_values_fmap {B} (f : B -> A) (m : gmap K B) :
  map_values (f <$> m) = f <$> map_values m.
Proof.
  unfold map_values. rewrite map_to_list_fmap, <- !list_fmap_compose.
  by apply list_fmap_ext; intros ? [].
Qed.

Lemma length_map_values m : length (map_values m) = size m.
Proof. unfold map_values. by rewrite length_fmap, length_map_to_list. Qed.
End map_counting.

