(* ===== verification/Status.v ===== *)
(** * Job and file lifecycle statuses

    Models [crates/batchalign/src/types/status.rs]: the job state machine
    ([JobStatus], [StatusChange], [JobStatus::can_transition_to]), the file
    status vocabulary ([FileStatusKind]), the progress stages, and the
    spellings the database and the API read and write. *)

From S2P Require Import Prelude.
From stdpp Require Import base decidable option list strings.

Module JobStatus.

Inductive t :=
| Queued
| Running
| Completed
| Failed
| Cancelled
| Interrupted
| WritebackFailed.

#[global] Instance eq_dec : EqDecision t.
Proof. solve_decision. Defined.

Definition eqb (a b : t) : bool := bool_decide (a = b).

Definition is_terminal (s : t) : bool :=
  match s with
  | Completed | Failed | Cancelled | Interrupted | WritebackFailed => true
  | _ => false
  end.

Definition is_active (s : t) : bool :=
  match s with Queued | Running => true | _ => false end.

Definition can_cancel (s : t) : bool := is_active s.

Definition is_recoverable (s : t) : bool :=
  match s with Running | Interrupted => true | _ => false end.

Definition can_restart (s : t) : bool :=
  match s with Cancelled | Failed | WritebackFailed => true | _ => false end.

(** [impl Display] and [impl FromStr]. *)
Definition to_string (s : t) : string :=
  match s with
  | Queued => "queued"
  | Running => "running"
  | Completed => "completed"
  | Failed => "failed"
  | Cancelled => "cancelled"
  | Interrupted => "interrupted"
  | WritebackFailed => "writeback_failed"
  end.

Definition from_str (s : string) : result string t :=
  if String.eqb s "queued" then Ok Queued
  else if String.eqb s "running" then Ok Running
  else if String.eqb s "completed" then Ok Completed
  else if String.eqb s "failed" then Ok Failed
  else if String.eqb s "cancelled" then Ok Cancelled
  else if String.eqb s "interrupted" then Ok Interrupted
  else if String.eqb s "writeback_failed" then Ok WritebackFailed
  else Err ("unknown JobStatus: " +:+ s).

End JobStatus.

Module StatusChange.

Inductive t :=
| Dispatch
| MemoryRequeue
| Interrupt
| Finalize
| Restart
| Reconcile.

#[global] Instance eq_dec : EqDecision t.
Proof. solve_decision. Defined.

End StatusChange.

(** [JobStatus::can_transition_to]: the authority every status write
    consults. The reason is part of the question. *)
Definition can_transition_to (s next : JobStatus.t) (reason : StatusChange.t) : bool :=
  match reason with
  | StatusChange.Dispatch =>
      JobStatus.eqb s JobStatus.Queued && JobStatus.eqb next JobStatus.Running
  | StatusChange.MemoryRequeue =>
      JobStatus.is_active s && JobStatus.eqb next JobStatus.Queued
  | StatusChange.Interrupt =>
      JobStatus.can_cancel s &&
      match next with
      | JobStatus.Cancelled | JobStatus.Interrupted => true
      | _ => false
      end
  | StatusChange.Finalize =>
      JobStatus.is_active s && JobStatus.is_terminal next
  | StatusChange.Restart =>
      JobStatus.can_restart s && JobStatus.eqb next JobStatus.Queued
  | StatusChange.Reconcile =>
      JobStatus.is_recoverable s &&
      match next with
      | JobStatus.Queued | JobStatus.Failed | JobStatus.Completed => true
      | _ => false
      end
  end.

Module FileStatusKind.

Inductive t :=
| Queued
| Processing
| Done
| Diagnosed
| Error
| Interrupted.

#[global] Instance eq_dec : EqDecision t.
Proof. solve_decision. Defined.

Definition eqb (a b : t) : bool := bool_decide (a = b).

Definition is_terminal (s : t) : bool :=
  match s with
  | Done | Diagnosed | Error => true
  | Queued | Processing | Interrupted => false
  end.

Definition is_resumable (s : t) : bool :=
  match s with
  | Interrupted | Processing | Queued => true
  | Done | Diagnosed | Error => false
  end.

Definition wrote_output (s : t) : bool :=
  match s with
  | Done | Diagnosed => true
  | Queued | Processing | Error | Interrupted => false
  end.

Definition to_string (s : t) : string :=
  match s with
  | Queued => "queued"
  | Processing => "processing"
  | Done => "done"
  | Diagnosed => "diagnosed"
  | Error => "error"
  | Interrupted => "interrupted"
  end.

Definition from_str (s : string) : result string t :=
  if String.eqb s "queued" then Ok Queued
  else if String.eqb s "processing" then Ok Processing
  else if String.eqb s "done" then Ok Done
  else if String.eqb s "diagnosed" then Ok Diagnosed
  else if String.eqb s "error" then Ok Error
  else if String.eqb s "interrupted" then Ok Interrupted
  else Err ("unknown FileStatusKind: " +:+ s).

End FileStatusKind.

Module FileProgressStage.

Inductive t :=
| Processing
| Reading
| ResolvingAudio
| RecoveringUtteranceTiming
| RecoveringTimingFallback
| PreparingAlignment
| Aligning
| Transcribing
| Benchmarking
| CheckingCache
| ApplyingResults
| PostProcessing
| BuildingChat
| SegmentingUtterances
| AnalyzingMorphosyntax
| Finalizing
| Writing
| Parsing
| Analyzing
| Segmenting
| Translating
| ResolvingCoreference
| Comparing
| RetryScheduled
| WaitingForWorker
| WaitingForHostMemory
| PreparingWorker
| DownloadingModel.

#[global] Instance eq_dec : EqDecision t.
Proof. solve_decision. Defined.

Definition label (s : t) : string :=
  match s with
  | Processing => "Processing"
  | Reading => "Reading"
  | ResolvingAudio => "Resolving audio"
  | RecoveringUtteranceTiming => "Recovering utterance timing"
  | RecoveringTimingFallback => "Recovering timing (fallback)"
  | PreparingAlignment => "Preparing alignment"
  | Aligning => "Aligning"
  | Transcribing => "Transcribing"
  | Benchmarking => "Benchmarking"
  | CheckingCache => "Checking cache"
  | ApplyingResults => "Applying results"
  | PostProcessing => "Post-processing"
  | BuildingChat => "Building CHAT"
  | SegmentingUtterances => "Segmenting utterances"
  | AnalyzingMorphosyntax => "Analyzing morphosyntax"
  | Finalizing => "Finalizing"
  | Writing => "Writing"
  | Parsing => "Parsing"
  | Analyzing => "Analyzing"
  | Segmenting => "Segmenting"
  | Translating => "Translating"
  | ResolvingCoreference => "Resolving coreference"
  | Comparing => "Comparing"
  | RetryScheduled => "Retry scheduled"
  | WaitingForWorker => "Waiting for a worker"
  | WaitingForHostMemory => "Waiting for host memory"
  | PreparingWorker => "Preparing worker"
  | DownloadingModel => "Downloading model"
  end.

End FileProgressStage.

(** ** Properties *)

(** Every job status is exactly one of active and terminal. *)
Lemma active_xor_terminal s :
  JobStatus.is_terminal s = negb (JobStatus.is_active s).
Proof. by destruct s. Qed.

(** Every file status is exactly one of resumable and terminal. *)
Lemma resumable_xor_terminal k :
  FileStatusKind.is_terminal k = negb (FileStatusKind.is_resumable k).
Proof. by destruct k. Qed.

Lemma wrote_output_terminal k :
  FileStatusKind.wrote_output k = true -> FileStatusKind.is_terminal k = true.
Proof. by destruct k. Qed.

Lemma terminal_error_or_wrote k :
  FileStatusKind.is_terminal k =
  FileStatusKind.wrote_output k || FileStatusKind.eqb k FileStatusKind.Error.
Proof. by destruct k. Qed.

(** Only an operator restart or startup reconciliation takes a job out of a
    terminal status; every other reason refuses. *)
Lemma leaves_terminal s next reason :
  JobStatus.is_terminal s = true -> can_transition_to s next reason = true ->
  (reason = StatusChange.Restart /\ JobStatus.can_restart s = true /\ next = JobStatus.Queued) \/
  (reason = StatusChange.Reconcile /\ s = JobStatus.Interrupted).
Proof. destruct s, reason, next; cbn; naive_solver. Qed.

Lemma from_str_to_string_job s : JobStatus.from_str (JobStatus.to_string s) = Ok s.
Proof. by destruct s. Qed.

Lemma from_str_to_string_file s : FileStatusKind.from_str (FileStatusKind.to_string s) = Ok s.
Proof. by destruct s. Qed.

Lemma to_string_from_str_job w s :
  JobStatus.from_str w = Ok s -> w = JobStatus.to_string s.
Proof.
  unfold JobStatus.from_str. intros H.
  repeat match type of H with
  | context [String.eqb ?a ?b] => destruct (String.eqb_spec a b) as [->|]
  end; by simplify_eq.
Qed.
