(* ===== verification/Scheduling.v ===== *)
(** * Scheduling: failure categories, retry policy, machine time, leases

    Models [crates/batchalign/src/types/scheduling.rs] (work-unit kinds,
    failure categories and their retryability, the retry/backoff policy, the
    lease record), [crates/batchalign/src/types/config/lease.rs] (the lease
    lifetime and the heartbeat that renews it) and the arithmetic of
    [crates/batchalign-types/src/machine_time.rs]. *)

From S2P Require Import Prelude.
From stdpp Require Import base decidable option list strings numbers.

Open Scope Z_scope.

(** ** Work units, failures, attempts *)

Module WorkUnitKind.

Inductive t :=
| FileSetup
| FileProcess
| FileInfer
| NativeMedia
| FileForcedAlignment
| BatchInfer.

#[global] Instance eq_dec : EqDecision t.
Proof. solve_decision. Defined.

Definition to_string (k : t) : string :=
  match k with
  | FileSetup => "file_setup"
  | FileProcess => "file_process"
  | FileInfer => "file_infer"
  | NativeMedia => "native_media"
  | FileForcedAlignment => "file_forced_alignment"
  | BatchInfer => "batch_infer"
  end.

Definition from_str (s : string) : result string t :=
  if String.eqb s "file_setup" then Ok FileSetup
  else if String.eqb s "file_process" then Ok FileProcess
  else if String.eqb s "file_infer" then Ok FileInfer
  else if String.eqb s "native_media" then Ok NativeMedia
  else if String.eqb s "file_forced_alignment" then Ok FileForcedAlignment
  else if String.eqb s "batch_infer" then Ok BatchInfer
  else Err ("unknown WorkUnitKind: " +:+ s).

End WorkUnitKind.

Module Retryability.

Inductive t :=
| Retryable
| Final.

End Retryability.

Module FailureCategory.

Inductive t :=
| Validation
| ParseError
| InputMissing
| EvidenceUnavailable
| AnalysisUnavailable
| WorkerCrash
| WorkerTimeout
| WorkerProtocol
| WorkerBootstrap
| LocalRuntime
| ProviderTransient
| ProviderTerminal
| ProviderQuotaExhausted
| ProviderAccountRefused
| MemoryPressure
| Cancelled
| System
| ModelAccessDenied
| ModelOutputInvalid.

#[global] Instance eq_dec : EqDecision t.
Proof. solve_decision. Defined.

Definition ALL : list t :=
  [ Validation; ParseError; InputMissing; EvidenceUnavailable; AnalysisUnavailable;
    WorkerCrash; WorkerTimeout; WorkerProtocol; WorkerBootstrap; LocalRuntime;
    ProviderTransient; ProviderTerminal; ProviderQuotaExhausted; ProviderAccountRefused;
    MemoryPressure; Cancelled; System; ModelAccessDenied; ModelOutputInvalid ].

Definition as_str (c : t) : string :=
  match c with
  | Validation => "validation"
  | ParseError => "parse_error"
  | InputMissing => "input_missing"
  | EvidenceUnavailable => "evidence_unavailable"
  | AnalysisUnavailable => "analysis_unavailable"
  | WorkerCrash => "worker_crash"
  | WorkerTimeout => "worker_timeout"
  | WorkerProtocol => "worker_protocol"
  | WorkerBootstrap => "worker_bootstrap"
  | LocalRuntime => "local_runtime"
  | ProviderTransient => "provider_transient"
  | ProviderTerminal => "provider_terminal"
  | ProviderQuotaExhausted => "provider_quota_exhausted"
  | ProviderAccountRefused => "provider_account_refused"
  | MemoryPressure => "memory_pressure"
  | Cancelled => "cancelled"
  | System => "system"
  | ModelAccessDenied => "model_access_denied"
  | ModelOutputInvalid => "model_output_invalid"
  end.

(** The parser reads the one spelling table: the first category spelled so. *)
Definition from_str (s : string) : result string t :=
  ok_or (List.find (fun category => String.eqb (as_str category) s) ALL)
    ("unknown FailureCategory: " +:+ s).

Definition retryability (c : t) : Retryability.t :=
  match c with
  | WorkerCrash | WorkerTimeout | ProviderTransient | LocalRuntime | MemoryPressure =>
      Retryability.Retryable
  | Validation | ParseError | InputMissing | EvidenceUnavailable | AnalysisUnavailable
  | WorkerProtocol | WorkerBootstrap | ProviderTerminal | ProviderQuotaExhausted
  | ProviderAccountRefused | Cancelled | System | ModelAccessDenied | ModelOutputInvalid =>
      Retryability.Final
  end.

End FailureCategory.

Module AttemptOutcome.

Inductive t :=
| Succeeded
| Failed
| RetryableFailure
| Deferred
| Cancelled.

Definition to_string (o : t) : string :=
  match o with
  | Succeeded => "succeeded"
  | Failed => "failed"
  | RetryableFailure => "retryable_failure"
  | Deferred => "deferred"
  | Cancelled => "cancelled"
  end.

Definition from_str (s : string) : result string t :=
  if String.eqb s "succeeded" then Ok Succeeded
  else if String.eqb s "failed" then Ok Failed
  else if String.eqb s "retryable_failure" then Ok RetryableFailure
  else if String.eqb s "deferred" then Ok Deferred
  else if String.eqb s "cancelled" then Ok Cancelled
  else Err ("unknown AttemptOutcome: " +:+ s).

End AttemptOutcome.

Module RetryDisposition.

Inductive t :=
| Succeed
| TerminalFailure
| Retry
| Defer.

Definition to_string (d : t) : string :=
  match d with
  | Succeed => "succeed"
  | TerminalFailure => "terminal_failure"
  | Retry => "retry"
  | Defer => "defer"
  end.

Definition from_str (s : string) : result string t :=
  if String.eqb s "succeed" then Ok Succeed
  else if String.eqb s "terminal_failure" then Ok TerminalFailure
  else if String.eqb s "retry" then Ok Retry
  else if String.eqb s "defer" then Ok Defer
  else Err ("unknown RetryDisposition: " +:+ s).

End RetryDisposition.

(** ** Retry policy

    [max_attempts] and [backoff_multiplier] are [u32], the two backoffs
    [DurationMs(u64)]. *)
Record RetryPolicy := mkRetryPolicy {
  max_attempts : Z;
  initial_backoff_ms : Z;
  max_backoff_ms : Z;
  backoff_multiplier : Z
}.

Definition conservative : RetryPolicy :=
  {| max_attempts := 3; initial_backoff_ms := 1000;
     max_backoff_ms := 60000; backoff_multiplier := 2 |}.

(** [for _ in 1..retry_number]: [steps] more rounds, the early return taken
    as soon as the ceiling is reached. *)
Fixpoint backoff_loop (p : RetryPolicy) (steps : nat) (backoff : Z) : Z :=
  match steps with
  | O => Z.min backoff (max_backoff_ms p)
  | S steps =>
      let backoff := saturating_mul_u64 backoff (backoff_multiplier p) in
      if max_backoff_ms p <=? backoff then max_backoff_ms p
      else backoff_loop p steps backoff
  end.

Definition backoff_for_retry (p : RetryPolicy) (retry_number : Z) : Z :=
  if retry_number <=? 1 then Z.min (initial_backoff_ms p) (max_backoff_ms p)
  else backoff_loop p (Z.to_nat (retry_number - 1)) (initial_backoff_ms p).

Inductive StopReason :=
| StopFinal
| BudgetSpent.

Inductive NextAttempt :=
| RetryAfter (backoff : Z)
| Stop (reason : StopReason).

Definition after_failure (p : RetryPolicy) (attempt_number : Z) (category : FailureCategory.t)
    : NextAttempt :=
  match FailureCategory.retryability category with
  | Retryability.Final => Stop StopFinal
  | Retryability.Retryable =>
      if attempt_number <? max_attempts p
      then RetryAfter (backoff_for_retry p attempt_number)
      else Stop BudgetSpent
  end.

(** ** Machine time

    A [MachineTime] is a whole number of milliseconds since the Unix epoch;
    the range of representable instants is the timestamp library's. *)
Class TimestampRange := {
  first_millis : Z;
  last_millis : Z;
  timestamp_range_ordered : first_millis <= last_millis;
  timestamp_range_i64 : i64_min <= first_millis /\ last_millis <= i64_max
}.

Abbreviation MachineTime := Z.

(** A [std::time::Duration], in nanoseconds. *)
Abbreviation Duration := Z.
Definition from_secs (secs : Z) : Duration := secs * 1000000000.
Definition as_millis (d : Duration) : Z := d / 1000000.
Definition as_secs (d : Duration) : Z := d / 1000000000.

Definition whole_millis (d : Duration) : Z := Z.min (as_millis d) i64_max.

Section machine_time.
Context `{TimestampRange}.

Definition from_saturated_millis (millis : Z) : MachineTime :=
  clamp first_millis last_millis millis.

Definition plus (t : MachineTime) (d : Duration) : MachineTime :=
  from_saturated_millis (saturating_add_i64 t (whole_millis d)).

Definition minus (t : MachineTime) (d : Duration) : MachineTime :=
  from_saturated_millis (saturating_sub_i64 t (whole_millis d)).

End machine_time.

Definition saturating_duration_since (t earlier : MachineTime) : Duration :=
  if (earlier <? t)%Z then ((t - earlier) * 1000000)%Z else 0%Z.

(** ** Leases *)

Definition LEASE_HEARTBEAT : Duration := from_secs 60.

Record LeaseTtl := mkLeaseTtl { ttl_get : Duration }.

Definition ttl_from_secs (secs : Z) : result Z LeaseTtl :=
  let lifetime := from_secs secs in
  if LEASE_HEARTBEAT <? lifetime then Ok (mkLeaseTtl lifetime) else Err secs.

Definition ttl_default : LeaseTtl := mkLeaseTtl (from_secs 300).

Record LeaseRecord := mkLease {
  leased_by_node : string;
  heartbeat_at : MachineTime;
  expires_at : MachineTime
}.

#[export] Instance LeaseRecord_eq_dec : EqDecision LeaseRecord.
Proof. solve_decision. Defined.

(** [LeaseRecord::new], shared by the database read and deserialization;
    the refusal names the heartbeat and the expiry. *)
Definition lease_new (node : string) (heartbeat expiry : MachineTime)
    : result (MachineTime * MachineTime) LeaseRecord :=
  if (heartbeat <? expiry)%Z then Ok (mkLease node heartbeat expiry)
  else Err (heartbeat, expiry).

Section leases.
Context `{TimestampRange}.

Definition lease_taken (node : string) (now : MachineTime) (ttl : LeaseTtl) : LeaseRecord :=
  {| leased_by_node := node; heartbeat_at := now; expires_at := plus now (ttl_get ttl) |}.

Definition lease_renew (l : LeaseRecord) (now : MachineTime) (ttl : LeaseTtl) : LeaseRecord :=
  {| leased_by_node := leased_by_node l; heartbeat_at := now;
     expires_at := plus now (ttl_get ttl) |}.

End leases.

(** The one lease-held predicate. The repository compiles it for its tests alone
    ([#[cfg(test)]]); the bound it checks is the lease's own [expires_at]. *)
Definition is_held_at (l : LeaseRecord) (now : MachineTime) : bool :=
  (now <? expires_at l)%Z.

(** A lease every route in keeps in order. *)
Definition lease_ordered (l : LeaseRecord) : Prop := heartbeat_at l < expires_at l.

(** ** Properties *)

(** *** Spellings *)

Lemma from_str_as_str c : FailureCategory.from_str (FailureCategory.as_str c) = Ok c.
Proof. by destruct c. Qed.

Lemma as_str_from_str s c :
  FailureCategory.from_str s = Ok c -> s = FailureCategory.as_str c.
Proof.
  unfold FailureCategory.from_str. intros Hs.
  destruct (List.find _ _) as [d|] eqn:Hf; simpl in Hs; simplify_eq.
  apply List.find_some in Hf as [_ Hf]. by apply String.eqb_eq in Hf.
Qed.

(** The database spelling of a failure category is a bijection between
    the categories and the strings the parser accepts: writing then reading
    gives the category back, and any accepted string is exactly the spelling
    of the category it reads as. *)
Theorem failure_category_spelling s c :
  FailureCategory.from_str s = Ok c <-> s = FailureCategory.as_str c.
Proof.
  split; [apply as_str_from_str|]. intros ->. apply from_str_as_str.
Qed.

(** *** Backoff *)

Definition policy_u64 (p : RetryPolicy) : Prop :=
  0 <= initial_backoff_ms p <= u64_max /\
  0 <= max_backoff_ms p <= u64_max /\
  0 <= backoff_multiplier p <= u32_max.

Lemma backoff_loop_closed p steps b :
  0 <= b -> 0 <= max_backoff_ms p <= u64_max -> 1 <= backoff_multiplier p ->
  backoff_loop p steps b =
  Z.min (max_backoff_ms p) (b * backoff_multiplier p ^ Z.of_nat steps).
Proof.
  intros Hb Hmax Hmul. revert b Hb.
  induction steps as [|steps IH]; intros b Hb; simpl.
  { rewrite Z.pow_0_r. lia. }
  rewrite Nat2Z.inj_succ, Z.pow_succ_r by lia.
  set (m := backoff_multiplier p) in *. set (M := max_backoff_ms p) in *.
  assert (1 <= m ^ Z.of_nat steps) by (apply Z.lt_pred_le, Z.pow_pos_nonneg; lia).
  unfold saturating_mul_u64.
  destruct (Z.leb_spec M (Z.min u64_max (b * m))).
  - rewrite Z.min_l; [done|]. nia.
  - rewrite IH by nia. f_equal. rewrite Z.min_r by nia. ring.
Qed.

Lemma backoff_closed_form p n :
  policy_u64 p -> 1 <= backoff_multiplier p -> 1 <= n ->
  backoff_for_retry p n =
  Z.min (max_backoff_ms p) (initial_backoff_ms p * backoff_multiplier p ^ (n - 1)).
Proof.
  intros (Hi & Hm & _) Hmul Hn. unfold backoff_for_retry.
  destruct (Z.leb_spec n 1).
  - replace (n - 1) with 0 by lia. rewrite Z.pow_0_r. lia.
  - rewrite backoff_loop_closed by lia. by rewrite Z2Nat.id by lia.
Qed.

Lemma backoff_loop_bounded p steps b :
  backoff_loop p steps b <= max_backoff_ms p.
Proof.
  revert b. induction steps as [|steps IH]; intros b; simpl; [lia|].
  destruct (_ <=? _); [lia|apply IH].
Qed.

Lemma backoff_bounded p n : backoff_for_retry p n <= max_backoff_ms p.
Proof.
  unfold backoff_for_retry. destruct (_ <=? _); [lia|apply backoff_loop_bounded].
Qed.

(** C35: the saturating, early-returning backoff loop computes the capped
    exponential [min(max, initial * multiplier ^ (n - 1))] exactly, for every
    policy whose fields fit their machine widths and whose multiplier is at
    least one; the saturation at [u64::MAX] is never observable. *)
Theorem backoff_is_capped_exponential p n :
  policy_u64 p -> 1 <= backoff_multiplier p -> 1 <= n ->
  backoff_for_retry p n =
  Z.min (max_backoff_ms p) (initial_backoff_ms p * backoff_multiplier p ^ (n - 1)).
Proof. apply backoff_closed_form. Qed.

Lemma backoff_is_capped_exponential_witness :
  backoff_for_retry conservative 4 = 8000 /\
  backoff_for_retry conservative 4 =
  Z.min (max_backoff_ms conservative)
    (initial_backoff_ms conservative * backoff_multiplier conservative ^ (4 - 1)).
Proof.
  split; [reflexivity|].
  apply (backoff_is_capped_exponential conservative 4); vm_compute; intuition discriminate.
Defined.

(** *** The retry budget *)

(** The driver's attempts on one work unit: attempt [n] fails with the
    [n]-th category until the policy stops. The result is the last attempt
    made and why it stopped; [None] means the fuel ran out. *)
Fixpoint attempts_until_stop (p : RetryPolicy) (fuel : nat) (n : Z)
    (failure : Z -> FailureCategory.t) : option (Z * StopReason) :=
  match fuel with
  | O => None
  | S fuel =>
      match after_failure p n (failure n) with
      | Stop reason => Some (n, reason)
      | RetryAfter _ => attempts_until_stop p fuel (n + 1) failure
      end
  end.

Lemma after_failure_retry p n c d :
  after_failure p n c = RetryAfter d ->
  n < max_attempts p /\ FailureCategory.retryability c = Retryability.Retryable /\
  d <= max_backoff_ms p.
Proof.
  unfold after_failure. destruct (FailureCategory.retryability c) eqn:?; [|done].
  destruct (Z.ltb_spec n (max_attempts p)); [|done].
  intros [= <-]. split_and!; auto using backoff_bounded.
Qed.

Lemma attempts_bounded p fuel n failure :
  1 <= n -> (Z.to_nat (max_attempts p - n) < fuel)%nat ->
  exists last reason,
    attempts_until_stop p fuel n failure = Some (last, reason) /\
    n <= last <= Z.max n (max_attempts p).
Proof.
  revert n. induction fuel as [|fuel IH]; intros n Hn Hfuel; [lia|]. simpl.
  destruct (after_failure p n (failure n)) as [d|reason] eqn:Ha.
  - apply after_failure_retry in Ha as (? & _ & _).
    destruct (IH (n + 1)) as (last & reason & -> & ?); [lia..|].
    exists last, reason. split; [done|lia].
  - exists n, reason. split; [done|lia].
Qed.

(** C36: whatever each attempt fails with, a work unit that starts at attempt
    1 stops, never making more than [max_attempts] attempts (one, when the
    policy allows none). *)
Theorem retry_budget_terminates p failure :
  exists last reason,
    attempts_until_stop p (S (Z.to_nat (max_attempts p))) 1 failure = Some (last, reason) /\
    1 <= last <= Z.max 1 (max_attempts p).
Proof. apply attempts_bounded; lia. Qed.

(** *** Leases *)

Section lease_properties.
Context `{TimestampRange}.

Lemma plus_spec t d :
  0 <= d -> first_millis <= t <= last_millis ->
  plus t d = Z.min last_millis (t + whole_millis d).
Proof.
  intros Hd Ht. pose proof timestamp_range_ordered. pose proof timestamp_range_i64.
  assert (0 <= as_millis d) by (apply Z.div_pos; lia).
  unfold plus, from_saturated_millis, saturating_add_i64, whole_millis, clamp.
  unfold i64_min, i64_max in *. lia.
Qed.

Lemma ttl_from_secs_ok secs ttl :
  ttl_from_secs secs = Ok ttl -> ttl_get ttl = from_secs secs /\ 60 < secs.
Proof.
  unfold ttl_from_secs, LEASE_HEARTBEAT, from_secs.
  destruct (Z.ltb_spec (60 * 1000000000) (secs * 1000000000)); [|done].
  intros [= <-]. split; [done|lia].
Qed.

Lemma ttl_outlasts_heartbeat secs ttl :
  ttl_from_secs secs = Ok ttl -> as_millis LEASE_HEARTBEAT < whole_millis (ttl_get ttl).
Proof.
  intros [-> ?]%ttl_from_secs_ok. unfold whole_millis, i64_max.
  apply Z.min_glb_lt; [|done]. unfold as_millis, LEASE_HEARTBEAT, from_secs.
  change 1000000000 with (1000 * 1000000). rewrite !Z.mul_assoc, !Z.div_mul by lia. lia.
Qed.

Lemma lease_taken_ordered node now secs ttl :
  ttl_from_secs secs = Ok ttl -> first_millis <= now < last_millis ->
  lease_ordered (lease_taken node now ttl).
Proof.
  intros Httl Hnow. unfold lease_ordered; simpl.
  pose proof (ttl_outlasts_heartbeat _ _ Httl) as Hout.
  change (as_millis LEASE_HEARTBEAT) with 60000 in Hout.
  apply ttl_from_secs_ok in Httl as [Hg ?].
  rewrite plus_spec; [lia| |lia]. rewrite Hg. unfold from_secs. lia.
Qed.

Lemma lease_renew_ordered l now secs ttl :
  ttl_from_secs secs = Ok ttl -> first_millis <= now < last_millis ->
  lease_ordered (lease_renew l now ttl).
Proof. apply (lease_taken_ordered (leased_by_node l)). Qed.

Lemma lease_new_ordered node h e l : lease_new node h e = Ok l -> lease_ordered l.
Proof.
  unfold lease_new. destruct (Z.ltb_spec h e); [|done]. by intros [= <-].
Qed.

(** C34: a lease taken or renewed at [now] with any admitted lifetime is
    still held at the next heartbeat: renewing every [LEASE_HEARTBEAT] never
    lets the lease lapse while the runner is healthy (as long as the clock is
    within the range of dates). *)
Theorem lease_survives_heartbeat l now now' secs ttl :
  ttl_from_secs secs = Ok ttl ->
  first_millis <= now -> now <= now' <= now + as_millis LEASE_HEARTBEAT ->
  now' < last_millis ->
  is_held_at (lease_renew l now ttl) now' = true /\
  is_held_at (lease_taken (leased_by_node l) now ttl) now' = true.
Proof.
  intros Httl Hnow Hnow' Hlast.
  pose proof (ttl_outlasts_heartbeat _ _ Httl). apply ttl_from_secs_ok in Httl as [Hg ?].
  unfold is_held_at; simpl. split; apply Z.ltb_lt.
  all: rewrite plus_spec; [lia| |lia]; rewrite Hg; unfold from_secs; lia.
Qed.
End lease_properties.

(** A range wide enough for the years the program runs in. *)
Definition test_range : TimestampRange.
Proof.
  refine {| first_millis := -377705023201000; last_millis := 253402207200999 |}.
  - abstract lia.
  - unfold i64_min, i64_max. lia.
Defined.

Lemma lease_survives_heartbeat_witness :
  let TR := test_range in
  is_held_at (lease_renew (mkLease "node-a" 0 1) 10000 ttl_default) 70000 = true /\
  is_held_at (lease_taken "node-a" 10000 ttl_default) 70000 = true.
Proof.
  intros TR.
  apply (lease_survives_heartbeat (mkLease "node-a" 0 1) 10000 70000 300 ttl_default);
    vm_compute; intuition (try discriminate).
Defined.
