(* ===== verification/FilePhase.v ===== *)
(** * Per-file state: phases, their database image, progress and pool waits

    Models the per-file half of [crates/batchalign/src/store/mod.rs]:
    [FileFailure], [FilePhase] with its accessors, the [file_statuses] column
    image ([FilePhase::columns]) and its inverse ([FilePhase::from_row] with
    the report of what a row held and was not kept), the pool-wait counters
    ([OpenWorkerWaits], [ModelLoading]) and [FileStatus] with the progress it
    shows.

    The admission diagnostics and the exclusion records are carried and never
    inspected by this code, so their types are the class [Payload]. *)

From S2P Require Import Prelude Status Scheduling.
From stdpp Require Import base decidable option list strings numbers pretty.

Open Scope Z_scope.

Class Payload := {
  FileOutputDiagnostics : Type;
  OutputExclusionRecord : Type
}.

(** ** Failures *)

Inductive Failure :=
| Recorded (message : string) (category : FailureCategory.t)
| MessageOnly (message : string)
| CategoryOnly (category : FailureCategory.t)
| Unrecorded.

#[export] Instance Failure_eq_dec : EqDecision Failure.
Proof. solve_decision. Defined.

(** [FileFailure::of_failed_row]. *)
Definition of_failed_row (message : option string) (category : option FailureCategory.t)
    : Failure :=
  match message, category with
  | Some message, Some category => Recorded message category
  | Some message, None => MessageOnly message
  | None, Some category => CategoryOnly category
  | None, None => Unrecorded
  end.

(** [FileFailure::from_columns]. *)
Definition from_columns (message : option string) (category : option FailureCategory.t)
    : option Failure :=
  match message, category with
  | None, None => None
  | message, category => Some (of_failed_row message category)
  end.

Definition failure_message (f : Failure) : option string :=
  match f with
  | Recorded message _ | MessageOnly message => Some message
  | CategoryOnly _ | Unrecorded => None
  end.

Definition failure_category (f : Failure) : option FailureCategory.t :=
  match f with
  | Recorded _ category | CategoryOnly category => Some category
  | MessageOnly _ | Unrecorded => None
  end.

(** ** Phases *)

Section phases.
Context `{Payload}.

Inductive FilePhase :=
| PQueued
| PProcessing (started_at : option MachineTime)
| PRetryPending (started_at failed_at : option MachineTime) (retry_at : MachineTime)
    (failure : Failure)
| PDone (started_at finished_at : option MachineTime)
    (exclusions : list OutputExclusionRecord)
| PDiagnosed (started_at finished_at : option MachineTime)
    (diagnostics : option FileOutputDiagnostics)
    (exclusions : list OutputExclusionRecord)
| PError (started_at finished_at : option MachineTime) (failure : Failure)
| PInterrupted (started_at : option MachineTime) (last_failure : option Failure).

Definition kind (p : FilePhase) : FileStatusKind.t :=
  match p with
  | PQueued => FileStatusKind.Queued
  | PProcessing _ | PRetryPending _ _ _ _ => FileStatusKind.Processing
  | PDone _ _ _ => FileStatusKind.Done
  | PDiagnosed _ _ _ _ => FileStatusKind.Diagnosed
  | PError _ _ _ => FileStatusKind.Error
  | PInterrupted _ _ => FileStatusKind.Interrupted
  end.

Definition started_at (p : FilePhase) : option MachineTime :=
  match p with
  | PQueued => None
  | PProcessing s | PRetryPending s _ _ _ | PDone s _ _ | PDiagnosed s _ _ _
  | PError s _ _ | PInterrupted s _ => s
  end.

Definition finished_at (p : FilePhase) : option MachineTime :=
  match p with
  | PDone _ f _ | PDiagnosed _ f _ _ | PError _ f _ => f
  | PQueued | PProcessing _ | PRetryPending _ _ _ _ | PInterrupted _ _ => None
  end.

Definition failure (p : FilePhase) : option Failure :=
  match p with
  | PRetryPending _ _ _ failure | PError _ _ failure => Some failure
  | PInterrupted _ last_failure => last_failure
  | PQueued | PProcessing _ | PDone _ _ _ | PDiagnosed _ _ _ _ => None
  end.

Definition diagnostics (p : FilePhase) : option FileOutputDiagnostics :=
  match p with
  | PDiagnosed _ _ diagnostics _ => diagnostics
  | _ => None
  end.

Definition exclusions (p : FilePhase) : list OutputExclusionRecord :=
  match p with
  | PDone _ _ exclusions | PDiagnosed _ _ _ exclusions => exclusions
  | _ => []
  end.

(** [FilePhase::interrupted]: the phase after the server stopped under it. *)
Definition interrupted (p : FilePhase) : FilePhase :=
  match p with
  | PQueued => PInterrupted None None
  | PProcessing started_at => PInterrupted started_at None
  | PRetryPending started_at _ _ failure => PInterrupted started_at (Some failure)
  | unchanged => unchanged
  end.

Definition next_eligible_at (p : FilePhase) : option MachineTime :=
  match p with
  | PRetryPending _ _ retry_at _ => Some retry_at
  | _ => None
  end.

(** The latest of the instants present: [flatten().max()]. *)
Definition max_opt (a b : option MachineTime) : option MachineTime :=
  match a, b with
  | Some a, Some b => Some (Z.max a b)
  | Some a, None => Some a
  | None, b => b
  end.

Definition last_activity_at (p : FilePhase) : option MachineTime :=
  let failed_at := match p with PRetryPending _ failed_at _ _ => failed_at | _ => None end in
  max_opt (started_at p) (max_opt (finished_at p) failed_at).

(** ** The database image *)

Record FilePhaseColumns := mkColumns {
  col_status : FileStatusKind.t;
  col_error : option string;
  col_error_category : option FailureCategory.t;
  col_diagnostics : option FileOutputDiagnostics;
  col_exclusions : option (list OutputExclusionRecord);
  col_started_at : option MachineTime;
  col_finished_at : option MachineTime;
  col_next_eligible_at : option MachineTime
}.

(** [Some(exclusions).filter(|e| !e.is_empty())]: NULL for none. *)
Definition nonempty {A} (l : list A) : option (list A) :=
  match l with [] => None | _ => Some l end.

Definition columns (p : FilePhase) : FilePhaseColumns :=
  let failure := failure p in
  let image started finished eligible :=
    {| col_status := kind p;
       col_error := failure ≫= failure_message;
       col_error_category := failure ≫= failure_category;
       col_diagnostics := diagnostics p;
       col_exclusions := nonempty (exclusions p);
       col_started_at := started;
       col_finished_at := finished;
       col_next_eligible_at := eligible |} in
  match p with
  | PQueued => image None None None
  | PProcessing started_at => image started_at None None
  | PRetryPending started_at failed_at retry_at _ =>
      image started_at failed_at (Some retry_at)
  | PDone started_at finished_at _ | PDiagnosed started_at finished_at _ _ =>
      image started_at finished_at None
  | PError started_at finished_at _ => image started_at finished_at None
  | PInterrupted started_at _ => image started_at None None
  end.

(** [RowHeld] and [RowHeld::not_kept_by]: the columns a row held that the
    rebuilt phase does not write back, in the report's order. *)
Definition not_kept_by (row kept : FilePhaseColumns) : list string :=
  let held {A B} (r : option A) (k : option B) (name : string) :=
    if bool_decide (is_Some r) && negb (bool_decide (is_Some k)) then [name] else [] in
  let held_failure :=
    bool_decide (is_Some (col_error row)) || bool_decide (is_Some (col_error_category row)) in
  let kept_failure :=
    bool_decide (is_Some (col_error kept)) || bool_decide (is_Some (col_error_category kept)) in
  held (col_started_at row) (col_started_at kept) "started_at" ++
  held (col_finished_at row) (col_finished_at kept) "finished_at" ++
  held (col_next_eligible_at row) (col_next_eligible_at kept) "next_eligible_at" ++
  (if held_failure && negb kept_failure then ["an error"] else []) ++
  held (col_diagnostics row) (col_diagnostics kept) "diagnostics" ++
  held (col_exclusions row) (col_exclusions kept) "exclusions".

(** The phase a stored row rebuilds to: the [match] of [from_row]. *)
Definition phase_of_row (row : FilePhaseColumns) : FilePhase :=
  let message := col_error row in
  let category := col_error_category row in
  let written_exclusions := default [] (col_exclusions row) in
  match col_status row, col_next_eligible_at row with
  | FileStatusKind.Processing, Some retry_at =>
      PRetryPending (col_started_at row) (col_finished_at row) retry_at
        (of_failed_row message category)
  | FileStatusKind.Processing, None => PProcessing (col_started_at row)
  | FileStatusKind.Error, _ =>
      PError (col_started_at row) (col_finished_at row) (of_failed_row message category)
  | FileStatusKind.Interrupted, _ =>
      PInterrupted (col_started_at row) (from_columns message category)
  | FileStatusKind.Done, _ =>
      PDone (col_started_at row) (col_finished_at row) written_exclusions
  | FileStatusKind.Diagnosed, _ =>
      PDiagnosed (col_started_at row) (col_finished_at row) (col_diagnostics row)
        written_exclusions
  | FileStatusKind.Queued, _ => PQueued
  end.

Definition from_row (row : FilePhaseColumns) : FilePhase * option string :=
  let phase := phase_of_row row in
  let dropped := not_kept_by row (columns phase) in
  let report :=
    match dropped with
    | [] => None
    | _ =>
        Some ("the " +:+ FileStatusKind.to_string (col_status row) +:+ " row held "
              +:+ join_with ", " dropped +:+ ", which "
              +:+ (if (length dropped =? 1)%nat then "was" else "were") +:+ " not kept")
    end in
  (phase, report).

End phases.

(** ** Ephemeral progress and pool waits *)

Record FileProgress := mkProgress {
  progress_current : option Z;
  progress_total : option Z;
  progress_stage : option FileProgressStage.t
}.

Definition no_progress : FileProgress := mkProgress None None None.

Inductive PoolWait :=
| Worker
| HostMemory.

Inductive ModelLoadProgress :=
| Preparing
| Downloading (grown_kib : Z).

Inductive ModelLoadChange :=
| LoadStarted
| LoadAdvanced (progress : ModelLoadProgress)
| LoadEnded.

Inductive WorkerWaitChange :=
| WaitStarted (wait : PoolWait)
| WaitEnded (wait : PoolWait)
| ModelLoad (change : ModelLoadChange).

(** [ModelLoading::Active] counts in a [NonZeroU32]. *)
Inductive ModelLoading :=
| LoadInactive
| LoadActive (count : Z) (progress : ModelLoadProgress).

Definition loading_apply (s : ModelLoading) (change : ModelLoadChange) : ModelLoading :=
  match s, change with
  | LoadInactive, LoadStarted => LoadActive 1 Preparing
  | LoadActive count _, LoadStarted => LoadActive (saturating_add_u32 count 1) Preparing
  | LoadActive count _, LoadAdvanced progress => LoadActive count progress
  | LoadActive count _, LoadEnded =>
      if (count - 1 =? 0)%Z then LoadInactive else LoadActive (count - 1) Preparing
  | LoadInactive, (LoadAdvanced _ | LoadEnded) => LoadInactive
  end.

Record OpenWorkerWaits := mkWaits {
  waits_worker : Z;
  waits_host_memory : Z;
  waits_loading : ModelLoading
}.

Definition no_waits : OpenWorkerWaits := mkWaits 0 0 LoadInactive.

Definition wait_count (w : OpenWorkerWaits) (wait : PoolWait) : Z :=
  match wait with Worker => waits_worker w | HostMemory => waits_host_memory w end.

Definition set_wait_count (w : OpenWorkerWaits) (wait : PoolWait) (n : Z) : OpenWorkerWaits :=
  match wait with
  | Worker => mkWaits n (waits_host_memory w) (waits_loading w)
  | HostMemory => mkWaits (waits_worker w) n (waits_loading w)
  end.

(** [OpenWorkerWaits::apply]; an end with no open wait changes nothing. *)
Definition waits_apply (w : OpenWorkerWaits) (change : WorkerWaitChange) : OpenWorkerWaits :=
  match change with
  | ModelLoad change =>
      mkWaits (waits_worker w) (waits_host_memory w) (loading_apply (waits_loading w) change)
  | WaitStarted wait => set_wait_count w wait (saturating_add_u32 (wait_count w wait) 1)
  | WaitEnded wait =>
      if (wait_count w wait <? 1)%Z then w
      else set_wait_count w wait (wait_count w wait - 1)
  end.

Definition shown_stage (w : OpenWorkerWaits) : option FileProgressStage.t :=
  if (1 <=? waits_host_memory w)%Z then Some FileProgressStage.WaitingForHostMemory
  else if (1 <=? waits_worker w)%Z then Some FileProgressStage.WaitingForWorker
  else match waits_loading w with
       | LoadInactive => None
       | LoadActive _ Preparing => Some FileProgressStage.PreparingWorker
       | LoadActive _ (Downloading _) => Some FileProgressStage.DownloadingModel
       end.

(** ** One file *)

Inductive FileStampOutcome :=
| StampUnrecorded
| Stamped (command : string)
| NotStamped (command reason : string).

Section file_status.
Context `{Payload}.

Record FileStatus := mkFileStatus {
  filename : string;
  phase : FilePhase;
  stamp : FileStampOutcome;
  current_attempt_id : option string;
  progress : FileProgress;
  worker_waits : OpenWorkerWaits
}.

(** [FileStatus::new]. *)
Definition file_new (name : string) : FileStatus :=
  {| filename := name; phase := PQueued; stamp := StampUnrecorded;
     current_attempt_id := None; progress := no_progress; worker_waits := no_waits |}.

Definition status (f : FileStatus) : FileStatusKind.t := kind (phase f).

Definition set_phase (f : FileStatus) (p : FilePhase) : FileStatus :=
  mkFileStatus (filename f) p (stamp f) (current_attempt_id f) (progress f) (worker_waits f).

Definition set_progress (f : FileStatus) (p : FileProgress) : FileStatus :=
  mkFileStatus (filename f) (phase f) (stamp f) (current_attempt_id f) p (worker_waits f).

Definition set_stamp (f : FileStatus) (s : FileStampOutcome) : FileStatus :=
  mkFileStatus (filename f) (phase f) s (current_attempt_id f) (progress f) (worker_waits f).

Definition set_attempt (f : FileStatus) (a : option string) : FileStatus :=
  mkFileStatus (filename f) (phase f) (stamp f) a (progress f) (worker_waits f).

Definition set_waits (f : FileStatus) (w : OpenWorkerWaits) : FileStatus :=
  mkFileStatus (filename f) (phase f) (stamp f) (current_attempt_id f) (progress f) w.

(** [FileStatus::shown_progress]: an open pool wait hides the pipeline's own
    stage, for an in-flight file only. *)
Definition shown_progress (f : FileStatus) : FileProgress :=
  match shown_stage (worker_waits f), FileStatusKind.is_terminal (status f) with
  | Some stage, false =>
      {| progress_stage := Some stage;
         progress_current :=
           match stage, waits_loading (worker_waits f) with
           | FileProgressStage.DownloadingModel, LoadActive _ (Downloading grown_kib) =>
               Some grown_kib
           | _, _ => None
           end;
         progress_total := None |}
  | None, _ | Some _, true => progress f
  end.

(** [FileStatus::requeue]. *)
Definition requeue (f : FileStatus) : FileStatus :=
  {| filename := filename f; phase := PQueued; stamp := stamp f;
     current_attempt_id := None; progress := no_progress; worker_waits := no_waits |}.

(** [FileStatusEntry], the API's view of a file; the rendered review text is
    not modelled, and the duration is kept as the duration its seconds are
    computed from. *)
Record FileStatusEntry := mkEntry {
  entry_filename : string;
  entry_status : FileStatusKind.t;
  entry_error : option string;
  entry_error_category : option FailureCategory.t;
  entry_diagnostics : option FileOutputDiagnostics;
  entry_exclusions : list OutputExclusionRecord;
  entry_stamp : FileStampOutcome;
  entry_started_at : option MachineTime;
  entry_finished_at : option MachineTime;
  entry_duration : option Duration;
  entry_next_eligible_at : option MachineTime;
  entry_progress_current : option Z;
  entry_progress_total : option Z;
  entry_progress_stage : option FileProgressStage.t;
  entry_progress_label : option string
}.

(** [FileStatus::to_entry]. *)
Definition to_entry (f : FileStatus) : FileStatusEntry :=
  let started := started_at (phase f) in
  let finished := finished_at (phase f) in
  let failure := failure (phase f) in
  let progress := shown_progress f in
  {| entry_filename := filename f;
     entry_status := kind (phase f);
     entry_error := failure ≫= failure_message;
     entry_error_category := failure ≫= failure_category;
     entry_diagnostics := diagnostics (phase f);
     entry_exclusions := exclusions (phase f);
     entry_stamp := stamp f;
     entry_started_at := started;
     entry_finished_at := finished;
     entry_duration :=
       match started, finished with
       | Some started, Some finished => Some (saturating_duration_since finished started)
       | _, _ => None
       end;
     entry_next_eligible_at := next_eligible_at (phase f);
     entry_progress_current := progress_current progress;
     entry_progress_total := progress_total progress;
     entry_progress_stage := progress_stage progress;
     entry_progress_label :=
       (fun stage =>
          match stage, progress_current progress with
          | FileProgressStage.DownloadingModel, Some grown_kib =>
              "Downloading model (" +:+ pretty grown_kib +:+ " KiB received)"
          | _, _ => FileProgressStage.label stage
          end) <$> progress_stage progress |}.

End file_status.

(** ** Properties *)

Section phase_properties.
Context `{Payload}.
Implicit Types (p : FilePhase) (row : FilePhaseColumns).

Lemma of_failed_row_columns f : of_failed_row (failure_message f) (failure_category f) = f.
Proof. by destruct f. Qed.

Lemma default_nonempty {A} (l : list A) : default [] (nonempty l) = l.
Proof. by destruct l. Qed.

(** A finish time exists only on a terminal phase. *)
Lemma finished_only_terminal p t :
  finished_at p = Some t -> FileStatusKind.is_terminal (kind p) = true.
Proof. by destruct p. Qed.

Lemma interrupted_kind p :
  kind (interrupted p) =
  if FileStatusKind.is_terminal (kind p) then kind p else FileStatusKind.Interrupted.
Proof. by destruct p. Qed.

Lemma interrupted_idempotent p : interrupted (interrupted p) = interrupted p.
Proof. by destruct p. Qed.

Lemma interrupted_keeps_failure p : failure (interrupted p) = failure p.
Proof. by destruct p. Qed.

Lemma interrupted_keeps_start p : started_at (interrupted p) = started_at p.
Proof. by destruct p. Qed.

(** The one phase whose image does not name it: an interruption that knows a
    failure happened and nothing about it. *)
Definition nameless_interruption p : Prop :=
  exists started, p = PInterrupted started (Some Unrecorded).

Lemma phase_of_row_columns p : ~ nameless_interruption p -> phase_of_row (columns p) = p.
Proof.
  intros Hn. destruct p as [| | ? ? ? f | | | ? ? f | s [f|]]; simpl; try done.
  all: unfold phase_of_row; simpl; rewrite ?of_failed_row_columns, ?default_nonempty; try done.
  destruct f; simpl; try done. exfalso. apply Hn. by exists s.
Qed.

Lemma not_kept_by_refl row : not_kept_by row row = [].
Proof.
  destruct row as [k [] [] [] [] [] [] []]; reflexivity.
Qed.

(** C29: the column image and the row reader are inverse: reading back the
    row a phase writes gives that very phase and reports nothing, for every
    phase except an interruption whose last failure recorded neither a
    message nor a category. *)
Theorem from_row_columns p :
  ~ nameless_interruption p <-> from_row (columns p) = (p, None).
Proof.
  unfold from_row. split.
  - intros Hn. by rewrite phase_of_row_columns, not_kept_by_refl.
  - intros Heq [s ->]. discriminate Heq.
Qed.

(** C30: whatever row is stored, by this build or another, the reader reports
    nothing exactly when writing the phase back gives the same row: a column
    is never dropped silently, and nothing kept is ever reported. *)
Theorem from_row_reports_exactly_what_is_lost row :
  (from_row row).2 = None <-> columns (from_row row).1 = row.
Proof.
  unfold from_row; simpl. split.
  - destruct row as [k err cat dia exc st fin el].
    destruct k, err, cat, dia, exc as [[|]|], st, fin, el; cbn; intros; done.
  - intros Heq. by rewrite Heq, not_kept_by_refl.
Qed.

End phase_properties.

(** *** Pool waits *)

Definition loading_wf (l : ModelLoading) : Prop :=
  match l with LoadInactive => True | LoadActive n _ => 1 <= n <= u32_max end.

(** The machine widths of the three counters. *)
Definition waits_wf (w : OpenWorkerWaits) : Prop :=
  0 <= waits_worker w <= u32_max /\ 0 <= waits_host_memory w <= u32_max /\
  loading_wf (waits_loading w).

Lemma loading_apply_wf l c : loading_wf l -> loading_wf (loading_apply l c).
Proof.
  unfold saturating_add_u32, u32_max in *.
  destruct l as [|n p], c; simpl; unfold saturating_add_u32, u32_max in *; try lia.
  intros. destruct (Z.eqb_spec (n - 1) 0); simpl; unfold u32_max; lia.
Qed.

Lemma waits_apply_wf w c : waits_wf w -> waits_wf (waits_apply w c).
Proof.
  unfold waits_wf, waits_apply, set_wait_count, wait_count, saturating_add_u32.
  intros (? & ? & ?). destruct c as [[]|[]|c]; simpl.
  - unfold u32_max in *; split_and!; auto; lia.
  - unfold u32_max in *; split_and!; auto; lia.
  - destruct (Z.ltb_spec (waits_worker w) 1); simpl; split_and!; auto; lia.
  - destruct (Z.ltb_spec (waits_host_memory w) 1); simpl; split_and!; auto; lia.
  - split_and!; auto using loading_apply_wf; lia.
Qed.

(** How many of [wait]'s starts in [cs] are still open after them, an end
    with none open not counting. *)
Fixpoint open_after (wait : PoolWait) (n : Z) (cs : list WorkerWaitChange) : Z :=
  match cs with
  | [] => n
  | WaitStarted Worker :: cs =>
      open_after wait (match wait with Worker => n + 1 | HostMemory => n end) cs
  | WaitStarted HostMemory :: cs =>
      open_after wait (match wait with HostMemory => n + 1 | Worker => n end) cs
  | WaitEnded Worker :: cs =>
      open_after wait (match wait with Worker => Z.max 0 (n - 1) | HostMemory => n end) cs
  | WaitEnded HostMemory :: cs =>
      open_after wait (match wait with HostMemory => Z.max 0 (n - 1) | Worker => n end) cs
  | ModelLoad _ :: cs => open_after wait n cs
  end.

Lemma open_after_nonneg wait n cs : 0 <= n -> 0 <= open_after wait n cs.
Proof.
  revert n. induction cs as [|[[]|[]|] cs IH]; intros n Hn; simpl; auto.
  all: apply IH; destruct wait; lia.
Qed.

Lemma wait_count_apply w wait c :
  waits_wf w -> wait_count w wait < u32_max ->
  wait_count (waits_apply w c) wait = open_after wait (wait_count w wait) [c].
Proof.
  unfold waits_wf, waits_apply, wait_count, set_wait_count, saturating_add_u32.
  intros (? & ? & _) ?. unfold u32_max in *.
  destruct c as [[]|[]|c], wait; simpl; try done; try lia.
  all: repeat match goal with |- context [?a <? 1] => destruct (Z.ltb_spec a 1) end; simpl; lia.
Qed.

Lemma open_after_app wait n cs ds :
  open_after wait n (cs ++ ds) = open_after wait (open_after wait n cs) ds.
Proof. revert n. induction cs as [|[[]|[]|] cs IH]; intros; simpl; auto. Qed.

Lemma waits_fold_wf cs w : waits_wf w -> waits_wf (foldl waits_apply w cs).
Proof. revert w. induction cs; simpl; auto using waits_apply_wf. Qed.

Lemma no_waits_wf : waits_wf no_waits.
Proof. vm_compute. intuition discriminate. Qed.

Lemma open_after_bound wait n cs :
  0 <= n -> open_after wait n cs <= n + Z.of_nat (length cs).
Proof.
  revert n. induction cs as [|[[]|[]|] cs IH]; intros n Hn; simpl length; simpl open_after;
    [lia|..]; (etrans; [apply IH; destruct wait; lia|]); destruct wait; lia.
Qed.

(** C37: the counters are exact: after any sequence of fewer than [u32::MAX]
    changes applied to a fresh file, each counter is the number of that
    wait's starts still open (an end with none open changes nothing), inside
    its machine width, and never wraps. *)
Theorem waits_count_open_waits cs wait :
  Z.of_nat (length cs) < u32_max ->
  waits_wf (foldl waits_apply no_waits cs) /\
  wait_count (foldl waits_apply no_waits cs) wait = open_after wait 0 cs.
Proof.
  intros Hlen. split; [apply waits_fold_wf, no_waits_wf|].
  induction cs as [|c cs IH] using rev_ind; [by destruct wait|].
  rewrite length_app in Hlen; simpl in Hlen.
  rewrite foldl_snoc, open_after_app, <- IH by lia.
  apply wait_count_apply; [apply waits_fold_wf, no_waits_wf|].
  rewrite IH by lia. pose proof (open_after_bound wait 0 cs ltac:(lia)). lia.
Qed.

Lemma waits_count_open_waits_witness :
  let cs := [WaitStarted Worker; WaitStarted Worker; WaitEnded HostMemory; WaitEnded Worker] in
  waits_wf (foldl waits_apply no_waits cs) /\
  wait_count (foldl waits_apply no_waits cs) Worker = open_after Worker 0 cs.
Proof. intros cs. apply (waits_count_open_waits cs Worker). reflexivity. Defined.

Section progress_properties.
Context `{Payload}.

(** A terminal file shows the progress its pipeline reported, whatever waits
    are still counted against it. *)
Lemma terminal_shows_pipeline_progress f :
  FileStatusKind.is_terminal (status f) = true -> shown_progress f = progress f.
Proof. unfold shown_progress. intros ->. by destruct (shown_stage _). Qed.

Lemma requeue_status f : status (requeue f) = FileStatusKind.Queued.
Proof. done. Qed.
End progress_properties.
