(* ===== verification/Job.v ===== *)
(** * The job: data, lifecycle, file transitions, leases, projections

    Models [crates/batchalign/src/store/job/]: the [Job] record
    ([types.rs]), the top-level state machine ([lifecycle.rs]), the per-file
    transitions ([file_status.rs]), the queue lease ([lease.rs]), the status
    image and the runner projections ([projections.rs]) and conflict
    detection ([conflict.rs]).

    A method that mutates the job takes the job and returns the new one; a
    method that also answers returns the pair. The catalog of commands, the
    typed command options and the other documents a job only carries are the
    class [Catalog], whose one operation is what restart asks of it. *)

From S2P Require Import Prelude Status Scheduling FilePhase.
From stdpp Require Import base decidable option list gmap strings numbers pretty.

Open Scope Z_scope.

Module ReleasedCommand.

Inductive t :=
| Align
| Transcribe
| TranscribeS
| Translate
| Morphotag
| Coref
| Utseg
| Benchmark
| Opensmile
| Compare
| Avqi
| Diarize
| SpeakerIdentify
| Convert.

#[global] Instance eq_dec : EqDecision t.
Proof. solve_decision. Defined.

End ReleasedCommand.

(** What the job needs of the command catalog: the options it was submitted
    with select an output policy, or are refused. *)
Class Catalog := {
  CommandOptions : Type;
  LanguageSpec : Type;
  RuntimeState : Type;
  ExecutionPlan : Type;
  OutputPolicy : Type;
  PlanningError : Type;
  selected_output_policy :
    ReleasedCommand.t -> CommandOptions -> result PlanningError OutputPolicy
}.

Inductive ContentType :=
| Chat
| Csv
| Text
| Json
| Wav
| Mp3.

(** ** Who submitted a job *)

Record Submitter := mkSubmitter {
  address : string;
  submitter_name : option string
}.

Definition string_is_empty (s : string) : bool := String.eqb s "".

(** [Submitter::client]: a resolution that named nothing records no name. *)
Definition client (addr resolved_name : string) : Submitter :=
  {| address := addr;
     submitter_name := then_some (negb (string_is_empty resolved_name)) resolved_name |}.

(** [Submitter::direct_cli]. *)
Definition direct_cli : Submitter :=
  {| address := "127.0.0.1"; submitter_name := Some "direct-cli" |}.

Inductive StoredSubmitter :=
| SubmitterRecorded (s : Submitter)
| SubmitterAbsent
| NameWithoutAddress (name : string).

(** [Submitter::from_columns] and [Submitter::columns]: the database
    boundary, where the empty string means absent. *)
Definition submitter_from_columns (addr name : string) : StoredSubmitter :=
  match string_is_empty addr, string_is_empty name with
  | true, true => SubmitterAbsent
  | true, false => NameWithoutAddress name
  | false, _ =>
      SubmitterRecorded
        {| address := addr;
           submitter_name := then_some (negb (string_is_empty name)) name |}
  end.

Definition submitter_columns (s : option Submitter) : string * string :=
  match s with
  | Some s => (address s, match submitter_name s with Some name => name | None => "" end)
  | None => ("", "")
  end.

(** ** The job record *)

Record FileResultEntry := mkResult {
  result_filename : string;
  content_type : ContentType;
  result_error : option string
}.

Record JobLastCancelInfo := mkLastCancel {
  cancel_at : MachineTime;
  cancel_source : string;
  cancel_host : option string;
  cancel_reason : option string
}.

(** [RunGeneration(u64)]: the first generation and the next one. The source
    adds with a plain [+], which wraps in a release build, as here; a build
    with overflow checks would panic at the last generation instead. *)
Abbreviation RunGeneration := Z.
Definition FIRST : RunGeneration := 0.
Definition generation_next (g : RunGeneration) : RunGeneration := (g + 1) mod 2 ^ 64.

Record JobIdentity := mkIdentity {
  job_id : string;
  correlation_id : string
}.

Record JobSourceContext := mkSource {
  submitter : option Submitter;
  source_dir : string
}.

Record JobFilesystemConfig := mkFilesystem {
  filenames : list string;
  has_chat : list bool;
  staging_dir : string;
  paths_mode : bool;
  source_paths : list string;
  output_paths : list string;
  before_paths : list (option string);
  media_mapping : string;
  media_subdir : string;
  fs_source_dir : string
}.

Record JobScheduleState := mkSchedule {
  submitted_at : MachineTime;
  completed_at : option MachineTime;
  job_next_eligible_at : option MachineTime;
  num_workers : option Z;
  lease : option LeaseRecord;
  last_cancel : option JobLastCancelInfo
}.

(** The cancellation token is modelled by whether it was triggered: its
    clones share that fact, and [CancellationToken::new()] is a fresh one. *)
Record JobRuntimeControl := mkRuntime {
  cancel_token : bool;
  runner_active : bool;
  run_generation : RunGeneration
}.

Section jobs.
Context `{Payload} `{Catalog}.

Record JobDispatchConfig := mkDispatch {
  command : ReleasedCommand.t;
  lang : LanguageSpec;
  num_speakers : Z;
  options : CommandOptions;
  runtime_state : RuntimeState;
  debug_traces : bool
}.

Record JobExecutionState := mkExecution {
  job_status : JobStatus.t;
  file_statuses : gmap string FileStatus;
  results : list FileResultEntry;
  error : option string;
  completed_files : Z
}.

Record Job := mkJob {
  identity : JobIdentity;
  dispatch : JobDispatchConfig;
  source : JobSourceContext;
  filesystem : JobFilesystemConfig;
  execution : JobExecutionState;
  schedule : JobScheduleState;
  runtime : JobRuntimeControl;
  execution_plan : option ExecutionPlan
}.

(** Field assignments [self.execution.x = ..] and the like. *)
Definition with_execution (j : Job) (e : JobExecutionState) : Job :=
  mkJob (identity j) (dispatch j) (source j) (filesystem j) e (schedule j) (runtime j)
    (execution_plan j).
Definition with_schedule (j : Job) (s : JobScheduleState) : Job :=
  mkJob (identity j) (dispatch j) (source j) (filesystem j) (execution j) s (runtime j)
    (execution_plan j).
Definition with_runtime (j : Job) (r : JobRuntimeControl) : Job :=
  mkJob (identity j) (dispatch j) (source j) (filesystem j) (execution j) (schedule j) r
    (execution_plan j).

Definition put_execution_plan (j : Job) (plan : option ExecutionPlan) : Job :=
  mkJob (identity j) (dispatch j) (source j) (filesystem j) (execution j) (schedule j)
    (runtime j) plan.

Definition put_status (j : Job) (s : JobStatus.t) : Job :=
  let e := execution j in
  with_execution j (mkExecution s (file_statuses e) (results e) (error e) (completed_files e)).
Definition put_files (j : Job) (m : gmap string FileStatus) : Job :=
  let e := execution j in
  with_execution j (mkExecution (job_status e) m (results e) (error e) (completed_files e)).
Definition put_results (j : Job) (rs : list FileResultEntry) : Job :=
  let e := execution j in
  with_execution j (mkExecution (job_status e) (file_statuses e) rs (error e) (completed_files e)).
Definition put_error (j : Job) (err : option string) : Job :=
  let e := execution j in
  with_execution j
    (mkExecution (job_status e) (file_statuses e) (results e) err (completed_files e)).
Definition put_completed_files (j : Job) (n : Z) : Job :=
  let e := execution j in
  with_execution j (mkExecution (job_status e) (file_statuses e) (results e) (error e) n).

Definition put_completed_at (j : Job) (t : option MachineTime) : Job :=
  let s := schedule j in
  with_schedule j (mkSchedule (submitted_at s) t (job_next_eligible_at s) (num_workers s)
    (lease s) (last_cancel s)).
Definition put_next_eligible_at (j : Job) (t : option MachineTime) : Job :=
  let s := schedule j in
  with_schedule j (mkSchedule (submitted_at s) (completed_at s) t (num_workers s)
    (lease s) (last_cancel s)).
Definition put_num_workers (j : Job) (n : option Z) : Job :=
  let s := schedule j in
  with_schedule j (mkSchedule (submitted_at s) (completed_at s) (job_next_eligible_at s) n
    (lease s) (last_cancel s)).
Definition put_lease (j : Job) (l : option LeaseRecord) : Job :=
  let s := schedule j in
  with_schedule j (mkSchedule (submitted_at s) (completed_at s) (job_next_eligible_at s)
    (num_workers s) l (last_cancel s)).
Definition put_last_cancel (j : Job) (c : option JobLastCancelInfo) : Job :=
  let s := schedule j in
  with_schedule j (mkSchedule (submitted_at s) (completed_at s) (job_next_eligible_at s)
    (num_workers s) (lease s) c).

Definition put_cancel_token (j : Job) (b : bool) : Job :=
  let r := runtime j in with_runtime j (mkRuntime b (runner_active r) (run_generation r)).
Definition put_runner_active (j : Job) (b : bool) : Job :=
  let r := runtime j in with_runtime j (mkRuntime (cancel_token r) b (run_generation r)).
Definition put_run_generation (j : Job) (g : RunGeneration) : Job :=
  let r := runtime j in with_runtime j (mkRuntime (cancel_token r) (runner_active r) g).

(** Shorthands for the fields the methods read. *)
Definition st (j : Job) : JobStatus.t := job_status (execution j).
Definition files (j : Job) : gmap string FileStatus := file_statuses (execution j).

(** ** Lifecycle: predicates over the files *)

Definition is_cancelled (j : Job) : bool := cancel_token (runtime j).

Definition file_terminal (f : FileStatus) : bool := FileStatusKind.is_terminal (status f).
Definition file_errored (f : FileStatus) : bool :=
  FileStatusKind.eqb (status f) FileStatusKind.Error.
Definition file_wrote_output (f : FileStatus) : bool := FileStatusKind.wrote_output (status f).
Definition file_resumable (f : FileStatus) : bool := FileStatusKind.is_resumable (status f).

Definition all_terminal_files_failed (j : Job) : bool :=
  let terminal :=
    map status (List.filter file_terminal (map_values (files j))) in
  negb (match terminal with [] => true | _ => false end) &&
  forallb (fun s => FileStatusKind.eqb s FileStatusKind.Error) terminal.

Definition any_terminal_files_failed (j : Job) : bool :=
  existsb file_errored (List.filter file_terminal (map_values (files j))).

(** [Job::total_files]. *)
Definition total_files (j : Job) : nat := length (filenames (filesystem j)).

(** ** Lifecycle: the status machine *)

(** [Job::set_status]: the only write of the status, refused unless the
    machine permits it for this reason. *)
Definition set_status (j : Job) (next : JobStatus.t) (reason : StatusChange.t) : Job * bool :=
  if can_transition_to (st j) next reason then (put_status j next, true) else (j, false).

(** The [jobs] columns a status owns. *)
Record JobStatusColumns := mkStatusColumns {
  sc_status : JobStatus.t;
  sc_error : option string;
  sc_completed_at : option MachineTime;
  sc_num_workers : option Z;
  sc_next_eligible_at : option MachineTime
}.

Inductive StopKind :=
| StopInterrupted
| StopCancelled.

(** [Stop::status]. *)
Definition stop_status (s : StopKind) : JobStatus.t :=
  match s with
  | StopInterrupted => JobStatus.Interrupted
  | StopCancelled => JobStatus.Cancelled
  end.

(** [JobStatusColumns::stopped]: the one statement of the stop transition,
    for a live job and for a stored row alike. *)
Definition stopped (c : JobStatusColumns) (stop : StopKind) (at_ : MachineTime)
    : JobStatusColumns :=
  {| sc_status := stop_status stop; sc_error := sc_error c; sc_completed_at := Some at_;
     sc_num_workers := sc_num_workers c; sc_next_eligible_at := None |}.

(** [Job::status_columns]. *)
Definition status_columns (j : Job) : JobStatusColumns :=
  {| sc_status := st j;
     sc_error := error (execution j);
     sc_completed_at := completed_at (schedule j);
     sc_num_workers := num_workers (schedule j);
     sc_next_eligible_at := job_next_eligible_at (schedule j) |}.

Definition adopt_status_columns (j : Job) (image : JobStatusColumns) : Job :=
  let j := put_status j (sc_status image) in
  let j := put_error j (sc_error image) in
  let j := put_completed_at j (sc_completed_at image) in
  let j := put_num_workers j (sc_num_workers image) in
  put_next_eligible_at j (sc_next_eligible_at image).

(** [Job::stop]. *)
Definition stop (j : Job) (kind : StopKind) (at_ : MachineTime) : Job * bool :=
  let '(j, applied) := set_status j (stop_status kind) StatusChange.Interrupt in
  if negb applied then (j, false)
  else
    let image := stopped (status_columns j) kind at_ in
    (adopt_status_columns j image, true).

Definition request_cancellation (j : Job) (now : MachineTime) : Job * option MachineTime :=
  let j := put_cancel_token j true in
  let '(j, applied) := stop j StopCancelled now in
  (j, then_some applied now).

Definition requeue_after_memory_gate (j : Job) (retry_at : MachineTime) : Job * bool :=
  let '(j, applied) := set_status j JobStatus.Queued StatusChange.MemoryRequeue in
  if negb applied then (j, false)
  else
    let j := put_completed_at j None in
    (put_next_eligible_at j (Some retry_at), true).

Definition mark_running (j : Job) : Job * bool :=
  let '(j, applied) := set_status j JobStatus.Running StatusChange.Dispatch in
  if negb applied then (j, false) else (put_next_eligible_at j None, true).

(** [num_workers as i64] of a [usize]. *)
Definition usize_as_i64 (n : Z) : Z := if n <=? i64_max then n else n - 2 ^ 64.

Definition record_worker_count (j : Job) (n : Z) : Job :=
  put_num_workers j (Some (usize_as_i64 n)).

Definition fail (j : Job) (message : string) (now : MachineTime) : Job * bool :=
  let '(j, applied) := set_status j JobStatus.Failed StatusChange.Finalize in
  if negb applied then (j, false)
  else
    let j := put_error j (Some message) in
    (put_completed_at j (Some now), true).

(** ** Leases

    [lease_blocks_local_dispatch], [next_local_dispatch_wake_at],
    [ready_for_local_dispatch] and [claim_for_local_dispatch] are compiled for
    tests alone ([#[cfg(test)]] in lease.rs); production code takes a lease in
    [begin_runner] of [Registry.v]. *)

Definition clear_lease (j : Job) : Job := put_lease j None.

Definition active_lease (j : Job) : option LeaseRecord := lease (schedule j).

Definition lease_blocks_local_dispatch (j : Job) (now : MachineTime) : bool :=
  match lease (schedule j) with Some l => is_held_at l now | None => false end.

Definition next_local_dispatch_wake_at (j : Job) (now : MachineTime) : option MachineTime :=
  let wake_at :=
    match job_next_eligible_at (schedule j) with
    | Some t => if now <? t then Some t else None
    | None => None
    end in
  match lease (schedule j) with
  | Some l =>
      if is_held_at l now then
        Some (match wake_at with Some t => Z.min t (expires_at l) | None => expires_at l end)
      else wake_at
  | None => wake_at
  end.

Definition ready_for_local_dispatch (j : Job) (now : MachineTime) : bool :=
  JobStatus.eqb (st j) JobStatus.Queued &&
  negb (runner_active (runtime j)) &&
  negb (lease_blocks_local_dispatch j now) &&
  match job_next_eligible_at (schedule j) with Some t => t <=? now | None => true end.

Definition claim_for_local_dispatch `{TimestampRange} (j : Job) (node : string)
    (now : MachineTime) (ttl : LeaseTtl) : Job * option LeaseRecord :=
  if negb (ready_for_local_dispatch j now) then (j, None)
  else
    let j := put_runner_active j true in
    let j := put_lease j (Some (lease_taken node now ttl)) in
    (j, active_lease j).

Definition release_local_dispatch_claim (j : Job) : Job :=
  clear_lease (put_runner_active j false).

Definition renew_local_dispatch_lease `{TimestampRange} (j : Job) (node : string)
    (now : MachineTime) (ttl : LeaseTtl) : Job * option LeaseRecord :=
  if negb (runner_active (runtime j)) || JobStatus.is_terminal (st j) then (j, None)
  else
    match lease (schedule j) with
    | Some l =>
        if String.eqb (leased_by_node l) node then
          let l := lease_renew l now ttl in
          (put_lease j (Some l), Some l)
        else (j, None)
    | None => (j, None)
    end.

(** ** Lifecycle: shutdown, finalization, restart, recovery *)

Definition interrupt_for_shutdown (j : Job) (now : MachineTime) : Job * bool :=
  let j := put_cancel_token j true in
  let '(j, applied) := stop j StopInterrupted now in
  if applied then (put_runner_active (clear_lease j) false, true) else (j, false).

(** A [BTreeSet<&str>]: ascending in byte order, without repeats. *)
Fixpoint btree_insert (x : string) (l : list string) : list string :=
  match l with
  | [] => [x]
  | y :: l' =>
      match String.compare x y with
      | Lt => x :: l
      | Eq => l
      | Gt => y :: btree_insert x l'
      end
  end.

Definition btree_of (l : list string) : list string := foldr btree_insert [] l.

(** The failures of the errored files, in the map's order. *)
Definition errored_failures (l : list FileStatus) : list Failure :=
  omap (fun f => match phase f with PError _ _ failure => Some failure | _ => None end) l.

(** The reason built from one enumeration of the files. *)
Definition failure_reason_of (l : list FileStatus) : option string :=
  let failures := errored_failures l in
  let messages := btree_of (omap failure_message failures) in
  let failed_files := length failures in
  if (failed_files =? 0)%nat then None
  else
    let joined := join_with "; " messages in
    Some (if string_is_empty joined then pretty failed_files +:+ " file(s) failed"
          else if (1 <? failed_files)%nat
               then pretty failed_files +:+ " file(s) failed: " +:+ joined
               else joined).

Definition aggregate_file_failure_reason (j : Job) : option string :=
  failure_reason_of (map_values (files j)).

Definition set_failure_reason_from_files (j : Job) : Job :=
  match error (execution j) with
  | Some _ => j
  | None =>
      match aggregate_file_failure_reason j with
      | Some reason => put_error j (Some reason)
      | None => j
      end
  end.

Definition finalize (j : Job) (final_status : JobStatus.t) (now : MachineTime) : Job * bool :=
  let '(j, applied) := set_status j final_status StatusChange.Finalize in
  let j :=
    if applied && JobStatus.eqb final_status JobStatus.Failed
    then set_failure_reason_from_files j else j in
  let j := if applied then put_next_eligible_at (put_completed_at j (Some now)) None else j in
  let j := put_completed_files j (Z.of_nat (count_if file_terminal (map_values (files j)))) in
  (j, applied).

(** What a refused submission or restart says, before it is rendered. *)
Record ConflictEntry := mkConflict {
  conflict_filename : string;
  conflict_job_id : string;
  conflict_command : ReleasedCommand.t;
  conflict_status : JobStatus.t
}.

Inductive ConflictMessage :=
| NotRestartable (id : string) (s : JobStatus.t)
| AlreadyProcessed (names : list string).

Inductive ServerError :=
| JobConflict (message : ConflictMessage) (conflicts : list ConflictEntry)
| Planning (e : PlanningError)
| JobNotFound (id : string).

Definition prepare_for_restart (j : Job) : result ServerError Job :=
  match selected_output_policy (command (dispatch j)) (options (dispatch j)) with
  | Err e => Err (Planning e)
  | Ok _ =>
      if negb (JobStatus.can_restart (st j)) then
        Err (JobConflict (NotRestartable (job_id (identity j)) (st j)) [])
      else
        let j := put_files j ((fun f => if file_wrote_output f then f else requeue f) <$> files j) in
        let '(j, _) := set_status j JobStatus.Queued StatusChange.Restart in
        let j := put_error j None in
        let j := put_completed_at j None in
        let j := put_next_eligible_at j None in
        let j := clear_lease j in
        let j := put_cancel_token j false in
        let j := put_run_generation j (generation_next (run_generation (runtime j))) in
        let j := put_completed_files j
          (Z.of_nat (count_if file_wrote_output (map_values (files j)))) in
        Ok (put_results j
          (List.filter (fun r => match result_error r with None => true | Some _ => false end)
             (results (execution j))))
  end.

Inductive RecoveryDisposition :=
| Requeued
| RecoveredFailed
| RecoveredCompleted.

Definition reconcile_recovered_runtime_state (j : Job) : Job * RecoveryDisposition :=
  let has_resumable := existsb file_resumable (map_values (files j)) in
  if has_resumable then
    let j := put_files j ((fun f => if file_resumable f then requeue f else f) <$> files j) in
    let '(j, _) := set_status j JobStatus.Queued StatusChange.Reconcile in
    let j := put_error j None in
    let j := put_completed_at j None in
    let j := put_next_eligible_at j None in
    (clear_lease j, Requeued)
  else
    let all_errored := forallb file_errored (map_values (files j)) in
    let reconciled := if all_errored then JobStatus.Failed else JobStatus.Completed in
    let '(j, _) := set_status j reconciled StatusChange.Reconcile in
    let j := if all_errored then set_failure_reason_from_files j else j in
    let j := put_completed_files j (Z.of_nat (total_files j)) in
    let j := put_next_eligible_at j None in
    (clear_lease j, if all_errored then RecoveredFailed else RecoveredCompleted).

(** ** Per-file transitions *)

(** [let Some(file_status) = self.execution.file_statuses.get_mut(filename)
    else { return false }], then [f] in place. *)
Definition update_file (j : Job) (name : string) (f : FileStatus -> FileStatus) : Job * bool :=
  match files j !! name with
  | None => (j, false)
  | Some file => (put_files j (<[name := f file]> (files j)), true)
  end.

Definition mark_file_processing (j : Job) (name : string) (started : MachineTime) : Job * bool :=
  update_file j name (fun file =>
    set_progress (set_phase file (PProcessing (Some started))) no_progress).

Record CompletedFileOutput := mkOutput {
  out_filename : string;
  out_content_type : ContentType;
  out_stamp : FileStampOutcome;
  out_exclusions : list OutputExclusionRecord
}.

Inductive FileCompletion :=
| WithoutResult
| Clean (result : CompletedFileOutput)
| DiagnosedOutput (result : CompletedFileOutput) (diagnostics : FileOutputDiagnostics).

(** [FileCompletion::result]. *)
Definition completion_result (c : FileCompletion) : option CompletedFileOutput :=
  match c with
  | WithoutResult => None
  | Clean result | DiagnosedOutput result _ => Some result
  end.

Definition mark_file_done (j : Job) (name : string) (finished : MachineTime)
    (completion : FileCompletion) : Job * bool :=
  match files j !! name with
  | None => (j, false)
  | Some file =>
      let started := started_at (phase file) in
      let written (out : CompletedFileOutput) :=
        (out_exclusions out,
         Some (mkResult (out_filename out) (out_content_type out) None, out_stamp out)) in
      let '(new_phase, result) :=
        match completion with
        | WithoutResult => (PDone started (Some finished) [], None)
        | Clean result =>
            let '(exclusions, result) := written result in
            (PDone started (Some finished) exclusions, result)
        | DiagnosedOutput result diagnostics =>
            let '(exclusions, result) := written result in
            (PDiagnosed started (Some finished) (Some diagnostics) exclusions, result)
        end in
      let file := set_progress (set_phase file new_phase) no_progress in
      let '(file, pushed) :=
        match result with
        | Some (entry, stamp) => (set_stamp file stamp, [entry])
        | None => (file, [])
        end in
      let j := put_files j (<[name := file]> (files j)) in
      let j := put_results j (results (execution j) ++ pushed) in
      (put_completed_files j (completed_files (execution j) + 1), true)
  end.

Record FileFailureRecord := mkFailureRecord {
  fail_message : string;
  fail_category : FailureCategory.t;
  fail_finished_at : MachineTime
}.

Definition mark_file_error (j : Job) (name : string) (failure : FileFailureRecord)
    : Job * bool :=
  match files j !! name with
  | None => (j, false)
  | Some file =>
      let file := set_phase file
        (PError (started_at (phase file)) (Some (fail_finished_at failure))
           (Recorded (fail_message failure) (fail_category failure))) in
      let file := set_progress file no_progress in
      let j := put_files j (<[name := file]> (files j)) in
      let j := put_results j
        (results (execution j) ++ [mkResult name Chat (Some (fail_message failure))]) in
      (put_completed_files j (completed_files (execution j) + 1), true)
  end.

(** [file_status.progress.stage = None]. *)
Definition clear_stage (p : FileProgress) : FileProgress :=
  mkProgress (progress_current p) (progress_total p) None.

Definition start_file_attempt (j : Job) (name : string) (started : MachineTime) : Job * bool :=
  update_file j name (fun file =>
    set_progress (set_phase file (PProcessing (Some started))) (clear_stage (progress file))).

Record FileRetryRecord := mkRetryRecord {
  retry_message : string;
  retry_category : FailureCategory.t;
  retry_finished_at : MachineTime;
  retry_at : MachineTime
}.

Definition mark_file_retry_pending (j : Job) (name : string) (retry : FileRetryRecord)
    : Job * bool :=
  update_file j name (fun file =>
    set_progress
      (set_phase file
         (PRetryPending (started_at (phase file)) (Some (retry_finished_at retry))
            (retry_at retry) (Recorded (retry_message retry) (retry_category retry))))
      (mkProgress None None (Some FileProgressStage.RetryScheduled))).

Definition clear_file_retry_state (j : Job) (name : string) : Job * bool :=
  update_file j name (fun file =>
    let file :=
      match phase file with
      | PRetryPending started _ _ _ => set_phase file (PProcessing started)
      | _ => file
      end in
    set_progress file (clear_stage (progress file))).

Record FileProgressRecord := mkProgressRecord {
  rec_stage : FileProgressStage.t;
  rec_current : option Z;
  rec_total : option Z
}.

Definition set_file_progress (j : Job) (name : string) (p : FileProgressRecord) : Job * bool :=
  match files j !! name with
  | None => (j, false)
  | Some file =>
      if file_terminal file then (j, false)
      else
        let file := set_progress file
          (mkProgress (rec_current p) (rec_total p) (Some (rec_stage p))) in
        (put_files j (<[name := file]> (files j)), true)
  end.

Definition set_file_worker_wait (j : Job) (name : string) (change : WorkerWaitChange)
    : Job * bool :=
  update_file j name (fun file => set_waits file (waits_apply (worker_waits file) change)).

Definition unfinished_files (j : Job) : list string :=
  map filename (List.filter (fun f => negb (file_terminal f)) (map_values (files j))).

Definition file_status_label (j : Job) (name : string) : option string :=
  (fun f => FileStatusKind.to_string (status f)) <$> files j !! name.

(** ** Projections *)

Record PendingJobFile := mkPending {
  file_index : nat;
  pending_filename : string;
  pending_has_chat : bool
}.

(** [filenames.iter().enumerate().zip(has_chat)], the terminal files left
    out. *)
Definition pending_files (j : Job) : list PendingJobFile :=
  omap (fun '(i, (name, chat)) =>
    let already_done :=
      match files j !! name with Some f => file_terminal f | None => false end in
    if already_done then None else Some (mkPending i name chat))
    (imap pair (zip (filenames (filesystem j)) (has_chat (filesystem j)))).

(** [Job::duration]: submission to completion, never negative. *)
Definition duration (j : Job) : option Duration :=
  (fun completed => saturating_duration_since completed (submitted_at (schedule j)))
    <$> completed_at (schedule j).

Definition submitted_by (j : Job) : option string := address <$> submitter (source j).
Definition submitted_by_name (j : Job) : option string := submitter (source j) ≫= submitter_name.

(** [JobListItem]; [control_plane] is always [None] here. The duration is
    kept as the duration its seconds are computed from. *)
Record JobListItem := mkListItem {
  item_job_id : string;
  item_status : JobStatus.t;
  item_command : ReleasedCommand.t;
  item_lang : LanguageSpec;
  item_source_dir : string;
  item_total_files : Z;
  item_completed_files : Z;
  item_error_files : Z;
  item_diagnosed_files : Z;
  item_error : option string;
  item_submitted_at : MachineTime;
  item_submitted_by : option string;
  item_submitted_by_name : option string;
  item_completed_at : option MachineTime;
  item_duration : option Duration;
  item_next_eligible_at : option MachineTime;
  item_num_workers : option Z;
  item_active_lease : option LeaseRecord
}.

Definition to_list_item (j : Job) : JobListItem :=
  let count k :=
    Z.of_nat (count_if (fun f => FileStatusKind.eqb (status f) k) (map_values (files j))) in
  {| item_job_id := job_id (identity j);
     item_status := st j;
     item_command := command (dispatch j);
     item_lang := lang (dispatch j);
     item_source_dir := source_dir (source j);
     item_total_files := Z.of_nat (total_files j);
     item_completed_files := completed_files (execution j);
     item_error_files := count FileStatusKind.Error;
     item_diagnosed_files := count FileStatusKind.Diagnosed;
     item_error := error (execution j);
     item_submitted_at := submitted_at (schedule j);
     item_submitted_by := submitted_by j;
     item_submitted_by_name := submitted_by_name j;
     item_completed_at := completed_at (schedule j);
     item_duration := duration j;
     item_next_eligible_at := job_next_eligible_at (schedule j);
     item_num_workers := num_workers (schedule j);
     item_active_lease := active_lease j |}.

(** ** Conflict detection *)

(** The key of one file of a job: its submitter's address and its path. *)
Definition conflict_key (j : Job) (name : string) : option string * string :=
  (address <$> submitter (source j),
   if string_is_empty (source_dir (source j)) then name
   else source_dir (source j) +:+ "/" +:+ name).

Definition find_conflicts (jobs : gmap string Job) (incoming : Job) : list ConflictEntry :=
  let incoming_keys := map (conflict_key incoming) (filenames (filesystem incoming)) in
  flat_map (fun active =>
    if JobStatus.is_active (st active) then
      omap (fun name =>
        if bool_decide (conflict_key active name ∈ incoming_keys)
        then Some (mkConflict name (job_id (identity active)) (command (dispatch active))
                     (st active))
        else None) (filenames (filesystem active))
    else []) (map_values jobs).

(** ** A newly submitted job *)

(** [SubmissionContext], less the directory and the clock the caller has
    already read. *)
Record SubmissionContext := mkContext {
  ctx_job_id : string;
  ctx_correlation_id : string;
  ctx_submitter : Submitter;
  ctx_submitted_at : MachineTime
}.

(** The files map: one fresh status per distinct filename. *)
Definition fresh_files (names : list string) : gmap string FileStatus :=
  foldl (fun m name => <[name := file_new name]> m) ∅ names.

(** The job [materialize_submission_job] builds once the submission is
    validated and staged: what the submission chose is in [d] and [fs]. *)
Definition submitted_job (ctx : SubmissionContext) (d : JobDispatchConfig)
    (fs : JobFilesystemConfig) : Job :=
  {| identity := mkIdentity (ctx_job_id ctx) (ctx_correlation_id ctx);
     dispatch := d;
     source := mkSource (Some (ctx_submitter ctx)) (fs_source_dir fs);
     filesystem := fs;
     execution := mkExecution JobStatus.Queued (fresh_files (filenames fs)) [] None 0;
     schedule := mkSchedule (ctx_submitted_at ctx) None None None None None;
     runtime := mkRuntime false false FIRST;
     execution_plan := None |}.

End jobs.
