(* ===== verification/JobFacts.v ===== *)
(** * What the transitions of one job guarantee

    Theorems about [Job.v] alone: the status machine is consulted by every
    write of the status, the files map, the stop image, finalization and its
    failure reason, restart, recovery, pending files and conflicts. The facts
    about sequences of commands are in [RegistryFacts.v]. *)

From S2P Require Import Prelude Status Scheduling FilePhase Job.
From stdpp Require Import base decidable option list gmap strings numbers pretty sorting.

Open Scope Z_scope.

Section job_facts.
Context `{Payload} `{Catalog}.
Implicit Types (j : Job) (f : FileStatus) (m : gmap string FileStatus).

(** ** The status machine *)

Lemma set_status_inv j next reason j' applied :
  set_status j next reason = (j', applied) ->
  (applied = true /\ can_transition_to (st j) next reason = true /\ j' = put_status j next) \/
  (applied = false /\ can_transition_to (st j) next reason = false /\ j' = j).
Proof. unfold set_status. destruct (can_transition_to _ _ _); intros [= <- <-]; auto. Qed.

Lemma stop_applied j kind at_ :
  stop j kind at_ =
  if JobStatus.is_active (st j)
  then (adopt_status_columns j (stopped (status_columns j) kind at_), true)
  else (j, false).
Proof.
  unfold stop, set_status. destruct (st j) eqn:Hst, kind; simpl; try done.
Qed.

(** ** The files map *)

Lemma lookup_fresh_files names k :
  fresh_files names !! k = if bool_decide (k ∈ names) then Some (file_new k) else None.
Proof.
  unfold fresh_files. rewrite <- (rev_involutive names).
  induction (rev names) as [|x l IH]; [done|].
  simpl. rewrite foldl_app. simpl. destruct (decide (k = x)) as [->|Hk].
  - rewrite lookup_insert_eq, bool_decide_eq_true_2; [done|]. set_solver.
  - rewrite lookup_insert_ne by done. rewrite IH.
    repeat case_bool_decide; try done; exfalso; set_solver.
Qed.

(** The keys of the files map are the job's filenames, and each value carries
    its key. *)
Definition files_ok j : Prop :=
  dom (files j) = list_to_set (filenames (filesystem j)) /\
  map_Forall (fun k f => filename f = k) (files j).

Lemma fresh_files_ok names :
  dom (fresh_files names) = (list_to_set names : gset string) /\
  map_Forall (fun k f => filename f = k) (fresh_files names).
Proof.
  split.
  - apply set_eq. intros k. rewrite elem_of_dom, lookup_fresh_files, elem_of_list_to_set.
    case_bool_decide; split; naive_solver.
  - intros k f. rewrite lookup_fresh_files. case_bool_decide; naive_solver.
Qed.

Lemma files_ok_insert m (names : gset string) name f f' :
  m !! name = Some f -> filename f' = filename f ->
  dom m = names /\ map_Forall (fun k f => filename f = k) m ->
  dom (<[name := f']> m) = names /\ map_Forall (fun k f => filename f = k) (<[name := f']> m).
Proof.
  intros Hf Hn [Hd Hall]. split.
  - rewrite dom_insert_L. apply elem_of_dom_2 in Hf. set_solver.
  - apply map_Forall_insert_2; [|done]. rewrite Hn. by apply (Hall name).
Qed.

Lemma files_ok_fmap m (names : gset string) (g : FileStatus -> FileStatus) :
  (forall f, filename (g f) = filename f) ->
  dom m = names /\ map_Forall (fun k f => filename f = k) m ->
  dom (g <$> m) = names /\ map_Forall (fun k f => filename f = k) (g <$> m).
Proof.
  intros Hg [Hd Hall]. split; [by rewrite dom_fmap_L|].
  apply map_Forall_fmap. intros k f Hk; simpl. rewrite Hg. by apply (Hall k).
Qed.

(** The files that reached a terminal status. *)
Definition terminal_count m : nat := count_if file_terminal (map_values m).

Lemma terminal_count_insert m name f f' :
  m !! name = Some f ->
  (terminal_count (<[name := f']> m) + (if file_terminal f then 1 else 0) =
   terminal_count m + (if file_terminal f' then 1 else 0))%nat.
Proof. apply count_map_update. Qed.

Lemma count_if_ext {A} (p q : A -> bool) l :
  (forall x, x ∈ l -> p x = q x) -> count_if p l = count_if q l.
Proof.
  induction l as [|x l IH]; intros Hpq; [done|]. simpl.
  rewrite Hpq, IH; [done| |]; set_solver.
Qed.

Lemma count_if_fmap {A B} (p : B -> bool) (g : A -> B) l :
  count_if p (g <$> l) = count_if (fun x => p (g x)) l.
Proof. induction l as [|x l IH]; [done|]. rewrite fmap_cons. simpl. by rewrite IH. Qed.

Lemma terminal_count_fresh names : terminal_count (fresh_files names) = 0%nat.
Proof.
  apply count_if_zero, Forall_forall. intros f [k Hk]%elem_of_map_values.
  rewrite lookup_fresh_files in Hk. case_bool_decide; naive_solver.
Qed.

(** ** The failure reason *)

(** Byte order on strings, as [BTreeSet] uses it. *)
Definition string_before (x y : string) : Prop := String.compare x y = Lt.

Lemma string_compare_refl x : String.compare x x = Eq.
Proof.
  pose proof (String.compare_antisym x x) as Hx. by destruct (String.compare x x).
Qed.

Lemma string_before_le x y : string_before x y <-> String.le x y /\ x <> y.
Proof.
  unfold string_before, String.le, String.leb. split.
  - intros Hlt. rewrite Hlt. split; [done|]. intros ->. by rewrite string_compare_refl in Hlt.
  - intros [Hle Hne]. destruct (String.compare x y) eqn:Hc; try done.
    by apply String.compare_eq_iff in Hc.
Qed.

#[local] Instance string_before_trans : Transitive string_before.
Proof.
  intros x y z [H1 N1]%string_before_le [H2 N2]%string_before_le.
  apply string_before_le. split; [by etrans|]. intros ->.
  apply N1. apply (anti_symm String.le); done.
Qed.

Lemma string_before_irrefl x : ~ string_before x x.
Proof. unfold string_before. by rewrite string_compare_refl. Qed.

Lemma elem_of_btree_insert x l y : y ∈ btree_insert x l <-> y = x \/ y ∈ l.
Proof.
  induction l as [|z l IH]; simpl; [set_solver|].
  destruct (String.compare x z) eqn:Hc; [apply String.compare_eq_iff in Hc as ->|..];
    rewrite ?elem_of_cons, ?IH; set_solver.
Qed.

Lemma elem_of_btree_of l y : y ∈ btree_of l <-> y ∈ l.
Proof.
  induction l as [|x l IH]; [done|]. simpl. rewrite elem_of_btree_insert, IH. set_solver.
Qed.

Lemma btree_insert_sorted x l :
  StronglySorted string_before l -> StronglySorted string_before (btree_insert x l).
Proof.
  induction 1 as [|y l Hs IH Hall]; simpl; [repeat constructor|].
  destruct (String.compare x y) eqn:Hc.
  - by constructor.
  - constructor; [by constructor|]. constructor; [done|].
    eapply Forall_impl; [apply Hall|]. intros z Hz. by trans y.
  - constructor; [done|]. apply Forall_forall. intros z [->|Hz]%elem_of_btree_insert.
    + unfold string_before. rewrite String.compare_antisym, Hc. done.
    + by eapply Forall_forall in Hall.
Qed.

Lemma btree_of_sorted l : StronglySorted string_before (btree_of l).
Proof. induction l; simpl; [constructor|by apply btree_insert_sorted]. Qed.

Lemma sorted_before_NoDup l : StronglySorted string_before l -> NoDup l.
Proof.
  induction 1 as [|x l Hs IH Hall]; constructor; [|done]. intros Hin.
  eapply Forall_forall in Hall; [|done]. by apply string_before_irrefl in Hall.
Qed.

(** A [BTreeSet] is determined by its elements. *)
Lemma btree_of_ext l k : (forall x, x ∈ l <-> x ∈ k) -> btree_of l = btree_of k.
Proof.
  intros Heq. apply (StronglySorted_unique_strong string_before).
  - intros x y _ _ Hxy Hyx. exfalso. apply (string_before_irrefl x). by trans y.
  - apply btree_of_sorted.
  - apply btree_of_sorted.
  - apply NoDup_Permutation; try apply sorted_before_NoDup, btree_of_sorted.
    intros x. by rewrite !elem_of_btree_of.
Qed.

Lemma failure_reason_perm l k : l ≡ₚ k -> failure_reason_of l = failure_reason_of k.
Proof.
  intros Hp. unfold failure_reason_of.
  assert (errored_failures l ≡ₚ errored_failures k) as Hf
    by (unfold errored_failures; by rewrite Hp).
  rewrite (Permutation_length Hf).
  by rewrite (btree_of_ext (omap failure_message (errored_failures l))
       (omap failure_message (errored_failures k))) by (intros x; by rewrite Hf).
Qed.

Lemma errored_failures_nil l :
  errored_failures l = [] <-> Forall (fun f => file_errored f = false) l.
Proof.
  induction l as [|f l IH]; [done|]. rewrite Forall_cons_iff, <- IH.
  unfold file_errored, status. simpl. destruct (phase f); simpl; naive_solver.
Qed.

Lemma failure_reason_some l :
  is_Some (failure_reason_of l) <-> Exists (fun f => file_errored f = true) l.
Proof.
  unfold failure_reason_of. rewrite Exists_exists.
  destruct (Nat.eqb_spec (length (errored_failures l)) 0) as [Hz|Hz].
  - apply nil_length_inv, errored_failures_nil in Hz. rewrite Forall_forall in Hz.
    split; [by intros []|]. intros (f & Hin & Hf). rewrite Hz in Hf; done.
  - split; [|intros _; split_ifs; eauto]. intros _.
    destruct (decide (Exists (fun f => file_errored f = true) l)) as [He|He];
      [by apply Exists_exists|].
    apply not_Exists_Forall in He; [|intros f; apply _].
    exfalso. apply Hz. apply length_zero_iff_nil, errored_failures_nil.
    eapply Forall_impl; [apply He|]. intros f; simpl. by destruct (file_errored f).
Qed.

(** The reason does not depend on the order the [HashMap] is iterated in. *)
Lemma set_failure_reason_spec j :
  set_failure_reason_from_files j =
  put_error j
    (match error (execution j) with
     | Some e => Some e
     | None => failure_reason_of (map_values (files j))
     end).
Proof.
  unfold set_failure_reason_from_files, aggregate_file_failure_reason.
  destruct j as [? ? ? ? [] ? ? ?]; cbn. destruct error; [done|].
  by destruct (failure_reason_of _).
Qed.

(** ** Finalization, restart, recovery *)

Lemma finalize_transition s s' :
  can_transition_to s s' StatusChange.Finalize =
  JobStatus.is_active s && JobStatus.is_terminal s'.
Proof. done. Qed.

Lemma restart_transition s :
  JobStatus.can_restart s = true ->
  can_transition_to s JobStatus.Queued StatusChange.Restart = true.
Proof. by destruct s. Qed.

(** A declined finalization only refreshes the count of finished files. *)
Lemma finalize_declined j s now :
  JobStatus.is_active (st j) && JobStatus.is_terminal s = false ->
  finalize j s now = (put_completed_files j (Z.of_nat (terminal_count (files j))), false).
Proof. intros Hd. unfold finalize, set_status. by rewrite finalize_transition, Hd. Qed.

Lemma finalize_applied j s now :
  JobStatus.is_active (st j) && JobStatus.is_terminal s = true ->
  finalize j s now =
  (put_completed_files
     (put_next_eligible_at
        (put_completed_at
           (put_error (put_status j s)
              (if JobStatus.eqb s JobStatus.Failed then
                 match error (execution j) with
                 | Some e => Some e
                 | None => failure_reason_of (map_values (files j))
                 end
               else error (execution j)))
           (Some now)) None)
     (Z.of_nat (terminal_count (files j))), true).
Proof.
  intros Ha. unfold finalize, set_status. rewrite finalize_transition, Ha. simpl.
  destruct (JobStatus.eqb s JobStatus.Failed); [|done].
  by rewrite set_failure_reason_spec.
Qed.

Definition restarted j : Job :=
  mkJob (identity j) (dispatch j) (source j) (filesystem j)
    (mkExecution JobStatus.Queued
       ((fun f => if file_wrote_output f then f else requeue f) <$> files j)
       (List.filter (fun r => match result_error r with None => true | Some _ => false end)
          (results (execution j)))
       None
       (Z.of_nat (terminal_count
          ((fun f => if file_wrote_output f then f else requeue f) <$> files j))))
    (mkSchedule (submitted_at (schedule j)) None None (num_workers (schedule j)) None
       (last_cancel (schedule j)))
    (mkRuntime false (runner_active (runtime j)) (generation_next (run_generation (runtime j))))
    (execution_plan j).

(** After the requeue, the files that finished are the ones that wrote
    output. *)
Lemma requeued_terminal f :
  file_terminal (if file_wrote_output f then f else requeue f) =
  file_wrote_output (if file_wrote_output f then f else requeue f).
Proof.
  destruct (file_wrote_output f) eqn:Hf; [|done]. rewrite Hf. by apply wrote_output_terminal.
Qed.

Lemma prepare_for_restart_spec j :
  prepare_for_restart j =
  match selected_output_policy (command (dispatch j)) (options (dispatch j)) with
  | Err e => Err (Planning e)
  | Ok _ =>
      if JobStatus.can_restart (st j) then Ok (restarted j)
      else Err (JobConflict (NotRestartable (job_id (identity j)) (st j)) [])
  end.
Proof.
  unfold prepare_for_restart. destruct (selected_output_policy _ _); [|done].
  destruct (JobStatus.can_restart (st j)) eqn:Hr; [simpl|done].
  unfold set_status. change (st (put_files j _)) with (st j).
  rewrite restart_transition by done. unfold restarted. cbn -[map_values].
  do 4 f_equal. unfold terminal_count, files. cbn -[map_values].
  rewrite !map_values_fmap, !count_if_fmap.
  by rewrite (count_if_ext (fun f => file_terminal (if file_wrote_output f then f else requeue f))
    _ _ (fun f _ => requeued_terminal f)).
Qed.

Lemma lookup_restarted j name :
  files (restarted j) !! name =
  (fun f => if file_wrote_output f then f else requeue f) <$> files j !! name.
Proof. unfold restarted, files; simpl. apply lookup_fmap. Qed.

(** ** Pending files *)

Lemma elem_of_pending j i name chat :
  mkPending i name chat ∈ pending_files j <->
  filenames (filesystem j) !! i = Some name /\ has_chat (filesystem j) !! i = Some chat /\
  (forall f, files j !! name = Some f -> file_terminal f = false).
Proof.
  unfold pending_files. rewrite list_elem_of_omap. split.
  - intros ((k & n & c) & Hin & Hsome). apply list_elem_of_lookup in Hin as [k' Hk].
    rewrite list_lookup_imap, fmap_Some in Hk. destruct Hk as ([n' c'] & Hz & [= -> -> ->]).
    rewrite lookup_zip_with_Some in Hz. destruct Hz as (? & ? & [= <- <-] & Hn & Hc).
    destruct (files j !! n') as [f|] eqn:Hf; [destruct (file_terminal f) eqn:Ht|];
      simplify_eq; split_and!; naive_solver.
  - intros (Hn & Hc & Ht). exists (i, (name, chat)). split.
    + apply list_elem_of_lookup. exists i. rewrite list_lookup_imap, fmap_Some.
      exists (name, chat). split; [|done]. apply lookup_zip_with_Some. eauto.
    + destruct (files j !! name) as [f|] eqn:Hf; [|done]. by rewrite (Ht f eq_refl).
Qed.

(** After a restart the pending files are those that wrote no output. *)
Lemma restarted_pending j i name chat f :
  files j !! name = Some f ->
  filenames (filesystem j) !! i = Some name -> has_chat (filesystem j) !! i = Some chat ->
  mkPending i name chat ∈ pending_files (restarted j) <-> file_wrote_output f = false.
Proof.
  intros Hf Hn Hc. rewrite elem_of_pending, lookup_restarted, Hf. simpl. split.
  - intros (_ & _ & Ht). specialize (Ht _ eq_refl). rewrite requeued_terminal in Ht.
    by destruct (file_wrote_output f) eqn:Hw; [rewrite Hw in Ht|].
  - intros Hw. split_and!; [done..|]. rewrite Hw. by intros f' [= <-].
Qed.

(** ** Conflicts *)

(** An entry is named exactly for a file of an active job whose key a file of
    the submission shares. *)
Lemma elem_of_find_conflicts (jobs : gmap string Job) incoming e :
  e ∈ find_conflicts jobs incoming <->
  exists id active name name',
    jobs !! id = Some active /\ JobStatus.is_active (st active) = true /\
    name ∈ filenames (filesystem active) /\ name' ∈ filenames (filesystem incoming) /\
    conflict_key active name = conflict_key incoming name' /\
    e = mkConflict name (job_id (identity active)) (command (dispatch active)) (st active).
Proof.
  unfold find_conflicts. rewrite list_elem_of_In, in_flat_map. split.
  - intros (active & Hact & He). apply list_elem_of_In, elem_of_map_values in Hact as [id Hid].
    destruct (JobStatus.is_active (st active)) eqn:Ha; [|done].
    apply list_elem_of_In, list_elem_of_omap in He as (name & Hn & He).
    case_bool_decide as Hk; [|done]. simplify_eq.
    apply list_elem_of_In, in_map_iff in Hk as (name' & Heq & Hn'%list_elem_of_In).
    by exists id, active, name, name'.
  - intros (id & active & name & name' & Hid & Ha & Hn & Hn' & Heq & ->).
    exists active. split; [apply list_elem_of_In, elem_of_map_values; eauto|]. rewrite Ha.
    apply list_elem_of_In, list_elem_of_omap. exists name. split; [done|].
    rewrite bool_decide_eq_true_2; [done|]. apply list_elem_of_In, in_map_iff.
    exists name'. split; [done|by apply list_elem_of_In].
Qed.

Lemma find_conflicts_nil (jobs : gmap string Job) incoming :
  find_conflicts jobs incoming = [] <->
  forall id active name name',
    jobs !! id = Some active -> JobStatus.is_active (st active) = true ->
    name ∈ filenames (filesystem active) -> name' ∈ filenames (filesystem incoming) ->
    conflict_key active name <> conflict_key incoming name'.
Proof.
  rewrite elem_of_nil_inv_iff. split.
  - intros Hno id active name name' Hid Ha Hn Hn' Heq.
    eapply Hno, elem_of_find_conflicts. by exists id, active, name, name'.
  - intros Hno e (id & active & name & name' & Hid & Ha & Hn & Hn' & Heq & _)%elem_of_find_conflicts.
    by eapply Hno.
Qed.

(** ** Properties *)

(** a live stop is the shared stop transition. It applies exactly to an
    active job; every status column of the stopped job is the one
    [JobStatusColumns::stopped] states, and nothing else of the job changes.
    A job that is not active is left as it was. *)
Theorem stop_is_the_shared_transition j kind at_ :
  (stop j kind at_).2 = JobStatus.is_active (st j) /\
  status_columns (stop j kind at_).1 =
    (if JobStatus.is_active (st j) then stopped (status_columns j) kind at_
     else status_columns j) /\
  adopt_status_columns (stop j kind at_).1 (status_columns j) = j.
Proof.
  rewrite stop_applied. destruct j as [? ? ? ? [] [] ? ?]. simpl.
  by destruct (JobStatus.is_active _).
Qed.

(** C38: the reason recorded for a failed job is a function of the multiset of
    its files' phases: it does not depend on the order in which the
    unordered map of files is iterated, and there is one exactly when some
    file failed. *)
Theorem failure_reason_order_independent l k :
  l ≡ₚ k ->
  failure_reason_of l = failure_reason_of k /\
  (is_Some (failure_reason_of l) <-> Exists (fun f => file_errored f = true) l).
Proof. intros Hp. split; [by apply failure_reason_perm|apply failure_reason_some]. Qed.

(** C20: finalizing an active job with a terminal status applies: the status,
    the completion time and the count of finished files are recorded, no
    retry time is left, no file changes; and a job that ends [Failed] while
    some file failed carries an error message. *)
Theorem finalize_records_the_outcome j s now :
  JobStatus.is_active (st j) = true -> JobStatus.is_terminal s = true ->
  exists j', finalize j s now = (j', true) /\
    st j' = s /\ completed_at (schedule j') = Some now /\
    job_next_eligible_at (schedule j') = None /\ files j' = files j /\
    completed_files (execution j') = Z.of_nat (count_if file_terminal (map_values (files j))) /\
    (s = JobStatus.Failed -> Exists (fun f => file_errored f = true) (map_values (files j)) ->
     is_Some (error (execution j'))).
Proof.
  intros Ha Ht. rewrite finalize_applied by (by rewrite Ha, Ht).
  eexists. split; [done|]. simpl. split_and!; try done.
  intros -> He. simpl. destruct (error (execution j)); [eauto|].
  by apply failure_reason_some.
Qed.

(** C12: a restart of a cancelled or failed job whose options still select an
    output policy is accepted. The restarted job is queued and dispatchable
    again: no error, completion, retry time, lease or triggered token is left,
    the run generation has moved on, only results without an error are kept and
    the count of finished files agrees with the files; the files that had
    written output are untouched and are not run again, and the files still
    queued, in flight or interrupted are pending. A job that is queued,
    running, completed or interrupted, or whose options are refused, is not
    restarted. (What becomes of errored files and of a failed write-back is
    where the documentation and the code disagree:
    [restart_redoes_errored_files].) *)
Theorem restart_requeues_unfinished_files j :
  (st j = JobStatus.Cancelled \/ st j = JobStatus.Failed ->
   is_ok (selected_output_policy (command (dispatch j)) (options (dispatch j))) = true ->
   exists j', prepare_for_restart j = Ok j' /\
     st j' = JobStatus.Queued /\ error (execution j') = None /\
     completed_at (schedule j') = None /\ job_next_eligible_at (schedule j') = None /\
     lease (schedule j') = None /\ is_cancelled j' = false /\
     run_generation (runtime j') = generation_next (run_generation (runtime j)) /\
     runner_active (runtime j') = runner_active (runtime j) /\
     Forall (fun r => result_error r = None) (results (execution j')) /\
     completed_files (execution j') =
       Z.of_nat (count_if file_terminal (map_values (files j'))) /\
     (forall i name chat f, files j !! name = Some f ->
        filenames (filesystem j) !! i = Some name -> has_chat (filesystem j) !! i = Some chat ->
        (file_wrote_output f = true -> mkPending i name chat ∉ pending_files j') /\
        (file_resumable f = true -> mkPending i name chat ∈ pending_files j')) /\
     (forall name f, files j !! name = Some f -> file_wrote_output f = true ->
        files j' !! name = Some f)) /\
  (st j = JobStatus.Queued \/ st j = JobStatus.Running \/ st j = JobStatus.Completed \/
   st j = JobStatus.Interrupted \/
   is_ok (selected_output_policy (command (dispatch j)) (options (dispatch j))) = false ->
   is_ok (prepare_for_restart j) = false).
Proof.
  rewrite prepare_for_restart_spec. split.
  - intros Hst Hp. assert (JobStatus.can_restart (st j) = true) as -> by (by destruct Hst as [-> | ->]).
    destruct (selected_output_policy _ _); [|done].
    exists (restarted j). split_and!; try done.
    + apply Forall_forall. intros r Hr%list_elem_of_In%filter_In.
      by destruct (result_error r), Hr.
    + intros i name chat f Hf Hn Hc. rewrite restarted_pending by done.
      split; [intros ->; congruence|]. unfold file_resumable, file_wrote_output.
      by destruct (status f).
    + intros name f Hf Hw. rewrite lookup_restarted, Hf; simpl. by rewrite Hw.
  - destruct (selected_output_policy _ _); [|done].
    by intros [-> |[-> |[-> |[-> |]]]].
Qed.

(** Restart requeues every file that wrote no output, errored files included,
    and admits a job whose write-back failed. *)
Lemma restart_redoes_errored_files j i name chat f :
  is_ok (selected_output_policy (command (dispatch j)) (options (dispatch j))) = true ->
  st j = JobStatus.Failed \/ st j = JobStatus.WritebackFailed ->
  files j !! name = Some f -> file_errored f = true ->
  filenames (filesystem j) !! i = Some name -> has_chat (filesystem j) !! i = Some chat ->
  prepare_for_restart j = Ok (restarted j) /\ mkPending i name chat ∈ pending_files (restarted j).
Proof.
  intros Hp Hst Hf He Hn Hc. rewrite prepare_for_restart_spec.
  destruct (selected_output_policy _ _); [|done].
  split; [by destruct Hst as [-> | ->]|]. apply (restarted_pending j i name chat f); [done..|].
  unfold file_errored, file_wrote_output in *. by destruct (status f).
Qed.

Lemma existsb_map_values (p : FileStatus -> bool) m :
  existsb p (map_values m) = true <-> exists name f, m !! name = Some f /\ p f = true.
Proof.
  rewrite existsb_exists. setoid_rewrite <- list_elem_of_In.
  setoid_rewrite elem_of_map_values. naive_solver.
Qed.

Lemma forallb_map_values (p : FileStatus -> bool) m :
  forallb p (map_values m) = true <-> map_Forall (fun _ f => p f = true) m.
Proof.
  rewrite forallb_forall. setoid_rewrite <- list_elem_of_In.
  setoid_rewrite elem_of_map_values. unfold map_Forall. naive_solver.
Qed.

Lemma all_errored_reason m :
  m <> ∅ -> map_Forall (fun _ f => file_errored f = true) m ->
  is_Some (failure_reason_of (map_values m)).
Proof.
  intros Hne Hall. apply failure_reason_some, Exists_exists.
  apply map_choose in Hne as (name & f & Hf). exists f. split.
  - apply elem_of_map_values. eauto.
  - by apply (Hall name).
Qed.

Lemma set_status_reconcile j s :
  JobStatus.is_recoverable (st j) = true ->
  match s with
  | JobStatus.Queued | JobStatus.Failed | JobStatus.Completed => true
  | _ => false
  end = true ->
  set_status j s StatusChange.Reconcile = (put_status j s, true).
Proof. intros Hr Hs. unfold set_status; simpl. by rewrite Hr, Hs. Qed.

(** The job reconciliation queues again, and the job it ends as [s]. *)
Definition reconciled_queued j : Job :=
  let j := put_files j ((fun f => if file_resumable f then requeue f else f) <$> files j) in
  clear_lease (put_next_eligible_at (put_completed_at (put_error (put_status j JobStatus.Queued)
    None) None) None).

Definition reconciled_ended j (s : JobStatus.t) (err : option string) : Job :=
  clear_lease (put_next_eligible_at
    (put_completed_files (put_error (put_status j s) err) (Z.of_nat (total_files j))) None).

Lemma reconcile_spec j :
  JobStatus.is_recoverable (st j) = true ->
  reconcile_recovered_runtime_state j =
  if existsb file_resumable (map_values (files j)) then (reconciled_queued j, Requeued)
  else if forallb file_errored (map_values (files j))
  then (reconciled_ended j JobStatus.Failed
          (match error (execution j) with
           | Some e => Some e
           | None => failure_reason_of (map_values (files j))
           end), RecoveredFailed)
  else (reconciled_ended j JobStatus.Completed (error (execution j)), RecoveredCompleted).
Proof.
  intros Hrec. unfold reconcile_recovered_runtime_state.
  pose proof (fun k s' (Hk : st k = st j) =>
    set_status_reconcile k s' (eq_trans (f_equal _ Hk) Hrec)) as Hset.
  destruct (existsb _ _); [by rewrite Hset|].
  destruct (forallb _ _); rewrite Hset by done; [|done].
  by rewrite set_failure_reason_spec.
Qed.

Lemma some_resumable m :
  existsb file_resumable (map_values m) = true <->
  ~ map_Forall (fun _ f => file_terminal f = true) m.
Proof.
  assert (forall f, file_resumable f = negb (file_terminal f)) as Hrt.
  { intros f. unfold file_resumable, file_terminal. by rewrite resumable_xor_terminal, negb_involutive. }
  rewrite <- forallb_map_values. rewrite not_true_iff_false.
  induction (map_values m) as [|f l IH]; simpl; [done|]. rewrite Hrt.
  destruct (file_terminal f); simpl; [exact IH|done].
Qed.

(** C21: startup reconciliation of a job that was running or interrupted leaves
    no lease and no retry time. When some file is unfinished the job is queued,
    with no error and no completion time, exactly the unfinished files requeued
    and the finished ones untouched. When every file is finished the job ends
    [Completed] or [Failed], no file changes and every listed file is counted:
    a job whose files all wrote output ends [Completed], a job whose files all
    failed ends [Failed] with an error message. (A job with both kinds is where
    the documentation and the code disagree:
    [reconciliation_hides_a_failed_file].) *)
Theorem reconciliation_requeues_or_ends j :
  JobStatus.is_recoverable (st j) = true ->
  let '(j', disposition) := reconcile_recovered_runtime_state j in
  lease (schedule j') = None /\ job_next_eligible_at (schedule j') = None /\
  (~ map_Forall (fun _ f => file_terminal f = true) (files j) ->
     disposition = Requeued /\ st j' = JobStatus.Queued /\ error (execution j') = None /\
     completed_at (schedule j') = None /\
     forall name, files j' !! name =
       (fun f => if file_terminal f then f else requeue f) <$> files j !! name) /\
  (map_Forall (fun _ f => file_terminal f = true) (files j) ->
     disposition <> Requeued /\ files j' = files j /\
     completed_files (execution j') = Z.of_nat (total_files j) /\
     completed_at (schedule j') = completed_at (schedule j) /\
     (st j' = JobStatus.Completed \/ st j' = JobStatus.Failed) /\
     (files j <> ∅ -> map_Forall (fun _ f => file_wrote_output f = true) (files j) ->
        st j' = JobStatus.Completed /\ disposition = RecoveredCompleted) /\
     (files j <> ∅ -> map_Forall (fun _ f => file_errored f = true) (files j) ->
        st j' = JobStatus.Failed /\ disposition = RecoveredFailed /\
        is_Some (error (execution j')))).
Proof.
  intros Hrec. rewrite reconcile_spec by done. destruct (existsb _ _) eqn:Hex.
  - apply some_resumable in Hex. split_and!; try done. intros _. split_and!; try done.
    intros n. unfold reconciled_queued, files; simpl. rewrite lookup_fmap.
    apply option_fmap_ext. intros f. unfold file_resumable, file_terminal.
    rewrite resumable_xor_terminal. by destruct (FileStatusKind.is_resumable _).
  - rewrite <- not_true_iff_false, some_resumable in Hex.
    destruct (forallb file_errored _) eqn:Hall; (split_and!; [done..|]); intros Hterm;
      (split_and!; [done..| | |]); try (by auto).
    + intros (n & f & Hf)%map_choose Hw. apply forallb_map_values in Hall.
      specialize (Hw n f Hf). specialize (Hall n f Hf). unfold file_wrote_output, file_errored in *.
      by destruct (status f).
    + intros Hne Herr. split_and!; [done..|]. simpl. destruct (error (execution j)); [eauto|].
      by apply all_errored_reason.
    + intros _ Herr%forallb_map_values. congruence.
Qed.

(** [pending_files] hands the runner exactly the positions of the
    submission whose file is not finished, each with its own name and CHAT
    flag. *)
Theorem pending_files_are_the_unfinished_positions j i name chat :
  mkPending i name chat ∈ pending_files j <->
  filenames (filesystem j) !! i = Some name /\ has_chat (filesystem j) !! i = Some chat /\
  (forall f, files j !! name = Some f -> file_terminal f = false).
Proof. apply elem_of_pending. Qed.

End job_facts.

(** the submitter of a job survives the database columns: a client is
    read back as it was recorded, with an unresolved name read back as no
    name, and a job without submitter is read back as such. *)
Theorem submitter_columns_roundtrip addr name :
  addr <> "" ->
  submitter_from_columns (submitter_columns (Some (client addr name))).1
    (submitter_columns (Some (client addr name))).2 = SubmitterRecorded (client addr name) /\
  submitter_from_columns (submitter_columns None).1 (submitter_columns None).2 = SubmitterAbsent.
Proof.
  intros Hne. split; [|done]. unfold submitter_from_columns, client; simpl.
  unfold string_is_empty. destruct (String.eqb_spec addr ""); [done|].
  destruct (String.eqb_spec name "") as [->|Hn]; simpl; [done|].
  by destruct (String.eqb_spec name "").
Qed.

Lemma submitter_columns_roundtrip_witness :
  submitter_from_columns "192.168.0.7" "" = SubmitterRecorded (mkSubmitter "192.168.0.7" None) /\
  submitter_from_columns (submitter_columns None).1 (submitter_columns None).2 = SubmitterAbsent.
Proof. apply (submitter_columns_roundtrip "192.168.0.7" ""). discriminate. Defined.

(** ** A concrete job *)

Definition test_payload : Payload :=
  {| FileOutputDiagnostics := unit; OutputExclusionRecord := unit |}.

Definition test_catalog : Catalog :=
  {| CommandOptions := bool; LanguageSpec := string; RuntimeState := unit;
     ExecutionPlan := unit; OutputPolicy := unit; PlanningError := string;
     selected_output_policy := fun _ o => if o then Ok tt else Err "refused options" |}.

Section concrete.
#[local] Existing Instance test_payload.
#[local] Existing Instance test_catalog.

Definition test_job_named (id : string) (names : list string) : Job :=
  submitted_job (mkContext id "corr" (client "10.0.0.1" "laptop") 1000)
    (mkDispatch ReleasedCommand.Morphotag "eng" 1 true tt false)
    (mkFilesystem names (map (fun _ => true) names) "/jobs" false [] [] [] "" "" "/corpus").

Definition test_job : Job := test_job_named "j1" ["a.cha"; "b.cha"].

(** Dispatched, with one file done and the other failed. *)
Definition test_running_job : Job :=
  let j := (mark_running test_job).1 in
  let j := (mark_file_done j "a.cha" 2000 WithoutResult).1 in
  (mark_file_error j "b.cha" (mkFailureRecord "bad header" FailureCategory.Validation 3000)).1.

Definition test_failed_job : Job := (finalize test_running_job JobStatus.Failed 4000).1.

Lemma failure_reason_order_independent_witness :
  failure_reason_of (map_values (files test_running_job)) =
    failure_reason_of (rev (map_values (files test_running_job))) /\
  (is_Some (failure_reason_of (map_values (files test_running_job))) <->
   Exists (fun f => file_errored f = true) (map_values (files test_running_job))).
Proof. apply failure_reason_order_independent. apply Permutation_rev. Defined.

Lemma finalize_records_the_outcome_witness :
  exists j', finalize test_running_job JobStatus.Failed 4000 = (j', true) /\
    st j' = JobStatus.Failed /\ completed_at (schedule j') = Some 4000 /\
    job_next_eligible_at (schedule j') = None /\ files j' = files test_running_job /\
    completed_files (execution j') =
      Z.of_nat (count_if file_terminal (map_values (files test_running_job))) /\
    (JobStatus.Failed = JobStatus.Failed ->
     Exists (fun f => file_errored f = true) (map_values (files test_running_job)) ->
     is_Some (error (execution j'))).
Proof. apply (finalize_records_the_outcome test_running_job); vm_compute; reflexivity. Defined.

Example failed_job_names_its_cause : error (execution test_failed_job) = Some "bad header".
Proof. vm_compute. reflexivity. Qed.

Lemma restart_requeues_unfinished_files_witness :
  exists j', prepare_for_restart test_failed_job = Ok j' /\ st j' = JobStatus.Queued /\
    mkPending 0 "a.cha" true ∉ pending_files j'.
Proof.
  destruct (proj1 (restart_requeues_unfinished_files test_failed_job))
    as (j' & Hj' & Hst & _ & _ & _ & _ & _ & _ & _ & _ & _ & Hpend & _);
    [right; vm_compute; reflexivity|vm_compute; reflexivity|].
  exists j'. split_and!; [done..|].
  eapply (Hpend 0%nat "a.cha" true); vm_compute; reflexivity.
Defined.

(** The errored file of the same job is run again. *)
Example restart_runs_the_errored_file :
  mkPending 1 "b.cha" true ∈ pending_files (restarted test_failed_job).
Proof. vm_compute. repeat constructor. Qed.

Lemma reconciliation_requeues_or_ends_witness :
  st (reconcile_recovered_runtime_state (mark_running test_job).1).1 = JobStatus.Queued.
Proof.
  pose proof (reconciliation_requeues_or_ends (mark_running test_job).1 eq_refl) as Hr.
  destruct (reconcile_recovered_runtime_state _) as [j' d]. apply Hr.
  rewrite <- some_resumable. vm_compute. reflexivity.
Defined.

End concrete.
