(* ===== verification/Recovery.v ===== *)
(** * Startup recovery: stored rows read back into jobs

    Models [crates/batchalign/src/store/queries/recovery.rs]: the readers of a
    stored [jobs] row and of its [file_statuses] rows ([recover_job_status],
    [recover_file_phase] and the column decoders), and the closure
    [load_from_db] sends to the registry's [mutate_all], with everything it
    changes and everything it returns for the database. The row structs are
    those of [crates/batchalign/src/db/schema.rs].

    The JSON decoders, the language parser, the output planner and the text of
    a planning error are the class [StoredText]. *)

From S2P Require Import Prelude Status Scheduling FilePhase Job.
From stdpp Require Import base decidable option list gmap strings numbers.
From Stdlib Require Import Ascii.

Open Scope Z_scope.

(** [impl TryFrom<&str> for ReleasedCommand]. *)
Definition released_command (value : string) : result string ReleasedCommand.t :=
  if String.eqb value "align" then Ok ReleasedCommand.Align
  else if String.eqb value "transcribe" then Ok ReleasedCommand.Transcribe
  else if String.eqb value "transcribe_s" then Ok ReleasedCommand.TranscribeS
  else if String.eqb value "translate" then Ok ReleasedCommand.Translate
  else if String.eqb value "morphotag" then Ok ReleasedCommand.Morphotag
  else if String.eqb value "coref" then Ok ReleasedCommand.Coref
  else if String.eqb value "utseg" then Ok ReleasedCommand.Utseg
  else if String.eqb value "benchmark" then Ok ReleasedCommand.Benchmark
  else if String.eqb value "opensmile" then Ok ReleasedCommand.Opensmile
  else if String.eqb value "compare" then Ok ReleasedCommand.Compare
  else if String.eqb value "avqi" then Ok ReleasedCommand.Avqi
  else if String.eqb value "diarize" then Ok ReleasedCommand.Diarize
  else if String.eqb value "speaker_identify" then Ok ReleasedCommand.SpeakerIdentify
  else if String.eqb value "convert" then Ok ReleasedCommand.Convert
  else Err value.

(** [s.trim().is_empty()]: every character of the UTF-8 text is a Unicode
    [White_Space]. *)
Definition blank1 (a : ascii) : bool :=
  let a := nat_of_ascii a in ((9 <=? a) && (a <=? 13) || (a =? 32))%nat.
Definition blank2 (a b : ascii) : bool :=
  let a := nat_of_ascii a in let b := nat_of_ascii b in
  ((a =? 194) && ((b =? 133) || (b =? 160)))%nat.
Definition blank3 (a b c : ascii) : bool :=
  let a := nat_of_ascii a in let b := nat_of_ascii b in let c := nat_of_ascii c in
  (((a =? 225) && (b =? 154) && (c =? 128)) ||
   ((a =? 226) && (b =? 128) &&
     ((128 <=? c) && (c <=? 138) || (c =? 168) || (c =? 169) || (c =? 175))) ||
   ((a =? 226) && (b =? 129) && (c =? 159)) ||
   ((a =? 227) && (b =? 128) && (c =? 128)))%nat.

Fixpoint is_blank (s : string) : bool :=
  match s with
  | EmptyString => true
  | String a s1 =>
      if blank1 a then is_blank s1
      else
        match s1 with
        | EmptyString => false
        | String b s2 =>
            if blank2 a b then is_blank s2
            else match s2 with
                 | EmptyString => false
                 | String c s3 => blank3 a b c && is_blank s3
                 end
        end
  end.

Definition newline : string := String (ascii_of_nat 10) EmptyString.

Definition append_recovery_note (existing : option string) (note : string) : option string :=
  let note := "[recovery] " +:+ note in
  match existing with
  | Some existing =>
      if is_blank existing then Some note else Some (existing +:+ newline +:+ note)
  | None => Some note
  end.

Class StoredText `{Payload} `{Catalog} := {
  (** [serde_json::from_str] at the two JSON columns; an error is its text. *)
  decode_diagnostics : string -> result string FileOutputDiagnostics;
  decode_exclusions : string -> result string (list OutputExclusionRecord);
  (** [LanguageSpec::parse_from_db], with whether the text was valid. *)
  language_from_db : string -> LanguageSpec * bool;
  planning_error_text : PlanningError -> string;
  no_runtime_state : RuntimeState;
  (** [primary_output_artifact]: the artifact's display path and content type. *)
  primary_output_artifact :
    ReleasedCommand.t -> CommandOptions -> string -> result PlanningError (string * ContentType)
}.

Section recovery.
Context `{StoredText}.

(** ** Rows *)

Record FileStatusRow := mkFileRow {
  fr_filename : string;
  fr_status : string;
  fr_error : option string;
  fr_error_category : option string;
  fr_diagnostics : option string;
  fr_exclusions : option string;
  fr_content_type : string;
  fr_started_at : option MachineTime;
  fr_finished_at : option MachineTime;
  fr_next_eligible_at : option MachineTime
}.

Record JobRow := mkRow {
  row_job_id : string;
  row_correlation_id : string;
  row_command : string;
  row_lang : string;
  row_num_speakers : Z;
  row_status : string;
  row_error : option string;
  row_staging_dir : string;
  row_filenames : list string;
  row_has_chat : list bool;
  row_options : CommandOptions;
  row_media_mapping : string;
  row_media_subdir : string;
  row_source_dir : string;
  row_submitted_by : string;
  row_submitted_by_name : string;
  row_submitted_at : MachineTime;
  row_completed_at : option MachineTime;
  row_num_workers : option Z;
  row_next_eligible_at : option MachineTime;
  row_lease : option LeaseRecord;
  row_last_cancelled_at : option MachineTime;
  row_last_cancelled_source : option string;
  row_last_cancelled_host : option string;
  row_last_cancelled_reason : option string;
  row_paths_mode : bool;
  row_source_paths : list string;
  row_output_paths : list string;
  row_file_statuses : list FileStatusRow
}.

(** ** Reading columns *)

Definition recover_job_status (raw_status : string) : JobStatus.t * option string :=
  match JobStatus.from_str raw_status with
  | Ok status => (status, None)
  | Err _ =>
      (JobStatus.Failed,
       Some ("invalid persisted job status '" +:+ raw_status +:+ "' was coerced to 'failed'"))
  end.

Definition recover_file_status (raw_status : string) : FileStatusKind.t * option string :=
  match FileStatusKind.from_str raw_status with
  | Ok status => (status, None)
  | Err _ =>
      (FileStatusKind.Error,
       Some ("invalid persisted file status '" +:+ raw_status +:+ "' was coerced to 'error'"))
  end.

Definition recover_failure_category (raw : option string)
    : option FailureCategory.t * option string :=
  match raw with
  | None => (None, None)
  | Some raw =>
      match FailureCategory.from_str raw with
      | Ok category => (Some category, None)
      | Err _ => (None, Some ("invalid persisted error_category '" +:+ raw +:+ "' was ignored"))
      end
  end.

Definition recover_output_diagnostics (raw : option string)
    : option FileOutputDiagnostics * option string :=
  match raw with
  | None => (None, None)
  | Some raw =>
      match decode_diagnostics raw with
      | Ok diagnostics => (Some diagnostics, None)
      | Err error => (None, Some ("unreadable output diagnostics were dropped: " +:+ error))
      end
  end.

Definition recover_output_exclusions (raw : option string)
    : option (list OutputExclusionRecord) * option string :=
  match raw with
  | None => (None, None)
  | Some raw =>
      match decode_exclusions raw with
      | Ok exclusions => (Some exclusions, None)
      | Err error => (None, Some ("unreadable output exclusions were dropped: " +:+ error))
      end
  end.

(** [RecoveredFilePhase]. *)
Inductive RecoveredFilePhase :=
| RowExact (phase : FilePhase)
| RowRepairable (phase : FilePhase) (dropped : string)
| RowForeign (phase : FilePhase).

(** [RecoveredFilePhase::into_phase]. *)
Definition into_phase (r : RecoveredFilePhase) : FilePhase :=
  match r with RowExact phase | RowRepairable phase _ | RowForeign phase => phase end.

Definition recover_file_phase (row : FileStatusRow) : RecoveredFilePhase :=
  let '(status, status_note) := recover_file_status (fr_status row) in
  let '(error_category, category_note) := recover_failure_category (fr_error_category row) in
  let '(diagnostics, diagnostics_note) := recover_output_diagnostics (fr_diagnostics row) in
  let '(exclusions, exclusions_note) := recover_output_exclusions (fr_exclusions row) in
  let notes := omap id [status_note; category_note; diagnostics_note; exclusions_note] in
  let error := foldl append_recovery_note (fr_error row) notes in
  let '(phase, dropped) := from_row
    {| col_status := status; col_error := error; col_error_category := error_category;
       col_diagnostics := diagnostics; col_exclusions := exclusions;
       col_started_at := fr_started_at row; col_finished_at := fr_finished_at row;
       col_next_eligible_at := fr_next_eligible_at row |} in
  match notes, dropped with
  | _ :: _, _ => RowForeign phase
  | [], Some dropped => RowRepairable phase dropped
  | [], None => RowExact phase
  end.

(** ** What a load leaves for the database *)

Record RowRepairs := mkRepairs {
  repair_files : list (string * string * FilePhase);
  repair_submitters : list string
}.

Record RecoveredJobPersistence := mkPersistence {
  persist_job_id : string;
  persist_status : JobStatusColumns;
  persist_requeued_files : list (string * FilePhase)
}.

Record LoadOutcome := mkLoadOutcome {
  loaded : nat;
  recovered_updates : list RecoveredJobPersistence;
  repairs : RowRepairs
}.

Definition no_load : LoadOutcome := mkLoadOutcome 0 [] (mkRepairs [] []).

(** ** One row *)

(** A file restored from its row: its stamp, attempt, progress and waits are
    not persisted. *)
Definition restored_file (name : string) (phase : FilePhase) : FileStatus :=
  {| filename := name; phase := phase; stamp := StampUnrecorded; current_attempt_id := None;
     progress := no_progress; worker_waits := no_waits |}.

(** The files map, the results and the file repairs collected so far. *)
Record LoadedFiles := mkLoadedFiles {
  lf_files : gmap string FileStatus;
  lf_results : list FileResultEntry;
  lf_repairs : list (string * string * FilePhase)
}.

(** The loop over a job's file rows. [Err] is [continue 'rows]: the job is
    left out, and the repairs recorded before stay recorded. *)
Fixpoint load_files (job : string) (command : ReleasedCommand.t) (options : CommandOptions)
    (admitted : bool) (rows : list FileStatusRow) (acc : LoadedFiles)
    : result (list (string * string * FilePhase)) LoadedFiles :=
  match rows with
  | [] => Ok acc
  | row :: rows =>
      let recovered := recover_file_phase row in
      let phase := into_phase recovered in
      let repairs :=
        match recovered with
        | RowRepairable phase _ =>
            lf_repairs acc ++ (if admitted then [(job, fr_filename row, phase)] else [])
        | _ => lf_repairs acc
        end in
      let file_error := failure phase ≫= failure_message in
      let files := <[fr_filename row := restored_file (fr_filename row) phase]> (lf_files acc) in
      if FileStatusKind.is_terminal (kind phase) && admitted then
        match primary_output_artifact command options (fr_filename row) with
        | Err _ => Err repairs
        | Ok (display_path, content_type) =>
            let entry :=
              mkResult
                (if FileStatusKind.wrote_output (kind phase) then display_path
                 else fr_filename row)
                content_type file_error in
            load_files job command options admitted rows
              (mkLoadedFiles files (lf_results acc ++ [entry]) repairs)
        end
      else
        load_files job command options admitted rows
          (mkLoadedFiles files (lf_results acc) repairs)
  end.

(** The status a row is recovered with, and the note for its error column. *)
Definition admitted_status (row : JobRow) (admission : result PlanningError OutputPolicy)
    : JobStatus.t * option string :=
  match admission with
  | Ok _ => recover_job_status (row_status row)
  | Err error =>
      (JobStatus.Failed,
       Some ("Stored command/options are inconsistent: " +:+ planning_error_text error +:+
             ". Original records are unchanged; restart is refused until the mismatch is resolved."))
  end.

Definition recovered_submitter (row : JobRow) : option Submitter :=
  match submitter_from_columns (row_submitted_by row) (row_submitted_by_name row) with
  | SubmitterRecorded s => Some s
  | SubmitterAbsent | NameWithoutAddress _ => None
  end.

(** The job as its columns describe it, before reconciliation. *)
Definition job_of_row (row : JobRow) (command : ReleasedCommand.t) (status : JobStatus.t)
    (note : option string) (files : LoadedFiles) : Job :=
  {| identity :=
       mkIdentity (row_job_id row)
         (if string_is_empty (row_correlation_id row) then row_job_id row
          else row_correlation_id row);
     dispatch :=
       mkDispatch command (language_from_db (row_lang row)).1 (row_num_speakers row)
         (row_options row) no_runtime_state false;
     source := mkSource (recovered_submitter row) (row_source_dir row);
     filesystem :=
       mkFilesystem (row_filenames row) (row_has_chat row) (row_staging_dir row)
         (row_paths_mode row) (row_source_paths row) (row_output_paths row) []
         (row_media_mapping row) (row_media_subdir row) "";
     execution :=
       mkExecution status (lf_files files) (lf_results files)
         (match note with
          | Some note => append_recovery_note (row_error row) note
          | None => row_error row
          end)
         (Z.of_nat (count_if file_terminal (map_values (lf_files files))));
     schedule :=
       mkSchedule (row_submitted_at row) (row_completed_at row) (row_next_eligible_at row)
         (row_num_workers row) (row_lease row)
         ((fun at_ =>
             mkLastCancel at_ (default "api" (row_last_cancelled_source row))
               (row_last_cancelled_host row) (row_last_cancelled_reason row))
            <$> row_last_cancelled_at row);
     runtime := mkRuntime false false FIRST;
     execution_plan := None |}.

(** Reconciliation of a recoverable job, with what it writes back. *)
Definition reconcile_loaded (j : Job) : Job * RecoveredJobPersistence :=
  let resumable :=
    map fst (List.filter (fun '(_, f) => file_resumable f) (map_to_list (files j))) in
  let '(j, disposition) := reconcile_recovered_runtime_state j in
  let requeued :=
    match disposition with
    | Requeued => omap (fun name => (fun f => (name, phase f)) <$> files j !! name) resumable
    | RecoveredFailed | RecoveredCompleted => []
    end in
  (j, mkPersistence (job_id (identity j)) (status_columns j) requeued).

(** One turn of ['rows]. *)
Definition load_row (ttl_cutoff : MachineTime) (acc : gmap string Job * LoadOutcome)
    (row : JobRow) : gmap string Job * LoadOutcome :=
  let '(jobs, out) := acc in
  if row_submitted_at row <? ttl_cutoff then (jobs, out)
  else
    match released_command (row_command row) with
    | Err _ => (jobs, out)
    | Ok command =>
        let admission := selected_output_policy command (row_options row) in
        let '(status, note) := admitted_status row admission in
        let before := repairs out in
        match load_files (row_job_id row) command (row_options row) (is_ok admission)
                (row_file_statuses row) (mkLoadedFiles ∅ [] (repair_files before)) with
        | Err file_repairs =>
            (jobs, mkLoadOutcome (loaded out) (recovered_updates out)
                     (mkRepairs file_repairs (repair_submitters before)))
        | Ok files =>
            let submitters :=
              match submitter_from_columns (row_submitted_by row) (row_submitted_by_name row) with
              | NameWithoutAddress _ =>
                  repair_submitters before ++ (if is_ok admission then [row_job_id row] else [])
              | _ => repair_submitters before
              end in
            let j := job_of_row row command status note files in
            let '(j, updates) :=
              if JobStatus.is_recoverable status
              then let '(j, update) := reconcile_loaded j in (j, recovered_updates out ++ [update])
              else (j, recovered_updates out) in
            (<[row_job_id row := j]> jobs,
             mkLoadOutcome (S (loaded out)) updates (mkRepairs (lf_repairs files) submitters))
        end
    end.

(** The closure of [load_from_db]. *)
Definition load_jobs (ttl_cutoff : MachineTime) (rows : list JobRow) (jobs : gmap string Job)
    : gmap string Job * LoadOutcome :=
  foldl (load_row ttl_cutoff) (jobs, no_load) rows.

End recovery.
