(* ===== verification/RecoveryFacts.v ===== *)
(** * What a startup load makes of each stored row

    [row_job] is the job one row becomes, if any; [load_jobs] is the insertion
    of those jobs in the rows' order ([load_row_fst], [load_jobs_cases]). The
    theorem on rows whose command and options disagree is here; what loading
    does to the registry's invariant is in [StartupFacts.v]. *)

From S2P Require Import Prelude Status Scheduling FilePhase Job JobFacts Recovery.
From stdpp Require Import base decidable option list gmap strings numbers.

Open Scope Z_scope.

Section recovery_facts.
Context `{StoredText}.
Implicit Types (row : JobRow) (jobs : gmap string Job) (acc lf : LoadedFiles).

(** ** The loop over the file rows *)

(** The repairs are only collected: they decide nothing. *)
Lemma load_files_repairs job command options admitted rows fs rs repairs :
  load_files job command options admitted rows (mkLoadedFiles fs rs repairs) =
  match load_files job command options admitted rows (mkLoadedFiles fs rs []) with
  | Ok lf => Ok (mkLoadedFiles (lf_files lf) (lf_results lf) (repairs ++ lf_repairs lf))
  | Err e => Err (repairs ++ e)
  end.
Proof.
  revert fs rs repairs. induction rows as [|row rows IH]; intros fs rs repairs; simpl.
  { by rewrite app_nil_r. }
  set (more := match recover_file_phase row with
               | RowRepairable phase _ => if admitted then [(job, fr_filename row, phase)] else []
               | _ => []
               end).
  assert (forall l, match recover_file_phase row with
    | RowRepairable phase _ => l ++ (if admitted then [(job, fr_filename row, phase)] else [])
    | _ => l end = l ++ more) as Hmore.
  { intros l. unfold more. destruct (recover_file_phase row); by rewrite ?app_nil_r. }
  rewrite !Hmore. clearbody more. clear Hmore. destruct (_ && admitted).
  - destruct (primary_output_artifact _ _ _) as [[display_path content_type]|]; [|done].
    rewrite IH, (IH _ _ ([] ++ more)). simpl.
    destruct (load_files _ _ _ _ _ _); simpl; by rewrite <- app_assoc.
  - rewrite IH, (IH _ _ ([] ++ more)). simpl.
    destruct (load_files _ _ _ _ _ _); simpl; by rewrite <- app_assoc.
Qed.

(** The files map holds exactly the rows' names, each under its own. *)
Lemma load_files_names job command options admitted rows acc lf :
  load_files job command options admitted rows acc = Ok lf ->
  map_Forall (fun k f => filename f = k) (lf_files acc) ->
  dom (lf_files lf) = dom (lf_files acc) ∪ list_to_set (map fr_filename rows) /\
  map_Forall (fun k f => filename f = k) (lf_files lf).
Proof.
  revert acc. induction rows as [|row rows IH]; intros acc Hl Hall; simpl in Hl.
  { simplify_eq. split; [set_solver|done]. }
  assert (forall acc', load_files job command options admitted rows acc' = Ok lf ->
    lf_files acc' = <[fr_filename row :=
      restored_file (fr_filename row) (into_phase (recover_file_phase row))]> (lf_files acc) ->
    dom (lf_files lf) = dom (lf_files acc) ∪ list_to_set (map fr_filename (row :: rows)) /\
    map_Forall (fun k f => filename f = k) (lf_files lf)) as Hrest.
  { intros acc' Hacc' Heq. destruct (IH acc' Hacc') as [Hd Hf].
    - rewrite Heq. by apply map_Forall_insert_2.
    - split; [|done]. rewrite Hd, Heq, dom_insert_L. set_solver. }
  destruct (_ && admitted).
  - destruct (primary_output_artifact _ _ _) as [[? ?]|]; [|done]. by eapply Hrest.
  - by eapply Hrest.
Qed.

(** ** One row *)

(** The job a row becomes: none when the row is past its retention, names no
    known command, or has a finished file whose artifact cannot be planned. *)
Definition row_job (ttl_cutoff : MachineTime) (row : JobRow) : option Job :=
  if row_submitted_at row <? ttl_cutoff then None
  else
    match released_command (row_command row) with
    | Err _ => None
    | Ok command =>
        let admission := selected_output_policy command (row_options row) in
        let '(status, note) := admitted_status row admission in
        match load_files (row_job_id row) command (row_options row) (is_ok admission)
                (row_file_statuses row) (mkLoadedFiles ∅ [] []) with
        | Err _ => None
        | Ok files =>
            let j := job_of_row row command status note files in
            Some (if JobStatus.is_recoverable status
                  then (reconcile_recovered_runtime_state j).1 else j)
        end
    end.

Lemma load_row_fst ttl_cutoff jobs out row :
  (load_row ttl_cutoff (jobs, out) row).1 =
  match row_job ttl_cutoff row with
  | Some j => <[row_job_id row := j]> jobs
  | None => jobs
  end.
Proof.
  unfold load_row, row_job. destruct (_ <? _); [done|].
  destruct (released_command _) as [command|]; [|done].
  destruct (admitted_status _ _) as [status note]. rewrite load_files_repairs.
  destruct (load_files _ _ _ _ _ _) as [files|]; [|done].
  change (job_of_row row command status note (mkLoadedFiles (lf_files files) (lf_results files)
    (repair_files (repairs out) ++ lf_repairs files)))
    with (job_of_row row command status note files).
  destruct (JobStatus.is_recoverable status); [|done].
  unfold reconcile_loaded. by destruct (reconcile_recovered_runtime_state _).
Qed.

Lemma load_jobs_fst ttl_cutoff rows jobs out :
  (foldl (load_row ttl_cutoff) (jobs, out) rows).1 =
  foldl (fun jobs row => match row_job ttl_cutoff row with
                         | Some j => <[row_job_id row := j]> jobs
                         | None => jobs
                         end) jobs rows.
Proof.
  revert jobs out. induction rows as [|row rows IH]; intros jobs out; [done|]. cbn [foldl].
  rewrite <- (load_row_fst _ _ out). destruct (load_row _ _ _) as [jobs' out']. apply IH.
Qed.

(** After a load each job is one the registry had or the one its row became. *)
Lemma load_jobs_cases ttl_cutoff rows jobs id j :
  (load_jobs ttl_cutoff rows jobs).1 !! id = Some j ->
  jobs !! id = Some j \/
  exists row, row ∈ rows /\ row_job_id row = id /\ row_job ttl_cutoff row = Some j.
Proof.
  unfold load_jobs. rewrite load_jobs_fst. revert jobs.
  induction rows as [|row rows IH]; intros jobs; simpl; [by left|].
  intros [Hj|(row' & Hin & Hid & Hrow)]%IH; [|right; exists row'; set_solver].
  destruct (row_job ttl_cutoff row) as [k|] eqn:Hk; [|by left].
  destruct (decide (row_job_id row = id)) as [Heq|Hne].
  - rewrite Heq, lookup_insert_eq in Hj. simplify_eq. right. exists row. set_solver.
  - rewrite lookup_insert_ne in Hj by done. by left.
Qed.

(** A load leaves alone the jobs none of its rows names. *)
Lemma load_jobs_other ttl_cutoff rows jobs id :
  Forall (fun row => row_job_id row <> id) rows ->
  (load_jobs ttl_cutoff rows jobs).1 !! id = jobs !! id.
Proof.
  unfold load_jobs. rewrite load_jobs_fst. intros Hall. revert jobs.
  induction Hall as [|row rows Hne Hall IH]; intros jobs; simpl; [done|]. rewrite IH.
  destruct (row_job ttl_cutoff row); [|done]. by rewrite lookup_insert_ne.
Qed.

Lemma reconcile_identity j :
  identity (reconcile_recovered_runtime_state j).1 = identity j /\
  source (reconcile_recovered_runtime_state j).1 = source j /\
  dispatch (reconcile_recovered_runtime_state j).1 = dispatch j /\
  filesystem (reconcile_recovered_runtime_state j).1 = filesystem j /\
  runtime (reconcile_recovered_runtime_state j).1 = runtime j.
Proof.
  unfold reconcile_recovered_runtime_state, set_status, set_failure_reason_from_files.
  destruct (existsb _ _); [by destruct (can_transition_to _ _ _)|].
  destruct (forallb _ _); destruct (can_transition_to _ _ _); simpl; try done;
    destruct (error _); try done; by destruct (aggregate_file_failure_reason _).
Qed.

(** What a loaded job is: its own row, with no runner and its first run. *)
Lemma row_job_identity ttl_cutoff row j :
  row_job ttl_cutoff row = Some j ->
  job_id (identity j) = row_job_id row /\ filenames (filesystem j) = row_filenames row /\
  runtime j = mkRuntime false false FIRST.
Proof.
  unfold row_job. destruct (_ <? _); [done|].
  destruct (released_command _) as [command|]; [|done].
  destruct (admitted_status _ _) as [status note].
  destruct (load_files _ _ _ _ _ _) as [files|]; [|done]. intros [= <-].
  destruct (JobStatus.is_recoverable status); [|done].
  destruct (reconcile_identity (job_of_row row command status note files))
    as (-> & _ & _ & -> & ->). done.
Qed.

(** ** Rows whose command and options disagree *)

Definition restore_row (m : gmap string FileStatus) (row : FileStatusRow)
    : gmap string FileStatus :=
  <[fr_filename row :=
      restored_file (fr_filename row) (into_phase (recover_file_phase row))]> m.

(** Without admission the loop reads every file and does nothing else. *)
Lemma load_files_refused job command options rows acc :
  load_files job command options false rows acc =
  Ok (mkLoadedFiles (foldl restore_row (lf_files acc) rows) (lf_results acc) (lf_repairs acc)).
Proof.
  revert acc. induction rows as [|row rows IH]; intros acc; simpl; [by destruct acc|].
  rewrite andb_false_r, IH. simpl. do 2 f_equal.
  destruct (recover_file_phase row); by rewrite ?app_nil_r.
Qed.

Lemma restore_rows_lookup rows m fs :
  NoDup (map fr_filename rows) -> fs ∈ rows ->
  foldl restore_row m rows !! fr_filename fs =
  Some (restored_file (fr_filename fs) (into_phase (recover_file_phase fs))).
Proof.
  revert m. induction rows as [|row rows IH]; intros m Hnd Hin; [set_solver|].
  cbn [map] in Hnd. apply list.NoDup_cons in Hnd as [Hnot Hnd]. cbn [foldl].
  apply elem_of_cons in Hin as [-> |Hin]; [|by apply IH].
  assert (forall m, foldl restore_row m rows !! fr_filename row = m !! fr_filename row) as ->.
  { clear IH Hnd. induction rows as [|r rows IH]; intros m'; [done|]. cbn [foldl].
    rewrite IH by set_solver. unfold restore_row. rewrite lookup_insert_ne; set_solver. }
  apply lookup_insert_eq.
Qed.

(** C9: a stored job whose command and options disagree is loaded read-only,
    whatever its rows hold: it is [Failed] with an explanation, it names no
    result, each of its files is readable in the phase its row describes, a
    restart is refused by that same disagreement, and the load records nothing
    to rewrite in the database, neither repairs nor a recovered status. *)
Theorem inconsistent_row_is_loaded_read_only ttl_cutoff jobs out row command e :
  ttl_cutoff <= row_submitted_at row ->
  released_command (row_command row) = Ok command ->
  selected_output_policy command (row_options row) = Err e ->
  exists j,
    load_row ttl_cutoff (jobs, out) row =
      (<[row_job_id row := j]> jobs,
       mkLoadOutcome (S (loaded out)) (recovered_updates out) (repairs out)) /\
    st j = JobStatus.Failed /\ is_Some (error (execution j)) /\ results (execution j) = [] /\
    prepare_for_restart j = Err (Planning e) /\
    (NoDup (map fr_filename (row_file_statuses row)) ->
     forall fs, fs ∈ row_file_statuses row ->
       files j !! fr_filename fs =
         Some (restored_file (fr_filename fs) (into_phase (recover_file_phase fs)))).
Proof.
  intros Hage Hcommand Hpolicy. unfold load_row.
  destruct (Z.ltb_spec (row_submitted_at row) ttl_cutoff); [lia|].
  rewrite Hcommand, Hpolicy. cbn [admitted_status is_ok]. rewrite load_files_refused.
  destruct out as [n us [fs subs]]. cbn -[restore_row].
  assert (match submitter_from_columns (row_submitted_by row) (row_submitted_by_name row) with
          | NameWithoutAddress _ => subs ++ []
          | _ => subs
          end = subs) as -> by (destruct (submitter_from_columns _ _); by rewrite ?app_nil_r).
  eexists. split_and!; [done|done|..].
  - simpl. unfold append_recovery_note. destruct (row_error row) as [text|]; [|eauto].
    destruct (is_blank text); eauto.
  - done.
  - unfold prepare_for_restart. simpl. by rewrite Hpolicy.
  - intros Hnd fr Hfr. by apply restore_rows_lookup.
Qed.

End recovery_facts.

(** ** A concrete row *)

Definition test_stored : StoredText (H := test_payload) (H0 := test_catalog) :=
  Build_StoredText test_payload test_catalog
    (fun s => if String.eqb s "{}" then Ok tt else Err "expected value")
    (fun s => if String.eqb s "[]" then Ok [] else Err "expected value")
    (fun s => (s, true)) (fun e => e) tt
    (fun command options name => if options then Ok (name, Chat) else Err "refused options").

Section concrete.
#[local] Existing Instance test_payload.
#[local] Existing Instance test_catalog.
#[local] Existing Instance test_stored.

Definition test_file_row (name status : string) (finished : option MachineTime) : FileStatusRow :=
  mkFileRow name status None None None None "chat" (Some 2000) finished None.

(** A job the previous server left with one file done and one interrupted. *)
Definition test_row (id : string) (options : bool) : JobRow :=
  mkRow id "" "morphotag" "eng" 1 "interrupted" None "/jobs" ["a.cha"; "b.cha"] [true; true]
    options "" "" "/corpus" "10.0.0.1" "" 1000 (Some 4000) None None None None None None None
    false [] [] [test_file_row "a.cha" "done" (Some 3000); test_file_row "b.cha" "interrupted" None].

(** Loaded with admitted options the job is queued again, its unfinished file
    requeued. *)
Example interrupted_row_is_queued_again :
  (fun j => (st j, map (fun f => (filename f, status f)) (map_values (files j))))
    <$> row_job 0 (test_row "j3" true) =
  Some (JobStatus.Queued,
        [("a.cha", FileStatusKind.Done); ("b.cha", FileStatusKind.Queued)]).
Proof. vm_compute. reflexivity. Qed.

Lemma inconsistent_row_is_loaded_read_only_witness :
  exists j,
    load_row 0 (∅, no_load) (test_row "j3" false) =
      (<["j3" := j]> ∅, mkLoadOutcome 1 [] (mkRepairs [] [])) /\
    st j = JobStatus.Failed /\ prepare_for_restart j = Err (Planning "refused options").
Proof.
  destruct (inconsistent_row_is_loaded_read_only 0 ∅ no_load (test_row "j3" false)
    ReleasedCommand.Morphotag "refused options") as (j & Hload & Hst & _ & _ & Hr & _);
    [vm_compute; discriminate|reflexivity|reflexivity|].
  exists j. split_and!; [exact Hload|exact Hst|exact Hr].
Defined.

End concrete.
