(* ===== verification/Registry.v ===== *)
(** * The job registry: every operation on the map of jobs, and its histories

    Models [crates/batchalign/src/store/registry.rs]. The registry is one
    actor that owns the map of jobs and runs one command at a time
    ([run_registry]), so a history of the registry is a sequence of commands
    and each command is a function of the map. Every named operation returns
    the new map and its reply; [Command] and [exec] give the actor's mutating
    inputs in a production build: the operations of registry.rs, the two
    closures store/queries/mod.rs sends through [update_job]
    ([update_job_status], [set_execution_plan]) and the one
    store/queries/recovery.rs sends through [mutate_all] ([load_jobs] of
    [Recovery.v]). The definitions also take in the final-status decision of
    [crates/batchalign/src/runner/execution.rs].

    [claim_ready_queued_jobs] and what only it uses are compiled for tests
    alone ([#[cfg(test)]] in registry.rs and job/lease.rs): they are modelled
    as the readiness poll the repository's tests drive, and are no [Command]. *)

From S2P Require Import Prelude Status Scheduling FilePhase Job Recovery.
From stdpp Require Import base decidable option list gmap strings numbers sorting.

Open Scope Z_scope.

Section registry.
Context `{Payload} `{Catalog} `{TimestampRange} `{!StoredText}.

Abbreviation Jobs := (gmap string Job).

(** [project_job], [update_job] and [remove_job]. *)
Definition project_job {R} (jobs : Jobs) (id : string) (f : Job -> R) : option R :=
  f <$> jobs !! id.

Definition update_job {R} (jobs : Jobs) (id : string) (f : Job -> Job * R)
    : Jobs * option R :=
  match jobs !! id with
  | None => (jobs, None)
  | Some j => let '(j, r) := f j in (<[id := j]> jobs, Some r)
  end.

Definition remove_job {R} (jobs : Jobs) (id : string) (f : Job -> R) : Jobs * option R :=
  match jobs !! id with
  | None => (jobs, None)
  | Some j => (delete id jobs, Some (f j))
  end.

(** [insert_checked]: a new job is refused when a file of it is already in an
    active job of the same submitter. *)
Definition insert_checked (jobs : Jobs) (job : Job) : Jobs * result ServerError unit :=
  let conflicts := find_conflicts jobs job in
  match conflicts with
  | [] => (<[job_id (identity job) := job]> jobs, Ok tt)
  | _ =>
      (jobs, Err (JobConflict (AlreadyProcessed (map conflict_filename conflicts)) conflicts))
  end.

(** [list_items]: newest first ([sort_by_key] with [Reverse]); jobs submitted
    at the same instant come in the map's unspecified order. *)
Definition newer (a b : JobListItem) : Prop := item_submitted_at b <= item_submitted_at a.
#[global] Instance newer_dec : RelDecision newer.
Proof. unfold newer. intros a b. apply _. Defined.
Definition list_items (jobs : Jobs) : list JobListItem :=
  merge_sort newer (map to_list_item (map_values jobs)).

Definition reg_request_cancellation (jobs : Jobs) (id : string) (now : MachineTime)
    : Jobs * option (option MachineTime) :=
  update_job jobs id (fun j => request_cancellation j now).

Definition set_last_cancel (jobs : Jobs) (id : string) (info : JobLastCancelInfo)
    : Jobs * bool :=
  let '(jobs, r) := update_job jobs id (fun j => (put_last_cancel j (Some info), tt)) in
  (jobs, bool_decide (is_Some r)).

Definition remove_staging_dir (jobs : Jobs) (id : string) : Jobs * option string :=
  remove_job jobs id (fun j => staging_dir (filesystem j)).

(** [restart_job]: a refused restart leaves the job as it was. *)
Definition restart_job (jobs : Jobs) (id : string)
    : Jobs * option (result ServerError JobListItem) :=
  update_job jobs id (fun j =>
    match prepare_for_restart j with
    | Ok j => (j, Ok (to_list_item j))
    | Err e => (j, Err e)
    end).

Definition reg_requeue_after_memory_gate (jobs : Jobs) (id : string) (retry_at : MachineTime)
    : Jobs * option JobListItem :=
  let '(jobs, r) := update_job jobs id (fun j =>
    let '(j, applied) := requeue_after_memory_gate j retry_at in
    (j, then_some applied (to_list_item j))) in
  (jobs, mjoin r).

Definition mark_job_running (jobs : Jobs) (id : string) : Jobs * option JobListItem :=
  let '(jobs, r) := update_job jobs id (fun j =>
    let '(j, applied) := mark_running j in (j, then_some applied (to_list_item j))) in
  (jobs, mjoin r).

Definition record_job_worker_count (jobs : Jobs) (id : string) (n : Z) : Jobs * bool :=
  let '(jobs, r) := update_job jobs id (fun j => (record_worker_count j n, tt)) in
  (jobs, bool_decide (is_Some r)).

Definition fail_job (jobs : Jobs) (id : string) (message : string) (now : MachineTime)
    : Jobs * option JobListItem :=
  let '(jobs, r) := update_job jobs id (fun j =>
    let '(j, applied) := fail j message now in (j, then_some applied (to_list_item j))) in
  (jobs, mjoin r).

(** [JobCompletionSnapshot] and the runner's [finalize_status]. *)
Record JobCompletionSnapshot := mkSnapshot {
  snap_cancelled : bool;
  snap_all_failed : bool;
  snap_any_failed : bool
}.

Definition snapshot_of (j : Job) : JobCompletionSnapshot :=
  {| snap_cancelled := is_cancelled j;
     snap_all_failed := all_terminal_files_failed j;
     snap_any_failed := any_terminal_files_failed j |}.

Definition completion_snapshot (jobs : Jobs) (id : string) : option JobCompletionSnapshot :=
  project_job jobs id snapshot_of.

Definition finalize_status (completion : JobCompletionSnapshot) (forced_errors : nat)
    : JobStatus.t :=
  if snap_cancelled completion then JobStatus.Cancelled
  else if (0 <? forced_errors)%nat || snap_any_failed completion then JobStatus.Failed
  else JobStatus.Completed.

(** [finalize_job]: refused for a runner of an earlier generation; a declined
    finalization still refreshes the file count. *)
Definition finalize_job (jobs : Jobs) (id : string) (expected_generation : RunGeneration)
    (final_status : JobStatus.t) (now : MachineTime) : Jobs * option JobListItem :=
  let '(jobs, r) := update_job jobs id (fun j =>
    if negb (run_generation (runtime j) =? expected_generation) then (j, None)
    else
      let '(j, _) := finalize j final_status now in (j, Some (to_list_item j))) in
  (jobs, mjoin r).

Inductive BeginRunnerOutcome :=
| Started (generation : RunGeneration) (lease : LeaseRecord)
| RunnerStillLive.

Definition begin_runner (jobs : Jobs) (id node : string) (now : MachineTime) (ttl : LeaseTtl)
    : Jobs * option BeginRunnerOutcome :=
  update_job jobs id (fun j =>
    if runner_active (runtime j) then (j, RunnerStillLive)
    else
      let j := put_runner_active j true in
      let l := lease_taken node now ttl in
      let j := put_lease j (Some l) in
      (j, Started (run_generation (runtime j)) l)).

Definition last_file_activity_at (jobs : Jobs) (id : string) : option MachineTime :=
  mjoin (project_job jobs id (fun j =>
    foldr max_opt (Some (submitted_at (schedule j)))
      (map (fun f => last_activity_at (phase f)) (map_values (files j))))).

Definition runner_generation_current (jobs : Jobs) (id : string) (g : RunGeneration) : bool :=
  default false (project_job jobs id (fun j => run_generation (runtime j) =? g)).

Definition interrupt_all_active (jobs : Jobs) (now : MachineTime) : Jobs * nat :=
  ((fun j => (interrupt_for_shutdown j now).1) <$> jobs,
   count_if (fun j => (interrupt_for_shutdown j now).2) (map_values jobs)).

Definition queued_job_ids (jobs : Jobs) : list string :=
  map (fun j => job_id (identity j))
    (List.filter (fun j => JobStatus.eqb (st j) JobStatus.Queued) (map_values jobs)).

Definition active_jobs (jobs : Jobs) : Z :=
  Z.of_nat (count_if (fun j => JobStatus.eqb (st j) JobStatus.Running) (map_values jobs)).

(** [claim_ready_queued_jobs] ([#[cfg(test)]]): the ready jobs oldest first,
    each claimed in turn; the next wake-up is the earliest among the jobs
    still queued. *)
Definition older (a b : MachineTime * string) : Prop := a.1 <= b.1.
#[global] Instance older_dec : RelDecision older.
Proof. unfold older. intros a b. apply _. Defined.

Definition claim_one (node : string) (now : MachineTime) (ttl : LeaseTtl)
    (acc : Jobs * list (string * LeaseRecord)) (id : string)
    : Jobs * list (string * LeaseRecord) :=
  let '(jobs, claimed) := acc in
  match update_job jobs id (fun j => claim_for_local_dispatch j node now ttl) with
  | (jobs, Some (Some l)) => (jobs, claimed ++ [(id, l)])
  | (jobs, _) => (jobs, claimed)
  end.

Definition min_opt (a b : option MachineTime) : option MachineTime :=
  match a, b with
  | Some a, Some b => Some (Z.min a b)
  | Some a, None => Some a
  | None, b => b
  end.

Record ClaimedQueuePoll := mkPoll {
  ready_job_ids : list string;
  next_wake_at : option MachineTime;
  claimed_leases : list (string * LeaseRecord)
}.

Definition claim_ready_queued_jobs (jobs : Jobs) (now : MachineTime) (node : string)
    (ttl : LeaseTtl) : Jobs * ClaimedQueuePoll :=
  let ready :=
    merge_sort older
      (map (fun j => (submitted_at (schedule j), job_id (identity j)))
         (List.filter (fun j => ready_for_local_dispatch j now) (map_values jobs))) in
  let ids := map snd ready in
  let '(jobs, claimed) := foldl (claim_one node now ttl) (jobs, []) ids in
  let wake :=
    foldr min_opt None
      (map (fun j => next_local_dispatch_wake_at j now)
         (List.filter
            (fun j => JobStatus.eqb (st j) JobStatus.Queued && negb (runner_active (runtime j)))
            (map_values jobs))) in
  (jobs, {| ready_job_ids := ids; next_wake_at := wake; claimed_leases := claimed |}).

Definition release_runner_claim (jobs : Jobs) (id : string) : Jobs * bool :=
  let '(jobs, r) := update_job jobs id (fun j => (release_local_dispatch_claim j, tt)) in
  (jobs, bool_decide (is_Some r)).

Definition renew_job_lease (jobs : Jobs) (id node : string) (now : MachineTime) (ttl : LeaseTtl)
    : Jobs * option LeaseRecord :=
  let '(jobs, r) := update_job jobs id (fun j => renew_local_dispatch_lease j node now ttl) in
  (jobs, mjoin r).

(** ** The store's own closures on one job *)

(** [JobStore::update_job_status]: the staged remote orchestrator's final
    statuses, through the state machine like every other writer; a refused one
    changes nothing and nothing is persisted. *)
Definition update_job_status (jobs : Jobs) (id : string) (status : JobStatus.t)
    (err : option string) (now : MachineTime) : Jobs * bool :=
  let finished := then_some (JobStatus.is_terminal status) now in
  let '(jobs, r) := update_job jobs id (fun j =>
    let '(j, applied) := set_status j status StatusChange.Finalize in
    if negb applied then (j, false)
    else
      let j := match err with Some err => put_error j (Some err) | None => j end in
      let j := match finished with Some ts => put_completed_at j (Some ts) | None => j end in
      (j, true)) in
  (jobs, bool_decide (r = Some true)).

(** [JobStore::set_execution_plan]. *)
Definition set_execution_plan (jobs : Jobs) (id : string) (plan : option ExecutionPlan) : Jobs :=
  (update_job jobs id (fun j => (put_execution_plan j plan, tt))).1.

(** ** File operations *)

Record FileUpdateProjection := mkFileUpdate {
  update_job_id : string;
  update_entry : FileStatusEntry;
  update_phase : FilePhase;
  update_completed_files : Z
}.

Definition file_update_projection (j : Job) (name : string) : option FileUpdateProjection :=
  (fun f => mkFileUpdate (job_id (identity j)) (to_entry f) (phase f)
              (completed_files (execution j))) <$> files j !! name.

(** The shape every file operation shares: the job's own transition, then
    the projection when it applied. *)
Definition file_op (jobs : Jobs) (id name : string) (f : Job -> Job * bool)
    : Jobs * option FileUpdateProjection :=
  let '(jobs, r) := update_job jobs id (fun j =>
    let '(j, applied) := f j in
    (j, if applied then file_update_projection j name else None)) in
  (jobs, mjoin r).

Definition reg_mark_file_processing (jobs : Jobs) (id name : string) (t : MachineTime) :=
  file_op jobs id name (fun j => mark_file_processing j name t).
Definition reg_mark_file_done (jobs : Jobs) (id name : string) (t : MachineTime)
    (c : FileCompletion) :=
  file_op jobs id name (fun j => mark_file_done j name t c).
Definition reg_mark_file_error (jobs : Jobs) (id name : string) (r : FileFailureRecord) :=
  file_op jobs id name (fun j => mark_file_error j name r).
Definition reg_start_file_attempt (jobs : Jobs) (id name : string) (t : MachineTime) :=
  file_op jobs id name (fun j => start_file_attempt j name t).
Definition reg_mark_file_retry_pending (jobs : Jobs) (id name : string) (r : FileRetryRecord) :=
  file_op jobs id name (fun j => mark_file_retry_pending j name r).
Definition reg_set_file_worker_wait (jobs : Jobs) (id name : string) (c : WorkerWaitChange) :=
  file_op jobs id name (fun j => set_file_worker_wait j name c).
Definition reg_set_file_progress (jobs : Jobs) (id name : string) (p : FileProgressRecord) :=
  file_op jobs id name (fun j => set_file_progress j name p).

Definition reg_clear_file_retry_state (jobs : Jobs) (id name : string) : Jobs * bool :=
  let '(jobs, r) := update_job jobs id (fun j => clear_file_retry_state j name) in
  (jobs, bool_decide (is_Some r)).

Definition attach_attempt_id (jobs : Jobs) (id name attempt : string) : Jobs * bool :=
  let '(jobs, r) := update_job jobs id (fun j =>
    update_file j name (fun f => set_attempt f (Some attempt))) in
  (jobs, default false r).

Definition take_attempt_id (jobs : Jobs) (id name : string) : Jobs * option string :=
  let '(jobs, r) := update_job jobs id (fun j =>
    match files j !! name with
    | None => (j, None)
    | Some f =>
        ((update_file j name (fun f => set_attempt f None)).1, current_attempt_id f)
    end) in
  (jobs, mjoin r).

(** ** The actor *)

(** Operations on one job, and the four that touch the collection. *)
Inductive JobOp :=
| OpCancel (now : MachineTime)
| OpSetLastCancel (info : JobLastCancelInfo)
| OpRestart
| OpRequeue (retry_at : MachineTime)
| OpMarkRunning
| OpRecordWorkers (n : Z)
| OpFail (message : string) (now : MachineTime)
| OpFinalize (expected : RunGeneration) (final_status : JobStatus.t) (now : MachineTime)
| OpBeginRunner (node : string) (now : MachineTime) (ttl : LeaseTtl)
| OpReleaseRunner
| OpRenewLease (node : string) (now : MachineTime) (ttl : LeaseTtl)
| OpFileProcessing (name : string) (t : MachineTime)
| OpFileDone (name : string) (t : MachineTime) (c : FileCompletion)
| OpFileError (name : string) (r : FileFailureRecord)
| OpFileAttempt (name : string) (t : MachineTime)
| OpFileRetry (name : string) (r : FileRetryRecord)
| OpFileClearRetry (name : string)
| OpFileWait (name : string) (c : WorkerWaitChange)
| OpFileProgress (name : string) (p : FileProgressRecord)
| OpAttachAttempt (name attempt : string)
| OpTakeAttempt (name : string)
| OpUpdateStatus (status : JobStatus.t) (err : option string) (now : MachineTime)
| OpSetPlan (plan : option ExecutionPlan).

Inductive Command :=
| OnJob (id : string) (op : JobOp)
| InsertJob (job : Job)
| RemoveJob (id : string)
| InterruptAll (now : MachineTime)
| LoadJobs (ttl_cutoff : MachineTime) (rows : list JobRow).

Definition exec_op (op : JobOp) (jobs : Jobs) (id : string) : Jobs :=
  match op with
  | OpCancel now => (reg_request_cancellation jobs id now).1
  | OpSetLastCancel info => (set_last_cancel jobs id info).1
  | OpRestart => (restart_job jobs id).1
  | OpRequeue retry_at => (reg_requeue_after_memory_gate jobs id retry_at).1
  | OpMarkRunning => (mark_job_running jobs id).1
  | OpRecordWorkers n => (record_job_worker_count jobs id n).1
  | OpFail message now => (fail_job jobs id message now).1
  | OpFinalize expected final_status now => (finalize_job jobs id expected final_status now).1
  | OpBeginRunner node now ttl => (begin_runner jobs id node now ttl).1
  | OpReleaseRunner => (release_runner_claim jobs id).1
  | OpRenewLease node now ttl => (renew_job_lease jobs id node now ttl).1
  | OpFileProcessing name t => (reg_mark_file_processing jobs id name t).1
  | OpFileDone name t c => (reg_mark_file_done jobs id name t c).1
  | OpFileError name r => (reg_mark_file_error jobs id name r).1
  | OpFileAttempt name t => (reg_start_file_attempt jobs id name t).1
  | OpFileRetry name r => (reg_mark_file_retry_pending jobs id name r).1
  | OpFileClearRetry name => (reg_clear_file_retry_state jobs id name).1
  | OpFileWait name c => (reg_set_file_worker_wait jobs id name c).1
  | OpFileProgress name p => (reg_set_file_progress jobs id name p).1
  | OpAttachAttempt name attempt => (attach_attempt_id jobs id name attempt).1
  | OpTakeAttempt name => (take_attempt_id jobs id name).1
  | OpUpdateStatus status err now => (update_job_status jobs id status err now).1
  | OpSetPlan plan => set_execution_plan jobs id plan
  end.

Definition exec (jobs : Jobs) (c : Command) : Jobs :=
  match c with
  | OnJob id op => exec_op op jobs id
  | InsertJob job => (insert_checked jobs job).1
  | RemoveJob id => (remove_staging_dir jobs id).1
  | InterruptAll now => (interrupt_all_active jobs now).1
  | LoadJobs ttl_cutoff rows => (load_jobs ttl_cutoff rows jobs).1
  end.

(** [run_registry]: the actor's loop over the commands it received, from the
    empty map. *)
Definition run_registry (commands : list Command) : Jobs := foldl exec ∅ commands.

End registry.
