(* ===== verification/RegistryFacts.v ===== *)
(** * Histories of the registry: what every sequence of commands preserves

    Each command on one job is the alteration of that job alone by the job's
    own transition ([op_job]); the theorems then follow the histories of
    [run_registry] by induction on the commands: the status machine is the
    only way a status changes, a cancelled job is never resurrected, the
    scheduling invariant, runner exclusivity, staleness of an earlier run's
    finalization, and conflict-freedom of admission. *)

From S2P Require Import Prelude Status Scheduling FilePhase Job JobFacts Recovery RecoveryFacts Registry.
From stdpp Require Import base decidable option list gmap strings numbers sorting.

Open Scope Z_scope.

Section facts.
Context `{Payload} `{Catalog} `{TimestampRange} `{!StoredText}.
Implicit Types (j : Job) (jobs : gmap string Job) (op : JobOp).

(** What an applied status update leaves: a terminal status, its time, and the
    error when one was given. *)
Definition status_updated j s (err : option string) (now : MachineTime) : Job :=
  put_completed_at
    (match err with
     | Some e => put_error (put_status j s) (Some e)
     | None => put_status j s
     end) (Some now).

Lemma status_updated_st j s err now : st (status_updated j s err now) = s.
Proof. unfold status_updated. by destruct err. Qed.

(** The job's own transition behind each command. *)
Definition op_job (op : JobOp) (j : Job) : Job :=
  match op with
  | OpCancel now => (request_cancellation j now).1
  | OpSetLastCancel info => put_last_cancel j (Some info)
  | OpRestart => match prepare_for_restart j with Ok j => j | Err _ => j end
  | OpRequeue retry_at => (requeue_after_memory_gate j retry_at).1
  | OpMarkRunning => (mark_running j).1
  | OpRecordWorkers n => record_worker_count j n
  | OpFail message now => (fail j message now).1
  | OpFinalize expected final_status now =>
      if negb (run_generation (runtime j) =? expected) then j
      else (finalize j final_status now).1
  | OpBeginRunner node now ttl =>
      if runner_active (runtime j) then j
      else put_lease (put_runner_active j true) (Some (lease_taken node now ttl))
  | OpReleaseRunner => release_local_dispatch_claim j
  | OpRenewLease node now ttl => (renew_local_dispatch_lease j node now ttl).1
  | OpFileProcessing name t => (mark_file_processing j name t).1
  | OpFileDone name t c => (mark_file_done j name t c).1
  | OpFileError name r => (mark_file_error j name r).1
  | OpFileAttempt name t => (start_file_attempt j name t).1
  | OpFileRetry name r => (mark_file_retry_pending j name r).1
  | OpFileClearRetry name => (clear_file_retry_state j name).1
  | OpFileWait name c => (set_file_worker_wait j name c).1
  | OpFileProgress name p => (set_file_progress j name p).1
  | OpAttachAttempt name attempt =>
      (update_file j name (fun f => set_attempt f (Some attempt))).1
  | OpTakeAttempt name => (update_file j name (fun f => set_attempt f None)).1
  | OpUpdateStatus s err now =>
      if JobStatus.is_active (st j) && JobStatus.is_terminal s
      then status_updated j s err now else j
  | OpSetPlan plan => put_execution_plan j plan
  end.

Lemma update_job_fst {R} jobs id (f : Job -> Job * R) :
  (update_job jobs id f).1 = alter (fun j => (f j).1) id jobs.
Proof.
  unfold update_job. rewrite alter_alt. destruct (jobs !! id) as [j|]; [|done].
  by destruct (f j).
Qed.

Lemma update_job_map_fst {R S} jobs id (f : Job -> Job * R) (g : option R -> S) :
  (let '(jobs, r) := update_job jobs id f in (jobs, g r)).1 = alter (fun j => (f j).1) id jobs.
Proof. rewrite <- update_job_fst. by destruct (update_job jobs id f). Qed.

(** A command on one job is that job's transition and nothing else. *)
Lemma exec_op_alter op jobs id : exec_op op jobs id = alter (op_job op) id jobs.
Proof.
  destruct op; unfold exec_op;
    (etrans; [first [apply update_job_fst | apply update_job_map_fst]|]);
    (apply alter_ext; intros j _; simpl); try done.
  all: try (repeat (case_match; simplify_eq/=); done).
  - destruct (files j !! name) eqn:Hf; unfold update_file; by rewrite Hf.
  - unfold set_status. rewrite finalize_transition. unfold status_updated.
    destruct (JobStatus.is_active (st j)); [|done].
    destruct (JobStatus.is_terminal status); [|done]. by destruct err.
Qed.

(** ** What each transition of a job may change *)

(** The commands that touch files, results and the file count alone. *)
Definition on_files (op : JobOp) : bool :=
  match op with
  | OpFileProcessing _ _ | OpFileDone _ _ _ | OpFileError _ _ | OpFileAttempt _ _
  | OpFileRetry _ _ | OpFileClearRetry _ | OpFileWait _ _ | OpFileProgress _ _
  | OpAttachAttempt _ _ | OpTakeAttempt _ => true
  | _ => false
  end.

(** Everything of a job but its files, results and file count. *)
Definition same_control j j' : Prop :=
  st j' = st j /\ error (execution j') = error (execution j) /\ schedule j' = schedule j /\
  runtime j' = runtime j /\ filesystem j' = filesystem j /\ identity j' = identity j /\
  source j' = source j /\ dispatch j' = dispatch j.

Lemma update_file_control j name g : same_control j (update_file j name g).1.
Proof. unfold update_file. by destruct (files j !! name). Qed.

Lemma on_files_control op j : on_files op = true -> same_control j (op_job op j).
Proof.
  destruct op; try done; intros _; simpl; try apply update_file_control.
  - unfold mark_file_done. destruct (files j !! name); [|done]. by destruct c.
  - unfold mark_file_error. by destruct (files j !! name).
  - unfold set_file_progress. destruct (files j !! name); [|done]. by destruct (file_terminal _).
Qed.

(** The reason with which each command asks for a status change. *)
Definition op_reason (op : JobOp) : option StatusChange.t :=
  match op with
  | OpCancel _ => Some StatusChange.Interrupt
  | OpRestart => Some StatusChange.Restart
  | OpRequeue _ => Some StatusChange.MemoryRequeue
  | OpMarkRunning => Some StatusChange.Dispatch
  | OpFail _ _ | OpFinalize _ _ _ | OpUpdateStatus _ _ _ => Some StatusChange.Finalize
  | _ => None
  end.

Lemma stop_status_allowed j kind at_ :
  st (stop j kind at_).1 = st j \/
  can_transition_to (st j) (st (stop j kind at_).1) StatusChange.Interrupt = true.
Proof.
  rewrite stop_applied. destruct (JobStatus.is_active (st j)) eqn:Ha; [right|by left].
  cbn. unfold JobStatus.can_cancel. by rewrite Ha; destruct kind.
Qed.

Lemma finalize_status_allowed j s now :
  st (finalize j s now).1 = st j \/
  can_transition_to (st j) (st (finalize j s now).1) StatusChange.Finalize = true.
Proof.
  destruct (JobStatus.is_active (st j) && JobStatus.is_terminal s) eqn:Ha.
  - right. by rewrite finalize_applied.
  - left. by rewrite finalize_declined.
Qed.

Lemma op_status_allowed op j :
  st (op_job op j) = st j \/
  exists r, op_reason op = Some r /\ can_transition_to (st j) (st (op_job op j)) r = true.
Proof.
  destruct (on_files op) eqn:Hf; [left; by apply on_files_control|].
  destruct op; try done; simpl.
  - destruct (stop_status_allowed (put_cancel_token j true) StopCancelled now) as [Hs|Hs];
      unfold request_cancellation; destruct (stop _ _ _) as [j' b]; simpl in *; eauto.
  - by left.
  - rewrite prepare_for_restart_spec. destruct (selected_output_policy _ _); [|by left].
    destruct (JobStatus.can_restart (st j)) eqn:Hr; [right|by left].
    eexists. split; [done|]. by apply restart_transition.
  - unfold requeue_after_memory_gate, set_status.
    destruct (can_transition_to _ _ _) eqn:Hc; simpl; eauto.
  - unfold mark_running, set_status. destruct (can_transition_to _ _ _) eqn:Hc; simpl; eauto.
  - by left.
  - unfold fail, set_status. destruct (can_transition_to _ _ _) eqn:Hc; simpl; eauto.
  - destruct (negb _); [by left|].
    destruct (finalize_status_allowed j final_status now); eauto.
  - left. by destruct (runner_active (runtime j)).
  - by left.
  - left. unfold renew_local_dispatch_lease. destruct (_ || _); [done|].
    destruct (lease (schedule j)); [|done]. by destruct (String.eqb _ _).
  - destruct (_ && _) eqn:Ha; [right|by left]. eexists. split; [done|].
    rewrite status_updated_st. by rewrite finalize_transition.
  - by left.
Qed.

(** ** What one command does to one job *)

Inductive job_step : Command -> string -> Job -> Job -> Prop :=
| step_unchanged c id j : job_step c id j j
| step_op id op j : job_step (OnJob id op) id j (op_job op j)
| step_interrupt now id j :
    job_step (InterruptAll now) id j (interrupt_for_shutdown j now).1.
#[local] Hint Constructors job_step : rust.

(** The job [j'] is put under [id] by the command itself: a submission that
    met no conflict, or a stored row loaded at startup. *)
Definition brought_in jobs c id j' : Prop :=
  (c = InsertJob j' /\ id = job_id (identity j') /\ find_conflicts jobs j' = []) \/
  (exists ttl_cutoff rows row, c = LoadJobs ttl_cutoff rows /\ row ∈ rows /\
     row_job_id row = id /\ row_job ttl_cutoff row = Some j').

(** Every job after a command is a job before it, moved by one step, or a job
    the command brought in. *)
Lemma exec_lookup_inv jobs c id j' :
  exec jobs c !! id = Some j' ->
  (exists j, jobs !! id = Some j /\ job_step c id j j') \/ brought_in jobs c id j'.
Proof.
  unfold brought_in. destruct c as [id' op|job|id'|now|cutoff rows]; simpl; intros Hj'.
  - left. rewrite exec_op_alter in Hj'. destruct (decide (id' = id)) as [->|Hne].
    + rewrite lookup_alter_eq, fmap_Some in Hj'. destruct Hj' as (j & Hj & ->).
      eauto with rust.
    + rewrite lookup_alter_ne in Hj' by done. eauto with rust.
  - unfold insert_checked in Hj'. destruct (find_conflicts jobs job) eqn:Hc; simpl in Hj'.
    + destruct (decide (job_id (identity job) = id)) as [<-|Hne].
      * rewrite lookup_insert_eq in Hj'. simplify_eq. right. by left.
      * rewrite lookup_insert_ne in Hj' by done. eauto with rust.
    + eauto with rust.
  - left. unfold remove_staging_dir, remove_job in Hj'. destruct (jobs !! id') eqn:?; simpl in Hj'.
    + apply lookup_delete_Some in Hj' as [_ Hj']. eauto with rust.
    + eauto with rust.
  - left. rewrite lookup_fmap, fmap_Some in Hj'. destruct Hj' as (j & Hj & ->). eauto with rust.
  - apply load_jobs_cases in Hj' as [Hj|(row & Hin & Hid & Hrow)].
    + eauto with rust.
    + right. right. exists cutoff, rows, row. done.
Qed.

(** ** The invariant of a job *)

(** What the scheduling fields may say about each other. *)
Record control_ok j : Prop := {
  ok_completed_at : is_Some (completed_at (schedule j)) <-> JobStatus.is_terminal (st j) = true;
  ok_cancelled : is_cancelled j = true -> JobStatus.is_terminal (st j) = true;
  ok_error :
    is_Some (error (execution j)) ->
    st j = JobStatus.Failed \/ st j = JobStatus.WritebackFailed;
  ok_eligible :
    is_Some (job_next_eligible_at (schedule j)) ->
    st j <> JobStatus.Running /\ st j <> JobStatus.Cancelled /\ st j <> JobStatus.Interrupted;
  ok_lease :
    is_Some (lease (schedule j)) ->
    runner_active (runtime j) = true \/ JobStatus.is_terminal (st j) = true
}.

(** The files are those the job was submitted with, and the count of finished
    files never falls below the files that are finished. *)
Record files_counted j : Prop := {
  ok_files : files_ok j;
  ok_count : Z.of_nat (terminal_count (files j)) <= completed_files (execution j)
}.

Definition job_ok j : Prop := control_ok j /\ files_counted j.

Lemma control_ok_same j j' : same_control j j' -> control_ok j -> control_ok j'.
Proof.
  intros (Hst & He & Hs & Hr & _) [? ? ? ? ?].
  constructor; unfold is_cancelled; rewrite ?Hst, ?He, ?Hs, ?Hr; auto.
Qed.

Lemma active_not_terminal s :
  JobStatus.is_active s = true -> JobStatus.is_terminal s = false.
Proof. by destruct s. Qed.

(** An active job has no completion time, no error and no triggered token, and
    a lease only under a runner. *)
Lemma control_ok_active j :
  control_ok j -> JobStatus.is_active (st j) = true ->
  completed_at (schedule j) = None /\ error (execution j) = None /\ is_cancelled j = false /\
  (is_Some (lease (schedule j)) -> runner_active (runtime j) = true).
Proof.
  intros [K1 K2 K3 _ K5] Ha. pose proof (active_not_terminal _ Ha) as Hn. split_and!.
  - destruct (completed_at _); [|done]. rewrite (proj1 K1) in Hn by eauto. done.
  - destruct (error _); [|done]. destruct K3 as [K3|K3]; [eauto|by rewrite K3 in Ha..].
  - destruct (is_cancelled j); [|done]. rewrite K2 in Hn by done. done.
  - intros Hl. destruct (K5 Hl) as [|Ht]; [done|congruence].
Qed.

(** Triggering the token and stopping: the job was active and is stopped, or
    was terminal already. *)
Lemma trigger_stop_control_ok j kind at_ :
  control_ok j -> control_ok (stop (put_cancel_token j true) kind at_).1.
Proof.
  intros Hok. rewrite stop_applied. change (st (put_cancel_token j true)) with (st j).
  destruct (JobStatus.is_active (st j)) eqn:Ha.
  - destruct (control_ok_active _ Hok Ha) as (_ & He & _). destruct Hok.
    constructor; cbn; rewrite ?He; destruct kind; cbn; try done; eauto; by intros [].
  - destruct Hok. constructor; cbn; auto.
    intros _. rewrite active_xor_terminal. apply negb_true_iff, Ha.
Qed.

Lemma interrupt_control_ok j now :
  control_ok j -> control_ok (interrupt_for_shutdown j now).1.
Proof.
  intros Hok. pose proof (trigger_stop_control_ok j StopInterrupted now Hok) as Hs.
  unfold interrupt_for_shutdown. destruct (stop _ _ _) as [j' []]; [|done].
  destruct Hs. constructor; cbn; auto. by intros [].
Qed.

Lemma finalize_control_ok j s now : control_ok j -> control_ok (finalize j s now).1.
Proof.
  intros Hok. destruct (JobStatus.is_active (st j) && JobStatus.is_terminal s) eqn:Ha.
  - rewrite finalize_applied by done. apply andb_true_iff in Ha as [Ha Ht].
    destruct (control_ok_active _ Hok Ha) as (_ & He & _). destruct Hok.
    constructor; cbn; rewrite ?He; auto; try (by intros []).
    + split; eauto.
    + unfold JobStatus.eqb. case_bool_decide; [by left|by intros []].
  - rewrite finalize_declined by done. by destruct Hok; constructor.
Qed.

Lemma renew_control_ok j node now ttl :
  control_ok j -> control_ok (renew_local_dispatch_lease j node now ttl).1.
Proof.
  intros Hok. unfold renew_local_dispatch_lease. destruct (_ || _) eqn:Hr; [done|].
  destruct (lease (schedule j)); [|done]. destruct (String.eqb _ _); [|done].
  bool_to_prop. destruct Hok. constructor; cbn; auto.
Qed.

(** The status updates the program issues: the three of the staged remote
    orchestrator ([run_staged_remote_job] and [run_inner] of
    staging/orchestrator.rs). Every other operation is unconstrained. *)
Definition op_issued (op : JobOp) : Prop :=
  match op with
  | OpUpdateStatus s (Some _) _ => s = JobStatus.Failed \/ s = JobStatus.WritebackFailed
  | OpUpdateStatus s None _ => s = JobStatus.Completed
  | _ => True
  end.

Lemma op_control_ok op j : op_issued op -> control_ok j -> control_ok (op_job op j).
Proof.
  intros Hissued Hok. destruct (on_files op) eqn:Hf.
  { eapply control_ok_same; [by apply on_files_control|done]. }
  destruct op; try done; simpl.
  - pose proof (trigger_stop_control_ok j StopCancelled now Hok) as Hs.
    unfold request_cancellation. by destruct (stop _ _ _).
  - by destruct Hok.
  - rewrite prepare_for_restart_spec. destruct (selected_output_policy _ _); [|done].
    destruct (JobStatus.can_restart (st j)); [|done].
    constructor; cbn; try done; try (by intros []); by split; [intros []|].
  - unfold requeue_after_memory_gate, set_status.
    destruct (can_transition_to _ _ _) eqn:Hc; [|done]. cbn in Hc. bool_to_prop.
    destruct (control_ok_active _ Hok) as (_ & He & Ht & Hl); [done|]. destruct Hok.
    constructor; cbn; unfold is_cancelled in *; cbn; rewrite ?He, ?Ht; auto; try (by intros []).
    by split; [intros []|].
  - unfold mark_running, set_status.
    destruct (can_transition_to _ _ _) eqn:Hc; [|done]. cbn in Hc. bool_to_prop.
    destruct (control_ok_active _ Hok) as (Hca & He & Ht & Hl).
    { destruct (st j); try done. } destruct Hok.
    constructor; cbn; unfold is_cancelled in *; cbn; rewrite ?He, ?Ht, ?Hca;
      auto; try (by intros []). by split; [intros []|].
  - by destruct Hok.
  - unfold fail, set_status. destruct (can_transition_to _ _ _) eqn:Hc; [|done].
    destruct Hok. constructor; cbn; auto. by split; eauto.
  - destruct (negb _); [done|]. by apply finalize_control_ok.
  - destruct (runner_active (runtime j)); [done|]. destruct Hok; constructor; cbn; auto.
  - destruct Hok. constructor; cbn; auto. by intros [].
  - by apply renew_control_ok.
  - simpl in Hissued. destruct (_ && _) eqn:Ha; [|done]. apply andb_true_iff in Ha as [Ha Ht].
    destruct (control_ok_active _ Hok Ha) as (_ & He & Hcan & Hl). destruct Hok.
    destruct err; constructor; cbn; unfold is_cancelled in *; cbn; rewrite ?He, ?Hcan, ?Ht; auto;
      try (by intros []); try (by split; eauto).
    + intros _. by destruct Hissued as [-> | ->].
    + intros _. by rewrite Hissued.
  - by destruct Hok.
Qed.

Definition command_issued (c : Command) : Prop :=
  match c with OnJob _ op => op_issued op | _ => True end.

Lemma step_control_ok c id j j' :
  command_issued c -> job_step c id j j' -> control_ok j -> control_ok j'.
Proof.
  intros Hc Hs. destruct Hs; simpl in Hc; auto using op_control_ok, interrupt_control_ok.
Qed.

(** The files part of the invariant. *)
Lemma files_counted_same j j' :
  files j' = files j -> filesystem j' = filesystem j ->
  completed_files (execution j') = completed_files (execution j) ->
  files_counted j -> files_counted j'.
Proof.
  intros Hf Hs Hc [Hok Hn]. constructor; [|by rewrite Hf, Hc].
  unfold files_ok in *. by rewrite Hf, Hs.
Qed.

Lemma files_counted_recount j j' :
  files j' = files j -> filesystem j' = filesystem j ->
  completed_files (execution j') = Z.of_nat (terminal_count (files j)) ->
  files_counted j -> files_counted j'.
Proof.
  intros Hf Hs Hc [Hok Hn]. constructor; [|rewrite Hf, Hc; lia].
  unfold files_ok in *. by rewrite Hf, Hs.
Qed.

(** Writing one file back, with [k] more files counted as finished. *)
Lemma files_counted_write j j' name f f' k :
  files j !! name = Some f -> files j' = <[name := f']> (files j) ->
  filesystem j' = filesystem j -> filename f' = filename f ->
  completed_files (execution j') = completed_files (execution j) + k ->
  (if file_terminal f' then 1 else 0) <= (if file_terminal f then 1 else 0) + k ->
  files_counted j -> files_counted j'.
Proof.
  intros Hf Hw Hs Hname Hc Hk [Hok Hn]. constructor.
  - unfold files_ok in *. rewrite Hw, Hs. by eapply files_ok_insert.
  - rewrite Hw, Hc. pose proof (terminal_count_insert _ _ _ f' Hf).
    destruct (file_terminal f), (file_terminal f'); lia.
Qed.

Lemma update_file_counted j name g :
  (forall f, filename (g f) = filename f) ->
  (forall f, file_terminal (g f) = true -> file_terminal f = true) ->
  files_counted j -> files_counted (update_file j name g).1.
Proof.
  intros Hn Ht Hok. unfold update_file. destruct (files j !! name) as [f|] eqn:Hf; [|done].
  eapply (files_counted_write j _ name f (g f) 0); try done; [by rewrite Z.add_0_r|].
  specialize (Ht f). destruct (file_terminal (g f)); [rewrite Ht by done|]; destruct (file_terminal f); lia.
Qed.

Lemma on_files_counted op j :
  on_files op = true -> files_counted j -> files_counted (op_job op j).
Proof.
  destruct op; try done; intros _ Hok; simpl;
    try (apply update_file_counted; [done|by intros f|done]).
  - unfold mark_file_done. destruct (files j !! name) as [f|] eqn:Hf; [|done].
    destruct c; (eapply (files_counted_write j _ name f _ 1); try done; simpl;
      by destruct (file_terminal f)).
  - unfold mark_file_error. destruct (files j !! name) as [f|] eqn:Hf; [|done].
    eapply (files_counted_write j _ name f _ 1); try done; simpl. by destruct (file_terminal f).
  - apply update_file_counted; [|by intros f; destruct f as [? []]|done].
    by intros f; destruct f as [? []].
  - unfold set_file_progress. destruct (files j !! name) as [f|] eqn:Hf; [|done].
    destruct (file_terminal f) eqn:Ht; [done|].
    eapply (files_counted_write j _ name f _ 0); try done; [by rewrite Z.add_0_r|].
    unfold file_terminal, status in *. simpl. by rewrite Ht.
Qed.

Lemma stop_counted j kind at_ : files_counted j -> files_counted (stop j kind at_).1.
Proof.
  rewrite stop_applied. destruct (JobStatus.is_active (st j)); [|done].
  by apply files_counted_same.
Qed.

Lemma op_files_counted op j : files_counted j -> files_counted (op_job op j).
Proof.
  intros Hok. destruct (on_files op) eqn:Hf; [by apply on_files_counted|].
  destruct op; try done; simpl; try (revert Hok; by apply files_counted_same).
  - pose proof (stop_counted (put_cancel_token j true) StopCancelled now) as Hs.
    unfold request_cancellation. destruct (stop _ _ _); apply Hs.
    revert Hok; by apply files_counted_same.
  - rewrite prepare_for_restart_spec. destruct (selected_output_policy _ _); [|done].
    destruct (JobStatus.can_restart (st j)); [|done]. constructor; [|apply Z.le_refl].
    apply files_ok_fmap; [|apply Hok]. intros f. by destruct (file_wrote_output f).
  - unfold requeue_after_memory_gate, set_status.
    destruct (can_transition_to _ _ _); [|done]. revert Hok; by apply files_counted_same.
  - unfold mark_running, set_status.
    destruct (can_transition_to _ _ _); [|done]. revert Hok; by apply files_counted_same.
  - unfold fail, set_status.
    destruct (can_transition_to _ _ _); [|done]. revert Hok; by apply files_counted_same.
  - destruct (negb _); [done|]. revert Hok.
    destruct (JobStatus.is_active (st j) && JobStatus.is_terminal final_status) eqn:Ha;
      [rewrite finalize_applied by done|rewrite finalize_declined by done];
      by apply files_counted_recount.
  - destruct (runner_active (runtime j)); [done|]. revert Hok; by apply files_counted_same.
  - unfold renew_local_dispatch_lease. destruct (_ || _); [done|].
    destruct (lease (schedule j)); [|done]. destruct (String.eqb _ _); [|done].
    revert Hok; by apply files_counted_same.
  - destruct (_ && _); [|done]. revert Hok. unfold status_updated.
    destruct err; by apply files_counted_same.
Qed.

Lemma step_job_ok c id j j' : command_issued c -> job_step c id j j' -> job_ok j -> job_ok j'.
Proof.
  intros Hi Hstep [Hc Hf]. split; [by eapply step_control_ok|]. clear Hc.
  destruct Hstep; auto using op_files_counted.
  pose proof (stop_counted (put_cancel_token j true) StopInterrupted now) as Hs.
  unfold interrupt_for_shutdown. destruct (stop _ _ _) as [j' []]; simpl in *.
  - assert (files_counted j') as Hj' by (apply Hs; revert Hf; by apply files_counted_same).
    revert Hj'. by apply files_counted_same.
  - apply Hs. revert Hf; by apply files_counted_same.
Qed.

Lemma submitted_job_ok ctx d fs : job_ok (submitted_job ctx d fs).
Proof.
  split.
  - constructor; simpl; try done; try (by intros []).
  - constructor; [apply fresh_files_ok|]. simpl. unfold files; simpl.
    by rewrite terminal_count_fresh.
Qed.

(** A step never changes what a job is, only how far it got. *)
Definition same_work j j' : Prop :=
  identity j' = identity j /\ source j' = source j /\ dispatch j' = dispatch j /\
  filesystem j' = filesystem j.

Lemma stop_same_work j kind at_ : same_work j (stop j kind at_).1.
Proof. rewrite stop_applied. by destruct (JobStatus.is_active (st j)). Qed.

Lemma finalize_same_work j s now : same_work j (finalize j s now).1.
Proof.
  destruct (JobStatus.is_active (st j) && JobStatus.is_terminal s) eqn:Ha.
  - by rewrite finalize_applied.
  - by rewrite finalize_declined.
Qed.

Lemma op_same_work op j : same_work j (op_job op j).
Proof.
  destruct (on_files op) eqn:Hf.
  { destruct (on_files_control op j Hf) as (_ & _ & _ & _ & ? & ? & ? & ?). by split_and!. }
  destruct op; try done; simpl.
  - pose proof (stop_same_work (put_cancel_token j true) StopCancelled now) as Hs.
    unfold request_cancellation. by destruct (stop _ _ _).
  - rewrite prepare_for_restart_spec. destruct (selected_output_policy _ _); [|done].
    by destruct (JobStatus.can_restart (st j)).
  - unfold requeue_after_memory_gate, set_status. by destruct (can_transition_to _ _ _).
  - unfold mark_running, set_status. by destruct (can_transition_to _ _ _).
  - unfold fail, set_status. by destruct (can_transition_to _ _ _).
  - destruct (negb _); [done|]. apply finalize_same_work.
  - by destruct (runner_active (runtime j)).
  - unfold renew_local_dispatch_lease. destruct (_ || _); [done|].
    destruct (lease (schedule j)); [|done]. by destruct (String.eqb _ _).
  - destruct (_ && _); [|done]. unfold status_updated. by destruct err.
Qed.

Lemma step_same_work c id j j' : job_step c id j j' -> same_work j j'.
Proof.
  destruct 1; try done; [apply op_same_work|].
  pose proof (stop_same_work (put_cancel_token j true) StopInterrupted now) as Hs.
  unfold interrupt_for_shutdown. by destruct (stop _ _ _) as [? []].
Qed.

(** ** Histories *)

(** The reason of a command that may change a status. *)
Definition command_reason (c : Command) : option StatusChange.t :=
  match c with
  | OnJob _ op => op_reason op
  | InterruptAll _ => Some StatusChange.Interrupt
  | _ => None
  end.

Lemma step_status_allowed c id j j' :
  job_step c id j j' ->
  st j' = st j \/
  exists r, command_reason c = Some r /\ can_transition_to (st j) (st j') r = true.
Proof.
  destruct 1; auto; [apply op_status_allowed|].
  destruct (stop_status_allowed (put_cancel_token j true) StopInterrupted now) as [Hs|Hs];
    unfold interrupt_for_shutdown; destruct (stop _ _ _) as [? []]; simpl in *; eauto.
Qed.

(** The commands that bring in no job [id]: no submission under it and no
    stored row of it. *)
Definition not_inserted (id : string) (c : Command) : bool :=
  match c with
  | InsertJob job => negb (String.eqb (job_id (identity job)) id)
  | LoadJobs _ rows => forallb (fun row => negb (String.eqb (row_job_id row) id)) rows
  | _ => true
  end.

(** Those that do not restart it either. *)
Definition leaves_alone (id : string) (c : Command) : bool :=
  match c with
  | OnJob id' OpRestart => negb (String.eqb id' id)
  | c => not_inserted id c
  end.

Lemma leaves_alone_not_inserted id c : leaves_alone id c = true -> not_inserted id c = true.
Proof. by destruct c as [? []| | | |]. Qed.

(** Under a command that inserts no job [id], [id] holds the same job moved
    by one step, or no job. *)
Lemma exec_kept jobs c id j' :
  not_inserted id c = true -> exec jobs c !! id = Some j' ->
  exists j, jobs !! id = Some j /\ job_step c id j j'.
Proof.
  intros Hn [Hs|[(-> & -> & _)|(cutoff & rows & row & -> & Hin & <- & _)]]%exec_lookup_inv;
    [done|..]; simpl in Hn.
  - by rewrite String.eqb_refl in Hn.
  - rewrite forallb_forall in Hn. apply list_elem_of_In, Hn in Hin.
    by rewrite String.eqb_refl in Hin.
Qed.

(** What every admitted step preserves holds after any history of admitted
    commands. *)
Lemma history_inv (P : Job -> Prop) (admitted : Command -> bool) jobs id cs j' :
  (forall c, admitted c = true -> not_inserted id c = true) ->
  (forall c j j', admitted c = true -> job_step c id j j' -> P j -> P j') ->
  (forall j, jobs !! id = Some j -> P j) ->
  Forall (fun c => admitted c = true) cs ->
  foldl exec jobs cs !! id = Some j' -> P j'.
Proof.
  intros Hins Hstep Hinit. revert j'.
  induction cs as [|c cs IH] using rev_ind; intros j' Hall Hj'; [by apply Hinit|].
  apply Forall_app in Hall as [Hall Hc]. apply Forall_cons_iff in Hc as [Hc _].
  rewrite foldl_snoc in Hj'.
  destruct (exec_kept _ _ _ _ (Hins _ Hc) Hj') as (j & Hj & Hs). eauto.
Qed.

(** A terminal status is left by a restart alone. *)
Lemma step_terminal_kept c id j j' :
  job_step c id j j' -> leaves_alone id c = true -> JobStatus.is_terminal (st j) = true ->
  st j' = st j.
Proof.
  intros Hstep Hl Ht. destruct (step_status_allowed _ _ _ _ Hstep) as [|(r & Hr & Hc)]; [done|].
  destruct (leaves_terminal _ _ _ Ht Hc) as [(-> & _)|(-> & _)].
  - inversion Hstep; subst; simplify_eq/=; try done.
    destruct op; simplify_eq/=. by rewrite String.eqb_refl in Hl.
  - destruct c as [? []| | | |]; discriminate Hr.
Qed.

(** *** The runner's claim *)

(** The commands that end the claim of the runner on [id], or replace the
    job. *)
Definition keeps_runner (id : string) (c : Command) : bool :=
  match c with
  | OnJob id' OpReleaseRunner => negb (String.eqb id' id)
  | InterruptAll _ => false
  | c => not_inserted id c
  end.

Lemma keeps_runner_not_inserted id c : keeps_runner id c = true -> not_inserted id c = true.
Proof. by destruct c as [? []| | | |]. Qed.

Lemma finalize_runtime j s now : runtime (finalize j s now).1 = runtime j.
Proof.
  destruct (JobStatus.is_active (st j) && JobStatus.is_terminal s) eqn:Ha.
  - by rewrite finalize_applied.
  - by rewrite finalize_declined.
Qed.

Lemma stop_runtime j kind at_ : runtime (stop j kind at_).1 = runtime j.
Proof. rewrite stop_applied. by destruct (JobStatus.is_active (st j)). Qed.

(** What each command does to the runner's claim and the run generation. *)
Lemma op_runner_generation op j :
  runner_active (runtime (op_job op j)) =
    match op with
    | OpReleaseRunner => false
    | OpBeginRunner _ _ _ => true
    | _ => runner_active (runtime j)
    end /\
  run_generation (runtime (op_job op j)) =
    match op with
    | OpRestart =>
        if is_ok (prepare_for_restart j) then generation_next (run_generation (runtime j))
        else run_generation (runtime j)
    | _ => run_generation (runtime j)
    end.
Proof.
  destruct (on_files op) eqn:Hf.
  { destruct (on_files_control op j Hf) as (_ & _ & _ & -> & _). by destruct op. }
  destruct op; try done; simpl.
  - pose proof (stop_runtime (put_cancel_token j true) StopCancelled now) as Hs.
    unfold request_cancellation. destruct (stop _ _ _); simpl in *. by rewrite Hs.
  - rewrite prepare_for_restart_spec. destruct (selected_output_policy _ _); [|done].
    by destruct (JobStatus.can_restart (st j)).
  - unfold requeue_after_memory_gate, set_status. by destruct (can_transition_to _ _ _).
  - unfold mark_running, set_status. by destruct (can_transition_to _ _ _).
  - unfold fail, set_status. by destruct (can_transition_to _ _ _).
  - destruct (negb _); [done|]. by rewrite finalize_runtime.
  - by destruct (runner_active (runtime j)) eqn:Hr.
  - unfold renew_local_dispatch_lease. destruct (_ || _); [done|].
    destruct (lease (schedule j)); [|done]. by destruct (String.eqb _ _).
  - destruct (_ && _); [|done]. unfold status_updated. by destruct err.
Qed.

Lemma step_keeps_runner c id j j' :
  keeps_runner id c = true -> job_step c id j j' ->
  runner_active (runtime j) = true -> runner_active (runtime j') = true.
Proof.
  intros Hk Hs Hr. destruct Hs as [c id j|id op j|now id j]; try done.
  rewrite (proj1 (op_runner_generation op j)). destruct op; try done. simpl in Hk.
  by rewrite String.eqb_refl in Hk.
Qed.

Lemma step_generation c id j j' :
  job_step c id j j' ->
  run_generation (runtime j') = run_generation (runtime j) \/
  (c = OnJob id OpRestart /\
   run_generation (runtime j') = generation_next (run_generation (runtime j))).
Proof.
  destruct 1 as [c id j|id op j|now id j]; auto.
  - rewrite (proj2 (op_runner_generation op j)). destruct op; auto.
    destruct (is_ok _); auto.
  - left. pose proof (stop_runtime (put_cancel_token j true) StopInterrupted now) as Hs.
    unfold interrupt_for_shutdown. destruct (stop _ _ _) as [? []]; simpl in *; by rewrite Hs.
Qed.

(** *** Shared files *)

(** No two active jobs hold the same file of the same submitter. *)
Definition no_shared_files jobs : Prop :=
  forall id1 id2 j1 j2 n1 n2,
    jobs !! id1 = Some j1 -> jobs !! id2 = Some j2 -> id1 <> id2 ->
    JobStatus.is_active (st j1) = true -> JobStatus.is_active (st j2) = true ->
    n1 ∈ filenames (filesystem j1) -> n2 ∈ filenames (filesystem j2) ->
    conflict_key j1 n1 <> conflict_key j2 n2.

(** The commands that make a job active without the check of submission: a
    restart, and the startup load. *)
Definition bypasses_admission (c : Command) : bool :=
  match c with OnJob _ OpRestart | LoadJobs _ _ => true | _ => false end.

Lemma step_active_before c id j j' :
  bypasses_admission c = false -> job_step c id j j' -> JobStatus.is_active (st j') = true ->
  JobStatus.is_active (st j) = true.
Proof.
  intros Hr Hs Ha. destruct (JobStatus.is_active (st j)) eqn:Hj; [done|].
  assert (JobStatus.is_terminal (st j) = true) as Ht by (by rewrite active_xor_terminal, Hj).
  destruct (step_status_allowed _ _ _ _ Hs) as [Heq|(r & Hcr & Hc)]; [congruence|].
  destruct (leaves_terminal _ _ _ Ht Hc) as [(-> & _)|(-> & _)].
  - destruct c as [? []| | | |]; done.
  - destruct c as [? []| | | |]; discriminate Hcr.
Qed.

Lemma same_work_key j j' name : same_work j j' -> conflict_key j' name = conflict_key j name.
Proof. intros (_ & Hs & _ & _). unfold conflict_key. by rewrite Hs. Qed.

Lemma exec_no_shared_files jobs c :
  bypasses_admission c = false -> no_shared_files jobs -> no_shared_files (exec jobs c).
Proof.
  intros Hr Hno id1 id2 j1 j2 n1 n2 Hj1 Hj2 Hne Ha1 Ha2 Hn1 Hn2.
  assert (forall id j, exec jobs c !! id = Some j ->
    (exists k, jobs !! id = Some k /\ job_step c id k j) \/
    (c = InsertJob j /\ id = job_id (identity j) /\ find_conflicts jobs j = [])) as Hinv.
  { intros id j [?|[?|(? & ? & ? & -> & _)]]%exec_lookup_inv; [by left|by right|done]. }
  destruct (Hinv _ _ Hj1) as [(k1 & Hk1 & Hs1)|(Hc1 & Hi1 & Hf1)];
  destruct (Hinv _ _ Hj2) as [(k2 & Hk2 & Hs2)|(Hc2 & Hi2 & Hf2)].
  - pose proof (step_same_work _ _ _ _ Hs1) as Hw1. pose proof (step_same_work _ _ _ _ Hs2) as Hw2.
    rewrite (same_work_key _ _ _ Hw1), (same_work_key _ _ _ Hw2).
    destruct Hw1 as (_ & _ & _ & Hw1), Hw2 as (_ & _ & _ & Hw2).
    rewrite Hw1 in Hn1. rewrite Hw2 in Hn2.
    eapply (Hno id1 id2 k1 k2); eauto using step_active_before.
  - subst. inversion Hs1; subst. by eapply find_conflicts_nil.
  - subst. inversion Hs2; subst. apply not_eq_sym. by eapply find_conflicts_nil.
  - congruence.
Qed.

End facts.
