(* ===== verification/StartupFacts.v ===== *)
(** * The registry invariant across a restart of the server

    [startup_row] is what the startup load may rely on of a stored row: the row
    is the image of a job, after [recover_interrupted] of db/recovery.rs moved
    the queued and running rows through [JobStatusColumns::stopped]
    ([stopped_image_is_startup_row]). A job loaded from such a row satisfies
    the invariant of [RegistryFacts.v] ([loaded_job_ok]). *)

From S2P Require Import Prelude Status Scheduling FilePhase Job JobFacts Recovery RecoveryFacts Registry RegistryFacts.
From stdpp Require Import base decidable option list gmap strings numbers.

Open Scope Z_scope.

Section startup.
Context `{Payload} `{Catalog} `{!StoredText}.
Implicit Types (row : JobRow) (j : Job).

(** The row has a file row for each listed file and no other; it names an
    ended job, with its time; an error only on a job that failed, or whose
    write-back did; no retry time on a cancelled one. A status this build
    cannot read is loaded as [Failed] and needs nothing more. *)
Record startup_row row : Prop := {
  sr_files : forall name,
    name ∈ row_filenames row <-> name ∈ map fr_filename (row_file_statuses row);
  sr_completed : is_Some (row_completed_at row);
  sr_status : forall s, JobStatus.from_str (row_status row) = Ok s ->
    JobStatus.is_terminal s = true /\
    (is_Some (row_error row) -> s = JobStatus.Failed \/ s = JobStatus.WritebackFailed) /\
    (is_Some (row_next_eligible_at row) -> s <> JobStatus.Cancelled)
}.

(** The status columns of a stored row, as [JobStatusColumns::read_stored]
    reads them. *)
Definition row_columns row (s : JobStatus.t) : JobStatusColumns :=
  {| sc_status := s; sc_error := row_error row; sc_completed_at := row_completed_at row;
     sc_num_workers := row_num_workers row; sc_next_eligible_at := row_next_eligible_at row |}.

(** The columns of a job, stopped when it was active, describe a startup row. *)
Lemma stopped_image_is_startup_row row j now :
  job_ok j ->
  row_status row = JobStatus.to_string
    (if JobStatus.is_active (st j) then JobStatus.Interrupted else st j) ->
  row_columns row (if JobStatus.is_active (st j) then JobStatus.Interrupted else st j) =
    (if JobStatus.is_active (st j) then stopped (status_columns j) StopInterrupted now
     else status_columns j) ->
  row_filenames row = filenames (filesystem j) ->
  (forall name, name ∈ map fr_filename (row_file_statuses row) <-> name ∈ dom (files j)) ->
  startup_row row.
Proof.
  intros [Hc Hf] Hst Hcols Hnames Hrows. destruct Hf as [[Hdom _] _].
  assert (forall name, name ∈ row_filenames row <->
    name ∈ map fr_filename (row_file_statuses row)) as Hfiles.
  { intros name. rewrite Hrows, Hdom, Hnames. by rewrite elem_of_list_to_set. }
  destruct (JobStatus.is_active (st j)) eqn:Ha; unfold row_columns, status_columns in Hcols;
    simpl in Hcols; injection Hcols as Her Hco _ Hel.
  - destruct (control_ok_active _ Hc Ha) as (_ & He & _).
    constructor; [done|rewrite Hco; eauto|].
    intros s. rewrite Hst. cbn. intros [= <-]. rewrite Her, He, Hel.
    split_and!; try done; by intros [].
  - destruct Hc as [K1 _ K3 K4 _].
    assert (JobStatus.is_terminal (st j) = true) as Ht by (by rewrite active_xor_terminal, Ha).
    constructor; [done|rewrite Hco; by apply K1|].
    intros s. rewrite Hst, from_str_to_string_job. intros [= <-]. rewrite Her, Hel.
    split_and!; [done|done|]. by intros [_ [? _]]%K4.
Qed.

Lemma row_status_cases row admission status note :
  startup_row row -> admitted_status row admission = (status, note) ->
  JobStatus.is_terminal status = true /\
  (is_Some (match note with
            | Some note => append_recovery_note (row_error row) note
            | None => row_error row
            end) -> status = JobStatus.Failed \/ status = JobStatus.WritebackFailed) /\
  (is_Some (row_next_eligible_at row) -> status <> JobStatus.Cancelled).
Proof.
  intros [_ _ Hs]. unfold admitted_status, recover_job_status.
  destruct admission; [destruct (JobStatus.from_str (row_status row)) as [s|] eqn:Hr|];
    intros [= <- <-]; [by apply Hs|..]; (split_and!; [done|by left|done]).
Qed.

(** Reconciliation keeps the invariant of a job that was interrupted without
    an error. *)
Lemma reconcile_job_ok j :
  st j = JobStatus.Interrupted -> is_Some (completed_at (schedule j)) ->
  error (execution j) = None -> is_cancelled j = false -> files_counted j ->
  job_ok (reconcile_recovered_runtime_state j).1.
Proof.
  intros Hst Hco He Hcan [Hok Hn]. rewrite reconcile_spec by (by rewrite Hst).
  assert (Z.of_nat (terminal_count (files j)) <= Z.of_nat (total_files j)) as Htotal.
  { apply inj_le. etrans; [apply count_if_le_length|]. rewrite length_map_values, <- size_dom.
    destruct Hok as [-> _]. apply size_list_to_set_le. }
  unfold is_cancelled in Hcan.
  destruct (existsb _ _); [|destruct (forallb _ _)]; simpl.
  - split; constructor; cbn; unfold is_cancelled; cbn; rewrite ?Hcan; try done; try (by intros []).
    + apply files_ok_fmap; [|done]. intros f. by destruct (file_resumable f).
    + etrans; [|apply Hn]. apply inj_le. unfold terminal_count.
      unfold files; cbn. rewrite map_values_fmap, count_if_fmap.
      apply count_if_le. intros f _. unfold file_resumable.
      destruct (FileStatusKind.is_resumable (status f)) eqn:Hr; [done|by auto].
  - split; constructor; cbn; unfold is_cancelled; cbn; rewrite ?Hcan; auto; try (by intros []); by split.
  - split; constructor; cbn; unfold is_cancelled; cbn; rewrite ?Hcan, ?He; auto; try (by intros []); by split.
Qed.

Lemma loaded_job_ok ttl_cutoff row j :
  startup_row row -> row_job ttl_cutoff row = Some j ->
  job_id (identity j) = row_job_id row /\ job_ok j.
Proof.
  intros Hrow Hj. split; [by eapply row_job_identity|]. revert Hj. unfold row_job.
  destruct (_ <? _); [done|]. destruct (released_command _) as [command|]; [|done].
  destruct (admitted_status _ _) as [status note] eqn:Hst.
  destruct (load_files _ _ _ _ _ _) as [files|] eqn:Hfiles; [|done]. intros [= <-].
  destruct (row_status_cases _ _ _ _ Hrow Hst) as (Ht & Herr & Hel).
  apply load_files_names in Hfiles as [Hdom Hall]; [|by apply map_Forall_empty].
  assert (files_counted (job_of_row row command status note files)) as Hcount.
  { constructor; [|apply Z.le_refl]. split; [|done]. unfold Job.files; cbn. rewrite Hdom.
    cbn [lf_files]. rewrite dom_empty_L, (left_id_L ∅ (∪)).
    apply set_eq. intros name. rewrite !elem_of_list_to_set. symmetry. apply Hrow. }
  assert (is_Some (row_completed_at row)) as Hco by apply Hrow.
  destruct (JobStatus.is_recoverable status) eqn:Hr.
  - assert (status = JobStatus.Interrupted) as -> by (by destruct status).
    apply reconcile_job_ok; try done. cbn.
    match goal with |- ?e = None => destruct e eqn:He; [|done] end.
    destruct Herr as [|]; [eauto|done..].
  - split; [|done]. constructor; cbn; auto; try done.
    intros Hn. specialize (Hel Hn). by destruct status.
Qed.

End startup.
