(* ===== verification/RegistryTheorems.v ===== *)
(** * Properties of the histories of the registry

    Each theorem speaks of an arbitrary sequence of commands, the only input
    the registry's actor has, startup loads included: the job invariant, the
    finality of a terminal status, runner exclusivity, the run generation,
    conflict-free admission and shutdown. The lemmas are in [RegistryFacts.v],
    [StartupFacts.v] and [JobFacts.v]. *)

From S2P Require Import Prelude Status Scheduling FilePhase Job JobFacts Recovery RecoveryFacts Registry RegistryFacts StartupFacts.
From stdpp Require Import base decidable option list gmap strings numbers sorting.

Open Scope Z_scope.

Section properties.
Context `{Payload} `{Catalog} `{TimestampRange} `{!StoredText}.
Implicit Types (j : Job) (jobs : gmap string Job) (op : JobOp) (cs : list Command).

(** What the program sends the registry: the jobs submission builds, the rows
    a startup reads back, the status updates of the staged remote
    orchestrator; the other commands with any arguments. *)
Definition program_command (c : Command) : Prop :=
  command_issued c /\
  match c with
  | InsertJob job => exists ctx d fs, job = submitted_job ctx d fs
  | LoadJobs _ rows => Forall startup_row rows
  | _ => True
  end.

Definition registry_ok jobs : Prop :=
  map_Forall (fun id j => job_id (identity j) = id /\ job_ok j) jobs.

Lemma exec_registry_ok jobs c :
  registry_ok jobs -> program_command c -> registry_ok (exec jobs c).
Proof.
  intros Hok [Hi Hc] id j'.
  intros [(j & Hj & Hstep)|[(-> & -> & _)|(cutoff & rows & row & -> & Hin & <- & Hrow)]]%exec_lookup_inv.
  - destruct (Hok id j Hj) as [Hid Hj']. split; [|by eapply step_job_ok].
    by destruct (step_same_work _ _ _ _ Hstep) as [-> _].
  - destruct Hc as (ctx & d & fs & ->). split; [done|apply submitted_job_ok].
  - eapply loaded_job_ok; [|done]. rewrite Forall_forall in Hc. by apply Hc.
Qed.

(** C2: in every reachable registry, after any sequence of the actor's
    commands, startup loads and remote status updates included, each job is
    stored under its own id, and its fields agree: a completion time exactly on
    a terminal status, a triggered cancellation token only on a terminal one,
    an error only on a failed job or one whose write-back failed, no retry time
    on a running, cancelled or interrupted job, a lease on an active job only
    while a runner is claimed, exactly the submitted files, and a count of
    finished files that never falls below the files that are finished. *)
Theorem reachable_registry_ok cs :
  Forall program_command cs -> registry_ok (run_registry cs).
Proof.
  unfold run_registry. induction cs as [|c cs IH] using rev_ind; [done|].
  intros [Hcs Hc]%Forall_app. rewrite foldl_snoc. apply Forall_cons_iff in Hc as [Hc _].
  by apply exec_registry_ok; [apply IH|].
Qed.

(** C11: a job's status changes only as the status machine allows for the
    reason of the command that ran. *)
Theorem status_moves_only_through_the_machine jobs c id j j' :
  jobs !! id = Some j -> exec jobs c !! id = Some j' -> not_inserted id c = true ->
  st j' = st j \/
  exists r, command_reason c = Some r /\ can_transition_to (st j) (st j') r = true.
Proof.
  intros Hj Hj' Hn. destruct (exec_kept _ _ _ _ Hn Hj') as (j0 & Hj0 & Hstep).
  simplify_eq. by eapply step_status_allowed.
Qed.

(** C5: a terminal status is final: whatever commands follow (cancellation,
    late finalizations, failures, requeues, dispatches, shutdown), a job that
    ended keeps its status until it is restarted. *)
Theorem terminal_status_is_final_until_restart jobs cs id j j' :
  jobs !! id = Some j -> JobStatus.is_terminal (st j) = true ->
  Forall (fun c => leaves_alone id c = true) cs ->
  foldl exec jobs cs !! id = Some j' -> st j' = st j.
Proof.
  intros Hj Ht. apply (history_inv (fun j' => st j' = st j) (leaves_alone id)).
  - apply leaves_alone_not_inserted.
  - intros c j1 j2 Hc Hstep Heq. rewrite <- Heq. eapply step_terminal_kept; [done..|].
    by rewrite Heq.
  - by intros; simplify_eq.
Qed.

(** *** Runners *)

Definition claimed node now ttl j : Job :=
  put_lease (put_runner_active j true) (Some (lease_taken node now ttl)).

Lemma claim_one_fst node now ttl jobs acc id :
  (claim_one node now ttl (jobs, acc) id).1 =
  alter (fun j => if ready_for_local_dispatch j now then claimed node now ttl j else j) id jobs.
Proof.
  transitivity (update_job jobs id (fun j => claim_for_local_dispatch j node now ttl)).1.
  - unfold claim_one. by destruct (update_job _ _ _) as [? [[]|]].
  - rewrite update_job_fst. apply alter_ext. intros j _. unfold claim_for_local_dispatch.
    by destruct (ready_for_local_dispatch j now).
Qed.

Lemma claim_fold_leases node now ttl ids jobs acc id l :
  (id, l) ∈ (foldl (claim_one node now ttl) (jobs, acc) ids).2 ->
  (id, l) ∈ acc \/
  (id ∈ ids /\ l = lease_taken node now ttl /\
   exists j, jobs !! id = Some j /\ ready_for_local_dispatch j now = true).
Proof.
  revert jobs acc. induction ids as [|x ids IH]; intros jobs acc; cbn [foldl]; [by left|].
  pose proof (claim_one_fst node now ttl jobs acc x) as Hfst.
  assert (forall e, e ∈ (claim_one node now ttl (jobs, acc) x).2 -> e ∈ acc \/
    (e = (x, lease_taken node now ttl) /\
     exists j, jobs !! x = Some j /\ ready_for_local_dispatch j now = true)) as Hsnd.
  { intros e. unfold claim_one, update_job, claim_for_local_dispatch.
    destruct (jobs !! x) as [j|]; simpl; [|by left].
    destruct (ready_for_local_dispatch j now) eqn:Hr; simpl; [|by left].
    intros [?| ->%list_elem_of_singleton]%elem_of_app; [by left|]. right. split; eauto. }
  destruct (claim_one _ _ _ _ _) as [jobs' acc']; simpl in Hfst, Hsnd; subst jobs'.
  intros [Hin|(Hin & -> & j & Hj & Hr)]%IH.
  - apply Hsnd in Hin as [?|([= -> ->] & j & Hj & Hr)]; [by left|].
    right. split_and!; [set_solver|done|eauto].
  - right. destruct (decide (x = id)) as [->|Hne].
    + rewrite lookup_alter_eq, fmap_Some in Hj. destruct Hj as (j0 & Hj0 & ->).
      split_and!; [set_solver|done|]. exists j0. split; [done|].
      destruct (ready_for_local_dispatch j0 now) eqn:E; [done|congruence].
    + rewrite lookup_alter_ne in Hj by done. split_and!; [set_solver|done|eauto].
Qed.

Lemma claimed_leases_ready jobs now node ttl id l :
  (id, l) ∈ claimed_leases (claim_ready_queued_jobs jobs now node ttl).2 ->
  exists j, jobs !! id = Some j /\ ready_for_local_dispatch j now = true.
Proof.
  intros Hin. assert ((id, l) ∈
    (foldl (claim_one node now ttl) (jobs, [])
       (map snd (merge_sort older
          (map (fun j => (submitted_at (schedule j), job_id (identity j)))
             (List.filter (fun j => ready_for_local_dispatch j now) (map_values jobs)))))).2) as Hin'.
  { unfold claim_ready_queued_jobs in Hin. by destruct (foldl _ _ _). }
  apply claim_fold_leases in Hin' as [?%not_elem_of_nil|(_ & _ & ?)]; done.
Qed.

(** C6: one runner per job: once a runner holds a job, every later attempt to
    start another one is answered [RunnerStillLive] and every later readiness
    poll (the poll is compiled for tests alone) leaves the job out, through any
    commands (cancellation, restart and status updates included) until the
    runner releases it, the server shuts down, or the job is replaced. *)
Theorem runner_is_exclusive_until_released jobs cs id j j' node now ttl :
  jobs !! id = Some j -> runner_active (runtime j) = true ->
  Forall (fun c => keeps_runner id c = true) cs ->
  foldl exec jobs cs !! id = Some j' ->
  (begin_runner (foldl exec jobs cs) id node now ttl).2 = Some RunnerStillLive /\
  (forall l, (id, l) ∉ claimed_leases
     (claim_ready_queued_jobs (foldl exec jobs cs) now node ttl).2).
Proof.
  intros Hj Hr Hall Hj'.
  assert (runner_active (runtime j') = true) as Hr'.
  { revert Hall Hj'.
    apply (history_inv (fun j => runner_active (runtime j) = true) (keeps_runner id)).
    - apply keeps_runner_not_inserted.
    - intros c j1 j2. apply step_keeps_runner.
    - by intros; simplify_eq. }
  split.
  - unfold begin_runner, update_job. rewrite Hj'. by rewrite Hr'.
  - intros l (k & Hk & Hready)%claimed_leases_ready. simplify_eq.
    unfold ready_for_local_dispatch in Hready. rewrite Hr' in Hready.
    by rewrite andb_false_r in Hready.
Qed.

(** Whether the command is a restart of [id] that is accepted. *)
Definition restart_accepted (id : string) jobs (c : Command) : bool :=
  match c with
  | OnJob id' OpRestart =>
      String.eqb id' id &&
      match jobs !! id with Some j => is_ok (prepare_for_restart j) | None => false end
  | _ => false
  end.

Fixpoint accepted_restarts (id : string) jobs cs : Z :=
  match cs with
  | [] => 0
  | c :: cs =>
      (if restart_accepted id jobs c then 1 else 0) + accepted_restarts id (exec jobs c) cs
  end.

Lemma accepted_restarts_snoc id jobs cs c :
  accepted_restarts id jobs (cs ++ [c]) =
  accepted_restarts id jobs cs +
  (if restart_accepted id (foldl exec jobs cs) c then 1 else 0).
Proof. revert jobs. induction cs as [|d cs IH]; intros jobs; simpl; [lia|]. rewrite IH. lia. Qed.

Lemma step_generation_counts c id j j' jobs :
  jobs !! id = Some j -> exec jobs c !! id = Some j' -> not_inserted id c = true ->
  run_generation (runtime j') =
  if restart_accepted id jobs c then generation_next (run_generation (runtime j))
  else run_generation (runtime j).
Proof.
  intros Hj Hj' Hn. destruct (exec_kept _ _ _ _ Hn Hj') as (k & Hk & Hs). simplify_eq.
  destruct c as [id' op| | | |]; simpl;
    try (by destruct (step_generation _ _ _ _ Hs) as [?|[? _]]).
  destruct (decide (id' = id)) as [->|Hne].
  - simpl in Hj'. rewrite exec_op_alter, lookup_alter_eq, Hj in Hj'. simplify_eq/=.
    rewrite (proj2 (op_runner_generation op j)). destruct op; try done.
    by rewrite String.eqb_refl, Hj.
  - destruct (step_generation _ _ _ _ Hs) as [->|[? _]]; [|congruence].
    destruct op; try done. by destruct (String.eqb_spec id' id).
Qed.

Lemma generation_counts_restarts jobs cs id j j' :
  jobs !! id = Some j -> 0 <= run_generation (runtime j) < 2 ^ 64 ->
  Forall (fun c => not_inserted id c = true) cs ->
  foldl exec jobs cs !! id = Some j' ->
  run_generation (runtime j') =
  (run_generation (runtime j) + accepted_restarts id jobs cs) mod 2 ^ 64.
Proof.
  intros Hj Hg. revert j'. induction cs as [|c cs IH] using rev_ind; intros j' Hall Hj'.
  - simplify_eq/=. rewrite Z.add_0_r. symmetry. by apply Z.mod_small.
  - apply Forall_app in Hall as [Hall Hc]. apply Forall_cons_iff in Hc as [Hc _].
    rewrite foldl_snoc in Hj'. destruct (exec_kept _ _ _ _ Hc Hj') as (k & Hk & _).
    rewrite accepted_restarts_snoc, (step_generation_counts _ _ _ _ _ Hk Hj' Hc), (IH k Hall Hk).
    destruct (restart_accepted _ _ _); [|by rewrite Z.add_0_r].
    unfold generation_next. rewrite Zplus_mod_idemp_l. by rewrite <- Z.add_assoc.
Qed.

(** C7: a run that was superseded cannot finalize the job: after at least one
    accepted restart (and fewer than 2^64 of them) the finalization a runner
    of the earlier run sends is refused and leaves the whole registry as it
    was. *)
Theorem superseded_run_cannot_finalize jobs cs id j j' final_status now :
  jobs !! id = Some j -> 0 <= run_generation (runtime j) < 2 ^ 64 ->
  Forall (fun c => not_inserted id c = true) cs ->
  foldl exec jobs cs !! id = Some j' ->
  0 < accepted_restarts id jobs cs < 2 ^ 64 ->
  finalize_job (foldl exec jobs cs) id (run_generation (runtime j)) final_status now =
    (foldl exec jobs cs, None) /\
  runner_generation_current (foldl exec jobs cs) id (run_generation (runtime j)) = false.
Proof.
  intros Hj Hg Hall Hj' Hn.
  assert (run_generation (runtime j') <> run_generation (runtime j)) as Hne.
  { rewrite (generation_counts_restarts _ _ _ _ _ Hj Hg Hall Hj'). intros Heq.
    set (g := run_generation (runtime j)) in *. set (n := accepted_restarts id jobs cs) in *.
    pose proof (Z.div_mod (g + n) (2 ^ 64) ltac:(lia)).
    assert (2 ^ 64 * ((g + n) / 2 ^ 64) = n) by lia.
    assert (0 < (g + n) / 2 ^ 64 < 1); [nia|lia]. }
  apply Z.eqb_neq in Hne. split.
  - unfold finalize_job, update_job. rewrite Hj', Hne. simpl.
    by rewrite (insert_id _ _ _ Hj').
  - unfold runner_generation_current, project_job. by rewrite Hj'.
Qed.

(** *** Admission *)

(** C23: submission is admitted exactly when no file of it shares its key
    (submitter's address and path) with a file of an active job. A refused
    submission leaves the registry as it was, and it names exactly the genuine
    conflicts: an entry for each file of an active job whose key a submitted
    file shares, with that job's id, command and status, and no other entry. *)
Theorem admission_is_exact jobs job :
  ((insert_checked jobs job).2 = Ok tt <->
   forall id active name name',
     jobs !! id = Some active -> JobStatus.is_active (st active) = true ->
     name ∈ filenames (filesystem active) -> name' ∈ filenames (filesystem job) ->
     conflict_key active name <> conflict_key job name') /\
  (insert_checked jobs job).1 =
    (if is_ok (insert_checked jobs job).2 then <[job_id (identity job) := job]> jobs else jobs) /\
  (forall err, (insert_checked jobs job).2 = Err err ->
   exists conflicts,
     err = JobConflict (AlreadyProcessed (map conflict_filename conflicts)) conflicts /\
     conflicts <> [] /\
     forall e, e ∈ conflicts <->
       exists id active name name',
         jobs !! id = Some active /\ JobStatus.is_active (st active) = true /\
         name ∈ filenames (filesystem active) /\ name' ∈ filenames (filesystem job) /\
         conflict_key active name = conflict_key job name' /\
         e = mkConflict name (job_id (identity active)) (command (dispatch active)) (st active)).
Proof.
  unfold insert_checked. split_and!.
  - rewrite <- find_conflicts_nil. by destruct (find_conflicts jobs job).
  - by destruct (find_conflicts jobs job).
  - intros err Heq. exists (find_conflicts jobs job).
    destruct (find_conflicts jobs job) as [|c l] eqn:Hl; simplify_eq/=.
    split_and!; [done..|]. rewrite <- Hl. apply elem_of_find_conflicts.
Qed.

(** C10: as long as no job is restarted and no stored jobs are loaded, no two
    active jobs ever hold the same file of the same submitter: from the empty
    registry, and from any registry that starts so, such as one just loaded. *)
Theorem active_jobs_never_share_a_file cs :
  Forall (fun c => bypasses_admission c = false) cs ->
  no_shared_files (run_registry cs) /\
  forall jobs, no_shared_files jobs -> no_shared_files (foldl exec jobs cs).
Proof.
  intros Hcs. assert (forall jobs, no_shared_files jobs -> no_shared_files (foldl exec jobs cs))
    as Hfrom.
  { intros jobs Hjobs. induction cs as [|c cs IH] using rev_ind; [done|].
    apply Forall_app in Hcs as [Hcs Hc]. apply Forall_cons_iff in Hc as [Hc _].
    rewrite foldl_snoc. by apply exec_no_shared_files; [|apply IH]. }
  split; [|done]. apply Hfrom. intros id1 id2 j1 j2 n1 n2 Hj1.
  by rewrite lookup_empty in Hj1.
Qed.

(** *** Shutdown *)

(** C22: a shutdown leaves no active job: every job that was queued or running
    is interrupted, at the time of the shutdown and with its token triggered,
    its lease and runner released; it counts exactly those; every other job
    keeps its status. *)
Theorem shutdown_interrupts_every_active_job jobs now :
  (interrupt_all_active jobs now).2 =
    count_if (fun j => JobStatus.is_active (st j)) (map_values jobs) /\
  map_Forall (fun id j' => exists j, jobs !! id = Some j /\ is_cancelled j' = true /\
    if JobStatus.is_active (st j)
    then st j' = JobStatus.Interrupted /\ completed_at (schedule j') = Some now /\
         lease (schedule j') = None /\ runner_active (runtime j') = false
    else st j' = st j) (interrupt_all_active jobs now).1.
Proof.
  assert (forall j, interrupt_for_shutdown j now =
    if JobStatus.is_active (st j) then
      (put_runner_active (clear_lease (adopt_status_columns (put_cancel_token j true)
        (stopped (status_columns j) StopInterrupted now))) false, true)
    else (put_cancel_token j true, false)) as Hspec.
  { intros j. unfold interrupt_for_shutdown. rewrite stop_applied.
    change (st (put_cancel_token j true)) with (st j).
    by destruct (JobStatus.is_active (st j)). }
  split.
  - simpl. apply count_if_ext. intros j _. rewrite Hspec. by destruct (JobStatus.is_active _).
  - intros id j' Hj'. simpl in Hj'. rewrite lookup_fmap, fmap_Some in Hj'.
    destruct Hj' as (j & Hj & ->). exists j. split; [done|]. rewrite Hspec.
    by destruct (JobStatus.is_active (st j)) eqn:Ha.
Qed.

End properties.

(** ** Concrete histories *)

Section concrete_histories.
#[local] Existing Instance test_payload.
#[local] Existing Instance test_catalog.
#[local] Existing Instance test_range.
#[local] Existing Instance test_stored.

Definition node_ttl : LeaseTtl := ttl_default.

(** Submitted, claimed by a runner, run, one file failed, finalized. *)
Definition test_history : list Command :=
  [InsertJob test_job; OnJob "j1" (OpBeginRunner "node-a" 2000 node_ttl);
   OnJob "j1" OpMarkRunning;
   OnJob "j1" (OpFileDone "a.cha" 3000 WithoutResult);
   OnJob "j1" (OpFileError "b.cha" (mkFailureRecord "bad header" FailureCategory.Validation 3500));
   OnJob "j1" (OpFinalize 0 JobStatus.Failed 4000)].

(** A startup load, the history above, and a staged remote job whose results
    could not be copied back. *)
Definition program_history : list Command :=
  LoadJobs 0 [test_row "j3" true] :: test_history ++
  [InsertJob (test_job_named "j4" ["c.cha"]); OnJob "j4" (OpSetPlan (Some tt));
   OnJob "j4" (OpUpdateStatus JobStatus.WritebackFailed (Some "copy-back failed") 5000)].

Lemma test_row_startup id : startup_row (test_row id true).
Proof.
  constructor; [|by eexists|].
  - intros name. simpl. set_solver.
  - intros s. cbn. intros [= <-]. split_and!; [done|by intros []|by intros []].
Qed.

Lemma reachable_registry_ok_witness :
  registry_ok (run_registry program_history) /\
  (fun j => (st j, error (execution j))) <$> run_registry program_history !! "j4" =
    Some (JobStatus.WritebackFailed, Some "copy-back failed").
Proof.
  split; [|vm_compute; reflexivity]. apply reachable_registry_ok. constructor.
  { split; [done|]. constructor; [apply test_row_startup|constructor]. }
  repeat (constructor; [split; simpl; [try done; try by right|first [done | by do 3 eexists]]|]).
  constructor.
Defined.

Definition test_final : Job := default test_job (run_registry test_history !! "j1").

Lemma test_final_lookup : run_registry test_history !! "j1" = Some test_final.
Proof. vm_compute. reflexivity. Qed.

Lemma status_moves_only_through_the_machine_witness :
  JobStatus.Queued = st test_final \/
  exists r, command_reason (OnJob "j1" OpRestart) = Some r /\
    can_transition_to (st test_final) JobStatus.Queued r = true.
Proof.
  apply (status_moves_only_through_the_machine (run_registry test_history) (OnJob "j1" OpRestart)
    "j1" test_final (restarted test_final)); [apply test_final_lookup| |reflexivity].
  vm_compute. reflexivity.
Defined.

(** Late commands for the ended job. *)
Definition late_commands : list Command :=
  [OnJob "j1" (OpCancel 5000); OnJob "j1" (OpFail "late" 6000);
   OnJob "j1" (OpFinalize 0 JobStatus.Completed 6500); OnJob "j1" (OpRequeue 7000);
   InterruptAll 8000].

Lemma terminal_status_is_final_until_restart_witness :
  exists j', foldl exec (run_registry test_history) late_commands !! "j1" = Some j' /\
    st j' = JobStatus.Failed.
Proof.
  eexists. split; [vm_compute; reflexivity|].
  change JobStatus.Failed with (st test_final).
  eapply (terminal_status_is_final_until_restart (run_registry test_history) late_commands "j1");
    [apply test_final_lookup|vm_compute; reflexivity|repeat (constructor; [done|]); constructor
    |vm_compute; reflexivity].
Defined.

Lemma test_restarted_lookup :
  foldl exec (run_registry test_history) [OnJob "j1" OpRestart] !! "j1" =
  Some (restarted test_final).
Proof. vm_compute. reflexivity. Qed.

Lemma runner_is_exclusive_until_released_witness :
  (begin_runner (foldl exec (run_registry test_history) [OnJob "j1" OpRestart])
     "j1" "node-b" 9000 node_ttl).2 = Some RunnerStillLive /\
  (forall l, ("j1", l) ∉ claimed_leases
     (claim_ready_queued_jobs (foldl exec (run_registry test_history) [OnJob "j1" OpRestart])
        9000 "node-b" node_ttl).2).
Proof.
  refine (runner_is_exclusive_until_released (run_registry test_history) [OnJob "j1" OpRestart]
    "j1" test_final (restarted test_final) "node-b" 9000 node_ttl test_final_lookup _ _
    test_restarted_lookup).
  - vm_compute. reflexivity.
  - repeat constructor.
Defined.

Lemma superseded_run_cannot_finalize_witness :
  finalize_job (foldl exec (run_registry test_history) [OnJob "j1" OpRestart])
    "j1" (run_generation (runtime test_final)) JobStatus.Completed 9000 =
    (foldl exec (run_registry test_history) [OnJob "j1" OpRestart], None) /\
  runner_generation_current (foldl exec (run_registry test_history) [OnJob "j1" OpRestart])
    "j1" (run_generation (runtime test_final)) = false.
Proof.
  refine (superseded_run_cannot_finalize (run_registry test_history) [OnJob "j1" OpRestart]
    "j1" test_final (restarted test_final) JobStatus.Completed 9000 test_final_lookup _ _
    test_restarted_lookup _).
  - vm_compute. by split.
  - repeat constructor.
  - vm_compute. by split.
Defined.

(** Two submissions of one client that name the same file. *)
Definition resubmission : Job := test_job_named "j2" ["a.cha"].

Lemma active_jobs_never_share_a_file_witness :
  no_shared_files (run_registry [InsertJob test_job; InsertJob resubmission]) /\
  run_registry [InsertJob test_job; InsertJob resubmission] !! "j2" = None.
Proof.
  split; [|vm_compute; reflexivity].
  refine (proj1 (active_jobs_never_share_a_file _ _)). repeat (constructor; [done|]). constructor.
Defined.

(** Restart makes no conflict check: after a cancelled job's file is submitted
    again, restarting the cancelled job leaves two active jobs on one file. *)
Definition restart_history : list Command :=
  [InsertJob test_job; OnJob "j1" (OpCancel 1500); InsertJob resubmission;
   OnJob "j1" OpRestart].

(** Restart admits what submission refuses: after this history two active
    jobs hold the same file of the same submitter. *)
Theorem restart_can_share_a_file : ~ no_shared_files (run_registry restart_history).
Proof.
  intros Hno.
  pose (j1 := default test_job (run_registry restart_history !! "j1")).
  apply (Hno "j1" "j2" j1 resubmission "a.cha" "a.cha");
    try (vm_compute; reflexivity); try done; vm_compute; repeat constructor.
Qed.

(** Startup reconciliation hides a failure finalization would report: a
    job with one file done and one failed is [Failed] by [finalize_status] and
    [Completed], with no error, by reconciliation. *)
Theorem reconciliation_hides_a_failed_file :
  finalize_status (snapshot_of test_running_job) 0 = JobStatus.Failed /\
  (reconcile_recovered_runtime_state test_running_job).2 = RecoveredCompleted /\
  st (reconcile_recovered_runtime_state test_running_job).1 = JobStatus.Completed /\
  error (execution (reconcile_recovered_runtime_state test_running_job).1) = None.
Proof. vm_compute. auto. Qed.

End concrete_histories.
