(* ===== verification/Interval.v ===== *)
(** * Media intervals: admission of provider numbers

    Models [crates/batchalign-types/src/interval.rs] (the [AdmittedInterval]
    and the constructors that admit provider numbers into it), the audio
    positions of [crates/batchalign-types/src/domain.rs] it reads, and the
    word timing built on it in
    [crates/batchalign-transform/src/asr_postprocess/timing.rs].

    An [f64] is a value of the Standard Library's specification of IEEE 754
    binary64 ([spec_float], precision 53, [emax] 1024): multiplication and the
    integer conversions are its executable operations, so the claims are about
    every float, NaN and the infinities included. *)

From S2P Require Import Prelude.
From stdpp Require Import base decidable option list sets numbers.
From Stdlib Require Import SpecFloat.

Open Scope Z_scope.

(** ** Floats *)

Abbreviation f64 := spec_float.

Definition f64_mul (x y : f64) : f64 := SFmul 53 1024 x y.
Definition f64_div (x y : f64) : f64 := SFdiv 53 1024 x y.

(** An integer [as f64]: the nearest float, ties to even. *)
Definition int_as_f64 (z : Z) : f64 := binary_normalize 53 1024 z 0 false.

Definition is_finite (x : f64) : bool :=
  match x with S754_zero _ | S754_finite _ _ _ => true | _ => false end.

(** [f64::round] of a finite float, half away from zero. The rounded float is
    an integer, and every comparison and cast the source makes of it is exact,
    so it is kept as that integer. *)
Definition round (x : f64) : Z :=
  match x with
  | S754_finite neg m e =>
      let magnitude :=
        if 0 <=? e then Zpos m * 2 ^ e
        else (2 * Zpos m + 2 ^ (- e)) / 2 ^ (1 - e) in
      if neg then - magnitude else magnitude
  | _ => 0
  end.

(** ** Refusals *)

Inductive IntervalBound :=
| BoundStart
| BoundEnd.

Inductive IntervalRefusal :=
| NotFinite (bound : IntervalBound)
| Negative (bound : IntervalBound) (value_ms : f64)
| OutOfRange (bound : IntervalBound) (value_ms : f64)
| Inverted (start_ms end_ms : Z)
| OffsetOverflow (segment_start_ms offset_ms : Z).

Inductive UntimedCause :=
| ProviderReportedNoTiming
| ProviderReportedNoStart
| ProviderReportedNoEnd
| SegmentStartAbsent
| ZeroLengthSpan
| RefusedByAdmission.

(** ** Admission *)

Record AdmittedInterval := mkInterval {
  start_ms : Z;
  end_ms : Z
}.

#[export] Instance interval_eq_dec : EqDecision AdmittedInterval.
Proof. solve_decision. Defined.

Definition MAX_MS : Z := 1000000000000.

Open Scope rust_scope.

Definition admit_bound_millis_f64 (bound : IntervalBound) (millis : f64)
    : result IntervalRefusal Z :=
  if negb (is_finite millis) then Err (NotFinite bound)
  else
    let rounded := round millis in
    if rounded <? 0 then Err (Negative bound millis)
    else if MAX_MS <? rounded then Err (OutOfRange bound millis)
    else Ok rounded.

Definition admit_bound_seconds (bound : IntervalBound) (seconds : f64)
    : result IntervalRefusal Z :=
  if negb (is_finite seconds) then Err (NotFinite bound)
  else
    let millis := f64_mul seconds (int_as_f64 1000) in
    admit_bound_millis_f64 bound millis.

(** One turn of the loop over the two bounds in [admit_millis]. *)
Definition check_bound (bound : IntervalBound) (value : Z) : result IntervalRefusal unit :=
  if value <? 0 then Err (Negative bound (int_as_f64 value))
  else if MAX_MS <? value then Err (OutOfRange bound (int_as_f64 value))
  else Ok tt.

Definition admit_millis (start end_ : Z) : result IntervalRefusal AdmittedInterval :=
  let? _ := check_bound BoundStart start in
  let? _ := check_bound BoundEnd end_ in
  if end_ <? start then Err (Inverted start end_)
  else Ok {| start_ms := start; end_ms := end_ |}.

Definition admit_seconds (start_s end_s : f64) : result IntervalRefusal AdmittedInterval :=
  let? start := admit_bound_seconds BoundStart start_s in
  let? end_ := admit_bound_seconds BoundEnd end_s in
  admit_millis start end_.

Definition admit_millis_f64 (start_f end_f : f64) : result IntervalRefusal AdmittedInterval :=
  let? start := admit_bound_millis_f64 BoundStart start_f in
  let? end_ := admit_bound_millis_f64 BoundEnd end_f in
  admit_millis start end_.

Definition admit_offset_from (segment_start offset_start offset_end : Z)
    : result IntervalRefusal AdmittedInterval :=
  let? start :=
    ok_or (checked_add_i64 segment_start offset_start)
      (OffsetOverflow segment_start offset_start) in
  let? end_ :=
    ok_or (checked_add_i64 segment_start offset_end)
      (OffsetOverflow segment_start offset_end) in
  admit_millis start end_.

(** [i64::try_from] of an unsigned bound. *)
Definition unsigned_in_i64 (bound : IntervalBound) (value : Z) : result IntervalRefusal Z :=
  if value <=? i64_max then Ok value else Err (OutOfRange bound (int_as_f64 value)).

Definition admit_unsigned_millis (start end_ : Z) : result IntervalRefusal AdmittedInterval :=
  let? start := unsigned_in_i64 BoundStart start in
  let? end_ := unsigned_in_i64 BoundEnd end_ in
  admit_millis start end_.

Definition start_millis (i : AdmittedInterval) : Z := Z.abs (start_ms i).
Definition end_millis (i : AdmittedInterval) : Z := Z.abs (end_ms i).

Definition covering (a b : AdmittedInterval) : AdmittedInterval :=
  {| start_ms := Z.min (start_ms a) (start_ms b); end_ms := Z.max (end_ms a) (end_ms b) |}.

Definition is_empty (i : AdmittedInterval) : bool := start_ms i =? end_ms i.

(** ** Audio positions *)

(** [AudioPositionSeconds::try_from]: finite and [>= 0.0] (which [-0.0] is). *)
Definition position_try_from (x : f64) : option f64 :=
  if is_finite x && SFleb (S754_zero false) x then Some x else None.

Definition position_from_millis (ms : Z) : f64 :=
  f64_div (int_as_f64 ms) (int_as_f64 1000).

Definition admit_positions (start end_ : f64) : result IntervalRefusal AdmittedInterval :=
  admit_seconds start end_.

Definition as_positions (i : AdmittedInterval) : f64 * f64 :=
  (position_from_millis (start_millis i), position_from_millis (end_millis i)).

(** ** Word timing *)

Inductive WordTiming :=
| Timed (i : AdmittedInterval)
| Untimed (cause : UntimedCause).

Definition from_admitted (i : AdmittedInterval) : WordTiming :=
  if is_empty i then Untimed ZeroLengthSpan else Timed i.

Definition from_positions (start end_ : option f64) : result IntervalRefusal WordTiming :=
  match start, end_ with
  | None, None => Ok (Untimed ProviderReportedNoTiming)
  | None, Some _ => Ok (Untimed ProviderReportedNoStart)
  | Some _, None => Ok (Untimed ProviderReportedNoEnd)
  | Some start, Some end_ =>
      let? interval := admit_positions start end_ in Ok (from_admitted interval)
  end.

Definition from_millis (start end_ : option Z) : result IntervalRefusal WordTiming :=
  match start, end_ with
  | None, None => Ok (Untimed ProviderReportedNoTiming)
  | None, Some _ => Ok (Untimed ProviderReportedNoStart)
  | Some _, None => Ok (Untimed ProviderReportedNoEnd)
  | Some start, Some end_ =>
      let? interval := admit_millis start end_ in Ok (from_admitted interval)
  end.

Definition admit_positions_or_untimed (start end_ : option f64) : WordTiming :=
  match from_positions start end_ with
  | Ok timing => timing
  | Err _ => Untimed RefusedByAdmission
  end.

Definition interval (t : WordTiming) : option AdmittedInterval :=
  match t with Timed i => Some i | Untimed _ => None end.

Definition untimed_cause (t : WordTiming) : option UntimedCause :=
  match t with Timed _ => None | Untimed cause => Some cause end.

(** An interval that covers real time. *)
Record PositiveInterval := mkPositive {
  pos_start_ms : Z;
  pos_end_ms : Z
}.

Definition positive_of (i : AdmittedInterval) : result UntimedCause PositiveInterval :=
  if (start_ms i <? 0) || (end_ms i <? 0) then Err RefusedByAdmission
  else if start_ms i <? end_ms i then Ok (mkPositive (start_ms i) (end_ms i))
  else Err ZeroLengthSpan.

Definition positive (t : WordTiming) : result UntimedCause PositiveInterval :=
  match t with Timed i => positive_of i | Untimed cause => Err cause end.

Definition into_optional_millis (t : WordTiming) : option Z * option Z :=
  match t with
  | Timed i => (Some (start_ms i), Some (end_ms i))
  | Untimed _ => (None, None)
  end.

Definition positive_covering (a b : PositiveInterval) : PositiveInterval :=
  mkPositive (Z.min (pos_start_ms a) (pos_start_ms b)) (Z.max (pos_end_ms a) (pos_end_ms b)).

(** [covering_all_timed]: the first part, then [try_fold]. *)
Fixpoint try_cover (union : AdmittedInterval) (parts : list (option AdmittedInterval))
    : option AdmittedInterval :=
  match parts with
  | [] => Some union
  | None :: _ => None
  | Some part :: parts => try_cover (covering union part) parts
  end.

Definition covering_all_timed (parts : list (option AdmittedInterval))
    : option AdmittedInterval :=
  match parts with
  | Some first :: parts => try_cover first parts
  | _ => None
  end.

(** ** Properties *)

Definition admitted (i : AdmittedInterval) : Prop := 0 <= start_ms i <= end_ms i /\ end_ms i <= MAX_MS.

(** The one gate: it admits exactly the pairs in order and in range. *)
Lemma admit_millis_ok s e i :
  admit_millis s e = Ok i <-> i = mkInterval s e /\ admitted i.
Proof.
  unfold admit_millis, check_bound, admitted. destruct i as [s' e']; cbn.
  destruct (Z.ltb_spec s 0), (Z.ltb_spec MAX_MS s), (Z.ltb_spec e 0), (Z.ltb_spec MAX_MS e),
    (Z.ltb_spec e s); cbn; (split; [intros Heq; simplify_eq|intros [Heq Hi]; simplify_eq]);
    try done; try lia; first [reflexivity | split; [reflexivity|lia]].
Qed.

(** Every public way to obtain an interval. *)
Inductive built : AdmittedInterval -> Prop :=
| built_millis s e i : admit_millis s e = Ok i -> built i
| built_positions s e i : admit_positions s e = Ok i -> built i
| built_millis_f64 s e i : admit_millis_f64 s e = Ok i -> built i
| built_offset seg s e i : admit_offset_from seg s e = Ok i -> built i
| built_unsigned s e i : admit_unsigned_millis s e = Ok i -> built i
| built_covering a b : built a -> built b -> built (covering a b).

(** The last step of every constructor is [admit_millis]. *)
Lemma admit_then_millis {X} (m : result IntervalRefusal X) (k : X -> result IntervalRefusal AdmittedInterval) i :
  (let? x := m in k x) = Ok i -> exists x, k x = Ok i.
Proof. destruct m; [eauto|done]. Qed.

(** C31: holding an interval is the proof: whatever provider numbers it came
    from (NaN, infinities, negative or absurd floats and integers, offsets) and
    however intervals were merged, its bounds are whole milliseconds with
    [0 <= start <= end <= MAX_MS]. *)
Theorem every_interval_is_admitted i : built i -> admitted i.
Proof.
  induction 1 as [s e i Hi|s e i Hi|s e i Hi|seg s e i Hi|s e i Hi|a b _ IHa _ IHb].
  1: by apply admit_millis_ok in Hi as [_ Hi].
  1-4: apply admit_then_millis in Hi as [s' Hi]; apply admit_then_millis in Hi as [e' Hi];
    by apply admit_millis_ok in Hi as [_ Hi].
  unfold admitted, covering in *; cbn; lia.
Qed.

(** The hardest input, an infinite end, and an interval merged from two. *)
Lemma every_interval_is_admitted_witness :
  admit_millis_f64 (S754_zero false) (S754_infinity false) = Err (NotFinite BoundEnd) /\
  admitted (covering (mkInterval 100 160) (mkInterval 240 320)).
Proof.
  split; [reflexivity|]. apply every_interval_is_admitted.
  constructor; [apply (built_millis 100 160)|apply (built_offset 200 40 120)]; reflexivity.
Defined.

(** What the rounding of a finite float is, exactly. *)
Definition rounds_to (neg : bool) (m : BinNums.positive) (e : Z) (z : Z) : Prop :=
  if 0 <=? e then z = (if neg then - (Zpos m * 2 ^ e) else Zpos m * 2 ^ e)
  else if neg then (2 * z - 1) * 2 ^ (- e) < - (2 * Zpos m) <= (2 * z + 1) * 2 ^ (- e)
  else (2 * z - 1) * 2 ^ (- e) <= 2 * Zpos m < (2 * z + 1) * 2 ^ (- e).

Lemma round_spec neg m e : rounds_to neg m e (round (S754_finite neg m e)).
Proof.
  unfold rounds_to, round. destruct (Z.leb_spec 0 e); [by destruct neg|].
  assert (0 < 2 ^ (- e)) by (apply Z.pow_pos_nonneg; lia).
  replace (1 - e) with (Z.succ (- e)) by lia. rewrite Z.pow_succ_r by lia.
  pose proof (Z.div_mod (2 * Zpos m + 2 ^ (- e)) (2 * 2 ^ (- e)) ltac:(lia)).
  pose proof (Z.mod_pos_bound (2 * Zpos m + 2 ^ (- e)) (2 * 2 ^ (- e)) ltac:(lia)).
  set (q := (2 * Zpos m + 2 ^ (- e)) / (2 * 2 ^ (- e))) in *.
  destruct neg; split; nia.
Qed.

(** C40: a millisecond float is admitted as the nearest whole millisecond, a
    tie going away from zero (either zero as 0), and refused exactly when it is
    not finite, when that millisecond is negative, or when it is beyond
    [MAX_MS]. *)
Theorem float_bound_is_rounded_once b x :
  match x with
  | S754_zero _ => admit_bound_millis_f64 b x = Ok 0
  | S754_finite neg m e =>
      exists z, rounds_to neg m e z /\
        admit_bound_millis_f64 b x =
          (if z <? 0 then Err (Negative b x)
           else if MAX_MS <? z then Err (OutOfRange b x)
           else Ok z)
  | _ => admit_bound_millis_f64 b x = Err (NotFinite b)
  end.
Proof.
  destruct x as [| | |neg m e]; try done.
  exists (round (S754_finite neg m e)). split; [apply round_spec|done].
Qed.

(** A word offset is added exactly: a sum that does not fit [i64] is
    refused, with the offset that overflowed, and every other pair is admitted
    or refused as its true sums are. *)
Theorem offsets_never_wrap seg s e :
  admit_offset_from seg s e =
  if negb (in_i64 (seg + s)) then Err (OffsetOverflow seg s)
  else if negb (in_i64 (seg + e)) then Err (OffsetOverflow seg e)
  else admit_millis (seg + s) (seg + e).
Proof.
  unfold admit_offset_from, checked_add_i64, ok_or.
  by destruct (in_i64 (seg + s)), (in_i64 (seg + e)).
Qed.

Definition encloses (a b : AdmittedInterval) : Prop :=
  start_ms a <= start_ms b /\ end_ms b <= end_ms a.

Lemma covering_least a b c :
  encloses c (covering a b) <-> encloses c a /\ encloses c b.
Proof. unfold encloses, covering; cbn. lia. Qed.

Lemma encloses_antisymm a b : encloses a b -> encloses b a -> a = b.
Proof. destruct a, b; unfold encloses; cbn. intros. f_equal; lia. Qed.

Lemma try_cover_spec parts : forall union,
  match try_cover union parts with
  | Some i =>
      Forall is_Some parts /\
      forall c, encloses c i <-> encloses c union /\ Forall (fun p => forall a, p = Some a -> encloses c a) parts
  | None => None ∈ parts
  end.
Proof.
  induction parts as [|[p|] parts IH]; intros union; cbn; [|specialize (IH (covering union p))|set_solver].
  - split; [constructor|]. intros c. split; [by split|tauto].
  - destruct (try_cover _ parts) as [i|]; [|set_solver]. destruct IH as [Hs Hi].
    split; [constructor; eauto|]. intros c. rewrite Hi, covering_least, Forall_cons_iff.
    naive_solver.
Qed.

(** C33: a merged word gets a span exactly when it has parts and all of them
    are timed, and then it is the smallest interval enclosing every part: an
    interval encloses it exactly when it encloses all the parts. *)
Theorem merged_span_is_the_least_cover parts :
  match covering_all_timed parts with
  | Some i =>
      parts <> [] /\ Forall is_Some parts /\
      forall c, encloses c i <-> Forall (fun p => forall a, p = Some a -> encloses c a) parts
  | None => parts = [] \/ None ∈ parts
  end.
Proof.
  destruct parts as [|[first|] parts]; cbn; [by left| |right; set_solver].
  pose proof (try_cover_spec parts first) as Hc.
  destruct (try_cover first parts) as [i|]; [|right; set_solver]. destruct Hc as [Hs Hi].
  split_and!; [done|constructor; eauto|]. intros c. rewrite Hi, Forall_cons_iff. naive_solver.
Qed.

(** A timed word's interval always yields a positive one. *)
Lemma from_admitted_positive i p :
  admitted i -> positive (from_admitted i) = Ok p ->
  pos_start_ms p = start_ms i /\ pos_end_ms p = end_ms i /\ 0 <= pos_start_ms p < pos_end_ms p.
Proof.
  intros [Hi _] Hp. unfold from_admitted in Hp. destruct (is_empty i); [done|]. cbn in Hp.
  unfold positive_of in Hp. destruct (_ || _); [done|].
  destruct (Z.ltb_spec (start_ms i) (end_ms i)); simplify_eq/=. lia.
Qed.

(** *** Positions *)

Lemma round_aux_sign sx m e l :
  match binary_round_aux 53 1024 sx m e l with
  | S754_zero s | S754_infinity s | S754_finite s _ _ => s = sx
  | S754_nan => True
  end.
Proof.
  unfold binary_round_aux. destruct (shr_fexp _ _ _ _ _) as [r e1].
  destruct (shr_fexp _ _ _ _ _) as [r' e2]. destruct (shr_m r'); try done.
  by destruct (_ <=? _).
Qed.

Lemma position_millis_not_negative x y m e :
  position_try_from x = Some y -> f64_mul y (int_as_f64 1000) = S754_finite true m e -> False.
Proof.
  unfold position_try_from. destruct (is_finite x && SFleb (S754_zero false) x) eqn:Hx; [|done].
  intros [= ->] Hmul. change (int_as_f64 1000) with (S754_finite false 8796093022208000 (-43)) in Hmul.
  destruct y as [| | |[] ym ye]; cbn in Hx; try done.
  unfold f64_mul, SFmul in Hmul. cbn [xorb] in Hmul.
  pose proof (round_aux_sign false (Zpos (ym * 8796093022208000)) (ye + -43) loc_Exact) as Hs.
  rewrite Hmul in Hs. done.
Qed.

(** a pair of audio positions is never refused as negative: only
    [NotFinite], [OutOfRange] and [Inverted] can arise. *)
Theorem positions_are_never_negative start end_ b v :
  is_Some (position_try_from start) -> is_Some (position_try_from end_) ->
  admit_positions start end_ <> Err (Negative b v).
Proof.
  intros [s Hs] [e He] Hneg.
  assert (forall x y b z, position_try_from x = Some y -> admit_bound_seconds b x = z ->
    match z with Ok z => 0 <= z | Err (Negative _ _) => False | Err _ => True end) as Hbound.
  { intros x y b' z Hx <-.
    assert (x = y) as -> by (unfold position_try_from in Hx; by destruct (_ && _); simplify_eq).
    pose proof (position_millis_not_negative y y) as Hp. unfold admit_bound_seconds.
    destruct (negb (is_finite y)); [done|]. unfold admit_bound_millis_f64.
    destruct (f64_mul y (int_as_f64 1000)) as [| | |[] m' e']; try done.
    - exfalso. by eapply Hp.
    - pose proof (round_spec false m' e') as Hr. destruct (Z.ltb_spec (round (S754_finite false m' e')) 0) as [Hlt|Hge].
      + exfalso. unfold rounds_to in Hr. destruct (Z.leb_spec 0 e').
        * assert (0 < 2 ^ e') by (apply Z.pow_pos_nonneg; lia). nia.
        * assert (0 < 2 ^ (- e')) by (apply Z.pow_pos_nonneg; lia). nia.
      + cbn [is_finite negb]. by destruct (MAX_MS <? _). }
  unfold admit_positions, admit_seconds in Hneg.
  pose proof (Hbound _ _ BoundStart _ Hs eq_refl). pose proof (Hbound _ _ BoundEnd _ He eq_refl).
  destruct (admit_bound_seconds BoundStart start) as [zs|[]]; simplify_eq; try done.
  destruct (admit_bound_seconds BoundEnd end_) as [ze|[]]; simplify_eq; try done.
  unfold admit_millis, check_bound in Hneg. cbn in Hneg.
  repeat match type of Hneg with
  | context [?a <? ?b] => destruct (Z.ltb_spec a b); cbn in Hneg
  end; try done; lia.
Qed.

Lemma positions_are_never_negative_witness :
  admit_positions (int_as_f64 2) (int_as_f64 1) = Err (Inverted 2000 1000) /\
  admit_positions (int_as_f64 2) (int_as_f64 1) <> Err (Negative BoundEnd (int_as_f64 1)).
Proof.
  split; [vm_compute; reflexivity|].
  apply (positions_are_never_negative (int_as_f64 2) (int_as_f64 1) BoundEnd (int_as_f64 1));
    eexists; vm_compute; reflexivity.
Defined.

(** But a finite position can be refused as not finite: the conversion to
    milliseconds overflows. *)
Theorem finite_position_refused_as_not_finite :
  exists x, is_Some (position_try_from x) /\
    admit_positions x x = Err (NotFinite BoundStart).
Proof.
  exists (S754_finite false 4503599627370496 971). split; [eexists|]; vm_compute; reflexivity.
Qed.
