(* ===== verification/WorkControl.v ===== *)
(** * Cooperative work control, and the effect it gives alignment code

    Models [crates/batchalign-transform/src/dp_align/control.rs]. The caller's
    control object is shared by reference and may keep state of its own
    (meters, deadlines), so a computation under it passes that state along and
    ends in a value, in the caller's interruption, or in a fault of the
    algorithm itself. The faults are what the claims rule out: an index out of
    range ([Panic]), and running out of the fuel a loop was given here. *)

From S2P Require Import Prelude.
From stdpp Require Import base decidable option list sets numbers.

Open Scope Z_scope.

(** [trait WorkControl]: three checkpoints, each of which may interrupt. The
    diagnostic observer [packed_search_cost] returns nothing and is left
    out. *)
Record WorkControl := mkControl {
  wc_state : Type;
  wc_error : Type;
  wc_check : wc_state -> result wc_error unit * wc_state;
  wc_alignment_work : Z -> wc_state -> result wc_error unit * wc_state;
  wc_score_storage : Z -> wc_state -> result wc_error unit * wc_state
}.

(** [Uninterrupted]: no state, and an uninhabited error. *)
Definition Uninterrupted : WorkControl :=
  {| wc_state := unit; wc_error := Empty_set;
     wc_check := fun s => (Ok tt, s);
     wc_alignment_work := fun _ s => (Ok tt, s);
     wc_score_storage := fun _ s => (Ok tt, s) |}.

(** A control that keeps the default meters and stops after a number of
    checks. *)
Definition stop_after : WorkControl :=
  {| wc_state := nat; wc_error := unit;
     wc_check := fun n => match n with O => (Err tt, O) | S n => (Ok tt, n) end;
     wc_alignment_work := fun _ s => (Ok tt, s);
     wc_score_storage := fun _ s => (Ok tt, s) |}.

Inductive Fault (E : Type) : Type :=
| Interrupted (e : E)
| Panic
| OutOfFuel.
Arguments Interrupted {E} _.
Arguments Panic {E}.
Arguments OutOfFuel {E}.

(** A computation under a control. *)
Definition Work (C : WorkControl) (A : Type) : Type :=
  wc_state C -> result (Fault (wc_error C)) A * wc_state C.

(** [uninterrupted]: the value of a computation that cannot be interrupted;
    [None] is a fault of the algorithm. *)
Definition uninterrupted {A} (m : Work Uninterrupted A) : option A :=
  match (m tt).1 with Ok a => Some a | Err _ => None end.

Section work.
Context {C : WorkControl}.

Definition ret {A} (a : A) : Work C A := fun s => (Ok a, s).

Definition bind {A B} (m : Work C A) (k : A -> Work C B) : Work C B :=
  fun s => match m s with
           | (Ok a, s) => k a s
           | (Err e, s) => (Err e, s)
           end.

Definition fault {A} (f : Fault (wc_error C)) : Work C A := fun s => (Err f, s).

(** [control.check()?] and the two meters. *)
Definition checkpoint (p : wc_state C -> result (wc_error C) unit * wc_state C) : Work C unit :=
  fun s => match p s with
           | (Ok _, s) => (Ok tt, s)
           | (Err e, s) => (Err (Interrupted e), s)
           end.
Definition check : Work C unit := checkpoint (wc_check C).
Definition alignment_work (units : Z) : Work C unit := checkpoint (wc_alignment_work C units).
Definition alignment_score_storage (cells : Z) : Work C unit :=
  checkpoint (wc_score_storage C cells).

(** [l[i]], which panics out of range. *)
Definition index {A} (l : list A) (i : nat) : Work C A :=
  match l !! i with Some a => ret a | None => fault Panic end.

(** [l[i] = a], which panics out of range. *)
Definition store {A} (l : list A) (i : nat) (a : A) : Work C (list A) :=
  if (i <? length l)%nat then ret (<[i := a]> l) else fault Panic.

(** [&l[..n]] and [&l[n..]], which panic when [n] is past the end. *)
Definition slice_to {A} (l : list A) (n : nat) : Work C (list A) :=
  if (n <=? length l)%nat then ret (take n l) else fault Panic.
Definition slice_from {A} (l : list A) (n : nat) : Work C (list A) :=
  if (n <=? length l)%nat then ret (drop n l) else fault Panic.

(** [&l[a..b]]. *)
Definition slice_range {A} (l : list A) (a b : nat) : Work C (list A) :=
  if (a <=? b)%nat && (b <=? length l)%nat then ret (take (b - a) (drop a l)) else fault Panic.

(** [for i in items { body }] over a mutable state. *)
Fixpoint for_each {A S} (items : list A) (body : A -> S -> Work C S) (s : S) : Work C S :=
  match items with
  | [] => ret s
  | i :: items => bind (body i s) (fun s => for_each items body s)
  end.

End work.

Notation "'let!' x ':=' m 'in' k" := (bind m (fun x => k))
  (at level 10, x pattern, m at level 100, k at level 200,
   format "'[v' 'let!'  x  ':='  m  'in' '/' k ']'") : rust_scope.
Notation "m ;; k" := (bind m (fun _ => k))
  (at level 100, k at level 200, right associativity) : rust_scope.

(** [usize] arithmetic on lengths, saturating as the meters use it. *)
Definition usize_max : Z := 18446744073709551615.
Definition isize_max : Z := 9223372036854775807.
Definition sat_add (a b : Z) : Z := Z.min usize_max (a + b).
Definition sat_mul (a b : Z) : Z := Z.min usize_max (a * b).

(** ** What a computation guarantees *)

(** [wp m Q]: whatever state the control is in, [m] ends in a value that
    satisfies [Q] or is interrupted by the caller; it never panics and never
    runs out of fuel. *)
Definition wp {C A} (m : Work C A) (Q : A -> Prop) : Prop :=
  forall s, match (m s).1 with
            | Ok a => Q a
            | Err (Interrupted _) => True
            | Err _ => False
            end.

Section wp.
Context {C : WorkControl}.

Lemma wp_ret {A} (a : A) (Q : A -> Prop) : Q a -> wp (C:=C) (ret a) Q.
Proof. by intros HQ s. Qed.

Lemma wp_mono {A} (m : Work C A) (Q Q' : A -> Prop) :
  wp m Q -> (forall a, Q a -> Q' a) -> wp m Q'.
Proof. intros Hm HQ s. specialize (Hm s). destruct (m s) as [[a|[]] s']; simpl in *; auto. Qed.

Lemma wp_bind {A B} (m : Work C A) (k : A -> Work C B) Q :
  wp m (fun a => wp (k a) Q) -> wp (bind m k) Q.
Proof.
  intros Hm s. specialize (Hm s). unfold bind.
  destruct (m s) as [[a|e] s']; simpl in *; [apply Hm|done].
Qed.

(** Running a step whose postcondition is known, then the rest. *)
Lemma wp_step {A B} (m : Work C A) (k : A -> Work C B) (P : A -> Prop) Q :
  wp m P -> (forall a, P a -> wp (k a) Q) -> wp (bind m k) Q.
Proof. intros Hm Hk. apply wp_bind. by eapply wp_mono. Qed.

Lemma wp_checkpoint p (Q : unit -> Prop) : Q tt -> wp (C:=C) (checkpoint p) Q.
Proof. intros HQ s. unfold checkpoint. by destruct (p s) as [[[]|] s']. Qed.

Lemma wp_checkpoint_step {B} p (k : unit -> Work C B) Q :
  wp (k tt) Q -> wp (bind (checkpoint p) k) Q.
Proof. intros Hk. apply wp_bind. by apply wp_checkpoint. Qed.

Lemma wp_index_step {A B} (l : list A) i a (k : A -> Work C B) Q :
  l !! i = Some a -> wp (k a) Q -> wp (bind (index l i) k) Q.
Proof. intros Hi Hk. unfold index. rewrite Hi. by apply wp_bind, wp_ret. Qed.

Lemma wp_store_step {A B} (l : list A) i a (k : list A -> Work C B) Q :
  (i < length l)%nat -> wp (k (<[i := a]> l)) Q -> wp (bind (store l i a) k) Q.
Proof.
  intros Hi Hk. unfold store. destruct (Nat.ltb_spec i (length l)); [|lia].
  by apply wp_bind, wp_ret.
Qed.

Lemma wp_store {A} (l : list A) i a (Q : list A -> Prop) :
  (i < length l)%nat -> Q (<[i := a]> l) -> wp (C:=C) (store l i a) Q.
Proof. intros Hi HQ. unfold store. destruct (Nat.ltb_spec i (length l)); [by apply wp_ret|lia]. Qed.

Lemma wp_slice_to_step {A B} (l : list A) n (k : list A -> Work C B) Q :
  (n <= length l)%nat -> wp (k (take n l)) Q -> wp (bind (slice_to l n) k) Q.
Proof.
  intros Hn Hk. unfold slice_to. destruct (Nat.leb_spec n (length l)); [|lia].
  by apply wp_bind, wp_ret.
Qed.

Lemma wp_slice_from_step {A B} (l : list A) n (k : list A -> Work C B) Q :
  (n <= length l)%nat -> wp (k (drop n l)) Q -> wp (bind (slice_from l n) k) Q.
Proof.
  intros Hn Hk. unfold slice_from. destruct (Nat.leb_spec n (length l)); [|lia].
  by apply wp_bind, wp_ret.
Qed.

Lemma wp_slice_range_step {A B} (l : list A) a b (k : list A -> Work C B) Q :
  (a <= b <= length l)%nat -> wp (k (take (b - a) (drop a l))) Q ->
  wp (bind (slice_range l a b) k) Q.
Proof.
  intros Hn Hk. unfold slice_range.
  destruct (Nat.leb_spec a b), (Nat.leb_spec b (length l)); try lia. by apply wp_bind, wp_ret.
Qed.

(** The loop rule: [I done s] holds of the items already done. *)
Lemma wp_for_each {A S} (items : list A) (body : A -> S -> Work C S) (I : list A -> S -> Prop) s Q :
  I [] s ->
  (forall done i rest s, items = done ++ i :: rest -> I done s -> wp (body i s) (I (done ++ [i]))) ->
  (forall s, I items s -> Q s) ->
  wp (for_each items body s) Q.
Proof.
  intros Hs Hbody HQ.
  assert (forall rest done s, items = done ++ rest -> I done s -> wp (for_each rest body s) (I items))
    as Hloop.
  { induction rest as [|i rest IH]; intros done s' His HI; cbn [for_each].
    - rewrite app_nil_r in His. subst. by apply wp_ret.
    - eapply wp_step; [by apply (Hbody done i rest)|]. intros s'' HI''.
      apply (IH (done ++ [i])); [|done]. by rewrite <- app_assoc. }
  eapply wp_mono; [by apply (Hloop items [] s)|auto].
Qed.

End wp.

(** The loop rule for a range of indices. *)
Lemma wp_for_seq {C : WorkControl} {S} a n (body : nat -> S -> Work C S)
    (I : nat -> S -> Prop) s Q :
  I a s ->
  (forall i s, (a <= i < a + n)%nat -> I i s -> wp (body i s) (I (Datatypes.S i))) ->
  (forall s, I (a + n)%nat s -> Q s) ->
  wp (for_each (seq a n) body s) Q.
Proof.
  revert a s. induction n as [|n IH]; intros a s Hs Hbody HQ; cbn [seq for_each].
  - apply wp_ret, HQ. by rewrite Nat.add_0_r.
  - eapply wp_step; [apply Hbody; [lia|done]|]. intros s' Hs'. apply IH; [done| |].
    + intros i s'' Hi. apply Hbody. lia.
    + intros s'' Hs''. apply HQ. by rewrite <- Nat.add_succ_comm.
Qed.

(** Two cells of a flat table of [n] columns. *)
Lemma flat_inj n i j i' j' :
  (j < n)%nat -> (j' < n)%nat -> (i * n + j = i' * n + j')%nat -> i = i' /\ j = j'.
Proof. intros. assert (i = i') by nia. subst. split; [done|lia]. Qed.

(** Under [Uninterrupted] there is always a value. *)
Lemma wp_uninterrupted {A} (m : Work Uninterrupted A) Q :
  wp m Q -> exists a, m tt = (Ok a, tt) /\ Q a.
Proof.
  intros Hm. specialize (Hm tt). destruct (m tt) as [[a|[[]| |]] []]; try done. eauto.
Qed.

(** ** Control never changes a result *)

(** Two runs under any two controls agree on the value (or the fault), unless
    one of them was interrupted. *)
Definition agree {C D A} (m : Work C A) (n : Work D A) : Prop :=
  forall s t, match (m s).1, (n t).1 with
              | Ok a, Ok b => a = b
              | Err (Interrupted _), _ | _, Err (Interrupted _) => True
              | Err Panic, Err Panic | Err OutOfFuel, Err OutOfFuel => True
              | _, _ => False
              end.

Section agree.
Context {C D : WorkControl}.

Lemma agree_ret {A} (a : A) : agree (C:=C) (D:=D) (ret a) (ret a).
Proof. by intros s t. Qed.

Lemma agree_bind {A B} (m : Work C A) (n : Work D A) (k : A -> Work C B) (l : A -> Work D B) :
  agree m n -> (forall a, agree (k a) (l a)) -> agree (bind m k) (bind n l).
Proof.
  intros Hmn Hkl s t. specialize (Hmn s t). unfold bind.
  destruct (m s) as [[a|[]] s'], (n t) as [[b|[]] t']; simpl in *; try done; subst; try apply Hkl.
  all: try by destruct (l b t') as [[|[]] ?]. all: by destruct (k a s') as [[|[]] ?].
Qed.

Lemma agree_panic {A} : agree (C:=C) (D:=D) (A:=A) (fault Panic) (fault Panic).
Proof. by intros s t. Qed.

Lemma agree_fuel {A} : agree (C:=C) (D:=D) (A:=A) (fault OutOfFuel) (fault OutOfFuel).
Proof. by intros s t. Qed.

Lemma agree_checkpoint p q : agree (C:=C) (D:=D) (checkpoint p) (checkpoint q).
Proof. intros s t. unfold checkpoint. destruct (p s) as [[]], (q t) as [[]]; done. Qed.

Lemma agree_check : agree (C:=C) (D:=D) check check.
Proof. apply agree_checkpoint. Qed.

Lemma agree_work n : agree (C:=C) (D:=D) (alignment_work n) (alignment_work n).
Proof. apply agree_checkpoint. Qed.

Lemma agree_storage n :
  agree (C:=C) (D:=D) (alignment_score_storage n) (alignment_score_storage n).
Proof. apply agree_checkpoint. Qed.

Lemma agree_index {A} (l : list A) i : agree (C:=C) (D:=D) (index l i) (index l i).
Proof. unfold index. by destruct (l !! i). Qed.

Lemma agree_store {A} (l : list A) i a : agree (C:=C) (D:=D) (store l i a) (store l i a).
Proof. unfold store. by destruct (_ <? _)%nat. Qed.

Lemma agree_slice_to {A} (l : list A) n : agree (C:=C) (D:=D) (slice_to l n) (slice_to l n).
Proof. unfold slice_to. by destruct (_ <=? _)%nat. Qed.

Lemma agree_slice_from {A} (l : list A) n :
  agree (C:=C) (D:=D) (slice_from l n) (slice_from l n).
Proof. unfold slice_from. by destruct (_ <=? _)%nat. Qed.

Lemma agree_slice_range {A} (l : list A) a b :
  agree (C:=C) (D:=D) (slice_range l a b) (slice_range l a b).
Proof. unfold slice_range. by destruct (_ && _). Qed.

Lemma agree_for_each {A S} (items : list A) (b : A -> S -> Work C S) (b' : A -> S -> Work D S) s :
  (forall i s, agree (b i s) (b' i s)) -> agree (for_each items b s) (for_each items b' s).
Proof.
  intros Hb. revert s. induction items as [|i items IH]; intros s; cbn [for_each];
    [apply agree_ret|]. apply agree_bind; auto.
Qed.

End agree.

#[export] Hint Resolve agree_ret agree_bind agree_panic agree_fuel agree_check agree_work
  agree_storage agree_index
  agree_store agree_slice_to agree_slice_from agree_slice_range agree_for_each : rust.

(** Agreement of two runs of the same program text. *)
Ltac solve_agree :=
  repeat first
    [ solve [auto with rust]
    | apply agree_bind; [|intros ?]
    | apply agree_for_each; intros ? ?
    | match goal with |- agree (if ?b then _ else _) _ => destruct b end
    | match goal with |- agree (match ?x with _ => _ end) _ => destruct x end
    | apply agree_ret ].
