(* ===== verification/DpAlign.v ===== *)
(** * Sequence alignment by Hirschberg's divide and conquer

    Models [crates/batchalign-transform/src/dp_align/mod.rs] and
    [comparison.rs]: the comparison policies, the two linear-space row passes,
    the full-table aligner with its traceback, the divide-and-conquer
    recursion, prefix and suffix stripping, and the public entry points. Every
    function runs under the caller's work control ([WorkControl.v]) and every
    index and slice of the source is one that can panic here. The properties
    are in [DpAlignFacts.v]. *)

From S2P Require Import Prelude WorkControl.
From stdpp Require Import base decidable option list list_numbers strings numbers.
From Stdlib Require Import SpecFloat Ascii.

Open Scope Z_scope.
Open Scope rust_scope.

Definition COST_SUB : Z := 2.
Definition COST_GAP : Z := 1.
Definition SMALL_CUTOFF : Z := 2048.

Inductive AlignResult :=
| Match (key : string) (payload_idx reference_idx : nat)
| ExtraPayload (key : string) (payload_idx : nat)
| ExtraReference (key : string) (reference_idx : nat).

#[export] Instance align_result_eq_dec : EqDecision AlignResult.
Proof. solve_decision. Defined.

Inductive MatchMode :=
| Exact
| CaseInsensitive
| Fuzzy (threshold : spec_float).

(** ** Comparison *)

(** [trait Alignable]. *)
Class Alignable (T : Type) := {
  Policy : Type;
  matches : T -> T -> Policy -> bool;
  to_key : T -> string
}.
Arguments Policy T {_}.

Inductive LiteralMatchMode :=
| LiteralExact
| AsciiInsensitive.

Definition ascii_lower (c : ascii) : ascii :=
  let n := nat_of_ascii c in
  if (65 <=? n)%nat && (n <=? 90)%nat then ascii_of_nat (n + 32) else c.

Fixpoint lower (s : string) : string :=
  match s with
  | EmptyString => EmptyString
  | String c s => String (ascii_lower c) (lower s)
  end.

(** [str::eq_ignore_ascii_case], on the bytes. *)
Definition eq_ignore_ascii_case (a b : string) : bool := String.eqb (lower a) (lower b).

#[export] Instance string_alignable : Alignable string := {|
  Policy := LiteralMatchMode;
  matches := fun a b policy =>
    match policy with
    | LiteralExact => String.eqb a b
    | AsciiInsensitive => eq_ignore_ascii_case a b
    end;
  to_key := fun a => a
|}.

(** A [char] is its code point. *)
Record char := Char { code : Z }.

Definition char_lower (c : Z) : Z := if (65 <=? c) && (c <=? 90) then c + 32 else c.

Definition byte_of (n : Z) : ascii := ascii_of_nat (Z.to_nat n).

(** [char::to_string]: the UTF-8 encoding. *)
Definition utf8 (c : Z) : string :=
  let tail k := byte_of (128 + Z.land (Z.shiftr c k) 63) in
  if c <? 128 then String (byte_of c) ""
  else if c <? 2048 then String (byte_of (192 + Z.shiftr c 6)) (String (tail 0) "")
  else if c <? 65536 then
    String (byte_of (224 + Z.shiftr c 12)) (String (tail 6) (String (tail 0) ""))
  else
    String (byte_of (240 + Z.shiftr c 18))
      (String (tail 12) (String (tail 6) (String (tail 0) ""))).

#[export] Instance char_alignable : Alignable char := {|
  Policy := LiteralMatchMode;
  matches := fun a b policy =>
    match policy with
    | LiteralExact => code a =? code b
    | AsciiInsensitive => char_lower (code a) =? char_lower (code b)
    end;
  to_key := fun a => utf8 (code a)
|}.

(** What fuzzy matching calls outside the repository: [str::to_lowercase]
    with the Unicode tables, and [strsim::jaro_winkler]. *)
Class FuzzyLibrary := {
  to_lowercase : string -> string;
  jaro_winkler : string -> string -> spec_float
}.

Record PreparedFuzzyWord := mkFuzzyWord {
  original : string;
  lowercase : string
}.

Record FuzzyComparison := mkFuzzyComparison { threshold : spec_float }.

Definition prepare_fuzzy_word `{FuzzyLibrary} (word : string) : PreparedFuzzyWord :=
  {| original := word; lowercase := to_lowercase word |}.

#[export] Instance fuzzy_alignable `{FuzzyLibrary} : Alignable PreparedFuzzyWord := {|
  Policy := FuzzyComparison;
  matches := fun a b policy =>
    eq_ignore_ascii_case (original a) (original b) ||
    SFleb (threshold policy) (jaro_winkler (lowercase a) (lowercase b));
  to_key := fun a => original a
|}.

(** ** The algorithm *)

Section align.
Context {T : Type} `{Alignable T} {C : WorkControl}.
Implicit Types (payload reference : list T).

Definition len {A} (l : list A) : Z := Z.of_nat (length l).

(** One row: [cur] grows by one cell per payload item. *)
Fixpoint row_loop (mode : Policy T) (ref_item : T) payload (pay_idx : nat)
    (prev cur : list Z) : Work C (list Z) :=
  match payload with
  | [] => ret cur
  | pay_item :: payload =>
      (if (pay_idx mod 1024 =? 0)%nat then check else ret tt) ;;
      let is_match := matches ref_item pay_item mode in
      let! diag := index prev pay_idx in
      let! up := index prev (pay_idx + 1) in
      let! before := index cur pay_idx in
      let sub_cost := diag + (if is_match then 0 else COST_SUB) in
      let del_cost := up + COST_GAP in
      let ins_cost := before + COST_GAP in
      row_loop mode ref_item payload (pay_idx + 1) prev
        (cur ++ [Z.min (Z.min sub_cost del_cost) ins_cost])
  end.

(** The loop the two row passes share, over the items in the order each
    iterates them. *)
Definition cost_rows (mode : Policy T) (refs pays : list T) : Work C (list Z) :=
  let pay_len := len pays in
  alignment_work (sat_add pay_len 1) ;;
  for_each refs (fun ref_item prev =>
    check ;;
    alignment_work (sat_add pay_len 1) ;;
    let! first := index prev 0 in
    row_loop mode ref_item pays 0 prev [first + COST_GAP])
    (Z.of_nat <$> seq 0 (S (length pays))).

Definition row_costs reference payload (mode : Policy T) : Work C (list Z) :=
  cost_rows mode reference payload.

Definition row_costs_rev reference payload (mode : Policy T) : Work C (list Z) :=
  cost_rows mode (rev reference) (rev payload).

Inductive Action :=
| ActStart
| ActMatch
| ActSubstitution
| ActExtraPayload
| ActExtraReference.

(** A cell of the flat table: cost, action, and the cell it came from. *)
Definition cell : Type := Z * Action * nat * nat.
Definition cell_cost (c : cell) : Z := c.1.1.1.

(** Filling the table: the borders, then every cell in row order. *)
Definition fill_borders (rows cols : nat) : Work C (list cell) :=
  let dp := replicate (rows * cols) (0, ActStart, 0%nat, 0%nat) in
  let! dp := for_each (seq 1 (rows - 1)) (fun i dp =>
    store dp (i * cols) (Z.of_nat i * COST_GAP, ActExtraReference, (i - 1)%nat, 0%nat)) dp in
  for_each (seq 1 (cols - 1)) (fun j dp =>
    store dp j (Z.of_nat j * COST_GAP, ActExtraPayload, 0%nat, (j - 1)%nat)) dp.

Definition fill_cell (mode : Policy T) payload reference (cols i j : nat) (dp : list cell)
    : Work C (list cell) :=
  (if (j mod 1024 =? 1)%nat then check else ret tt) ;;
  let! ref_item := index reference (i - 1) in
  let! pay_item := index payload (j - 1) in
  let is_match := matches ref_item pay_item mode in
  let! diag := index dp ((i - 1) * cols + (j - 1)) in
  let! up := index dp ((i - 1) * cols + j) in
  let! before := index dp (i * cols + (j - 1)) in
  let sub_cost := cell_cost diag + (if is_match then 0 else COST_SUB) in
  let del_cost := cell_cost up + COST_GAP in
  let ins_cost := cell_cost before + COST_GAP in
  store dp (i * cols + j)
    (if (sub_cost <=? del_cost) && (sub_cost <=? ins_cost) then
       (sub_cost, if is_match then ActMatch else ActSubstitution, (i - 1)%nat, (j - 1)%nat)
     else if (del_cost <=? sub_cost) && (del_cost <=? ins_cost) then
       (del_cost, ActExtraReference, (i - 1)%nat, j)
     else (ins_cost, ActExtraPayload, i, (j - 1)%nat)).

Definition fill_table (mode : Policy T) payload reference : Work C (list cell) :=
  let rows := (length reference + 1)%nat in
  let cols := (length payload + 1)%nat in
  let! dp := fill_borders rows cols in
  for_each (seq 1 (rows - 1)) (fun i dp =>
    for_each (seq 1 (cols - 1)) (fun j dp =>
      fill_cell mode payload reference cols i j dp) dp) dp.

(** The traceback loop, pushing results until the origin is reached. *)
Fixpoint traceback (fuel : nat) payload reference (pay_offset ref_offset cols : nat)
    (dp : list cell) (i j : nat) (output : list AlignResult) : Work C (list AlignResult) :=
  if negb ((0 <? i)%nat || (0 <? j)%nat) then ret output
  else
    match fuel with
    | O => fault OutOfFuel
    | S fuel =>
        let! (_, action, pi, pj) := index dp (i * cols + j) in
        alignment_work (match action with ActSubstitution => 2 | _ => 1 end) ;;
        let continue := traceback fuel payload reference pay_offset ref_offset cols dp pi pj in
        match action with
        | ActMatch =>
            let! r := index reference pi in
            continue (output ++ [Match (to_key r) (pay_offset + pj) (ref_offset + pi)])
        | ActSubstitution =>
            let! p := index payload pj in
            let! r := index reference pi in
            continue (output ++ [ExtraPayload (to_key p) (pay_offset + pj);
                                 ExtraReference (to_key r) (ref_offset + pi)])
        | ActExtraPayload =>
            let! p := index payload pj in
            continue (output ++ [ExtraPayload (to_key p) (pay_offset + pj)])
        | ActExtraReference =>
            let! r := index reference pi in
            continue (output ++ [ExtraReference (to_key r) (ref_offset + pi)])
        | ActStart => ret output
        end
    end.

Definition align_small payload reference (pay_offset ref_offset : nat) (mode : Policy T)
    : Work C (list AlignResult) :=
  let rows := (length reference + 1)%nat in
  let cols := (length payload + 1)%nat in
  let cells := sat_mul (Z.of_nat rows) (Z.of_nat cols) in
  alignment_score_storage cells ;;
  alignment_work cells ;;
  let! dp := fill_table mode payload reference in
  let! output :=
    traceback (rows + cols) payload reference pay_offset ref_offset cols dp
      (rows - 1) (cols - 1) [] in
  ret (rev output).

(** The split: the first [k] whose two halves cost least together. *)
Definition find_split (score_left score_right : list Z) (pay_len : nat) : Work C nat :=
  let! (split, _) :=
    for_each (seq 0 (S pay_len)) (fun k '(split, best) =>
      let! l := index score_left k in
      let! r := index score_right (pay_len - k) in
      let cost := l + r in
      if cost <? best then ret (k, cost) else ret (split, best)) (0%nat, usize_max) in
  ret split.

Fixpoint hirschberg_fuel (fuel : nat) payload reference (pay_offset ref_offset : nat)
    (mode : Policy T) : Work C (list AlignResult) :=
  check ;;
  match reference, payload with
  | [], _ =>
      alignment_work (len payload) ;;
      ret (imap (fun i k => ExtraPayload (to_key k) (pay_offset + i)) payload)
  | _, [] =>
      alignment_work (len reference) ;;
      ret (imap (fun i k => ExtraReference (to_key k) (ref_offset + i)) reference)
  | _, _ =>
      if (length reference <=? 1)%nat || (length payload <=? 1)%nat ||
         (sat_mul (len reference) (len payload) <=? SMALL_CUTOFF)
      then align_small payload reference pay_offset ref_offset mode
      else
        match fuel with
        | O => fault OutOfFuel
        | S fuel =>
            let mid := (length reference / 2)%nat in
            let! left_ref := slice_to reference mid in
            let! right_ref := slice_from reference mid in
            alignment_score_storage (sat_mul (sat_add (len payload) 1) 3) ;;
            let! score_left := row_costs left_ref payload mode in
            let! score_right := row_costs_rev right_ref payload mode in
            let pay_len := length payload in
            alignment_work (sat_add (len payload) 1) ;;
            let! split := find_split score_left score_right pay_len in
            let! left_pay := slice_to payload split in
            let! left_result :=
              hirschberg_fuel fuel left_pay left_ref pay_offset ref_offset mode in
            let! right_pay := slice_from payload split in
            let! right_result :=
              hirschberg_fuel fuel right_pay right_ref (pay_offset + split) (ref_offset + mid)
                mode in
            alignment_work (len right_result) ;;
            ret (left_result ++ right_result)
        end
  end.

(** The recursion halves the reference, so its length is fuel enough. *)
Definition hirschberg payload reference (pay_offset ref_offset : nat) (mode : Policy T)
    : Work C (list AlignResult) :=
  hirschberg_fuel (length reference) payload reference pay_offset ref_offset mode.

(** The length of the run of matching pairs at the front. *)
Fixpoint matching_run payload reference (mode : Policy T) : Work C nat :=
  match payload, reference with
  | p :: payload, r :: reference =>
      alignment_work 1 ;;
      if negb (matches p r mode) then ret 0%nat
      else let! n := matching_run payload reference mode in ret (S n)
  | _, _ => ret 0%nat
  end.

Definition align_generic payload reference (mode : Policy T) : Work C (list AlignResult) :=
  check ;;
  let! prefix_len := matching_run payload reference mode in
  let! pay_rest := slice_from payload prefix_len in
  let! ref_rest := slice_from reference prefix_len in
  let! suffix_len := matching_run (rev pay_rest) (rev ref_rest) mode in
  alignment_work (Z.of_nat prefix_len) ;;
  let prefix := imap (fun i r => Match (to_key r) i i) (take prefix_len reference) in
  let! mid_pay := slice_range payload prefix_len (length payload - suffix_len) in
  let! mid_ref := slice_range reference prefix_len (length reference - suffix_len) in
  let! middle := hirschberg mid_pay mid_ref prefix_len prefix_len mode in
  alignment_work (sat_add (len middle) (Z.of_nat suffix_len)) ;;
  let pay_suffix_start := (length payload - suffix_len)%nat in
  let ref_suffix_start := (length reference - suffix_len)%nat in
  for_each (seq 0 suffix_len) (fun i result =>
    let! r := index reference (ref_suffix_start + i) in
    ret (result ++ [Match (to_key r) (pay_suffix_start + i) (ref_suffix_start + i)]))
    (prefix ++ middle).

End align.

(** ** Entry points *)

Definition align_controlled `{FuzzyLibrary} (C : WorkControl) (payload reference : list string)
    (mode : MatchMode) : Work C (list AlignResult) :=
  check ;;
  match mode with
  | Exact => align_generic payload reference LiteralExact
  | CaseInsensitive => align_generic payload reference AsciiInsensitive
  | Fuzzy threshold =>
      alignment_work (sat_add (len payload) (len reference)) ;;
      align_generic (prepare_fuzzy_word <$> payload) (prepare_fuzzy_word <$> reference)
        (mkFuzzyComparison threshold)
  end.

Definition align `{FuzzyLibrary} (payload reference : list string) (mode : MatchMode)
    : option (list AlignResult) :=
  uninterrupted (align_controlled Uninterrupted payload reference mode).

Definition align_chars (payload reference : list char) (mode : MatchMode)
    : option (list AlignResult) :=
  let mode :=
    match mode with
    | Exact => LiteralExact
    | CaseInsensitive | Fuzzy _ => AsciiInsensitive
    end in
  uninterrupted (align_generic payload reference mode).

Example align_chars_run :
  align_chars (Char <$> [97; 98; 99; 100]) (Char <$> [97; 120; 67; 100]) CaseInsensitive =
  Some [Match "a" 0 0; ExtraReference "x" 1; ExtraPayload "b" 1; Match "C" 2 2; Match "d" 3 3].
Proof. vm_compute. reflexivity. Qed.
