(* ===== verification/DpAlignFacts.v ===== *)
(** * Correctness of sequence alignment

    An alignment of two sequences is a walk that at each step matches the two
    heads, skips a payload item or skips a reference item ([aligned], with the
    indices the results carry); its cost is the number of skips (a
    substitution is one of each). The theorems show that every function of
    [DpAlign.v] returns an alignment of least cost without ever indexing out
    of range or running out of fuel, and that a work control can interrupt but
    never change a result. *)

From S2P Require Import Prelude WorkControl DpAlign.
From stdpp Require Import base decidable option list list_numbers sets strings numbers.

Open Scope Z_scope.

(** ** Alignments and their cost *)

Definition is_extra (r : AlignResult) : bool :=
  match r with Match _ _ _ => false | _ => true end.

(** The cost of a result list under the source's costs. *)
Definition cost (l : list AlignResult) : Z := Z.of_nat (count_if is_extra l).

Lemma cost_app l k : cost (l ++ k) = cost l + cost k.
Proof. unfold cost. rewrite count_if_app. lia. Qed.

Section facts.
Context {T : Type} `{Alignable T} (mode : Policy T).
Implicit Types (P R : list T) (p r : T) (L : list AlignResult).

(** [aligned P R po ro L]: [L] walks through payload [P] and reference [R],
    whose first items have indices [po] and [ro]. *)
Inductive aligned : list T -> list T -> nat -> nat -> list AlignResult -> Prop :=
| aligned_nil po ro : aligned [] [] po ro []
| aligned_match p r P R po ro L :
    matches r p mode = true -> aligned P R (S po) (S ro) L ->
    aligned (p :: P) (r :: R) po ro (Match (to_key r) po ro :: L)
| aligned_payload p P R po ro L :
    aligned P R (S po) ro L ->
    aligned (p :: P) R po ro (ExtraPayload (to_key p) po :: L)
| aligned_reference r P R po ro L :
    aligned P R po (S ro) L ->
    aligned P (r :: R) po ro (ExtraReference (to_key r) ro :: L).

(** The costs of the alignments of two sequences. *)
Inductive ali : list T -> list T -> Z -> Prop :=
| ali_nil : ali [] [] 0
| ali_match p r P R c : matches r p mode = true -> ali P R c -> ali (p :: P) (r :: R) c
| ali_payload p P R c : ali P R c -> ali (p :: P) R (c + 1)
| ali_reference r P R c : ali P R c -> ali P (r :: R) (c + 1).
Hint Constructors ali aligned : core.

(** [d] is the least cost of an alignment. *)
Definition opt P R (d : Z) : Prop := ali P R d /\ forall c, ali P R c -> d <= c.

Lemma aligned_ali P R po ro L : aligned P R po ro L -> ali P R (cost L).
Proof.
  induction 1 as [|p r P R po ro L Hm _ IH|p P R po ro L _ IH|r P R po ro L _ IH]; auto.
  - replace (cost _) with (cost L + 1) by (unfold cost; simpl; lia). auto.
  - replace (cost _) with (cost L + 1) by (unfold cost; simpl; lia). auto.
Qed.

Lemma ali_nonneg P R c : ali P R c -> 0 <= c.
Proof. induction 1; lia. Qed.

Lemma ali_app P1 R1 c1 P2 R2 c2 :
  ali P1 R1 c1 -> ali P2 R2 c2 -> ali (P1 ++ P2) (R1 ++ R2) (c1 + c2).
Proof.
  induction 1; intros H2; simpl; auto.
  - replace (c + 1 + c2) with (c + c2 + 1) by lia. auto.
  - replace (c + 1 + c2) with (c + c2 + 1) by lia. auto.
Qed.

Lemma ali_rev P R c : ali P R c -> ali (rev P) (rev R) c.
Proof.
  induction 1 as [|p r P R c Hm _ IH|p P R c _ IH|r P R c _ IH]; simpl; auto.
  - rewrite <- (Z.add_0_r c). apply ali_app; auto.
  - rewrite <- (app_nil_r (rev R)). apply ali_app; [done|]. apply (ali_payload _ [] [] 0). auto.
  - rewrite <- (app_nil_r (rev P)). apply ali_app; [done|]. apply (ali_reference _ [] [] 0). auto.
Qed.

Lemma ali_rev_iff P R c : ali (rev P) (rev R) c <-> ali P R c.
Proof.
  split; [|apply ali_rev]. intros Hr%ali_rev. by rewrite !rev_involutive in Hr.
Qed.

Lemma opt_rev P R d : opt (rev P) (rev R) d <-> opt P R d.
Proof. unfold opt. setoid_rewrite ali_rev_iff. done. Qed.

Lemma opt_unique P R d d' : opt P R d -> opt P R d' -> d = d'.
Proof. intros [H1 H2] [H3 H4]. specialize (H2 _ H3). specialize (H4 _ H1). lia. Qed.

Lemma ali_skip_payload P : ali P [] (Z.of_nat (length P)).
Proof.
  induction P as [|p P IH]; [auto|]. simpl length.
  rewrite Nat2Z.inj_succ, <- Z.add_1_r. auto.
Qed.

Lemma ali_skip_reference R : ali [] R (Z.of_nat (length R)).
Proof.
  induction R as [|r R IH]; [auto|]. simpl length.
  rewrite Nat2Z.inj_succ, <- Z.add_1_r. auto.
Qed.

Lemma opt_payload P : opt P [] (Z.of_nat (length P)).
Proof.
  split; [apply ali_skip_payload|]. intros c Hc. remember ([] : list T) as R eqn:HR.
  induction Hc; simplify_eq; simpl; [lia|]. specialize (IHHc eq_refl). lia.
Qed.

Lemma opt_reference R : opt [] R (Z.of_nat (length R)).
Proof.
  split; [apply ali_skip_reference|]. intros c Hc. remember ([] : list T) as P eqn:HP.
  induction Hc; simplify_eq; simpl; [lia|]. specialize (IHHc eq_refl). lia.
Qed.

Lemma opt_bound P R d : opt P R d -> d <= Z.of_nat (length P + length R).
Proof.
  intros [_ Hmin]. specialize (Hmin (Z.of_nat (length P) + Z.of_nat (length R))).
  rewrite Nat2Z.inj_add. apply Hmin.
  pose proof (ali_app P [] _ [] R _ (ali_skip_payload P) (ali_skip_reference R)) as Ha.
  by rewrite app_nil_r in Ha.
Qed.

(** The last step of an alignment. *)
Lemma ali_snoc_inv P R p r c :
  ali (P ++ [p]) (R ++ [r]) c ->
  (matches r p mode = true /\ ali P R c) \/
  ali P (R ++ [r]) (c - 1) \/ ali (P ++ [p]) R (c - 1).
Proof.
  intros Ha%ali_rev. rewrite !rev_app_distr in Ha. simpl in Ha.
  inversion Ha as [|? ? ? ? ? Hm Hr|? ? ? c' Hr|? ? ? c' Hr]; subst.
  - left. split; [done|]. by apply ali_rev_iff.
  - right; left. apply ali_rev_iff. rewrite rev_app_distr. simpl.
    by replace (c' + 1 - 1) with c' by lia.
  - right; right. apply ali_rev_iff. rewrite rev_app_distr. simpl.
    by replace (c' + 1 - 1) with c' by lia.
Qed.

Lemma ali_snoc_payload P R p c : ali P R c -> ali (P ++ [p]) R (c + 1).
Proof.
  intros Ha. rewrite <- (app_nil_r R). apply ali_app; [done|]. apply (ali_payload _ [] [] 0). auto.
Qed.

Lemma ali_snoc_reference P R r c : ali P R c -> ali P (R ++ [r]) (c + 1).
Proof.
  intros Ha. rewrite <- (app_nil_r P). apply ali_app; [done|]. apply (ali_reference _ [] [] 0). auto.
Qed.

Lemma ali_snoc_match P R p r c :
  matches r p mode = true -> ali P R c -> ali (P ++ [p]) (R ++ [r]) c.
Proof. intros Hm Ha. rewrite <- (Z.add_0_r c). apply ali_app; auto. Qed.

(** The recurrence every cell computes. *)
Lemma opt_step P R p r a b c :
  opt P R a -> opt (P ++ [p]) R b -> opt P (R ++ [r]) c ->
  opt (P ++ [p]) (R ++ [r])
    (Z.min (Z.min (a + (if matches r p mode then 0 else COST_SUB)) (b + COST_GAP)) (c + COST_GAP)).
Proof.
  intros [Ha Hamin] [Hb Hbmin] [Hc Hcmin]. unfold COST_SUB, COST_GAP. split.
  - assert (ali (P ++ [p]) (R ++ [r]) (b + 1)) as Hb' by (by apply ali_snoc_reference).
    assert (ali (P ++ [p]) (R ++ [r]) (c + 1)) as Hc' by (by apply ali_snoc_payload).
    assert (ali (P ++ [p]) (R ++ [r]) (a + (if matches r p mode then 0 else 2))) as Ha'.
    { destruct (matches r p mode) eqn:Hm.
      - rewrite Z.add_0_r. by apply ali_snoc_match.
      - replace (a + 2) with (a + 1 + 1) by lia.
        by apply ali_snoc_payload, ali_snoc_reference. }
    repeat match goal with |- ali _ _ (Z.min ?x ?y) =>
      destruct (Z.min_spec x y) as [[_ ->]|[_ ->]] end; auto.
    all: try (destruct (Z.min_spec (a + (if matches r p mode then 0 else 2)) (b + 1))
      as [[_ ->]|[_ ->]]; auto).
  - intros d [[Hm Hd]|[Hd|Hd]]%ali_snoc_inv.
    + rewrite Hm. specialize (Hamin _ Hd). lia.
    + specialize (Hcmin _ Hd). lia.
    + specialize (Hbmin _ Hd). lia.
Qed.

(** Cutting the reference in two cuts the payload in two. *)
Lemma ali_split P R1 R2 c :
  ali P (R1 ++ R2) c ->
  exists k c1 c2, (k <= length P)%nat /\ c = c1 + c2 /\ ali (take k P) R1 c1 /\ ali (drop k P) R2 c2.
Proof.
  remember (R1 ++ R2) as R eqn:HR. intros Ha. revert R1 HR.
  induction Ha as [|p r P R c Hm Ha IH|p P R c Ha IH|r P R c Ha IH]; intros R1 HR.
  - symmetry in HR. apply app_nil in HR as [-> ->]. exists 0%nat, 0, 0. auto.
  - destruct R1 as [|r1 R1]; simpl in HR.
    + exists 0%nat, 0, c. subst R2. split_and!; simpl; auto. lia.
    + injection HR as <- HR. destruct (IH R1 HR) as (k & c1 & c2 & Hk & -> & H1 & H2).
      exists (S k), c1, c2. simpl. split_and!; auto. lia.
  - destruct (IH R1 HR) as (k & c1 & c2 & Hk & -> & H1 & H2).
    exists (S k), (c1 + 1), c2. simpl. split_and!; auto; lia.
  - destruct R1 as [|r1 R1]; simpl in HR.
    + exists 0%nat, 0, (c + 1). subst R2. split_and!; simpl; auto; lia.
    + injection HR as <- HR. destruct (IH R1 HR) as (k & c1 & c2 & Hk & -> & H1 & H2).
      exists k, (c1 + 1), c2. split_and!; auto; lia.
Qed.

Lemma aligned_app P1 R1 L1 P2 R2 L2 po ro :
  aligned P1 R1 po ro L1 -> aligned P2 R2 (po + length P1) (ro + length R1) L2 ->
  aligned (P1 ++ P2) (R1 ++ R2) po ro (L1 ++ L2).
Proof.
  induction 1; simpl; rewrite ?Nat.add_0_r, ?Nat.add_succ_r; auto.
Qed.

(** ** The row pass *)

(** [row] holds the optimal cost of every payload prefix against [R]. *)
Definition is_row P R (row : list Z) : Prop :=
  length row = S (length P) /\
  forall k, (k <= length P)%nat -> exists d, row !! k = Some d /\ opt (take k P) R d.

Lemma first_row P : is_row P [] (Z.of_nat <$> seq 0 (S (length P))).
Proof.
  split; [by rewrite length_fmap, length_seq|]. intros k Hk. exists (Z.of_nat k). split.
  - rewrite list_lookup_fmap, lookup_seq_lt by lia. done.
  - pose proof (opt_payload (take k P)) as Ho. by rewrite length_take_le in Ho by lia.
Qed.

Context {C : WorkControl}.

(** After [pay_idx] items, [cur] holds the new row up to there. *)
Lemma row_loop_spec r P R prev rest pay_idx cur :
  is_row P R prev -> rest = drop pay_idx P -> (pay_idx <= length P)%nat ->
  length cur = S pay_idx ->
  (forall k, (k <= pay_idx)%nat ->
     exists d, cur !! k = Some d /\ opt (take k P) (R ++ [r]) d) ->
  wp (C:=C) (row_loop mode r rest pay_idx prev cur) (is_row P (R ++ [r])).
Proof.
  intros [Hlen Hprev]. revert pay_idx cur.
  induction rest as [|p rest IH]; intros pay_idx cur Hrest Hidx Hcur Hk; cbn [row_loop].
  - apply wp_ret. assert (length (drop pay_idx P) = 0%nat) as Hl by (by rewrite <- Hrest).
    rewrite length_drop in Hl. split; [lia|]. intros k Hkl. apply Hk. lia.
  - assert (P !! pay_idx = Some p) as Hp.
    { rewrite <- (Nat.add_0_r pay_idx), <- lookup_drop, <- Hrest. done. }
    pose proof (lookup_lt_Some _ _ _ Hp) as Hlt.
    destruct (Hprev pay_idx) as (a & Ha & Hao); [lia|].
    destruct (Hprev (pay_idx + 1)%nat) as (b & Hb & Hbo); [lia|].
    destruct (Hk pay_idx) as (c & Hc & Hco); [lia|].
    eapply (wp_step _ _ (fun _ => True));
      [destruct (_ =? _)%nat; [by apply wp_checkpoint|by apply wp_ret]|intros _ _].
    eapply wp_index_step; [done|]. eapply wp_index_step; [done|]. eapply wp_index_step; [done|].
    rewrite Nat.add_1_r in *. apply IH.
    + by rewrite <- Nat.add_1_r, <- drop_drop, <- Hrest.
    + lia.
    + rewrite length_app. simpl. lia.
    + intros k Hkle. destruct (decide (k = S pay_idx)) as [->|Hne].
      * eexists. split; [apply list_lookup_middle; lia|].
        rewrite (take_S_r _ _ _ Hp) in *. by apply opt_step.
      * destruct (Hk k) as (d & Hd & Hdo); [lia|]. exists d. split; [|done].
        by apply lookup_app_l_Some.
Qed.

Lemma cost_rows_spec P R : wp (C:=C) (cost_rows mode R P) (is_row P R).
Proof.
  unfold cost_rows. apply wp_checkpoint_step.
  apply (wp_for_each _ _ (fun done row => is_row P done row)); [apply first_row| |done].
  intros done r rest prev _ Hrow. apply wp_checkpoint_step, wp_checkpoint_step.
  destruct (Hrow) as [Hlen Hprev]. destruct (Hprev 0%nat) as (a & Ha & Hao); [lia|].
  eapply wp_index_step; [done|]. apply row_loop_spec with (R := done); [done|by rewrite drop_0|lia|done|].
  intros k Hk. replace k with 0%nat by lia. exists (a + COST_GAP). split; [done|].
  pose proof (opt_reference done) as H1. pose proof (opt_reference (done ++ [r])) as H2.
  rewrite take_0 in *. rewrite (opt_unique _ _ _ _ Hao H1).
  rewrite length_app, Nat2Z.inj_add in H2. done.
Qed.

(** ** The full table *)

(** What a cell of the table says: its cost is optimal, and its action leads
    to a cell whose optimal cost it extends. *)
Definition good P R (i j : nat) (c : cell) : Prop :=
  opt (take j P) (take i R) (cell_cost c) /\
  let '(d, action, pi, pj) := c in
  match action with
  | ActStart => i = 0%nat /\ j = 0%nat
  | ActMatch =>
      i = S pi /\ j = S pj /\ opt (take pj P) (take pi R) d /\
      exists p r, P !! pj = Some p /\ R !! pi = Some r /\ matches r p mode = true
  | ActSubstitution => i = S pi /\ j = S pj /\ opt (take pj P) (take pi R) (d - 2)
  | ActExtraPayload => pi = i /\ j = S pj /\ opt (take pj P) (take pi R) (d - 1)
  | ActExtraReference => i = S pi /\ pj = j /\ opt (take pj P) (take pi R) (d - 1)
  end.

(** The cells [D] describes are filled. *)
Definition filled P R (D : nat -> nat -> Prop) (dp : list cell) : Prop :=
  length dp = ((length R + 1) * (length P + 1))%nat /\
  forall i j, (i <= length R)%nat -> (j <= length P)%nat -> D i j ->
    exists c, dp !! (i * (length P + 1) + j)%nat = Some c /\ good P R i j c.

Lemma flat_lt P R i j :
  (i <= length R)%nat -> (j <= length P)%nat ->
  (i * (length P + 1) + j < (length R + 1) * (length P + 1))%nat.
Proof. nia. Qed.

Lemma filled_store P R (D D' : nat -> nat -> Prop) dp i j c :
  (i <= length R)%nat -> (j <= length P)%nat -> good P R i j c ->
  (forall i' j', D' i' j' -> D i' j' \/ (i' = i /\ j' = j)) ->
  filled P R D dp -> filled P R D' (<[(i * (length P + 1) + j)%nat := c]> dp).
Proof.
  intros Hi Hj Hc HD [Hlen Hdp]. split; [by rewrite length_insert|]. intros i' j' Hi' Hj' Hd.
  destruct (decide (i' * (length P + 1) + j' = i * (length P + 1) + j)%nat) as [Heq|Hne].
  - apply flat_inj in Heq as [-> ->]; [|lia..]. exists c. split; [|done].
    apply list_lookup_insert_eq. rewrite Hlen. by apply flat_lt.
  - destruct (HD _ _ Hd) as [Hold|[-> ->]]; [|done]. rewrite list_lookup_insert_ne by done.
    by apply Hdp.
Qed.

Lemma filled_weaken P R (D D' : nat -> nat -> Prop) dp :
  (forall i j, D' i j -> (i <= length R)%nat -> (j <= length P)%nat -> D i j) ->
  filled P R D dp -> filled P R D' dp.
Proof. intros HD [Hlen Hdp]. split; [done|]. intros i j Hi Hj Hd. apply Hdp; auto. Qed.

(** Filling the cells of a border or of the inside, in order. *)
Lemma good_reference_border P R i :
  (i < length R)%nat ->
  good P R (S i) 0 (Z.of_nat (S i) * COST_GAP, ActExtraReference, i, 0%nat).
Proof.
  intros Hi. unfold good, cell_cost, COST_GAP; simpl fst. rewrite take_0, Z.mul_1_r.
  pose proof (opt_reference (take (S i) R)) as H1. pose proof (opt_reference (take i R)) as H2.
  rewrite length_take_le in H1, H2 by lia. split_and!; try done.
  by replace (Z.of_nat (S i) - 1) with (Z.of_nat i) by lia.
Qed.

Lemma good_payload_border P R j :
  (j < length P)%nat ->
  good P R 0 (S j) (Z.of_nat (S j) * COST_GAP, ActExtraPayload, 0%nat, j).
Proof.
  intros Hj. unfold good, cell_cost, COST_GAP; simpl fst. rewrite take_0, Z.mul_1_r.
  pose proof (opt_payload (take (S j) P)) as H1. pose proof (opt_payload (take j P)) as H2.
  rewrite length_take_le in H1, H2 by lia. split_and!; try done.
  by replace (Z.of_nat (S j) - 1) with (Z.of_nat j) by lia.
Qed.

Lemma fill_borders_spec P R :
  wp (C:=C) (fill_borders (length R + 1) (length P + 1))
    (filled P R (fun i j => i = 0%nat \/ j = 0%nat)).
Proof.
  unfold fill_borders. rewrite !Nat.add_sub.
  eapply (wp_step _ _ (filled P R (fun i j => j = 0%nat))).
  - apply (wp_for_seq _ _ _ (fun n => filled P R (fun i j => j = 0%nat /\ (i < n)%nat))).
    + split; [by rewrite length_replicate|]. intros i j Hi Hj [-> Hlt].
      replace i with 0%nat by lia. exists (0, ActStart, 0%nat, 0%nat). split.
      * apply lookup_replicate_2. lia.
      * split; [|done]. rewrite !take_0. apply (opt_payload []).
    + intros i dp Hi Hf. destruct i as [|i]; [lia|].
      rewrite <- (Nat.add_0_r (S i * _)) at 1. apply wp_store; [rewrite (proj1 Hf); nia|].
      replace (S i - 1)%nat with i by lia. eapply filled_store; [lia..| | |done].
      * apply good_reference_border. lia.
      * intros i' j' [-> Hlt]. destruct (decide (i' = S i)); [auto|]. left. split; [done|lia].
    + intros dp. apply filled_weaken. intros i j -> Hi _. split; [done|lia].
  - intros dp Hdp.
    apply (wp_for_seq _ _ _ (fun n => filled P R (fun i j => j = 0%nat \/ (i = 0%nat /\ (j < n)%nat)))).
    + revert Hdp. apply filled_weaken. intros i j [?|[_ ?]] _ _; lia.
    + intros j dp' Hj Hf. destruct j as [|j]; [lia|].
      change (S j) with (0 * (length P + 1) + S j)%nat at 1.
      apply wp_store; [rewrite (proj1 Hf); nia|].
      replace (S j - 1)%nat with j by lia. eapply filled_store; [lia..| | |done].
      * apply good_payload_border. lia.
      * intros i' j' Hd. destruct (decide (i' = 0%nat /\ j' = S j)); [tauto|]. left. lia.
    + intros dp'. apply filled_weaken. lia.
Qed.

(** The three-way choice of a cell, with the recurrence of [opt_step]. *)
Lemma good_choice P R i j p r a b c :
  P !! j = Some p -> R !! i = Some r ->
  opt (take j P) (take i R) a -> opt (take (S j) P) (take i R) b ->
  opt (take j P) (take (S i) R) c ->
  let sub := a + (if matches r p mode then 0 else COST_SUB) in
  let del := b + COST_GAP in
  let ins := c + COST_GAP in
  good P R (S i) (S j)
    (if (sub <=? del) && (sub <=? ins) then
       (sub, if matches r p mode then ActMatch else ActSubstitution, i, j)
     else if (del <=? sub) && (del <=? ins) then (del, ActExtraReference, i, S j)
     else (ins, ActExtraPayload, S i, j)).
Proof.
  intros Hp Hr Ha Hb Hc sub del ins.
  assert (opt (take (S j) P) (take (S i) R) (Z.min (Z.min sub del) ins)) as Hmin.
  { rewrite (take_S_r _ _ _ Hp), (take_S_r _ _ _ Hr) in *. by apply opt_step. }
  assert (forall d, d = Z.min (Z.min sub del) ins -> opt (take (S j) P) (take (S i) R) d)
    as Hd by (by intros d ->).
  destruct ((sub <=? del) && (sub <=? ins)) eqn:H1.
  - bool_to_prop. split; [apply Hd; unfold cell_cost; cbn [fst]; lia|]. subst sub.
    destruct (matches r p mode) eqn:Hm.
    + rewrite Z.add_0_r. eauto 10.
    + unfold COST_SUB. by replace (a + 2 - 2) with a by lia.
  - apply andb_false_iff in H1. rewrite !Z.leb_gt in H1.
    destruct ((del <=? sub) && (del <=? ins)) eqn:H2.
    + bool_to_prop. split; [apply Hd; unfold cell_cost; cbn [fst]; lia|]. subst del.
      unfold COST_GAP. by replace (b + 1 - 1) with b by lia.
    + apply andb_false_iff in H2. rewrite !Z.leb_gt in H2.
      split; [apply Hd; unfold cell_cost; cbn [fst]; lia|]. subst ins.
      unfold COST_GAP. by replace (c + 1 - 1) with c by lia.
Qed.

Lemma fill_cell_spec P R i j (D : nat -> nat -> Prop) dp :
  (i < length R)%nat -> (j < length P)%nat ->
  D i j -> D i (S j) -> D (S i) j -> filled P R D dp ->
  wp (C:=C) (fill_cell mode P R (length P + 1) (S i) (S j) dp)
    (filled P R (fun i' j' => D i' j' \/ (i' = S i /\ j' = S j))).
Proof.
  intros Hi Hj D1 D2 D3 Hf. pose proof Hf as [Hlen Hdp]. unfold fill_cell.
  eapply (wp_step _ _ (fun _ => True));
    [destruct (_ =? _)%nat; [by apply wp_checkpoint|by apply wp_ret]|intros _ _].
  replace (S i - 1)%nat with i by lia. replace (S j - 1)%nat with j by lia.
  destruct (lookup_lt_is_Some_2 _ _ Hi) as [r Hr]. destruct (lookup_lt_is_Some_2 _ _ Hj) as [p Hp].
  destruct (Hdp i j) as (ca & Hca & Hga & _); [lia|lia|done|].
  destruct (Hdp i (S j)) as (cb & Hcb & Hgb & _); [lia|lia|done|].
  destruct (Hdp (S i) j) as (cc & Hcc & Hgc & _); [lia|lia|done|].
  do 5 (eapply wp_index_step; [done|]).
  apply wp_store; [rewrite Hlen; apply flat_lt; lia|].
  eapply filled_store; [lia|lia| |by intros i' j'|exact Hf].
  by apply good_choice.
Qed.

Lemma fill_table_spec P R :
  wp (C:=C) (fill_table mode P R) (filled P R (fun _ _ => True)).
Proof.
  unfold fill_table. eapply wp_step; [apply fill_borders_spec|]. rewrite !Nat.add_sub.
  intros dp Hdp.
  apply (wp_for_seq _ _ _ (fun n => filled P R
    (fun i j => i = 0%nat \/ j = 0%nat \/ (i < n)%nat))).
  - revert Hdp. apply filled_weaken. lia.
  - intros [|i] dp' Hi Hdp'; [lia|].
    apply (wp_for_seq _ _ _ (fun m => filled P R
      (fun i' j' => i' = 0%nat \/ j' = 0%nat \/ (i' < S i)%nat \/ (i' = S i /\ (j' < m)%nat)))).
    + revert Hdp'. apply filled_weaken. lia.
    + intros [|j] dp'' Hj Hdp''; [lia|].
      eapply wp_mono; [eapply fill_cell_spec; [lia|lia| | | |exact Hdp'']; simpl; lia|].
      intros a. apply filled_weaken. intros i' j' Hd _ _.
      destruct (decide (i' = S i /\ j' = S j)); [tauto|]. left. lia.
    + intros dp''. apply filled_weaken. lia.
  - intros dp'. apply filled_weaken. intros i j _ Hi Hj. lia.
Qed.

(** ** The traceback *)

Lemma aligned_snoc P R po ro L p r :
  aligned P R po ro L ->
  (matches r p mode = true ->
   aligned (P ++ [p]) (R ++ [r]) po ro
     (L ++ [Match (to_key r) (po + length P) (ro + length R)])) /\
  aligned (P ++ [p]) R po ro (L ++ [ExtraPayload (to_key p) (po + length P)]) /\
  aligned P (R ++ [r]) po ro (L ++ [ExtraReference (to_key r) (ro + length R)]) /\
  aligned (P ++ [p]) (R ++ [r]) po ro
    (L ++ [ExtraReference (to_key r) (ro + length R); ExtraPayload (to_key p) (po + length P)]).
Proof.
  intros HL. split_and!.
  - intros Hm. eapply aligned_app; [done|]. by repeat constructor.
  - rewrite <- (app_nil_r R). eapply aligned_app; [done|]. rewrite ?app_nil_r. repeat constructor.
  - rewrite <- (app_nil_r P). eapply aligned_app; [done|]. rewrite ?app_nil_r. repeat constructor.
  - eapply aligned_app; [done|]. repeat constructor.
Qed.

Definition traces P R po ro i j d (out out' : list AlignResult) : Prop :=
  exists L, out' = out ++ rev L /\ aligned (take j P) (take i R) po ro L /\ cost L = d.

(** One more pushed result, under the rest of the walk. *)
Lemma traces_extend P R po ro i j d i' j' d' out K out' :
  (forall L, aligned (take j P) (take i R) po ro L -> cost L = d ->
     aligned (take j' P) (take i' R) po ro (L ++ K) /\ cost (L ++ K) = d') ->
  traces P R po ro i j d (out ++ rev K) out' -> traces P R po ro i' j' d' out out'.
Proof.
  intros Hext (L & -> & HL & Hd). destruct (Hext L HL Hd) as [Ha Hc].
  exists (L ++ K). split_and!; auto. by rewrite rev_app_distr, app_assoc.
Qed.

Lemma traceback_spec P R po ro dp fuel i j d out :
  filled P R (fun _ _ => True) dp ->
  (i <= length R)%nat -> (j <= length P)%nat -> (i + j <= fuel)%nat ->
  opt (take j P) (take i R) d ->
  wp (C:=C) (traceback fuel P R po ro (length P + 1) dp i j out)
    (traces P R po ro i j d out).
Proof.
  intros [_ Hdp]. revert i j d out. induction fuel as [|fuel IH];
    intros i j d out Hi Hj Hfuel Hopt; cbn [traceback].
  - assert (i = 0%nat) as -> by lia. assert (j = 0%nat) as -> by lia. apply wp_ret.
    exists []. rewrite app_nil_r, !take_0 in *. split_and!; [done|constructor|].
    by rewrite (opt_unique _ _ _ _ Hopt (opt_payload [])).
  - destruct (negb _) eqn:Hz.
    { bool_to_prop. assert (i = 0%nat) as -> by lia. assert (j = 0%nat) as -> by lia.
      apply wp_ret. exists []. rewrite app_nil_r, !take_0 in *. split_and!; [done|constructor|].
      by rewrite (opt_unique _ _ _ _ Hopt (opt_payload [])). }
    destruct (Hdp i j Hi Hj I) as ([[[d' action] pi] pj] & Hc & Hco & Hact).
    unfold cell_cost in Hco; cbn [fst] in Hco. rewrite <- (opt_unique _ _ _ _ Hopt Hco) in Hact.
    eapply wp_index_step; [done|]. apply wp_checkpoint_step. destruct action.
    + destruct Hact as [-> ->]. done.
    + destruct Hact as (-> & -> & Hpred & p & r & Hp & Hr & Hm). eapply wp_index_step; [done|].
      eapply wp_mono; [apply (IH pi pj d); [lia..|done]|]. intros out'.
      apply (traces_extend _ _ _ _ _ _ _ _ _ _ _ [Match (to_key r) (po + pj) (ro + pi)]).
      intros L HL HLc. rewrite (take_S_r _ _ _ Hp), (take_S_r _ _ _ Hr), cost_app.
      destruct (aligned_snoc _ _ _ _ _ p r HL) as (Ha & _). specialize (Ha Hm).
      rewrite !length_take_le in Ha by lia. split; [done|]. unfold cost at 2; simpl. lia.
    + destruct Hact as (-> & -> & Hpred).
      destruct (lookup_lt_is_Some_2 P pj) as [p Hp]; [lia|].
      destruct (lookup_lt_is_Some_2 R pi) as [r Hr]; [lia|].
      eapply wp_index_step; [done|]. eapply wp_index_step; [done|].
      eapply wp_mono; [apply (IH pi pj (d - 2)); [lia..|done]|]. intros out'.
      apply (traces_extend _ _ _ _ _ _ _ _ _ _ _
        [ExtraReference (to_key r) (ro + pi); ExtraPayload (to_key p) (po + pj)]).
      intros L HL HLc. rewrite (take_S_r _ _ _ Hp), (take_S_r _ _ _ Hr), cost_app.
      destruct (aligned_snoc _ _ _ _ _ p r HL) as (_ & _ & _ & Ha).
      rewrite !length_take_le in Ha by lia. split; [done|]. unfold cost at 2; simpl. lia.
    + destruct Hact as (-> & -> & Hpred).
      destruct (lookup_lt_is_Some_2 P pj) as [p Hp]; [lia|]. eapply wp_index_step; [done|].
      eapply wp_mono; [apply (IH i pj (d - 1)); [lia..|done]|]. intros out'.
      apply (traces_extend _ _ _ _ _ _ _ _ _ _ _ [ExtraPayload (to_key p) (po + pj)]).
      intros L HL HLc. rewrite (take_S_r _ _ _ Hp), cost_app.
      destruct (aligned_snoc _ _ _ _ _ p p HL) as (_ & Ha & _).
      rewrite !length_take_le in Ha by lia. split; [done|]. unfold cost at 2; simpl. lia.
    + destruct Hact as (-> & -> & Hpred).
      destruct (lookup_lt_is_Some_2 R pi) as [r Hr]; [lia|]. eapply wp_index_step; [done|].
      eapply wp_mono; [apply (IH pi j (d - 1)); [lia..|done]|]. intros out'.
      apply (traces_extend _ _ _ _ _ _ _ _ _ _ _ [ExtraReference (to_key r) (ro + pi)]).
      intros L HL HLc. rewrite (take_S_r _ _ _ Hr), cost_app.
      destruct (aligned_snoc _ _ _ _ _ r r HL) as (_ & _ & Ha & _).
      rewrite !length_take_le in Ha by lia. split; [done|]. unfold cost at 2; simpl. lia.
Qed.

(** An alignment of least cost. *)
Definition best_alignment P R po ro L : Prop := aligned P R po ro L /\ opt P R (cost L).

Lemma align_small_spec P R po ro :
  wp (C:=C) (align_small P R po ro mode) (best_alignment P R po ro).
Proof.
  unfold align_small. do 2 apply wp_checkpoint_step.
  eapply wp_step; [apply fill_table_spec|]. intros dp Hdp. rewrite !Nat.add_sub.
  destruct (proj2 Hdp (length R) (length P)) as (c & _ & Hc & _); [done..|].
  rewrite !take_ge in Hc by lia.
  eapply wp_step; [eapply (traceback_spec P R po ro dp _ _ _ (cell_cost c)); try done; try lia;
    by rewrite !take_ge by lia|].
  intros out (L & -> & HL & Hcost). rewrite !take_ge in HL by lia.
  apply wp_ret. simpl. rewrite rev_involutive. split; [done|by rewrite Hcost].
Qed.

(** ** The split *)

(** The pair of rows gives, for each cut, the least cost through it. *)
Lemma rows_cut P R1 R2 left_row right_row k :
  is_row P R1 left_row -> is_row (rev P) (rev R2) right_row -> (k <= length P)%nat ->
  exists a b, left_row !! k = Some a /\ right_row !! (length P - k)%nat = Some b /\
    opt (take k P) R1 a /\ opt (drop k P) R2 b.
Proof.
  intros [_ Hl] [_ Hr] Hk. destruct (Hl k Hk) as (a & Ha & Hao).
  destruct (Hr (length P - k)%nat) as (b & Hb & Hbo); [rewrite length_rev; lia|].
  exists a, b. split_and!; try done. apply opt_rev.
  replace (rev (drop k P)) with (take (length P - k) (rev P)); [done|].
  rewrite firstn_rev. do 2 f_equal. lia.
Qed.

Lemma find_split_spec P R1 R2 left_row right_row :
  is_row P R1 left_row -> is_row (rev P) (rev R2) right_row ->
  Z.of_nat (length P + length R1 + length R2) < usize_max ->
  wp (C:=C) (find_split left_row right_row (length P)) (fun k =>
    (k <= length P)%nat /\
    forall a b, opt (take k P) R1 a -> opt (drop k P) R2 b -> opt P (R1 ++ R2) (a + b)).
Proof.
  intros Hl Hr Hfits. unfold find_split.
  set (I := fun (n : nat) (s : nat * Z) =>
    (forall k a b, (k < n)%nat -> (k <= length P)%nat -> opt (take k P) R1 a ->
       opt (drop k P) R2 b -> s.2 <= a + b) /\
    ((0 < n)%nat -> (s.1 <= length P)%nat /\
       forall a b, opt (take s.1 P) R1 a -> opt (drop s.1 P) R2 b -> a + b = s.2) /\
    (n = 0%nat -> s.2 = usize_max)).
  eapply (wp_step _ _ (I (S (length P)))).
  - apply (wp_for_seq _ _ _ I); [split_and!; simpl; intros; lia| |done].
    intros k [split best] Hk (Hmin & Hat & Hinit). simpl in *.
    destruct (rows_cut P R1 R2 left_row right_row k) as (a & b & Ha & Hb & Hao & Hbo); [done..|lia|].
    eapply wp_index_step; [done|]. eapply wp_index_step; [done|].
    destruct (Z.ltb_spec (a + b) best); apply wp_ret; split_and!; simpl; try lia.
    + intros k' a' b' Hk' Hk'' Ha' Hb'. destruct (decide (k' = k)) as [->|].
      * rewrite (opt_unique _ _ _ _ Ha' Hao), (opt_unique _ _ _ _ Hb' Hbo). lia.
      * pose proof (Hmin k' a' b' ltac:(lia) Hk'' Ha' Hb'). lia.
    + intros _. split; [lia|]. intros a' b' Ha' Hb'.
      by rewrite (opt_unique _ _ _ _ Ha' Hao), (opt_unique _ _ _ _ Hb' Hbo).
    + intros k' a' b' Hk' Hk'' Ha' Hb'. destruct (decide (k' = k)) as [->|].
      * rewrite (opt_unique _ _ _ _ Ha' Hao), (opt_unique _ _ _ _ Hb' Hbo). lia.
      * by apply (Hmin k'); [lia|..].
    + intros _. destruct (decide (k = 0%nat)) as [->|]; [|by apply Hat; lia].
      apply opt_bound in Hao, Hbo. rewrite length_take, length_drop in *.
      rewrite Hinit in * by done. lia.
  - intros [split best] (Hmin & Hat & _). apply wp_ret. destruct (Hat ltac:(lia)) as [Hs Heq].
    split; [done|]. simpl in *. intros a b Ha Hb. split.
    + rewrite <- (take_drop split P). by apply ali_app; [apply Ha|apply Hb].
    + intros c (k & c1 & c2 & Hk & -> & H1 & H2)%ali_split.
      destruct (rows_cut P R1 R2 left_row right_row k) as (a' & b' & _ & _ & Ha' & Hb'); [done..|].
      pose proof (Hmin k a' b' ltac:(lia) Hk Ha' Hb'). rewrite (Heq a b Ha Hb).
      apply (proj2 Ha') in H1. apply (proj2 Hb') in H2. lia.
Qed.

(** ** The recursion *)

Lemma aligned_payload_only P po ro :
  aligned P [] po ro (imap (fun i k => ExtraPayload (to_key k) (po + i)) P).
Proof.
  revert po. induction P as [|p P IH]; intros po; [constructor|]. rewrite imap_cons.
  rewrite Nat.add_0_r. constructor. erewrite imap_ext; [apply IH|].
  intros i x _; simpl. f_equal. lia.
Qed.

Lemma aligned_reference_only R po ro :
  aligned [] R po ro (imap (fun i k => ExtraReference (to_key k) (ro + i)) R).
Proof.
  revert ro. induction R as [|r R IH]; intros ro; [constructor|]. rewrite imap_cons.
  rewrite Nat.add_0_r. constructor. erewrite imap_ext; [apply IH|].
  intros i x _; simpl. f_equal. lia.
Qed.

Lemma best_payload_only P po ro :
  best_alignment P [] po ro (imap (fun i k => ExtraPayload (to_key k) (po + i)) P).
Proof.
  pose proof (aligned_payload_only P po ro) as Ha. split; [done|].
  split; [by eapply aligned_ali|]. intros c Hc. apply (opt_payload P) in Hc.
  enough (cost (imap (fun i k => ExtraPayload (to_key k) (po + i)) P) = Z.of_nat (length P)) by lia.
  unfold cost. f_equal. rewrite <- (length_imap (fun i k => ExtraPayload (to_key k) (po + i))).
  apply count_if_all, Forall_forall. intros x Hx%list_elem_of_In%list_elem_of_lookup.
  destruct Hx as [i Hx]. rewrite list_lookup_imap, fmap_Some in Hx. by destruct Hx as (? & _ & ->).
Qed.

Lemma best_reference_only R po ro :
  best_alignment [] R po ro (imap (fun i k => ExtraReference (to_key k) (ro + i)) R).
Proof.
  pose proof (aligned_reference_only R po ro) as Ha. split; [done|].
  split; [by eapply aligned_ali|]. intros c Hc. apply (opt_reference R) in Hc.
  enough (cost (imap (fun i k => ExtraReference (to_key k) (ro + i)) R) = Z.of_nat (length R)) by lia.
  unfold cost. f_equal. rewrite <- (length_imap (fun i k => ExtraReference (to_key k) (ro + i))).
  apply count_if_all, Forall_forall. intros x Hx%list_elem_of_In%list_elem_of_lookup.
  destruct Hx as [i Hx]. rewrite list_lookup_imap, fmap_Some in Hx. by destruct Hx as (? & _ & ->).
Qed.

(** One divide step, given that the two halves are aligned best. *)
Lemma best_alignment_app P R1 R2 k po ro L1 L2 :
  (k <= length P)%nat ->
  (forall a b, opt (take k P) R1 a -> opt (drop k P) R2 b -> opt P (R1 ++ R2) (a + b)) ->
  best_alignment (take k P) R1 po ro L1 ->
  best_alignment (drop k P) R2 (po + k) (ro + length R1) L2 ->
  best_alignment P (R1 ++ R2) po ro (L1 ++ L2).
Proof.
  intros Hk Hsplit [H1 O1] [H2 O2]. split; [|by rewrite cost_app; apply Hsplit].
  rewrite <- (take_drop k P) at 1. apply aligned_app; [done|]. by rewrite length_take_le by lia.
Qed.

Lemma hirschberg_fuel_spec fuel P R po ro :
  (length R <= fuel)%nat -> Z.of_nat (length P + length R) < usize_max ->
  wp (C:=C) (hirschberg_fuel fuel P R po ro mode) (best_alignment P R po ro).
Proof.
  revert P R po ro. induction fuel as [|fuel IH]; intros P R po ro Hfuel Hfits;
    cbn [hirschberg_fuel]; apply wp_checkpoint_step.
  - destruct R; [|simpl in Hfuel; lia]. apply wp_checkpoint_step, wp_ret, best_payload_only.
  - destruct R as [|r0 R']; [apply wp_checkpoint_step, wp_ret, best_payload_only|].
    destruct P as [|p0 P']; [apply wp_checkpoint_step, wp_ret, best_reference_only|].
    set (P := p0 :: P') in *. set (R := r0 :: R') in *.
    destruct (_ || _) eqn:Hsmall; [apply align_small_spec|]. bool_to_prop.
    set (mid := (length R / 2)%nat).
    assert (0 < mid < length R)%nat as Hmid.
    { unfold mid. pose proof (Nat.div_mod_eq (length R) 2).
      pose proof (Nat.mod_upper_bound (length R) 2). lia. }
    apply wp_slice_to_step; [lia|]. apply wp_slice_from_step; [lia|]. apply wp_checkpoint_step.
    eapply wp_step; [apply cost_rows_spec|]. intros left_row Hl.
    eapply wp_step; [apply cost_rows_spec|]. intros right_row Hr. apply wp_checkpoint_step.
    eapply wp_step; [apply (find_split_spec P (take mid R) (drop mid R)); try done;
      rewrite length_take, length_drop; lia|].
    intros k [Hk Hsplit]. apply wp_slice_to_step; [done|].
    eapply wp_step; [apply IH; rewrite ?length_take; lia|]. intros L1 HL1.
    apply wp_slice_from_step; [done|].
    eapply wp_step; [apply IH; rewrite ?length_drop; lia|]. intros L2 HL2.
    apply wp_checkpoint_step, wp_ret. rewrite <- (take_drop mid R).
    eapply best_alignment_app; try done. by rewrite length_take_le by lia.
Qed.

(** ** Stripping the common ends *)

(** Comparison does not depend on which side asks. *)
Definition symmetric_matches : Prop := forall a b, matches a b mode = matches b a mode.

Definition pairs_match (A B : list T) : Prop := Forall2 (fun p r => matches r p mode = true) A B.

Lemma pairs_match_rev A B : pairs_match A B -> pairs_match (rev A) (rev B).
Proof. intros Hm. unfold pairs_match. rewrite !rev_alt. by apply Forall2_reverse. Qed.

(** Leaving out one item costs at most one skip more. *)
Lemma ali_drop_reference P R r c : ali P (r :: R) c -> exists c', c' <= c + 1 /\ ali P R c'.
Proof.
  remember (r :: R) as R' eqn:HR. intros Ha. revert r R HR.
  induction Ha as [|p r' P R' c Hm Ha _|p P R' c Ha IH|r' P R' c Ha _]; intros r R HR;
    simplify_eq.
  - exists (c + 1). split; [lia|]. by apply ali_payload.
  - destruct (IH _ _ eq_refl) as (c' & Hle & Hc'). exists (c' + 1). split; [lia|].
    by apply ali_payload.
  - exists c. split; [lia|done].
Qed.

Lemma ali_drop_payload P R p c : ali (p :: P) R c -> exists c', c' <= c + 1 /\ ali P R c'.
Proof.
  remember (p :: P) as P' eqn:HP. intros Ha. revert p P HP.
  induction Ha as [|p' r P' R c Hm Ha _|p' P' R c Ha _|r P' R c Ha IH]; intros p P HP;
    simplify_eq.
  - exists (c + 1). split; [lia|]. by apply ali_reference.
  - exists c. split; [lia|done].
  - destruct (IH _ _ eq_refl) as (c' & Hle & Hc'). exists (c' + 1). split; [lia|].
    by apply ali_reference.
Qed.

(** Matching two equal heads is never a loss. *)
Lemma opt_match_heads P R p r d :
  matches r p mode = true -> opt P R d -> opt (p :: P) (r :: R) d.
Proof.
  intros Hm [Hd Hmin]. split; [by apply ali_match|]. intros c Hc.
  inversion Hc as [|? ? ? ? ? ? Ha|? ? ? c' Ha|? ? ? c' Ha]; subst.
  - by apply Hmin.
  - apply ali_drop_reference in Ha as (c'' & Hle & Ha%Hmin). lia.
  - apply ali_drop_payload in Ha as (c'' & Hle & Ha%Hmin). lia.
Qed.

Lemma opt_prefix A B P R d : pairs_match A B -> opt P R d -> opt (A ++ P) (B ++ R) d.
Proof. induction 1; simpl; [done|]. intros Ho. apply opt_match_heads; auto. Qed.

Lemma opt_suffix A B P R d : pairs_match A B -> opt P R d -> opt (P ++ A) (R ++ B) d.
Proof.
  intros Hm Ho. apply opt_rev. rewrite !rev_app_distr. apply opt_prefix; [|by apply opt_rev].
  by apply pairs_match_rev.
Qed.

Lemma aligned_pairs A B po ro :
  pairs_match A B ->
  aligned A B po ro (imap (fun i r => Match (to_key r) (po + i) (ro + i)) B).
Proof.
  intros Hm. revert po ro. induction Hm as [|p r A B Hpr _ IH]; intros po ro; [constructor|].
  rewrite imap_cons, !Nat.add_0_r. constructor; [done|]. erewrite imap_ext; [apply IH|].
  intros i x _; simpl. f_equal; lia.
Qed.

Lemma cost_pairs (g : nat -> nat) (h : nat -> nat) (B : list T) :
  cost (imap (fun i r => Match (to_key r) (g i) (h i)) B) = 0.
Proof.
  unfold cost. rewrite (proj2 (count_if_zero _ _)); [done|]. apply Forall_forall.
  intros x Hx%list_elem_of_In%list_elem_of_lookup. destruct Hx as [i Hx].
  rewrite list_lookup_imap, fmap_Some in Hx. by destruct Hx as (? & _ & ->).
Qed.

Lemma matching_run_spec P R :
  symmetric_matches ->
  wp (C:=C) (matching_run P R mode) (fun n =>
    (n <= length P)%nat /\ (n <= length R)%nat /\ pairs_match (take n P) (take n R)).
Proof.
  intros Hsym. revert R. induction P as [|p P IH]; intros [|r R]; cbn [matching_run];
    try (apply wp_ret; split_and!; simpl; try lia; constructor).
  apply wp_checkpoint_step. destruct (matches p r mode) eqn:Hm; simpl.
  - eapply wp_step; [apply IH|]. intros n (H1 & H2 & H3). apply wp_ret.
    split_and!; simpl; [lia..|]. constructor; [by rewrite Hsym|done].
  - apply wp_ret. split_and!; simpl; try lia. constructor.
Qed.

(** The pieces a sequence is cut into by a prefix and a suffix length. *)
Lemma three_pieces {A} (l : list A) n s :
  (n <= length l)%nat -> (s <= length l - n)%nat ->
  l = take n l ++ take (length l - s - n) (drop n l) ++ drop (length l - s) l.
Proof.
  intros Hn Hs. rewrite <- (take_drop n l) at 1. f_equal.
  rewrite <- (take_drop (length l - s - n) (drop n l)) at 1. f_equal.
  rewrite drop_drop. f_equal. lia.
Qed.

Lemma suffix_pairs P R n s :
  (n <= length P)%nat -> (n <= length R)%nat ->
  (s <= length P - n)%nat -> (s <= length R - n)%nat ->
  pairs_match (take s (rev (drop n P))) (take s (rev (drop n R))) ->
  pairs_match (drop (length P - s) P) (drop (length R - s) R).
Proof.
  intros HnP HnR HsP HsR Hm%pairs_match_rev. rewrite !firstn_rev in Hm.
  rewrite !rev_involutive, !length_drop, !drop_drop in Hm.
  replace (n + (length P - n - s))%nat with (length P - s)%nat in Hm by lia.
  by replace (n + (length R - n - s))%nat with (length R - s)%nat in Hm by lia.
Qed.

Lemma align_generic_spec P R :
  symmetric_matches -> Z.of_nat (length P + length R) < usize_max ->
  wp (C:=C) (align_generic P R mode) (best_alignment P R 0 0).
Proof.
  intros Hsym Hfits. unfold align_generic. apply wp_checkpoint_step.
  eapply wp_step; [by apply matching_run_spec|]. intros n (HnP & HnR & Hpre).
  apply wp_slice_from_step; [done|]. apply wp_slice_from_step; [done|].
  eapply wp_step; [by apply matching_run_spec|].
  rewrite !length_rev, !length_drop. intros s (HsP & HsR & Hsuf).
  apply wp_checkpoint_step. apply wp_slice_range_step; [lia|]. apply wp_slice_range_step; [lia|].
  eapply wp_step; [apply hirschberg_fuel_spec; [done|]; rewrite !length_take, !length_drop; lia|].
  intros M [HM OM]. apply wp_checkpoint_step.
  apply suffix_pairs in Hsuf; [|done..].
  set (pre := imap (fun i r => Match (to_key r) i i) (take n R)) in *.
  set (post := fun i r => Match (to_key r) (length P - s + i) (length R - s + i)).
  apply (wp_for_seq _ _ _ (fun i out => out = pre ++ M ++ imap post (take i (drop (length R - s) R)))).
  - by rewrite take_0, app_nil_r.
  - intros i out Hi ->. destruct (lookup_lt_is_Some_2 (drop (length R - s) R) i) as [r Hr];
      [rewrite length_drop; lia|].
    eapply wp_index_step; [by rewrite <- lookup_drop|]. apply wp_ret.
    rewrite (take_S_r _ _ _ Hr), imap_app, length_take_le, <- !app_assoc by (rewrite length_drop; lia).
    simpl. by rewrite Nat.add_0_r.
  - intros out ->. rewrite Nat.add_0_l, take_ge by (rewrite length_drop; lia).
    rewrite (three_pieces P n s), (three_pieces R n s) at 1 by lia. split.
    + apply aligned_app; [by apply (aligned_pairs _ _ 0 0)|].
      rewrite !length_take_le by lia. simpl. apply aligned_app; [done|].
      rewrite !length_take_le by (rewrite length_drop; lia).
      replace (n + (length P - s - n))%nat with (length P - s)%nat by lia.
      replace (n + (length R - s - n))%nat with (length R - s)%nat by lia.
      by apply aligned_pairs.
    + rewrite !cost_app. unfold pre, post. rewrite (cost_pairs (fun i => i) (fun i => i)).
      rewrite (cost_pairs (fun i => length P - s + i)%nat (fun i => length R - s + i)%nat).
      rewrite Z.add_0_l, Z.add_0_r.
      apply opt_prefix; [done|]. by apply opt_suffix.
Qed.

End facts.

(** ** A control interrupts, and changes nothing else *)

Section control.
Context {T : Type} `{Alignable T} (mode : Policy T) {C D : WorkControl}.

Lemma row_loop_agree r P i prev cur :
  agree (C:=C) (D:=D) (row_loop mode r P i prev cur) (row_loop mode r P i prev cur).
Proof.
  revert i cur. induction P as [|p P IH]; intros i cur; cbn [row_loop]; solve_agree.
Qed.

Lemma cost_rows_agree P R :
  agree (C:=C) (D:=D) (cost_rows mode R P) (cost_rows mode R P).
Proof. unfold cost_rows. solve_agree. apply row_loop_agree. Qed.

Lemma fill_table_agree P R :
  agree (C:=C) (D:=D) (fill_table mode P R) (fill_table mode P R).
Proof. unfold fill_table, fill_borders, fill_cell. solve_agree. Qed.

Lemma traceback_agree fuel P R po ro cols dp i j out :
  agree (C:=C) (D:=D) (traceback fuel P R po ro cols dp i j out)
    (traceback fuel P R po ro cols dp i j out).
Proof.
  revert i j out. induction fuel as [|fuel IH]; intros i j out; cbn [traceback]; solve_agree.
Qed.

Lemma align_small_agree P R po ro :
  agree (C:=C) (D:=D) (align_small P R po ro mode) (align_small P R po ro mode).
Proof.
  unfold align_small. pose proof (fill_table_agree P R). pose proof traceback_agree. solve_agree.
Qed.

Lemma find_split_agree l r n : agree (C:=C) (D:=D) (find_split l r n) (find_split l r n).
Proof. unfold find_split. solve_agree. Qed.

Lemma hirschberg_fuel_agree fuel P R po ro :
  agree (C:=C) (D:=D) (hirschberg_fuel fuel P R po ro mode) (hirschberg_fuel fuel P R po ro mode).
Proof.
  revert P R po ro. induction fuel as [|fuel IH]; intros P R po ro; cbn [hirschberg_fuel];
    pose proof align_small_agree; pose proof cost_rows_agree; pose proof find_split_agree;
    unfold row_costs, row_costs_rev; solve_agree.
Qed.

Lemma matching_run_agree P R :
  agree (C:=C) (D:=D) (matching_run P R mode) (matching_run P R mode).
Proof. revert R. induction P as [|p P IH]; intros [|r R]; cbn [matching_run]; solve_agree. Qed.

Lemma align_generic_agree P R :
  agree (C:=C) (D:=D) (align_generic P R mode) (align_generic P R mode).
Proof.
  unfold align_generic, hirschberg. pose proof matching_run_agree.
  pose proof hirschberg_fuel_agree. solve_agree.
Qed.

End control.

(** ** The policies of the source are symmetric *)

Lemma string_matches_symmetric policy : symmetric_matches (T:=string) policy.
Proof. intros a b. destruct policy; apply String.eqb_sym. Qed.

Lemma char_matches_symmetric policy : symmetric_matches (T:=char) policy.
Proof. intros a b. destruct policy; apply Z.eqb_sym. Qed.

(** [jaro_winkler] is a similarity: it does not depend on the order of its
    arguments. *)
Class SymmetricSimilarity `{FuzzyLibrary} : Prop :=
  jaro_winkler_comm : forall a b, jaro_winkler a b = jaro_winkler b a.

Lemma fuzzy_matches_symmetric `{SymmetricSimilarity} policy :
  symmetric_matches (T:=PreparedFuzzyWord) policy.
Proof.
  intros a b. simpl. unfold eq_ignore_ascii_case.
  by rewrite String.eqb_sym, jaro_winkler_comm.
Qed.

(** ** Properties *)

(** The bound every pair of vectors in memory satisfies: a [Vec] never holds
    more than [isize::MAX] bytes. *)
Definition in_memory {A} (l : list A) : Prop := Z.of_nat (length l) <= isize_max.

Lemma in_memory_fits {A B} (l : list A) (k : list B) :
  in_memory l -> in_memory k -> Z.of_nat (length l + length k) < usize_max.
Proof. unfold in_memory, isize_max, usize_max. lia. Qed.

Definition literal_mode (mode : MatchMode) : option LiteralMatchMode :=
  match mode with
  | Exact => Some LiteralExact
  | CaseInsensitive => Some AsciiInsensitive
  | Fuzzy _ => None
  end.

Section properties.
Context {T : Type} `{Alignable T}.
Implicit Types (P R : list T).

(** C1: the generic aligner, under any work control: whatever the state of
    the control, it ends in an alignment of the payload against the reference
    of least cost among all alignments, or in the caller's interruption; it
    never indexes or slices out of range and always terminates. *)
Theorem align_generic_is_optimal (C : WorkControl) (mode : Policy T) P R :
  symmetric_matches mode -> in_memory P -> in_memory R ->
  wp (C:=C) (align_generic P R mode) (best_alignment mode P R 0 0).
Proof. intros Hs HP HR. apply align_generic_spec; [done|by apply in_memory_fits]. Qed.

(** C17: a work control can interrupt an alignment but never changes its
    result: two runs under any two controls that both complete return the
    same list. *)
Theorem control_never_changes_the_alignment (C D : WorkControl) (mode : Policy T) P R s t L L' :
  (align_generic (C:=C) P R mode s).1 = Ok L -> (align_generic (C:=D) P R mode t).1 = Ok L' ->
  L = L'.
Proof.
  intros HL HL'. pose proof (align_generic_agree (C:=C) (D:=D) mode P R s t) as Ha.
  by rewrite HL, HL' in Ha.
Qed.

(** C18: the linear-space recursion is equivalent in cost to the full table:
    with enough fuel (the reference's length) both return an alignment, and
    the two alignments cost the same, whatever offsets they were given. *)
Theorem hirschberg_costs_what_the_full_table_costs (mode : Policy T) P R po ro :
  in_memory P -> in_memory R ->
  exists L L',
    uninterrupted (hirschberg P R po ro mode) = Some L /\
    uninterrupted (align_small P R po ro mode) = Some L' /\
    aligned mode P R po ro L /\ aligned mode P R po ro L' /\ cost L = cost L'.
Proof.
  intros HP HR.
  destruct (wp_uninterrupted _ _ (hirschberg_fuel_spec mode (length R) P R po ro (le_n _)
    (in_memory_fits _ _ HP HR))) as (L & HL & Ha & Ho).
  destruct (wp_uninterrupted _ _ (align_small_spec mode P R po ro)) as (L' & HL' & Ha' & Ho').
  exists L, L'. unfold uninterrupted, hirschberg. rewrite HL, HL'. split_and!; try done.
  by eapply opt_unique.
Qed.

(** The payload and reference indices a result list names, in order. *)
Definition payload_indices (L : list AlignResult) : list nat :=
  omap (fun x => match x with
                 | Match _ i _ | ExtraPayload _ i => Some i
                 | ExtraReference _ _ => None
                 end) L.
Definition reference_indices (L : list AlignResult) : list nat :=
  omap (fun x => match x with
                 | Match _ _ i | ExtraReference _ i => Some i
                 | ExtraPayload _ _ => None
                 end) L.

(** What one result says of the two sequences it was computed from. *)
Definition names_its_items (mode : Policy T) P R (po ro : nat) (x : AlignResult) : Prop :=
  match x with
  | Match key i j => exists m n p r, i = (po + m)%nat /\ j = (ro + n)%nat /\
      P !! m = Some p /\ R !! n = Some r /\ key = to_key r /\ matches r p mode = true
  | ExtraPayload key i => exists m p, i = (po + m)%nat /\ P !! m = Some p /\ key = to_key p
  | ExtraReference key j => exists n r, j = (ro + n)%nat /\ R !! n = Some r /\ key = to_key r
  end.

Definition accounts_for (mode : Policy T) P R (po ro : nat) (L : list AlignResult) : Prop :=
  payload_indices L = seq po (length P) /\ reference_indices L = seq ro (length R) /\
  Forall (names_its_items mode P R po ro) L.

(** Both sequences get longer at the front, by the items [ps] and [rs]. *)
Lemma names_its_items_shift mode ps rs P R po ro x :
  names_its_items mode P R (length ps + po) (length rs + ro) x ->
  names_its_items mode (ps ++ P) (rs ++ R) po ro x.
Proof.
  assert (forall (l k : list T) n, (l ++ k) !! (length l + n)%nat = k !! n) as Hl
    by (intros; rewrite lookup_app_r by lia; f_equal; lia).
  destruct x; simpl.
  - intros (m & n & p & r & -> & -> & Hp & Hr & Hk & Hm).
    exists (length ps + m)%nat, (length rs + n)%nat, p, r. rewrite !Hl. split_and!; (done || lia).
  - intros (m & p & -> & Hp & Hk). exists (length ps + m)%nat, p. rewrite Hl. split_and!; (done || lia).
  - intros (n & r & -> & Hr & Hk). exists (length rs + n)%nat, r. rewrite Hl. split_and!; (done || lia).
Qed.

Lemma aligned_accounts (mode : Policy T) P R po ro L :
  aligned mode P R po ro L -> accounts_for mode P R po ro L.
Proof.
  unfold accounts_for, payload_indices, reference_indices.
  induction 1 as [|p r P R po ro L Hm _ (IH1 & IH2 & IH3)|p P R po ro L _ (IH1 & IH2 & IH3)
    |r P R po ro L _ (IH1 & IH2 & IH3)]; [by repeat constructor|..]; cbn; rewrite IH1, IH2;
    (split_and!; [done..|]); constructor.
  - exists 0%nat, 0%nat, p, r. split_and!; (done || lia).
  - refine (list.Forall_impl _ _ _ IH3 _). intros x. apply (names_its_items_shift mode [p] [r]).
  - exists 0%nat, p. split_and!; (done || lia).
  - refine (list.Forall_impl _ _ _ IH3 _). intros x. apply (names_its_items_shift mode [p] []).
  - exists 0%nat, r. split_and!; (done || lia).
  - refine (list.Forall_impl _ _ _ IH3 _). intros x. apply (names_its_items_shift mode [] [r]).
Qed.

(** C39: every aligner accounts for every item exactly once and in order. Under
    any work control, what [align_generic], [hirschberg] and [align_small]
    return names the payload indices [po, po + 1, ...] up to the payload's end
    and no other, and the reference indices likewise; each result carries the
    key of the item its index names, and a match joins two items the comparison
    accepts. *)
Theorem alignment_names_every_index_once (C : WorkControl) (mode : Policy T) P R po ro :
  symmetric_matches mode -> in_memory P -> in_memory R ->
  wp (C:=C) (align_generic P R mode) (accounts_for mode P R 0 0) /\
  wp (C:=C) (hirschberg P R po ro mode) (accounts_for mode P R po ro) /\
  wp (C:=C) (align_small P R po ro mode) (accounts_for mode P R po ro).
Proof.
  intros Hs HP HR. pose proof (in_memory_fits _ _ HP HR) as Hfits. split_and!.
  - eapply wp_mono; [by apply align_generic_spec|]. intros L [HL _]. by apply aligned_accounts.
  - eapply wp_mono; [by apply hirschberg_fuel_spec|]. intros L [HL _]. by apply aligned_accounts.
  - eapply wp_mono; [by apply align_small_spec|]. intros L [HL _]. by apply aligned_accounts.
Qed.

End properties.

(** C16: [align] on strings, exact or case-insensitive, and [align_chars] on
    characters, in every mode: the call returns (no panic, no missing fuel) an
    alignment of least cost under the comparison the mode names. *)
Theorem align_entry_points_are_optimal `{FuzzyLibrary} payload reference mode policy cp cr cmode :
  in_memory payload -> in_memory reference -> literal_mode mode = Some policy ->
  in_memory cp -> in_memory cr ->
  (exists L, align payload reference mode = Some L /\
     best_alignment (H:=string_alignable) policy payload reference 0 0 L) /\
  (exists L, align_chars cp cr cmode = Some L /\
     best_alignment (H:=char_alignable)
       (match cmode with Exact => LiteralExact | _ => AsciiInsensitive end) cp cr 0 0 L).
Proof.
  intros HP HR Hmode Hcp Hcr. split.
  - destruct (wp_uninterrupted (align_controlled Uninterrupted payload reference mode)
      (best_alignment (H:=string_alignable) policy payload reference 0 0)) as (L & HL & Hbest).
    { unfold align_controlled. apply wp_checkpoint_step.
      destruct mode; simplify_eq/=;
        (apply align_generic_spec; [apply string_matches_symmetric|by apply in_memory_fits]). }
    exists L. unfold align, uninterrupted. by rewrite HL.
  - pose proof (fun policy => align_generic_spec (C:=Uninterrupted) (H:=char_alignable) policy cp cr
      (char_matches_symmetric policy) (in_memory_fits _ _ Hcp Hcr)) as Hspec.
    destruct (wp_uninterrupted _ _ (Hspec (match cmode with Exact => LiteralExact
      | _ => AsciiInsensitive end))) as (L & HL & Hbest).
    exists L. unfold align_chars, uninterrupted.
    destruct cmode; simpl in *; by rewrite HL.
Qed.

(** C19: fuzzy alignment: with a similarity that does not depend on the order
    of its arguments, [align] returns a least-cost alignment of the prepared
    words, in which two words match when they are equal ignoring ASCII case or
    similar up to the threshold. *)
Theorem fuzzy_align_is_optimal `{SymmetricSimilarity} payload reference threshold :
  in_memory payload -> in_memory reference ->
  exists L, align payload reference (Fuzzy threshold) = Some L /\
    best_alignment (H:=fuzzy_alignable) (mkFuzzyComparison threshold)
      (prepare_fuzzy_word <$> payload) (prepare_fuzzy_word <$> reference) 0 0 L.
Proof.
  intros HP HR.
  destruct (wp_uninterrupted (align_controlled Uninterrupted payload reference (Fuzzy threshold))
    (best_alignment (H:=fuzzy_alignable) (mkFuzzyComparison threshold)
      (prepare_fuzzy_word <$> payload) (prepare_fuzzy_word <$> reference) 0 0))
    as (L & HL & Hbest).
  { unfold align_controlled. do 2 apply wp_checkpoint_step.
    apply align_generic_spec; [apply fuzzy_matches_symmetric|].
    rewrite !length_fmap. by apply in_memory_fits. }
  exists L. unfold align, uninterrupted. by rewrite HL.
Qed.

(** ** Witnesses *)

Definition exact_library : FuzzyLibrary :=
  {| to_lowercase := lower;
     jaro_winkler := fun a b =>
       if String.eqb a b then SpecFloat.S754_finite false 4503599627370496 (-52)
       else SpecFloat.S754_zero false |}.

Lemma exact_library_symmetric : SymmetricSimilarity (H := exact_library).
Proof. intros a b. simpl. by rewrite String.eqb_sym. Qed.

Definition words1 : list string := ["the"; "big"; "dog"; "ran"].
Definition words2 : list string := ["The"; "dog"; "Dug"; "ran"].

Lemma words_in_memory : in_memory words1 /\ in_memory words2.
Proof. by split. Qed.

Lemma align_generic_is_optimal_witness :
  wp (C:=stop_after) (align_generic (H:=string_alignable) words1 words2 AsciiInsensitive)
    (best_alignment (H:=string_alignable) AsciiInsensitive words1 words2 0 0).
Proof.
  apply align_generic_is_optimal; [apply string_matches_symmetric|apply words_in_memory..].
Defined.

Lemma control_never_changes_the_alignment_witness :
  exists L, (align_generic (H:=string_alignable) (C:=stop_after) words1 words2 AsciiInsensitive 100%nat).1 = Ok L /\
    (align_generic (H:=string_alignable) (C:=Uninterrupted) words1 words2 AsciiInsensitive tt).1 = Ok L.
Proof.
  eexists. split; [vm_compute; reflexivity|].
  destruct (align_generic (H:=string_alignable) (C:=Uninterrupted) words1 words2 AsciiInsensitive tt) as [[L|] []] eqn:E;
    [|vm_compute in E; discriminate]. simpl. f_equal.
  eapply (control_never_changes_the_alignment (H:=string_alignable) Uninterrupted stop_after AsciiInsensitive
    words1 words2 tt 100%nat); [by rewrite E|vm_compute; reflexivity].
Defined.

Lemma hirschberg_costs_what_the_full_table_costs_witness :
  exists L L',
    uninterrupted (hirschberg (H:=string_alignable) words1 words2 3 5 AsciiInsensitive) = Some L /\
    uninterrupted (align_small (H:=string_alignable) words1 words2 3 5 AsciiInsensitive) = Some L' /\
    aligned (H:=string_alignable) AsciiInsensitive words1 words2 3 5 L /\
    aligned (H:=string_alignable) AsciiInsensitive words1 words2 3 5 L' /\ cost L = cost L'.
Proof. apply hirschberg_costs_what_the_full_table_costs; apply words_in_memory. Defined.

Lemma alignment_names_every_index_once_witness :
  wp (C:=stop_after) (align_generic (H:=string_alignable) words1 words2 AsciiInsensitive)
    (accounts_for (H:=string_alignable) AsciiInsensitive words1 words2 0 0).
Proof.
  refine (proj1 (alignment_names_every_index_once (H:=string_alignable) stop_after AsciiInsensitive
    words1 words2 3 5 _ _ _)); [apply string_matches_symmetric|apply words_in_memory..].
Defined.

Lemma align_entry_points_are_optimal_witness :
  (exists L, align (H := exact_library) words1 words2 CaseInsensitive = Some L /\
     best_alignment (H:=string_alignable) AsciiInsensitive words1 words2 0 0 L) /\
  (exists L, align_chars [Char 97] [Char 65] Exact = Some L /\
     best_alignment (H:=char_alignable) LiteralExact [Char 97] [Char 65] 0 0 L).
Proof.
  apply (align_entry_points_are_optimal (H := exact_library) words1 words2 CaseInsensitive
    AsciiInsensitive [Char 97] [Char 65] Exact); done.
Defined.

Lemma fuzzy_align_is_optimal_witness :
  exists L, align (H := exact_library) words1 words2
      (Fuzzy (SpecFloat.S754_finite false 4503599627370496 (-52))) = Some L /\
    best_alignment (H := @fuzzy_alignable exact_library)
      (mkFuzzyComparison (SpecFloat.S754_finite false 4503599627370496 (-52)))
      (prepare_fuzzy_word (H := exact_library) <$> words1)
      (prepare_fuzzy_word (H := exact_library) <$> words2) 0 0 L.
Proof.
  apply (fuzzy_align_is_optimal (H := exact_library) (H0 := exact_library_symmetric)); done.
Defined.
