(* ===== verification/PackedBits.v ===== *)
(** * Packed bit vectors, zero outside their length

    Models [crates/batchalign-transform/src/dp_align/zero_padded.rs]: a vector
    of 64-bit words with a declared length, its constructors and edits, and the
    window read that shifts it across word boundaries. A word is an integer in
    [0, 2^64), a left shift drops the bits past it. *)

From S2P Require Import Prelude.
From stdpp Require Import base decidable option list list_numbers strings numbers.

Open Scope Z_scope.

Inductive WindowStart :=
| At (offset : nat)
| Before (offset : nat).

Record PackedBits := mkBits {
  words : list Z;
  length_ : nat
}.

(** [usize::div_ceil(64)]. *)
Definition div_ceil64 (n : nat) : nat := ((n + 63) / 64)%nat.

(** [u64] shifts by less than 64. *)
Definition shl (w : Z) (s : nat) : Z := Z.shiftl w (Z.of_nat s) mod 2 ^ 64.
Definition shr (w : Z) (s : nat) : Z := Z.shiftr w (Z.of_nat s).

(** [*last &= (1 << (length % 64)) - 1] when the length ends inside a word. *)
Definition clear_past_length (b : PackedBits) : PackedBits :=
  if (length_ b mod 64 =? 0)%nat then b
  else
    {| words :=
         match list.last (words b) with
         | None => words b
         | Some w =>
             <[(length (words b) - 1)%nat :=
                 Z.land w (Z.shiftl 1 (Z.of_nat (length_ b mod 64)) - 1)]> (words b)
         end;
       length_ := length_ b |}.

Definition zeros (n : nat) : PackedBits :=
  {| words := replicate (div_ceil64 n) 0; length_ := n |}.

Definition from_fn (n : nat) (word : nat -> Z) : PackedBits :=
  clear_past_length {| words := word <$> seq 0 (div_ceil64 n); length_ := n |}.

(** The words are read in order and the first error is returned. *)
Fixpoint try_words {E} (blocks : list nat) (word : nat -> result E Z) : result E (list Z) :=
  match blocks with
  | [] => Ok []
  | block :: blocks =>
      match word block with
      | Err e => Err e
      | Ok w => match try_words blocks word with Err e => Err e | Ok ws => Ok (w :: ws) end
      end
  end.

Definition try_from_fn {E} (n : nat) (word : nat -> result E Z) : result E PackedBits :=
  match try_words (seq 0 (div_ceil64 n)) word with
  | Err e => Err e
  | Ok ws => Ok (clear_past_length {| words := ws; length_ := n |})
  end.

(** [Vec::resize(n, 0)], then the new length. *)
Definition resize (b : PackedBits) (n : nat) : PackedBits :=
  clear_past_length
    {| words := take (div_ceil64 n) (words b) ++
                replicate (div_ceil64 n - length (words b)) 0;
       length_ := n |}.

(** [edit] may change the words in place, not their number; the clearing is
    done whether or not it succeeded. *)
Definition edit {E} (b : PackedBits) (f : list Z -> nat -> list Z * result E unit)
    : PackedBits * result E unit :=
  let '(ws, r) := f (words b) (length_ b) in
  (clear_past_length {| words := ws; length_ := length_ b |}, r).

Definition stored (ws : list Z) (at_ : nat) : Z :=
  match ws !! at_ with Some w => w | None => 0 end.

Definition window_word (ws : list Z) (start : WindowStart) (block : nat) : Z :=
  match start with
  | At offset =>
      let at_ := (offset / 64 + block)%nat in
      let shift := (offset mod 64)%nat in
      match shift with
      | O => stored ws at_
      | _ => Z.lor (shr (stored ws at_) shift) (shl (stored ws (at_ + 1)) (64 - shift))
      end
  | Before offset =>
      if (block <? offset / 64)%nat then 0
      else
        let at_ := (block - offset / 64)%nat in
        let shift := (offset mod 64)%nat in
        let low := shl (stored ws at_) shift in
        match shift, at_ with
        | O, _ | _, O => low
        | _, S previous => Z.lor low (shr (stored ws previous) (64 - shift))
        end
  end.

Definition window (b : PackedBits) (start : WindowStart) (span : nat) : PackedBits :=
  from_fn span (window_word (words b) start).

(** ** The vector a value denotes *)

Definition is_word (w : Z) : Prop := 0 <= w < 2 ^ 64.

(** Bit [i] of the words, zero past them. *)
Definition bit (b : PackedBits) (i : nat) : bool :=
  Z.testbit (stored (words b) (i / 64)) (Z.of_nat (i mod 64)).

Record packed_ok (b : PackedBits) : Prop := {
  ok_words : Forall is_word (words b);
  ok_size : length (words b) = div_ceil64 (length_ b);
  ok_past : forall i, (length_ b <= i)%nat -> bit b i = false
}.

Lemma word_high w j : is_word w -> 64 <= j -> Z.testbit w j = false.
Proof.
  intros [Hw0 Hw] Hj. destruct (decide (w = 0)) as [->|Hne]; [apply Z.bits_0|].
  apply Z.bits_above_log2; [lia|]. apply Z.log2_lt_pow2; [lia|].
  eapply Z.lt_le_trans; [exact Hw|]. apply Z.pow_le_mono_r; lia.
Qed.

Lemma word_of_bits w : 0 <= w -> (forall j, 64 <= j -> Z.testbit w j = false) -> is_word w.
Proof.
  intros Hw Hhigh. split; [done|]. destruct (Z.lt_ge_cases w (2 ^ 64)) as [|Hge]; [done|].
  assert (0 < w) by lia. pose proof (Z.bit_log2 w ltac:(lia)) as Hb.
  rewrite Hhigh in Hb; [done|]. apply Z.log2_le_pow2; lia.
Qed.

Lemma stored_word ws i : Forall is_word ws -> is_word (stored ws i).
Proof.
  intros Hws. unfold stored. destruct (ws !! i) as [w|] eqn:Hi; [|by unfold is_word].
  by eapply Forall_lookup_1 in Hws.
Qed.

Lemma shl_bit w s j :
  (s <= 64)%nat -> 0 <= j < 64 ->
  Z.testbit (shl w s) j = if j <? Z.of_nat s then false else Z.testbit w (j - Z.of_nat s).
Proof.
  intros Hs Hj. unfold shl. rewrite Z.mod_pow2_bits_low by lia.
  destruct (Z.ltb_spec j (Z.of_nat s)).
  - by rewrite Z.shiftl_spec_low.
  - by rewrite Z.shiftl_spec by lia.
Qed.

Lemma shl_word w s : is_word (shl w s).
Proof. apply Z.mod_pos_bound. lia. Qed.

Lemma shr_bit w s j : 0 <= j -> Z.testbit (shr w s) j = Z.testbit w (j + Z.of_nat s).
Proof. intros Hj. by apply Z.shiftr_spec. Qed.

Lemma shr_word w s : is_word w -> is_word (shr w s).
Proof.
  intros Hw. apply word_of_bits.
  - apply Z.shiftr_nonneg, Hw.
  - intros j Hj. rewrite shr_bit by lia. apply word_high; [done|lia].
Qed.

Lemma lor_word a b : is_word a -> is_word b -> is_word (Z.lor a b).
Proof.
  intros Ha Hb. apply word_of_bits.
  - apply Z.lor_nonneg. split; [apply Ha|apply Hb].
  - intros j Hj. by rewrite Z.lor_spec, !word_high.
Qed.

(** ** Clearing *)

Lemma div_ceil64_spec n : (n <= 64 * div_ceil64 n < n + 64)%nat.
Proof.
  unfold div_ceil64. pose proof (Nat.div_mod_eq (n + 63) 64).
  pose proof (Nat.mod_upper_bound (n + 63) 64). lia.
Qed.

(** After clearing, a bit is what it was below the length, and zero past it. *)
Lemma clear_bit b i :
  length (words b) = div_ceil64 (length_ b) ->
  bit (clear_past_length b) i = (i <? length_ b)%nat && bit b i.
Proof.
  intros Hlen. pose proof (div_ceil64_spec (length_ b)) as Hd.
  pose proof (Nat.div_mod_eq i 64). pose proof (Nat.mod_upper_bound i 64).
  pose proof (Nat.div_mod_eq (length_ b) 64). pose proof (Nat.mod_upper_bound (length_ b) 64).
  assert ((length (words b) <= i / 64)%nat -> bit b i = false) as Hpast.
  { intros Hge. unfold bit, stored. rewrite (lookup_ge_None_2 (words b)) by done. apply Z.bits_0. }
  unfold clear_past_length. destruct (Nat.eqb_spec (length_ b mod 64) 0) as [Hz|Hz].
  - destruct (Nat.ltb_spec i (length_ b)); [done|]. simpl. apply Hpast. lia.
  - destruct (list.last (words b)) as [w|] eqn:Hw.
    2: { apply last_None in Hw. rewrite Hw in Hlen. simpl in Hlen. lia. }
    unfold bit, stored; cbn [words length_].
    rewrite last_lookup in Hw. replace (pred (length (words b))) with (length (words b) - 1)%nat in Hw by lia.
    destruct (decide (i / 64 = length (words b) - 1)%nat) as [Heq|Hne].
    + rewrite Heq, list_lookup_insert_eq by lia. rewrite Hw, Z.land_spec.
      replace (Z.shiftl 1 (Z.of_nat (length_ b mod 64)) - 1) with (Z.ones (Z.of_nat (length_ b mod 64)))
        by (rewrite Z.ones_equiv, Z.shiftl_1_l; lia).
      rewrite Z.testbit_ones_nonneg by lia. rewrite andb_comm. f_equal.
      destruct (Z.ltb_spec (Z.of_nat (i mod 64)) (Z.of_nat (length_ b mod 64))),
        (Nat.ltb_spec i (length_ b)); try done; lia.
    + rewrite list_lookup_insert_ne by lia.
      destruct (Nat.ltb_spec i (length_ b)); [done|]. simpl. apply Hpast. lia.
Qed.

Lemma clear_ok b :
  Forall is_word (words b) -> length (words b) = div_ceil64 (length_ b) ->
  packed_ok (clear_past_length b).
Proof.
  intros Hws Hlen.
  assert (length_ (clear_past_length b) = length_ b) as Hl
    by (unfold clear_past_length; by destruct (_ =? _)%nat).
  constructor.
  - unfold clear_past_length. destruct (_ =? _)%nat; [done|]. cbn [words].
    destruct (list.last (words b)) as [w|] eqn:Hw; [|done]. apply Forall_insert; [done|].
    rewrite last_lookup in Hw. eapply Forall_lookup_1 in Hws; [|done].
    apply word_of_bits; [apply Z.land_nonneg; left; apply Hws|].
    intros j Hj. by rewrite Z.land_spec, word_high.
  - rewrite Hl. unfold clear_past_length. destruct (_ =? _)%nat; [done|]. cbn [words].
    destruct (list.last (words b)); [by rewrite length_insert|done].
  - intros i Hi. rewrite Hl in Hi. rewrite clear_bit by done.
    by destruct (Nat.ltb_spec i (length_ b)); [lia|].
Qed.

(** ** Windows *)

(** Bit [i] of the vector read at an integer position: zero before it. *)
Definition bit_at (b : PackedBits) (i : Z) : bool :=
  if i <? 0 then false else bit b (Z.to_nat i).

(** Where bit [k] of the window lies in the vector. *)
Definition window_position (start : WindowStart) (k : nat) : Z :=
  match start with
  | At offset => Z.of_nat offset + Z.of_nat k
  | Before offset => Z.of_nat k - Z.of_nat offset
  end.

(** Reading a bit through the word and the offset inside it. *)
Lemma bit_word b q r :
  (r < 64)%nat -> bit b (64 * q + r) = Z.testbit (stored (words b) q) (Z.of_nat r).
Proof.
  intros Hr. unfold bit.
  by rewrite <- (Nat.div_unique (64 * q + r) 64 q r), <- (Nat.mod_unique (64 * q + r) 64 q r)
    by lia.
Qed.

Lemma window_word_is_word ws start block :
  Forall is_word ws -> is_word (window_word ws start block).
Proof.
  intros Hws. destruct start as [offset|offset]; unfold window_word.
  - destruct (offset mod 64)%nat; [by apply stored_word|].
    apply lor_word; [apply shr_word, stored_word; done|apply shl_word].
  - destruct (_ <? _)%nat; [by unfold is_word|].
    destruct (offset mod 64)%nat; [apply shl_word|].
    destruct (block - offset / 64)%nat; [apply shl_word|].
    apply lor_word; [apply shl_word|apply shr_word, stored_word; done].
Qed.

Lemma window_word_at b offset block j :
  Forall is_word (words b) -> (j < 64)%nat ->
  Z.testbit (window_word (words b) (At offset) block) (Z.of_nat j) =
  bit b (offset + 64 * block + j).
Proof.
  intros Hws Hj. pose proof (Nat.div_mod_eq offset 64) as Hdm.
  pose proof (Nat.mod_upper_bound offset 64). unfold window_word.
  set (q := (offset / 64)%nat) in *. destruct (offset mod 64)%nat as [|s] eqn:Hs.
  - replace (offset + 64 * block + j)%nat with (64 * (q + block) + j)%nat by lia.
    by rewrite bit_word.
  - rewrite Z.lor_spec, shr_bit, shl_bit by lia.
    destruct (Z.ltb_spec (Z.of_nat j) (Z.of_nat (64 - S s))).
    + rewrite orb_false_r.
      replace (offset + 64 * block + j)%nat with (64 * (q + block) + (j + S s))%nat by lia.
      rewrite bit_word by lia. f_equal. lia.
    + rewrite word_high by (auto using stored_word; lia). cbn [orb].
      replace (offset + 64 * block + j)%nat with (64 * (q + block + 1) + (j + S s - 64))%nat by lia.
      rewrite bit_word by lia. f_equal. lia.
Qed.

Lemma window_word_before b offset block j :
  Forall is_word (words b) -> (j < 64)%nat ->
  Z.testbit (window_word (words b) (Before offset) block) (Z.of_nat j) =
  bit_at b (Z.of_nat (64 * block + j) - Z.of_nat offset).
Proof.
  intros Hws Hj. pose proof (Nat.div_mod_eq offset 64) as Hdm.
  pose proof (Nat.mod_upper_bound offset 64). unfold window_word, bit_at.
  set (q := (offset / 64)%nat) in *.
  destruct (Nat.ltb_spec block q) as [Hlt|Hge].
  { destruct (Z.ltb_spec (Z.of_nat (64 * block + j) - Z.of_nat offset) 0); [apply Z.bits_0|lia]. }
  destruct (Z.ltb_spec (Z.of_nat (64 * block + j) - Z.of_nat offset) 0) as [Hneg|Hpos].
  - destruct (block - q)%nat as [|n] eqn:Hat; [|lia].
    assert (Z.testbit (shl (stored (words b) 0) (offset mod 64)) (Z.of_nat j) = false) as Hl.
    { rewrite shl_bit by lia.
      destruct (Z.ltb_spec (Z.of_nat j) (Z.of_nat (offset mod 64))); [done|lia]. }
    by destruct (offset mod 64)%nat.
  - replace (Z.to_nat (Z.of_nat (64 * block + j) - Z.of_nat offset))
      with (64 * block + j - offset)%nat by lia.
    destruct (offset mod 64)%nat as [|s] eqn:Hs.
    + rewrite shl_bit by lia. destruct (Z.ltb_spec (Z.of_nat j) (Z.of_nat 0)); [lia|].
      replace (64 * block + j - offset)%nat with (64 * (block - q) + j)%nat by lia.
      rewrite bit_word by lia. f_equal. lia.
    + destruct (block - q)%nat as [|n] eqn:Hat.
      * rewrite shl_bit by lia. destruct (Z.ltb_spec (Z.of_nat j) (Z.of_nat (S s))); [lia|].
        replace (64 * block + j - offset)%nat with (64 * 0 + (j - S s))%nat by lia.
        rewrite bit_word by lia. f_equal. lia.
      * rewrite Z.lor_spec, shr_bit, shl_bit by lia.
        destruct (Z.ltb_spec (Z.of_nat j) (Z.of_nat (S s))).
        -- cbn [orb]. replace (64 * block + j - offset)%nat with (64 * n + (j + 64 - S s))%nat by lia.
           rewrite bit_word by lia. f_equal. lia.
        -- rewrite (word_high (stored (words b) n)) by (auto using stored_word; lia).
           rewrite orb_false_r.
           replace (64 * block + j - offset)%nat with (64 * S n + (j - S s))%nat by lia.
           rewrite bit_word by lia. f_equal. lia.
Qed.

Lemma from_fn_words n word :
  (forall k, is_word (word k)) ->
  Forall is_word (word <$> seq 0 (div_ceil64 n)) /\
  length (word <$> seq 0 (div_ceil64 n)) = div_ceil64 n.
Proof.
  intros Hw. split; [|by rewrite length_fmap, length_seq].
  apply Forall_fmap, Forall_forall. intros k _. apply Hw.
Qed.

Lemma from_fn_bit n word i :
  (forall k, is_word (word k)) ->
  bit (from_fn n word) i =
  (i <? n)%nat && Z.testbit (word (i / 64)%nat) (Z.of_nat (i mod 64)).
Proof.
  intros Hw. unfold from_fn. rewrite clear_bit by (by apply from_fn_words). cbn [length_].
  destruct (Nat.ltb_spec i n) as [Hi|]; [|done]. simpl. unfold bit, stored. cbn [words].
  rewrite list_lookup_fmap, lookup_seq_lt; [done|].
  pose proof (div_ceil64_spec n). pose proof (Nat.div_mod_eq i 64).
  pose proof (Nat.mod_upper_bound i 64). lia.
Qed.

(** ** Properties *)

(** C28: a window of a packed vector is that vector shifted and extended by
    zeros: whatever the offset and the word boundaries it crosses, bit [k] of
    the window is the vector's bit at the window's position when [k] is inside
    the span, and zero otherwise (also before and after the vector); and the
    result satisfies the invariant again. *)
Theorem window_is_the_zero_extended_shift b start span k :
  packed_ok b ->
  packed_ok (window b start span) /\ length_ (window b start span) = span /\
  bit (window b start span) k = (k <? span)%nat && bit_at b (window_position start k).
Proof.
  intros [Hws _ _].
  pose proof (window_word_is_word (words b) start) as Hw.
  split_and!.
  - apply clear_ok; by apply from_fn_words; auto.
  - unfold window, from_fn, clear_past_length. by destruct (_ =? _)%nat.
  - unfold window. rewrite from_fn_bit by auto.
    destruct (Nat.ltb_spec k span); [|done]. cbn [andb].
    pose proof (Nat.div_mod_eq k 64). pose proof (Nat.mod_upper_bound k 64).
    destruct start as [offset|offset]; cbn [window_position].
    + rewrite window_word_at by (done || lia). unfold bit_at.
      destruct (Z.ltb_spec (Z.of_nat offset + Z.of_nat k) 0); [lia|].
      f_equal. rewrite <- Nat2Z.inj_add, Nat2Z.id. lia.
    + rewrite window_word_before by (done || lia).
      by replace (64 * (k / 64) + k mod 64)%nat with k by lia.
Qed.

(** every constructor and edit keeps the invariant, and says what bits
    the result has: [zeros] has none; [resize] keeps the bits below both
    lengths and adds zeros; an edit, whether it succeeds or fails, leaves the
    edited words' bits below the length and none past it. *)
Theorem packed_edits_keep_the_invariant {E} b n
    (f : list Z -> nat -> list Z * result E unit) i :
  packed_ok b ->
  Forall is_word (f (words b) (length_ b)).1 ->
  length (f (words b) (length_ b)).1 = length (words b) ->
  (packed_ok (zeros n) /\ bit (zeros n) i = false) /\
  (packed_ok (resize b n) /\ bit (resize b n) i = (i <? n)%nat && bit b i) /\
  (packed_ok (edit b f).1 /\ (edit b f).2 = (f (words b) (length_ b)).2 /\
   bit (edit b f).1 i =
     (i <? length_ b)%nat && bit (mkBits (f (words b) (length_ b)).1 (length_ b)) i).
Proof.
  intros [Hws Hsize Hpast] Hfw Hfl.
  assert (forall m k, stored (replicate m 0) k = 0) as Hrep.
  { intros m k. unfold stored. destruct (replicate m 0 !! k) as [x|] eqn:Hx; [|done].
    by apply lookup_replicate_1 in Hx as [-> _]. }
  split_and!.
  - constructor.
    + apply Forall_replicate. by unfold is_word.
    + apply length_replicate.
    + intros j _. unfold bit. cbn [words zeros]. rewrite Hrep. apply Z.bits_0.
  - unfold bit. cbn [words zeros]. rewrite Hrep. apply Z.bits_0.
  - apply clear_ok; cbn [words length_].
    + apply Forall_app. split; [by apply Forall_take|]. apply Forall_replicate. by unfold is_word.
    + rewrite length_app, length_take, length_replicate. lia.
  - unfold resize. rewrite clear_bit.
    2: { cbn [words length_]. rewrite length_app, length_take, length_replicate. lia. }
    cbn [length_]. destruct (Nat.ltb_spec i n) as [Hi|]; [|done]. simpl. unfold bit, stored.
    cbn [words]. pose proof (div_ceil64_spec n). pose proof (Nat.div_mod_eq i 64).
    pose proof (Nat.mod_upper_bound i 64).
    destruct (decide (i / 64 < length (words b))%nat).
    + rewrite lookup_app_l by (rewrite length_take; lia). by rewrite lookup_take_lt by lia.
    + rewrite lookup_app_r by (rewrite length_take; lia).
      rewrite (lookup_ge_None_2 (words b)) by lia.
      specialize (Hrep (div_ceil64 n - length (words b))%nat
        (i / 64 - length (take (div_ceil64 n) (words b)))%nat).
      unfold stored in Hrep. by rewrite Hrep.
  - unfold edit. destruct (f (words b) (length_ b)) as [ws r]; simpl in *.
    apply clear_ok; simpl; [done|lia].
  - unfold edit. by destruct (f (words b) (length_ b)).
  - unfold edit. destruct (f (words b) (length_ b)) as [ws r]; simpl in *.
    rewrite clear_bit by (simpl; lia). done.
Qed.

(** ** Witnesses *)

Definition sample_bits : PackedBits := from_fn 70 (fun k => if (k =? 0)%nat then 2 ^ 63 + 5 else 255).

Lemma sample_ok : packed_ok sample_bits.
Proof.
  apply clear_ok; apply from_fn_words; intros k; unfold is_word; destruct (k =? 0)%nat; lia.
Qed.

(** A window across the boundary between the two words. *)
Lemma window_is_the_zero_extended_shift_witness :
  words (window sample_bits (At 60) 20) = [2 ^ 3 + 63 * 2 ^ 4] /\
  packed_ok (window sample_bits (At 60) 20) /\ length_ (window sample_bits (At 60) 20) = 20%nat /\
  bit (window sample_bits (At 60) 20) 3 = (3 <? 20)%nat && bit_at sample_bits (window_position (At 60) 3).
Proof.
  split; [vm_compute; reflexivity|].
  apply (window_is_the_zero_extended_shift sample_bits (At 60) 20 3). apply sample_ok.
Defined.

Lemma packed_edits_keep_the_invariant_witness :
  packed_ok (edit sample_bits (fun ws _ => (ws, Err "stopped"%string))).1.
Proof.
  eapply (packed_edits_keep_the_invariant sample_bits 3 (fun ws _ => (ws, Err "stopped"%string)) 0);
    [apply sample_ok|apply sample_ok|reflexivity].
Defined.
