(* ===== verification/PackedLiteral.v ===== *)
(** * The packed row kernel

    Models [crates/batchalign-transform/src/dp_align/packed_literal.rs] and
    [packed_literal/arithmetic.rs] with [arithmetic/edge.rs]: the postings of
    a reference, the bit-parallel row step of Allison and Dix with its carry
    and borrow across words, rows restricted to a window, prefix scores, the
    byte-parallel maximum of two score profiles and the byte-parallel search
    for cuts of a given score. A word is an integer in [0, 2^64). The arithmetic
    that panics on overflow in a checked build panics here. The properties are
    in [PackedLiteralFacts.v]. *)

From S2P Require Import Prelude WorkControl DpAlign PackedBits.
From stdpp Require Import base decidable option list list_numbers gmap strings numbers.

Open Scope Z_scope.
Open Scope rust_scope.

Inductive ReferenceOrder :=
| Forward
| Reverse.

Definition matches_words (mode : LiteralMatchMode) (source reference : string) : bool :=
  match mode with
  | LiteralExact => String.eqb source reference
  | AsciiInsensitive => eq_ignore_ascii_case source reference
  end.

Definition key (word : string) (mode : LiteralMatchMode) : string :=
  match mode with
  | LiteralExact => word
  | AsciiInsensitive => lower word
  end.

(** The blocks of a key in increasing order, each with its bits. *)
Notation Postings := (list (nat * Z)).

Record LiteralReference := mkLiteralReference {
  reference : list string;
  lr_mode : LiteralMatchMode;
  masks : gmap string Postings
}.

Record PackedRow := mkRow {
  owner : LiteralReference;
  bits : list Z
}.

Record PackedCheckpoint := mkCheckpoint {
  checkpoint_owner : LiteralReference;
  checkpoint_bits : list Z
}.

Record PrefixBlock := mkPrefixBlock {
  block_before : Z;
  block_bits : Z
}.

Record PrefixScores := mkPrefixScores {
  blocks : list PrefixBlock;
  scores_length : nat;
  total : Z
}.

(** [u64::count_ones], [!w] and [u64::reverse_bits]. *)
Definition count_ones (w : Z) : Z :=
  Z.of_nat (count_if (fun i => Z.testbit w (Z.of_nat i)) (seq 0 64)).
Definition not64 (w : Z) : Z := Z.lxor w (Z.ones 64).
Definition reverse64 (w : Z) : Z :=
  foldr (fun i acc => Z.lor acc (if Z.testbit w (Z.of_nat (63 - i)) then shl 1 i else 0)) 0
    (seq 0 64).

(** [slice::partition_point]: how many leading entries satisfy the test. *)
Fixpoint partition_point {A} (p : A -> bool) (l : list A) : nat :=
  match l with
  | [] => 0
  | a :: l => if p a then S (partition_point p l) else 0
  end.

(** ** The row step *)

(** [step]: the new word, carry and borrow. *)
Definition step (old matches carry : Z) (borrow : bool) : Z * Z * bool :=
  let x := Z.lor old matches in
  let shifted := Z.lor (shl old 1) carry in
  let carry := shr old 63 in
  let first := x <? shifted in
  let difference := (x - shifted) mod 2 ^ 64 in
  let second := difference <? Z.b2z borrow in
  let difference := (difference - Z.b2z borrow) mod 2 ^ 64 in
  (Z.land x (not64 difference), carry, first || second).

(** The entry at the cursor when it is the block's, which moves the cursor. *)
Definition take_posting (postings : Postings) (cursor block : nat) : Z * nat :=
  match postings !! cursor with
  | Some (at_, mask) => if (at_ =? block)%nat then (mask, S cursor) else (0, cursor)
  | None => (0, cursor)
  end.

(** [count_ones] of the words, and the score before each of them. *)
Fixpoint prefix_blocks (bits : list Z) (before : Z) : list PrefixBlock * Z :=
  match bits with
  | [] => ([], before)
  | w :: bits =>
      let '(blocks, total) := prefix_blocks bits (before + count_ones w) in
      (mkPrefixBlock before w :: blocks, total)
  end.

Section kernel.
Context {C : WorkControl}.

Definition check_every (block : nat) : Work C unit :=
  if (block mod 1024 =? 0)%nat then check else ret tt.

Fixpoint extend_sparse_from (bits : list Z) (postings : Postings) (block : nat)
    (carry : Z) (borrow : bool) (cursor : nat) : Work C (list Z) :=
  match bits with
  | [] => ret []
  | state :: bits =>
      check_every block ;;
      let '(mask, cursor) := take_posting postings cursor block in
      let '(state, carry, borrow) := step state mask carry borrow in
      let! bits := extend_sparse_from bits postings (S block) carry borrow cursor in
      ret (state :: bits)
  end.

Definition extend_sparse (bits : list Z) (postings : Postings) : Work C (list Z) :=
  extend_sparse_from bits postings 0 1 false 0.

Fixpoint extend_window_from (bits : list Z) (postings : Postings) (first span block : nat)
    (low carry : Z) (borrow : bool) (cursor : nat) : Work C (list Z) :=
  match bits with
  | [] => ret []
  | state :: bits =>
      check_every block ;;
      let '(high, cursor) := take_posting postings cursor (first / 64 + block + 1) in
      let shift := (first mod 64)%nat in
      let mask :=
        if (shift =? 0)%nat then low else Z.lor (shr low shift) (shl high (64 - shift)) in
      let mask :=
        if (span <? (block + 1) * 64)%nat
        then Z.land mask (Z.shiftl 1 (Z.of_nat (span mod 64)) - 1) else mask in
      let '(state, carry, borrow) := step state mask carry borrow in
      let! bits := extend_window_from bits postings first span (S block) high carry borrow cursor in
      ret (state :: bits)
  end.

Definition extend_window_sparse (bits : list Z) (postings : Postings) (first span : nat)
    : Work C (list Z) :=
  check ;;
  let cursor := partition_point (fun '(block, _) => (block <? first / 64)%nat) postings in
  let '(low, cursor) := take_posting postings cursor (first / 64) in
  extend_window_from bits postings first span 0 low 1 false cursor.

(** ** The reference and its rows *)

(** Position [j] joins the last entry when that is its block, and opens a new
    entry otherwise. *)
Definition add_posting (postings : Postings) (j : nat) : Postings :=
  let block := (j / 64)%nat in
  let bit := shl 1 (j mod 64) in
  match list.last postings with
  | Some (last, bits) =>
      if (last =? block)%nat
      then <[(length postings - 1)%nat := (last, Z.lor bits bit)]> postings
      else postings ++ [(block, bit)]
  | None => postings ++ [(block, bit)]
  end.

Definition observe (reference : list string) (mode : LiteralMatchMode) (order : ReferenceOrder)
    : Work C LiteralReference :=
  check ;;
  let! masks :=
    for_each (seq 0 (length reference)) (fun j masks =>
      check_every j ;;
      let original :=
        match order with
        | Forward => j
        | Reverse => (length reference - 1 - j)%nat
        end in
      let! word := index reference original in
      let k := key word mode in
      ret (<[k := add_posting (default [] (masks !! k)) j]> masks)) ∅ in
  ret {| reference := reference; lr_mode := mode; masks := masks |}.

Definition start (o : LiteralReference) : PackedRow :=
  {| owner := o; bits := replicate (div_ceil64 (length (reference o))) 0 |}.

Definition postings (o : LiteralReference) (word : string) : option Postings :=
  masks o !! key word (lr_mode o).

Definition advance (o : LiteralReference) (bits : list Z) (word : string) : Work C (list Z) :=
  extend_sparse bits (default [] (postings o word)).

Definition advance_window (o : LiteralReference) (bits : list Z) (word : string)
    (first span : nat) : Work C (list Z) :=
  extend_window_sparse bits (default [] (postings o word)) first span.

(** [mask[i] |= w], which panics out of range. *)
Definition or_at (mask : list Z) (i : nat) (w : Z) : Work C (list Z) :=
  let! m := index mask i in store mask i (Z.lor m w).

Definition mask_window (o : LiteralReference) (word : string) (first span : nat)
    : Work C (list Z) :=
  let mask := replicate (div_ceil64 span) 0 in
  if (span =? 0)%nat then ret mask
  else
    let! mask :=
      match postings o word with
      | None => ret mask
      | Some postings =>
          let begin := partition_point (fun '(block, _) => (block <? first / 64)%nat) postings in
          let end_ :=
            partition_point (fun '(block, _) => (block <? div_ceil64 (first + span))%nat) postings in
          let! entries := slice_range postings begin end_ in
          for_each entries (fun '(block, bits) mask =>
            let absolute := (block * 64)%nat in
            if (absolute <? first)%nat then or_at mask 0 (shr bits (first - absolute))
            else
              let relative := (absolute - first)%nat in
              let! mask := or_at mask (relative / 64) (shl bits (relative mod 64)) in
              if negb (relative mod 64 =? 0)%nat && (relative / 64 + 1 <? length mask)%nat
              then or_at mask (relative / 64 + 1) (shr bits (64 - relative mod 64))
              else ret mask) mask
      end in
    if negb (span mod 64 =? 0)%nat then
      match list.last mask with
      | Some last =>
          ret (<[(length mask - 1)%nat :=
                   Z.land last (Z.shiftl 1 (Z.of_nat (span mod 64)) - 1)]> mask)
      | None => ret mask
      end
    else ret mask.

Definition checkpoint_row (r : PackedRow) : PackedCheckpoint :=
  {| checkpoint_owner := owner r; checkpoint_bits := bits r |}.

Definition resume (c : PackedCheckpoint) : PackedRow :=
  {| owner := checkpoint_owner c; bits := checkpoint_bits c |}.

Definition extend (r : PackedRow) (word : string) : Work C PackedRow :=
  check ;;
  let! bits := advance (owner r) (bits r) word in
  ret {| owner := owner r; bits := bits |}.

Definition score (r : PackedRow) : Z := foldr Z.add 0 (count_ones <$> bits r).

Definition prefixes (r : PackedRow) : PrefixScores :=
  let '(blocks, total) := prefix_blocks (bits r) 0 in
  {| blocks := blocks; scores_length := length (reference (owner r)); total := total |}.

Definition before (p : PrefixScores) (prefix : nat) : Work C Z :=
  if (prefix =? scores_length p)%nat then ret (total p)
  else
    let! block := index (blocks p) (prefix / 64) in
    let mask := Z.shiftl 1 (Z.of_nat (prefix mod 64)) - 1 in
    ret (block_before block + count_ones (Z.land (block_bits block) mask)).

(** ** Byte-parallel scores *)

Definition ONES : Z := 0x0101010101010101.
Definition HIGH : Z := 0x8080808080808080.
Definition LOW : Z := 0x7f7f7f7f7f7f7f7f.
Definition PACK : Z := 0x0102040810204080.

(** One entry of the table: byte [i] holds the rank of the bits up to [i]. *)
Definition ranks_of (bits : Z) : Z :=
  (foldl (fun '(rank, entry) byte =>
     let rank := rank + Z.land (Z.shiftr bits (Z.of_nat byte)) 1 in
     (rank, Z.lor entry (shl rank (8 * byte)))) (0, 0) (seq 0 8)).2.

Definition RANKS : list Z := (fun n => ranks_of (Z.of_nat n)) <$> seq 0 256.

(** The value of a [u64] operation, which must fit. *)
Definition fits (n : Z) : Work C Z :=
  if (0 <=? n) && (n <? 2 ^ 64) then ret n else fault Panic.

(** [n as u64] of a signed number. *)
Definition as_u64 (n : Z) : Z := n mod 2 ^ 64.

Definition byte_at (w : Z) (byte : nat) : Z := Z.land (shr w (8 * byte)) 255.

Definition maximum_byte (ab bb difference : Z) : Work C Z :=
  if 8 <=? difference then ret ab
  else if difference <=? -8 then ret bb
  else
    let! ra := index RANKS (Z.to_nat ab) in
    let! offset := fits (ONES * as_u64 (16 + difference)) in
    let! ap := fits (ra + offset) in
    let! rb := index RANKS (Z.to_nat bb) in
    let! bp := fits (rb + ONES * 16) in
    let! choose := fits (Z.lor ap HIGH - bp) in
    let choose := Z.land choose HIGH in
    let! mask := fits (shr choose 7 * 255) in
    let scores := Z.lor (Z.land ap mask) (Z.land bp (not64 mask)) in
    let previous := Z.lor (shl scores 8) (as_u64 (16 + Z.max difference 0)) in
    let! increments := fits (scores - previous) in
    ret (shr (increments * PACK mod 2 ^ 64) 56).

(** [maximum_word]: the merged word and the difference after it. *)
Definition maximum_word (a b difference : Z) : Work C (Z * Z) :=
  for_each (seq 0 8) (fun byte '(maximum, difference) =>
    let ab := byte_at a byte in
    let bb := byte_at b byte in
    let! increments := maximum_byte ab bb difference in
    ret (Z.lor maximum (shl increments (8 * byte)),
         difference + (count_ones ab - count_ones bb))) (0, difference).

(** The words [PackedBits::try_from_fn] asks for, in order; the closure keeps
    the difference. *)
Definition merge_shifted (left : PackedBits) (left_offset : nat) (right : PackedBits)
    (right_offset length : nat) : Work C PackedBits :=
  check ;;
  let! (ws, _) :=
    for_each (seq 0 (div_ceil64 length)) (fun block '(ws, difference) =>
      check_every block ;;
      let! (w, difference) :=
        maximum_word (window_word (words left) (Before left_offset) block)
          (window_word (words right) (Before right_offset) block) difference in
      ret (ws ++ [w], difference)) ([], 0) in
  ret (clear_past_length {| words := ws; length_ := length |}).

Definition reverse_bits (b : PackedBits) : PackedBits :=
  let ws := words b in
  let reversed :=
    from_fn (length ws * 64)
      (fun block => reverse64 (stored ws (length ws - 1 - block))) in
  let padding := ((64 - length_ b mod 64) mod 64)%nat in
  window reversed (At padding) (length_ b).

(** ** Cuts *)

Inductive CutBoundary :=
| MatchingAllowed
| DeletionOnly.

Record NumericEdgeCuts := mkCuts {
  can_be_missing : bool;
  matched : list Z
}.

Definition equal_byte (a b delta : Z) : Work C Z :=
  if negb ((-8 <=? delta) && (delta <=? 8)) then ret 0
  else
    let! ra := index RANKS (Z.to_nat a) in
    let! raised := fits (ra + ONES * 16) in
    let! rb := index RANKS (Z.to_nat b) in
    let! ranks := fits (raised - rb) in
    let! sought := fits (ONES * as_u64 (16 + delta)) in
    let unequal := Z.lxor ranks sought in
    let! sum := fits (Z.land unequal LOW + LOW) in
    let equal := Z.land (not64 (Z.lor (Z.lor sum unequal) LOW)) HIGH in
    ret (shr (shr equal 7 * PACK mod 2 ^ 64) 56).

(** The bytes of one block, stopping at the span. *)
Fixpoint edge_bytes (bytes : list nat) (a b following : Z) (block span : nat)
    (missing : bool) (matched : list Z) (delta : Z) : Work C (bool * list Z * Z) :=
  match bytes with
  | [] => ret (missing, matched, delta)
  | byte :: bytes =>
      let start := (block * 64 + byte * 8)%nat in
      if (span <=? start)%nat then ret (missing, matched, delta)
      else
        let ab := byte_at a byte in
        let bb := byte_at b byte in
        let width := Nat.min (span - start) 8 in
        let valid := Z.shiftl 1 (Z.of_nat width) - 1 in
        let! equal := equal_byte ab bb delta in
        let deletion := Z.land equal valid in
        let missing := missing || negb (deletion =? 0) in
        let next_declines := Z.land (shr following (8 * byte)) valid in
        let! below := equal_byte ab bb (delta - 1) in
        let matches :=
          Z.lor (Z.land deletion next_declines)
            (Z.land (Z.land below (not64 next_declines)) valid) in
        let cut := (start + 1)%nat in
        let! matched := or_at matched (cut / 64) (shl matches (cut mod 64)) in
        let! matched :=
          if (56 <? cut mod 64)%nat && (cut / 64 + 1 <? length matched)%nat
          then or_at matched (cut / 64 + 1) (shr matches (64 - cut mod 64))
          else ret matched in
        edge_bytes bytes a b following block span missing matched
          (delta - (count_ones ab - count_ones bb))
  end.

(** [delta] is an [i64] of the source; here it is unbounded, as are the sums of
    at most [64] per word taken from it. *)
Definition observe_edge_cuts (forward declines : PackedBits) (span : nat) (delta : Z)
    (boundary : CutBoundary) : Work C NumericEdgeCuts :=
  check ;;
  let matched := replicate (div_ceil64 (span + 1)) 0 in
  let missing := delta =? 0 in
  let first_decline := Z.land (window_word (words declines) (At 0) 0) 1 in
  let! matched := store matched 0 (Z.b2z (delta =? 1 - first_decline)) in
  let! (missing, matched, _) :=
    for_each (seq 0 (length (words forward))) (fun block '(missing, matched, delta) =>
      check_every block ;;
      let! a := index (words forward) block in
      let b := window_word (words declines) (At 0) block in
      let following := window_word (words declines) (At 1) block in
      edge_bytes (seq 0 8) a b following block span missing matched delta)
      (missing, matched, delta) in
  let! matched :=
    match boundary with
    | MatchingAllowed => ret matched
    | DeletionOnly =>
        let! w := index matched (span / 64) in
        store matched (span / 64) (Z.land w (not64 (shl 1 (span mod 64))))
    end in
  ret {| can_be_missing := missing; matched := matched |}.

End kernel.
