(* ===== verification/PackedLiteralFacts.v ===== *)
(** * Properties of the packed row kernel

    The row a reference keeps after a sequence of words holds, at every prefix
    of the reference, the score of the optimal alignments of the words with
    that prefix. The proof goes from words to bits: the multi-word subtraction
    with its carries is one ripple over all bit positions, and a ripple is the
    scalar recurrence on prefix scores. *)

From S2P Require Import Prelude WorkControl DpAlign DpAlignFacts PackedBits PackedLiteral.
From stdpp Require Import base decidable option list list_numbers gmap strings numbers.

Open Scope Z_scope.
Open Scope rust_scope.

(** ** Ranks *)

(** How many of the first [k] positions are set. *)
Fixpoint rank (f : nat -> bool) (k : nat) : Z :=
  match k with
  | O => 0
  | S k => rank f k + Z.b2z (f k)
  end.

Lemma rank_ext f g k : (forall i, (i < k)%nat -> f i = g i) -> rank f k = rank g k.
Proof.
  induction k as [|k IH]; intros Hfg; [done|]. simpl. rewrite IH, Hfg by auto with lia. done.
Qed.

Lemma rank_bounds f k : 0 <= rank f k <= Z.of_nat k.
Proof. induction k as [|k IH]; simpl; [lia|]. destruct (f k); simpl; lia. Qed.

Lemma rank_add f a b : rank f (a + b) = rank f a + rank (fun i => f (a + i)%nat) b.
Proof.
  induction b as [|b IH]; simpl; [rewrite Nat.add_0_r; lia|].
  rewrite Nat.add_succ_r. simpl. rewrite IH. lia.
Qed.

Lemma rank_clear f k : (forall i, (i < k)%nat -> f i = false) -> rank f k = 0.
Proof.
  induction k as [|k IH]; intros Hf; [done|]. simpl. rewrite IH by auto with lia.
  by rewrite Hf by lia.
Qed.

Lemma rank_past f n k :
  (forall i, (n <= i)%nat -> f i = false) -> (n <= k)%nat -> rank f k = rank f n.
Proof.
  intros Hf Hk. replace k with (n + (k - n))%nat by lia. rewrite rank_add.
  rewrite (rank_clear (fun i => f (n + i)%nat)) by (intros; apply Hf; lia). lia.
Qed.

(** Bit [i] of a list of words. *)
Definition wbit (ws : list Z) (i : nat) : bool :=
  Z.testbit (stored ws (i / 64)) (Z.of_nat (i mod 64)).

Lemma div_mod_64 q r :
  (r < 64)%nat -> ((64 * q + r) / 64 = q)%nat /\ ((64 * q + r) mod 64 = r)%nat.
Proof.
  intros Hr. split; symmetry.
  - apply (Nat.div_unique _ 64 q r); lia.
  - apply (Nat.mod_unique _ 64 q r); lia.
Qed.

Lemma split_64 i : exists q r, (r < 64)%nat /\ i = (64 * q + r)%nat.
Proof.
  exists (i / 64)%nat, (i mod 64)%nat. pose proof (Nat.div_mod_eq i 64).
  pose proof (Nat.mod_upper_bound i 64). lia.
Qed.

Lemma wbit_word ws q r :
  (r < 64)%nat -> wbit ws (64 * q + r) = Z.testbit (stored ws q) (Z.of_nat r).
Proof. intros Hr. unfold wbit. by destruct (div_mod_64 q r Hr) as [-> ->]. Qed.

Lemma wbit_head w ws i : (i < 64)%nat -> wbit (w :: ws) i = Z.testbit w (Z.of_nat i).
Proof. intros Hi. exact (wbit_word (w :: ws) 0 i Hi). Qed.

Lemma wbit_tail w ws i : wbit (w :: ws) (64 + i) = wbit ws i.
Proof.
  destruct (split_64 i) as (q & r & Hr & ->).
  replace (64 + (64 * q + r))%nat with (64 * S q + r)%nat by lia. by rewrite !wbit_word.
Qed.

Lemma wbit_past ws i : (64 * length ws <= i)%nat -> wbit ws i = false.
Proof.
  destruct (split_64 i) as (q & r & Hr & ->). intros Hi. rewrite wbit_word by done.
  unfold stored. rewrite lookup_ge_None_2 by lia. apply Z.bits_0.
Qed.

Lemma wbit_zeros n i : wbit (replicate n 0) i = false.
Proof.
  unfold wbit, stored. destruct (replicate n 0 !! (i / 64)%nat) as [w|] eqn:Hw.
  - apply lookup_replicate in Hw as [-> _]. apply Z.bits_0.
  - apply Z.bits_0.
Qed.

(** ** One ripple over all positions *)

(** The bit before position [i], with [y0] before the first. *)
Definition previous_bit (y0 : bool) (f : nat -> bool) (i : nat) : bool :=
  match i with O => y0 | S i => f i end.

(** Subtracting with a borrow, position by position. *)
Record ripple (n : nat) (y0 c0 : bool) (m old new c : nat -> bool) : Prop := {
  ripple_start : c O = c0;
  ripple_bit i : (i < n)%nat ->
    new i = (old i || m i) && negb (xorb (xorb (old i || m i) (previous_bit y0 old i)) (c i));
  ripple_next i : (i < n)%nat ->
    c (S i) = (negb (old i || m i) && (previous_bit y0 old i || c i)) ||
              (previous_bit y0 old i && c i)
}.

(** The scalar recurrence on prefix scores. *)
Definition advances (n : nat) (m old new : nat -> bool) : Prop :=
  forall k, (k < n)%nat ->
    rank new (S k) =
    Z.max (Z.max (rank old (S k)) (rank new k)) (rank old k + Z.b2z (m k)).

(** What the borrow means: with the bit before it, it is one exactly where the
    new score has not risen above the old. *)
Lemma ripple_gain n m old new c k :
  ripple n true false m old new c -> (k <= n)%nat ->
  Z.b2z (previous_bit true old k) + Z.b2z (c k) = 1 - (rank new k - rank old k) /\
  0 <= rank new k - rank old k.
Proof.
  intros Hr. induction k as [|k IH]; intros Hk.
  - simpl. by rewrite (ripple_start _ _ _ _ _ _ _ Hr).
  - specialize (IH ltac:(lia)). simpl.
    rewrite (ripple_bit _ _ _ _ _ _ _ Hr k), (ripple_next _ _ _ _ _ _ _ Hr k) by lia.
    destruct (old k), (m k), (previous_bit true old k), (c k); simpl in *; lia.
Qed.

Lemma ripple_advances n m old new c :
  ripple n true false m old new c -> advances n m old new.
Proof.
  intros Hr k Hk. pose proof (ripple_gain _ _ _ _ _ k Hr ltac:(lia)) as [Hg Hge]. simpl.
  rewrite (ripple_bit _ _ _ _ _ _ _ Hr k) by lia.
  destruct (old k), (m k), (previous_bit true old k), (c k); simpl in *; lia.
Qed.

(** A position with neither an old bit nor a match stays clear. *)
Lemma ripple_clear n y0 c0 m old new c i :
  ripple n y0 c0 m old new c -> (i < n)%nat -> old i = false -> m i = false -> new i = false.
Proof. intros Hr Hi Ho Hm. by rewrite (ripple_bit _ _ _ _ _ _ _ Hr i Hi), Ho, Hm. Qed.

(** ** One word *)

Lemma not64_word w : is_word w -> is_word (not64 w).
Proof.
  intros [Hw0 Hw]. unfold not64. apply word_of_bits.
  - apply Z.lxor_nonneg. split; intros _; [done|lia].
  - intros j Hj. rewrite Z.lxor_spec, word_high, Z.ones_spec_high by (done || lia). done.
Qed.

Lemma not64_bit w j : 0 <= j < 64 -> Z.testbit (not64 w) j = negb (Z.testbit w j).
Proof.
  intros Hj. unfold not64. rewrite Z.lxor_spec, Z.ones_spec_low by lia. by destruct (Z.testbit w j).
Qed.

Lemma land_word a b : is_word a -> 0 <= b -> is_word (Z.land a b).
Proof.
  intros Ha Hb. apply word_of_bits; [apply Z.land_nonneg; left; apply Ha|].
  intros j Hj. by rewrite Z.land_spec, word_high.
Qed.

Lemma b2z_word b : is_word (Z.b2z b).
Proof. unfold is_word. destruct b; simpl; lia. Qed.

(** The two overflowing subtractions are one, with the borrow they report. *)
Lemma double_subtraction x s b :
  is_word x -> is_word s ->
  let d1 := (x - s) mod 2 ^ 64 in
  let d := (d1 - Z.b2z b) mod 2 ^ 64 in
  is_word d /\
  d + s + Z.b2z b = x + 2 ^ 64 * Z.b2z ((x <? s) || (d1 <? Z.b2z b)).
Proof.
  intros Hx Hs d1 d. unfold is_word in Hx, Hs |- *.
  assert (d1 = x - s + 2 ^ 64 * Z.b2z (x <? s)) as H1.
  { unfold d1. destruct (Z.ltb_spec x s); simpl Z.b2z;
      symmetry; [apply (Z.mod_unique _ _ (-1))|apply (Z.mod_unique _ _ 0)]; lia. }
  assert (0 <= d1 < 2 ^ 64) as Hd1 by (apply Z.mod_pos_bound; lia).
  assert (d = d1 - Z.b2z b + 2 ^ 64 * Z.b2z (d1 <? Z.b2z b)) as H2.
  { unfold d. clearbody d1. destruct b, (Z.ltb_spec d1 (Z.b2z true)), (Z.ltb_spec d1 (Z.b2z false));
      simpl Z.b2z in *; try lia;
      symmetry; first [apply (Z.mod_unique _ _ 0); lia | apply (Z.mod_unique _ _ (-1)); lia]. }
  split; [apply Z.mod_pos_bound; lia|].
  rewrite H2. clearbody d1 d. rewrite H1 in *.
  destruct b, (Z.ltb_spec x s); simpl Z.b2z in *; simpl orb;
    repeat match goal with |- context [?a <? ?b] => destruct (Z.ltb_spec a b) end;
    simpl Z.b2z in *; lia.
Qed.

(** The sum behind a subtraction, bit by bit. *)
Lemma subtraction_bits x s d b o :
  is_word x -> is_word s -> is_word d -> d + s + Z.b2z b = x + 2 ^ 64 * Z.b2z o ->
  exists c : nat -> bool, c O = b /\ c 64%nat = o /\
    forall i, (i < 64)%nat ->
      Z.testbit d (Z.of_nat i) =
        xorb (xorb (Z.testbit x (Z.of_nat i)) (Z.testbit s (Z.of_nat i))) (c i) /\
      c (S i) = (negb (Z.testbit x (Z.of_nat i)) && (Z.testbit s (Z.of_nat i) || c i)) ||
                (Z.testbit s (Z.of_nat i) && c i).
Proof.
  intros Hx Hs Hd Hsum. destruct (Z.add_carry_bits d s b) as (c & Hc & Hnext & H0).
  rewrite Hsum in Hc.
  assert (forall j, Z.testbit (x + 2 ^ 64 * Z.b2z o) j =
    xorb (xorb (Z.testbit d j) (Z.testbit s j)) (Z.testbit c j)) as Hbit
    by (intros j; by rewrite Hc, !Z.lxor_spec).
  assert (forall j, 0 <= j -> Z.testbit c (Z.succ j) =
    (Z.testbit d j && Z.testbit s j) || (Z.testbit c j && (Z.testbit d j || Z.testbit s j)))
    as Hcarry.
  { intros j Hj. rewrite <- Z.div2_bits, Hnext by done.
    by rewrite Z.lor_spec, !Z.land_spec, Z.lor_spec. }
  exists (fun i => Z.testbit c (Z.of_nat i)). split_and!; [done| |].
  - specialize (Hbit 64). rewrite (word_high d), (word_high s) in Hbit by (done || lia).
    change (Z.of_nat 64) with 64. rewrite ?xorb_false_l in Hbit. rewrite <- Hbit.
    rewrite <- (Z.add_0_l 64) at 2. rewrite <- Z.div_pow2_bits by lia.
    rewrite Z.mul_comm, Z.div_add, Z.div_small by (unfold is_word in *; lia). by destruct o.
  - intros i Hi. assert (Z.testbit (x + 2 ^ 64 * Z.b2z o) (Z.of_nat i) = Z.testbit x (Z.of_nat i))
      as Hlow.
    { rewrite <- (Z.mod_pow2_bits_low _ 64) by lia.
      rewrite Z.mul_comm, Z.mod_add, Z.mod_small by (unfold is_word in *; lia). done. }
    rewrite Hbit in Hlow. rewrite Nat2Z.inj_succ, Hcarry by lia. rewrite <- Hlow.
    by destruct (Z.testbit d (Z.of_nat i)), (Z.testbit s (Z.of_nat i)), (Z.testbit c (Z.of_nat i)).
Qed.

Lemma shifted_bit old cb i :
  (i < 64)%nat ->
  Z.testbit (Z.lor (shl old 1) (Z.b2z cb)) (Z.of_nat i) =
  previous_bit cb (fun i => Z.testbit old (Z.of_nat i)) i.
Proof.
  intros Hi. rewrite Z.lor_spec, shl_bit by lia. destruct i as [|i]; simpl previous_bit.
  - simpl Z.of_nat. by destruct cb.
  - destruct (Z.ltb_spec (Z.of_nat (S i)) (Z.of_nat 1)); [lia|].
    replace (Z.of_nat (S i) - Z.of_nat 1) with (Z.of_nat i) by lia.
    rewrite Nat2Z.inj_succ. destruct cb; simpl Z.b2z; [|by rewrite Z.bits_0, orb_false_r].
    rewrite <- Z.div2_bits by lia. simpl. by rewrite Z.bits_0, orb_false_r.
Qed.

(** A step of a word is 64 positions of the ripple. *)
Lemma step_ripple old m cb b new carry o :
  is_word old -> is_word m -> step old m (Z.b2z cb) b = (new, carry, o) ->
  is_word new /\ carry = Z.b2z (Z.testbit old 63) /\
  exists c, c 64%nat = o /\
    ripple 64 cb b (fun i => Z.testbit m (Z.of_nat i)) (fun i => Z.testbit old (Z.of_nat i))
      (fun i => Z.testbit new (Z.of_nat i)) c.
Proof.
  intros Hold Hm Hstep. unfold step in Hstep.
  set (x := Z.lor old m) in *. set (s := Z.lor (shl old 1) (Z.b2z cb)) in *.
  assert (is_word x) as Hx by (by apply lor_word).
  assert (is_word s) as Hs by (apply lor_word; [apply shl_word|apply b2z_word]).
  destruct (double_subtraction x s b Hx Hs) as [Hd Hsum].
  set (d := ((x - s) mod 2 ^ 64 - Z.b2z b) mod 2 ^ 64) in *.
  destruct (subtraction_bits x s d b _ Hx Hs Hd Hsum) as (c & Hc0 & Hc64 & Hc).
  injection Hstep as <- <- <-. split_and!.
  - apply land_word; [done|apply not64_word, Hd].
  - unfold shr. apply Z.bits_inj'. intros j Hj. rewrite Z.shiftr_spec by done.
    destruct (decide (j = 0)) as [->|Hne].
    { change (0 + Z.of_nat 63) with 63. by destruct (Z.testbit old 63). }
    rewrite word_high by (done || lia). destruct (Z.testbit old 63); [|by rewrite Z.bits_0].
    symmetry. apply Z.bits_above_log2; simpl; lia.
  - exists c. split; [done|]. constructor; [done| |].
    + intros i Hi. destruct (Hc i Hi) as [Hdi _]. rewrite Z.land_spec, not64_bit, Hdi by lia.
      unfold s. rewrite shifted_bit by done. by unfold x; rewrite Z.lor_spec.
    + intros i Hi. destruct (Hc i Hi) as [_ ->]. unfold s. rewrite shifted_bit by done.
      by unfold x; rewrite Z.lor_spec.
Qed.

(** ** Rows of words *)

(** The kernel's loop without its control: one step per word. *)
Fixpoint steps (bits masks : list Z) (carry : Z) (borrow : bool) : list Z :=
  match bits, masks with
  | w :: bits, m :: masks =>
      let '(w, carry, borrow) := step w m carry borrow in w :: steps bits masks carry borrow
  | _, _ => []
  end.

Lemma ripple_cons k cb b o m old new c ms olds news c' :
  c 64%nat = o ->
  ripple 64 cb b (fun i => Z.testbit m (Z.of_nat i)) (fun i => Z.testbit old (Z.of_nat i))
    (fun i => Z.testbit new (Z.of_nat i)) c ->
  ripple k (Z.testbit old 63) o (wbit ms) (wbit olds) (wbit news) c' ->
  ripple (64 + k) cb b (wbit (m :: ms)) (wbit (old :: olds)) (wbit (new :: news))
    (fun i => if (i <? 64)%nat then c i else c' (i - 64)%nat).
Proof.
  intros Ho [H0 Hb Hn] [H0' Hb' Hn'].
  assert (forall i, (i < 64)%nat -> previous_bit cb (wbit (old :: olds)) i =
    previous_bit cb (fun i => Z.testbit old (Z.of_nat i)) i) as Hlow.
  { intros [|i] Hi; [done|]. simpl previous_bit. by rewrite wbit_head by lia. }
  assert (forall i, previous_bit cb (wbit (old :: olds)) (64 + i) =
    previous_bit (Z.testbit old 63) (wbit olds) i) as Hhigh.
  { intros [|i]; [by apply (wbit_head old olds 63); lia|].
    replace (64 + S i)%nat with (S (64 + i)) by lia. simpl previous_bit. apply wbit_tail. }
  constructor; [done| |]; intros i Hi.
  - destruct (Nat.ltb_spec i 64) as [Hlt|Hge].
    + rewrite !wbit_head, Hlow by done. by apply Hb.
    + destruct (Nat.le_exists_sub 64 i Hge) as (j & -> & _). rewrite (Nat.add_comm j) in *.
      rewrite !wbit_tail, Hhigh. replace (64 + j - 64)%nat with j by lia. apply Hb'. lia.
  - destruct (Nat.ltb_spec i 64) as [Hlt|Hge].
    + rewrite !wbit_head, Hlow by done. rewrite <- (Hn i) by done.
      destruct (Nat.ltb_spec (S i) 64); [done|].
      replace (S i) with 64%nat by lia. by rewrite Ho, <- H0'.
    + destruct (Nat.le_exists_sub 64 i Hge) as (j & -> & _). rewrite (Nat.add_comm j) in *.
      destruct (Nat.ltb_spec (S (64 + j)) 64); [lia|].
      rewrite !wbit_tail, Hhigh. replace (64 + j - 64)%nat with j by lia.
      replace (S (64 + j) - 64)%nat with (S j) by lia. apply Hn'. lia.
Qed.

Lemma steps_ripple bits masks cb b :
  length masks = length bits -> Forall is_word bits -> Forall is_word masks ->
  length (steps bits masks (Z.b2z cb) b) = length bits /\
  Forall is_word (steps bits masks (Z.b2z cb) b) /\
  exists c, ripple (64 * length bits) cb b (wbit masks) (wbit bits)
              (wbit (steps bits masks (Z.b2z cb) b)) c.
Proof.
  revert masks cb b. induction bits as [|w bits IH]; intros [|m masks] cb b Hlen Hw Hm; try done.
  - split_and!; [done|done|]. exists (fun _ => b). constructor; [done|intros i Hi; simpl in Hi; lia..].
  - apply Forall_cons_iff in Hw as [Hw Hws], Hm as [Hm Hms]. simpl in Hlen.
    cbn [steps]. destruct (step w m (Z.b2z cb) b) as [[w' carry] o] eqn:Hstep.
    destruct (step_ripple _ _ _ _ _ _ _ Hw Hm Hstep) as (Hw' & -> & c & Hc & Hr).
    destruct (IH masks (Z.testbit w 63) o ltac:(lia) Hws Hms) as (Hl & Hf & c' & Hr').
    split_and!; [cbn [length]; by rewrite Hl|by constructor|].
    replace (64 * length (w :: bits))%nat with (64 + 64 * length bits)%nat by (simpl length; lia).
    eexists. by eapply ripple_cons.
Qed.

(** ** Postings *)

(** The word of a block, zero when the key has none there. *)
Fixpoint posting_word (l : Postings) (block : nat) : Z :=
  match l with
  | [] => 0
  | (at_, m) :: l => if (at_ =? block)%nat then m else posting_word l block
  end.

(** Bit [j] of the whole mask. *)
Definition posting_bit (l : Postings) (j : nat) : bool :=
  Z.testbit (posting_word l (j / 64)) (Z.of_nat (j mod 64)).

(** Strictly increasing blocks, each entry a word. *)
Inductive postings_ok : nat -> Postings -> Prop :=
| postings_nil low : postings_ok low []
| postings_cons low at_ m l :
    (low <= at_)%nat -> is_word m -> postings_ok (S at_) l -> postings_ok low ((at_, m) :: l).

(** [cursor] is at the first entry that is not before [block]. *)
Definition at_block (l : Postings) (cursor block : nat) : Prop :=
  postings_ok block (drop cursor l) /\
  forall b, (block <= b)%nat -> posting_word l b = posting_word (drop cursor l) b.

Lemma posting_word_low low l b : postings_ok low l -> (b < low)%nat -> posting_word l b = 0.
Proof.
  induction 1 as [|low at_ m l Hat _ _ IH]; intros Hb; [done|]. simpl.
  destruct (Nat.eqb_spec at_ b); [lia|]. apply IH. lia.
Qed.

Lemma postings_ok_weaken low low' l :
  postings_ok low l -> (low' <= low)%nat -> postings_ok low' l.
Proof. intros [|] Hle; constructor; auto. lia. Qed.

Lemma posting_word_is_word low l b : postings_ok low l -> is_word (posting_word l b).
Proof.
  induction 1 as [|low at_ m l _ Hm _ IH]; simpl; [by unfold is_word|].
  by destruct (_ =? _)%nat.
Qed.

(** The cursor reads the block's word and moves past it. *)
Lemma take_posting_spec l cursor block :
  at_block l cursor block ->
  exists cursor', take_posting l cursor block = (posting_word l block, cursor') /\
    at_block l cursor' (S block).
Proof.
  intros [Hok Hw]. unfold take_posting. rewrite (Hw block) by lia.
  pose proof (lookup_drop l cursor 0) as Hhd. rewrite Nat.add_0_r in Hhd. rewrite <- Hhd.
  destruct (drop cursor l) as [|[at_ m] rest] eqn:Hdrop.
  - exists cursor. split; [done|]. unfold at_block. rewrite Hdrop. split; [constructor|].
    intros b Hb. apply Hw. lia.
  - inversion Hok as [|? ? ? ? Hat Hm Hrest]; subst. simpl.
    destruct (Nat.eqb_spec at_ block) as [->|Hne].
    + exists (S cursor). split; [done|].
      assert (drop (S cursor) l = rest) as Hdrop'
        by (rewrite <- Nat.add_1_r, <- drop_drop, Hdrop; done).
      unfold at_block. rewrite Hdrop'. split; [done|]. intros b Hb. rewrite (Hw b) by lia. simpl.
      by destruct (Nat.eqb_spec block b); [lia|].
    + exists cursor. rewrite (posting_word_low (S at_) rest) by (done || lia). split; [done|].
      unfold at_block. rewrite Hdrop. split; [by constructor; [lia|..]|].
      intros b Hb. apply Hw. lia.
Qed.

Lemma partition_point_spec low l q :
  postings_ok low l ->
  at_block l (partition_point (fun '(block, _) => (block <? q)%nat) l) q.
Proof.
  induction 1 as [|low at_ m l Hat Hm Hl IH]; [by repeat constructor|]. simpl.
  destruct (Nat.ltb_spec at_ q).
  - destruct IH as [Hok Hw]. split; [done|]. intros b Hb. simpl.
    destruct (Nat.eqb_spec at_ b); [lia|]. by apply Hw.
  - split; [|done]. simpl. by constructor.
Qed.

(** ** The loops *)

Section loops.
Context {C : WorkControl}.

Lemma wp_check_every {B} block (k : Work C B) Q : wp k Q -> wp (check_every block ;; k) Q.
Proof.
  intros Hk. unfold check_every. destruct (_ =? _)%nat.
  - by apply wp_checkpoint_step.
  - by apply wp_bind, wp_ret.
Qed.

Lemma extend_sparse_from_spec bits l block carry borrow cursor :
  at_block l cursor block ->
  wp (C:=C) (extend_sparse_from bits l block carry borrow cursor)
    (fun new => new = steps bits (posting_word l <$> seq block (length bits)) carry borrow).
Proof.
  revert block carry borrow cursor.
  induction bits as [|w bits IH]; intros block carry borrow cursor Hat; [by apply wp_ret|].
  cbn [extend_sparse_from length seq fmap list_fmap steps]. apply wp_check_every.
  destruct (take_posting_spec _ _ _ Hat) as (cursor' & -> & Hat').
  destruct (step _ _ _ _) as [[w' carry'] borrow'].
  eapply wp_step; [by apply IH|]. intros new ->. by apply wp_ret.
Qed.

(** The mask of a block of the window. *)
Definition window_mask (l : Postings) (first span block : nat) : Z :=
  let low := posting_word l (first / 64 + block) in
  let high := posting_word l (first / 64 + block + 1) in
  let shift := (first mod 64)%nat in
  let mask := if (shift =? 0)%nat then low else Z.lor (shr low shift) (shl high (64 - shift)) in
  if (span <? (block + 1) * 64)%nat
  then Z.land mask (Z.shiftl 1 (Z.of_nat (span mod 64)) - 1) else mask.

Lemma extend_window_from_spec bits l first span block carry borrow cursor :
  at_block l cursor (first / 64 + block + 1) ->
  wp (C:=C) (extend_window_from bits l first span block
               (posting_word l (first / 64 + block)) carry borrow cursor)
    (fun new => new = steps bits (window_mask l first span <$> seq block (length bits)) carry borrow).
Proof.
  revert block carry borrow cursor.
  induction bits as [|w bits IH]; intros block carry borrow cursor Hat; [by apply wp_ret|].
  cbn [extend_window_from length seq fmap list_fmap steps]. apply wp_check_every.
  destruct (take_posting_spec _ _ _ Hat) as (cursor' & -> & Hat').
  fold (window_mask l first span block). cbv zeta.
  change (if (span <? (block + 1) * 64)%nat then _ else _) with (window_mask l first span block).
  destruct (step _ _ _ _) as [[w' carry'] borrow'].
  replace (first / 64 + block + 1)%nat with (first / 64 + S block)%nat in * by lia.
  eapply wp_step; [apply IH; by replace (first / 64 + S block + 1)%nat
    with (S (first / 64 + S block)) by lia|].
  intros new ->. by apply wp_ret.
Qed.

End loops.

(** ** Masks *)

Lemma stored_seq (f : nat -> Z) n i : (i < n)%nat -> stored (f <$> seq 0 n) i = f i.
Proof. intros Hi. unfold stored. by rewrite list_lookup_fmap, lookup_seq_lt. Qed.

Lemma wbit_seq (f : nat -> Z) n i :
  (i < 64 * n)%nat ->
  wbit (f <$> seq 0 n) i = Z.testbit (f (i / 64)%nat) (Z.of_nat (i mod 64)).
Proof.
  intros Hi. unfold wbit. rewrite stored_seq; [done|].
  pose proof (Nat.div_mod_eq i 64). lia.
Qed.

Lemma posting_bit_word l q r :
  (r < 64)%nat -> posting_bit l (64 * q + r) = Z.testbit (posting_word l q) (Z.of_nat r).
Proof. intros Hr. unfold posting_bit. by destruct (div_mod_64 q r Hr) as [-> ->]. Qed.

Lemma masks_words (f : nat -> Z) n :
  (forall i, is_word (f i)) -> Forall is_word (f <$> seq 0 n).
Proof. intros Hf. apply Forall_fmap, Forall_forall. intros i _. apply Hf. Qed.

Lemma low_ones_bit w r i :
  (i < 64)%nat -> (r < 64)%nat ->
  Z.testbit (Z.land w (Z.shiftl 1 (Z.of_nat r) - 1)) (Z.of_nat i) =
  (i <? r)%nat && Z.testbit w (Z.of_nat i).
Proof.
  intros Hi Hr. rewrite Z.land_spec.
  replace (Z.shiftl 1 (Z.of_nat r) - 1) with (Z.ones (Z.of_nat r))
    by (rewrite Z.ones_equiv, Z.shiftl_1_l; lia).
  rewrite Z.testbit_ones_nonneg, andb_comm by lia. f_equal.
  by destruct (Z.ltb_spec (Z.of_nat i) (Z.of_nat r)), (Nat.ltb_spec i r); try done; lia.
Qed.

(** The unrestricted mask of a window block is the window of the whole mask. *)
Lemma window_mask_window l first span block :
  window_mask l first span block =
  let ws := posting_word l <$> seq 0 (first / 64 + block + 2) in
  let mask := window_word ws (At first) block in
  if (span <? (block + 1) * 64)%nat
  then Z.land mask (Z.shiftl 1 (Z.of_nat (span mod 64)) - 1) else mask.
Proof.
  unfold window_mask, window_word. cbv zeta. rewrite !stored_seq by lia.
  by destruct (first mod 64)%nat.
Qed.

Lemma window_mask_is_word low l first span block :
  postings_ok low l -> is_word (window_mask l first span block).
Proof.
  intros Hok. rewrite window_mask_window. cbv zeta.
  assert (forall n, is_word (window_word (posting_word l <$> seq 0 n) (At first) block)) as Hw.
  { intros n. apply window_word_is_word, masks_words. intros i. by eapply posting_word_is_word. }
  destruct (_ <? _)%nat; [|done]. apply land_word; [done|].
  rewrite Z.shiftl_1_l. pose proof (Z.pow_pos_nonneg 2 (Z.of_nat (span mod 64))). lia.
Qed.

Lemma window_mask_bit low l first span k :
  postings_ok low l -> (k < 64 * div_ceil64 span)%nat ->
  wbit (window_mask l first span <$> seq 0 (div_ceil64 span)) k =
  (k <? span)%nat && posting_bit l (first + k).
Proof.
  intros Hok Hk. rewrite wbit_seq by done. rewrite window_mask_window. cbv zeta.
  pose proof (div_ceil64_spec span) as Hd. destruct (split_64 k) as (q & r & Hr & ->).
  destruct (div_mod_64 q r Hr) as [-> ->].
  assert (Z.testbit (window_word (posting_word l <$> seq 0 (first / 64 + q + 2)) (At first) q)
    (Z.of_nat r) = posting_bit l (first + (64 * q + r))) as Hbit.
  { set (ws := posting_word l <$> seq 0 (first / 64 + q + 2)).
    assert (Forall is_word ws) as Hws
      by (apply masks_words; intros; by eapply posting_word_is_word).
    etransitivity; [exact (window_word_at (mkBits ws 0) first q r Hws Hr)|].
    change (wbit ws (first + 64 * q + r) = posting_bit l (first + (64 * q + r))).
    unfold ws. rewrite wbit_seq; [by rewrite Nat.add_assoc|].
    pose proof (Nat.div_mod_eq first 64). pose proof (Nat.mod_upper_bound first 64). lia. }
  pose proof (Nat.div_mod_eq span 64). pose proof (Nat.mod_upper_bound span 64).
  destruct (Nat.ltb_spec span ((q + 1) * 64)).
  - rewrite low_ones_bit by lia. rewrite Hbit. f_equal.
    assert (span / 64 = q)%nat by nia.
    by destruct (Nat.ltb_spec r (span mod 64)), (Nat.ltb_spec (64 * q + r) span); try done; lia.
  - rewrite Hbit. by destruct (Nat.ltb_spec (64 * q + r) span); [|lia].
Qed.

(** What both loops do to a row: the recurrence, with clear bits past [n]. *)
Definition advanced (n : nat) (m : nat -> bool) (old new : list Z) : Prop :=
  length new = length old /\ Forall is_word new /\
  (forall i, (n <= i)%nat -> wbit new i = false) /\
  advances n m (wbit old) (wbit new).

Lemma steps_advanced n m old masks :
  length old = div_ceil64 n -> length masks = length old ->
  Forall is_word old -> Forall is_word masks ->
  (forall i, (n <= i)%nat -> wbit old i = false) ->
  (forall i, (i < 64 * div_ceil64 n)%nat -> wbit masks i = (i <? n)%nat && m i) ->
  advanced n m old (steps old masks 1 false).
Proof.
  intros Hlen Hmlen Hold Hmasks Hpast Hm. pose proof (div_ceil64_spec n).
  destruct (steps_ripple old masks true false Hmlen Hold Hmasks) as (Hl & Hw & c & Hr).
  change (Z.b2z true) with 1 in *. split_and!; [done|done| |].
  - intros i Hi. destruct (decide (i < 64 * length old)%nat) as [Hlt|Hge].
    + eapply ripple_clear; [done|done|by apply Hpast|]. rewrite Hm by (rewrite <- Hlen; done).
      by destruct (Nat.ltb_spec i n); [lia|].
    + apply wbit_past. rewrite Hl. lia.
  - intros k Hk. rewrite (ripple_advances _ _ _ _ _ Hr k) by lia.
    rewrite Hm by lia. by destruct (Nat.ltb_spec k n); [|lia].
Qed.

Section rows.
Context {C : WorkControl}.

Lemma extend_sparse_spec n low l bits :
  postings_ok low l -> (forall j, (n <= j)%nat -> posting_bit l j = false) ->
  length bits = div_ceil64 n -> Forall is_word bits ->
  (forall i, (n <= i)%nat -> wbit bits i = false) ->
  wp (C:=C) (extend_sparse bits l) (advanced n (posting_bit l) bits).
Proof.
  intros Hok Hl Hlen Hbits Hpast. eapply wp_mono.
  { apply extend_sparse_from_spec. split; [|done]. by eapply postings_ok_weaken; [|lia]. }
  intros new ->. apply steps_advanced; try done.
  - by rewrite length_fmap, length_seq.
  - apply masks_words. intros i. by eapply posting_word_is_word.
  - intros i Hi. rewrite wbit_seq by lia. fold (posting_bit l i).
    destruct (Nat.ltb_spec i n); [done|]. by apply Hl.
Qed.

Lemma extend_window_spec low l bits first span :
  postings_ok low l -> length bits = div_ceil64 span -> Forall is_word bits ->
  (forall i, (span <= i)%nat -> wbit bits i = false) ->
  wp (C:=C) (extend_window_sparse bits l first span)
    (advanced span (fun k => posting_bit l (first + k)) bits).
Proof.
  intros Hok Hlen Hbits Hpast. unfold extend_window_sparse. apply wp_checkpoint_step.
  destruct (take_posting_spec _ _ _ (partition_point_spec _ _ (first / 64) Hok))
    as (cursor & -> & Hat).
  eapply wp_mono.
  { replace (first / 64)%nat with (first / 64 + 0)%nat at 1 by lia.
    apply extend_window_from_spec.
    by replace (first / 64 + 0 + 1)%nat with (S (first / 64)) by lia. }
  intros new ->. apply steps_advanced; try done.
  - by rewrite length_fmap, length_seq.
  - apply masks_words. intros i. by eapply window_mask_is_word.
  - intros i Hi. rewrite Hlen. by eapply window_mask_bit.
Qed.

End rows.

(** ** Observing a reference *)

Lemma add_posting_cons e e' l j :
  add_posting (e :: e' :: l) j = e :: add_posting (e' :: l) j.
Proof.
  unfold add_posting. change (list.last (e :: e' :: l)) with (list.last (e' :: l)).
  destruct (list.last (e' :: l)) as [[last bits]|]; [|done].
  destruct (last =? j / 64)%nat; [|done].
  by replace (length (e :: e' :: l) - 1)%nat with (S (length (e' :: l) - 1)) by (simpl; lia).
Qed.

(** Adding a position sets its bit and keeps the order, when no entry lies
    past its block. *)
Lemma add_posting_spec low l j :
  postings_ok low l -> (low <= j / 64)%nat -> Forall (fun e => e.1 <= j / 64)%nat l ->
  postings_ok low (add_posting l j) /\ Forall (fun e => e.1 <= j / 64)%nat (add_posting l j) /\
  forall block, posting_word (add_posting l j) block =
    if (block =? j / 64)%nat then Z.lor (posting_word l block) (shl 1 (j mod 64))
    else posting_word l block.
Proof.
  intros Hok Hlow Hall. pose proof (shl_word 1 (j mod 64)) as Hbit.
  induction Hok as [low|low at_ m l Hat Hm Hl IH].
  - split_and!; [constructor; [done|done|constructor]|constructor; [done|constructor]|].
    intros block. cbn [add_posting list.last app posting_word]. rewrite (Nat.eqb_sym (j / 64)). by destruct (_ =? _)%nat.
  - apply Forall_cons_iff in Hall as [Hle Hall]. cbn [fst] in Hle. destruct l as [|e l].
    + unfold add_posting. cbn [list.last length Nat.sub insert list_insert app].
      destruct (Nat.eqb_spec at_ (j / 64)) as [->|Hne].
      * split_and!; [constructor; [done|by apply lor_word|constructor]|constructor; [done|constructor]|].
        intros block. cbn [posting_word]. rewrite (Nat.eqb_sym (j / 64)).
        by destruct (_ =? _)%nat.
      * split_and!; [constructor; [done|done|constructor; [lia|done|constructor]]| |].
        { constructor; [done|constructor; [done|constructor]]. }
        intros block. cbn [posting_word]. rewrite (Nat.eqb_sym (j / 64)).
        destruct (Nat.eqb_spec at_ block), (Nat.eqb_spec block (j / 64)); try done; lia.
    + rewrite add_posting_cons.
      assert (S at_ <= j / 64)%nat as Hlt.
      { inversion Hl as [|? a ? ? Ha]; subst. apply Forall_cons_iff in Hall as [Ha' _].
        cbn [fst] in Ha'. lia. }
      destruct (IH Hlt Hall) as (Hok' & Hall' & Hw).
      split_and!; [by constructor|by constructor|].
      intros block. cbn [posting_word]. rewrite Hw.
      destruct (Nat.eqb_spec at_ block); [|done]. by destruct (Nat.eqb_spec block (j / 64)); [lia|].
Qed.

Lemma add_posting_bit l j i :
  (forall block, posting_word (add_posting l j) block =
    if (block =? j / 64)%nat then Z.lor (posting_word l block) (shl 1 (j mod 64))
    else posting_word l block) ->
  posting_bit (add_posting l j) i = posting_bit l i || (i =? j)%nat.
Proof.
  intros Hw. unfold posting_bit. rewrite Hw.
  pose proof (Nat.div_mod_eq i 64). pose proof (Nat.mod_upper_bound i 64).
  pose proof (Nat.div_mod_eq j 64). pose proof (Nat.mod_upper_bound j 64).
  destruct (Nat.eqb_spec (i / 64) (j / 64)) as [Heq|Hne].
  - rewrite Z.lor_spec, shl_bit by lia. f_equal.
    destruct (Nat.eqb_spec i j) as [->|Hij].
    + destruct (Z.ltb_spec (Z.of_nat (j mod 64)) (Z.of_nat (j mod 64))); [lia|].
      by rewrite Z.sub_diag.
    + destruct (Z.ltb_spec (Z.of_nat (i mod 64)) (Z.of_nat (j mod 64))); [done|].
      apply Z.bits_above_log2; [done|]. change (Z.log2 1) with 0. lia.
  - destruct (Nat.eqb_spec i j) as [->|]; [done|]. by rewrite orb_false_r.
Qed.

(** The reference in the order its rows read it. *)
Definition ordered (R : list string) (order : ReferenceOrder) : list string :=
  match order with Forward => R | Reverse => reverse R end.

Lemma length_ordered R order : length (ordered R order) = length R.
Proof. destruct order; [done|]. apply length_reverse. Qed.

Lemma ordered_lookup R order j :
  (j < length R)%nat ->
  ordered R order !! j =
  R !! (match order with Forward => j | Reverse => length R - 1 - j end)%nat.
Proof.
  intros Hj. destruct order; [done|]. simpl. rewrite reverse_lookup by done.
  f_equal. lia.
Qed.

Lemma matches_words_key mode a b :
  matches_words mode a b = String.eqb (key b mode) (key a mode).
Proof. destruct mode; simpl; [apply String.eqb_sym|apply String.eqb_sym]. Qed.

(** A reference observed in an order: the postings of a word mark exactly the
    positions it matches. *)
Record reference_ok (o : LiteralReference) (mode : LiteralMatchMode) (R : list string) : Prop := {
  ref_mode : lr_mode o = mode;
  ref_length : length (reference o) = length R;
  ref_postings word : postings_ok 0 (default [] (postings o word));
  ref_bits word j :
    posting_bit (default [] (postings o word)) j =
    match R !! j with Some r => matches_words mode word r | None => false end
}.

(** What the map holds after the first [j] positions. *)
Definition masks_upto (R : list string) mode (j : nat) (masks : gmap string Postings) : Prop :=
  forall k,
    postings_ok 0 (default [] (masks !! k)) /\
    Forall (fun e => e.1 <= j / 64)%nat (default [] (masks !! k)) /\
    forall i, posting_bit (default [] (masks !! k)) i =
      (i <? j)%nat && match R !! i with Some r => String.eqb (key r mode) k | None => false end.

Lemma masks_upto_step R mode j masks word :
  R !! j = Some word -> masks_upto R mode j masks ->
  masks_upto R mode (S j)
    (<[key word mode := add_posting (default [] (masks !! key word mode)) j]> masks).
Proof.
  intros Hj Hmasks k.
  assert (j / 64 <= S j / 64)%nat as Hdiv by (apply Nat.Div0.div_le_mono; lia).
  assert (forall l, Forall (fun e : nat * Z => e.1 <= j / 64)%nat l ->
    Forall (fun e => e.1 <= S j / 64)%nat l) as Hup.
  { intros l Hl. eapply Forall_impl; [|exact Hl]. intros e He. cbn beta in *. lia. }
  destruct (decide (key word mode = k)) as [<-|Hne].
  - rewrite lookup_insert_eq. simpl. destruct (Hmasks (key word mode)) as (Hok & Hall & Hbits).
    destruct (add_posting_spec 0 _ j Hok ltac:(lia) Hall) as (Hok' & Hall' & Hw).
    split_and!; [done|by apply Hup|]. intros i. rewrite add_posting_bit, Hbits by done.
    destruct (Nat.eqb_spec i j) as [->|Hij].
    + rewrite orb_true_r, Hj, String.eqb_refl. by destruct (Nat.ltb_spec j (S j)); [|lia].
    + rewrite orb_false_r. f_equal.
      by destruct (Nat.ltb_spec i j), (Nat.ltb_spec i (S j)); try done; lia.
  - rewrite lookup_insert_ne by done. destruct (Hmasks k) as (Hok & Hall & Hbits).
    split_and!; [done|by apply Hup|]. intros i. rewrite Hbits.
    destruct (Nat.ltb_spec i j), (Nat.ltb_spec i (S j)); try done; try lia.
    replace i with j by lia. rewrite Hj. simpl. symmetry. by apply String.eqb_neq.
Qed.

Lemma masks_upto_empty R mode : masks_upto R mode 0 ∅.
Proof.
  intros k. rewrite lookup_empty. simpl. split_and!; [constructor|constructor|].
  intros i. unfold posting_bit. simpl. by rewrite Z.bits_0.
Qed.

Section observing.
Context {C : WorkControl}.

Lemma observe_spec R mode order :
  wp (C:=C) (observe R mode order)
    (fun o => reference_ok o mode (ordered R order)).
Proof.
  unfold observe. apply wp_checkpoint_step. eapply wp_step.
  - eapply (wp_for_seq 0 (length R) _ (masks_upto (ordered R order) mode));
      [apply masks_upto_empty| |intros masks Hm; exact Hm].
    intros j masks Hj Hm. apply wp_check_every. simpl in Hj.
    destruct (lookup_lt_is_Some_2 (ordered R order) j) as [word Hword];
      [rewrite length_ordered; lia|].
    eapply wp_index_step; [rewrite <- ordered_lookup by lia; exact Hword|].
    apply wp_ret. by apply masks_upto_step.
  - intros masks Hm. apply wp_ret. constructor.
    + done.
    + simpl. by rewrite length_ordered.
    + intros word. apply Hm.
    + intros word j. unfold postings. simpl. destruct (Hm (key word mode)) as (_ & _ & ->).
      destruct (ordered R order !! j) as [r|] eqn:Hj; [|by rewrite andb_false_r].
      apply lookup_lt_Some in Hj. rewrite length_ordered in Hj.
      rewrite matches_words_key. by destruct (Nat.ltb_spec j (0 + length R)); [|lia].
Qed.

End observing.

(** ** Rows and the alignments they score *)

Lemma matches_words_symmetric (mode : LiteralMatchMode) p r :
  matches (T:=string) r p mode = matches_words mode p r.
Proof. destruct mode; simpl; apply String.eqb_sym. Qed.

(** The cost the aligner gives two sequences of these lengths when [s] of
    their items are matched. *)
Definition matched_cost (P R : list string) (s : Z) : Z :=
  Z.of_nat (length P) + Z.of_nat (length R) - 2 * s.

(** At every prefix of [R], [h] is the number of matches of an optimal
    alignment with the words [P]. *)
Definition optimal_scores (mode : LiteralMatchMode) (P R : list string) (h : nat -> Z) : Prop :=
  forall k, (k <= length R)%nat -> opt (T:=string) mode P (take k R) (matched_cost P (take k R) (h k)).

Lemma optimal_scores_start mode R : optimal_scores mode [] R (rank (fun _ => false)).
Proof.
  intros k Hk. unfold matched_cost. rewrite rank_clear by done.
  replace (_ - 2 * 0) with (Z.of_nat (length (take k R))) by (simpl; lia). apply opt_reference.
Qed.

(** One more word: the recurrence keeps the scores optimal. *)
Lemma optimal_scores_step mode P R word m old new :
  optimal_scores mode P R (rank old) ->
  (forall k r, R !! k = Some r -> m k = matches_words mode word r) ->
  advances (length R) m old new ->
  optimal_scores mode (P ++ [word]) R (rank new).
Proof.
  intros Hold Hm Hadv k. induction k as [|k IH]; intros Hk.
  - unfold matched_cost. rewrite take_0. simpl rank.
    replace (_ - 2 * 0) with (Z.of_nat (length (P ++ [word]))) by (simpl length; lia).
    apply opt_payload.
  - destruct (lookup_lt_is_Some_2 R k ltac:(lia)) as [r Hr].
    pose proof (Hold k ltac:(lia)) as Ha. pose proof (Hold (S k) Hk) as Hc.
    specialize (IH ltac:(lia)).
    pose proof (Hadv k ltac:(lia)) as Hk'. rewrite (Hm k r Hr) in Hk'.
    rewrite (take_S_r _ _ _ Hr) in *.
    pose proof (opt_step (T:=string) mode P (take k R) word r _ _ _ Ha IH Hc) as Hstep.
    rewrite matches_words_symmetric in Hstep.
    match type of Hstep with opt _ _ _ ?c =>
      replace (matched_cost (P ++ [word]) (take k R ++ [r]) (rank new (S k))) with c; [done|] end.
    unfold matched_cost, COST_SUB, COST_GAP. rewrite !length_app, Hk'. simpl length.
    destruct (matches_words mode word r); simpl Z.b2z; lia.
Qed.

(** The row of a reference after the words [P]. *)
Record row_ok (mode : LiteralMatchMode) (R P : list string) (r : PackedRow) : Prop := {
  row_reference : reference_ok (owner r) mode R;
  row_words : Forall is_word (bits r);
  row_length : length (bits r) = div_ceil64 (length R);
  row_past i : (length R <= i)%nat -> wbit (bits r) i = false;
  row_scores : optimal_scores mode P R (rank (wbit (bits r)))
}.

Lemma start_ok o mode R : reference_ok o mode R -> row_ok mode R [] (start o).
Proof.
  intros Ho. constructor; simpl.
  - done.
  - apply Forall_replicate. by unfold is_word.
  - by rewrite length_replicate, (ref_length _ _ _ Ho).
  - intros i _. apply wbit_zeros.
  - intros k Hk. rewrite (rank_ext _ (fun _ => false)) by (intros; apply wbit_zeros).
    by apply optimal_scores_start.
Qed.

Lemma count_if_rank f a n :
  Z.of_nat (count_if f (seq a n)) = rank (fun i => f (a + i)%nat) n.
Proof.
  induction n as [|n IH]; [done|]. rewrite seq_S, count_if_app. simpl. rewrite <- IH.
  destruct (f (a + n)%nat); simpl; lia.
Qed.

Lemma count_ones_rank w : count_ones w = rank (fun i => Z.testbit w (Z.of_nat i)) 64.
Proof. apply count_if_rank. Qed.

Lemma rank_cons w ws k :
  rank (wbit (w :: ws)) (64 + k) = count_ones w + rank (wbit ws) k.
Proof.
  rewrite rank_add, count_ones_rank.
  rewrite (rank_ext (wbit (w :: ws)) (fun i => Z.testbit w (Z.of_nat i)) 64)
    by (intros i Hi; by apply wbit_head).
  rewrite (rank_ext (fun i => wbit (w :: ws) (64 + i)) (wbit ws) k)
    by (intros i _; apply wbit_tail). done.
Qed.

Lemma score_rank r : score r = rank (wbit (bits r)) (64 * length (bits r)).
Proof.
  unfold score. induction (bits r) as [|w ws IH]; [done|].
  replace (64 * length (w :: ws))%nat with (64 + 64 * length ws)%nat by (simpl length; lia).
  rewrite rank_cons, <- IH. done.
Qed.

Lemma prefix_blocks_spec ws b bs t :
  prefix_blocks ws b = (bs, t) ->
  t = b + rank (wbit ws) (64 * length ws) /\
  forall q, (q < length ws)%nat ->
    bs !! q = Some (mkPrefixBlock (b + rank (wbit ws) (64 * q)) (stored ws q)).
Proof.
  revert b bs t. induction ws as [|w ws IH]; intros b bs t Hp; cbn [prefix_blocks] in Hp.
  - simplify_eq. split; [simpl; lia|]. intros q Hq. simpl in Hq. lia.
  - destruct (prefix_blocks ws (b + count_ones w)) as [bs' t'] eqn:Hrec. simplify_eq.
    destruct (IH _ _ _ Hrec) as [-> Hbs].
    replace (64 * length (w :: ws))%nat with (64 + 64 * length ws)%nat by (simpl length; lia).
    rewrite rank_cons. split; [lia|]. intros [|q] Hq; [simpl; by rewrite Z.add_0_r|].
    cbn [lookup list_lookup]. rewrite Hbs by (simpl in Hq; lia).
    replace (64 * S q)%nat with (64 + 64 * q)%nat by lia. rewrite rank_cons.
    by rewrite Z.add_assoc.
Qed.

Lemma masked_count w r :
  (r < 64)%nat ->
  count_ones (Z.land w (Z.shiftl 1 (Z.of_nat r) - 1)) = rank (fun i => Z.testbit w (Z.of_nat i)) r.
Proof.
  intros Hr. rewrite count_ones_rank. replace 64%nat with (r + (64 - r))%nat by lia.
  rewrite rank_add, (rank_clear (fun i => Z.testbit _ (Z.of_nat (r + i)))), Z.add_0_r.
  - apply rank_ext. intros i Hi. rewrite low_ones_bit by lia. by destruct (Nat.ltb_spec i r); [|lia].
  - intros i Hi. rewrite low_ones_bit by lia. by destruct (Nat.ltb_spec (r + i) r); [lia|].
Qed.

Section theorems.
Context {C : WorkControl}.

Lemma before_spec mode R P r k :
  row_ok mode R P r -> (k <= length R)%nat ->
  wp (C:=C) (before (prefixes r) k) (fun s => s = rank (wbit (bits r)) k).
Proof.
  intros [Ho _ Hlen Hpast _] Hk. unfold before, prefixes.
  destruct (prefix_blocks (bits r) 0) as [bs t] eqn:Hp.
  destruct (prefix_blocks_spec _ _ _ _ Hp) as [-> Hbs]. cbn [scores_length blocks PackedLiteral.total].
  pose proof (div_ceil64_spec (length R)). rewrite (ref_length _ _ _ Ho).
  destruct (Nat.eqb_spec k (length R)) as [->|Hne].
  - apply wp_ret. cbn beta. rewrite (rank_past _ (length R) (64 * length (bits r))) by (done || lia). lia.
  - destruct (split_64 k) as (q & i & Hi & ->). destruct (div_mod_64 q i Hi) as [-> ->].
    eapply wp_index_step; [apply Hbs; lia|]. apply wp_ret. cbn [block_before block_bits].
    rewrite masked_count, rank_add by done. rewrite Z.add_0_l. f_equal. apply rank_ext.
    intros j Hj. symmetry. apply wbit_word. lia.
Qed.

Lemma extend_spec mode R P r word :
  row_ok mode R P r -> wp (C:=C) (extend r word) (row_ok mode R (P ++ [word])).
Proof.
  intros [Ho Hw Hlen Hpast Hs]. unfold extend, advance. apply wp_checkpoint_step.
  eapply wp_step; [eapply (extend_sparse_spec (length R)); try done; [apply Ho|]|].
  - intros j Hj. rewrite (ref_bits _ _ _ Ho), lookup_ge_None_2 by done. done.
  - intros new (Hl & Hw' & Hpast' & Hadv). apply wp_ret. constructor; simpl; try done.
    + by rewrite Hl.
    + eapply optimal_scores_step; [done| |done]. intros k x Hk.
      by rewrite (ref_bits _ _ _ Ho), Hk.
Qed.

(** Extending a row by a sequence of words. *)
Definition extend_all (r : PackedRow) (words : list string) : Work C PackedRow :=
  for_each words (fun word r => extend r word) r.

Lemma extend_all_spec mode R o words :
  reference_ok o mode R -> wp (extend_all (start o) words) (row_ok mode R words).
Proof.
  intros Ho. apply (wp_for_each _ _ (fun done r => row_ok mode R done r)).
  - by apply start_ok.
  - intros done word rest r _ Hr. by apply extend_spec.
  - done.
Qed.

(** C4: the packed rows score the optimal alignments: after any sequence of
    words, in either order of the reference and under any control, every prefix
    of the reference has as its score the number of matches of an optimal
    alignment of the words with that prefix, the cost the aligner computes; the
    row's own score is that of the whole reference. Reading a prefix never
    panics. *)
Theorem packed_rows_score_optimal_alignments R mode order words :
  wp (C:=C) (let! o := observe R mode order in extend_all (start o) words) (fun r =>
    opt (T:=string) mode words (ordered R order)
      (matched_cost words (ordered R order) (score r)) /\
    forall k, (k <= length R)%nat ->
      wp (C:=C) (before (prefixes r) k) (fun s =>
        opt (T:=string) mode words (take k (ordered R order))
          (matched_cost words (take k (ordered R order)) s))).
Proof.
  eapply wp_step; [apply observe_spec|]. intros o Ho.
  eapply wp_mono; [eapply extend_all_spec, Ho|]. intros r Hr. pose proof (row_scores _ _ _ _ Hr) as Hs.
  split.
  - specialize (Hs _ (le_n _)). rewrite firstn_all in Hs. rewrite score_rank.
    pose proof (div_ceil64_spec (length (ordered R order))).
    rewrite (rank_past _ (length (ordered R order))); [exact Hs|by apply Hr|].
    rewrite (row_length _ _ _ _ Hr). lia.
  - intros k Hk. rewrite <- (length_ordered R order) in Hk.
    eapply wp_mono; [by eapply before_spec|]. intros s ->. by apply Hs.
Qed.

(** C26: a row restricted to a window of the reference advances by the same
    recurrence: whatever word boundaries the window crosses, the new score of
    each prefix of the window is the largest of the old score there, the new
    score before it, and the old score before it with one more when the word
    matches the reference at that place; the bits past the window stay clear,
    so the row can be advanced again. *)
Theorem window_rows_follow_the_recurrence o mode R row word first span :
  reference_ok o mode R ->
  length row = div_ceil64 span -> Forall is_word row ->
  (forall i, (span <= i)%nat -> wbit row i = false) ->
  wp (C:=C) (advance_window o row word first span) (fun new =>
    length new = length row /\ Forall is_word new /\
    (forall i, (span <= i)%nat -> wbit new i = false) /\
    forall k, (k < span)%nat ->
      rank (wbit new) (S k) =
      Z.max (Z.max (rank (wbit row) (S k)) (rank (wbit new) k))
        (rank (wbit row) k +
         match R !! (first + k)%nat with
         | Some r => Z.b2z (matches_words mode word r)
         | None => 0
         end)).
Proof.
  intros Ho Hlen Hw Hpast.
  eapply wp_mono; [by eapply extend_window_spec; [apply Ho|..]|].
  intros new (Hl & Hw' & Hpast' & Hadv). split_and!; try done.
  intros k Hk. rewrite (Hadv k Hk), (ref_bits _ _ _ Ho). by destruct (R !! (first + k)%nat).
Qed.

End theorems.

(** ** Witnesses *)

Definition sample_reference : list string := ["a"; "B"; "b"; "c"; "A"].

(** The scores of a concrete row, by running the kernel. *)
Example packed_row_runs :
  uninterrupted
    (let! o := observe sample_reference AsciiInsensitive Reverse in
     let! r := extend_all (start o) ["a"; "c"; "b"] in
     let! s := before (prefixes r) 3 in
     ret (bits r, score r, s)) = Some ([7], 3, 3).
Proof. vm_compute. reflexivity. Qed.

Lemma window_rows_follow_the_recurrence_witness :
  exists o, observe (C:=Uninterrupted) sample_reference AsciiInsensitive Forward tt = (Ok o, tt) /\
    wp (C:=Uninterrupted) (advance_window o [2] "b" 1 3) (fun new =>
      length new = 1%nat /\ Forall is_word new /\
      (forall i, (3 <= i)%nat -> wbit new i = false) /\
      forall k, (k < 3)%nat ->
        rank (wbit new) (S k) =
        Z.max (Z.max (rank (wbit [2]) (S k)) (rank (wbit new) k))
          (rank (wbit [2]) k +
           match sample_reference !! (1 + k)%nat with
           | Some r => Z.b2z (matches_words AsciiInsensitive "b" r)
           | None => 0
           end)).
Proof.
  destruct (wp_uninterrupted _ _
    (observe_spec (C:=Uninterrupted) sample_reference AsciiInsensitive Forward)) as (o & Ho & Hok).
  exists o. split; [exact Ho|].
  apply (window_rows_follow_the_recurrence o AsciiInsensitive sample_reference [2] "b" 1 3 Hok).
  - reflexivity.
  - constructor; [unfold is_word; lia|constructor].
  - intros i Hi. destruct (decide (i < 64)%nat) as [Hlt|Hge]; [|apply wbit_past; simpl; lia].
    rewrite wbit_head by done. apply Z.bits_above_log2; [lia|]. change (Z.log2 2) with 1. lia.
Defined.
