(* ===== verification/PackedScoreFacts.v ===== *)
(** * Properties of the byte-parallel scores

    [maximum_word] and [equal_byte] treat a word as eight byte lanes. The
    lemmas here compute each of their operations lane by lane, with the bounds
    that keep a lane from spilling into the next, and the theorems say what the
    merged profile and the cuts are as functions of prefix scores. *)

From S2P Require Import Prelude WorkControl DpAlign PackedBits PackedLiteral PackedLiteralFacts.
From stdpp Require Import base decidable option list list_numbers strings numbers.

Open Scope Z_scope.
Open Scope rust_scope.

(** ** Lanes *)

(** The number whose bytes, least significant first, are [l]. *)
Fixpoint lanes (l : list Z) : Z :=
  match l with
  | [] => 0
  | x :: l => x + 256 * lanes l
  end.

Definition is_lane (x : Z) : Prop := 0 <= x < 256.

Lemma lanes_nonneg l : Forall (fun x => 0 <= x) l -> 0 <= lanes l.
Proof. induction 1; simpl; lia. Qed.

Lemma lanes_bound l : Forall is_lane l -> 0 <= lanes l < 256 ^ Z.of_nat (length l).
Proof.
  induction 1 as [|x l Hx _ IH]; [done|]. cbn [lanes length].
  rewrite Nat2Z.inj_succ, Z.pow_succ_r by lia. unfold is_lane in Hx. lia.
Qed.

Lemma lanes_word l : length l = 8%nat -> Forall is_lane l -> is_word (lanes l).
Proof. intros Hl Hb%lanes_bound. rewrite Hl in Hb. exact Hb. Qed.

(** A bit of a number split off its low byte. *)
Lemma lane_bit x y n :
  is_lane x -> 0 <= n ->
  Z.testbit (x + 256 * y) n = if n <? 8 then Z.testbit x n else Z.testbit y (n - 8).
Proof.
  intros Hx Hn. unfold is_lane in Hx. change 256 with (2 ^ 8) in *.
  destruct (Z.ltb_spec n 8).
  - rewrite <- (Z.mod_pow2_bits_low _ 8) by lia.
    by rewrite Z.mul_comm, Z.mod_add, Z.mod_small by lia.
  - replace n with (n - 8 + 8) at 1 by lia. rewrite <- Z.div_pow2_bits by lia.
    by rewrite Z.mul_comm, Z.div_add, Z.div_small by lia.
Qed.

Lemma lane_high x n : is_lane x -> 8 <= n -> Z.testbit x n = false.
Proof.
  intros Hx Hn. pose proof (lane_bit x 0 n Hx ltac:(lia)) as Hb.
  rewrite Z.add_0_r in Hb. rewrite Hb. destruct (Z.ltb_spec n 8); [lia|]. apply Z.bits_0.
Qed.

Section bitwise.
Context (op : Z -> Z -> Z) (f : bool -> bool -> bool).
Context (op_spec : forall a b n, Z.testbit (op a b) n = f (Z.testbit a n) (Z.testbit b n)).
Context (f_false : f false false = false).

Lemma op_nonneg a b : 0 <= a -> 0 <= b -> 0 <= op a b.
Proof.
  intros Ha Hb. apply Z.bits_iff_nonneg_ex.
  destruct (proj1 (Z.bits_iff_nonneg_ex a) Ha) as [k Hk].
  destruct (proj1 (Z.bits_iff_nonneg_ex b) Hb) as [k' Hk'].
  exists (Z.max k k'). intros m Hm. by rewrite op_spec, Hk, Hk' by lia.
Qed.

Lemma op_lane a b : is_lane a -> is_lane b -> is_lane (op a b).
Proof.
  intros Ha Hb. assert (0 <= op a b) by (apply op_nonneg; unfold is_lane in *; lia).
  split; [done|]. destruct (Z.lt_ge_cases (op a b) 256) as [|Hge]; [done|].
  pose proof (Z.bit_log2 (op a b) ltac:(lia)) as Hbit.
  rewrite op_spec, !lane_high, f_false in Hbit; try done;
    apply Z.log2_le_pow2; change (2 ^ 8) with 256; lia.
Qed.

(** A bitwise operation acts on each lane. *)
Lemma lanes_op l k :
  Forall is_lane l -> Forall is_lane k -> length l = length k ->
  op (lanes l) (lanes k) = lanes (zip_with op l k).
Proof.
  intros Hl. revert k. induction Hl as [|x l Hx Hl IH]; intros [|y k] Hk Hlen; try done.
  - apply Z.bits_inj'. intros n _. rewrite op_spec. simpl. by rewrite Z.bits_0.
  - apply Forall_cons_iff in Hk as [Hy Hk]. simpl in Hlen. cbn [lanes zip_with].
    rewrite <- IH by (done || lia). apply Z.bits_inj'. intros n Hn.
    rewrite op_spec, !lane_bit, !op_spec by (done || by apply op_lane).
    by destruct (n <? 8).
Qed.

End bitwise.

Definition lanes_land := lanes_op Z.land andb Z.land_spec eq_refl.
Definition lanes_lor := lanes_op Z.lor orb Z.lor_spec eq_refl.
Definition lanes_lxor := lanes_op Z.lxor xorb Z.lxor_spec eq_refl.

Lemma lanes_zip (op : Z -> Z -> Z) (a b : Z) l k :
  (forall x y, op x y = a * x + b * y) -> length l = length k ->
  a * lanes l + b * lanes k = lanes (zip_with op l k).
Proof.
  intros Hop. revert k. induction l as [|x l IH]; intros [|y k] Hlen; try done; simpl in Hlen;
    cbn [lanes zip_with]; [lia|]. rewrite <- IH, Hop by lia. lia.
Qed.

Lemma lanes_add l k : length l = length k -> lanes l + lanes k = lanes (zip_with Z.add l k).
Proof. intros Hl. rewrite <- (lanes_zip Z.add 1 1) by (done || intros; lia). lia. Qed.

Lemma lanes_sub l k : length l = length k -> lanes l - lanes k = lanes (zip_with Z.sub l k).
Proof. intros Hl. rewrite <- (lanes_zip Z.sub 1 (-1)) by (done || intros; lia). lia. Qed.

Lemma lanes_scale l c : lanes l * c = lanes ((fun x => x * c) <$> l).
Proof. induction l as [|x l IH]; [done|]. cbn [lanes fmap list_fmap]. rewrite <- IH. lia. Qed.

Lemma ones_lanes c : ONES * c = lanes (replicate 8 c).
Proof. unfold ONES. simpl. lia. Qed.

(** ** Eight lanes given by a function *)

Definition eight (f : nat -> Z) : Z := lanes (f <$> seq 0 8).

Definition lanewise (f : nat -> Z) : Prop := forall i, (i < 8)%nat -> is_lane (f i).

Lemma eight_ext f g : (forall i, (i < 8)%nat -> f i = g i) -> eight f = eight g.
Proof.
  intros Hfg. unfold eight. f_equal. apply list_fmap_ext. intros i x Hx.
  apply lookup_seq in Hx as [-> Hi]. by apply Hfg.
Qed.

Lemma lanewise_forall f : lanewise f -> Forall is_lane (f <$> seq 0 8).
Proof.
  intros Hf. apply Forall_fmap, Forall_forall. intros i Hi%in_seq. apply Hf. lia.
Qed.

Lemma eight_word f : lanewise f -> is_word (eight f).
Proof. intros Hf. apply lanes_word; [done|by apply lanewise_forall]. Qed.

Lemma zip_with_fmap {A B} (op : B -> B -> B) (f g : A -> B) l :
  zip_with op (f <$> l) (g <$> l) = (fun x => op (f x) (g x)) <$> l.
Proof. induction l as [|x l IH]; [done|]. cbn. by f_equal. Qed.

Lemma eight_add f g : eight f + eight g = eight (fun i => f i + g i).
Proof. unfold eight. by rewrite lanes_add, zip_with_fmap. Qed.

Lemma eight_sub f g : eight f - eight g = eight (fun i => f i - g i).
Proof. unfold eight. by rewrite lanes_sub, zip_with_fmap. Qed.

Lemma eight_scale f c : eight f * c = eight (fun i => f i * c).
Proof. unfold eight. by rewrite lanes_scale, <- list_fmap_compose. Qed.

Lemma eight_land f g :
  lanewise f -> lanewise g -> Z.land (eight f) (eight g) = eight (fun i => Z.land (f i) (g i)).
Proof.
  intros Hf Hg. unfold eight. by rewrite lanes_land, zip_with_fmap by (done || by apply lanewise_forall).
Qed.

Lemma eight_lor f g :
  lanewise f -> lanewise g -> Z.lor (eight f) (eight g) = eight (fun i => Z.lor (f i) (g i)).
Proof.
  intros Hf Hg. unfold eight. by rewrite lanes_lor, zip_with_fmap by (done || by apply lanewise_forall).
Qed.

Lemma eight_lxor f g :
  lanewise f -> lanewise g -> Z.lxor (eight f) (eight g) = eight (fun i => Z.lxor (f i) (g i)).
Proof.
  intros Hf Hg. unfold eight. by rewrite lanes_lxor, zip_with_fmap by (done || by apply lanewise_forall).
Qed.

Lemma eight_ones c : ONES * c = eight (fun _ => c).
Proof. apply ones_lanes. Qed.

Lemma eight_high : HIGH = eight (fun _ => 128).
Proof. reflexivity. Qed.

Lemma eight_low : LOW = eight (fun _ => 127).
Proof. reflexivity. Qed.

Lemma eight_not f : lanewise f -> not64 (eight f) = eight (fun i => Z.lxor (f i) 255).
Proof.
  intros Hf. unfold not64. change (Z.ones 64) with (eight (fun _ => 255)).
  apply eight_lxor; [done|]. by intros i _.
Qed.

(** The lanes one place up, with [c] in the lowest. *)
Definition one_up (c : Z) (f : nat -> Z) (i : nat) : Z :=
  match i with O => c | S i => f i end.

Lemma lane_lanewise c : is_lane c -> lanewise (fun _ => c).
Proof. by intros Hc i _. Qed.

Lemma one_up_lanewise c f : is_lane c -> lanewise f -> lanewise (one_up c f).
Proof. intros Hc Hf [|i] Hi; [done|]. apply Hf. lia. Qed.

Lemma eight_shift f c :
  lanewise f -> is_lane c -> Z.lor (shl (eight f) 8) c = eight (one_up c f).
Proof.
  intros Hf Hc. assert (shl (eight f) 8 = eight (one_up 0 f)) as ->.
  { unfold shl. rewrite Z.shiftl_mul_pow2 by lia. symmetry. apply (Z.mod_unique _ _ (f 7%nat)).
    - left. apply eight_word, one_up_lanewise; [done|done].
    - unfold eight. cbn [fmap list_fmap seq lanes one_up].
      change (2 ^ Z.of_nat 8) with 256. change (2 ^ 64) with 18446744073709551616. lia. }
  assert (eight (one_up c (fun _ => 0)) = c) as Hc'
    by (unfold eight; cbn [fmap list_fmap seq lanes one_up]; lia).
  rewrite <- Hc' at 1. rewrite eight_lor by (apply one_up_lanewise; done).
  apply eight_ext. intros [|i] _; simpl; [done|]. apply Z.lor_0_r.
Qed.

Lemma eight_halve f : shr (eight (fun i => f i * 128)) 7 = eight f.
Proof.
  rewrite <- eight_scale. unfold shr. rewrite Z.shiftr_div_pow2 by lia.
  change (2 ^ Z.of_nat 7) with 128. apply Z.div_mul. lia.
Qed.

(** Gathering the low bit of each lane into a byte. *)
Definition gather (g : nat -> bool) : Z := shr (eight (fun i => Z.b2z (g i)) * PACK mod 2 ^ 64) 56.

(** The byte with the bits [b]. *)
Definition byte_of_bits (b : nat -> Z) : Z :=
  foldr (fun i acc => b i + 2 * acc) 0 (seq 0 8).

(** Multiplying by [PACK] sums the lanes into the top byte, each at its own
    place, and nothing below carries into it. *)
Lemma pack_top b :
  (forall i, (i < 8)%nat -> 0 <= b i <= 1) ->
  shr (eight b * PACK mod 2 ^ 64) 56 = byte_of_bits b.
Proof.
  intros Hb. unfold shr. rewrite Z.shiftr_div_pow2 by lia.
  assert (0 <= b 0%nat <= 1 /\ 0 <= b 1%nat <= 1 /\ 0 <= b 2%nat <= 1 /\ 0 <= b 3%nat <= 1 /\
    0 <= b 4%nat <= 1 /\ 0 <= b 5%nat <= 1 /\ 0 <= b 6%nat <= 1 /\ 0 <= b 7%nat <= 1) as Hall
    by (split_and!; apply Hb; lia).
  unfold eight, byte_of_bits. cbn [fmap list_fmap seq lanes foldr]. unfold PACK.
  generalize dependent (b 0%nat). generalize dependent (b 1%nat). generalize dependent (b 2%nat).
  generalize dependent (b 3%nat). generalize dependent (b 4%nat). generalize dependent (b 5%nat).
  generalize dependent (b 6%nat). generalize dependent (b 7%nat).
  intros b7 b6 b5 b4 b3 b2 b1 b0 Hall.
  change (2 ^ 64) with 18446744073709551616. change (2 ^ Z.of_nat 56) with 72057594037927936.
  symmetry. apply Z.div_unique with (r := 567382630219904 * b0 + 1134765260439552 * b1 + 2269530520813568 * b2 + 4539061024849920 * b3 + 9078117754732544 * b4 + 18155135997837312 * b5 + 36028797018963968 * b6 + 0 * b7); [left; lia|].
  symmetry. apply Z.mod_unique with (q := 1 * b1 + 258 * b2 + 66052 * b3 + 16909320 * b4 + 4328785936 * b5 + 1108169199648 * b6 + 283691315109952 * b7); [left; lia|]. lia.
Qed.

Lemma gather_check g :
  forallb (fun i => Bool.eqb (Z.testbit (gather g) (Z.of_nat i)) (g i)) (seq 0 8) &&
  (0 <=? gather g) && (gather g <? 256) = true.
Proof.
  unfold gather. rewrite pack_top by (intros i _; destruct (g i); simpl; lia).
  unfold byte_of_bits. cbn [seq forallb foldr].
  destruct (g 0%nat), (g 1%nat), (g 2%nat), (g 3%nat), (g 4%nat), (g 5%nat), (g 6%nat), (g 7%nat);
    reflexivity.
Qed.

Lemma gather_lane g : is_lane (gather g).
Proof.
  pose proof (gather_check g) as [[_ Hlo]%andb_prop Hhi]%andb_prop. unfold is_lane. lia.
Qed.

Lemma gather_bit g i : (i < 8)%nat -> Z.testbit (gather g) (Z.of_nat i) = g i.
Proof.
  intros Hi. pose proof (gather_check g) as [[Hall _]%andb_prop _]%andb_prop.
  rewrite forallb_forall in Hall. apply Bool.eqb_prop, Hall, in_seq. lia.
Qed.

(** ** The rank table *)

Definition zbit (w : Z) (i : nat) : bool := Z.testbit w (Z.of_nat i).

Lemma ranks_check :
  forallb (fun n => ranks_of (Z.of_nat n) =? eight (fun i => rank (zbit (Z.of_nat n)) (S i)))
    (seq 0 256) = true.
Proof. vm_compute. reflexivity. Qed.

(** Byte [i] of an entry is the rank of the first [S i] bits. *)
Lemma RANKS_spec x :
  is_lane x -> RANKS !! Z.to_nat x = Some (eight (fun i => rank (zbit x) (S i))).
Proof.
  intros Hx. unfold is_lane in Hx. unfold RANKS.
  rewrite list_lookup_fmap, lookup_seq_lt by lia. cbn [fmap option_fmap option_map Nat.add].
  pose proof ranks_check as Hall. rewrite forallb_forall in Hall.
  specialize (Hall (Z.to_nat x) ltac:(apply in_seq; lia)). apply Z.eqb_eq in Hall.
  rewrite Z2Nat.id in Hall by lia. rewrite Z2Nat.id by lia. by rewrite Hall.
Qed.

(** Scores whose lanes never spill. *)
Lemma rank_lanewise x c :
  0 <= c -> c < 100 -> lanewise (fun i => rank (zbit x) (S i) + c).
Proof. intros H0 H1 i Hi. pose proof (rank_bounds (zbit x) (S i)). unfold is_lane. lia. Qed.

(** ** One lane *)

(** A decidable fact about a lane holds when it holds of the 256 bytes. *)
Lemma lane_all (p : Z -> bool) x :
  forallb (fun n => p (Z.of_nat n)) (seq 0 256) = true -> is_lane x -> p x = true.
Proof.
  intros Hall Hx. unfold is_lane in Hx. rewrite forallb_forall in Hall.
  specialize (Hall (Z.to_nat x) ltac:(apply in_seq; lia)). by rewrite Z2Nat.id in Hall by lia.
Qed.

Lemma lane_raise a : 0 <= a < 128 -> Z.lor a 128 = a + 128.
Proof.
  intros Ha. pose proof (lane_all (fun a => (128 <=? a) || (Z.lor a 128 =? a + 128)) a eq_refl
    ltac:(unfold is_lane; lia)) as Hc. simpl in Hc. lia.
Qed.

Lemma lane_sign x : is_lane x -> Z.land x 128 = Z.b2z (128 <=? x) * 128.
Proof.
  intros Hx. pose proof (lane_all (fun x => Z.land x 128 =? Z.b2z (128 <=? x) * 128) x eq_refl Hx)
    as Hc. simpl in Hc. lia.
Qed.

(** Keeping the lane under an all-ones mask, or under its complement. *)
Lemma lane_keep x : is_lane x -> Z.land x 255 = x /\ Z.land x 0 = 0.
Proof.
  intros Hx. split; [|apply Z.land_0_r].
  pose proof (lane_all (fun x => Z.land x 255 =? x) x eq_refl Hx) as Hc. simpl in Hc. lia.
Qed.

(** Only a zero lane leaves its high bit clear. *)
Lemma lane_zero u :
  is_lane u ->
  Z.land (Z.lxor (Z.lor (Z.lor (Z.land u 127 + 127) u) 127) 255) 128 = Z.b2z (u =? 0) * 128 /\
  is_lane (Z.land u 127 + 127).
Proof.
  intros Hu.
  pose proof (lane_all (fun u =>
    (Z.land (Z.lxor (Z.lor (Z.lor (Z.land u 127 + 127) u) 127) 255) 128 =? Z.b2z (u =? 0) * 128) &&
    (0 <=? Z.land u 127 + 127) && (Z.land u 127 + 127 <? 256)) u eq_refl Hu) as Hc.
  cbv beta in Hc. unfold is_lane. lia.
Qed.

Lemma lor_lane a b : is_lane a -> is_lane b -> is_lane (Z.lor a b).
Proof. apply (op_lane Z.lor orb Z.lor_spec eq_refl). Qed.

Lemma land_lane a b : is_lane a -> is_lane b -> is_lane (Z.land a b).
Proof. apply (op_lane Z.land andb Z.land_spec eq_refl). Qed.

Lemma lxor_lane a b : is_lane a -> is_lane b -> is_lane (Z.lxor a b).
Proof. apply (op_lane Z.lxor xorb Z.lxor_spec eq_refl). Qed.

(** ** The maximum of two profiles *)

Section scores.
Context {C : WorkControl}.

Lemma wp_fits_step {B} n (k : Z -> Work C B) Q : is_word n -> wp (k n) Q -> wp (bind (fits n) k) Q.
Proof.
  intros Hn Hk. unfold fits. unfold is_word in Hn.
  destruct (Z.leb_spec 0 n), (Z.ltb_spec n (2 ^ 64)); try lia. by apply wp_bind, wp_ret.
Qed.

(** The byte-parallel maximum of two profiles of scores below 128. *)
Lemma select_maximum f g :
  (forall i, (i < 8)%nat -> 0 <= f i < 128 /\ 0 <= g i < 128) ->
  is_word (Z.lor (eight f) HIGH - eight g) /\
  let choose := Z.land (Z.lor (eight f) HIGH - eight g) HIGH in
  is_word (shr choose 7 * 255) /\
  Z.lor (Z.land (eight f) (shr choose 7 * 255))
        (Z.land (eight g) (not64 (shr choose 7 * 255))) = eight (fun i => Z.max (f i) (g i)).
Proof.
  intros Hfg.
  assert (lanewise f) as Hf by (intros i Hi; destruct (Hfg i Hi); unfold is_lane; lia).
  assert (lanewise g) as Hg by (intros i Hi; destruct (Hfg i Hi); unfold is_lane; lia).
  rewrite eight_high, eight_lor, eight_sub by (done || by apply lane_lanewise).
  rewrite (eight_ext (fun i => Z.lor (f i) 128 - g i) (fun i => f i + 128 - g i))
    by (intros i Hi; rewrite lane_raise by (apply Hfg; done); done).
  assert (lanewise (fun i => f i + 128 - g i)) as Hd
    by (intros i Hi; destruct (Hfg i Hi); unfold is_lane; lia).
  split; [by apply eight_word|]. cbv zeta.
  rewrite eight_land by (done || by apply lane_lanewise).
  rewrite (eight_ext _ (fun i => Z.b2z (g i <=? f i) * 128)).
  2: { intros i Hi. rewrite lane_sign by (by apply Hd). do 2 f_equal.
       destruct (Z.leb_spec (g i) (f i)), (Z.leb_spec 128 (f i + 128 - g i)); done || lia. }
  rewrite (eight_halve (fun i => Z.b2z (g i <=? f i))), eight_scale.
  assert (lanewise (fun i => Z.b2z (g i <=? f i) * 255)) as Hm
    by (intros i _; unfold is_lane; destruct (g i <=? f i); simpl; lia).
  split; [by apply eight_word|].
  rewrite eight_not, !eight_land by (first [done | intros i Hi; apply lxor_lane; [by apply Hm|done]]).
  rewrite eight_lor by (intros i Hi; apply land_lane;
    [by auto|first [by apply Hm | apply lxor_lane; [by apply Hm|done]]]).
  apply eight_ext. intros i Hi.
  destruct (lane_keep (f i) (Hf i Hi)) as [Hf1 Hf0], (lane_keep (g i) (Hg i Hi)) as [Hg1 Hg0].
  destruct (Z.leb_spec (g i) (f i)).
  - change (Z.b2z true * 255) with 255. change (Z.lxor 255 255) with 0. rewrite Hf1, Hg0, Z.lor_0_r. lia.
  - change (Z.b2z false * 255) with 0. change (Z.lxor 0 255) with 255.
    rewrite Hf0, Hg1, Z.lor_0_l. lia.
Qed.

(** The increments of a profile that rises by at most one. *)
Lemma rank_of_increments (h : nat -> Z) (m : nat -> bool) n :
  h O = 0 -> (forall i, (i < n)%nat -> h (S i) = h i + Z.b2z (m i)) ->
  forall k, (k <= n)%nat -> rank m k = h k.
Proof.
  intros H0 Hm k. induction k as [|k IH]; intros Hk; [done|]. simpl.
  rewrite IH, Hm by lia. done.
Qed.

(** The merged byte, relative to the scores at its start. *)
Definition merged_rank (a b : nat -> bool) (d : Z) (k : nat) : Z :=
  Z.max (d + rank a k) (rank b k) - Z.max d 0.

Lemma merged_rank_step a b d k :
  merged_rank a b d (S k) =
  merged_rank a b d k + Z.b2z (merged_rank a b d k <? merged_rank a b d (S k)).
Proof.
  unfold merged_rank. simpl. destruct (a k), (b k); simpl;
    match goal with |- context [?x <? ?y] => destruct (Z.ltb_spec x y) end; simpl; lia.
Qed.

(** Subtracting the scores one lane up leaves the increments; gathered, they
    are the merged byte. *)
Lemma gathered_increments a b d c :
  (forall k, (k <= 8)%nat -> is_lane (merged_rank a b d k + c)) ->
  let scores := eight (fun i => merged_rank a b d (S i) + c) in
  let increments := scores - Z.lor (shl scores 8) c in
  is_word increments /\ is_lane (shr (increments * PACK mod 2 ^ 64) 56) /\
  forall k, (k <= 8)%nat ->
    rank (zbit (shr (increments * PACK mod 2 ^ 64) 56)) k = merged_rank a b d k.
Proof.
  intros Hs scores increments. set (e i := merged_rank a b d i <? merged_rank a b d (S i)).
  assert (merged_rank a b d 0 = 0) as H0 by (unfold merged_rank; simpl; lia).
  assert (increments = eight (fun i => Z.b2z (e i))) as ->.
  { unfold increments, scores. pose proof (Hs O ltac:(lia)) as Hc. rewrite H0 in Hc.
    rewrite eight_shift, eight_sub by (first [done | intros i Hi; apply Hs; lia]).
    apply eight_ext. intros i Hi. rewrite merged_rank_step. fold (e i).
    destruct i; cbn [one_up]; lia. }
  split; [|fold (gather e); split; [apply gather_lane|]].
  - apply eight_word. intros i _. unfold is_lane. destruct (e i); simpl; lia.
  - apply rank_of_increments; [done|]. intros i Hi. unfold zbit.
    rewrite gather_bit by done. apply merged_rank_step.
Qed.

Lemma lane_rank x k : (k <= 8)%nat -> 0 <= rank (zbit x) k <= 8.
Proof. intros Hk. pose proof (rank_bounds (zbit x) k). lia. Qed.

Lemma as_u64_small n : 0 <= n < 2 ^ 64 -> as_u64 n = n.
Proof. apply Z.mod_small. Qed.

Lemma maximum_byte_spec ab bb d :
  is_lane ab -> is_lane bb ->
  wp (C:=C) (maximum_byte ab bb d) (fun m => is_lane m /\
    forall k, (k <= 8)%nat -> rank (zbit m) k = merged_rank (zbit ab) (zbit bb) d k).
Proof.
  intros Ha Hb. unfold maximum_byte.
  destruct (Z.leb_spec 8 d) as [Hd|Hd]; [|destruct (Z.leb_spec d (-8)) as [Hd'|Hd']].
  1,2: apply wp_ret; split; [done|]; intros k Hk; unfold merged_rank;
    pose proof (lane_rank ab k Hk); pose proof (lane_rank bb k Hk); lia.
  eapply wp_index_step; [by apply RANKS_spec|]. rewrite as_u64_small by lia.
  rewrite eight_ones. apply wp_fits_step; [apply eight_word, lane_lanewise; unfold is_lane; lia|].
  rewrite eight_add. apply wp_fits_step; [apply eight_word, rank_lanewise; lia|].
  eapply wp_index_step; [by apply RANKS_spec|]. rewrite eight_ones, eight_add.
  apply wp_fits_step; [apply eight_word, rank_lanewise; lia|].
  destruct (select_maximum (fun i => rank (zbit ab) (S i) + (16 + d))
    (fun i => rank (zbit bb) (S i) + 16)) as (Hfit & Hmask & Hscores).
  { intros i Hi. pose proof (lane_rank ab (S i) ltac:(lia)).
    pose proof (lane_rank bb (S i) ltac:(lia)). lia. }
  apply wp_fits_step; [exact Hfit|]. apply wp_fits_step; [exact Hmask|].
  cbv zeta. rewrite Hscores, as_u64_small by lia.
  rewrite (eight_ext (fun i => Z.max _ _)
    (fun i => merged_rank (zbit ab) (zbit bb) d (S i) + (16 + Z.max d 0)))
    by (intros i _; unfold merged_rank; lia).
  destruct (gathered_increments (zbit ab) (zbit bb) d (16 + Z.max d 0)) as (Hi & Hm & Hr).
  { intros k Hk. pose proof (lane_rank ab k Hk). pose proof (lane_rank bb k Hk).
    unfold merged_rank, is_lane. lia. }
  apply wp_fits_step; [exact Hi|]. by apply wp_ret.
Qed.

(** ** Words of bytes *)

Lemma byte_at_bit w byte j :
  zbit (byte_at w byte) j = (j <? 8)%nat && zbit w (8 * byte + j).
Proof.
  unfold zbit, byte_at. rewrite Z.land_spec, shr_bit by lia.
  change 255 with (Z.ones 8). rewrite Z.testbit_ones_nonneg, andb_comm by lia.
  replace (Z.of_nat j + Z.of_nat (8 * byte)) with (Z.of_nat (8 * byte + j)) by lia.
  f_equal. destruct (Z.ltb_spec (Z.of_nat j) 8), (Nat.ltb_spec j 8); done || lia.
Qed.

Lemma byte_at_lane w byte : is_word w -> is_lane (byte_at w byte).
Proof.
  intros Hw. unfold byte_at. change 255 with (Z.ones 8). rewrite Z.land_ones by lia.
  apply Z.mod_pos_bound. lia.
Qed.

Lemma byte_rank w byte k :
  (k <= 8)%nat -> rank (zbit (byte_at w byte)) k = rank (fun j => zbit w (8 * byte + j)) k.
Proof.
  intros Hk. apply rank_ext. intros j Hj. rewrite byte_at_bit.
  by destruct (Nat.ltb_spec j 8); [|lia].
Qed.

Lemma byte_count w byte :
  count_ones (byte_at w byte) = rank (fun j => zbit w (8 * byte + j)) 8.
Proof.
  rewrite count_ones_rank, <- byte_rank by lia.
  apply (rank_past (zbit (byte_at w byte)) 8 64); [|lia].
  intros i Hi. rewrite byte_at_bit. by destruct (Nat.ltb_spec i 8); [lia|].
Qed.

Lemma merged_rank_ext a b a' b' d k :
  (forall i, (i < k)%nat -> a i = a' i /\ b i = b' i) ->
  merged_rank a b d k = merged_rank a' b' d k.
Proof.
  intros He. unfold merged_rank.
  rewrite (rank_ext a a'), (rank_ext b b') by (intros i Hi; by apply He). done.
Qed.

(** A merge can be done piece by piece, with the difference carried over. *)
Lemma merged_rank_add a b d n k :
  merged_rank a b d (n + k) =
  merged_rank a b d n +
  merged_rank (fun i => a (n + i)%nat) (fun i => b (n + i)%nat) (d + (rank a n - rank b n)) k.
Proof. unfold merged_rank. rewrite !rank_add. lia. Qed.

(** What the merge of one word holds after its first [n] positions. *)
Record merged_upto (a b : nat -> bool) (d : Z) (n : nat) (m d' : Z) : Prop := {
  merged_nonneg : 0 <= m;
  merged_past i : (n <= i)%nat -> zbit m i = false;
  merged_difference : d' = d + (rank a n - rank b n);
  merged_scores k : (k <= n)%nat -> rank (zbit m) k = merged_rank a b d k
}.

(** A byte put at its place in a word. *)
Lemma shl_lane_bit x byte :
  (byte < 8)%nat -> is_lane x -> forall i, zbit (shl x (8 * byte)) i =
    negb (i <? 8 * byte)%nat && (i <? 8 * byte + 8)%nat && zbit x (i - 8 * byte).
Proof.
  intros Hbyte Hx i. unfold zbit. destruct (decide (i < 64)%nat) as [Hlt|Hge].
  - rewrite shl_bit by lia.
    destruct (Z.ltb_spec (Z.of_nat i) (Z.of_nat (8 * byte))), (Nat.ltb_spec i (8 * byte)); try lia;
      try done. replace (Z.of_nat i - Z.of_nat (8 * byte)) with (Z.of_nat (i - 8 * byte)) by lia.
    destruct (Nat.ltb_spec i (8 * byte + 8)); [done|]. simpl. apply lane_high; [done|lia].
  - rewrite word_high by (apply shl_word || lia).
    by destruct (Nat.ltb_spec i (8 * byte + 8)); [lia|rewrite andb_false_r].
Qed.

Lemma merged_byte a b d byte m d' inc :
  (byte < 8)%nat -> merged_upto (zbit a) (zbit b) d (8 * byte) m d' -> is_lane inc ->
  (forall k, (k <= 8)%nat ->
     rank (zbit inc) k = merged_rank (zbit (byte_at a byte)) (zbit (byte_at b byte)) d' k) ->
  merged_upto (zbit a) (zbit b) d (8 * S byte) (Z.lor m (shl inc (8 * byte)))
    (d' + (count_ones (byte_at a byte) - count_ones (byte_at b byte))).
Proof.
  intros Hbyte [Hm Hpast Hd Hk] Hinc Hi.
  pose proof (shl_lane_bit inc byte Hbyte Hinc) as Hshl.
  assert (forall i, zbit (Z.lor m (shl inc (8 * byte))) i =
    zbit m i || zbit (shl inc (8 * byte)) i) as Hlor by (intros i; apply Z.lor_spec).
  constructor.
  - apply Z.lor_nonneg. split; [done|apply shl_word].
  - intros i Hge. rewrite Hlor, Hpast, Hshl by lia.
    by destruct (Nat.ltb_spec i (8 * byte + 8)); [lia|rewrite andb_false_r].
  - rewrite !byte_count, Hd. replace (8 * S byte)%nat with (8 * byte + 8)%nat by lia.
    rewrite !rank_add. lia.
  - assert (forall k, (k <= 8 * byte)%nat ->
      rank (zbit (Z.lor m (shl inc (8 * byte)))) k = merged_rank (zbit a) (zbit b) d k) as Hlow.
    { intros k Hle. rewrite <- Hk by done. apply rank_ext. intros i Hi'. rewrite Hlor, Hshl.
      destruct (Nat.ltb_spec i (8 * byte)); [apply orb_false_r|lia]. }
    intros k Hle. destruct (decide (k <= 8 * byte)%nat) as [|Hgt]; [by apply Hlow|].
    replace k with (8 * byte + (k - 8 * byte))%nat by lia.
    rewrite rank_add, merged_rank_add, Hlow by done. f_equal.
    rewrite (rank_ext _ (zbit inc)).
    + rewrite Hi, Hd by lia. apply merged_rank_ext. intros j Hj. rewrite !byte_at_bit.
      by destruct (Nat.ltb_spec j 8); [|lia].
    + intros j Hj. rewrite Hlor, Hpast, Hshl by lia.
      replace (8 * byte + j - 8 * byte)%nat with j by lia.
      by destruct (Nat.ltb_spec (8 * byte + j) (8 * byte)),
        (Nat.ltb_spec (8 * byte + j) (8 * byte + 8)); try lia.
Qed.

Lemma maximum_word_spec a b d :
  is_word a -> is_word b ->
  wp (C:=C) (maximum_word a b d) (fun '(m, d') =>
    is_word m /\ merged_upto (zbit a) (zbit b) d 64 m d').
Proof.
  intros Ha Hb. unfold maximum_word.
  apply (wp_for_seq 0 8 _ (fun byte '(m, d') => merged_upto (zbit a) (zbit b) d (8 * byte) m d')).
  - constructor; [done|intros; apply Z.bits_0|simpl; lia|].
    intros k Hk. replace k with O by lia. unfold merged_rank. simpl. lia.
  - intros byte [m d'] Hbyte Hm.
    eapply wp_step; [apply maximum_byte_spec; by apply byte_at_lane|].
    intros inc [Hinc Hi]. apply wp_ret. apply merged_byte; auto. lia.
  - intros [m d'] Hm. split; [|done]. apply word_of_bits; [apply Hm|].
    intros j Hj. destruct Hm as [_ Hpast _ _].
    specialize (Hpast (Z.to_nat j) ltac:(lia)). unfold zbit in Hpast.
    by rewrite Z2Nat.id in Hpast by lia.
Qed.

(** ** Merging two vectors *)

Lemma rank_shifted b off k :
  rank (fun i => bit_at b (Z.of_nat i - Z.of_nat off)) k = rank (bit b) (k - off).
Proof.
  induction k as [|k IH]; [done|]. cbn [rank]. rewrite IH. unfold bit_at.
  destruct (Z.ltb_spec (Z.of_nat k - Z.of_nat off) 0) as [Hlt|Hge].
  - replace (k - off)%nat with O by lia. replace (S k - off)%nat with O by lia. simpl. lia.
  - replace (S k - off)%nat with (S (k - off)) by lia. cbn [rank]. do 3 f_equal. lia.
Qed.

Lemma wbit_app_low ws w i : (i < 64 * length ws)%nat -> wbit (ws ++ [w]) i = wbit ws i.
Proof.
  destruct (split_64 i) as (q & r & Hr & ->). intros Hi. rewrite !wbit_word by done.
  unfold stored. by rewrite lookup_app_l by lia.
Qed.

Lemma wbit_app_last ws w j : (j < 64)%nat -> wbit (ws ++ [w]) (64 * length ws + j) = zbit w j.
Proof.
  intros Hj. rewrite wbit_word by done. unfold stored.
  by rewrite lookup_app_r, Nat.sub_diag by lia.
Qed.

(** What the merge holds after its first words. *)
Record merged_words (a b : nat -> bool) (block : nat) (ws : list Z) (d : Z) : Prop := {
  mw_length : length ws = block;
  mw_words : Forall is_word ws;
  mw_difference : d = rank a (64 * block) - rank b (64 * block);
  mw_scores k : (k <= 64 * block)%nat -> rank (wbit ws) k = merged_rank a b 0 k
}.

Lemma merged_words_step a b block ws d wa wb m d' :
  merged_words a b block ws d -> is_word m ->
  (forall j, (j < 64)%nat -> zbit wa j = a (64 * block + j)%nat) ->
  (forall j, (j < 64)%nat -> zbit wb j = b (64 * block + j)%nat) ->
  merged_upto (zbit wa) (zbit wb) d 64 m d' ->
  merged_words a b (S block) (ws ++ [m]) d'.
Proof.
  intros [Hl Hw Hd Hs] Hm Ha Hb [_ _ Hd' Hs'].
  assert (forall k, (k <= 64)%nat -> rank (zbit wa) k = rank (fun j => a (64 * block + j)%nat) k)
    as Hra by (intros k Hk; apply rank_ext; intros j Hj; apply Ha; lia).
  assert (forall k, (k <= 64)%nat -> rank (zbit wb) k = rank (fun j => b (64 * block + j)%nat) k)
    as Hrb by (intros k Hk; apply rank_ext; intros j Hj; apply Hb; lia).
  constructor.
  - rewrite length_app. simpl. lia.
  - apply Forall_app. by repeat constructor; try apply Hm.
  - replace (64 * S block)%nat with (64 * block + 64)%nat by lia.
    rewrite !rank_add, Hd', Hd, Hra, Hrb by lia. lia.
  - assert (forall k, (k <= 64 * block)%nat -> rank (wbit (ws ++ [m])) k = merged_rank a b 0 k)
      as Hlow.
    { intros k Hk. rewrite <- Hs by done. apply rank_ext. intros i Hi. apply wbit_app_low. lia. }
    intros k Hk. destruct (decide (k <= 64 * block)%nat) as [|Hgt]; [by apply Hlow|].
    replace k with (64 * block + (k - 64 * block))%nat by lia.
    rewrite rank_add, merged_rank_add, Hlow by done. f_equal.
    rewrite (rank_ext _ (zbit m)) by (intros j Hj; rewrite <- Hl; apply wbit_app_last; lia).
    rewrite Hs', Hd by lia. apply merged_rank_ext. intros j Hj. split; [apply Ha|apply Hb]; lia.
Qed.

(** C13: the fused shift and merge is the pointwise maximum: for any two packed
    profiles, shifts and length, the merged vector's score at every prefix is
    the larger of the two parents' scores there, each read from its own offset;
    no lane of the byte arithmetic overflows, and the result is a packed vector
    again. *)
Theorem merging_takes_the_pointwise_maximum left lo right ro n :
  packed_ok left -> packed_ok right ->
  wp (C:=C) (merge_shifted left lo right ro n) (fun m =>
    packed_ok m /\ length_ m = n /\ forall k, (k <= n)%nat ->
      rank (bit m) k = Z.max (rank (bit left) (k - lo)) (rank (bit right) (k - ro))).
Proof.
  intros Hleft Hright. unfold merge_shifted. apply wp_checkpoint_step.
  set (a i := bit_at left (Z.of_nat i - Z.of_nat lo)).
  set (b i := bit_at right (Z.of_nat i - Z.of_nat ro)).
  eapply wp_step.
  - apply (wp_for_seq 0 _ _ (fun block '(ws, d) => merged_words a b block ws d));
      [|intros block [ws d] Hblock Hws|intros s Hs; exact Hs].
    { constructor; [done|constructor|done|]. intros k Hk. by replace k with O by lia. }
    apply wp_check_every. eapply wp_step.
    { apply maximum_word_spec; apply window_word_is_word; [apply Hleft|apply Hright]. }
    intros [m d'] [Hm Hmerged]. apply wp_ret. eapply merged_words_step; try done.
    + intros j Hj. unfold zbit, a. by rewrite window_word_before by (apply Hleft || done).
    + intros j Hj. unfold zbit, b. by rewrite window_word_before by (apply Hright || done).
  - intros [ws d] Hws. apply wp_ret. pose proof (div_ceil64_spec n).
    assert (length ws = div_ceil64 n) as Hlen by apply Hws.
    split_and!; [apply clear_ok; [apply Hws|done]| |].
    + unfold clear_past_length. by destruct (_ =? _)%nat.
    + intros k Hk. rewrite (rank_ext _ (wbit ws)).
      * rewrite (mw_scores _ _ _ _ _ Hws) by lia. unfold merged_rank, a, b.
        rewrite !rank_shifted. lia.
      * intros i Hi. rewrite clear_bit by done. cbn [length_].
        destruct (Nat.ltb_spec i n); [done|lia].
Qed.

(** ** Equal scores in a byte *)

Lemma equal_byte_spec a b delta :
  is_lane a -> is_lane b ->
  wp (C:=C) (equal_byte a b delta) (fun m => is_lane m /\
    forall i, (i < 8)%nat ->
      zbit m i = (rank (zbit a) (S i) - rank (zbit b) (S i) =? delta)).
Proof.
  intros Ha Hb. unfold equal_byte.
  destruct (Z.leb_spec (-8) delta) as [Hlo|Hlo], (Z.leb_spec delta 8) as [Hhi|Hhi]; cbn [andb negb].
  2,3,4: apply wp_ret; split; [done|]; intros i Hi; unfold zbit at 1; rewrite Z.bits_0; symmetry;
    apply Z.eqb_neq; pose proof (lane_rank a (S i) Hi); pose proof (lane_rank b (S i) Hi); lia.
  assert (forall x i, (i < 8)%nat -> 0 <= rank (zbit x) (S i) <= 8) as Hrank
    by (intros x i Hi; by apply lane_rank).
  eapply wp_index_step; [by apply RANKS_spec|]. rewrite eight_ones, eight_add.
  apply wp_fits_step; [apply eight_word, rank_lanewise; lia|].
  eapply wp_index_step; [by apply RANKS_spec|]. rewrite eight_sub.
  set (x i := rank (zbit a) (S i) + 16 - rank (zbit b) (S i)).
  assert (lanewise x) as Hx.
  { intros i Hi. pose proof (Hrank a i Hi). pose proof (Hrank b i Hi). unfold x, is_lane. lia. }
  apply wp_fits_step; [by apply eight_word|]. rewrite as_u64_small, eight_ones by lia.
  assert (is_lane (16 + delta)) as Hy by (unfold is_lane; lia).
  apply wp_fits_step; [by apply eight_word, lane_lanewise|].
  rewrite eight_lxor by (done || by apply lane_lanewise).
  set (u i := Z.lxor (x i) (16 + delta)).
  assert (lanewise u) as Hu by (intros i Hi; by apply lxor_lane; [apply Hx|]).
  rewrite eight_low, eight_land, eight_add by (done || by apply lane_lanewise).
  assert (lanewise (fun i => Z.land (u i) 127 + 127)) as Hsum
    by (intros i Hi; by apply (lane_zero (u i)), Hu).
  apply wp_fits_step; [by apply eight_word|]. apply wp_ret.
  rewrite !eight_lor by (first [done | by apply lane_lanewise | intros i Hi; by apply lor_lane; auto]).
  rewrite eight_not by (intros i Hi; apply lor_lane; [apply lor_lane; auto|done]).
  rewrite eight_high, eight_land by (first [by apply lane_lanewise | intros i Hi;
    apply lxor_lane; [apply lor_lane; [apply lor_lane; auto|done]|done]]).
  rewrite (eight_ext _ (fun i => Z.b2z (u i =? 0) * 128))
    by (intros i Hi; by apply (lane_zero (u i)), Hu).
  rewrite (eight_halve (fun i => Z.b2z (u i =? 0))). fold (gather (fun i => u i =? 0)).
  split; [apply gather_lane|]. intros i Hi. unfold zbit at 1. rewrite gather_bit by done.
  pose proof (Z.lxor_eq_0_iff (x i) (16 + delta)) as Heq. fold (u i) in Heq. unfold x in Heq.
  destruct (Z.eqb_spec (u i) 0), (Z.eqb_spec (rank (zbit a) (S i) - rank (zbit b) (S i)) delta);
    done || lia.
Qed.

(** ** Putting a byte at a cut *)

Lemma or_at_spec mask i w :
  (i < length mask)%nat ->
  wp (C:=C) (or_at mask i w) (fun mask' => mask' = <[i := Z.lor (stored mask i) w]> mask).
Proof.
  intros Hi. destruct (lookup_lt_is_Some_2 mask i Hi) as [m Hm]. unfold or_at.
  eapply wp_index_step; [done|]. apply wp_store; [done|]. unfold stored. by rewrite Hm.
Qed.

Lemma wbit_or mask i w p :
  (i < length mask)%nat ->
  wbit (<[i := Z.lor (stored mask i) w]> mask) p =
  wbit mask p || ((p / 64 =? i)%nat && zbit w (p mod 64)).
Proof.
  intros Hi. unfold wbit, stored at 1. destruct (Nat.eqb_spec (p / 64) i) as [Heq|Hne].
  - rewrite Heq, list_lookup_insert_eq by done. by rewrite Z.lor_spec.
  - rewrite list_lookup_insert_ne by done. by rewrite orb_false_r.
Qed.

Lemma or_words mask i w :
  Forall is_word mask -> is_word w -> Forall is_word (<[i := Z.lor (stored mask i) w]> mask).
Proof. intros Hm Hw. apply Forall_insert; [done|]. apply lor_word; [by apply stored_word|done]. Qed.

Lemma zbit_lane_past x i : is_lane x -> (8 <= i)%nat -> zbit x i = false.
Proof. intros Hx Hi. unfold zbit. apply lane_high; [done|lia]. Qed.

Lemma lane_word x : is_lane x -> is_word x.
Proof. unfold is_lane, is_word. lia. Qed.

(** The bits a byte sets from a cut on. *)
Definition cut_bit (cut : nat) (x : Z) (p : nat) : bool := (cut <=? p)%nat && zbit x (p - cut).

(** The two words that bits at a cut can touch. *)
Lemma cut_bits cut x p :
  is_word x ->
  ((p / 64 =? cut / 64)%nat && zbit (shl x (cut mod 64)) (p mod 64)) ||
  ((p / 64 =? cut / 64 + 1)%nat && zbit (shr x (64 - cut mod 64)) (p mod 64)) = cut_bit cut x p.
Proof.
  intros Hx. destruct (split_64 p) as (q & r & Hr & ->), (split_64 cut) as (c & t & Ht & ->).
  destruct (div_mod_64 q r Hr) as [-> ->], (div_mod_64 c t Ht) as [-> ->].
  unfold cut_bit, zbit. rewrite shl_bit, shr_bit by lia.
  replace (Z.of_nat r + Z.of_nat (64 - t)) with (Z.of_nat (64 + r - t)) by lia.
  destruct (Nat.leb_spec (64 * c + t) (64 * q + r)) as [Hle|Hlt]; cbn [andb].
  - destruct (Nat.eqb_spec q c) as [->|Hqc].
    + destruct (Nat.eqb_spec c (c + 1)); [lia|]. rewrite orb_false_r. cbn [andb].
      destruct (Z.ltb_spec (Z.of_nat r) (Z.of_nat t)); [lia|]. f_equal. lia.
    + cbn [andb orb]. destruct (Nat.eqb_spec q (c + 1)) as [->|Hq1]; cbn [andb].
      * f_equal. lia.
      * symmetry. apply word_high; [done|lia].
  - destruct (Nat.eqb_spec q c) as [->|Hqc]; cbn [andb].
    + destruct (Nat.eqb_spec c (c + 1)); [lia|]. rewrite orb_false_r.
      by destruct (Z.ltb_spec (Z.of_nat r) (Z.of_nat t)); [|lia].
    + by destruct (Nat.eqb_spec q (c + 1)); [lia|].
Qed.

Lemma or_byte_step {B} mask cut x (k : list Z -> Work C B) Q :
  is_lane x -> Forall is_word mask -> (cut < 64 * length mask)%nat ->
  (forall i, (64 * length mask <= cut + i)%nat -> zbit x i = false) ->
  (forall mask', length mask' = length mask -> Forall is_word mask' ->
     (forall p, wbit mask' p = wbit mask p || cut_bit cut x p) -> wp (k mask') Q) ->
  wp (C:=C)
    (let! mask := or_at mask (cut / 64) (shl x (cut mod 64)) in
     let! mask :=
       if (56 <? cut mod 64)%nat && (cut / 64 + 1 <? length mask)%nat
       then or_at mask (cut / 64 + 1) (shr x (64 - cut mod 64)) else ret mask in
     k mask) Q.
Proof.
  intros Hx Hw Hcut Hpast Hk.
  pose proof (Nat.div_mod_eq cut 64). pose proof (Nat.mod_upper_bound cut 64).
  eapply wp_step; [apply or_at_spec; lia|]. intros mask1 ->.
  pose proof (or_words mask (cut / 64) _ Hw (shl_word x (cut mod 64))) as Hw1.
  pose proof (fun p => wbit_or mask (cut / 64) (shl x (cut mod 64)) p ltac:(lia)) as Hb1.
  rewrite length_insert. destruct (_ && _) eqn:Hcross.
  - apply andb_prop in Hcross as [_ Hin]. apply Nat.ltb_lt in Hin.
    eapply wp_step; [apply or_at_spec; by rewrite length_insert|]. intros mask2 ->.
    apply Hk; [by rewrite !length_insert|by apply or_words, shr_word, lane_word|].
    intros p. rewrite wbit_or by (by rewrite length_insert).
    rewrite Hb1, <- (cut_bits cut x p (lane_word x Hx)). by rewrite orb_assoc.
  - apply wp_bind, wp_ret. apply Hk; [by rewrite length_insert|done|].
    intros p. rewrite Hb1, <- (cut_bits cut x p (lane_word x Hx)).
    enough ((p / 64 =? cut / 64 + 1)%nat && zbit (shr x (64 - cut mod 64)) (p mod 64) = false)
      as -> by by rewrite orb_false_r.
    destruct (Nat.eqb_spec (p / 64) (cut / 64 + 1)) as [Hp|]; [|done]. cbn [andb].
    unfold zbit. rewrite shr_bit by lia.
    replace (Z.of_nat (p mod 64) + Z.of_nat (64 - cut mod 64))
      with (Z.of_nat (p mod 64 + (64 - cut mod 64))) by lia.
    apply andb_false_iff in Hcross as [Hfit%Nat.ltb_ge|Hend%Nat.ltb_ge].
    + apply zbit_lane_past; [done|lia].
    + apply Hpast. lia.
Qed.

(** ** Cuts of a given score *)

Lemma valid_bit w n i :
  (i < 64)%nat -> (n <= 8)%nat ->
  zbit (Z.land w (Z.shiftl 1 (Z.of_nat n) - 1)) i = (i <? n)%nat && zbit w i.
Proof. intros Hi Hn. apply low_ones_bit; lia. Qed.

Lemma valid_lane w n : (n <= 8)%nat -> is_lane (Z.land w (Z.shiftl 1 (Z.of_nat n) - 1)).
Proof.
  intros Hn. rewrite Z.shiftl_1_l, Z.sub_1_r, <- Z.ones_equiv, Z.land_ones by lia.
  pose proof (Z.mod_pos_bound w (2 ^ Z.of_nat n) ltac:(apply Z.pow_pos_nonneg; lia)).
  pose proof (Z.pow_le_mono_r 2 (Z.of_nat n) 8 ltac:(lia) ltac:(lia)).
  change (2 ^ 8) with 256 in *. unfold is_lane. lia.
Qed.

Lemma lane_nonzero x :
  is_lane x -> negb (x =? 0) = true <-> exists i, (i < 8)%nat /\ zbit x i = true.
Proof.
  intros Hx. rewrite negb_true_iff, Z.eqb_neq. split.
  - intros Hne. exists (Z.to_nat (Z.log2 x)). unfold is_lane in Hx.
    pose proof (Z.log2_nonneg x).
    assert (Z.log2 x < 8) by (apply Z.log2_lt_pow2; change (2 ^ 8) with 256; lia).
    split; [lia|]. unfold zbit. rewrite Z2Nat.id by lia. apply Z.bit_log2. lia.
  - intros (i & _ & Hi) ->. unfold zbit in Hi. by rewrite Z.bits_0 in Hi.
Qed.

(** The two scores at a cut: the difference of the profiles, and whether an
    edge may match there. *)
Definition score_difference (forward declines : PackedBits) (k : nat) : Z :=
  rank (bit forward) k - rank (bit declines) k.

Definition can_match (forward declines : PackedBits) (delta : Z) (k : nat) : bool :=
  score_difference forward declines k + 1 - Z.b2z (bit declines k) =? delta.

(** What the scan has found at the cuts up to [n]. *)
Record cuts_upto (forward declines : PackedBits) (span : nat) (delta0 : Z) (n : nat)
    (missing : bool) (matched : list Z) (delta : Z) : Prop := {
  cuts_length : length matched = div_ceil64 (span + 1);
  cuts_words : Forall is_word matched;
  cuts_missing : missing = true <->
    exists k, (k <= Nat.min n span)%nat /\ score_difference forward declines k = delta0;
  cuts_matched p : wbit matched p =
    (p <=? Nat.min n span)%nat && can_match forward declines delta0 p;
  cuts_delta : (n < span)%nat -> delta = delta0 - score_difference forward declines n
}.

(** The lanes of one byte of the scan. *)
Lemma edge_lanes forward declines delta0 delta start width equal below next :
  (width <= 8)%nat -> is_lane equal -> is_lane below ->
  delta = delta0 - score_difference forward declines start ->
  (forall i, (i < 8)%nat -> zbit equal i =
     (score_difference forward declines (start + S i) -
      score_difference forward declines start =? delta)) ->
  (forall i, (i < 8)%nat -> zbit below i =
     (score_difference forward declines (start + S i) -
      score_difference forward declines start =? delta - 1)) ->
  (forall i, (i < 8)%nat -> zbit next i = bit declines (start + S i)) ->
  let valid := Z.shiftl 1 (Z.of_nat width) - 1 in
  let deletion := Z.land equal valid in
  let next := Z.land next valid in
  let matches :=
    Z.lor (Z.land deletion next) (Z.land (Z.land below (not64 next)) valid) in
  is_lane deletion /\ is_lane matches /\
  (forall i, (i < 8)%nat -> zbit deletion i =
     (i <? width)%nat && (score_difference forward declines (start + S i) =? delta0)) /\
  (forall i, (i < 8)%nat -> zbit matches i =
     (i <? width)%nat && can_match forward declines delta0 (start + S i)).
Proof.
  intros Hwidth Heq Hbel Hdelta He Hb Hn valid deletion next' matches.
  assert (is_lane deletion) as Hdel by (by apply valid_lane).
  assert (forall i, (i < 8)%nat -> zbit deletion i =
    (i <? width)%nat && (score_difference forward declines (start + S i) =? delta0)) as Hdi.
  { intros i Hi. unfold deletion, valid. rewrite valid_bit, He, Hdelta by lia. f_equal.
    destruct (Z.eqb_spec (score_difference forward declines (start + S i)) delta0);
      [apply Z.eqb_eq|apply Z.eqb_neq]; lia. }
  split_and!; [done| |done|].
  - apply lor_lane; [apply land_lane; [done|by apply valid_lane]|by apply valid_lane].
  - intros i Hi. unfold matches.
    change (zbit (Z.lor ?a ?b) i) with (Z.testbit (Z.lor a b) (Z.of_nat i)).
    rewrite Z.lor_spec, Z.land_spec.
    fold (zbit deletion i) (zbit next' i) (zbit (Z.land (Z.land below (not64 next')) valid) i).
    unfold valid. rewrite valid_bit by lia. unfold zbit at 3.
    rewrite Z.land_spec, not64_bit by lia. fold (zbit next' i) (zbit below i).
    unfold next', valid. rewrite valid_bit, Hn, Hdi, Hb by lia.
    unfold can_match. destruct (i <? width)%nat; [|by rewrite andb_false_r]. cbn [andb].
    destruct (bit declines (start + S i)); simpl Z.b2z; cbn [andb orb negb];
      rewrite ?andb_true_r, ?andb_false_r, ?orb_false_r; cbn [orb].
    + f_equal. lia.
    + destruct (Z.eqb_spec (score_difference forward declines (start + S i) + 1 - 0) delta0);
        [apply Z.eqb_eq|apply Z.eqb_neq]; lia.
Qed.

(** The byte's cuts added to what was found before it. *)
Lemma cuts_byte forward declines span delta0 start missing matched delta deletion matches matched'
    delta' :
  (start < span)%nat ->
  cuts_upto forward declines span delta0 start missing matched delta ->
  is_lane deletion -> is_lane matches ->
  (forall i, (i < 8)%nat -> zbit deletion i = (i <? Nat.min (span - start) 8)%nat &&
     (score_difference forward declines (start + S i) =? delta0)) ->
  (forall i, (i < 8)%nat -> zbit matches i = (i <? Nat.min (span - start) 8)%nat &&
     can_match forward declines delta0 (start + S i)) ->
  length matched' = length matched -> Forall is_word matched' ->
  (forall p, wbit matched' p = wbit matched p || cut_bit (start + 1) matches p) ->
  ((start + 8 < span)%nat -> delta' = delta0 - score_difference forward declines (start + 8)) ->
  cuts_upto forward declines span delta0 (start + 8) (missing || negb (deletion =? 0)) matched' delta'.
Proof.
  intros Hstart [Hl Hw Hmiss Hmat Hdelta] Hdel Hlane Hdi Hmi Hl' Hw' Hbits Hdelta'.
  constructor; [congruence|done| | |done].
  - rewrite orb_true_iff, Hmiss, lane_nonzero by done. split.
    + intros [(k & Hk & Hd)|(i & Hi & Hb)].
      * exists k. split; [lia|done].
      * rewrite Hdi in Hb by done. apply andb_prop in Hb as [Hlt%Nat.ltb_lt Hd%Z.eqb_eq].
        exists (start + S i)%nat. split; [lia|done].
    + intros (k & Hk & Hd). destruct (decide (k <= start)%nat) as [Hle|Hgt].
      * left. exists k. split; [lia|done].
      * right. exists (k - start - 1)%nat. split; [lia|]. rewrite Hdi by lia.
        replace (start + S (k - start - 1))%nat with k by lia.
        apply andb_true_intro. split; [apply Nat.ltb_lt; lia|by apply Z.eqb_eq].
  - intros p. rewrite Hbits, Hmat. unfold cut_bit.
    destruct (Nat.leb_spec (start + 1) p) as [Hge|Hlt]; cbn [andb].
    + destruct (Nat.leb_spec p (Nat.min start span)); [lia|]. cbn [andb orb].
      destruct (decide (p - (start + 1) < 8)%nat) as [Hin|Hout].
      * rewrite Hmi by done. replace (start + S (p - (start + 1)))%nat with p by lia. f_equal.
        destruct (Nat.ltb_spec (p - (start + 1)) (Nat.min (span - start) 8)),
          (Nat.leb_spec p (Nat.min (start + 8) span)); done || lia.
      * rewrite zbit_lane_past by (done || lia).
        by destruct (Nat.leb_spec p (Nat.min (start + 8) span)); [lia|].
    + rewrite orb_false_r. f_equal.
      destruct (Nat.leb_spec p (Nat.min start span)), (Nat.leb_spec p (Nat.min (start + 8) span));
        done || lia.
Qed.

(** Past the span nothing more is found. *)
Lemma cuts_beyond forward declines span delta0 n n' missing matched delta :
  (span <= n)%nat -> (span <= n')%nat ->
  cuts_upto forward declines span delta0 n missing matched delta ->
  cuts_upto forward declines span delta0 n' missing matched delta.
Proof.
  intros Hn Hn' [Hl Hw Hmiss Hmat _].
  replace (Nat.min n span) with (Nat.min n' span) in * by lia. constructor; try done. lia.
Qed.

(** The bytes of the words of one block read the two profiles. *)
Lemma block_rank f w block byte i :
  (forall j, (j < 64)%nat -> zbit w j = f (64 * block + j)%nat) -> (byte < 8)%nat -> (i <= 8)%nat ->
  rank (zbit (byte_at w byte)) i =
  rank f (block * 64 + byte * 8 + i) - rank f (block * 64 + byte * 8).
Proof.
  intros Hw Hbyte Hi. rewrite byte_rank, rank_add by done.
  rewrite (rank_ext _ (fun j => f (block * 64 + byte * 8 + j)%nat)); [lia|].
  intros j Hj. rewrite Hw by lia. f_equal. lia.
Qed.

Lemma edge_bytes_spec forward declines span delta0 a b following block n byte missing matched delta :
  is_word a -> is_word b ->
  (forall j, (j < 64)%nat -> zbit a j = bit forward (64 * block + j)) ->
  (forall j, (j < 64)%nat -> zbit b j = bit declines (64 * block + j)) ->
  (forall j, (j < 64)%nat -> zbit following j = bit declines (64 * block + j + 1)) ->
  (byte + n = 8)%nat ->
  cuts_upto forward declines span delta0 (block * 64 + byte * 8) missing matched delta ->
  wp (C:=C) (edge_bytes (seq byte n) a b following block span missing matched delta)
    (fun '(missing, matched, delta) =>
       cuts_upto forward declines span delta0 (S block * 64) missing matched delta).
Proof.
  intros Ha Hb Hza Hzb Hzf. revert byte missing matched delta.
  induction n as [|n IH]; intros byte missing matched delta Hn Hcuts; cbn [seq edge_bytes].
  { apply wp_ret. by replace (S block * 64)%nat with (block * 64 + byte * 8)%nat by lia. }
  destruct (Nat.leb_spec span (block * 64 + byte * 8)) as [Hend|Hin].
  { apply wp_ret. eapply cuts_beyond; [| |done]; lia. }
  set (start := (block * 64 + byte * 8)%nat) in *.
  assert (forall i, (i <= 8)%nat ->
    rank (zbit (byte_at a byte)) i - rank (zbit (byte_at b byte)) i =
    score_difference forward declines (start + i) - score_difference forward declines start) as Hdiff.
  { intros i Hi. rewrite (block_rank _ _ _ _ _ Hza), (block_rank _ _ _ _ _ Hzb) by lia.
    unfold score_difference, start. lia. }
  eapply wp_step; [apply equal_byte_spec; by apply byte_at_lane|]. intros equal [Heq Hei].
  eapply wp_step; [apply equal_byte_spec; by apply byte_at_lane|]. intros below [Hbel Hbi].
  destruct (edge_lanes forward declines delta0 delta start (Nat.min (span - start) 8) equal below
    (shr following (8 * byte))) as (Hdel & Hlane & Hdi & Hmi);
    [lia|done|done|by apply Hcuts|..].
  1,2: intros i Hi; rewrite Hei || rewrite Hbi; [|done]; rewrite Hdiff by lia; done.
  { intros i Hi. unfold zbit. rewrite shr_bit by lia.
    replace (Z.of_nat i + Z.of_nat (8 * byte)) with (Z.of_nat (8 * byte + i)) by lia.
    fold (zbit following (8 * byte + i)). rewrite Hzf by lia. f_equal. unfold start. lia. }
  pose proof (div_ceil64_spec (span + 1)). pose proof (cuts_length _ _ _ _ _ _ _ _ Hcuts).
  apply or_byte_step; [done|apply Hcuts|lia| |].
  { intros i Hi. destruct (decide (i < 8)%nat); [|apply zbit_lane_past; [done|lia]].
    rewrite Hmi by done. by destruct (Nat.ltb_spec i (Nat.min (span - start) 8)); [lia|]. }
  intros matched' Hl' Hw' Hbits. apply IH; [lia|].
  replace (block * 64 + S byte * 8)%nat with (start + 8)%nat by (unfold start; lia).
  eapply cuts_byte; try done. intros Hlt.
  rewrite !byte_count, <- !byte_rank, Hdiff by lia.
  rewrite (cuts_delta _ _ _ _ _ _ _ _ Hcuts) by done. lia.
Qed.

(** Clearing one cut. *)
Lemma wbit_clear ms n w k :
  ms !! (n / 64)%nat = Some w ->
  wbit (<[(n / 64)%nat := Z.land w (not64 (shl 1 (n mod 64)))]> ms) k =
  wbit ms k && negb (k =? n)%nat.
Proof.
  intros Hw. pose proof (lookup_lt_Some _ _ _ Hw).
  destruct (split_64 k) as (q & r & Hr & ->), (split_64 n) as (c & t & Ht & ->).
  destruct (div_mod_64 c t Ht) as [Hc Hm]. rewrite Hc, Hm in *. rewrite !wbit_word by done.
  unfold stored. destruct (decide (q = c)) as [->|Hne].
  - rewrite list_lookup_insert_eq, Hw by done.
    rewrite Z.land_spec, not64_bit, shl_bit by lia. do 2 f_equal.
    destruct (Nat.eqb_spec (64 * c + r) (64 * c + t)) as [Heq|Hrt].
    + replace r with t by lia. destruct (Z.ltb_spec (Z.of_nat t) (Z.of_nat t)); [lia|].
      by rewrite Z.sub_diag.
    + destruct (Z.ltb_spec (Z.of_nat r) (Z.of_nat t)); [done|].
      apply Z.bits_above_log2; [done|]. change (Z.log2 1) with 0. lia.
  - rewrite list_lookup_insert_ne by done.
    destruct (Nat.eqb_spec (64 * q + r) (64 * c + t)); [lia|]. by rewrite andb_true_r.
Qed.

Lemma first_cut forward declines span delta :
  Forall is_word (words declines) ->
  wp (C:=C)
    (store (replicate (div_ceil64 (span + 1)) 0) 0
       (Z.b2z (delta =? 1 - Z.land (window_word (words declines) (At 0) 0) 1)))
    (fun matched => cuts_upto forward declines span delta 0 (delta =? 0) matched delta).
Proof.
  intros Hws. pose proof (div_ceil64_spec (span + 1)) as Hd.
  assert (Z.land (window_word (words declines) (At 0) 0) 1 = Z.b2z (bit declines 0)) as ->.
  { change 1 with (Z.ones 1). rewrite Z.land_ones by lia. change (2 ^ 1) with 2.
    by rewrite <- Z.bit0_mod. }
  apply wp_store; [rewrite length_replicate; lia|].
  set (matched := <[0%nat := _]> _).
  assert (length matched = div_ceil64 (span + 1)) as Hl
    by (unfold matched; by rewrite length_insert, length_replicate).
  constructor; [done| | | |].
  - apply Forall_insert; [apply Forall_replicate; by unfold is_word|apply b2z_word].
  - rewrite Z.eqb_eq. split.
    + intros ->. exists O. split; [lia|done].
    + intros (k & Hk & <-). replace k with O by lia. done.
  - intros p. unfold can_match.
    assert (wbit matched p = (p =? 0)%nat && (delta =? 1 - Z.b2z (bit declines 0))) as ->.
    { destruct (split_64 p) as (q & r & Hr & ->). rewrite wbit_word by done.
      unfold stored, matched. destruct q as [|q].
      - rewrite list_lookup_insert_eq by (rewrite length_replicate; lia).
        destruct r as [|r]; [by destruct (delta =? _)|].
        replace (64 * 0 + S r =? 0)%nat with false by (symmetry; apply Nat.eqb_neq; lia).
        cbn [andb]. destruct (delta =? _); simpl Z.b2z; [|apply Z.bits_0].
        apply Z.bits_above_log2; [done|]. change (Z.log2 1) with 0. lia.
      - rewrite list_lookup_insert_ne by lia.
        replace (64 * S q + r =? 0)%nat with false by (symmetry; apply Nat.eqb_neq; lia).
        exact (eq_trans (eq_sym (wbit_word _ (S q) r Hr)) (wbit_zeros _ _)). }
    rewrite Nat.min_0_l. destruct p as [|p]; [|done]. cbn [Nat.eqb Nat.leb andb].
    unfold score_difference. simpl rank. by rewrite Z.eqb_sym.
  - intros _. unfold score_difference. simpl. lia.
Qed.

(** C14: the paired scan finds exactly the cuts: an edge can be missing if and
    only if the two profiles differ by the sought amount at some cut of the
    span, and the matched mask has the bit of a cut exactly when the difference,
    with the decline there, allows a match, the last cut only where the boundary
    allows it; no bit past the span is set. *)
Theorem edge_cuts_are_exact forward declines span delta boundary :
  packed_ok forward -> length_ forward = span -> packed_ok declines ->
  wp (C:=C) (observe_edge_cuts forward declines span delta boundary) (fun cuts =>
    (can_be_missing cuts = true <->
       exists k, (k <= span)%nat /\ score_difference forward declines k = delta) /\
    length (matched cuts) = div_ceil64 (span + 1) /\
    forall k, wbit (matched cuts) k =
      (k <=? span)%nat && can_match forward declines delta k &&
      match boundary with MatchingAllowed => true | DeletionOnly => negb (k =? span)%nat end).
Proof.
  intros Hfw Hspan Hdc. unfold observe_edge_cuts. apply wp_checkpoint_step.
  pose proof (div_ceil64_spec (span + 1)). pose proof (div_ceil64_spec span).
  eapply wp_step; [apply (first_cut forward), Hdc|]. intros matched0 Hfirst.
  eapply wp_step.
  - apply (wp_for_seq 0 _ _ (fun block '(missing, matched, delta') =>
      cuts_upto forward declines span delta (block * 64) missing matched delta'));
      [exact Hfirst| |intros s Hs; exact Hs].
    intros block [[missing matched] delta'] Hblock Hcuts. apply wp_check_every.
    destruct (lookup_lt_is_Some_2 (words forward) block ltac:(lia)) as [a Ha].
    eapply wp_index_step; [done|].
    apply (edge_bytes_spec forward); try done.
    + eapply Forall_lookup_1; [apply Hfw|done].
    + apply window_word_is_word, Hdc.
    + intros j Hj. rewrite bit_word by done. unfold stored. by rewrite Ha.
    + intros j Hj. unfold zbit. by rewrite window_word_at by (apply Hdc || done).
    + intros j Hj. unfold zbit. rewrite window_word_at by (apply Hdc || done). f_equal. lia.
    + by rewrite Nat.add_0_r.
  - intros [[missing matched] delta'] Hcuts.
    assert (Nat.min ((0 + length (words forward)) * 64) span = span) as Hmin
      by (rewrite (ok_size _ Hfw), Hspan; lia).
    destruct Hcuts as [Hl Hw Hmiss Hmat _]. rewrite Hmin in Hmiss.
    assert (forall p, wbit matched p = (p <=? span)%nat && can_match forward declines delta p) as Hm
      by (intros p; by rewrite Hmat, Hmin).
    destruct boundary.
    + apply wp_bind, wp_ret, wp_ret. split_and!; [done|done|]. intros k. by rewrite andb_true_r.
    + pose proof (Nat.div_mod_eq span 64). pose proof (Nat.mod_upper_bound span 64).
      destruct (lookup_lt_is_Some_2 matched (span / 64) ltac:(lia)) as [w Hw'].
      eapply wp_bind, wp_index_step; [done|]. apply wp_store; [lia|]. apply wp_ret.
      cbn [can_be_missing PackedLiteral.matched].
      split_and!; [done|by rewrite length_insert|]. intros k.
      rewrite <- Hm. by apply wbit_clear.
Qed.

End scores.

(** ** Reversal *)

Lemma reverse64_spec w l j :
  Forall (fun i => i < 64)%nat l -> (j < 64)%nat ->
  zbit (foldr (fun i acc => Z.lor acc (if zbit w (63 - i) then shl 1 i else 0)) 0 l) j =
  existsb (fun i => (i =? j)%nat) l && zbit w (63 - j).
Proof.
  intros Hl Hj. induction Hl as [|i l Hi _ IH]; [apply Z.bits_0|].
  cbn [foldr existsb]. unfold zbit at 1. rewrite Z.lor_spec. fold (zbit (foldr
    (fun i acc => Z.lor acc (if zbit w (63 - i) then shl 1 i else 0)) 0 l) j). rewrite IH.
  assert (Z.testbit (if zbit w (63 - i) then shl 1 i else 0) (Z.of_nat j) =
    (i =? j)%nat && zbit w (63 - j)) as ->.
  { destruct (Nat.eqb_spec i j) as [->|Hij].
    - destruct (zbit w (63 - j)); [|apply Z.bits_0]. rewrite shl_bit by lia.
      destruct (Z.ltb_spec (Z.of_nat j) (Z.of_nat j)); [lia|]. by rewrite Z.sub_diag.
    - destruct (zbit w (63 - i)); [|apply Z.bits_0]. rewrite shl_bit by lia.
      destruct (Z.ltb_spec (Z.of_nat j) (Z.of_nat i)); [done|].
      apply Z.bits_above_log2; [done|]. change (Z.log2 1) with 0. lia. }
  by destruct (i =? j)%nat, (existsb _ l), (zbit w (63 - j)).
Qed.

Lemma reverse64_bit w j : (j < 64)%nat -> zbit (reverse64 w) j = zbit w (63 - j).
Proof.
  intros Hj. unfold reverse64. fold (zbit w).
  etransitivity; [apply (reverse64_spec w (seq 0 64) j)|]; [|done|].
  - apply Forall_forall. intros i Hi%in_seq. lia.
  - assert (existsb (fun i => (i =? j)%nat) (seq 0 64) = true) as ->; [|done].
    apply existsb_exists. exists j. split; [apply in_seq; lia|by apply Nat.eqb_eq].
Qed.

Lemma reverse64_word w : is_word (reverse64 w).
Proof.
  unfold reverse64. induction (seq 0 64) as [|i l IH]; [by unfold is_word|].
  cbn [foldr]. apply lor_word; [done|]. destruct (Z.testbit _ _); [apply shl_word|by unfold is_word].
Qed.

(** The zero bits after the vector in its last word. *)
Lemma packed_padding b :
  packed_ok b -> (64 * length (words b) = length_ b + (64 - length_ b mod 64) mod 64)%nat.
Proof.
  intros Hb. rewrite (ok_size _ Hb). unfold div_ceil64.
  pose proof (Nat.div_mod_eq (length_ b) 64). pose proof (Nat.mod_upper_bound (length_ b) 64).
  pose proof (Nat.div_mod_eq (length_ b + 63) 64).
  pose proof (Nat.mod_upper_bound (length_ b + 63) 64).
  destruct (decide (length_ b mod 64 = 0)%nat) as [Hz|Hz].
  - rewrite Hz. change ((64 - 0) mod 64)%nat with 0%nat. lia.
  - rewrite (Nat.mod_small (64 - _)) by lia. lia.
Qed.

(** reversing a packed vector reads it from its last bit to its first,
    whatever the padding of its last word. *)
Theorem reversal_reads_backwards b k :
  packed_ok b ->
  packed_ok (reverse_bits b) /\ length_ (reverse_bits b) = length_ b /\
  bit (reverse_bits b) k = (k <? length_ b)%nat && bit b (length_ b - 1 - k).
Proof.
  intros Hb. unfold reverse_bits. set (ws := words b). set (n := length ws).
  set (rev_word block := reverse64 (stored ws (n - 1 - block))).
  pose proof (fun block => reverse64_word (stored ws (n - 1 - block))) as Hrev.
  pose proof (from_fn_words (n * 64) rev_word Hrev) as [Hrw Hrl].
  assert (packed_ok (from_fn (n * 64) rev_word)) as Hok by (by apply clear_ok).
  set (padding := ((64 - length_ b mod 64) mod 64)%nat).
  set (reversed := from_fn (n * 64) rev_word) in *.
  pose proof (fun block => window_word_is_word (words reversed) (At padding) block (ok_words _ Hok))
    as Hww.
  split_and!; [apply clear_ok; by apply from_fn_words; auto| |].
  { unfold window, from_fn, clear_past_length. by destruct (_ =? _)%nat. }
  unfold window. rewrite from_fn_bit by done.
  destruct (Nat.ltb_spec k (length_ b)) as [Hk|]; [|done]. cbn [andb].
  pose proof (Nat.mod_upper_bound k 64). pose proof (Nat.div_mod_eq k 64).
  rewrite window_word_at by (apply Hok || lia).
  replace (padding + 64 * (k / 64) + k mod 64)%nat with (padding + k)%nat by lia.
  pose proof (packed_padding b Hb) as Hn. fold ws n padding in Hn.
  unfold reversed. rewrite from_fn_bit by done.
  destruct (Nat.ltb_spec (padding + k) (n * 64)); [|lia]. cbn [andb].
  destruct (split_64 (padding + k)) as (q & r & Hr & Hqr). rewrite Hqr.
  destruct (div_mod_64 q r Hr) as [-> ->]. unfold rev_word.
  etransitivity; [by apply (reverse64_bit _ r)|]. unfold zbit.
  replace (length_ b - 1 - k)%nat with (64 * (n - 1 - q) + (63 - r))%nat by lia.
  by rewrite bit_word by lia.
Qed.

(** ** The mask of a window *)

(** Entry [(block, w)] of the postings, read from [first] on. *)
Definition entry_bit (first block : nat) (w : Z) (k : nat) : bool :=
  ((first + k) / 64 =? block)%nat && zbit w ((first + k) mod 64).

Section mask_window.
Context {C : WorkControl}.

(** An entry that begins before the window shows from its first block on. *)
Lemma entry_before first w k :
  is_word w -> (first / 64 * 64 < first)%nat ->
  (k / 64 =? 0)%nat && zbit (shr w (first - first / 64 * 64)) (k mod 64) =
  entry_bit first (first / 64) w k.
Proof.
  intros Hw Hlt. unfold entry_bit. pose proof (Nat.div_mod_eq first 64).
  destruct (split_64 k) as (q & r & Hr & ->). destruct (div_mod_64 q r Hr) as [-> ->].
  unfold zbit. rewrite shr_bit by lia.
  replace (first - first / 64 * 64)%nat with (first mod 64)%nat by lia.
  destruct (decide (q = 0%nat /\ first mod 64 + r < 64)%nat) as [[-> Hin]|Hout].
  - destruct (div_mod_64 (first / 64) (first mod 64 + r) Hin) as [Hd Hm].
    replace (first + (64 * 0 + r))%nat with (64 * (first / 64) + (first mod 64 + r))%nat by lia.
    rewrite Hd, Hm, !Nat.eqb_refl. cbn [andb]. f_equal. lia.
  - assert (((first + (64 * q + r)) / 64 =? first / 64)%nat = false) as ->.
    { apply Nat.eqb_neq. pose proof (Nat.div_mod_eq (first + (64 * q + r)) 64).
      pose proof (Nat.mod_upper_bound (first + (64 * q + r)) 64). lia. }
    destruct (Nat.eqb_spec q 0); [|done]. cbn [andb]. apply word_high; [done|lia].
Qed.

(** An entry inside the window begins at a cut of it. *)
Lemma entry_at first block w k :
  is_word w -> (first <= block * 64)%nat ->
  entry_bit first block w k = cut_bit (block * 64 - first) w k.
Proof.
  intros Hw Hge. unfold entry_bit, cut_bit. set (rel := (block * 64 - first)%nat).
  pose proof (Nat.div_mod_eq (first + k) 64). pose proof (Nat.mod_upper_bound (first + k) 64).
  destruct (Nat.leb_spec rel k) as [Hle|Hgt].
  - cbn [andb]. destruct (decide (k - rel < 64)%nat) as [Hin|Hout].
    + replace (first + k)%nat with (64 * block + (k - rel))%nat by lia.
      destruct (div_mod_64 block (k - rel) Hin) as [-> ->]. by rewrite Nat.eqb_refl.
    + unfold zbit at 2. rewrite word_high by (done || lia).
      by destruct (Nat.eqb_spec ((first + k) / 64) block); [lia|].
  - by destruct (Nat.eqb_spec ((first + k) / 64) block); [lia|].
Qed.

(** One entry is or-ed in at its place, the part past the mask dropped. *)
Lemma mask_entry_spec mask first block w :
  is_word w -> Forall is_word mask -> (first / 64 <= block)%nat -> (0 < length mask)%nat ->
  (block * 64 < first + 64 * length mask)%nat ->
  wp (C:=C)
    (if (block * 64 <? first)%nat then or_at mask 0 (shr w (first - block * 64))
     else
       let! mask := or_at mask ((block * 64 - first) / 64) (shl w ((block * 64 - first) mod 64)) in
       if negb ((block * 64 - first) mod 64 =? 0)%nat &&
          ((block * 64 - first) / 64 + 1 <? length mask)%nat
       then or_at mask ((block * 64 - first) / 64 + 1) (shr w (64 - (block * 64 - first) mod 64))
       else ret mask)
    (fun mask' => length mask' = length mask /\ Forall is_word mask' /\
       forall k, (k < 64 * length mask)%nat ->
         wbit mask' k = wbit mask k || entry_bit first block w k).
Proof.
  intros Hw Hws Hblock Hlen Hend. pose proof (Nat.div_mod_eq first 64).
  pose proof (Nat.mod_upper_bound first 64).
  destruct (Nat.ltb_spec (block * 64) first) as [Hlt|Hge].
  - eapply wp_mono; [by apply or_at_spec|]. intros mask' ->.
    split_and!; [by rewrite length_insert|by apply or_words, shr_word|].
    intros k Hk. rewrite wbit_or by done. f_equal.
    assert (block = first / 64)%nat as -> by lia. by apply entry_before.
  - set (rel := (block * 64 - first)%nat) in *.
    pose proof (Nat.div_mod_eq rel 64). pose proof (Nat.mod_upper_bound rel 64).
    pose proof (fun k => entry_at first block w k Hw Hge) as Hcut. fold rel in Hcut.
    eapply wp_step; [apply or_at_spec; lia|]. intros mask1 ->.
    pose proof (or_words mask (rel / 64) _ Hws (shl_word w (rel mod 64))) as Hw1.
    pose proof (fun k => wbit_or mask (rel / 64) (shl w (rel mod 64)) k ltac:(lia)) as Hb1.
    rewrite length_insert. destruct (_ && _) eqn:Hcross.
    + apply andb_prop in Hcross as [_ Hin%Nat.ltb_lt].
      eapply wp_mono; [apply or_at_spec; by rewrite length_insert|]. intros mask2 ->.
      split_and!; [by rewrite !length_insert|by apply or_words, shr_word|].
      intros k Hk. rewrite wbit_or by (by rewrite length_insert).
      rewrite Hb1, Hcut, <- (cut_bits rel w k Hw). by rewrite orb_assoc.
    + apply wp_ret. split_and!; [by rewrite length_insert|done|].
      intros k Hk. rewrite Hb1, Hcut, <- (cut_bits rel w k Hw).
      enough ((k / 64 =? rel / 64 + 1)%nat && zbit (shr w (64 - rel mod 64)) (k mod 64) = false)
        as -> by by rewrite orb_false_r.
      destruct (Nat.eqb_spec (k / 64) (rel / 64 + 1)) as [Hp|]; [|done]. cbn [andb].
      pose proof (Nat.div_mod_eq k 64).
      apply andb_false_iff in Hcross as [Hfit|Hend'%Nat.ltb_ge]; [|lia].
      apply negb_false_iff, Nat.eqb_eq in Hfit. rewrite Hfit. unfold zbit. rewrite shr_bit by lia.
      apply word_high; [done|lia].
Qed.

Lemma postings_ok_take low l n : postings_ok low l -> postings_ok low (take n l).
Proof.
  intros Hl. revert n. induction Hl as [|low a w l Ha Hw _ IH]; intros [|n]; simpl; by constructor.
Qed.

Lemma postings_ok_mid low l block w rest :
  postings_ok low (l ++ (block, w) :: rest) -> (low <= block)%nat /\ is_word w.
Proof.
  revert low. induction l as [|[a m] l IH]; intros low Hl;
    inversion Hl as [|? ? ? ? Ha ? Hr]; subst; [done|]. destruct (IH _ Hr). split; [lia|done].
Qed.

(** The postings between two blocks. *)
Lemma partition_slice low l q q' :
  postings_ok low l -> (q <= q')%nat ->
  let begin := partition_point (fun '(block, _) => (block <? q)%nat) l in
  let end_ := partition_point (fun '(block, _) => (block <? q')%nat) l in
  let entries := take (end_ - begin) (drop begin l) in
  (begin <= end_ <= length l)%nat /\ postings_ok q entries /\
  Forall (fun e => e.1 < q')%nat entries /\
  forall b, (q <= b < q')%nat -> posting_word entries b = posting_word l b.
Proof.
  intros Hok Hq. induction Hok as [low|low at_ m l Hat Hm Hl IH]; cbv zeta.
  { simpl. split_and!; [lia|lia|constructor|constructor|done]. }
  cbn [partition_point]. cbv zeta in IH. destruct IH as (Hle & Hok & Hall & Hw).
  destruct (Nat.ltb_spec at_ q), (Nat.ltb_spec at_ q'); try lia.
  - cbn [drop length Nat.sub]. split_and!; [lia|lia|done|done|].
    intros b Hb. cbn [posting_word]. destruct (Nat.eqb_spec at_ b); [lia|]. by apply Hw.
  - assert (partition_point (fun '(block, _) => (block <? q)%nat) l = 0%nat) as Hz.
    { inversion Hl as [|? at' ? ? Hat']; subst; [done|]. cbn [partition_point].
      by destruct (Nat.ltb_spec at' q); [lia|]. }
    rewrite Hz in *. rewrite Nat.sub_0_r in *. cbn [drop take length]. cbn [drop] in *.
    split_and!; [lia|lia| |by constructor|].
    + constructor; [done|done|]. by apply postings_ok_take.
    + intros b Hb. cbn [posting_word]. destruct (Nat.eqb_spec at_ b); [done|]. by apply Hw.
  - cbn [Nat.sub take length]. split_and!; [lia|lia|constructor|constructor|].
    intros b Hb. symmetry. apply (posting_word_low at_); [by constructor|lia].
Qed.

Lemma posting_bit_snoc low l block w rest j :
  postings_ok low (l ++ (block, w) :: rest) ->
  posting_bit (l ++ [(block, w)]) j =
  posting_bit l j || ((j / 64 =? block)%nat && zbit w (j mod 64)).
Proof.
  intros Hok. unfold posting_bit. revert low Hok.
  induction l as [|[at_ m] l IH]; intros low Hok; cbn [app posting_word].
  - rewrite (Nat.eqb_sym block), Z.bits_0. destruct (_ =? _)%nat; [done|apply Z.bits_0].
  - inversion Hok as [|? ? ? ? Hat Hm Hl]; subst.
    destruct (Nat.eqb_spec at_ (j / 64)) as [<-|Hne]; [|by eapply IH].
    assert (block <> at_) as Hne.
    { apply postings_ok_mid in Hl. lia. }
    destruct (Nat.eqb_spec at_ block); [congruence|]. by rewrite orb_false_r.
Qed.

(** The loop over the entries of the window. *)
Lemma mask_entries_spec low l first span :
  postings_ok low l -> span <> 0%nat ->
  let begin := partition_point (fun '(block, _) => (block <? first / 64)%nat) l in
  let end_ := partition_point (fun '(block, _) => (block <? div_ceil64 (first + span))%nat) l in
  wp (C:=C)
    (let! entries := slice_range l begin end_ in
     for_each entries (fun '(block, bits) mask =>
       if (block * 64 <? first)%nat then or_at mask 0 (shr bits (first - block * 64))
       else
         let! mask :=
           or_at mask ((block * 64 - first) / 64) (shl bits ((block * 64 - first) mod 64)) in
         if negb ((block * 64 - first) mod 64 =? 0)%nat &&
            ((block * 64 - first) / 64 + 1 <? length mask)%nat
         then or_at mask ((block * 64 - first) / 64 + 1) (shr bits (64 - (block * 64 - first) mod 64))
         else ret mask) (replicate (div_ceil64 span) 0))
    (fun mask => length mask = div_ceil64 span /\ Forall is_word mask /\
       forall k, (k < span)%nat -> wbit mask k = posting_bit l (first + k)).
Proof.
  intros Hok Hspan begin end_. pose proof (div_ceil64_spec span) as Hd.
  pose proof (div_ceil64_spec (first + span)) as Hd'. pose proof (Nat.div_mod_eq first 64).
  destruct (partition_slice low l (first / 64) (div_ceil64 (first + span)) Hok ltac:(lia))
    as (Hle & Hoke & Hall & Hwords). fold begin end_ in Hle, Hoke, Hall, Hwords.
  apply wp_slice_range_step; [done|].
  set (entries := take (end_ - begin) (drop begin l)) in *.
  apply (wp_for_each _ _ (fun done mask => length mask = div_ceil64 span /\ Forall is_word mask /\
    forall k, (k < 64 * div_ceil64 span)%nat -> wbit mask k = posting_bit done (first + k))).
  - split_and!; [apply length_replicate|apply Forall_replicate; by unfold is_word|].
    intros k _. rewrite wbit_zeros. symmetry. apply Z.bits_0.
  - intros done [block w] rest mask Heq (Hlen & Hws & Hbits). rewrite Heq in Hoke, Hall.
    apply postings_ok_mid in Hoke as Hmid. apply Forall_app in Hall as [_ Hb].
    apply Forall_cons_iff in Hb as [Hb _]. cbn [fst] in Hb.
    eapply wp_mono; [apply mask_entry_spec; [apply Hmid|done|apply Hmid|lia|lia]|].
    intros mask' (Hlen' & Hws' & Hk'). split_and!; [congruence|done|].
    intros k Hk. rewrite Hk', Hbits by (done || by rewrite Hlen).
    by rewrite (posting_bit_snoc _ _ _ _ _ _ Hoke).
  - intros mask (Hlen & Hws & Hbits). split_and!; [done|done|]. intros k Hk.
    rewrite Hbits by lia. unfold posting_bit. rewrite Hwords; [done|].
    pose proof (Nat.div_mod_eq (first + k) 64). pose proof (Nat.mod_upper_bound (first + k) 64). lia.
Qed.

(** C27: the mask of a window marks exactly the places of the window where the
    word matches the reference, whatever blocks the window crosses, and writes
    no word out of range. *)
Theorem mask_window_marks_the_matches o mode R word first span :
  reference_ok o mode R ->
  wp (C:=C) (mask_window o word first span) (fun mask =>
    length mask = div_ceil64 span /\
    forall k, wbit mask k = (k <? span)%nat &&
      match R !! (first + k)%nat with
      | Some r => matches_words mode word r
      | None => false
      end).
Proof.
  intros Ho. unfold mask_window. pose proof (div_ceil64_spec span).
  assert (forall k, match R !! (first + k)%nat with Some r => matches_words mode word r
    | None => false end = posting_bit (default [] (postings o word)) (first + k)) as Hbits
    by (intros k; by rewrite (ref_bits _ _ _ Ho)).
  pose proof (ref_postings _ _ _ Ho word) as Hok.
  destruct (Nat.eqb_spec span 0) as [->|Hspan].
  { apply wp_ret. split; [apply length_replicate|]. intros k. by rewrite wbit_zeros. }
  eapply (wp_step _ _ (fun mask => length mask = div_ceil64 span /\ Forall is_word mask /\
    forall k, (k < span)%nat ->
      wbit mask k = posting_bit (default [] (postings o word)) (first + k))).
  - destruct (postings o word) as [l|]; cbn [default from_option] in *.
    2: { apply wp_ret. split_and!; [apply length_replicate|apply Forall_replicate; by unfold is_word|].
         intros k _. rewrite wbit_zeros. symmetry. apply Z.bits_0. }
    by eapply mask_entries_spec.
  - intros mask (Hlen & Hw & Hk).
    assert (forall k, wbit (words (clear_past_length (mkBits mask span))) k =
      (k <? span)%nat && wbit mask k) as Hclear by (intros k; by apply (clear_bit (mkBits mask span))).
    eapply (wp_mono _ (fun mask' => mask' = words (clear_past_length (mkBits mask span)))).
    + unfold clear_past_length. cbn [words length_].
      destruct (span mod 64 =? 0)%nat; cbn [negb]; [by apply wp_ret|].
      destruct (list.last mask); by apply wp_ret.
    + intros mask' ->. split.
      * rewrite (ok_size _ (clear_ok (mkBits mask span) Hw Hlen)).
        unfold clear_past_length. by destruct (_ =? _)%nat.
      * intros k. rewrite Hclear, Hbits. destruct (Nat.ltb_spec k span); [|done].
        cbn [andb]. by apply Hk.
Qed.

End mask_window.

(** ** Witnesses *)

(** Two profiles of 70 places and the merge of one with the other shifted. *)
Definition left_profile : PackedBits := from_fn 70 (fun _ => 0x5555555555555555).
Definition right_profile : PackedBits := from_fn 70 (fun k => if (k =? 0)%nat then 255 else 63).

Lemma profiles_ok : packed_ok left_profile /\ packed_ok right_profile.
Proof.
  split; apply clear_ok; apply from_fn_words; intros k; unfold is_word; try (destruct (k =? 0)%nat); lia.
Qed.

Lemma merging_takes_the_pointwise_maximum_witness :
  wp (C:=Uninterrupted) (merge_shifted left_profile 3 right_profile 0 73) (fun m =>
    packed_ok m /\ length_ m = 73%nat /\ forall k, (k <= 73)%nat ->
      rank (bit m) k = Z.max (rank (bit left_profile) (k - 3)) (rank (bit right_profile) (k - 0))).
Proof.
  apply (merging_takes_the_pointwise_maximum left_profile 3 right_profile 0 73); apply profiles_ok.
Defined.

Lemma edge_cuts_are_exact_witness :
  wp (C:=Uninterrupted) (observe_edge_cuts left_profile right_profile 70 (-4) DeletionOnly)
    (fun cuts =>
      (can_be_missing cuts = true <->
         exists k, (k <= 70)%nat /\ score_difference left_profile right_profile k = -4) /\
      length (matched cuts) = 2%nat /\
      forall k, wbit (matched cuts) k =
        (k <=? 70)%nat && can_match left_profile right_profile (-4) k && negb (k =? 70)%nat).
Proof.
  apply (edge_cuts_are_exact left_profile right_profile 70 (-4) DeletionOnly);
    [apply profiles_ok|reflexivity|apply profiles_ok].
Defined.

Lemma reversal_reads_backwards_witness :
  packed_ok (reverse_bits right_profile) /\ length_ (reverse_bits right_profile) = 70%nat /\
  bit (reverse_bits right_profile) 2 = bit right_profile 67.
Proof. apply (reversal_reads_backwards right_profile 2). apply profiles_ok. Defined.

Lemma mask_window_marks_the_matches_witness :
  exists o, observe (C:=Uninterrupted) sample_reference AsciiInsensitive Forward tt = (Ok o, tt) /\
    wp (C:=Uninterrupted) (mask_window o "b" 1 3) (fun mask =>
      length mask = 1%nat /\
      forall k, wbit mask k = (k <? 3)%nat &&
        match sample_reference !! (1 + k)%nat with
        | Some r => matches_words AsciiInsensitive "b" r
        | None => false
        end).
Proof.
  destruct (wp_uninterrupted _ _
    (observe_spec (C:=Uninterrupted) sample_reference AsciiInsensitive Forward)) as (o & Ho & Hok).
  exists o. split; [exact Ho|].
  apply (mask_window_marks_the_matches o AsciiInsensitive sample_reference "b" 1 3 Hok).
Defined.
