(* ===== verification/Interleaving.v ===== *)
(** * Joint correspondence of two independently ordered speakers

    Models [crates/batchalign-transform/src/dp_align/interleaving.rs]: the
    admitted shape and its budget, the prepared match relation, the forward and
    backward scores over the product of the two chains and the reference, the
    evidence of every word over all optimal assignments, the selected
    assignment and the bound matches read from them. Tables are flat lists and
    every index is one that can panic here. The properties are in
    [InterleavingFacts.v]. *)

From S2P Require Import Prelude WorkControl DpAlign.
From stdpp Require Import base decidable option list list_numbers sorting strings numbers.

Open Scope nat_scope.
Open Scope rust_scope.

Abbreviation Run := (Work Uninterrupted).

Definition MAX_CELLS : Z := 1048576.

Inductive SpeakerChain :=
| First
| Second.

#[export] Instance speaker_chain_eq_dec : EqDecision SpeakerChain.
Proof. solve_decision. Defined.

(** An array of two indexed by [SpeakerChain::index]. *)
Definition pick {A} (c : SpeakerChain) (p : A * A) : A :=
  match c with First => p.1 | Second => p.2 end.
Definition put {A} (c : SpeakerChain) (a : A) (p : A * A) : A * A :=
  match c with First => (a, p.2) | Second => (p.1, a) end.

Inductive InterleavingRefusal :=
| CellBudgetExceeded.

Record MatchAddress := mkAddress {
  chain : SpeakerChain;
  word : nat;
  address_reference : nat
}.

#[export] Instance match_address_eq_dec : EqDecision MatchAddress.
Proof. solve_decision. Defined.

Record WordEvidence := mkEvidence {
  candidates : list nat;
  can_be_missing : bool
}.

Record TwoSpeakerAlignment := mkTwoSpeaker {
  sources : list string * list string;
  reference : list string;
  optimum : nat;
  selected : list MatchAddress;
  words : list WordEvidence * list WordEvidence
}.

Record InterleavingMatch := mkMatch {
  address : MatchAddress;
  match_source : string;
  match_reference : string
}.

(** ** The shape *)

Record AdmittedShape := mkShape {
  shape_second : nat;
  shape_reference : nat;
  cells : nat
}.

(** [usize] results that must not overflow. *)
Definition checked (n : nat) : option nat :=
  if (Z.of_nat n <=? usize_max)%Z then Some n else None.

Definition shape_new (first second reference : nat) (budget : Z) : option AdmittedShape :=
  second ← checked (second + 1);
  reference ← checked (reference + 1);
  first ← checked (first + 1);
  plane ← checked (first * second);
  cells ← checked (plane * reference);
  if (Z.of_nat cells <=? budget)%Z
  then Some {| shape_second := second; shape_reference := reference; cells := cells |}
  else None.

Definition shape_at (s : AdmittedShape) (first second reference : nat) : nat :=
  (first * shape_second s + second) * shape_reference s + reference.

(** ** The match relation *)

Record MatchRelation := mkRelation {
  reference_len : nat;
  relation_matches : list bool * list bool
}.

Definition relation_new `{FuzzyLibrary} (srcs : list string * list string)
    (reference : list string) (mode : MatchMode) : MatchRelation :=
  let rows source :=
    match mode with
    | Exact => source ≫= (fun w => String.eqb w <$> reference)
    | CaseInsensitive => source ≫= (fun w => eq_ignore_ascii_case w <$> reference)
    | Fuzzy threshold =>
        let reference := prepare_fuzzy_word <$> reference in
        let policy := mkFuzzyComparison threshold in
        source ≫= (fun w =>
          let w := prepare_fuzzy_word w in (fun other => matches w other policy) <$> reference)
    end in
  {| reference_len := length reference; relation_matches := (rows srcs.1, rows srcs.2) |}.

Definition relation_at (r : MatchRelation) (c : SpeakerChain) (word reference : nat) : Run bool :=
  index (pick c (relation_matches r)) (word * reference_len r + reference).

(** ** Scores *)

(** [if guard { score = score.max(table[at] + bonus) }]. *)
Definition consider (guard : bool) (table : list nat) (at_ bonus score : nat) : Run nat :=
  if guard then let! v := index table at_ in ret (Nat.max score (v + bonus)) else ret score.

(** [guard && relation.matches(..)]. *)
Definition guarded_match (guard : bool) (r : MatchRelation) (c : SpeakerChain)
    (word reference : nat) : Run bool :=
  if guard then relation_at r c word reference else ret false.

Section analysis.
Context (shape : AdmittedShape) (relation : MatchRelation) (n1 n2 n3 : nat).

Definition forward_cell (i j k : nat) (forward : list nat) : Run (list nat) :=
  let! score := consider (0 <? i) forward (shape_at shape (i - 1) j k) 0 0 in
  let! score := consider (0 <? j) forward (shape_at shape i (j - 1) k) 0 score in
  let! score :=
    if 0 <? k then
      let! score := consider true forward (shape_at shape i j (k - 1)) 0 score in
      let! m := guarded_match (0 <? i) relation First (i - 1) (k - 1) in
      let! score := consider m forward (shape_at shape (i - 1) j (k - 1)) 1 score in
      let! m := guarded_match (0 <? j) relation Second (j - 1) (k - 1) in
      consider m forward (shape_at shape i (j - 1) (k - 1)) 1 score
    else ret score in
  store forward (shape_at shape i j k) score.

Definition backward_cell (i j k : nat) (backward : list nat) : Run (list nat) :=
  let! score := consider (i <? n1) backward (shape_at shape (i + 1) j k) 0 0 in
  let! score := consider (j <? n2) backward (shape_at shape i (j + 1) k) 0 score in
  let! score :=
    if k <? n3 then
      let! score := consider true backward (shape_at shape i j (k + 1)) 0 score in
      let! m := guarded_match (i <? n1) relation First i k in
      let! score := consider m backward (shape_at shape (i + 1) j (k + 1)) 1 score in
      let! m := guarded_match (j <? n2) relation Second j k in
      consider m backward (shape_at shape i (j + 1) (k + 1)) 1 score
    else ret score in
  store backward (shape_at shape i j k) score.

(** The three nested loops over ranges of the coordinates. *)
Definition for_cells {S} (is_ js ks : list nat) (body : nat -> nat -> nat -> S -> Run S) (s : S)
    : Run S :=
  for_each is_ (fun i s => for_each js (fun j s => for_each ks (fun k s => body i j k s) s) s) s.

Definition forward_table : Run (list nat) :=
  for_cells (seq 0 (S n1)) (seq 0 (S n2)) (seq 0 (S n3)) forward_cell (replicate (cells shape) 0).

Definition backward_table : Run (list nat) :=
  for_cells (rev (seq 0 (S n1))) (rev (seq 0 (S n2))) (rev (seq 0 (S n3))) backward_cell
    (replicate (cells shape) 0).

(** ** Evidence *)

(** One outgoing source edge of a state: skipping the word, and matching it
    with reference word [k]. *)
Definition edge_evidence (backward : list nat) (optimum prefix k : nat)
    (c : SpeakerChain) (word next_i next_j : nat) (ws : list WordEvidence * list WordEvidence)
    : Run (list WordEvidence * list WordEvidence) :=
  if word =? length (pick c ws) then ret ws
  else
    let! evidence := index (pick c ws) word in
    let! skipped := index backward (shape_at shape next_i next_j k) in
    let evidence :=
      if prefix + skipped =? optimum
      then {| candidates := candidates evidence; can_be_missing := true |} else evidence in
    let! m := guarded_match (k <? n3) relation c word k in
    let! evidence :=
      if m then
        let! taken := index backward (shape_at shape next_i next_j (k + 1)) in
        if prefix + 1 + taken =? optimum
        then ret {| candidates := candidates evidence ++ [k];
                    can_be_missing := can_be_missing evidence |}
        else ret evidence
      else ret evidence in
    let! updated := store (pick c ws) word evidence in
    ret (put c updated ws).

Definition cell_evidence (forward backward : list nat) (optimum i j k : nat)
    (ws : list WordEvidence * list WordEvidence) : Run (list WordEvidence * list WordEvidence) :=
  let! prefix := index forward (shape_at shape i j k) in
  let! ws := edge_evidence backward optimum prefix k First i (i + 1) j ws in
  edge_evidence backward optimum prefix k Second j i (j + 1) ws.

Definition no_evidence (n : nat) : list WordEvidence :=
  replicate n {| candidates := []; can_be_missing := false |}.

Definition all_evidence (forward backward : list nat) (optimum : nat)
    : Run (list WordEvidence * list WordEvidence) :=
  for_cells (seq 0 (S n1)) (seq 0 (S n2)) (seq 0 (S n3))
    (cell_evidence forward backward optimum) (no_evidence n1, no_evidence n2).

(** ** The selected assignment *)

Fixpoint select (fuel : nat) (backward : list nat) (i j k : nat) (out : list MatchAddress)
    : Run (list MatchAddress) :=
  if negb ((i <? n1) || (j <? n2) || (k <? n3)) then ret out
  else
    match fuel with
    | O => fault OutOfFuel
    | S fuel =>
        let! score := index backward (shape_at shape i j k) in
        let! first :=
          let! m := guarded_match ((i <? n1) && (k <? n3)) relation First i k in
          if m then
            let! v := index backward (shape_at shape (i + 1) j (k + 1)) in ret (1 + v =? score)
          else ret false in
        if first then
          select fuel backward (i + 1) j (k + 1) (out ++ [mkAddress First i k])
        else
          let! second :=
            let! m := guarded_match ((j <? n2) && (k <? n3)) relation Second j k in
            if m then
              let! v := index backward (shape_at shape i (j + 1) (k + 1)) in ret (1 + v =? score)
            else ret false in
          if second then
            select fuel backward i (j + 1) (k + 1) (out ++ [mkAddress Second j k])
          else
            let! skip_reference :=
              if k <? n3 then
                let! v := index backward (shape_at shape i j (k + 1)) in ret (v =? score)
              else ret false in
            if skip_reference then select fuel backward i j (k + 1) out
            else
              let! skip_first :=
                if i <? n1 then
                  let! v := index backward (shape_at shape (i + 1) j k) in ret (v =? score)
                else ret false in
              if skip_first then select fuel backward (i + 1) j k out
              else select fuel backward i (j + 1) k out
    end.

End analysis.

(** [sort_unstable] on numbers, and [dedup] of neighbours. *)
Fixpoint dedup (l : list nat) : list nat :=
  match l with
  | a :: (b :: _) as rest => if a =? b then dedup rest else a :: dedup rest
  | _ => l
  end.

Definition settle (e : WordEvidence) : WordEvidence :=
  {| candidates := dedup (merge_sort le (candidates e)); can_be_missing := can_be_missing e |}.

Definition with_budget `{FuzzyLibrary} (first second reference : list string) (mode : MatchMode)
    (budget : Z) : Run (result InterleavingRefusal TwoSpeakerAlignment) :=
  match shape_new (length first) (length second) (length reference) budget with
  | None => ret (Err CellBudgetExceeded)
  | Some shape =>
      let relation := relation_new (first, second) reference mode in
      let n1 := length first in
      let n2 := length second in
      let n3 := length reference in
      let! forward := forward_table shape relation n1 n2 n3 in
      let! backward := backward_table shape relation n1 n2 n3 in
      let! optimum := index backward 0 in
      let! ws := all_evidence shape relation n1 n2 n3 forward backward optimum in
      let ws := (settle <$> ws.1, settle <$> ws.2) in
      let! selected := select shape relation n1 n2 n3 (n1 + n2 + n3) backward 0 0 0 [] in
      ret (Ok {| sources := (first, second); reference := reference; optimum := optimum;
                 selected := selected; words := ws |})
  end.

Definition observe `{FuzzyLibrary} (first second reference : list string) (mode : MatchMode)
    : Run (result InterleavingRefusal TwoSpeakerAlignment) :=
  with_budget first second reference mode MAX_CELLS.

(** ** What a reader sees *)

Definition bound (a : TwoSpeakerAlignment) (m : MatchAddress) : Run InterleavingMatch :=
  let! source := index (pick (chain m) (sources a)) (word m) in
  let! ref := index (reference a) (address_reference m) in
  ret {| address := m; match_source := source; match_reference := ref |}.

Definition evidence (a : TwoSpeakerAlignment) (c : SpeakerChain) (w : nat) : Run WordEvidence :=
  index (pick c (words a)) w.

(** [InterleavingWord::common]. *)
Definition common (a : TwoSpeakerAlignment) (c : SpeakerChain) (w : nat)
    : Run (option InterleavingMatch) :=
  let! e := evidence a c w in
  if can_be_missing e || negb (length (candidates e) =? 1) then ret None
  else
    let! k := index (candidates e) 0 in
    let! m := bound a (mkAddress c w k) in
    ret (Some m).
