(* ===== verification/InterleavingFacts.v ===== *)
(** * Properties of the two-speaker analysis

    An assignment lists matches by increasing reference word, each speaker's
    words increasing too, with no order between the speakers. The tables hold
    the best assignments after and before each state; from them the theorems
    say that the analysis reports the size of the optimal assignments, one of
    them, and for every word exactly what happens to it across all of them. *)

From S2P Require Import Prelude WorkControl DpAlign DpAlignFacts Interleaving.
From stdpp Require Import base decidable option list list_numbers sets sorting strings numbers.

Open Scope nat_scope.
Open Scope rust_scope.

(** ** Positions *)

Lemma pick_put {A} c c' (a : A) p : pick c (put c' a p) = if decide (c = c') then a else pick c p.
Proof. by destruct c, c', p. Qed.

Lemma pick_put_eq {A} c (a : A) p : pick c (put c a p) = a.
Proof. by destruct c. Qed.

Lemma put_put {A} c (a b : A) p : put c a (put c b p) = put c a p.
Proof. by destruct c. Qed.

(** Pointwise order of positions in the two chains. *)
Definition at_most (p q : nat * nat) : Prop := forall c, pick c p <= pick c q.

Lemma at_most_refl p : at_most p p.
Proof. by intros c. Qed.

Lemma at_most_trans p q r : at_most p q -> at_most q r -> at_most p r.
Proof. intros Hpq Hqr c. specialize (Hpq c). specialize (Hqr c). lia. Qed.

Lemma at_most_put c a p : pick c p <= a -> at_most p (put c a p).
Proof. intros Ha c'. rewrite pick_put. destruct (decide (c' = c)) as [->|]; lia. Qed.

Lemma put_at_most c a p q : at_most p q -> a <= pick c q -> at_most (put c a p) q.
Proof. intros Hpq Ha c'. rewrite pick_put. destruct (decide (c' = c)) as [->|]; [done|apply Hpq]. Qed.

Lemma at_most_zero p : at_most (0, 0) p.
Proof. intros []; simpl; lia. Qed.

(** ** Assignments *)

Section assignments.
Context (n : nat * nat) (n3 : nat) (mt : SpeakerChain -> nat -> nat -> bool).
Implicit Types (p q : nat * nat) (ms : list MatchAddress) (m : MatchAddress).

(** Assignments that use words from position [p] and reference word [k] on. *)
Inductive chosen : nat * nat -> nat -> list MatchAddress -> Prop :=
| chosen_nil p k : chosen p k []
| chosen_match p k c w r ms :
    pick c p <= w < pick c n -> k <= r < n3 -> mt c w r = true ->
    chosen (put c (S w) p) (S r) ms -> chosen p k (mkAddress c w r :: ms).

(** Matches that lie before position [p] and reference word [k]. *)
Definition below p k ms : Prop :=
  Forall (fun m => word m < pick (chain m) p /\ address_reference m < k) ms.

Lemma below_mono p k q k' ms : below p k ms -> at_most p q -> k <= k' -> below q k' ms.
Proof.
  intros Hb Hpq Hk. eapply Forall_impl; [|exact Hb]. intros m [Hw Hr].
  specialize (Hpq (chain m)). lia.
Qed.

Lemma chosen_mono p k q k' ms : chosen q k' ms -> at_most p q -> k <= k' -> chosen p k ms.
Proof.
  intros Hc. revert p k. induction Hc as [q k'|q k' c w r ms Hw Hr Hm _ IH]; intros p k Hpq Hk;
    constructor; try done.
  - specialize (Hpq c). lia.
  - lia.
  - apply IH; [|done]. apply put_at_most; [|by rewrite pick_put_eq].
    eapply at_most_trans; [exact Hpq|]. apply at_most_put. lia.
Qed.

Lemma chosen_app p k q k' ms1 ms2 :
  chosen p k ms1 -> below q k' ms1 -> chosen q k' ms2 -> at_most p q -> k <= k' ->
  chosen p k (ms1 ++ ms2).
Proof.
  intros Hc. induction Hc as [|p k c w r ms Hw Hr Hm _ IH]; intros Hb H2 Hpq Hk; simpl.
  - by eapply chosen_mono.
  - apply Forall_cons_iff in Hb as [[Hbw Hbr] Hb]. simpl in *.
    constructor; try done. apply IH; try done. apply put_at_most; [done|lia].
Qed.

(** Cutting an assignment: the first part lies before a position from which
    the second part is an assignment. *)
Lemma chosen_split p k ms1 ms2 :
  chosen p k (ms1 ++ ms2) -> at_most p n -> k <= n3 ->
  exists q k', at_most p q /\ at_most q n /\ k <= k' <= n3 /\
    chosen p k ms1 /\ below q k' ms1 /\ chosen q k' ms2 /\
    forall c a, pick c p <= a -> Forall (fun m => chain m = c -> word m < a) ms1 -> pick c q <= a.
Proof.
  revert p k. induction ms1 as [|m ms1 IH]; intros p k Hc Hp Hk; simpl in *.
  - exists p, k. split_and!; auto using at_most_refl, chosen_nil. constructor.
  - inversion Hc as [|? ? c w r ? Hw Hr Hm Hrest]; subst.
    destruct (IH _ _ Hrest) as (q & k' & Hpq & Hq & Hk' & Hc1 & Hb & Hc2 & Htight).
    { apply put_at_most; [done|lia]. }
    { lia. }
    exists q, k'. split_and!; try done; try lia.
    + eapply at_most_trans; [|exact Hpq]. apply at_most_put. lia.
    + by constructor.
    + constructor; [|done]. simpl. specialize (Hpq c). rewrite pick_put_eq in Hpq. lia.
    + intros c' a Ha [Hword Hall]%Forall_cons_iff. apply Htight; [|done]. simpl in Hword.
      rewrite pick_put. destruct (decide (c' = c)) as [->|]; [by apply Hword|done].
Qed.

(** ** Best assignments *)

(** [d] is the most matches an assignment from [p] and [k] on can have. *)
Definition best p k (d : nat) : Prop :=
  (exists ms, chosen p k ms /\ length ms = d) /\ forall ms, chosen p k ms -> length ms <= d.

(** [d] is the most matches before [p] and [k]. *)
Definition best_before p k (d : nat) : Prop :=
  (exists ms, chosen (0, 0) 0 ms /\ below p k ms /\ length ms = d) /\
  forall ms, chosen (0, 0) 0 ms -> below p k ms -> length ms <= d.

Lemma best_unique p k d d' : best p k d -> best p k d' -> d = d'.
Proof.
  intros [(ms & Hc & <-) Hmax] [(ms' & Hc' & <-) Hmax'].
  specialize (Hmax _ Hc'). specialize (Hmax' _ Hc). lia.
Qed.

Lemma best_before_unique p k d d' : best_before p k d -> best_before p k d' -> d = d'.
Proof.
  intros [(ms & Hc & Hb & <-) Hmax] [(ms' & Hc' & Hb' & <-) Hmax'].
  specialize (Hmax _ Hc' Hb'). specialize (Hmax' _ Hc Hb). lia.
Qed.

(** An assignment from a state starts with a match there, or skips a word or
    the reference word. *)
Lemma chosen_inv p k ms :
  chosen p k ms ->
  ms = [] \/
  (k < n3 /\ chosen p (S k) ms) \/
  (exists c, pick c p < pick c n /\ chosen (put c (S (pick c p)) p) k ms) \/
  (exists c ms', pick c p < pick c n /\ k < n3 /\ mt c (pick c p) k = true /\
     chosen (put c (S (pick c p)) p) (S k) ms' /\ ms = mkAddress c (pick c p) k :: ms').
Proof.
  intros Hc. inversion Hc as [|? ? c w r ms' Hw Hr Hm Hrest]; subst; [by left|right].
  destruct (decide (k = r)) as [<-|Hne].
  - right. destruct (decide (pick c p = w)) as [<-|Hne'].
    + right. exists c, ms'. split_and!; try done; lia.
    + left. exists c. split; [lia|]. constructor; try done.
      * rewrite pick_put_eq. lia.
      * by rewrite put_put.
  - left. split; [lia|]. constructor; try done. lia.
Qed.

(** An attainable score that no edge out of the state can beat is the best. *)
Lemma best_intro p k d :
  (exists ms, chosen p k ms /\ length ms = d) ->
  (forall c, pick c p < pick c n -> exists v, best (put c (S (pick c p)) p) k v /\ v <= d) ->
  (k < n3 -> exists v, best p (S k) v /\ v <= d) ->
  (forall c, pick c p < pick c n -> k < n3 -> mt c (pick c p) k = true ->
     exists v, best (put c (S (pick c p)) p) (S k) v /\ S v <= d) ->
  best p k d.
Proof.
  intros Hd Hskip Href Hmatch. split; [done|]. intros ms Hc.
  destruct (chosen_inv _ _ _ Hc) as [->|[[Hk Hc']|[(c & Hp & Hc')|(c & ms' & Hp & Hk & Hm & Hc' & ->)]]].
  - simpl. lia.
  - destruct (Href Hk) as (v & [_ Hv] & Hle). specialize (Hv _ Hc'). lia.
  - destruct (Hskip c Hp) as (v & [_ Hv] & Hle). specialize (Hv _ Hc'). lia.
  - destruct (Hmatch c Hp Hk Hm) as (v & [_ Hv] & Hle). specialize (Hv _ Hc'). simpl. lia.
Qed.

(** What a later state attains, an earlier one attains. *)
Lemma attain_skip p k q k' v :
  best q k' v -> at_most p q -> k <= k' -> exists ms, chosen p k ms /\ length ms = v.
Proof. intros [(ms & Hc & <-) _] Hpq Hk. exists ms. split; [|done]. by eapply chosen_mono. Qed.

Lemma attain_match p k c v :
  pick c p < pick c n -> k < n3 -> mt c (pick c p) k = true ->
  best (put c (S (pick c p)) p) (S k) v -> exists ms, chosen p k ms /\ length ms = S v.
Proof.
  intros Hp Hk Hm [(ms & Hc & <-) _]. exists (mkAddress c (pick c p) k :: ms). split; [|done].
  constructor; try done; lia.
Qed.

(** Bounds on one chain and on the reference can come from a tighter state. *)
Lemma below_put p k q k' c a k2 ms :
  below p k ms -> below q k' ms -> pick c q <= a -> k' <= k2 -> below (put c a p) k2 ms.
Proof.
  intros Hp Hq Ha Hk. apply Forall_forall. intros m Hm. unfold below in *.
  rewrite Forall_forall in Hp, Hq. destruct (Hp m Hm), (Hq m Hm). rewrite pick_put.
  destruct (decide (chain m = c)) as [<-|]; lia.
Qed.

Lemma at_most_put_pred c p : at_most (put c (pick c p - 1) p) p.
Proof. apply put_at_most; [apply at_most_refl|lia]. Qed.

(** An assignment before a state ends with a match there, or leaves the last
    word or the last reference word alone. *)
Lemma before_inv p k ms :
  chosen (0, 0) 0 ms -> below p k ms ->
  ms = [] \/
  (0 < k /\ below p (k - 1) ms) \/
  (exists c, 0 < pick c p /\ below (put c (pick c p - 1) p) k ms) \/
  (exists c ms', 0 < pick c p <= pick c n /\ 0 < k <= n3 /\ mt c (pick c p - 1) (k - 1) = true /\
     chosen (0, 0) 0 ms' /\ below (put c (pick c p - 1) p) (k - 1) ms' /\
     ms = ms' ++ [mkAddress c (pick c p - 1) (k - 1)]).
Proof.
  intros Hc Hb. destruct ms as [|m ms' _] using rev_ind; [by left|right].
  destruct (chosen_split _ _ _ _ Hc (at_most_zero _) (Nat.le_0_l _))
    as (q & k' & _ & _ & _ & Hc' & Hb' & Hm & _).
  inversion Hm as [|? ? c w r ? Hw Hr Hmt _]; subst. clear Hm.
  apply Forall_app in Hb as [Hb Hlast]. apply Forall_cons_iff in Hlast as [[Hlw Hlr] _].
  simpl in Hlw, Hlr.
  destruct (decide (r = k - 1)) as [->|Hr'].
  - right. destruct (decide (w = pick c p - 1)) as [->|Hw'].
    + right. exists c, ms'. split_and!; try done; try lia. eapply below_put; [exact Hb|exact Hb'|lia..].
    + left. exists c. split; [lia|]. apply Forall_app. split.
      * eapply below_put; [exact Hb|exact Hb'|lia..].
      * constructor; [|constructor]. simpl. rewrite pick_put_eq. lia.
  - left. split; [lia|]. apply Forall_app. split.
    + apply Forall_forall. intros m Hin. unfold below in *. rewrite Forall_forall in Hb, Hb'.
      destruct (Hb m Hin), (Hb' m Hin). lia.
    + constructor; [|constructor]. simpl. lia.
Qed.

Lemma best_before_intro p k d :
  (exists ms, chosen (0, 0) 0 ms /\ below p k ms /\ length ms = d) ->
  (forall c, 0 < pick c p -> exists v, best_before (put c (pick c p - 1) p) k v /\ v <= d) ->
  (0 < k -> exists v, best_before p (k - 1) v /\ v <= d) ->
  (forall c, 0 < pick c p <= pick c n -> 0 < k <= n3 -> mt c (pick c p - 1) (k - 1) = true ->
     exists v, best_before (put c (pick c p - 1) p) (k - 1) v /\ S v <= d) ->
  best_before p k d.
Proof.
  intros Hd Hskip Href Hmatch. split; [done|]. intros ms Hc Hb.
  destruct (before_inv _ _ _ Hc Hb)
    as [->|[[Hk Hb']|[(c & Hp & Hb')|(c & ms' & Hp & Hk & Hm & Hc' & Hb' & ->)]]].
  - simpl. lia.
  - destruct (Href Hk) as (v & [_ Hv] & Hle). specialize (Hv _ Hc Hb'). lia.
  - destruct (Hskip c Hp) as (v & [_ Hv] & Hle). specialize (Hv _ Hc Hb'). lia.
  - destruct (Hmatch c Hp Hk Hm) as (v & [_ Hv] & Hle). specialize (Hv _ Hc' Hb').
    rewrite length_app. simpl. lia.
Qed.

Lemma attain_before_skip p k q k' v :
  best_before q k' v -> at_most q p -> k' <= k ->
  exists ms, chosen (0, 0) 0 ms /\ below p k ms /\ length ms = v.
Proof.
  intros [(ms & Hc & Hb & <-) _] Hq Hk. exists ms. split_and!; [done| |done].
  by eapply below_mono.
Qed.

Lemma attain_before_match p k c v :
  0 < pick c p <= pick c n -> 0 < k <= n3 -> mt c (pick c p - 1) (k - 1) = true ->
  best_before (put c (pick c p - 1) p) (k - 1) v ->
  exists ms, chosen (0, 0) 0 ms /\ below p k ms /\ length ms = S v.
Proof.
  intros Hp Hk Hm [(ms & Hc & Hb & <-) _].
  exists (ms ++ [mkAddress c (pick c p - 1) (k - 1)]). split_and!.
  - eapply chosen_app; [exact Hc|exact Hb| |apply at_most_zero|lia].
    constructor; try done; try lia; [|constructor]. rewrite pick_put_eq. lia.
  - apply Forall_app. split; [|constructor; [simpl; lia|constructor]].
    eapply below_mono; [exact Hb|apply at_most_put_pred|lia].
  - rewrite length_app. simpl. lia.
Qed.

(** ** What happens to a word across the optimal assignments *)

Definition optimal ms : Prop :=
  chosen (0, 0) 0 ms /\ forall ms', chosen (0, 0) 0 ms' -> length ms' <= length ms.

Lemma optimal_best d ms : best (0, 0) 0 d -> chosen (0, 0) 0 ms -> length ms = d -> optimal ms.
Proof. intros [_ Hmax] Hc Hl. split; [done|]. intros ms' Hc'. rewrite Hl. by apply Hmax. Qed.

Lemma optimal_length d ms : best (0, 0) 0 d -> optimal ms -> length ms = d.
Proof.
  intros [(ms' & Hc' & <-) Hmax] [Hc Hopt]. specialize (Hmax _ Hc). specialize (Hopt _ Hc'). lia.
Qed.

(** An optimal path skips the word of chain [c] at state [p], [k]. *)
Definition skip_edge (d : nat) c p k : Prop :=
  exists v v', best_before p k v /\ best (put c (S (pick c p)) p) k v' /\ v + v' = d.

(** An optimal path matches it with reference word [k]. *)
Definition match_edge (d : nat) c p k : Prop :=
  k < n3 /\ mt c (pick c p) k = true /\
  exists v v', best_before p k v /\ best (put c (S (pick c p)) p) (S k) v' /\ v + 1 + v' = d.

(** In an assignment from [p] and [k] on, no word of a chain comes before [p]. *)
Lemma chosen_from p k ms m : chosen p k ms -> m ∈ ms -> pick (chain m) p <= word m.
Proof.
  induction 1 as [|p k c w r ms Hw Hr _ _ IH]; [by intros ?%elem_of_nil|].
  intros [->|Hin]%elem_of_cons; [simpl; lia|]. specialize (IH Hin).
  rewrite pick_put in IH. destruct (decide (chain m = c)) as [<-|]; lia.
Qed.

Lemma skip_edge_sound d c p k :
  best (0, 0) 0 d -> at_most p n -> skip_edge d c p k ->
  exists ms, optimal ms /\ forall r, mkAddress c (pick c p) r ∉ ms.
Proof.
  intros Hd Hp (v & v' & [(ms1 & Hc1 & Hb1 & Hl1) _] & [(ms2 & Hc2 & Hl2) _] & Hsum).
  exists (ms1 ++ ms2). split.
  - eapply optimal_best; [exact Hd| |rewrite length_app; lia].
    eapply chosen_app; [exact Hc1|exact Hb1| |apply at_most_zero|lia].
    eapply chosen_mono; [exact Hc2|apply at_most_put; lia|done].
  - intros r [Hin|Hin]%elem_of_app.
    + unfold below in Hb1. rewrite Forall_forall in Hb1.
      apply list_elem_of_In, Hb1 in Hin. simpl in Hin. lia.
    + apply (chosen_from _ _ _ _ Hc2) in Hin. simpl in Hin. rewrite pick_put_eq in Hin. lia.
Qed.

Lemma match_edge_sound d c p k :
  best (0, 0) 0 d -> at_most p n -> pick c p < pick c n -> match_edge d c p k ->
  exists ms, optimal ms /\ mkAddress c (pick c p) k ∈ ms.
Proof.
  intros Hd Hp Hlt (Hk & Hm & v & v' & [(ms1 & Hc1 & Hb1 & Hl1) _] & [(ms2 & Hc2 & Hl2) _] & Hsum).
  exists (ms1 ++ mkAddress c (pick c p) k :: ms2). split.
  - eapply optimal_best; [exact Hd| |rewrite length_app; simpl; lia].
    eapply chosen_app; [exact Hc1|exact Hb1| |apply at_most_zero|lia].
    constructor; try done; lia.
  - apply elem_of_app. right. apply elem_of_cons. by left.
Qed.

(** The matches before the first of chain [c] that reaches word [w]. *)
Lemma split_at_word c w ms :
  exists ms1 ms2, ms = ms1 ++ ms2 /\ Forall (fun m => chain m = c -> word m < w) ms1 /\
    (ms2 = [] \/ exists m ms3, ms2 = m :: ms3 /\ chain m = c /\ w <= word m).
Proof.
  induction ms as [|m ms IH]; [exists [], []; auto|].
  destruct (decide (chain m = c /\ w <= word m)) as [Hm|Hm].
  - exists [], (m :: ms). split_and!; [done|constructor|right; eauto].
  - destruct IH as (ms1 & ms2 & -> & Hall & Hms2). exists (m :: ms1), ms2.
    split_and!; [done| |done]. constructor; [|done]. intros Hc.
    destruct (decide (w <= word m)); [tauto|lia].
Qed.

(** A state every optimal path through a split passes has the split's scores. *)
Lemma split_scores d p k q k' ms1 ms2 bonus v v' :
  best (0, 0) 0 d -> length ms1 + bonus + length ms2 = d ->
  chosen (0, 0) 0 ms1 -> below p k ms1 -> chosen q k' ms2 ->
  best_before p k v -> best q k' v' ->
  (forall ms1 ms2, chosen (0, 0) 0 ms1 -> below p k ms1 -> chosen q k' ms2 ->
     exists ms, chosen (0, 0) 0 ms /\ length ms = length ms1 + bonus + length ms2) ->
  v + bonus + v' = d.
Proof.
  intros [_ Hd] Hsum Hc1 Hb1 Hc2 [(m1 & Hm1 & Hmb & <-) Hv] [(m2 & Hm2 & <-) Hv'] Hglue.
  specialize (Hv _ Hc1 Hb1). specialize (Hv' _ Hc2).
  destruct (Hglue _ _ Hm1 Hmb Hm2) as (ms & Hms & Hlen). specialize (Hd _ Hms). lia.
Qed.

Lemma skip_edge_complete d c w ms :
  best (0, 0) 0 d -> optimal ms -> w < pick c n -> (forall r, mkAddress c w r ∉ ms) ->
  exists p k, pick c p = w /\ at_most p n /\ k <= n3 /\
    forall v v', best_before p k v -> best (put c (S w) p) k v' -> v + v' = d.
Proof.
  intros Hd Hopt Hw Hnot. pose proof (optimal_length _ _ Hd Hopt) as Hlen.
  destruct (split_at_word c w ms) as (ms1 & ms2 & -> & Hall & Hms2). rewrite length_app in Hlen.
  destruct (chosen_split _ _ _ _ (proj1 Hopt) (at_most_zero _) (Nat.le_0_l _))
    as (q & k & _ & Hq & Hk & Hc1 & Hb1 & Hc2 & Htight).
  assert (pick c q <= w) as Hqw by (apply Htight; [destruct c; simpl; lia|done]).
  exists (put c w q), k. rewrite pick_put_eq, put_put.
  split_and!; [done|apply put_at_most; [done|lia]|lia|].
  intros v v' Hv Hv'. enough (v + 0 + v' = d) by lia.
  eapply (split_scores d (put c w q) k (put c (S w) q) k ms1 ms2); try done; [lia| | |].
  - eapply below_mono; [exact Hb1|by apply at_most_put|done].
  - destruct Hms2 as [->|(m & ms3 & -> & <- & Hge)]; [constructor|].
    inversion Hc2 as [|? ? c' w' r ? Hw' Hr Hm Hrest]; subst. simpl in *.
    assert (w' <> w) by (intros ->; apply (Hnot r); set_solver).
    constructor; try done; [rewrite pick_put_eq; lia|by rewrite put_put].
  - intros l1 l2 H1 Hb H2. exists (l1 ++ l2). rewrite length_app. split; [|lia].
    eapply chosen_app; [exact H1|exact Hb| |apply at_most_zero|lia].
    eapply chosen_mono; [exact H2| |done]. apply put_at_most; [|by rewrite pick_put_eq; lia].
    apply at_most_put. lia.
Qed.

Lemma match_edge_complete d c w k ms :
  best (0, 0) 0 d -> optimal ms -> mkAddress c w k ∈ ms ->
  exists p, pick c p = w /\ at_most p n /\ w < pick c n /\ k < n3 /\ mt c w k = true /\
    forall v v', best_before p k v -> best (put c (S w) p) (S k) v' -> v + 1 + v' = d.
Proof.
  intros Hd Hopt (ms1 & ms2 & ->)%list_elem_of_split.
  destruct (chosen_split _ _ _ _ (proj1 Hopt) (at_most_zero _) (Nat.le_0_l _))
    as (q & k0 & _ & Hq & Hk & Hc1 & Hb1 & Hc2 & _).
  inversion Hc2 as [|? ? ? ? ? ? Hw Hr Hm Hrest]; subst.
  pose proof (optimal_length _ _ Hd Hopt) as Hlen. rewrite length_app in Hlen. simpl in Hlen.
  exists (put c w q). rewrite pick_put_eq, put_put.
  split_and!; [done|apply put_at_most; [done|lia]|lia|lia|done|].
  intros v v' Hv Hv'.
  eapply (split_scores d (put c w q) k (put c (S w) q) (S k) ms1 ms2); try done; [lia| |].
  - eapply below_mono; [exact Hb1|apply at_most_put; lia|lia].
  - intros l1 l2 H1 Hb H2. exists (l1 ++ mkAddress c w k :: l2).
    rewrite length_app. split; [|simpl; lia].
    eapply chosen_app; [exact H1|exact Hb| |apply at_most_zero|lia].
    constructor; try done; [rewrite pick_put_eq; lia|lia|by rewrite put_put].
Qed.

(** A word is matched at most once. *)
Lemma chosen_unique p k ms c w r r' :
  chosen p k ms -> mkAddress c w r ∈ ms -> mkAddress c w r' ∈ ms -> r = r'.
Proof.
  induction 1 as [|p k c' w' r0 ms Hw Hr _ Hc IH]; [by intros ?%elem_of_nil|].
  intros Hin Hin'. apply elem_of_cons in Hin as [Heq|Hin], Hin' as [Heq'|Hin']; simplify_eq; auto.
  - apply (chosen_from _ _ _ _ Hc) in Hin'. simpl in Hin'. rewrite pick_put_eq in Hin'. lia.
  - apply (chosen_from _ _ _ _ Hc) in Hin. simpl in Hin. rewrite pick_put_eq in Hin. lia.
Qed.

End assignments.

(** ** The three nested loops *)

(** A range visited so that the items before [i] are those related to it. *)
Record sweep (m : nat) (R : nat -> nat -> Prop) (items : list nat) : Prop := {
  sweep_split done i rest :
    items = done ++ i :: rest -> i < m /\ forall x, x < m -> R x i -> x ∈ done;
  sweep_all x : x ∈ items <-> x < m
}.

Lemma seq_split a m done i rest :
  seq a m = done ++ i :: rest ->
  i < a + m /\ (forall x, a <= x < i -> x ∈ done) /\ (forall x, i < x < a + m -> x ∈ rest).
Proof.
  revert a m. induction done as [|d done IH]; intros a m Heq; (destruct m as [|m]; [done|]);
    simpl in Heq.
  - injection Heq as <- <-. split_and!; [lia|lia|]. intros x Hx. apply elem_of_seq. lia.
  - injection Heq as <- Heq. destruct (IH _ _ Heq) as (Hi & Hlo & Hhi).
    split_and!; [lia| |intros x Hx; apply Hhi; lia]. intros x Hx. rewrite elem_of_cons.
    destruct (decide (x = a)) as [->|]; [by left|right]. apply Hlo. lia.
Qed.

Lemma sweep_up m : sweep m lt (seq 0 m).
Proof.
  constructor.
  - intros done i rest Heq. destruct (seq_split _ _ _ _ _ Heq) as (Hi & Hx & _). split; [lia|].
    intros x _ Hlt. apply Hx. lia.
  - intros x. rewrite elem_of_seq. lia.
Qed.

Lemma elem_of_rev (l : list nat) x : x ∈ rev l <-> x ∈ l.
Proof. by rewrite !list_elem_of_In, <- in_rev. Qed.

Lemma sweep_down m : sweep m (fun x i => i < x) (rev (seq 0 m)).
Proof.
  constructor.
  - intros done i rest Heq.
    assert (seq 0 m = rev rest ++ i :: rev done) as Hseq.
    { rewrite <- (rev_involutive (seq 0 m)), Heq, rev_app_distr. simpl. by rewrite <- app_assoc. }
    destruct (seq_split _ _ _ _ _ Hseq) as (Hi & _ & Hx). split; [lia|].
    intros x Hm Hlt. apply elem_of_rev, Hx. lia.
  - intros x. rewrite elem_of_rev, elem_of_seq. lia.
Qed.

(** The cells visited before [(i, j, k)]. *)
Definition visited_before (R : nat -> nat -> Prop) (i j k a b c : nat) : Prop :=
  R a i \/ (a = i /\ (R b j \/ (b = j /\ R c k))).

Section for_cells.
Context {A : Type} (m1 m2 m3 : nat) (R : nat -> nat -> Prop).
Context (I : (nat -> nat -> nat -> Prop) -> A -> Prop).
Context (I_ext : forall D D' s, (forall a b c, D a b c <-> D' a b c) -> I D s -> I D' s).
Context (body : nat -> nat -> nat -> A -> Run A).
Context (body_spec : forall i j k D s,
  i < m1 -> j < m2 -> k < m3 ->
  (forall a b c, a < m1 -> b < m2 -> c < m3 -> visited_before R i j k a b c -> D a b c) ->
  I D s -> wp (body i j k s) (I (fun a b c => D a b c \/ (a = i /\ b = j /\ c = k)))).

(** The loop rule: the invariant speaks of the set of visited cells. *)
Lemma wp_for_cells is_ js ks s Q :
  sweep m1 R is_ -> sweep m2 R js -> sweep m3 R ks ->
  I (fun _ _ _ => False) s ->
  (forall s, I (fun a b c => a < m1 /\ b < m2 /\ c < m3) s -> Q s) ->
  wp (for_cells is_ js ks body s) Q.
Proof.
  intros Hi Hj Hk H0 HQ. unfold for_cells.
  apply (wp_for_each _ _ (fun done s => I (fun a b c => a ∈ done /\ b < m2 /\ c < m3) s)).
  { eapply I_ext; [|exact H0]. set_solver. }
  2: { intros s' Hs'. apply HQ. eapply I_ext; [|exact Hs']. intros a b c.
       cbn beta. by rewrite (sweep_all _ _ _ Hi). }
  intros di i ri s1 Heqi Hs1. destruct (sweep_split _ _ _ Hi _ _ _ Heqi) as [Hilt Hdi].
  apply (wp_for_each _ _ (fun done s =>
    I (fun a b c => (a ∈ di /\ b < m2 /\ c < m3) \/ (a = i /\ b ∈ done /\ c < m3)) s)).
  { eapply I_ext; [|exact Hs1]. set_solver. }
  2: { intros s' Hs'. eapply I_ext; [|exact Hs']. intros a b c.
       cbn beta. rewrite (sweep_all _ _ _ Hj). set_solver. }
  intros dj j rj s2 Heqj Hs2. destruct (sweep_split _ _ _ Hj _ _ _ Heqj) as [Hjlt Hdj].
  apply (wp_for_each _ _ (fun done s =>
    I (fun a b c => (a ∈ di /\ b < m2 /\ c < m3) \/ (a = i /\ b ∈ dj /\ c < m3) \/
                    (a = i /\ b = j /\ c ∈ done)) s)).
  { eapply I_ext; [|exact Hs2]. set_solver. }
  2: { intros s' Hs'. eapply I_ext; [|exact Hs']. intros a b c.
       cbn beta. rewrite (sweep_all _ _ _ Hk). set_solver. }
  intros dk k rk s3 Heqk Hs3. destruct (sweep_split _ _ _ Hk _ _ _ Heqk) as [Hklt Hdk].
  eapply wp_mono; [apply body_spec; [done|done|done| |exact Hs3]|].
  - intros a b c Ha Hb Hc [Hr|(-> & [Hr|(-> & Hr)])]; auto 10.
  - intros s' Hs'. eapply I_ext; [|exact Hs']. set_solver.
Qed.

End for_cells.

(** ** The score tables *)

Section tables.
Context (shape : AdmittedShape) (relation : MatchRelation) (n1 n2 n3 : nat).
Context (mt : SpeakerChain -> nat -> nat -> bool).
Context (shape_second_eq : shape_second shape = n2 + 1).
Context (shape_reference_eq : shape_reference shape = n3 + 1).
Context (cells_eq : cells shape = (n1 + 1) * (n2 + 1) * (n3 + 1)).
Context (relation_ok : forall c w r, w < pick c (n1, n2) -> r < n3 ->
  pick c (relation_matches relation) !! (w * reference_len relation + r) = Some (mt c w r)).

Local Abbreviation n := (n1, n2).
Local Abbreviation chosen := (chosen n n3 mt).
Local Abbreviation best := (best n n3 mt).
Local Abbreviation best_before := (best_before n n3 mt).

Lemma shape_at_lt i j k : i <= n1 -> j <= n2 -> k <= n3 -> shape_at shape i j k < cells shape.
Proof.
  intros Hi Hj Hk. unfold shape_at. rewrite shape_second_eq, shape_reference_eq, cells_eq.
  assert (i * (n2 + 1) + j < (n1 + 1) * (n2 + 1)) by nia. nia.
Qed.

Lemma shape_at_inj i j k i' j' k' :
  j <= n2 -> j' <= n2 -> k <= n3 -> k' <= n3 ->
  shape_at shape i j k = shape_at shape i' j' k' -> i = i' /\ j = j' /\ k = k'.
Proof.
  unfold shape_at. rewrite shape_second_eq, shape_reference_eq. intros Hj Hj' Hk Hk' Heq.
  apply flat_inj in Heq as [Heq ->]; [|lia..]. apply flat_inj in Heq as [-> ->]; [done|lia..].
Qed.

(** Every visited cell holds its value. *)
Definition filled (B : nat * nat -> nat -> nat -> Prop) (D : nat -> nat -> nat -> Prop)
    (table : list nat) : Prop :=
  length table = cells shape /\
  forall i j k, i <= n1 -> j <= n2 -> k <= n3 -> D i j k ->
    exists v, table !! shape_at shape i j k = Some v /\ B (i, j) k v.

Lemma filled_ext B D D' t :
  (forall a b c, D a b c <-> D' a b c) -> filled B D t -> filled B D' t.
Proof. intros HD [Hl Ht]. split; [done|]. intros i j k Hi Hj Hk Hd. apply Ht; try done. by apply HD. Qed.

Lemma cell_filled_store B D t i j k v :
  filled B D t -> i <= n1 -> j <= n2 -> k <= n3 -> B (i, j) k v ->
  filled B (fun a b c => D a b c \/ (a = i /\ b = j /\ c = k)) (<[shape_at shape i j k := v]> t).
Proof.
  intros [Hl Ht] Hi Hj Hk Hv. split; [by rewrite length_insert|].
  intros a b c Ha Hb Hc Hd. destruct (decide (a = i /\ b = j /\ c = k)) as [(-> & -> & ->)|Hne].
  - exists v. split; [|done]. apply list_lookup_insert_eq. rewrite Hl. by apply shape_at_lt.
  - destruct (Ht a b c Ha Hb Hc) as (x & Hx & Hb'); [tauto|]. exists x. split; [|done].
    rewrite list_lookup_insert_ne; [done|]. intros Heq. apply Hne. symmetry in Heq.
    by apply shape_at_inj in Heq.
Qed.

(** A candidate keeps the score attainable and no smaller than before. *)
Lemma consider_spec guard t at_ bonus score (P : nat -> Prop) :
  P score -> (guard = true -> exists v, t !! at_ = Some v /\ P (v + bonus)) ->
  wp (consider guard t at_ bonus score) (fun s =>
    P s /\ score <= s /\ (guard = true -> forall v, t !! at_ = Some v -> v + bonus <= s)).
Proof.
  intros Hs Hg. unfold consider. destruct guard; [|by apply wp_ret].
  destruct (Hg eq_refl) as (v & Hv & HP). eapply wp_index_step; [exact Hv|]. apply wp_ret.
  split_and!; [|lia|].
  - by destruct (Nat.max_spec score (v + bonus)) as [[_ ->]|[_ ->]].
  - intros _ v' Hv'. rewrite Hv in Hv'. injection Hv' as <-. lia.
Qed.

Lemma guarded_match_spec (guard : bool) c w r :
  (guard = true -> w < pick c n /\ r < n3) ->
  wp (guarded_match guard relation c w r) (fun m => m = guard && mt c w r).
Proof.
  intros Hg. unfold guarded_match. destruct guard; [|by apply wp_ret].
  destruct (Hg eq_refl) as [Hw Hr]. unfold relation_at, index.
  rewrite relation_ok by done. by apply wp_ret.
Qed.

(** A step that is itself a sequence of two binds. *)
Lemma wp_step2 {A B E F} (a : Run A) (b : A -> Run B) (c : A -> B -> Run E) (l : E -> Run F) P Q :
  wp (bind a (fun x => bind (b x) (fun y => c x y))) P ->
  (forall e, P e -> wp (l e) Q) ->
  wp (bind a (fun x => bind (b x) (fun y => bind (c x y) l))) Q.
Proof.
  intros Ha Hl s. specialize (Ha s). unfold bind in *.
  destruct (a s) as [[x|e] s1]; [|done]. destruct (b x s1) as [[y|e] s2]; [|done].
  destruct (c x y s2) as [[z|e] s3]; [|done]. by apply Hl.
Qed.

(** The shape both sweeps share: five candidates, the last three only when
    there is a reference word, the last two only for a matching word. *)
Lemma cell_spec (g1 g2 g3 b1 b2 : bool) (m1 m2 : Run bool) t a1 a2 a3 a4 a5 at_ P Q :
  (g3 = true -> wp m1 (fun m => m = b1)) -> (g3 = true -> wp m2 (fun m => m = b2)) ->
  P 0 ->
  (g1 = true -> exists v, t !! a1 = Some v /\ P (v + 0)) ->
  (g2 = true -> exists v, t !! a2 = Some v /\ P (v + 0)) ->
  (g3 = true -> exists v, t !! a3 = Some v /\ P (v + 0)) ->
  (g3 = true -> b1 = true -> exists v, t !! a4 = Some v /\ P (v + 1)) ->
  (g3 = true -> b2 = true -> exists v, t !! a5 = Some v /\ P (v + 1)) ->
  (forall s, P s ->
     (g1 = true -> forall v, t !! a1 = Some v -> v <= s) ->
     (g2 = true -> forall v, t !! a2 = Some v -> v <= s) ->
     (g3 = true -> forall v, t !! a3 = Some v -> v <= s) ->
     (g3 = true -> b1 = true -> forall v, t !! a4 = Some v -> S v <= s) ->
     (g3 = true -> b2 = true -> forall v, t !! a5 = Some v -> S v <= s) ->
     wp (C:=Uninterrupted) (store t at_ s) Q) ->
  wp (let! score := consider g1 t a1 0 0 in
      let! score := consider g2 t a2 0 score in
      let! score :=
        if g3 then
          let! score := consider true t a3 0 score in
          let! m := m1 in
          let! score := consider m t a4 1 score in
          let! m := m2 in
          consider m t a5 1 score
        else ret score in
      store t at_ score) Q.
Proof.
  intros Hm1 Hm2 H0 H1 H2 H3 H4 H5 Hend.
  eapply wp_step; [by apply (consider_spec _ _ _ _ _ P)|intros s1 (HP1 & _ & Hb1)].
  eapply wp_step; [by apply (consider_spec _ _ _ _ _ P)|intros s2 (HP2 & Hle2 & Hb2)].
  assert (g1 = true -> forall v, t !! a1 = Some v -> v <= s2) as Hg1
    by (intros Hg v Hv; specialize (Hb1 Hg v Hv); lia).
  assert (g2 = true -> forall v, t !! a2 = Some v -> v <= s2) as Hg2
    by (intros Hg v Hv; specialize (Hb2 Hg v Hv); lia).
  destruct g3.
  2: { apply wp_bind, wp_ret. apply Hend; try done. }
  eapply (wp_step _ _ (fun s => P s /\ s2 <= s /\
    (forall v, t !! a3 = Some v -> v <= s) /\
    (b1 = true -> forall v, t !! a4 = Some v -> S v <= s) /\
    (b2 = true -> forall v, t !! a5 = Some v -> S v <= s))).
  - eapply wp_step; [apply (consider_spec _ _ _ _ _ P); auto|intros s3 (HP3 & Hle3 & Hb3)].
    eapply wp_step; [by apply Hm1|intros m ->].
    eapply wp_step; [apply (consider_spec _ _ _ _ _ P); auto|intros s4 (HP4 & Hle4 & Hb4)].
    eapply wp_step; [by apply Hm2|intros m ->].
    eapply wp_mono; [apply (consider_spec _ _ _ _ _ P); auto|intros s5 (HP5 & Hle5 & Hb5)].
    split_and!; [done|lia| | |].
    + intros v Hv. specialize (Hb3 eq_refl v Hv). lia.
    + intros Hb v Hv. specialize (Hb4 Hb v Hv). lia.
    + intros Hb v Hv. specialize (Hb5 Hb v Hv). lia.
  - intros s (HP & Hle & Hb3 & Hb4 & Hb5). apply Hend; auto.
    + intros Hg v Hv. specialize (Hg1 Hg v Hv). lia.
    + intros Hg v Hv. specialize (Hg2 Hg v Hv). lia.
Qed.

Local Abbreviation later := (fun x y => y < x).

(** Backward scores: the cells after a state give its own. *)
Lemma backward_cell_spec i j k D t :
  i <= n1 -> j <= n2 -> k <= n3 ->
  (forall a b c, a <= n1 -> b <= n2 -> c <= n3 -> visited_before later i j k a b c -> D a b c) ->
  filled best D t ->
  wp (backward_cell shape relation n1 n2 n3 i j k t)
    (filled best (fun a b c => D a b c \/ (a = i /\ b = j /\ c = k))).
Proof.
  intros Hi Hj Hk HD Ht.
  assert (forall a b c, a <= n1 -> b <= n2 -> c <= n3 -> visited_before later i j k a b c ->
    exists v, t !! shape_at shape a b c = Some v /\ best (a, b) c v) as Hnear
    by (intros a b c Ha Hb Hc Hvis; apply Ht; auto).
  assert (i < n1 -> exists v, t !! shape_at shape (i + 1) j k = Some v /\ best (S i, j) k v) as H1
    by (intros; rewrite ?Nat.add_1_r; apply Hnear; try lia; left; lia).
  assert (j < n2 -> exists v, t !! shape_at shape i (j + 1) k = Some v /\ best (i, S j) k v) as H2
    by (intros; rewrite ?Nat.add_1_r; apply Hnear; try lia; right; split; [done|left; lia]).
  assert (k < n3 -> exists v, t !! shape_at shape i j (k + 1) = Some v /\ best (i, j) (S k) v) as H3
    by (intros; rewrite ?Nat.add_1_r; apply Hnear; try lia; right; split; [done|right; lia]).
  assert (k < n3 -> i < n1 ->
    exists v, t !! shape_at shape (i + 1) j (k + 1) = Some v /\ best (S i, j) (S k) v) as H4
    by (intros; rewrite ?Nat.add_1_r; apply Hnear; try lia; left; lia).
  assert (k < n3 -> j < n2 ->
    exists v, t !! shape_at shape i (j + 1) (k + 1) = Some v /\ best (i, S j) (S k) v) as H5
    by (intros; rewrite ?Nat.add_1_r; apply Hnear; try lia;
        right; split; [done|left; lia]).
  clear Hnear. apply (cell_spec _ _ _ ((i <? n1) && mt First i k) ((j <? n2) && mt Second j k)
    _ _ _ _ _ _ _ _ _ (fun s => exists ms, chosen (i, j) k ms /\ length ms = s)).
  - intros Hg%Nat.ltb_lt. apply guarded_match_spec. intros Hg'%Nat.ltb_lt. done.
  - intros Hg%Nat.ltb_lt. apply guarded_match_spec. intros Hg'%Nat.ltb_lt. done.
  - exists []. split; [constructor|done].
  - intros Hg%Nat.ltb_lt. destruct (H1 Hg) as (v & Hv & Hb). exists v. rewrite Nat.add_0_r.
    split; [done|]. eapply attain_skip; [exact Hb|intros []; simpl; lia|done].
  - intros Hg%Nat.ltb_lt. destruct (H2 Hg) as (v & Hv & Hb). exists v. rewrite Nat.add_0_r.
    split; [done|]. eapply attain_skip; [exact Hb|intros []; simpl; lia|done].
  - intros Hg%Nat.ltb_lt. destruct (H3 Hg) as (v & Hv & Hb). exists v. rewrite Nat.add_0_r.
    split; [done|]. eapply attain_skip; [exact Hb|apply at_most_refl|lia].
  - intros Hg%Nat.ltb_lt [Hg'%Nat.ltb_lt Hm]%andb_prop. destruct (H4 Hg Hg') as (v & Hv & Hb).
    exists v. rewrite (Nat.add_1_r v). split; [done|].
    by apply (attain_match _ _ _ (i, j) k First).
  - intros Hg%Nat.ltb_lt [Hg'%Nat.ltb_lt Hm]%andb_prop. destruct (H5 Hg Hg') as (v & Hv & Hb).
    exists v. rewrite (Nat.add_1_r v). split; [done|].
    by apply (attain_match _ _ _ (i, j) k Second).
  - intros s HP Hs1 Hs2 Hs3 Hs4 Hs5.
    apply wp_store; [rewrite (proj1 Ht); by apply shape_at_lt|].
    apply cell_filled_store; try done. apply best_intro; [done| | |].
    + intros [] Hp; simpl in *; [destruct (H1 Hp) as (v & Hv & Hb)|destruct (H2 Hp) as (v & Hv & Hb)];
        exists v; (split; [done|]); [apply Hs1|apply Hs2]; try done; by apply Nat.ltb_lt.
    + intros Hlt. destruct (H3 Hlt) as (v & Hv & Hb). exists v. split; [done|].
      apply Hs3; [by apply Nat.ltb_lt|done].
    + intros [] Hp Hlt Hm; simpl in *;
        [destruct (H4 Hlt Hp) as (v & Hv & Hb)|destruct (H5 Hlt Hp) as (v & Hv & Hb)];
        exists v; (split; [done|]); [apply Hs4|apply Hs5]; try done;
        first [by apply Nat.ltb_lt|rewrite Hm, andb_true_r; by apply Nat.ltb_lt].
Qed.

(** Forward scores: the cells before a state give its own. *)
Lemma forward_cell_spec i j k D t :
  i <= n1 -> j <= n2 -> k <= n3 ->
  (forall a b c, a <= n1 -> b <= n2 -> c <= n3 -> visited_before lt i j k a b c -> D a b c) ->
  filled best_before D t ->
  wp (forward_cell shape relation i j k t)
    (filled best_before (fun a b c => D a b c \/ (a = i /\ b = j /\ c = k))).
Proof.
  intros Hi Hj Hk HD Ht.
  assert (forall a b c, a <= n1 -> b <= n2 -> c <= n3 -> visited_before lt i j k a b c ->
    exists v, t !! shape_at shape a b c = Some v /\ best_before (a, b) c v) as Hnear
    by (intros a b c Ha Hb Hc Hvis; apply Ht; auto).
  assert (0 < i -> exists v, t !! shape_at shape (i - 1) j k = Some v /\
    best_before (i - 1, j) k v) as H1 by (intros; apply Hnear; try lia; left; lia).
  assert (0 < j -> exists v, t !! shape_at shape i (j - 1) k = Some v /\
    best_before (i, j - 1) k v) as H2
    by (intros; apply Hnear; try lia; right; split; [done|left; lia]).
  assert (0 < k -> exists v, t !! shape_at shape i j (k - 1) = Some v /\
    best_before (i, j) (k - 1) v) as H3
    by (intros; apply Hnear; try lia; right; split; [done|right; lia]).
  assert (0 < k -> 0 < i -> exists v, t !! shape_at shape (i - 1) j (k - 1) = Some v /\
    best_before (i - 1, j) (k - 1) v) as H4 by (intros; apply Hnear; try lia; left; lia).
  assert (0 < k -> 0 < j -> exists v, t !! shape_at shape i (j - 1) (k - 1) = Some v /\
    best_before (i, j - 1) (k - 1) v) as H5
    by (intros; apply Hnear; try lia; right; split; [done|left; lia]).
  clear Hnear.
  apply (cell_spec _ _ _ ((0 <? i) && mt First (i - 1) (k - 1))
    ((0 <? j) && mt Second (j - 1) (k - 1)) _ _ _ _ _ _ _ _ _
    (fun s => exists ms, chosen (0, 0) 0 ms /\ below (i, j) k ms /\ length ms = s)).
  - intros Hg%Nat.ltb_lt. apply guarded_match_spec. intros Hg'%Nat.ltb_lt. simpl. lia.
  - intros Hg%Nat.ltb_lt. apply guarded_match_spec. intros Hg'%Nat.ltb_lt. simpl. lia.
  - exists []. split_and!; [constructor|constructor|done].
  - intros Hg%Nat.ltb_lt. destruct (H1 Hg) as (v & Hv & Hb). exists v. rewrite Nat.add_0_r.
    split; [done|]. eapply attain_before_skip; [exact Hb|intros []; simpl; lia|done].
  - intros Hg%Nat.ltb_lt. destruct (H2 Hg) as (v & Hv & Hb). exists v. rewrite Nat.add_0_r.
    split; [done|]. eapply attain_before_skip; [exact Hb|intros []; simpl; lia|done].
  - intros Hg%Nat.ltb_lt. destruct (H3 Hg) as (v & Hv & Hb). exists v. rewrite Nat.add_0_r.
    split; [done|]. eapply attain_before_skip; [exact Hb|apply at_most_refl|lia].
  - intros Hg%Nat.ltb_lt [Hg'%Nat.ltb_lt Hm]%andb_prop. destruct (H4 Hg Hg') as (v & Hv & Hb).
    exists v. rewrite (Nat.add_1_r v). split; [done|].
    apply (attain_before_match _ _ _ (i, j) k First); simpl; try done; lia.
  - intros Hg%Nat.ltb_lt [Hg'%Nat.ltb_lt Hm]%andb_prop. destruct (H5 Hg Hg') as (v & Hv & Hb).
    exists v. rewrite (Nat.add_1_r v). split; [done|].
    apply (attain_before_match _ _ _ (i, j) k Second); simpl; try done; lia.
  - intros s HP Hs1 Hs2 Hs3 Hs4 Hs5.
    apply wp_store; [rewrite (proj1 Ht); by apply shape_at_lt|].
    apply cell_filled_store; try done. apply best_before_intro; [done| | |].
    + intros [] Hp; simpl in *; [destruct (H1 Hp) as (v & Hv & Hb)|destruct (H2 Hp) as (v & Hv & Hb)];
        exists v; (split; [done|]); [apply Hs1|apply Hs2]; try done; by apply Nat.ltb_lt.
    + intros Hlt. destruct (H3 Hlt) as (v & Hv & Hb). exists v. split; [done|].
      apply Hs3; [by apply Nat.ltb_lt|done].
    + intros [] [Hp _] [Hlt _] Hm; simpl in *;
        [destruct (H4 Hlt Hp) as (v & Hv & Hb)|destruct (H5 Hlt Hp) as (v & Hv & Hb)];
        exists v; (split; [done|]); [apply Hs4|apply Hs5]; try done;
        first [by apply Nat.ltb_lt|rewrite Hm, andb_true_r; by apply Nat.ltb_lt].
Qed.

Definition everywhere (B : nat * nat -> nat -> nat -> Prop) (t : list nat) : Prop :=
  filled B (fun _ _ _ => True) t.

Lemma filled_nowhere B t : length t = cells shape -> filled B (fun _ _ _ => False) t.
Proof. intros Hl. split; [done|]. intros i j k _ _ _ []. Qed.

Lemma backward_table_spec : wp (backward_table shape relation n1 n2 n3) (everywhere best).
Proof.
  apply (wp_for_cells (S n1) (S n2) (S n3) later (filled best)); auto using sweep_down.
  - intros. by eapply filled_ext.
  - intros i j k D t Hi Hj Hk HD Ht. apply backward_cell_spec; try lia; [|done].
    intros. apply HD; try lia. done.
  - apply filled_nowhere, length_replicate.
  - intros t [Hl Ht]. split; [done|]. intros i j k Hi Hj Hk _. apply Ht; lia.
Qed.

Lemma forward_table_spec : wp (forward_table shape relation n1 n2 n3) (everywhere best_before).
Proof.
  apply (wp_for_cells (S n1) (S n2) (S n3) lt (filled best_before)); auto using sweep_up.
  - intros. by eapply filled_ext.
  - intros i j k D t Hi Hj Hk HD Ht. apply forward_cell_spec; try lia; [|done].
    intros. apply HD; try lia. done.
  - apply filled_nowhere, length_replicate.
  - intros t [Hl Ht]. split; [done|]. intros i j k Hi Hj Hk _. apply Ht; lia.
Qed.

(** ** Evidence *)

Section evidence.
Context (forward backward : list nat) (d : nat).
Context (Hforward : everywhere best_before forward) (Hbackward : everywhere best backward).

Local Abbreviation skip_edge := (skip_edge n n3 mt d).
Local Abbreviation match_edge := (match_edge n n3 mt d).

(** The evidence of word [w] of chain [c] from the visited states. *)
Definition word_evidence (D : nat -> nat -> nat -> Prop) c (w : nat) (e : WordEvidence) : Prop :=
  (can_be_missing e = true <->
     exists i j k, i <= n1 /\ j <= n2 /\ k <= n3 /\ D i j k /\ pick c (i, j) = w /\
       skip_edge c (i, j) k) /\
  (forall k, k ∈ candidates e <->
     exists i j, i <= n1 /\ j <= n2 /\ k <= n3 /\ D i j k /\ pick c (i, j) = w /\
       match_edge c (i, j) k).

Definition evidence_ok (D : SpeakerChain -> nat -> nat -> nat -> Prop)
    (ws : list WordEvidence * list WordEvidence) : Prop :=
  forall c, length (pick c ws) = pick c n /\
    forall w, w < pick c n -> exists e, pick c ws !! w = Some e /\ word_evidence (D c) c w e.

Lemma word_evidence_ext D D' c w e :
  (forall i j k, i <= n1 -> j <= n2 -> k <= n3 -> pick c (i, j) = w -> (D i j k <-> D' i j k)) ->
  word_evidence D c w e -> word_evidence D' c w e.
Proof.
  intros HD [Hm Hc]. split; [rewrite Hm|intros k; rewrite Hc].
  - split; intros (i & j & k & Hi & Hj & Hk & Hd & Hp & He); exists i, j, k;
      split_and!; try done; by apply (HD i j k).
  - split; intros (i & j & Hi & Hj & Hk & Hd & Hp & He); exists i, j;
      split_and!; try done; by apply (HD i j k).
Qed.

Lemma evidence_ok_ext D D' ws :
  (forall c i j k, D c i j k <-> D' c i j k) -> evidence_ok D ws -> evidence_ok D' ws.
Proof.
  intros HD Hok c. destruct (Hok c) as [Hl Hw]. split; [done|]. intros w Hlt.
  destruct (Hw w Hlt) as (e & He & Hev). exists e. split; [done|].
  eapply word_evidence_ext; [|exact Hev]. intros. apply HD.
Qed.

(** The visited states with one more for chain [c]. *)
Definition visit (D : SpeakerChain -> nat -> nat -> nat -> Prop) c (i j k : nat)
    (c' : SpeakerChain) (a b e : nat) : Prop :=
  D c' a b e \/ (c' = c /\ a = i /\ b = j /\ e = k).

(** The edge's contribution to the word's evidence. *)
Lemma word_evidence_visit D c i j k e e' :
  i <= n1 -> j <= n2 -> k <= n3 ->
  word_evidence (D c) c (pick c (i, j)) e ->
  (can_be_missing e' = true <-> can_be_missing e = true \/ skip_edge c (i, j) k) ->
  (forall r, r ∈ candidates e' <-> r ∈ candidates e \/ (r = k /\ match_edge c (i, j) k)) ->
  word_evidence (visit D c i j k c) c (pick c (i, j)) e'.
Proof.
  intros Hi Hj Hk [Hm Hc] Hm' Hc'. unfold visit. split.
  - rewrite Hm', Hm. split.
    + intros [(a & b & x & Ha & Hb & Hx & Hd & Hp & He)|He]; [exists a, b, x|exists i, j, k]; auto 10.
    + intros (a & b & x & Ha & Hb & Hx & [Hd|(_ & -> & -> & ->)] & Hp & He); [|by right].
      left. exists a, b, x. auto 10.
  - intros r. rewrite Hc', Hc. split.
    + intros [(a & b & Ha & Hb & Hx & Hd & Hp & He)|[-> He]]; [exists a, b|exists i, j]; auto 10.
    + intros (a & b & Ha & Hb & Hx & [Hd|(_ & -> & -> & ->)] & Hp & He); [|by right].
      left. exists a, b. auto 10.
Qed.

(** A visit that does not concern a word leaves its evidence as it is. *)
Lemma word_evidence_other D c i j k c' w e :
  c' <> c \/ w <> pick c (i, j) ->
  word_evidence (D c') c' w e -> word_evidence (visit D c i j k c') c' w e.
Proof.
  intros Hother Hev. eapply word_evidence_ext; [|exact Hev]. intros a b x _ _ _ Hp. unfold visit.
  split; [by left|]. intros [Hd|(-> & -> & -> & ->)]; [done|]. destruct Hother; congruence.
Qed.

(** The new evidence of the word an edge leaves. *)
Lemma edge_update_spec c i j k ni nj prefix e :
  i <= n1 -> j <= n2 -> k <= n3 -> pick c (i, j) < pick c n ->
  (ni, nj) = put c (S (pick c (i, j))) (i, j) -> best_before (i, j) k prefix ->
  wp (let! skipped := index backward (shape_at shape ni nj k) in
      let e := if prefix + skipped =? d
               then {| candidates := candidates e; can_be_missing := true |} else e in
      let! m := guarded_match (k <? n3) relation c (pick c (i, j)) k in
      if m then
        let! taken := index backward (shape_at shape ni nj (k + 1)) in
        if prefix + 1 + taken =? d
        then ret {| candidates := candidates e ++ [k]; can_be_missing := can_be_missing e |}
        else ret e
      else ret e)
    (fun e' =>
       (can_be_missing e' = true <-> can_be_missing e = true \/ skip_edge c (i, j) k) /\
       forall r, r ∈ candidates e' <-> r ∈ candidates e \/ (r = k /\ match_edge c (i, j) k)).
Proof.
  intros Hi Hj Hk Hlt Hnext Hprefix.
  assert (ni <= n1 /\ nj <= n2) as [Hni Hnj]
    by (destruct c; simpl in *; injection Hnext as -> ->; lia).
  destruct (proj2 Hbackward ni nj k Hni Hnj Hk I) as (skipped & Hskipped & Hbs).
  eapply wp_index_step; [exact Hskipped|]. rewrite Hnext in Hbs. cbv zeta.
  set (e1 := if prefix + skipped =? d then _ else e).
  assert (can_be_missing e1 = true <-> can_be_missing e = true \/ skip_edge c (i, j) k) as Hm1.
  { unfold e1. destruct (Nat.eqb_spec (prefix + skipped) d) as [Hd|Hd]; simpl.
    - split; [|done]. intros _. right. exists prefix, skipped. done.
    - split; [by left|]. intros [|(v & v' & Hv & Hv' & Hsum)]; [done|]. exfalso. apply Hd.
      by rewrite (best_unique _ _ _ _ _ _ _ Hbs Hv'), (best_before_unique _ _ _ _ _ _ _ Hprefix Hv). }
  assert (candidates e1 = candidates e) as Hc1 by (unfold e1; by destruct (_ =? _)).
  clearbody e1. eapply wp_step; [apply guarded_match_spec; by intros Hg%Nat.ltb_lt|]. intros m ->.
  destruct ((k <? n3) && mt c (pick c (i, j)) k) eqn:Hg.
  - apply andb_prop in Hg as [Hk3%Nat.ltb_lt Hm].
    destruct (proj2 Hbackward ni nj (k + 1) Hni Hnj ltac:(lia) I) as (taken & Htaken & Hbt).
    eapply wp_index_step; [exact Htaken|]. rewrite Hnext, Nat.add_1_r in Hbt.
    destruct (Nat.eqb_spec (prefix + 1 + taken) d) as [Hd|Hd]; apply wp_ret; (split; [done|]);
      intros r; simpl; rewrite ?elem_of_app, Hc1, ?list_elem_of_singleton.
    + split; [|intros [Hr|[-> _]]; auto]. intros [Hr| ->]; [by left|right]. split; [done|].
      split_and!; [done|done|]. exists prefix, taken. done.
    + split; [by left|]. intros [Hr|(-> & _ & _ & v & v' & Hv & Hv' & Hsum)]; [done|].
      exfalso. apply Hd.
      by rewrite (best_unique _ _ _ _ _ _ _ Hbt Hv'), (best_before_unique _ _ _ _ _ _ _ Hprefix Hv).
  - apply wp_ret. split; [done|]. intros r. rewrite Hc1. split; [by left|].
    intros [Hr|(-> & Hk3 & Hm & _)]; [done|]. apply Nat.ltb_lt in Hk3. by rewrite Hk3, Hm in Hg.
Qed.

Lemma edge_evidence_spec D c i j k ni nj prefix ws :
  i <= n1 -> j <= n2 -> k <= n3 -> (ni, nj) = put c (S (pick c (i, j))) (i, j) ->
  best_before (i, j) k prefix -> evidence_ok D ws ->
  wp (edge_evidence shape relation n3 backward d prefix k c (pick c (i, j)) ni nj ws)
    (evidence_ok (visit D c i j k)).
Proof.
  intros Hi Hj Hk Hnext Hprefix Hok. unfold edge_evidence.
  destruct (Hok c) as [Hl Hw]. rewrite Hl.
  destruct (Nat.eqb_spec (pick c (i, j)) (pick c n)) as [Heq|Hne].
  { apply wp_ret. intros c'. destruct (Hok c') as [Hl' Hw']. split; [done|]. intros w Hlt.
    destruct (Hw' w Hlt) as (e & He & Hev). exists e. split; [done|].
    apply word_evidence_other; [|done].
    destruct (decide (c' = c)) as [->|]; [right; lia|by left]. }
  assert (pick c (i, j) < pick c n) as Hlt by (destruct c; simpl in *; lia).
  destruct (Hw (pick c (i, j)) Hlt) as (e & He & Hev).
  eapply wp_index_step; [exact He|].
  eapply wp_step2; [exact (edge_update_spec c i j k ni nj prefix e Hi Hj Hk Hlt Hnext Hprefix)|].
  intros e' [Hm Hc]. apply wp_store_step; [by rewrite Hl|]. apply wp_ret.
  intros c'. destruct (Hok c') as [Hl' Hw']. rewrite pick_put.
  destruct (decide (c' = c)) as [->|Hcc].
  - split; [by rewrite length_insert|]. intros w Hwlt.
    destruct (decide (w = pick c (i, j))) as [->|Hww].
    + exists e'. rewrite list_lookup_insert_eq by (by rewrite Hl). split; [done|].
      by eapply word_evidence_visit.
    + rewrite list_lookup_insert_ne by done. destruct (Hw w Hwlt) as (x & Hx & Hxev).
      exists x. split; [done|]. apply word_evidence_other; auto.
  - split; [done|]. intros w Hwlt. destruct (Hw' w Hwlt) as (x & Hx & Hxev).
    exists x. split; [done|]. apply word_evidence_other; auto.
Qed.

Lemma all_evidence_spec :
  wp (all_evidence shape relation n1 n2 n3 forward backward d)
    (evidence_ok (fun _ _ _ _ => True)).
Proof.
  apply (wp_for_cells (S n1) (S n2) (S n3) lt (fun D => evidence_ok (fun _ => D)));
    auto using sweep_up.
  - intros D D' ws HD. by apply evidence_ok_ext.
  - intros i j k D ws Hi Hj Hk _ Hok. unfold cell_evidence.
    destruct (proj2 Hforward i j k ltac:(lia) ltac:(lia) ltac:(lia) I) as (prefix & Hp & Hb).
    eapply wp_index_step; [exact Hp|].
    eapply wp_step; [apply (edge_evidence_spec (fun _ => D) First i j k (i + 1) j prefix ws);
      try lia; [by rewrite Nat.add_1_r|done|done]|]. intros ws1 Hok1.
    eapply wp_mono; [apply (edge_evidence_spec (visit (fun _ => D) First i j k) Second i j k i (j + 1)
      prefix ws1);
      try lia; [by rewrite Nat.add_1_r|done|exact Hok1]|]. intros ws2.
    apply evidence_ok_ext. intros [] a b x; unfold visit; naive_solver.
  - intros []; simpl; (split; [apply length_replicate|]); intros w Hw;
      exists {| candidates := []; can_be_missing := false |};
      (split; [by apply lookup_replicate_2|]); (split; [|intros k]; simpl);
      rewrite ?elem_of_nil; naive_solver.
  - intros ws Hok c. destruct (Hok c) as [Hl Hw]. split; [done|]. intros w Hlt.
    destruct (Hw w Hlt) as (e & He & Hev). exists e. split; [done|].
    eapply word_evidence_ext; [|exact Hev]. intros. split; [done|lia].
Qed.

End evidence.

(** ** The selected assignment *)

Section selection.
Context (backward : list nat) (Hbackward : everywhere best backward).

(** Testing one outgoing edge: whether it is allowed and keeps the score. *)
Lemma edge_test (guard : bool) (m : Run bool) (b : bool) a bonus score :
  (guard = true -> exists v, backward !! a = Some v) ->
  wp m (fun x => x = (guard && b)) ->
  wp (let! x := m in
      if x then let! v := index backward a in ret (bonus + v =? score) else ret false)
    (fun x => x = true <-> guard = true /\ b = true /\
       exists v, backward !! a = Some v /\ bonus + v = score).
Proof.
  intros Ha Hm. eapply wp_step; [exact Hm|]. intros x ->.
  destruct guard; simpl; [|apply wp_ret; naive_solver].
  destruct b; [|apply wp_ret; naive_solver].
  destruct (Ha eq_refl) as (v & Hv). eapply wp_index_step; [exact Hv|]. apply wp_ret.
  rewrite Nat.eqb_eq. split; [naive_solver|]. intros (_ & _ & v' & Hv' & Heq).
  rewrite Hv in Hv'. by injection Hv' as <-.
Qed.

(** The value of a cell after a step. *)
Lemma cell_best i j k :
  i <= n1 -> j <= n2 -> k <= n3 ->
  exists v, backward !! shape_at shape i j k = Some v /\ best (i, j) k v.
Proof. intros Hi Hj Hk. by apply Hbackward. Qed.

Lemma skip_test (guard : bool) a score :
  (guard = true -> exists v, backward !! a = Some v) ->
  wp (C:=Uninterrupted)
    (if guard then let! v := index backward a in ret (v =? score) else ret false)
    (fun x => x = true <-> guard = true /\ exists v, backward !! a = Some v /\ v = score).
Proof.
  intros Ha. destruct guard; [|apply wp_ret; naive_solver].
  destruct (Ha eq_refl) as (v & Hv). eapply wp_index_step; [exact Hv|]. apply wp_ret.
  rewrite Nat.eqb_eq. naive_solver.
Qed.

(** When no other edge keeps the score, skipping the second speaker's word
    does. *)
Lemma last_edge i j k score :
  i <= n1 -> j <= n2 -> k <= n3 -> (i < n1 \/ j < n2 \/ k < n3) -> best (i, j) k score ->
  (forall v, i < n1 -> k < n3 -> mt First i k = true -> best (S i, j) (S k) v -> 1 + v <> score) ->
  (forall v, j < n2 -> k < n3 -> mt Second j k = true -> best (i, S j) (S k) v -> 1 + v <> score) ->
  (forall v, k < n3 -> best (i, j) (S k) v -> v <> score) ->
  (forall v, i < n1 -> best (S i, j) k v -> v <> score) ->
  j < n2 /\ best (i, S j) k score.
Proof.
  intros Hi Hj Hk Hmore [(ms & Hc & Hl) Hmax] Hf Hs Hr Hfs.
  assert (forall q k' v, best q k' v -> at_most (i, j) q -> k <= k' -> v <= score) as Hle.
  { intros q k' v [(ms' & Hc' & <-) _] Hq Hk'. apply Hmax. by eapply chosen_mono. }
  assert (forall q k' v, best q k' v -> chosen q k' ms -> at_most (i, j) q -> k <= k' -> v = score)
    as Hkeep.
  { intros q k' v Hb Hc' Hq Hk'. pose proof (Hle _ _ _ Hb Hq Hk'). destruct Hb as [_ Hb].
    specialize (Hb _ Hc'). lia. }
  assert (at_most (i, j) (S i, j) /\ at_most (i, j) (i, S j)) as [Ha1 Ha2]
    by (split; intros []; simpl; lia).
  destruct (chosen_inv _ _ _ _ _ _ Hc)
    as [->|[[Hlt Hc']|[([] & Hp & Hc')|([] & ms' & Hp & Hlt & Hm & Hc' & ->)]]]; simpl in *.
  - destruct (decide (k < n3)) as [Hlt|]; [|destruct (decide (i < n1)) as [Hlt|]].
    + destruct (cell_best i j (S k)) as (v & _ & Hb); [lia..|]. exfalso. eapply Hr; [done|exact Hb|].
      eapply Hkeep; [exact Hb|constructor|apply at_most_refl|lia].
    + destruct (cell_best (S i) j k) as (v & _ & Hb); [lia..|]. exfalso. eapply Hfs; [done|exact Hb|].
      eapply Hkeep; [exact Hb|constructor|done|lia].
    + destruct (cell_best i (S j) k) as (v & _ & Hb); [lia..|]. split; [lia|].
      rewrite <- (Hkeep _ _ _ Hb); [exact Hb|constructor|done|lia].
  - destruct (cell_best i j (S k)) as (v & _ & Hb); [lia..|]. exfalso. eapply Hr; [done|exact Hb|].
    eapply Hkeep; [exact Hb|done|apply at_most_refl|lia].
  - destruct (cell_best (S i) j k) as (v & _ & Hb); [lia..|]. exfalso. eapply Hfs; [done|exact Hb|].
    eapply Hkeep; [exact Hb|done|done|lia].
  - destruct (cell_best i (S j) k) as (v & _ & Hb); [lia..|]. split; [lia|].
    rewrite <- (Hkeep _ _ _ Hb); [exact Hb|done|done|lia].
  - destruct (cell_best (S i) j (S k)) as (v & _ & Hb); [lia..|]. exfalso.
    eapply Hf; [done|done|done|exact Hb|].
    destruct (attain_match (n1, n2) n3 mt (i, j) k First v Hp Hlt Hm Hb) as (l & Hcl & Hll).
    specialize (Hmax _ Hcl). destruct Hb as [_ Hb]. specialize (Hb _ Hc'). lia.
  - destruct (cell_best i (S j) (S k)) as (v & _ & Hb); [lia..|]. exfalso.
    eapply Hs; [done|done|done|exact Hb|].
    destruct (attain_match (n1, n2) n3 mt (i, j) k Second v Hp Hlt Hm Hb) as (l & Hcl & Hll).
    specialize (Hmax _ Hcl). destruct Hb as [_ Hb]. specialize (Hb _ Hc'). lia.
Qed.

(** The traceback appends a best assignment of the state it starts in. *)
Definition completes (i j k score : nat) (out result : list MatchAddress) : Prop :=
  exists ms, result = out ++ ms /\ chosen (i, j) k ms /\ length ms = score.

Lemma completes_match i j k c score out result p k' :
  p = put c (S (pick c (i, j))) (i, j) -> k' = S k ->
  pick c (i, j) < pick c n -> k < n3 -> mt c (pick c (i, j)) k = true ->
  completes p.1 p.2 k' score (out ++ [mkAddress c (pick c (i, j)) k]) result ->
  completes i j k (S score) out result.
Proof.
  intros -> -> Hp Hk Hm (ms & -> & Hc & Hl). exists (mkAddress c (pick c (i, j)) k :: ms).
  rewrite <- app_assoc, <- surjective_pairing in *.
  split_and!; [done| |by simpl; rewrite Hl]. constructor; try done; lia.
Qed.

Lemma completes_skip i j k score out result i' j' k' :
  i <= i' -> j <= j' -> k <= k' ->
  completes i' j' k' score out result -> completes i j k score out result.
Proof.
  intros Hi Hj Hk (ms & -> & Hc & Hl). exists ms. split_and!; [done| |done].
  eapply chosen_mono; [exact Hc|intros []; simpl; lia|done].
Qed.

(** At the last state nothing is left to match. *)
Lemma completes_end i j k score out :
  n1 <= i -> n2 <= j -> best (i, j) k score -> completes i j k score out out.
Proof.
  intros Hi Hj [(ms & Hc & <-) _]. exists []. rewrite app_nil_r. split_and!; [done|constructor|].
  inversion Hc as [|? ? [] ? ? ? Hw]; subst; simpl in *; lia.
Qed.

Lemma more_left i j k :
  (i <? n1) || (j <? n2) || (k <? n3) = true <-> (i < n1 \/ j < n2 \/ k < n3).
Proof. rewrite !orb_true_iff, !Nat.ltb_lt. tauto. Qed.

(** The value of the cell an edge leads to. *)
Lemma edge_cell i j k v :
  i <= n1 -> j <= n2 -> k <= n3 -> backward !! shape_at shape i j k = Some v -> best (i, j) k v.
Proof.
  intros Hi Hj Hk Hv. destruct (cell_best i j k Hi Hj Hk) as (v' & Hv' & Hb). congruence.
Qed.

Lemma cell_holds i j k v :
  i <= n1 -> j <= n2 -> k <= n3 -> best (i, j) k v -> backward !! shape_at shape i j k = Some v.
Proof.
  intros Hi Hj Hk Hv. destruct (cell_best i j k Hi Hj Hk) as (v' & Hv' & Hb).
  by rewrite (best_unique _ _ _ _ _ _ _ Hv Hb).
Qed.

(** The last edge again, from the tests the traceback made. *)
Lemma refused_edges i j k score :
  i <= n1 -> j <= n2 -> k <= n3 -> (i < n1 \/ j < n2 \/ k < n3) -> best (i, j) k score ->
  (false = true <-> (i <? n1) && (k <? n3) = true /\ mt First i k = true /\
     exists v, backward !! shape_at shape (i + 1) j (k + 1) = Some v /\ 1 + v = score) ->
  (false = true <-> (j <? n2) && (k <? n3) = true /\ mt Second j k = true /\
     exists v, backward !! shape_at shape i (j + 1) (k + 1) = Some v /\ 1 + v = score) ->
  (false = true <-> (k <? n3) = true /\
     exists v, backward !! shape_at shape i j (k + 1) = Some v /\ v = score) ->
  (false = true <-> (i <? n1) = true /\
     exists v, backward !! shape_at shape (i + 1) j k = Some v /\ v = score) ->
  j < n2 /\ best (i, S j) k score.
Proof.
  intros Hi Hj Hk Hmore Hbest Hf Hs Hr Hfs.
  rewrite (Nat.add_1_r i), (Nat.add_1_r k) in Hf. rewrite (Nat.add_1_r j), (Nat.add_1_r k) in Hs.
  rewrite (Nat.add_1_r k) in Hr. rewrite (Nat.add_1_r i) in Hfs.
  apply last_edge; try done.
  - intros v H1 H3 Hm Hb Heq. discriminate (proj2 Hf). split_and!; [|done|].
    + apply andb_true_intro. split; by apply Nat.ltb_lt.
    + exists v. split; [by apply cell_holds|done].
  - intros v H2 H3 Hm Hb Heq. discriminate (proj2 Hs). split_and!; [|done|].
    + apply andb_true_intro. split; by apply Nat.ltb_lt.
    + exists v. split; [by apply cell_holds|done].
  - intros v H3 Hb Heq. discriminate (proj2 Hr). split; [by apply Nat.ltb_lt|].
    exists v. split; [by apply cell_holds|done].
  - intros v H1 Hb Heq. discriminate (proj2 Hfs). split; [by apply Nat.ltb_lt|].
    exists v. split; [by apply cell_holds|done].
Qed.

Lemma select_spec fuel i j k score out :
  i <= n1 -> j <= n2 -> k <= n3 -> (n1 - i) + (n2 - j) + (n3 - k) <= fuel ->
  best (i, j) k score ->
  wp (select shape relation n1 n2 n3 fuel backward i j k out) (completes i j k score out).
Proof.
  revert i j k score out. induction fuel as [|fuel IH]; intros i j k score out Hi Hj Hk Hfuel Hbest;
    cbn [select]; destruct ((i <? n1) || (j <? n2) || (k <? n3)) eqn:Hloop; cbn [negb].
  2, 4: apply wp_ret, completes_end; try done;
    apply orb_false_iff in Hloop as [[?%Nat.ltb_ge ?%Nat.ltb_ge]%orb_false_iff _]; done.
  { apply more_left in Hloop. lia. }
  apply more_left in Hloop. destruct (cell_best i j k Hi Hj Hk) as (score' & Hscore & Hbest').
  rewrite <- (best_unique _ _ _ _ _ _ _ Hbest Hbest') in Hscore. clear score' Hbest'.
  eapply wp_index_step; [exact Hscore|].
  eapply wp_step; [apply (edge_test ((i <? n1) && (k <? n3)) _ (mt First i k))|].
  { intros [Hg1%Nat.ltb_lt Hg2%Nat.ltb_lt]%andb_prop.
    destruct (cell_best (i + 1) j (k + 1)) as (v & Hv & _); [lia..|eauto]. }
  { apply guarded_match_spec. by intros [Hg1%Nat.ltb_lt Hg2%Nat.ltb_lt]%andb_prop. }
  intros [] Hfirst.
  { destruct (proj1 Hfirst eq_refl) as ([Hg1%Nat.ltb_lt Hg2%Nat.ltb_lt]%andb_prop & Hm & v & Hv & <-).
    apply edge_cell in Hv; [|lia..].
    eapply wp_mono; [apply (IH (i + 1) j (k + 1) v); [lia..|done]|]. intros result Hres.
    apply (completes_match i j k First v out result (i + 1, j) (k + 1)); try done; simpl;
      rewrite ?Nat.add_1_r; done. }
  eapply wp_step; [apply (edge_test ((j <? n2) && (k <? n3)) _ (mt Second j k))|].
  { intros [Hg1%Nat.ltb_lt Hg2%Nat.ltb_lt]%andb_prop.
    destruct (cell_best i (j + 1) (k + 1)) as (v & Hv & _); [lia..|eauto]. }
  { apply guarded_match_spec. by intros [Hg1%Nat.ltb_lt Hg2%Nat.ltb_lt]%andb_prop. }
  intros [] Hsecond.
  { destruct (proj1 Hsecond eq_refl) as ([Hg1%Nat.ltb_lt Hg2%Nat.ltb_lt]%andb_prop & Hm & v & Hv & <-).
    apply edge_cell in Hv; [|lia..].
    eapply wp_mono; [apply (IH i (j + 1) (k + 1) v); [lia..|done]|]. intros result Hres.
    apply (completes_match i j k Second v out result (i, j + 1) (k + 1)); try done; simpl;
      rewrite ?Nat.add_1_r; done. }
  eapply wp_step; [apply skip_test|].
  { intros Hg%Nat.ltb_lt. destruct (cell_best i j (k + 1)) as (v & Hv & _); [lia..|eauto]. }
  intros [] Hskip.
  { destruct (proj1 Hskip eq_refl) as (Hg%Nat.ltb_lt & v & Hv & ->). apply edge_cell in Hv; [|lia..].
    eapply wp_mono; [apply (IH i j (k + 1) score); [lia..|done]|]. intros result.
    apply completes_skip; lia. }
  eapply wp_step; [apply skip_test|].
  { intros Hg%Nat.ltb_lt. destruct (cell_best (i + 1) j k) as (v & Hv & _); [lia..|eauto]. }
  intros [] Hskip1.
  { destruct (proj1 Hskip1 eq_refl) as (Hg%Nat.ltb_lt & v & Hv & ->). apply edge_cell in Hv; [|lia..].
    eapply wp_mono; [apply (IH (i + 1) j k score); [lia..|done]|]. intros result.
    apply completes_skip; lia. }
  destruct (refused_edges i j k score) as [Hlt Hb]; try done.
  eapply wp_mono; [apply (IH i (j + 1) k score); [lia..|by rewrite Nat.add_1_r]|]. intros result.
  apply completes_skip; lia.
Qed.

End selection.

End tables.

(** ** Sorting and removing repeats *)

Lemma elem_of_dedup x l : x ∈ dedup l <-> x ∈ l.
Proof.
  induction l as [|a [|b l] IH]; [done|done|]. cbn [dedup]. destruct (Nat.eqb_spec a b) as [->|Hne].
  - rewrite IH, !elem_of_cons. tauto.
  - rewrite !elem_of_cons in *. tauto.
Qed.

Lemma dedup_sorted l : StronglySorted le l -> StronglySorted lt (dedup l).
Proof.
  induction l as [|a [|b l] IH]; intros Hl; [constructor|by repeat constructor|].
  inversion Hl as [|? ? Hl' Hall]; subst. cbn [dedup]. destruct (Nat.eqb_spec a b) as [->|Hne]; [auto|].
  constructor; [auto|]. apply Forall_cons_iff in Hall as [Hab _].
  apply Forall_forall. intros x Hx. apply list_elem_of_In in Hx.
  assert (x ∈ b :: l) as Hx' by (by apply elem_of_dedup).
  inversion Hl' as [|? ? _ Hb]; subst. rewrite Forall_forall in Hb.
  apply elem_of_cons in Hx' as [->|Hx']; [lia|]. apply list_elem_of_In, Hb in Hx'. lia.
Qed.

Lemma settle_spec e :
  StronglySorted lt (candidates (settle e)) /\
  (forall k, k ∈ candidates (settle e) <-> k ∈ candidates e) /\
  can_be_missing (settle e) = can_be_missing e.
Proof.
  unfold settle. cbn [candidates can_be_missing]. split_and!; [| |done].
  - apply dedup_sorted, StronglySorted_merge_sort; apply _.
  - intros k. by rewrite elem_of_dedup, merge_sort_Permutation.
Qed.

(** ** Admission *)

Lemma checked_some m x : checked m = Some x <-> x = m /\ (Z.of_nat m <= usize_max)%Z.
Proof.
  unfold checked. destruct (Z.leb_spec (Z.of_nat m) usize_max) as [Hle|Hgt].
  - split; [intros [= <-]; done|by intros [-> _]].
  - split; [done|intros [_ ?]; lia].
Qed.

(** The cells of the product: one more than the length of each sequence. *)
Definition product_cells (a b c : nat) : nat := (a + 1) * (b + 1) * (c + 1).

Lemma shape_new_spec a b c budget :
  match shape_new a b c budget with
  | Some s =>
      s = mkShape (b + 1) (c + 1) (product_cells a b c) /\
      (Z.of_nat (product_cells a b c) <= budget)%Z /\
      (Z.of_nat (product_cells a b c) <= usize_max)%Z
  | None =>
      (budget < Z.of_nat (product_cells a b c))%Z \/ (usize_max < Z.of_nat (product_cells a b c))%Z
  end.
Proof.
  unfold shape_new, product_cells.
  destruct (decide (Z.of_nat ((a + 1) * (b + 1) * (c + 1)) <= usize_max)%Z) as [Hfit|Hover].
  - assert (forall m, m <= (a + 1) * (b + 1) * (c + 1) -> checked m = Some m) as Hc
      by (intros m Hm; apply checked_some; split; [done|lia]).
    rewrite (Hc (b + 1)), (Hc (c + 1)), (Hc (a + 1)) by nia. cbn [mbind option_bind].
    rewrite (Hc ((a + 1) * (b + 1))) by nia. cbn [mbind option_bind].
    rewrite Hc by done. cbn [mbind option_bind].
    destruct (Z.leb_spec (Z.of_nat ((a + 1) * (b + 1) * (c + 1))) budget); [done|by left].
  - destruct (_ ≫= _) as [s|] eqn:Hs; [|right; lia].
    repeat match goal with
    | H : _ ≫= _ = Some _ |- _ => apply bind_Some in H as (? & [-> ?]%checked_some & H)
    end. lia.
Qed.

(** ** The relation *)

Definition word_matches `{FuzzyLibrary} (mode : MatchMode) (w r : string) : bool :=
  match mode with
  | Exact => String.eqb w r
  | CaseInsensitive => eq_ignore_ascii_case w r
  | Fuzzy threshold =>
      matches (prepare_fuzzy_word w) (prepare_fuzzy_word r) (mkFuzzyComparison threshold)
  end.

Lemma lookup_rows {A B D} (f : A -> B -> D) (l : list A) (k : list B) a b w r :
  l !! w = Some a -> k !! r = Some b ->
  (l ≫= fun x => f x <$> k) !! (w * length k + r) = Some (f a b).
Proof.
  revert w. induction l as [|x l IH]; intros [|w] Hw Hr; try done; simpl in *.
  - injection Hw as ->. rewrite lookup_app_l by (rewrite length_fmap; by eapply lookup_lt_Some).
    by rewrite list_lookup_fmap, Hr.
  - rewrite lookup_app_r by (rewrite length_fmap; lia). rewrite length_fmap.
    replace (length k + w * length k + r - length k) with (w * length k + r) by lia. by apply IH.
Qed.

(** Whether word [w] of a chain matches reference word [r]. *)
Definition pair_matches `{FuzzyLibrary} (srcs : list string * list string) (refs : list string)
    (mode : MatchMode) (c : SpeakerChain) (w r : nat) : bool :=
  match pick c srcs !! w, refs !! r with
  | Some a, Some b => word_matches mode a b
  | _, _ => false
  end.

Lemma relation_new_spec `{FuzzyLibrary} srcs refs mode c w r :
  w < length (pick c srcs) -> r < length refs ->
  pick c (relation_matches (relation_new srcs refs mode)) !!
    (w * reference_len (relation_new srcs refs mode) + r) = Some (pair_matches srcs refs mode c w r).
Proof.
  intros Hw Hr. destruct (lookup_lt_is_Some_2 _ _ Hw) as [a Ha].
  destruct (lookup_lt_is_Some_2 _ _ Hr) as [b Hb]. unfold pair_matches. rewrite Ha, Hb.
  unfold relation_new. cbn [relation_matches reference_len].
  destruct mode as [| |threshold]; destruct c; cbn [pick fst snd] in *.
  1-4: by apply lookup_rows.
  all: rewrite <- (length_fmap prepare_fuzzy_word refs);
    apply (lookup_rows (fun x other => matches (prepare_fuzzy_word x) other _)); [done|];
    by rewrite list_lookup_fmap, Hb.
Qed.

(** ** The analysis *)

Section analysis.
Context `{FuzzyLibrary}.
Implicit Types (first second refs : list string).

(** The optimal assignments of two chains of words to a reference. *)
Definition optimal_assignment first second refs mode (ms : list MatchAddress) : Prop :=
  optimal (length first, length second) (length refs)
    (pair_matches (first, second) refs mode) ms.

(** What the evidence of a word says of all optimal assignments. *)
Definition evidence_exact first second refs mode c w (e : WordEvidence) : Prop :=
  StronglySorted lt (candidates e) /\
  (forall r, r ∈ candidates e <->
     exists ms, optimal_assignment first second refs mode ms /\ mkAddress c w r ∈ ms) /\
  (can_be_missing e = true <->
     exists ms, optimal_assignment first second refs mode ms /\ forall r, mkAddress c w r ∉ ms).

(** What a completed analysis says. *)
Definition analysis_exact first second refs mode (a : TwoSpeakerAlignment) : Prop :=
  sources a = (first, second) /\ reference a = refs /\
  optimal_assignment first second refs mode (selected a) /\ length (selected a) = optimum a /\
  forall c w, w < length (pick c (first, second)) ->
    exists e, pick c (words a) !! w = Some e /\ evidence_exact first second refs mode c w e.

Lemma word_evidence_exact n n3 mt d c w e :
  best n n3 mt (0, 0) 0 d -> w < pick c n ->
  (forall i j k, i <= n.1 -> j <= n.2 -> k <= n3 ->
     exists v v', best_before n n3 mt (i, j) k v /\ best n n3 mt (i, j) k v') ->
  word_evidence n.1 n.2 n3 mt d (fun _ _ _ => True) c w e ->
  (forall r, r ∈ candidates e <-> exists ms, optimal n n3 mt ms /\ mkAddress c w r ∈ ms) /\
  (can_be_missing e = true <->
     exists ms, optimal n n3 mt ms /\ forall r, mkAddress c w r ∉ ms).
Proof.
  intros Hd Hw Htables [Hm Hc]. destruct n as [n1 n2]. cbn [fst snd] in *.
  assert (forall i j, i <= n1 -> j <= n2 -> at_most (i, j) (n1, n2)) as Hrange
    by (intros i j Hi Hj []; done).
  assert (forall q, at_most q (n1, n2) -> q.1 <= n1 /\ q.2 <= n2) as Hrange'
    by (intros q Hq; split; [apply (Hq First)|apply (Hq Second)]).
  assert (forall q, pick c q = w -> at_most q (n1, n2) -> at_most (put c (S w) q) (n1, n2)) as Hbump
    by (intros q Hq Hle; apply put_at_most; [done|lia]).
  split.
  - intros r. rewrite Hc. split.
    + intros (i & j & Hi & Hj & Hk & _ & <- & Hedge). by eapply match_edge_sound; auto.
    + intros (ms & Hopt & Hin).
      destruct (match_edge_complete _ _ _ _ _ _ _ _ Hd Hopt Hin)
        as ([i j] & Hp & Hle & Hlt & Hr & Hmt & Hsum).
      destruct (Hrange' _ Hle) as [Hi Hj], (Hrange' _ (Hbump _ Hp Hle)) as [Hi' Hj']. simpl in Hi, Hj.
      exists i, j. split_and!; try done; [lia|]. split_and!; [done|by rewrite Hp|].
      destruct (Htables i j r Hi Hj ltac:(lia)) as (v & _ & Hv & _).
      destruct (Htables _ _ (S r) Hi' Hj' ltac:(lia)) as (_ & v' & _ & Hv').
      rewrite <- surjective_pairing in Hv'. exists v, v'. rewrite Hp. auto.
  - rewrite Hm. split.
    + intros (i & j & k & Hi & Hj & Hk & _ & <- & Hedge). by eapply skip_edge_sound; auto.
    + intros (ms & Hopt & Hnot).
      destruct (skip_edge_complete _ _ _ _ _ _ _ Hd Hopt Hw Hnot) as ([i j] & k & Hp & Hle & Hk & Hsum).
      destruct (Hrange' _ Hle) as [Hi Hj], (Hrange' _ (Hbump _ Hp Hle)) as [Hi' Hj']. simpl in Hi, Hj.
      exists i, j, k. split_and!; try done.
      destruct (Htables i j k Hi Hj Hk) as (v & _ & Hv & _).
      destruct (Htables _ _ k Hi' Hj' Hk) as (_ & v' & _ & Hv').
      rewrite <- surjective_pairing in Hv'. exists v, v'. rewrite Hp. auto.
Qed.

Lemma with_budget_spec first second refs mode budget :
  wp (with_budget first second refs mode budget) (fun r =>
    let cells := Z.of_nat (product_cells (length first) (length second) (length refs)) in
    match r with
    | Ok a => (cells <= budget)%Z /\ (cells <= usize_max)%Z /\ analysis_exact first second refs mode a
    | Err CellBudgetExceeded => (budget < cells)%Z \/ (usize_max < cells)%Z
    end).
Proof.
  unfold with_budget.
  pose proof (shape_new_spec (length first) (length second) (length refs) budget) as Hshape.
  destruct (shape_new _ _ _ _) as [shape|]; [|by apply wp_ret]. destruct Hshape as (-> & Hfit & Hfit').
  set (shape := mkShape _ _ _). set (n1 := length first). set (n2 := length second).
  set (n3 := length refs). set (mt := pair_matches (first, second) refs mode).
  set (relation := relation_new (first, second) refs mode).
  assert (forall c w r, w < pick c (n1, n2) -> r < n3 ->
    pick c (relation_matches relation) !! (w * reference_len relation + r) = Some (mt c w r)) as Hrel.
  { intros c w r Hw Hr. apply relation_new_spec; [|done]. by destruct c. }
  eapply wp_step; [by apply (forward_table_spec shape relation n1 n2 n3 mt)|]. intros fwd Hfwd.
  eapply wp_step; [by apply (backward_table_spec shape relation n1 n2 n3 mt)|]. intros bwd Hbwd.
  destruct (proj2 Hbwd 0 0 0 ltac:(lia) ltac:(lia) ltac:(lia) I) as (d & Hd & Hbest).
  eapply wp_index_step; [exact Hd|].
  eapply wp_step; [by apply (all_evidence_spec shape relation n1 n2 n3 mt)|]. intros ws Hws.
  eapply wp_step; [apply (select_spec shape relation n1 n2 n3 mt) with (score := d); try done; lia|].
  intros sel (ms & -> & Hms & Hlen). apply wp_ret.
  split_and!; [done|done|]. split_and!; [done|done| |done|].
  { split; [done|]. intros ms' Hms'. cbn [selected app]. rewrite Hlen. by apply Hbest. }
  intros c w Hw. assert (w < pick c (n1, n2)) as Hw' by (by destruct c).
  destruct (Hws c) as [Hl Hev]. destruct (Hev w Hw') as (e & He & Hexact).
  exists (settle e). split; [destruct c; simpl in *; by rewrite list_lookup_fmap, He|].
  destruct (settle_spec e) as (Hsort & Hcand & Hmiss).
  destruct (word_evidence_exact (n1, n2) n3 mt d c w e Hbest Hw') as [Hc Hm]; [|done|].
  - intros i j k Hi Hj Hk. destruct (proj2 Hfwd i j k Hi Hj Hk I) as (v & _ & Hv).
    destruct (proj2 Hbwd i j k Hi Hj Hk I) as (v' & _ & Hv'). eauto.
  - split_and!; [done| |by rewrite Hmiss]. intros r. by rewrite Hcand.
Qed.

(** C3: the joint analysis of two speakers is exact. It refuses exactly when
    the product of the lengths exceeds its budget or the machine width; else it
    returns, without an index out of range, an optimal assignment of both
    speakers' words to the reference (each reference word used once, each
    speaker in order, none between them), the size all optimal assignments
    have, and for every word of either speaker the sorted reference words that
    some optimal assignment gives it and whether some optimal assignment leaves
    it out. *)
Theorem two_speaker_analysis_is_exact first second refs mode budget :
  exists r, with_budget first second refs mode budget tt = (Ok r, tt) /\
    let cells := Z.of_nat (product_cells (length first) (length second) (length refs)) in
    match r with
    | Ok a => (cells <= budget)%Z /\ (cells <= usize_max)%Z /\ analysis_exact first second refs mode a
    | Err CellBudgetExceeded => (budget < cells)%Z \/ (usize_max < cells)%Z
    end.
Proof. apply wp_uninterrupted, with_budget_spec. Qed.

Lemma sorted_singleton (l : list nat) k :
  StronglySorted lt l -> (forall r, r ∈ l <-> r = k) -> l = [k].
Proof.
  intros Hs Hl. destruct l as [|a l].
  - exfalso. apply (elem_of_nil (A:=nat) k). by apply Hl.
  - assert (a = k) as -> by (apply Hl, elem_of_cons; by left).
    destruct l as [|b l]; [done|]. exfalso.
    assert (b = k) as -> by (apply Hl; rewrite !elem_of_cons; auto).
    inversion Hs as [|? ? _ Hall]; subst. apply Forall_cons_iff in Hall as [Hlt _]. lia.
Qed.

(** The only candidate of a word no optimal assignment leaves out. *)
Lemma evidence_common first second refs mode c w e k :
  evidence_exact first second refs mode c w e ->
  (exists ms, optimal_assignment first second refs mode ms) ->
  (can_be_missing e = false /\ candidates e = [k]) <->
  forall ms, optimal_assignment first second refs mode ms -> mkAddress c w k ∈ ms.
Proof.
  intros (Hs & Hc & Hm) [ms0 H0]. split.
  - intros [Hmiss Hk] ms Hms.
    destruct (decide (Exists (fun m => chain m = c /\ word m = w) ms)) as [Hex|Hno].
    + apply Exists_exists in Hex as ([c' w' r] & Hin%list_elem_of_In & Hc' & Hw'). simpl in *.
      subst c' w'. assert (r ∈ candidates e) as Hr by (apply Hc; eauto).
      rewrite Hk in Hr. apply list_elem_of_singleton in Hr as ->. done.
    + exfalso. enough (can_be_missing e = true) by congruence. apply Hm. exists ms. split; [done|].
      intros r Hin%list_elem_of_In. apply Hno, Exists_exists. by exists (mkAddress c w r).
  - intros Hall. split.
    + apply not_true_iff_false. intros (ms & Hms & Hnot)%Hm. exact (Hnot _ (Hall _ Hms)).
    + apply sorted_singleton; [done|]. intros r. rewrite Hc. split.
      * intros (ms & Hms & Hin). eapply chosen_unique; [apply Hms|exact Hin|by apply Hall].
      * intros ->. exists ms0. auto.
Qed.

(** C15: a word's common match is proof: after a completed analysis,
    [common] returns, without an index out of range, the match of a word with
    reference word [k] exactly when every optimal assignment makes that match,
    with the two words it names; and nothing when no match is in all of them. *)
Theorem common_match_is_in_every_optimum first second refs mode budget a c w :
  with_budget first second refs mode budget tt = (Ok (Ok a), tt) ->
  w < length (pick c (first, second)) ->
  exists o, common a c w tt = (Ok o, tt) /\
    (forall k, (exists m, o = Some m /\ address m = mkAddress c w k) <->
       forall ms, optimal_assignment first second refs mode ms -> mkAddress c w k ∈ ms) /\
    (forall m, o = Some m -> pick c (first, second) !! w = Some (match_source m) /\
       refs !! address_reference (address m) = Some (match_reference m)).
Proof.
  intros Ha Hw. pose proof (with_budget_spec first second refs mode budget tt) as Hspec.
  rewrite Ha in Hspec. destruct Hspec as (_ & _ & Hsrc & Href & Hsel & _ & Hev).
  destruct (Hev c w Hw) as (e & He & Hexact).
  pose proof (fun k => evidence_common _ _ _ _ _ _ _ k Hexact (ex_intro _ _ Hsel)) as Hcommon.
  apply (wp_uninterrupted (common a c w)). unfold common, evidence.
  eapply wp_index_step; [exact He|].
  destruct (can_be_missing e || negb (length (candidates e) =? 1)) eqn:Hnone.
  - apply wp_ret. split; [|done]. intros k. rewrite <- Hcommon. split; [naive_solver|].
    intros [Hm Hk]. by rewrite Hm, Hk in Hnone.
  - apply orb_false_iff in Hnone as [Hm Hlen]. apply negb_false_iff, Nat.eqb_eq in Hlen.
    destruct (candidates e) as [|k [|]] eqn:Hk; try done. eapply wp_index_step; [done|].
    pose proof (proj1 (Hcommon k) (conj Hm eq_refl) _ Hsel) as Hin.
    destruct (lookup_lt_is_Some_2 _ _ Hw) as [source Hsource].
    assert (k < length refs) as Hlt.
    { apply list_elem_of_split in Hin as (l1 & l2 & Heq). destruct Hsel as [Hsel _].
      rewrite Heq in Hsel. apply chosen_split in Hsel as (q & k0 & _ & _ & _ & _ & _ & Hc2 & _);
        [|apply at_most_zero|lia]. by inversion Hc2; subst; lia. }
    destruct (lookup_lt_is_Some_2 _ _ Hlt) as [ref Hrefk].
    eapply wp_step; [unfold bound; eapply wp_index_step; [by rewrite Hsrc|];
      eapply wp_index_step; [by rewrite Href|]; apply (wp_ret _ (fun m =>
        m = mkMatch (mkAddress c w k) source ref)); done|].
    intros m ->. apply wp_ret. split.
    + intros k'. rewrite <- Hcommon. split.
      * intros (m & [= <-] & [= <-]). done.
      * intros [_ [= <-]]. eauto.
    + intros m [= <-]. done.
Qed.

End analysis.

(** ** Witnesses *)


(** Each speaker says "yes"; the reference says it once, then "no". *)
Definition chain_one : list string := ["yes"].
Definition chain_two : list string := ["yes"; "no"].
Definition joint_reference : list string := ["yes"; "no"].

Lemma common_match_is_in_every_optimum_witness :
  exists a, with_budget (H := exact_library) chain_one chain_two joint_reference DpAlign.Exact 100 tt
      = (Ok (Ok a), tt) /\
    (forall ms, optimal_assignment (H := exact_library) chain_one chain_two joint_reference
       DpAlign.Exact ms -> mkAddress Second 1 1 ∈ ms).
Proof.
  eexists. split; [vm_compute; reflexivity|].
  destruct (common_match_is_in_every_optimum (H := exact_library) chain_one chain_two joint_reference
    DpAlign.Exact 100 _ Second 1 ltac:(vm_compute; reflexivity) ltac:(simpl; lia))
    as (o & Ho & Hk & _).
  apply Hk. vm_compute in Ho. injection Ho as <-. eexists. split; reflexivity.
Defined.
