(* ===== verification/FloatFacts.v ===== *)
(** * Binary floats as integers of their smallest unit

    The order and the rounding of [SpecFloat] for any format, over the integers:
    a finite float is a whole number of the format's smallest positive one
    ([units]). Comparison is that of the integers ([leb_units]), addition is the
    addition of the integers rounded to [prec] bits, ties to even
    ([add_units]), and that rounding is monotone ([rnd_mono]). The forced
    aligner's theorems on its own [f32] and [f64] arithmetic rest on these. *)

From Stdlib Require Import ZArith Lia Bool SpecFloat.

Open Scope Z_scope.

(** ** Rounding a quotient by a power of two *)

(** [m / 2^n] to the nearest integer, a tie to the even one. *)
Definition rne (m n : Z) : Z :=
  let q := m / 2 ^ n in
  match 2 * (m mod 2 ^ n) ?= 2 ^ n with
  | Lt => q
  | Eq => if Z.even q then q else q + 1
  | Gt => q + 1
  end.

Definition nearest_even (m n z : Z) : Prop :=
  2 * Z.abs (z * 2 ^ n - m) <= 2 ^ n /\
  (2 * Z.abs (z * 2 ^ n - m) = 2 ^ n -> Z.even z = true).

Lemma pow2_pos n : 0 <= n -> 0 < 2 ^ n.
Proof. intros. apply Z.pow_pos_nonneg; lia. Qed.

Lemma rne_nearest m n : 0 <= n -> nearest_even m n (rne m n).
Proof.
  intros Hn. pose proof (pow2_pos n Hn) as Hp. unfold nearest_even, rne.
  pose proof (Z.div_mod m (2 ^ n) ltac:(lia)). pose proof (Z.mod_pos_bound m (2 ^ n) Hp).
  set (q := m / 2 ^ n) in *. set (r := m mod 2 ^ n) in *.
  destruct (Z.compare_spec (2 * r) (2 ^ n)).
  - destruct (Z.even q) eqn:He.
    + replace (q * 2 ^ n - m) with (- r) by lia. split; [lia|auto].
    + replace ((q + 1) * 2 ^ n - m) with (2 ^ n - r) by lia. split; [lia|].
      intros _. rewrite Z.even_add, He. reflexivity.
  - replace (q * 2 ^ n - m) with (- r) by lia. split; lia.
  - replace ((q + 1) * 2 ^ n - m) with (2 ^ n - r) by lia. split; lia.
Qed.

Lemma nearest_even_mono m m' n z z' :
  0 <= n -> nearest_even m n z -> nearest_even m' n z' -> m <= m' -> z <= z'.
Proof.
  intros Hn [H1 H2] [H3 H4] Hm. destruct (Z.le_gt_cases z z') as [|Hgt]; [assumption|exfalso].
  pose proof (pow2_pos n Hn).
  assert ((z - z') * 2 ^ n <= 2 ^ n) by lia.
  assert (z = z' + 1) as -> by nia.
  assert (Z.even (z' + 1) = true) as Ho by (apply H2; lia).
  assert (Z.even z' = true) as He by (apply H4; lia).
  rewrite Z.even_add, He in Ho. discriminate.
Qed.

Lemma rne_mono m m' n : 0 <= n -> m <= m' -> rne m n <= rne m' n.
Proof. intros Hn. apply nearest_even_mono with n; auto using rne_nearest. Qed.

Lemma rne_exact z n : 0 <= n -> rne (z * 2 ^ n) n = z.
Proof.
  intros Hn. pose proof (pow2_pos n Hn). unfold rne.
  rewrite Z.div_mul, Z.mod_mul by lia. destruct (Z.compare_spec (2 * 0) (2 ^ n)); lia.
Qed.

(** ** The shift of [SpecFloat] *)

(** After [n] single shifts of [m]: the quotient, the next bit and whether
    anything below it is left. *)
Definition shifted (m n : Z) (mrs : shr_record) : Prop :=
  exists low, 0 <= 2 * low < 2 ^ n /\ (n = 0 -> shr_r mrs = false) /\ 0 <= shr_m mrs /\
    2 * m = 2 * shr_m mrs * 2 ^ n + (if shr_r mrs then 2 ^ n else 0) + 2 * low /\
    (shr_s mrs = true <-> 0 < low).

Lemma shifted_step m n mrs : 0 <= n -> shifted m n mrs -> shifted m (n + 1) (shr_1 mrs).
Proof.
  intros Hn (low & Hlow & Hr & Hq & Heq & Hs). destruct mrs as [q r s]; cbn [shr_m shr_r shr_s] in *.
  pose proof (pow2_pos n Hn). assert (2 ^ (n + 1) = 2 * 2 ^ n) as Hp
    by (rewrite Z.add_1_r, Z.pow_succ_r by lia; reflexivity).
  assert (exists half, (if r then 2 ^ n else 0) = 2 * half) as [half Hhalf].
  { destruct r; [|exists 0; reflexivity]. destruct (Z.eq_dec n 0) as [->|]; [discriminate Hr; reflexivity|].
    exists (2 ^ (n - 1)). replace n with (Z.succ (n - 1)) at 1 by lia.
    rewrite Z.pow_succ_r by lia. reflexivity. }
  exists (half + low). rewrite Hp.
  assert (0 <= 2 * half <= 2 ^ n) by (destruct r; lia).
  assert (orb r s = true <-> 0 < half + low) as Hs'.
  { rewrite orb_true_iff, Hs. destruct r; cbv iota in *; split.
    - intros _. lia.
    - intros _. left. reflexivity.
    - intros [?|?]; [discriminate|lia].
    - intros ?. right. lia. }
  destruct q as [|[q|q|]|q]; [| | | |lia]; cbn [shr_1 shr_m shr_r shr_s] in *;
    (repeat apply conj); try lia; apply Hs'.
Qed.

Lemma iter_pos_nat {A} (f : A -> A) p x : iter_pos f p x = Nat.iter (Pos.to_nat p) f x.
Proof.
  revert x. induction p as [p IH|p IH|]; intros x; cbn [iter_pos]; [..|reflexivity];
    rewrite !IH, <- Nat.iter_add.
  - rewrite Pos2Nat.inj_xI, <- Nat.iter_succ_r. f_equal. lia.
  - rewrite Pos2Nat.inj_xO. f_equal. lia.
Qed.

Lemma shifted_iter m k :
  0 <= m ->
  shifted m (Z.of_nat k) (Nat.iter k shr_1 (Build_shr_record m false false)).
Proof.
  intros Hm. induction k as [|k IH].
  - exists 0. simpl. repeat split; try lia; intros; (discriminate || lia).
  - rewrite Nat2Z.inj_succ, <- Z.add_1_r. simpl. apply shifted_step; [lia|assumption].
Qed.

(** The record rounds to [rne]. *)
Lemma shifted_rounds m n mrs :
  0 <= n -> shifted m n mrs ->
  round_nearest_even (shr_m mrs) (loc_of_shr_record mrs) = rne m n.
Proof.
  intros Hn (low & Hlow & Hr & Hq & Heq & Hs). destruct mrs as [q r s]; cbn [shr_m shr_r shr_s] in *.
  pose proof (pow2_pos n Hn). unfold rne.
  set (rem := m - q * 2 ^ n).
  assert (2 * rem = (if r then 2 ^ n else 0) + 2 * low) as Hrem by (unfold rem; lia).
  assert (0 <= rem < 2 ^ n) by (destruct r; lia).
  assert (m / 2 ^ n = q) as -> by (symmetry; apply Z.div_unique with rem; [lia|unfold rem; lia]).
  assert (m mod 2 ^ n = rem) as -> by (symmetry; apply Z.mod_unique with q; [lia|unfold rem; lia]).
  assert (s = false -> low = 0) as Hs0.
  { intros ->. destruct (Z.eq_dec low 0); [assumption|]. assert (0 < low) by lia.
    apply Hs in H1. discriminate. }
  assert (s = true -> 0 < low) as Hs1 by (apply Hs). clear Hs.
  destruct r, s; cbn [round_nearest_even loc_of_shr_record]; cbv iota in Hrem;
    destruct (Z.compare_spec (2 * rem) (2 ^ n)); try reflexivity; exfalso;
    try (specialize (Hs0 eq_refl)); try (specialize (Hs1 eq_refl)); lia.
Qed.

(** ** Digits *)

Lemma digits_bounds m : 2 ^ (Zpos (digits2_pos m) - 1) <= Zpos m < 2 ^ Zpos (digits2_pos m).
Proof.
  induction m as [m IH|m IH|]; simpl digits2_pos; [..|simpl; lia];
    rewrite Pos2Z.inj_succ, Z.pow_succ_r by lia;
    (replace (Z.succ (Zpos (digits2_pos m)) - 1) with (Z.succ (Zpos (digits2_pos m) - 1)) by lia);
    rewrite Z.pow_succ_r by lia; lia.
Qed.

Lemma digits_log2 m : Zpos (digits2_pos m) = Z.log2 (Zpos m) + 1.
Proof.
  pose proof (digits_bounds m). symmetry. rewrite Z.add_1_r.
  replace (Zpos (digits2_pos m)) with (Z.succ (Zpos (digits2_pos m) - 1)) by lia. f_equal.
  apply Z.log2_unique; [lia|].
  replace (Z.succ (Zpos (digits2_pos m) - 1)) with (Zpos (digits2_pos m)) by lia. assumption.
Qed.

Lemma log2_mul_pow m n : 0 < m -> 0 <= n -> Z.log2 (m * 2 ^ n) = Z.log2 m + n.
Proof. intros. rewrite Z.log2_mul_pow2 by lia. lia. Qed.

(** ** Rounding a whole number of units *)

Lemma nearest_even_unique m n z z' :
  0 <= n -> nearest_even m n z -> nearest_even m n z' -> z = z'.
Proof.
  intros Hn H1 H2.
  pose proof (nearest_even_mono m m n z z' Hn H1 H2 (Z.le_refl m)).
  pose proof (nearest_even_mono m m n z' z Hn H2 H1 (Z.le_refl m)). lia.
Qed.

Lemma rne_scale m n a : 0 <= n -> 0 <= a -> rne (m * 2 ^ a) (n + a) = rne m n.
Proof.
  intros Hn Ha. pose proof (pow2_pos a Ha) as Hp.
  apply (nearest_even_unique (m * 2 ^ a) (n + a)); [lia|apply rne_nearest; lia|].
  destruct (rne_nearest m n Hn) as [H1 H2].
  assert (rne m n * 2 ^ (n + a) - m * 2 ^ a = (rne m n * 2 ^ n - m) * 2 ^ a) as Heq
    by (rewrite Z.pow_add_r by lia; ring).
  unfold nearest_even. rewrite Heq, Z.abs_mul, (Z.abs_eq (2 ^ a)), Z.pow_add_r by lia.
  split; [nia|]. intros Htie. apply H2. nia.
Qed.

Section format.
Context (prec emax : Z) (Hprec : 1 < prec) (Hemax : prec < emax).

#[local] Abbreviation emin := (SpecFloat.emin prec emax).

(** A positive number of units to [prec] bits, and the same for any sign. *)
Definition rnd_pos (k : Z) : Z :=
  let n := Z.max 0 (Z.log2 k + 1 - prec) in rne k n * 2 ^ n.
Definition rnd (k : Z) : Z := Z.sgn k * rnd_pos (Z.abs k).

Lemma rnd_pos_repr z n : 0 <= n -> 0 <= z < 2 ^ prec -> rnd_pos (z * 2 ^ n) = z * 2 ^ n.
Proof.
  intros Hn Hz. unfold rnd_pos. set (k := z * 2 ^ n). set (s := Z.max 0 (Z.log2 k + 1 - prec)).
  assert (0 <= s <= n) as Hs.
  { split; [lia|]. unfold s, k. destruct (Z.eq_dec z 0) as [->|];
      [rewrite Z.mul_0_l; change (Z.log2 0) with 0; lia|].
    rewrite log2_mul_pow by lia.
    assert (Z.log2 z < prec) by (apply Z.log2_lt_pow2; lia). lia. }
  assert (k = z * 2 ^ (n - s) * 2 ^ s) as Hk.
  { unfold k. rewrite <- Z.mul_assoc, <- Z.pow_add_r by lia. do 2 f_equal. lia. }
  clearbody s k. subst k. rewrite rne_exact by lia. reflexivity.
Qed.

Lemma rnd_pos_mono k k' : 0 <= k <= k' -> rnd_pos k <= rnd_pos k'.
Proof.
  intros Hk. unfold rnd_pos.
  set (n := Z.max 0 (Z.log2 k + 1 - prec)). set (n' := Z.max 0 (Z.log2 k' + 1 - prec)).
  assert (n <= n') as Hnn by (unfold n, n'; pose proof (Z.log2_le_mono k k'); lia).
  assert (0 <= n) by (unfold n; lia). pose proof (pow2_pos n ltac:(lia)).
  destruct (Z.eq_dec n n') as [<-|Hne].
  { apply Z.mul_le_mono_nonneg_r; [lia|]. apply rne_mono; lia. }
  assert (2 ^ (prec - 1) * 2 ^ n' <= k') as Hk'.
  { rewrite <- Z.pow_add_r by lia. replace (prec - 1 + n') with (Z.log2 k') by (unfold n' in *; lia).
    apply Z.log2_spec. destruct (Z.eq_dec k' 0) as [Hz|]; [exfalso|lia].
    apply Hne. unfold n, n'. do 2 f_equal. do 2 f_equal. lia. }
  assert (k <= 2 ^ prec * 2 ^ n) as Hk2.
  { rewrite <- Z.pow_add_r by lia. destruct (Z.eq_dec k 0) as [->|]; [apply Z.pow_nonneg; lia|].
    apply Z.lt_le_incl, Z.log2_lt_cancel. rewrite Z.log2_pow2 by lia. unfold n. lia. }
  pose proof (rne_mono _ _ n ltac:(lia) Hk2) as H1.
  pose proof (rne_mono _ _ n' ltac:(lia) Hk') as H2.
  rewrite rne_exact in H1, H2 by lia.
  transitivity (2 ^ prec * 2 ^ n); [nia|]. transitivity (2 ^ (prec - 1) * 2 ^ n').
  - rewrite <- !Z.pow_add_r by lia. apply Z.pow_le_mono_r; lia.
  - pose proof (pow2_pos n' ltac:(lia)). nia.
Qed.

Lemma rnd_pos_nonneg k : 0 <= k -> 0 <= rnd_pos k.
Proof.
  intros Hk. pose proof (rnd_pos_repr 0 0 ltac:(lia)) as H0. simpl in H0.
  rewrite <- H0 by (pose proof (pow2_pos prec); lia). apply rnd_pos_mono. lia.
Qed.

Lemma rnd_opp k : rnd (- k) = - rnd k.
Proof. unfold rnd. rewrite Z.sgn_opp, Z.abs_opp. lia. Qed.

Lemma rnd_nonneg k : 0 <= k -> rnd k = rnd_pos k.
Proof.
  intros Hk. unfold rnd. rewrite Z.abs_eq by lia.
  destruct (Z.eq_dec k 0) as [->|]; [|rewrite Z.sgn_pos by lia; lia].
  pose proof (rnd_pos_repr 0 0 ltac:(lia)) as H0. simpl in *. rewrite H0; [reflexivity|].
  pose proof (pow2_pos prec). lia.
Qed.

Lemma rnd_mono k k' : k <= k' -> rnd k <= rnd k'.
Proof.
  intros Hk. destruct (Z.le_gt_cases 0 k).
  - rewrite !rnd_nonneg by lia. apply rnd_pos_mono. lia.
  - replace k with (- - k) by lia. rewrite rnd_opp, rnd_nonneg by lia.
    destruct (Z.le_gt_cases 0 k').
    + rewrite (rnd_nonneg k') by lia. pose proof (rnd_pos_nonneg (- k)).
      pose proof (rnd_pos_nonneg k'). lia.
    + replace k' with (- - k') by lia. rewrite rnd_opp, rnd_nonneg by lia.
      pose proof (rnd_pos_mono (- k') (- k)). lia.
Qed.

(** ** Floats as units *)

Definition units (x : spec_float) : Z :=
  match x with
  | S754_finite s m e =>
      if s then - (Zpos m * 2 ^ (e - emin)) else Zpos m * 2 ^ (e - emin)
  | _ => 0
  end.

(** The finite floats of the format. *)
Definition finite_float (x : spec_float) : Prop :=
  match x with
  | S754_zero _ => True
  | S754_finite _ m e => bounded prec emax m e = true
  | _ => False
  end.

Lemma bounded_facts m e :
  bounded prec emax m e = true <->
  emin <= e <= emax - prec /\ Zpos (digits2_pos m) <= prec /\
  (emin < e -> Zpos (digits2_pos m) = prec).
Proof.
  unfold bounded, canonical_mantissa, fexp. rewrite andb_true_iff, Z.eqb_eq, Z.leb_le.
  set (d := Zpos (digits2_pos m)). lia.
Qed.

Lemma finite_mantissa m e :
  bounded prec emax m e = true ->
  Zpos m < 2 ^ prec /\ (emin < e -> 2 ^ (prec - 1) <= Zpos m).
Proof.
  intros (_ & Hd & Hd')%bounded_facts. pose proof (digits_bounds m) as [H1 H2]. split.
  - eapply Z.lt_le_trans; [apply H2|]. apply Z.pow_le_mono_r; lia.
  - intros He. rewrite Hd' in H1 by assumption. assumption.
Qed.

Lemma units_repr x : finite_float x -> rnd (units x) = units x.
Proof.
  destruct x as [| | |s m e]; cbn [units finite_float]; try (intros; reflexivity). intros Hb.
  pose proof (finite_mantissa m e Hb). apply bounded_facts in Hb.
  destruct s; rewrite ?rnd_opp, rnd_nonneg, rnd_pos_repr; try lia;
    pose proof (pow2_pos (e - emin) ltac:(lia)); nia.
Qed.

(** *** Order *)

Lemma units_lex m1 e1 m2 e2 :
  bounded prec emax m1 e1 = true -> bounded prec emax m2 e2 = true -> e1 < e2 ->
  Zpos m1 * 2 ^ (e1 - emin) < Zpos m2 * 2 ^ (e2 - emin).
Proof.
  intros H1 H2 He. pose proof (finite_mantissa _ _ H1) as [Hm1 _].
  pose proof (finite_mantissa _ _ H2) as [_ Hm2].
  apply bounded_facts in H1. apply bounded_facts in H2.
  pose proof (pow2_pos (e1 - emin) ltac:(lia)). pose proof (pow2_pos (e2 - emin) ltac:(lia)).
  apply Z.lt_le_trans with (2 ^ prec * 2 ^ (e1 - emin)); [nia|].
  transitivity (2 ^ (prec - 1) * 2 ^ (e2 - emin)).
  - rewrite <- !Z.pow_add_r by lia. apply Z.pow_le_mono_r; lia.
  - apply Z.mul_le_mono_nonneg_r; [lia|]. apply Hm2. lia.
Qed.

Lemma units_compare m1 e1 m2 e2 :
  bounded prec emax m1 e1 = true -> bounded prec emax m2 e2 = true ->
  match e1 ?= e2 with
  | Lt => Lt
  | Gt => Gt
  | Eq => Pos.compare_cont Eq m1 m2
  end = (Zpos m1 * 2 ^ (e1 - emin) ?= Zpos m2 * 2 ^ (e2 - emin)).
Proof.
  intros H1 H2. destruct (Z.compare_spec e1 e2) as [->|He|He].
  - apply bounded_facts in H2. change (Pos.compare_cont Eq m1 m2) with (Zpos m1 ?= Zpos m2).
    pose proof (pow2_pos (e2 - emin) ltac:(lia)).
    apply Zmult_compare_compat_r. lia.
  - symmetry. apply Z.compare_lt_iff. apply units_lex; assumption.
  - symmetry. apply Z.compare_gt_iff. apply units_lex; assumption.
Qed.

Lemma units_pos m e : bounded prec emax m e = true -> 0 < Zpos m * 2 ^ (e - emin).
Proof. intros H%bounded_facts. pose proof (pow2_pos (e - emin) ltac:(lia)). nia. Qed.

Lemma compare_units x y :
  finite_float x -> finite_float y -> SFcompare x y = Some (units x ?= units y).
Proof.
  destruct x as [sx| | |sx mx ex], y as [sy| | |sy my ey]; cbn [units finite_float SFcompare];
    try tauto; intros Hx Hy;
    try apply units_pos in Hx as Px; try apply units_pos in Hy as Py; f_equal.
  - destruct sy; symmetry; [apply Z.compare_gt_iff|apply Z.compare_lt_iff]; lia.
  - destruct sx; symmetry; [apply Z.compare_lt_iff|apply Z.compare_gt_iff]; lia.
  - destruct sx, sy.
    + rewrite Z.compare_opp, (Z.compare_antisym (Zpos mx * _)), <- units_compare by assumption.
      destruct (ex ?= ey); reflexivity.
    + symmetry. apply Z.compare_lt_iff. lia.
    + symmetry. apply Z.compare_gt_iff. lia.
    + apply units_compare; assumption.
Qed.

Lemma leb_units x y :
  finite_float x -> finite_float y -> SFleb x y = (units x <=? units y).
Proof.
  intros Hx Hy. unfold SFleb, Z.leb. rewrite compare_units by assumption.
  destruct (units x ?= units y); reflexivity.
Qed.

(** *** Rounding *)

Lemma pos_iter_xO m p : Zpos (Pos.iter xO m p) = Zpos m * 2 ^ Zpos p.
Proof.
  induction p as [|p IH] using Pos.peano_ind; [simpl; lia|].
  rewrite Pos.iter_succ, Pos2Z.inj_succ, Z.pow_succ_r, Pos2Z.inj_xO, IH by lia. ring.
Qed.

(** Aligning to an exponent not above keeps the value. *)
Lemma shl_align_value m e f mz ez :
  emin <= e -> emin <= f -> shl_align m e f = (mz, ez) ->
  ez = Z.min e f /\ Zpos mz = Zpos m * 2 ^ (e - ez).
Proof.
  intros He Hf. unfold shl_align. destruct (f - e) eqn:Hd; intros [= <- <-].
  - split; [lia|]. rewrite Z.sub_diag. lia.
  - split; [lia|]. rewrite Z.sub_diag. lia.
  - split; [lia|]. rewrite pos_iter_xO. do 2 f_equal. lia.
Qed.

(** The rounding step on a mantissa already at or below the target exponent. *)
Lemma shr_fexp_rounds m e :
  e <= fexp prec emax (Zpos (digits2_pos m) + e) ->
  let f := fexp prec emax (Zpos (digits2_pos m) + e) in
  let '(mrs, e') := shr_fexp prec emax (Zpos m) e loc_Exact in
  e' = f /\ round_nearest_even (shr_m mrs) (loc_of_shr_record mrs) = rne (Zpos m) (f - e).
Proof.
  intros Hf f. unfold shr_fexp, shr. simpl Zdigits2. fold f in Hf |- *.
  cbn [shr_record_of_loc]. destruct (f - e) as [|p|p] eqn:Hd; [| |lia].
  - split; [lia|]. unfold rne. cbn [shr_m loc_of_shr_record round_nearest_even]. simpl.
    rewrite Z.div_1_r, Z.mod_1_r. reflexivity.
  - split; [lia|]. rewrite iter_pos_nat. apply shifted_rounds; [lia|].
    pose proof (shifted_iter (Zpos m) (Pos.to_nat p) ltac:(lia)) as Hs.
    rewrite positive_nat_Z in Hs. assumption.
Qed.

(** Its range: at most [prec] bits, or the next power of two. *)
Lemma rne_range m e :
  let f := fexp prec emax (Zpos (digits2_pos m) + e) in
  emin <= e <= f ->
  0 < rne (Zpos m) (f - e) <= 2 ^ prec /\ (emin < f -> 2 ^ (prec - 1) <= rne (Zpos m) (f - e)).
Proof.
  intros f Hf. pose proof (digits_bounds m) as [H1 H2].
  assert (f = Z.max (Zpos (digits2_pos m) + e - prec) emin) as Hfd by reflexivity.
  set (d := Zpos (digits2_pos m)) in *. clearbody f d.
  assert (rne (Zpos m) (f - e) <= 2 ^ prec) as Hle.
  { rewrite <- (rne_exact (2 ^ prec) (f - e)) by lia. apply rne_mono; [lia|].
    rewrite <- Z.pow_add_r by lia. transitivity (2 ^ d); [lia|]. apply Z.pow_le_mono_r; lia. }
  destruct (Z.eq_dec f emin) as [Heq|Hne].
  - assert (f - e = 0) as Hz by lia. rewrite Hz in *.
    pose proof (rne_exact (Zpos m) 0 ltac:(lia)) as Hr.
    rewrite Z.pow_0_r, Z.mul_1_r in Hr. rewrite Hr in *. lia.
  - assert (2 ^ (prec - 1) <= rne (Zpos m) (f - e)) as Hge.
    { rewrite <- (rne_exact (2 ^ (prec - 1)) (f - e)) by lia. apply rne_mono; [lia|].
      rewrite <- Z.pow_add_r by lia. replace (prec - 1 + (f - e)) with (d - 1) by lia. assumption. }
    pose proof (pow2_pos (prec - 1) ltac:(lia)). lia.
Qed.

(** The second normalization: nothing to do, or the carry into one more bit. *)
Lemma renormalize s z f :
  0 < z <= 2 ^ prec -> emin <= f -> (emin < f -> 2 ^ (prec - 1) <= z) ->
  z * 2 ^ (f - emin) < 2 ^ (emax - emin) ->
  let x :=
    let '(mrs, e) := shr_fexp prec emax z f loc_Exact in
    match shr_m mrs with
    | Z0 => S754_zero s
    | Zpos m => if e <=? emax - prec then S754_finite s m e else S754_infinity s
    | _ => S754_nan
    end in
  finite_float x /\ units x = if s then - (z * 2 ^ (f - emin)) else z * 2 ^ (f - emin).
Proof.
  intros Hz Hf Hmin Hmax.
  assert (emin = 3 - emax - prec) as Hemin by reflexivity.
  assert (z = 2 ^ prec -> f + 1 <= emax - prec) as Hcarry.
  { intros ->. rewrite <- Z.pow_add_r in Hmax by lia. apply Z.pow_lt_mono_r_iff in Hmax; lia. }
  assert (z < 2 ^ prec -> f <= emax - prec) as Hlast.
  { intros _. destruct (Z.eq_dec f emin) as [|Hne]; [lia|].
    assert (2 ^ (prec - 1) * 2 ^ (f - emin) < 2 ^ (emax - emin)) as Hb.
    { eapply Z.le_lt_trans; [|apply Hmax]. pose proof (pow2_pos (f - emin) ltac:(lia)).
      apply Z.mul_le_mono_nonneg_r; [lia|]. apply Hmin. lia. }
    rewrite <- Z.pow_add_r in Hb by lia. apply Z.pow_lt_mono_r_iff in Hb; lia. }
  destruct (Z.eq_dec z (2 ^ prec)) as [Heq|Hne].
  - specialize (Hcarry Heq). subst z.
    destruct (2 ^ prec) as [|p|p] eqn:Hp; [lia| |lia].
    assert (Zpos (digits2_pos p) = prec + 1) as Hd
      by (rewrite digits_log2, <- Hp, Z.log2_pow2 by lia; reflexivity).
    unfold shr_fexp. cbn [Zdigits2]. rewrite Hd.
    replace (fexp prec emax (prec + 1 + f) - f) with 1 by (unfold fexp; lia).
    assert (exists q, p = xO q /\ Zpos q = 2 ^ (prec - 1)) as (q & -> & Hq).
    { assert (2 ^ prec = 2 * 2 ^ (prec - 1)) as Hs
        by (rewrite <- Z.pow_succ_r by lia; f_equal; lia).
      pose proof (pow2_pos (prec - 1) ltac:(lia)).
      destruct (2 ^ (prec - 1)) as [|q|q] eqn:Hq; [lia| |lia]. exists q. split; [|reflexivity].
      rewrite Hp in Hs. injection Hs as ->. reflexivity. }
    cbn [shr shr_record_of_loc iter_pos shr_1 shr_m]. destruct (Z.leb_spec (f + 1) (emax - prec)); [|lia].
    split.
    + apply bounded_facts. rewrite digits_log2, Hq, Z.log2_pow2 by lia. lia.
    + cbn [units]. replace (f + 1 - emin) with (Z.succ (f - emin)) by lia.
      rewrite Z.pow_succ_r by lia. change (Zpos q~0) with (2 * Zpos q).
      generalize (Zpos q) (2 ^ (f - emin)). intros. destruct s; ring.
  - assert (z < 2 ^ prec) as Hlt by lia. specialize (Hlast Hlt).
    destruct z as [|p|p]; [lia| |lia].
    assert (Zpos (digits2_pos p) <= prec) as Hd.
    { rewrite digits_log2. apply Z.log2_lt_pow2 in Hlt; lia. }
    assert (emin < f -> Zpos (digits2_pos p) = prec) as Hd'.
    { intros He. specialize (Hmin He). pose proof (digits_bounds p) as [_ Hup].
      assert (2 ^ (prec - 1) < 2 ^ Zpos (digits2_pos p)) as Hpow by lia.
      apply Z.pow_lt_mono_r_iff in Hpow; lia. }
    unfold shr_fexp. cbn [Zdigits2].
    assert (fexp prec emax (Zpos (digits2_pos p) + f) - f <= 0) as Hn by (unfold fexp; lia).
    assert (shr (shr_record_of_loc (Zpos p) loc_Exact) f
      (fexp prec emax (Zpos (digits2_pos p) + f) - f) = (shr_record_of_loc (Zpos p) loc_Exact, f)) as ->.
    { unfold shr. destruct (_ - f); [reflexivity|lia|reflexivity]. }
    cbn [shr_record_of_loc shr_m]. destruct (Z.leb_spec f (emax - prec)); [|lia].
    split; [|reflexivity]. apply bounded_facts. lia.
Qed.

(** Rounding a whole number of units that does not overflow. *)
Lemma binary_round_units s m e :
  emin <= e -> rnd_pos (Zpos m * 2 ^ (e - emin)) < 2 ^ (emax - emin) ->
  finite_float (binary_round prec emax s m e) /\
  units (binary_round prec emax s m e) =
    if s then - rnd_pos (Zpos m * 2 ^ (e - emin)) else rnd_pos (Zpos m * 2 ^ (e - emin)).
Proof.
  intros He Hmax. unfold binary_round.
  set (f0 := fexp prec emax (Zpos (digits2_pos m) + e)).
  assert (emin <= f0) as Hf0 by (unfold f0, fexp; lia).
  destruct (shl_align m e f0) as [mz ez] eqn:Hal.
  apply shl_align_value in Hal as [Hez Hmz]; [|assumption..].
  assert (Zpos mz * 2 ^ (ez - emin) = Zpos m * 2 ^ (e - emin)) as Hval.
  { rewrite Hmz, <- Z.mul_assoc, <- Z.pow_add_r by lia. do 2 f_equal. lia. }
  assert (Zpos (digits2_pos mz) + ez = Zpos (digits2_pos m) + e) as Hdig.
  { rewrite !digits_log2, Hmz, log2_mul_pow by lia. lia. }
  assert (fexp prec emax (Zpos (digits2_pos mz) + ez) = f0) as Hf by (rewrite Hdig; reflexivity).
  assert (rnd_pos (Zpos m * 2 ^ (e - emin)) = rne (Zpos mz) (f0 - ez) * 2 ^ (f0 - emin)) as Hrnd.
  { rewrite <- Hval. unfold rnd_pos. rewrite log2_mul_pow by lia.
    assert (Z.max 0 (Z.log2 (Zpos mz) + (ez - emin) + 1 - prec) = f0 - emin) as ->.
    { rewrite <- Hf. unfold fexp. rewrite digits_log2. lia. }
    rewrite <- (rne_scale (Zpos mz) (f0 - ez) (ez - emin)) by lia. do 2 f_equal. lia. }
  pose proof (shr_fexp_rounds mz ez) as Hshr. pose proof (rne_range mz ez) as Hrange.
  cbv zeta in Hshr, Hrange. rewrite Hf in Hshr, Hrange. specialize (Hshr ltac:(lia)).
  destruct Hrange as [Hrange Hmin]; [lia|]. unfold binary_round_aux.
  destruct (shr_fexp prec emax (Zpos mz) ez loc_Exact) as [mrs e']. destruct Hshr as [-> ->].
  rewrite Hrnd in Hmax |- *. apply renormalize; assumption.
Qed.

Lemma binary_normalize_units m e z :
  emin <= e -> Z.abs (rnd (m * 2 ^ (e - emin))) < 2 ^ (emax - emin) ->
  finite_float (binary_normalize prec emax m e z) /\
  units (binary_normalize prec emax m e z) = rnd (m * 2 ^ (e - emin)).
Proof.
  intros He Hmax. pose proof (pow2_pos (e - emin) ltac:(lia)). destruct m as [|m|m].
  - split; [exact I|reflexivity].
  - rewrite rnd_nonneg in Hmax |- * by lia. apply (binary_round_units false); lia.
  - change (Zneg m) with (- Zpos m) in Hmax |- *. rewrite Z.mul_opp_l, rnd_opp in Hmax |- *.
    rewrite rnd_nonneg in Hmax |- * by lia. apply (binary_round_units true); lia.
Qed.

(** Addition is the rounded addition of the units. *)
Lemma add_units x y :
  finite_float x -> finite_float y -> Z.abs (rnd (units x + units y)) < 2 ^ (emax - emin) ->
  finite_float (SFadd prec emax x y) /\ units (SFadd prec emax x y) = rnd (units x + units y).
Proof.
  intros Hx Hy Hmax.
  destruct x as [sx| | |sx mx ex], y as [sy| | |sy my ey]; try contradiction.
  - destruct sx, sy; split; try exact I; reflexivity.
  - cbn [SFadd]. split; [assumption|]. change (units (S754_zero sx)) with 0.
    rewrite Z.add_0_l, units_repr by assumption. reflexivity.
  - cbn [SFadd]. split; [assumption|]. change (units (S754_zero sy)) with 0.
    rewrite Z.add_0_r, units_repr by assumption. reflexivity.
  - apply bounded_facts in Hx, Hy. cbn [SFadd]. set (ez := Z.min ex ey).
    assert (forall s m e, emin <= e -> ez <= e -> emin <= ez ->
      cond_Zopp s (Zpos (fst (shl_align m e ez))) * 2 ^ (ez - emin) =
      units (S754_finite s m e)) as Hal.
    { intros s m e H1 H2 H3. destruct (shl_align m e ez) as [mz ez'] eqn:Ha.
      apply shl_align_value in Ha as [Hez Hmz]; [|lia..]. replace ez' with ez in * by lia.
      assert (Zpos mz * 2 ^ (ez - emin) = Zpos m * 2 ^ (e - emin)) as Hv.
      { rewrite Hmz, <- Z.mul_assoc, <- Z.pow_add_r by lia. do 2 f_equal. lia. }
      cbn [fst units cond_Zopp]. destruct s; cbn [cond_Zopp]; lia. }
    rewrite <- (Hal sx mx ex), <- (Hal sy my ey), <- Z.mul_add_distr_r in Hmax |- * by lia.
    apply binary_normalize_units; [lia|assumption].
Qed.

End format.
