(* ===== verification/FaDtw.v ===== *)
(** * Dynamic time warping for forced alignment

    Models [crates/batchalign-fa-core/src/lib.rs]: the validated cost matrix,
    the warp with open or closed begin and its backtrace, the lexical frame
    alignment built on it, the median filter and the token jump times.

    The arithmetic is a class: the matrix values ([f32]), the accumulated costs
    ([f64]), and the operations the source applies to them. [float_costs] is
    the source's own: binary32 values and binary64 sums, rounded to nearest,
    ties to even. What needs no law of the arithmetic is proved for every
    instance; the optimality and the median are proved of [float_costs]. Every
    index of the source can panic here, as in the aligner. The column
    standardization and the scaling of a jump frame to seconds are not
    modelled. *)

From S2P Require Import Prelude WorkControl.
From stdpp Require Import base decidable option list list_numbers sets numbers sorting.
From Stdlib Require Import SpecFloat.

Open Scope Z_scope.
Open Scope rust_scope.

Class CostOps := {
  Value : Type;
  Cost : Type;
  value_zero : Value;
  value_is_finite : Value -> bool;
  value_total_leb : Value -> Value -> bool;
  cost_zero : Cost;
  cost_infinity : Cost;
  (** [f64::from(value) + cost]. *)
  cost_add : Value -> Cost -> Cost;
  cost_leb : Cost -> Cost -> bool
}.

(** ** The floats *)

Definition float_is_finite (x : spec_float) : bool :=
  match x with S754_zero _ | S754_finite _ _ _ => true | _ => false end.

(** [f64::from(f32)], exact. *)
Definition f64_from_f32 (x : spec_float) : spec_float :=
  match x with S754_finite s m e => binary_round 53 1024 s m e | _ => x end.

(** [f32::total_cmp(..).is_le()] on the finite values a matrix holds: [-0.0]
    comes before [0.0]. *)
Definition float_total_leb (x y : spec_float) : bool :=
  match x, y with
  | S754_zero false, S754_zero true => false
  | _, _ => SFleb x y
  end.

#[export] Instance float_costs : CostOps := {|
  Value := spec_float;
  Cost := spec_float;
  value_zero := S754_zero false;
  value_is_finite := float_is_finite;
  value_total_leb := float_total_leb;
  cost_zero := S754_zero false;
  cost_infinity := S754_infinity false;
  cost_add := fun v c => SFadd 53 1024 (f64_from_f32 v) c;
  cost_leb := SFleb
|}.

(** A computation that may panic. *)
Abbreviation Run := (Work Uninterrupted).

Section fa.
Context `{CostOps}.

Record CostMatrix := mkMatrix {
  rows : nat;
  cols : nat;
  values : list Value
}.

Inductive FaDtwError :=
| NonFinite (offset : nat)
| ShapeMismatch (r c : nat) (len : nat)
| Empty (r c : nat)
| EvenFilterWidth (width : nat).

(** [iter().position(..)]. *)
Fixpoint position {A} (p : A -> bool) (l : list A) : option nat :=
  match l with
  | [] => None
  | x :: l => if p x then Some 0%nat else S <$> position p l
  end.

(** [CostMatrix::new]; [rows.checked_mul(cols)] is [None] past [usize]. *)
Definition matrix_new (r c : nat) (vs : list Value) : result FaDtwError CostMatrix :=
  if (r =? 0)%nat || (c =? 0)%nat then Err (Empty r c)
  else if (usize_max <? Z.of_nat r * Z.of_nat c) || negb (r * c =? length vs)%nat
  then Err (ShapeMismatch r c (length vs))
  else match position (fun v => negb (value_is_finite v)) vs with
       | Some i => Err (NonFinite i)
       | None => Ok (mkMatrix r c vs)
       end.

Definition at_ (mx : CostMatrix) (r c : nat) : Run Value := index (values mx) (r * cols mx + c).

(** A point of a path: [text_idx], [time_idx]. *)
Abbreviation PathPoint := (nat * nat)%type.

Inductive BeginBoundary :=
| Closed
| Open.

(** One cell: the least of the three neighbours, ties to the diagonal and then
    to the text axis. *)
Definition choose (c0 c1 c2 : Cost) : Cost * Z :=
  if cost_leb c0 c1 && cost_leb c0 c2 then (c0, 0)
  else if cost_leb c1 c2 then (c1, 1)
  else (c2, 2).

Definition warp_cell (mx : CostMatrix) (width i j : nat) (tables : list Cost * list Z)
    : Run (list Cost * list Z) :=
  let '(cost, trace) := tables in
  let! c0 := index cost ((i - 1) * width + (j - 1)) in
  let! c1 := index cost ((i - 1) * width + j) in
  let! c2 := index cost (i * width + (j - 1)) in
  let '(best, mv) := choose c0 c1 c2 in
  let! v := at_ mx (i - 1) (j - 1) in
  let! cost := store cost (i * width + j) (cost_add v best) in
  let! trace := store trace (i * width + j) mv in
  ret (cost, trace).

Definition initial_costs (begin : BeginBoundary) (n width : nat) : list Cost :=
  let cost := <[0%nat := cost_zero]> (replicate ((n + 1) * width) cost_infinity) in
  match begin with
  | Closed => cost
  | Open => replicate width cost_zero ++ drop width cost
  end.

Definition warp_tables (mx : CostMatrix) (begin : BeginBoundary) : Run (list Cost * list Z) :=
  let n := rows mx in
  let m := cols mx in
  let width := (m + 1)%nat in
  for_each (seq 1 n) (fun i tables =>
    for_each (seq 1 m) (fun j tables => warp_cell mx width i j tables) tables)
    (initial_costs begin n width, replicate ((n + 1) * width) 255).

(** The cell a move came from. *)
Definition previous (mv : Z) (i j : nat) : nat * nat :=
  if mv =? 0 then ((i - 1)%nat, (j - 1)%nat)
  else if mv =? 1 then ((i - 1)%nat, j)
  else (i, (j - 1)%nat).

Fixpoint backtrace (fuel width : nat) (trace : list Z) (i j : nat) (path : list PathPoint)
    : Run (list PathPoint) :=
  if negb ((0 <? i)%nat && (0 <? j)%nat) then ret path
  else
    match fuel with
    | O => fault OutOfFuel
    | S fuel =>
        let path := path ++ [((i - 1)%nat, (j - 1)%nat)] in
        let! mv := index trace (i * width + j) in
        let '(i, j) := previous mv i j in
        backtrace fuel width trace i j path
    end.

Definition warp (mx : CostMatrix) (begin : BeginBoundary) : Run (list PathPoint) :=
  let width := (cols mx + 1)%nat in
  let! (_, trace) := warp_tables mx begin in
  let! path := backtrace (rows mx + cols mx) width trace (rows mx) (cols mx) [] in
  ret (rev path).

Definition dynamic_time_warping (mx : CostMatrix) : Run (result FaDtwError (list PathPoint)) :=
  let! path := warp mx Closed in ret (Ok path).

(** [LexicalFrameAlignment::align]: the frame at which each row is entered. *)
Definition row_entries_of (path : list PathPoint) : list nat :=
  foldl (fun entries '(text_idx, time_idx) =>
    if (text_idx =? length entries)%nat then entries ++ [time_idx] else entries) [] path.

Definition lexical_frame_align (mx : CostMatrix) : Run (list nat) :=
  let! path := warp mx Open in ret (row_entries_of path).

(** [token_jump_times_s], as frame indices: the source scales each by the
    20 ms frame. *)
Definition token_jump_frames (path : list PathPoint) : list nat :=
  (foldl (fun '(out, prev) '(text_idx, time_idx) =>
    if bool_decide (prev = Some text_idx) then (out, prev)
    else (out ++ [time_idx], Some text_idx)) ([], None) path).1.

(** ** The median filter *)

(** The reflected index of window slot [k] at column [c]. *)
Definition reflect_index (n half c k : nat) : nat :=
  let idx := Z.of_nat c + Z.of_nat k - Z.of_nat half in
  if idx <? 0 then Z.to_nat (- idx)
  else if Z.of_nat n <=? idx then (2 * (n - 1) - Z.to_nat idx)%nat
  else Z.to_nat idx.

Definition value_le (a b : Value) : Prop := value_total_leb a b = true.
#[global] Instance value_le_dec : RelDecision value_le.
Proof. unfold value_le. intros a b. apply _. Defined.

Definition effective_width (n width : nat) : nat :=
  Nat.min width (if (n mod 2 =? 0)%nat then n - 1 else n).

(** One filtered sample: the middle of the sorted window. *)
Definition filter_sample (n width : nat) (original : list Value) (c : nat) : Run Value :=
  let half := (width / 2)%nat in
  let! window := for_each (seq 0 width) (fun k window =>
    let! v := index original (reflect_index n half c k) in
    store window k v) (replicate width value_zero) in
  index (merge_sort value_le window) half.

Definition filter_row (n width row_start : nat) (vs : list Value) : Run (list Value) :=
  let! original := slice_range vs row_start (row_start + n) in
  for_each (seq 0 n) (fun c vs =>
    let! v := filter_sample n width original c in
    store vs (row_start + c) v) vs.

Definition median_filter_rows (mx : CostMatrix) (width : nat)
    : Run (result FaDtwError CostMatrix) :=
  if (width mod 2 =? 0)%nat then ret (Err (EvenFilterWidth width))
  else if (width <=? 1)%nat || (cols mx =? 1)%nat then ret (Ok mx)
  else
    let width := effective_width (cols mx) width in
    let! vs := for_each (seq 0 (rows mx)) (fun r vs =>
      filter_row (cols mx) width (r * cols mx) vs) (values mx) in
    ret (Ok (mkMatrix (rows mx) (cols mx) vs)).

End fa.
