(* ===== verification/FaDtwFacts.v ===== *)
(** * Correctness of the warp and of the median filter

    The geometry of a warp path (legal moves, inside the matrix, ending in the
    last cell) and the index safety of every table and window access hold for
    any arithmetic. The optimality argument is made once, against the laws of
    [CostLaws], which hold of the values a matrix may hold and the costs that
    accumulate from them; [float_laws] proves the laws of finite [f32] values
    and [f64] sums, so the theorems on the cheapest path, the lexical alignment
    and the median filter are about the source's floats. *)

From S2P Require Import Prelude WorkControl FloatFacts FaDtw.
From stdpp Require Import base decidable option list list_numbers sets numbers sorting.

Open Scope Z_scope.

(** ** Paths *)

(** The moves of a monotone path: diagonal, down, right. *)
Definition next (a b : nat * nat) : Prop :=
  b = (S a.1, S a.2) \/ b = (S a.1, a.2) \/ b = (a.1, S a.2).

(** [walk a l b]: [l] goes from [a] to [b] by legal moves. *)
Inductive walk (a : nat * nat) : list (nat * nat) -> nat * nat -> Prop :=
| walk_one : walk a [a] a
| walk_snoc l b c : walk a l b -> next b c -> walk a (l ++ [c]) c.

Lemma walk_bounds a l b :
  walk a l b -> (a.1 <= b.1)%nat /\ (a.2 <= b.2)%nat /\
  Forall (fun p => (a.1 <= p.1 <= b.1)%nat /\ (a.2 <= p.2 <= b.2)%nat) l.
Proof.
  induction 1 as [|l b c Hw (H1 & H2 & Hall) Hn].
  - split_and!; [lia..|]. repeat constructor; lia.
  - assert ((b.1 <= c.1)%nat /\ (b.2 <= c.2)%nat) by (destruct Hn as [->|[->| ->]]; simpl; lia).
    split_and!; [lia..|]. apply Forall_app. split; [|repeat constructor; lia].
    eapply Forall_impl; [apply Hall|]. intros p; simpl. lia.
Qed.

Section tables.
Context `{CostOps}.
Implicit Types (mx : CostMatrix) (cost : list Cost) (trace : list Z).

Definition matrix_ok mx : Prop :=
  (0 < rows mx)%nat /\ (0 < cols mx)%nat /\ length (values mx) = (rows mx * cols mx)%nat /\
  Forall (fun v => value_is_finite v = true) (values mx).

Lemma position_none {A} (p : A -> bool) l :
  position p l = None <-> Forall (fun x => p x = false) l.
Proof.
  induction l as [|x l IH]; simpl; [by split|]. rewrite Forall_cons_iff, <- IH.
  destruct (p x), (position p l); simpl; intuition congruence.
Qed.

Lemma position_some {A} (p : A -> bool) l i :
  position p l = Some i ->
  (exists x, l !! i = Some x /\ p x = true) /\
  forall k x, (k < i)%nat -> l !! k = Some x -> p x = false.
Proof.
  revert i. induction l as [|x l IH]; intros i; simpl; [done|]. destruct (p x) eqn:Hp.
  - intros [= <-]. split; [eauto|]. intros; lia.
  - destruct (position p l) as [k|]; simpl; intros [= <-]. destruct (IH k eq_refl) as [Hk Hlt].
    split; [done|]. intros [|k'] y Hlt' Hy; simpl in *; [congruence|]. apply (Hlt k'); [lia|done].
Qed.

Definition value_at mx i j : Value := default value_zero (values mx !! (i * cols mx + j)%nat).

Lemma at_spec {B} mx i j (k : Value -> Run B) Q :
  matrix_ok mx -> (i < rows mx)%nat -> (j < cols mx)%nat ->
  wp (k (value_at mx i j)) Q -> wp (bind (at_ mx i j) k) Q.
Proof.
  intros (_ & _ & Hlen & _) Hi Hj Hk. unfold at_, value_at in *.
  destruct (lookup_lt_is_Some_2 (values mx) (i * cols mx + j)) as [v Hv]; [rewrite Hlen; nia|].
  rewrite Hv in Hk. by eapply wp_index_step.
Qed.

(** What every filled cell records: the move is the chosen one and the cost
    extends the chosen neighbour. *)
Definition cell_ok mx cost trace (i j : nat) : Prop :=
  let width := (cols mx + 1)%nat in
  exists c0 c1 c2,
    cost !! ((i - 1) * width + (j - 1))%nat = Some c0 /\
    cost !! ((i - 1) * width + j)%nat = Some c1 /\
    cost !! (i * width + (j - 1))%nat = Some c2 /\
    cost !! (i * width + j)%nat =
      Some (cost_add (value_at mx (i - 1) (j - 1)) (choose c0 c1 c2).1) /\
    trace !! (i * width + j)%nat = Some (choose c0 c1 c2).2.

(** The cells of the rows before [i] and of row [i] before column [j]. *)
Definition before (i j i' j' : nat) : Prop :=
  (1 <= i')%nat /\ (1 <= j')%nat /\ ((i' < i)%nat \/ (i' = i /\ (j' < j)%nat)).

Definition tables_ok mx begin (D : nat -> nat -> Prop) (t : list Cost * list Z) : Prop :=
  let width := (cols mx + 1)%nat in
  length t.1 = ((rows mx + 1) * width)%nat /\ length t.2 = ((rows mx + 1) * width)%nat /\
  (forall i j, (i <= rows mx)%nat -> (j <= cols mx)%nat -> D i j -> cell_ok mx t.1 t.2 i j) /\
  (forall i j, (i <= rows mx)%nat -> (j <= cols mx)%nat -> i = 0%nat \/ j = 0%nat ->
     t.1 !! (i * width + j)%nat = initial_costs begin (rows mx) width !! (i * width + j)%nat).

Lemma length_initial begin n width :
  (0 < n + 1)%nat -> length (initial_costs begin n width) = ((n + 1) * width)%nat.
Proof.
  intros Hn. destruct begin; simpl.
  - by rewrite length_insert, length_replicate.
  - rewrite length_app, length_drop, length_insert, !length_replicate. nia.
Qed.

(** Storing the next cell in row order keeps the cells before it. *)
Lemma warp_cell_spec mx begin i j t :
  matrix_ok mx -> (1 <= i <= rows mx)%nat -> (1 <= j <= cols mx)%nat ->
  tables_ok mx begin (before i j) t ->
  wp (warp_cell mx (cols mx + 1) i j t) (tables_ok mx begin (before i (S j))).
Proof.
  intros Hmx Hi Hj (Hlc & Hlt & Hcells & Hborder). destruct t as [cost trace]; simpl in *.
  assert (forall a b, (a <= rows mx)%nat -> (b <= cols mx)%nat ->
    (a * (cols mx + 1) + b < (rows mx + 1) * (cols mx + 1))%nat) as Hlt'
    by (intros; nia).
  destruct (lookup_lt_is_Some_2 cost ((i - 1) * (cols mx + 1) + (j - 1))) as [c0 H0'];
    [rewrite Hlc; apply Hlt'; lia|].
  destruct (lookup_lt_is_Some_2 cost ((i - 1) * (cols mx + 1) + j)) as [c1 H1];
    [rewrite Hlc; apply Hlt'; lia|].
  destruct (lookup_lt_is_Some_2 cost (i * (cols mx + 1) + (j - 1))) as [c2 H2];
    [rewrite Hlc; apply Hlt'; lia|].
  unfold warp_cell. do 3 (eapply wp_index_step; [done|]).
  destruct (choose c0 c1 c2) as [best mv] eqn:Hch.
  apply at_spec; [done|lia|lia|].
  apply wp_store_step; [rewrite Hlc; apply Hlt'; lia|].
  apply wp_store_step; [rewrite Hlt; apply Hlt'; lia|]. apply wp_ret.
  split_and!; simpl; [by rewrite length_insert|by rewrite length_insert| |].
  - assert (forall a b, (a <= rows mx)%nat -> (b <= cols mx)%nat -> (a, b) <> (i, j) ->
      (i * (cols mx + 1) + j)%nat <> (a * (cols mx + 1) + b)%nat) as Hne.
    { intros a b Ha Hb Hab Heq. apply Hab. apply flat_inj in Heq as [<- <-]; [done|lia..]. }
    intros i' j' Hi' Hj' (Hi1 & Hj1 & Hb).
    destruct (decide (i' = i /\ j' = j)) as [[-> ->]|Hnot].
    + exists c0, c1, c2. rewrite Hch. simpl.
      rewrite !list_lookup_insert_ne by (apply Hne; [lia..|]; intros [=]; lia).
      rewrite !list_lookup_insert_eq by (rewrite ?Hlc, ?Hlt; apply Hlt'; lia). by split_and!.
    + assert (before i j i' j') as Hb' by (unfold before; lia).
      destruct (Hcells i' j' Hi' Hj' Hb') as (d0 & d1 & d2 & E0 & E1 & E2 & E3 & E4).
      exists d0, d1, d2. rewrite !list_lookup_insert_ne by (apply Hne; [lia..|]; intros [=]; lia).
      by split_and!.
  - intros a b Ha Hb Hz. rewrite list_lookup_insert_ne; [by apply Hborder|].
    intros Heq. apply flat_inj in Heq as [<- <-]; lia.
Qed.

Lemma warp_tables_spec mx begin :
  matrix_ok mx ->
  wp (warp_tables mx begin) (tables_ok mx begin (fun i j => (1 <= i)%nat /\ (1 <= j)%nat)).
Proof.
  intros Hmx. unfold warp_tables.
  apply (wp_for_seq _ _ _ (fun i => tables_ok mx begin (before i 1))).
  - split_and!; simpl; [apply length_initial; lia|by rewrite length_replicate| |done].
    unfold before. intros. lia.
  - intros i t Hi Ht. apply (wp_for_seq _ _ _ (fun j => tables_ok mx begin (before i j))).
    + done.
    + intros j t' Hj Ht'. apply warp_cell_spec; [done|lia|lia|done].
    + intros t' (L1 & L2 & Hc & Hb). split_and!; [done..| |done].
      intros i' j' Hi' Hj' Hbef. apply Hc; [done..|]. unfold before in *. lia.
  - intros t (L1 & L2 & Hc & Hb). split_and!; [done..| |done].
    intros i' j' Hi' Hj' [? ?]. apply Hc; [done..|]. unfold before. lia.
Qed.

(** ** The backtrace *)

Lemma previous_cases mv i j :
  (1 <= i)%nat -> (1 <= j)%nat ->
  let '(i', j') := previous mv i j in
  (i' + j' < i + j)%nat /\ (i' <= i <= i' + 1)%nat /\ (j' <= j <= j' + 1)%nat /\
  ((1 <= i')%nat -> (1 <= j')%nat -> next ((i' - 1)%nat, (j' - 1)%nat) ((i - 1)%nat, (j - 1)%nat)).
Proof.
  intros Hi Hj. unfold previous, next.
  destruct (mv =? 0); [|destruct (mv =? 1)]; simpl; split_and!; try lia; intros.
  - left. f_equal; lia.
  - right; left. f_equal; lia.
  - right; right. f_equal; lia.
Qed.

(** The reversed path is a legal walk that begins on the border where the
    backtrace stopped. *)
Lemma backtrace_spec mx begin t fuel i j path :
  tables_ok mx begin (fun i j => (1 <= i)%nat /\ (1 <= j)%nat) t ->
  (1 <= i <= rows mx)%nat -> (1 <= j <= cols mx)%nat -> (i + j <= fuel)%nat ->
  wp (backtrace fuel (cols mx + 1) t.2 i j path) (fun path' =>
    exists s l, path' = path ++ rev l /\ walk s l ((i - 1)%nat, (j - 1)%nat) /\
      (s.1 = 0%nat \/ s.2 = 0%nat)).
Proof.
  intros (Hlc & Hlt & Hcells & _). revert i j path.
  induction fuel as [|fuel IH]; intros i j path Hi Hj Hfuel; [lia|]. cbn [backtrace].
  destruct (Nat.ltb_spec 0 i); [|lia]. destruct (Nat.ltb_spec 0 j); [|lia]. simpl negb. cbv iota.
  destruct (Hcells i j) as (c0 & c1 & c2 & _ & _ & _ & _ & Htr); [lia..|].
  eapply wp_index_step; [done|]. pose proof (previous_cases (choose c0 c1 c2).2 i j) as Hp.
  destruct (previous (choose c0 c1 c2).2 i j) as [i' j'].
  destruct Hp as (Hsum & Hi' & Hj' & Hnext); [lia..|].
  destruct (decide (1 <= i' /\ 1 <= j')%nat) as [[Hi1 Hj1]|Hstop].
  - eapply wp_mono; [apply IH; lia|]. intros path' (s & l & -> & Hw & Hs).
    exists s, (l ++ [((i - 1)%nat, (j - 1)%nat)]). split_and!; [|econstructor; eauto|done].
    rewrite rev_app_distr. simpl. by rewrite <- app_assoc.
  - assert (negb ((0 <? i')%nat && (0 <? j')%nat) = true) as Hz.
    { destruct (Nat.ltb_spec 0 i'), (Nat.ltb_spec 0 j'); simpl; try done. lia. }
    destruct fuel; cbn [backtrace]; rewrite Hz; apply wp_ret;
      exists ((i - 1)%nat, (j - 1)%nat), [((i - 1)%nat, (j - 1)%nat)];
      (split_and!; [done|constructor|]); simpl.
    all: lia.
Qed.

End tables.

(** ** The laws of the arithmetic *)

(** An arithmetic restricted to the values a matrix may hold and the costs that
    accumulate from them: a total order, an infinity above the origin that no
    finite sum reaches, and a monotone addition. [float_laws] proves them of the
    source's [f32] values and [f64] costs. *)
Class CostLaws `{CostOps} (value_ok : Value -> Prop) (cost_ok : Cost -> Prop) : Prop := {
  value_zero_ok : value_ok value_zero;
  cost_zero_ok : cost_ok cost_zero;
  cost_infinity_ok : cost_ok cost_infinity;
  cost_add_ok : forall v a, value_ok v -> cost_ok a -> cost_ok (cost_add v a);
  cost_leb_refl : forall a, cost_ok a -> cost_leb a a = true;
  cost_leb_trans : forall a b c, cost_ok a -> cost_ok b -> cost_ok c ->
    cost_leb a b = true -> cost_leb b c = true -> cost_leb a c = true;
  cost_leb_total : forall a b, cost_ok a -> cost_ok b -> cost_leb a b = false -> cost_leb b a = true;
  zero_below_infinity : cost_leb cost_infinity cost_zero = false;
  cost_add_mono : forall v a b, value_ok v -> cost_ok a -> cost_ok b ->
    cost_leb a b = true -> cost_leb (cost_add v a) (cost_add v b) = true;
  cost_add_finite : forall v a, value_ok v -> cost_ok a -> cost_leb cost_infinity a = false ->
    cost_leb cost_infinity (cost_add v a) = false
}.

(** Membership in the list of the three neighbours. *)
Ltac solve_neighbour := rewrite !elem_of_cons; simpl; rewrite ?Nat.sub_0_r; auto.

Section optimal.
Context `{HL : CostLaws}.
#[local] Hint Extern 1 (cost_ok cost_zero) => apply cost_zero_ok : core.
#[local] Hint Extern 1 (cost_ok cost_infinity) => apply cost_infinity_ok : core.
#[local] Hint Extern 1 (cost_ok (cost_add _ _)) => apply cost_add_ok : core.
#[local] Hint Extern 1 (cost_leb ?a ?a = true) => apply cost_leb_refl : core.
Implicit Types (mx : CostMatrix) (t : list Cost * list Z) (begin : BeginBoundary).

Lemma finite_below a b :
  cost_ok a -> cost_ok b -> cost_leb a b = true -> cost_leb cost_infinity b = false -> cost_leb cost_infinity a = false.
Proof.
  intros Ha Hb Hab Hfin. destruct (cost_leb cost_infinity a) eqn:Hinf; [|done].
  assert (cost_leb cost_infinity b = true) by (apply (cost_leb_trans cost_infinity a b); auto).
  congruence.
Qed.

Lemma choose_spec c0 c1 c2 i j :
  cost_ok c0 -> cost_ok c1 -> cost_ok c2 ->
  let '(best, mv) := choose c0 c1 c2 in
  cost_leb best c0 = true /\ cost_leb best c1 = true /\ cost_leb best c2 = true /\
  ((previous mv i j = ((i - 1)%nat, (j - 1)%nat) /\ best = c0) \/
   (previous mv i j = ((i - 1)%nat, j) /\ best = c1) \/
   (previous mv i j = (i, (j - 1)%nat) /\ best = c2)).
Proof.
  intros K0 K1 K2. pose proof (cost_leb_total c0 c1 K0 K1) as T01.
  pose proof (cost_leb_total c0 c2 K0 K2) as T02. pose proof (cost_leb_total c1 c2 K1 K2) as T12.
  pose proof (cost_leb_trans c1 c2 c0 K1 K2 K0) as R120.
  pose proof (cost_leb_trans c2 c1 c0 K2 K1 K0) as R210.
  unfold choose. destruct (cost_leb c0 c1) eqn:H01, (cost_leb c0 c2) eqn:H02; simpl;
    [by split_and!; auto|destruct (cost_leb c1 c2) eqn:H12; split_and!; auto..].
Qed.

Definition cost_of mx t (i j : nat) : Cost :=
  default cost_infinity (t.1 !! (i * (cols mx + 1) + j)%nat).

(** Where a path may come from: the corner, or anywhere on the top border. *)
Definition origin begin (i j : nat) : Prop :=
  match begin with Closed => i = 0%nat /\ j = 0%nat | Open => i = 0%nat end.

#[local] Instance origin_dec begin i j : Decision (origin begin i j).
Proof. destruct begin; simpl; apply _. Defined.

Lemma initial_border begin n width i j :
  (i <= n)%nat -> (j < width)%nat -> i = 0%nat \/ j = 0%nat ->
  initial_costs begin n width !! (i * width + j)%nat =
  Some (if decide (origin begin i j) then cost_zero else cost_infinity).
Proof.
  intros Hi Hj Hz. assert (i * width + j < (n + 1) * width)%nat as Hlt by nia.
  assert (forall k, (k < (n + 1) * width)%nat -> k <> 0%nat ->
    <[0%nat := cost_zero]> (replicate ((n + 1) * width) cost_infinity) !! k = Some cost_infinity)
    as Hinf.
  { intros k Hk Hk0. rewrite list_lookup_insert_ne by done. by apply lookup_replicate_2. }
  destruct begin; simpl.
  - destruct (decide (i = 0%nat /\ j = 0%nat)) as [[-> ->]|Hnot].
    + simpl. apply list_lookup_insert_eq. rewrite length_replicate. lia.
    + apply Hinf; [done|]. nia.
  - destruct (decide (i = 0%nat)) as [->|Hnot].
    + simpl. rewrite lookup_app_l by (by rewrite length_replicate). by apply lookup_replicate_2.
    + rewrite lookup_app_r by (rewrite length_replicate; nia).
      rewrite length_replicate, lookup_drop. apply Hinf; nia.
Qed.

Lemma border_cost mx begin D t i j :
  tables_ok mx begin D t -> (i <= rows mx)%nat -> (j <= cols mx)%nat -> i = 0%nat \/ j = 0%nat ->
  cost_of mx t i j = if decide (origin begin i j) then cost_zero else cost_infinity.
Proof.
  intros (_ & _ & _ & Hb) Hi Hj Hz. unfold cost_of. rewrite Hb by done.
  by rewrite initial_border by (done || lia).
Qed.

Lemma value_at_ok mx i j : Forall value_ok (values mx) -> value_ok (value_at mx i j).
Proof.
  intros Hv. unfold value_at. destruct (values mx !! _) as [v|] eqn:Hl; simpl; [|apply value_zero_ok].
  by eapply Forall_lookup_1 in Hl.
Qed.

(** Every cell of the tables holds a cost of the arithmetic. *)
Lemma cost_of_ok mx begin t i j :
  Forall value_ok (values mx) ->
  tables_ok mx begin (fun i j => (1 <= i)%nat /\ (1 <= j)%nat) t ->
  (i <= rows mx)%nat -> (j <= cols mx)%nat -> cost_ok (cost_of mx t i j).
Proof.
  intros Hv Ht. pose proof Ht as (_ & _ & Hcells & _). remember (i + j)%nat as k eqn:Hk.
  revert i j Hk. induction k as [k IH] using lt_wf_ind. intros i j -> Hi Hj.
  destruct (decide (i = 0%nat \/ j = 0%nat)) as [Hz|Hz].
  { rewrite (border_cost mx begin _ t i j Ht) by done. case_decide; auto. }
  destruct (Hcells i j) as (c0 & c1 & c2 & E0 & E1 & E2 & E3 & _); [lia..|].
  pose proof (IH (i - 1 + (j - 1))%nat ltac:(lia) (i - 1)%nat (j - 1)%nat) as K0.
  pose proof (IH (i - 1 + j)%nat ltac:(lia) (i - 1)%nat j) as K1.
  pose proof (IH (i + (j - 1))%nat ltac:(lia) i (j - 1)%nat) as K2.
  unfold cost_of in *. rewrite E0 in K0. rewrite E1 in K1. rewrite E2 in K2. rewrite E3.
  simpl in *. apply cost_add_ok; [by apply value_at_ok|].
  unfold choose. destruct (_ && _); [apply K0; lia|]. destruct (cost_leb c1 c2); [apply K1|apply K2]; lia.
Qed.

(** One cell, in terms of the costs around it. *)
Lemma cell_facts mx begin t i j :
  Forall value_ok (values mx) ->
  tables_ok mx begin (fun i j => (1 <= i)%nat /\ (1 <= j)%nat) t ->
  (1 <= i <= rows mx)%nat -> (1 <= j <= cols mx)%nat ->
  exists mv, t.2 !! (i * (cols mx + 1) + j)%nat = Some mv /\
    (let '(i', j') := previous mv i j in
     cost_of mx t i j = cost_add (value_at mx (i - 1) (j - 1)) (cost_of mx t i' j')) /\
    forall a b, (a, b) ∈ [((i - 1)%nat, (j - 1)%nat); ((i - 1)%nat, j); (i, (j - 1)%nat)] ->
      let '(i', j') := previous mv i j in cost_leb (cost_of mx t i' j') (cost_of mx t a b) = true.
Proof.
  intros Hv Ht Hi Hj. pose proof Ht as (_ & _ & Hcells & _).
  destruct (Hcells i j) as (c0 & c1 & c2 & E0 & E1 & E2 & E3 & E4); [lia..|].
  exists (choose c0 c1 c2).2. split; [done|].
  assert (cost_of mx t (i - 1) (j - 1) = c0) as K0 by (unfold cost_of; by rewrite E0).
  assert (cost_of mx t (i - 1) j = c1) as K1 by (unfold cost_of; by rewrite E1).
  assert (cost_of mx t i (j - 1) = c2) as K2 by (unfold cost_of; by rewrite E2).
  assert (cost_of mx t i j = cost_add (value_at mx (i - 1) (j - 1)) (choose c0 c1 c2).1) as K3
    by (unfold cost_of; by rewrite E3).
  assert (forall a b, (a <= rows mx)%nat -> (b <= cols mx)%nat -> cost_ok (cost_of mx t a b)) as Hok
    by (intros; by eapply cost_of_ok).
  pose proof (choose_spec c0 c1 c2 i j) as Hch. rewrite <- K0, <- K1, <- K2 in Hch.
  specialize (Hch ltac:(apply Hok; lia) ltac:(apply Hok; lia) ltac:(apply Hok; lia)).
  rewrite K0, K1, K2 in Hch.
  destruct (choose c0 c1 c2) as [best mv]; simpl in *.
  destruct Hch as (L0 & L1 & L2 & [[-> ->]|[[-> ->]|[-> ->]]]); rewrite ?K0, ?K1, ?K2;
    (split; [done|]); intros a b Hab; rewrite !elem_of_cons in Hab;
    destruct Hab as [[= -> ->]|[[= -> ->]|[[= -> ->]|Hab%not_elem_of_nil]]];
    by rewrite ?K0, ?K1, ?K2.
Qed.

(** Every inner cell has a finite cost. *)
Lemma inner_finite mx begin t i j :
  Forall value_ok (values mx) ->
  tables_ok mx begin (fun i j => (1 <= i)%nat /\ (1 <= j)%nat) t ->
  (1 <= i <= rows mx)%nat -> (1 <= j <= cols mx)%nat ->
  cost_leb cost_infinity (cost_of mx t i j) = false.
Proof.
  intros Hv Ht. remember (i + j)%nat as k eqn:Hk. revert i j Hk.
  induction k as [k IH] using lt_wf_ind. intros i j -> Hi Hj.
  destruct (cell_facts mx begin t i j Hv Ht Hi Hj) as (mv & _ & Hcost & Hle).
  pose proof (previous_cases mv i j) as Hprev.
  destruct (previous mv i j) as [i' j']. destruct Hprev as (_ & Hi' & Hj' & _); [lia..|].
  assert (cost_ok (cost_of mx t i' j')) as Hok by (apply (cost_of_ok mx begin); [done..|lia|lia]).
  rewrite Hcost. apply cost_add_finite; [by apply value_at_ok|done|].
  assert (forall a b, (a, b) ∈ [((i - 1)%nat, (j - 1)%nat); ((i - 1)%nat, j); (i, (j - 1)%nat)] ->
    (1 <= a)%nat /\ (1 <= b)%nat \/ origin begin a b ->
    cost_leb cost_infinity (cost_of mx t i' j') = false) as Hvia.
  { intros a b Hab Hor. pose proof (Hle a b Hab) as Hab'. rewrite !elem_of_cons in Hab.
    assert ((a <= i)%nat /\ (b <= j)%nat /\ (a + b < i + j)%nat) as (? & ? & ?).
    { destruct Hab as [[= -> ->]|[[= -> ->]|[[= -> ->]|Hab%not_elem_of_nil]]]; [lia..|done]. }
    eapply finite_below; [done|apply (cost_of_ok mx begin t a b); [done..|lia|lia]|done|].
    destruct (decide (a = 0%nat \/ b = 0%nat)) as [Hz|Hz].
    - rewrite (border_cost mx begin _ t a b Ht) by lia. destruct (decide _) as [|Hno].
      + apply zero_below_infinity.
      + destruct Hor; [lia|done].
    - apply (IH (a + b)%nat); lia. }
  destruct (decide (2 <= i)%nat); [apply (Hvia (i - 1)%nat j); [solve_neighbour|left; lia]|].
  destruct (decide (2 <= j)%nat); [|apply (Hvia (i - 1)%nat (j - 1)%nat); [solve_neighbour|]].
  - apply (Hvia i (j - 1)%nat); [solve_neighbour|left; lia].
  - right. destruct begin; simpl; lia.
Qed.

(** The cost of a path, accumulated in its order. *)
Definition path_cost mx (l : list (nat * nat)) : Cost :=
  foldl (fun acc p => cost_add (value_at mx p.1 p.2) acc) cost_zero l.

Lemma path_cost_ok mx l : Forall value_ok (values mx) -> cost_ok (path_cost mx l).
Proof.
  intros Hv. unfold path_cost. induction l as [|p l IH] using rev_ind; [simpl; auto|].
  rewrite foldl_snoc. apply cost_add_ok; [by apply value_at_ok|done].
Qed.

(** No legal path to a cell costs less than the table says. *)
Lemma table_lower_bound mx begin t s l b :
  Forall value_ok (values mx) ->
  tables_ok mx begin (fun i j => (1 <= i)%nat /\ (1 <= j)%nat) t ->
  origin begin s.1 s.2 -> walk s l b -> (b.1 < rows mx)%nat -> (b.2 < cols mx)%nat ->
  cost_leb (cost_of mx t (S b.1) (S b.2)) (path_cost mx l) = true.
Proof.
  intros Hv Ht Hs. pose proof (fun i j => cost_of_ok mx begin t i j Hv Ht) as Hok.
  induction 1 as [|l b c Hw IH Hn]; intros H1 H2.
  - destruct (cell_facts mx begin t (S s.1) (S s.2) Hv Ht) as (mv & _ & Hcost & Hle); [lia..|].
    pose proof (previous_cases mv (S s.1) (S s.2)) as Hp.
    destruct (previous mv _ _) as [i' j']. destruct Hp as (_ & Hi' & Hj' & _); [lia..|].
    rewrite Hcost. simpl. rewrite !Nat.sub_0_r in *.
    apply cost_add_mono; [by apply value_at_ok|apply Hok; lia|auto|].
    pose proof (Hle s.1 s.2 ltac:(solve_neighbour)) as Hz.
    rewrite (border_cost mx begin _ t s.1 s.2 Ht) in Hz by (destruct begin; simpl in Hs; lia).
    by rewrite decide_True in Hz.
  - assert ((b.1 <= c.1)%nat /\ (b.2 <= c.2)%nat) as [? ?]
      by (destruct Hn as [->|[->| ->]]; simpl; lia).
    destruct (cell_facts mx begin t (S c.1) (S c.2) Hv Ht) as (mv & _ & Hcost & Hle); [lia..|].
    pose proof (previous_cases mv (S c.1) (S c.2)) as Hp.
    destruct (previous mv _ _) as [i' j']. destruct Hp as (_ & Hi' & Hj' & _); [lia..|].
    rewrite Hcost. unfold path_cost. rewrite foldl_snoc. simpl. rewrite !Nat.sub_0_r in *.
    pose proof (path_cost_ok mx l Hv) as Hl.
    apply cost_add_mono; [by apply value_at_ok|apply Hok; lia|exact Hl|].
    eapply (cost_leb_trans _ (cost_of mx t (S b.1) (S b.2))); [apply Hok; lia..|exact Hl| |apply IH; lia].
    apply (Hle (S b.1) (S b.2)). destruct Hn as [->|[->| ->]]; simpl; solve_neighbour.
Qed.

(** The backtrace finds a path whose cost is the table's. *)
Lemma backtrace_cost mx begin t fuel i j path :
  Forall value_ok (values mx) -> tables_ok mx begin (fun i j => (1 <= i)%nat /\ (1 <= j)%nat) t ->
  (1 <= i <= rows mx)%nat -> (1 <= j <= cols mx)%nat -> (i + j <= fuel)%nat ->
  wp (backtrace fuel (cols mx + 1) t.2 i j path) (fun path' =>
    exists s l, path' = path ++ rev l /\ walk s l ((i - 1)%nat, (j - 1)%nat) /\
      origin begin s.1 s.2 /\ path_cost mx l = cost_of mx t i j).
Proof.
  intros Hv Ht. revert i j path.
  induction fuel as [|fuel IH]; intros i j path Hi Hj Hfuel; [lia|]. cbn [backtrace].
  destruct (Nat.ltb_spec 0 i); [|lia]. destruct (Nat.ltb_spec 0 j); [|lia]. simpl negb. cbv iota.
  destruct (cell_facts mx begin t i j Hv Ht Hi Hj) as (mv & Htr & Hcost & Hle).
  pose proof (inner_finite mx begin t i j Hv Ht Hi Hj) as Hfin.
  eapply wp_index_step; [done|]. pose proof (previous_cases mv i j) as Hp.
  destruct (previous mv i j) as [i' j']. destruct Hp as (Hsum & Hi' & Hj' & Hnext); [lia..|].
  destruct (decide (1 <= i' /\ 1 <= j')%nat) as [[Hi1 Hj1]|Hstop].
  - eapply wp_mono; [apply IH; lia|]. intros path' (s & l & -> & Hw & Hs & Hc).
    exists s, (l ++ [((i - 1)%nat, (j - 1)%nat)]). split_and!; [|econstructor; eauto|done|].
    + rewrite rev_app_distr. simpl. by rewrite <- app_assoc.
    + unfold path_cost in *. rewrite foldl_snoc, Hcost, Hc. done.
  - assert (cost_leb cost_infinity (cost_of mx t i' j') = false) as Hfin'.
    { assert (forall a b,
        (a, b) ∈ [((i - 1)%nat, (j - 1)%nat); ((i - 1)%nat, j); (i, (j - 1)%nat)] ->
        (a <= i)%nat -> (b <= j)%nat -> cost_leb cost_infinity (cost_of mx t a b) = false ->
        cost_leb cost_infinity (cost_of mx t i' j') = false) as Hvia.
      { intros a b Hab Ha Hb Hf. eapply finite_below; [..|by apply (Hle a b)|done];
          apply (cost_of_ok mx begin); solve [done|lia]. }
      destruct (decide (i = 1%nat /\ j = 1%nat)) as [[-> ->]|Hnot].
      - apply (Hvia 0%nat 0%nat); [simpl; solve_neighbour|lia|lia|].
        rewrite (border_cost mx begin _ t 0 0 Ht) by lia.
        rewrite decide_True by (by destruct begin). apply zero_below_infinity.
      - destruct (decide (2 <= i)%nat); [|destruct (decide (2 <= j)%nat)]; [| |lia].
        + apply (Hvia (i - 1)%nat j); [solve_neighbour|lia|lia|].
          apply (inner_finite mx begin); [done..|lia|lia].
        + apply (Hvia i (j - 1)%nat); [solve_neighbour|lia|lia|].
          apply (inner_finite mx begin); [done..|lia|lia]. }
    rewrite (border_cost mx begin _ t i' j' Ht) in Hcost, Hfin' by lia.
    destruct (decide (origin begin i' j')) as [Hor|Hno];
      [|by rewrite cost_leb_refl in Hfin' by auto].
    assert (negb ((0 <? i')%nat && (0 <? j')%nat) = true) as Hz.
    { destruct (Nat.ltb_spec 0 i'), (Nat.ltb_spec 0 j'); simpl; try done. lia. }
    destruct fuel; cbn [backtrace]; rewrite Hz; apply wp_ret;
      exists ((i - 1)%nat, (j - 1)%nat), [((i - 1)%nat, (j - 1)%nat)];
      (split_and!; [done|constructor| |by rewrite Hcost]); simpl;
      destruct begin; simpl in *; lia.
Qed.

(** The warp returns a path no legal one undercuts, of finite cost. *)
Lemma warp_cheapest mx begin :
  matrix_ok mx -> Forall value_ok (values mx) ->
  wp (warp mx begin) (fun path => exists s,
    walk s path ((rows mx - 1)%nat, (cols mx - 1)%nat) /\ origin begin s.1 s.2 /\
    cost_leb cost_infinity (path_cost mx path) = false /\
    forall s' path', origin begin s'.1 s'.2 ->
      walk s' path' ((rows mx - 1)%nat, (cols mx - 1)%nat) ->
      cost_leb (path_cost mx path) (path_cost mx path') = true).
Proof.
  intros Hmx Hv. pose proof Hmx as (Hr & Hc & _). unfold warp.
  eapply wp_step; [by apply warp_tables_spec|]. intros [cost trace] Ht.
  eapply wp_step; [apply (backtrace_cost mx begin (cost, trace)); [done|exact Ht|lia..]|].
  intros path (s & l & -> & Hw & Hs & Hcost). apply wp_ret. exists s. simpl.
  rewrite rev_involutive, Hcost. split_and!; [done..| |].
  - apply (inner_finite mx begin); [done..|lia|lia].
  - intros s' path' Hs' Hw'.
    replace (rows mx) with (S (rows mx - 1)) at 1 by lia.
    replace (cols mx) with (S (cols mx - 1)) at 1 by lia.
    by apply (table_lower_bound mx begin (cost, trace) s' path' ((rows mx - 1)%nat, (cols mx - 1)%nat));
      simpl; try lia.
Qed.

End optimal.

(** ** The laws of the source's floats *)

(** The values an [f32] can hold, in the model of the floats. *)
Definition is_f32 (v : SpecFloat.spec_float) : Prop := SpecFloat.valid_binary 24 128 v = true.

Definition finite_f32 (v : SpecFloat.spec_float) : Prop := finite_float 24 128 v.
Definition finite_f64 (c : SpecFloat.spec_float) : Prop := finite_float 53 1024 c.
Abbreviation units32 := (units 24 128).
Abbreviation units64 := (units 53 1024).

(** The costs a warp can accumulate: a sum of [f32] values stops growing long
    before the largest [f64], once the next value is below half its last bit. *)
Definition sum_bound : Z := 2 ^ 1256.
Definition float_cost_ok (c : SpecFloat.spec_float) : Prop :=
  c = SpecFloat.S754_infinity false \/ (finite_f64 c /\ Z.abs (units64 c) <= sum_bound).

(** [f64::from] is exact on the [f32] values. *)
Lemma f64_from_f32_exact v :
  finite_f32 v -> finite_f64 (f64_from_f32 v) /\ units64 (f64_from_f32 v) = units32 v * 2 ^ 925.
Proof.
  destruct v as [| | |s m e]; try done. unfold finite_f32. cbn [finite_float f64_from_f32]. intros Hb.
  pose proof (finite_mantissa 24 128 m e Hb) as [Hm _].
  apply bounded_facts in Hb.
  change (SpecFloat.emin 24 128) with (-149) in Hb.
  assert (rnd_pos 53 (Zpos m * 2 ^ (e - SpecFloat.emin 53 1024)) =
    Zpos m * 2 ^ (e - SpecFloat.emin 53 1024)) as Hr.
  { apply rnd_pos_repr; change (SpecFloat.emin 53 1024) with (-1074); lia. }
  assert (Zpos m * 2 ^ (e - SpecFloat.emin 53 1024) < 2 ^ (1024 - SpecFloat.emin 53 1024)) as Hlt.
  { change (SpecFloat.emin 53 1024) with (-1074).
    assert (2 ^ (e - -1074) <= 2 ^ (104 - -1074)) by (apply Z.pow_le_mono_r; lia).
    change (2 ^ (1024 - -1074)) with (2 ^ 24 * 2 ^ (104 - -1074) * 2 ^ 896).
    assert (0 < 2 ^ (104 - -1074)) by (apply Z.pow_pos_nonneg; lia).
    assert (1 < 2 ^ 896) by (apply Z.pow_gt_1; lia).
    generalize dependent (2 ^ (104 - -1074)). generalize dependent (2 ^ 896). nia. }
  destruct (binary_round_units 53 1024 ltac:(lia) ltac:(lia) s m e) as [Hf Hu].
  - change (SpecFloat.emin 53 1024) with (-1074). lia.
  - by rewrite Hr.
  - split; [exact Hf|]. rewrite Hu, Hr. cbn [units].
    replace (e - SpecFloat.emin 53 1024) with (e - SpecFloat.emin 24 128 + 925)
      by (change (SpecFloat.emin 24 128) with (-149); change (SpecFloat.emin 53 1024) with (-1074); lia).
    rewrite Z.pow_add_r by (change (SpecFloat.emin 24 128) with (-149); lia).
    destruct s; lia.
Qed.

Lemma f32_units_bound v : finite_f32 v -> Z.abs (units64 (f64_from_f32 v)) <= 2 ^ 1202.
Proof.
  intros Hv. destruct (f64_from_f32_exact v Hv) as [_ ->].
  destruct v as [sv| | |s m e]; [by vm_compute|done|done|]. unfold finite_f32 in Hv. cbn [finite_float] in Hv.
  pose proof (finite_mantissa 24 128 m e Hv) as [Hm _]. apply bounded_facts in Hv.
  cbn [units]. change (SpecFloat.emin 24 128) with (-149) in *.
  assert (2 ^ (e - -149) <= 2 ^ (104 - -149)) by (apply Z.pow_le_mono_r; lia).
  assert (0 < 2 ^ (e - -149)) by (apply Z.pow_pos_nonneg; lia).
  assert (Zpos m * 2 ^ (e - -149) <= 2 ^ 24 * 2 ^ (104 - -149)) by (apply Z.mul_le_mono_nonneg; lia).
  change (2 ^ 1202) with (2 ^ 24 * 2 ^ (104 - -149) * 2 ^ 925).
  rewrite Z.abs_mul, (Z.abs_eq (2 ^ 925)) by (by apply Z.pow_nonneg).
  apply Z.mul_le_mono_nonneg_r; [by apply Z.pow_nonneg|]. destruct s; lia.
Qed.

(** The sum of an [f32] and an accumulated cost, as units. *)
Lemma float_add_units v c :
  finite_f32 v -> finite_f64 c -> Z.abs (units64 c) <= sum_bound ->
  let sum := SpecFloat.SFadd 53 1024 (f64_from_f32 v) c in
  finite_f64 sum /\ units64 sum = rnd 53 (units64 (f64_from_f32 v) + units64 c) /\
  Z.abs (units64 sum) <= sum_bound.
Proof.
  intros Hv Hc Hb sum. pose proof (f64_from_f32_exact v Hv) as [Hf _].
  pose proof (f32_units_bound v Hv) as Hvb.
  assert (Z.abs (rnd 53 (units64 (f64_from_f32 v) + units64 c)) <= sum_bound) as Hr.
  { assert (rnd 53 (sum_bound + 2 ^ 1202) = sum_bound) as Htop by (vm_compute; reflexivity).
    assert (rnd 53 (- (sum_bound + 2 ^ 1202)) = - sum_bound) as Hbot by (by rewrite rnd_opp, Htop).
    apply Z.abs_le. rewrite <- Hbot. rewrite <- Htop at 2. split; apply rnd_mono; lia. }
  destruct (add_units 53 1024 ltac:(lia) ltac:(lia) (f64_from_f32 v) c Hf Hc) as [Hsum Heq].
  { eapply Z.le_lt_trans; [exact Hr|]. vm_compute. reflexivity. }
  unfold sum. by rewrite Heq.
Qed.

(** The order of the costs: that of the units, below the infinity. *)
Lemma float_leb_cases a b :
  float_cost_ok a -> float_cost_ok b ->
  SpecFloat.SFleb a b =
  match a, b with
  | SpecFloat.S754_infinity _, SpecFloat.S754_infinity _ => true
  | SpecFloat.S754_infinity _, _ => false
  | _, SpecFloat.S754_infinity _ => true
  | _, _ => units64 a <=? units64 b
  end.
Proof.
  intros [->|[Ha _]] [->|[Hb _]]; [done| | |].
  - by destruct b as [| | |s m e].
  - by destruct a as [| | |s m e].
  - rewrite (leb_units 53 1024) by done. by destruct a, b.
Qed.

Lemma float_add_cases v a :
  finite_f32 v -> float_cost_ok a ->
  float_cost_ok (cost_add (CostOps := float_costs) v a) /\
  match a with
  | SpecFloat.S754_infinity _ => cost_add (CostOps := float_costs) v a = SpecFloat.S754_infinity false
  | _ => finite_f64 (cost_add (CostOps := float_costs) v a) /\
         units64 (cost_add (CostOps := float_costs) v a) =
           rnd 53 (units64 (f64_from_f32 v) + units64 a)
  end.
Proof.
  intros Hv [->|[Ha Hb]]; simpl cost_add.
  - pose proof (f64_from_f32_exact v Hv) as [Hf _].
    assert (SpecFloat.SFadd 53 1024 (f64_from_f32 v) (SpecFloat.S754_infinity false) =
      SpecFloat.S754_infinity false) as -> by (by destruct (f64_from_f32 v)).
    split; [by left|done].
  - destruct (float_add_units v a Hv Ha Hb) as (H1 & H2 & H3).
    split; [by right|]. by destruct a.
Qed.

Lemma float_laws : CostLaws (H := float_costs) finite_f32 float_cost_ok.
Proof.
  constructor; simpl cost_leb; simpl cost_zero; simpl cost_infinity; simpl value_zero.
  - done.
  - right. split; [done|]. by vm_compute.
  - by left.
  - intros v a Hv Ha. by apply float_add_cases.
  - intros a Ha. rewrite float_leb_cases by done. destruct a; try done; apply Z.leb_refl.
  - intros a b c Ha Hb Hc. rewrite !float_leb_cases by done.
    destruct a, b, c; try done; rewrite !Z.leb_le; lia.
  - intros a b Ha Hb. rewrite !float_leb_cases by done.
    destruct a, b; try done; rewrite Z.leb_gt, Z.leb_le; lia.
  - done.
  - intros v a b Hv Ha Hb. pose proof (float_add_cases v a Hv Ha) as [Ka Ea].
    pose proof (float_add_cases v b Hv Hb) as [Kb Eb]. simpl cost_add in *.
    rewrite (float_leb_cases a b) by done.
    set (x := SpecFloat.SFadd 53 1024 (f64_from_f32 v) a) in *.
    set (y := SpecFloat.SFadd 53 1024 (f64_from_f32 v) b) in *. clearbody x y.
    intros Hab. rewrite float_leb_cases by done.
    destruct a, b; try discriminate Hab; subst; try destruct Ea as [Fa Ea]; try destruct Eb as [Fb Eb];
      try done; try (by destruct x); try (by destruct y).
    all: rewrite Z.leb_le in Hab.
    all: assert (units64 x <= units64 y) by (rewrite Ea, Eb; apply rnd_mono; lia).
    all: destruct x, y; try done; apply Z.leb_le; lia.
  - intros v a Hv Ha Hfin. pose proof (float_add_cases v a Hv Ha) as [Ka Ea].
    simpl cost_add in *. rewrite float_leb_cases in Hfin |- * by (done || by left).
    destruct a; try done; destruct Ea as [Fa _];
      by destruct (SpecFloat.SFadd 53 1024 (f64_from_f32 v) _).
Qed.

(** ** Row entries *)

Lemma row_entries_walk s l b :
  walk s l b -> s.1 = 0%nat ->
  length (row_entries_of l) = S b.1 /\ StronglySorted Nat.le (row_entries_of l) /\
  Forall (fun e => (e <= b.2)%nat) (row_entries_of l).
Proof.
  intros Hw Hs. induction Hw as [|l b c Hw (Hlen & Hsort & Hall) Hn].
  - unfold row_entries_of. destruct s as [s1 s2]; simpl in *; subst. simpl.
    split_and!; [done|repeat constructor|repeat constructor].
  - unfold row_entries_of in *. rewrite foldl_snoc. destruct c as [c1 c2].
    assert (Forall (fun e => (e <= c2)%nat) (row_entries_of l)) as Hall'.
    { eapply Forall_impl; [apply Hall|]. intros e He; simpl in *.
      destruct Hn as [Hn|[Hn|Hn]]; injection Hn as -> ->; simpl; lia. }
    unfold row_entries_of in Hall'. destruct (Nat.eqb_spec c1 (length (foldl
      (fun entries '(text_idx, time_idx) =>
         if (text_idx =? length entries)%nat then entries ++ [time_idx] else entries) [] l)))
      as [Heq|Hne].
    + split_and!; simpl.
      * rewrite length_app. simpl. lia.
      * apply StronglySorted_app. split_and!; [|done|repeat constructor].
        intros x y Hx ->%list_elem_of_singleton. rewrite Forall_forall in Hall'.
        by apply Hall'.
      * apply Forall_app. split; [done|]. repeat constructor.
    + split_and!; simpl; [|done|done].
      destruct Hn as [Hn|[Hn|Hn]]; injection Hn as -> ->; simpl in *; lia.
Qed.

(** The two computations of row entries agree on a path from the first row. *)
Lemma jump_frames_walk s l b :
  walk s l b -> s.1 = 0%nat ->
  foldl (fun '(out, prev) '(text_idx, time_idx) =>
    if bool_decide (prev = Some text_idx) then (out, prev)
    else (out ++ [time_idx], Some text_idx)) ([], None) l = (row_entries_of l, Some b.1).
Proof.
  intros Hw Hs. induction Hw as [|l b c Hw IH Hn].
  - unfold row_entries_of. destruct s as [s1 s2]; simpl in *; subst. done.
  - rewrite foldl_snoc, IH. pose proof (row_entries_walk _ _ _ Hw Hs) as (Hlen & _ & _).
    unfold row_entries_of in *. rewrite foldl_snoc. destruct c as [c1 c2]. rewrite Hlen.
    case_bool_decide as Hd.
    + injection Hd as <-. destruct (Nat.eqb_spec b.1 (S b.1)); [lia|done].
    + destruct (Nat.eqb_spec c1 (S b.1)) as [->|Hne]; [done|]. exfalso.
      destruct Hn as [Hn|[Hn|Hn]]; injection Hn as -> ->; congruence.
Qed.

(** ** The median filter *)

Section sort_ext.
Context {A} (R1 R2 : relation A) `{!RelDecision R1, !RelDecision R2} (P : A -> Prop).
(** The two relations agree on the elements that are sorted. *)
Context (HR : forall x y, P x -> P y -> R1 x y <-> R2 x y).

Lemma list_merge_ext l1 l2 :
  Forall P l1 -> Forall P l2 ->
  list_merge R1 l1 l2 = list_merge R2 l1 l2 /\ Forall P (list_merge R2 l1 l2).
Proof.
  revert l2. induction l1 as [|x1 l1 IH1]; intros l2 H1 H2; [by destruct l2|].
  induction l2 as [|x2 l2 IH2]; [done|]. simpl. 
  apply Forall_cons_iff in H1 as [Hx1 H1], H2 as [Hx2 H2].
  destruct (IH1 (x2 :: l2)) as [-> Hf1]; [done|by constructor|].
  destruct (IH2 H2) as [E2 Hf2]. simpl in E2.
  unfold decide_rel. destruct (RelDecision0 x1 x2) as [d|d], (RelDecision1 x1 x2) as [d'|d'].
  - split; [done|by constructor].
  - by destruct d'; apply HR.
  - by destruct d; apply HR.
  - split; [by f_equal|by constructor].
Qed.

Lemma merge_list_to_stack_ext st l :
  Forall (Forall P ∘ default []) st -> Forall P l ->
  merge_list_to_stack R1 st l = merge_list_to_stack R2 st l /\
  Forall (Forall P ∘ default []) (merge_list_to_stack R2 st l).
Proof.
  intros Hst. revert l. induction Hst as [|[l'|] st Hl' Hst IH]; intros l Hl; simpl.
  - split; [done|by repeat constructor].
  - destruct (list_merge_ext l' l) as [-> Hm]; [done..|]. destruct (IH _ Hm) as [-> Hs].
    split; [done|]. by repeat constructor.
  - split; [done|by constructor].
Qed.

Lemma merge_stack_ext st :
  Forall (Forall P ∘ default []) st ->
  merge_stack R1 st = merge_stack R2 st /\ Forall P (merge_stack R2 st).
Proof.
  induction 1 as [|[l|] st Hl Hst [IH Hf]]; simpl; [done| |done].
  rewrite IH. by apply list_merge_ext.
Qed.

Lemma merge_sort_ext l : Forall P l -> merge_sort R1 l = merge_sort R2 l.
Proof.
  unfold merge_sort. assert (Forall (Forall P ∘ default []) []) as Hst by constructor.
  revert Hst. generalize (@nil (option (list A))). induction l as [|x l IH]; intros st Hst Hl; simpl.
  - by apply merge_stack_ext.
  - apply Forall_cons_iff in Hl as [Hx Hl].
    destruct (merge_list_to_stack_ext st [x]) as [-> Hs]; [done|by repeat constructor|]. by apply IH.
Qed.
End sort_ext.

Section median.
Context `{CostOps}.
Implicit Types (mx : CostMatrix).

(** The width used is the largest odd one within the request and the row. *)
Definition largest_half (width n half : nat) : Prop :=
  (2 * half + 1 <= width)%nat /\ (2 * half + 1 <= n)%nat /\
  forall h, (2 * h + 1 <= width)%nat -> (2 * h + 1 <= n)%nat -> (h <= half)%nat.

Lemma effective_width_largest n width :
  (1 <= n)%nat -> (width mod 2 = 1)%nat ->
  exists half, effective_width n width = (2 * half + 1)%nat /\ largest_half width n half.
Proof.
  intros Hn Hw. unfold effective_width, largest_half.
  pose proof (Nat.div_mod_eq width 2). pose proof (Nat.div_mod_eq n 2).
  pose proof (Nat.mod_upper_bound n 2).
  destruct (Nat.eqb_spec (n mod 2) 0) as [Hz|Hz].
  - exists (Nat.min (width / 2) (n / 2 - 1)). split_and!; lia.
  - exists (Nat.min (width / 2) (n / 2)). split_and!; lia.
Qed.

(** A row with [half] samples mirrored at each end, the edge sample not
    repeated, and the window of [2 * half + 1] of its samples around column
    [c]. *)
Definition reflect_padded {A} (half : nat) (row : list A) : list A :=
  reverse (take half (drop 1 row)) ++ row ++ take half (drop 1 (reverse row)).

Definition window_at {A} (half : nat) (row : list A) (c : nat) : list A :=
  take (2 * half + 1) (drop c (reflect_padded half row)).

Lemma length_reflect_padded {A} half (row : list A) :
  (half < length row)%nat -> length (reflect_padded half row) = (length row + 2 * half)%nat.
Proof.
  intros Hh. unfold reflect_padded.
  rewrite !length_app, length_reverse, !length_take, !length_drop, length_reverse. lia.
Qed.

Lemma reflect_padded_lookup {A} half (row : list A) c k :
  (2 * half + 1 <= length row)%nat -> (c < length row)%nat -> (k < 2 * half + 1)%nat ->
  reflect_padded half row !! (c + k)%nat = row !! reflect_index (length row) half c k.
Proof.
  intros Hh Hc Hk. unfold reflect_padded, reflect_index.
  assert (length (take half (drop 1 row)) = half) as Hl by (rewrite length_take, length_drop; lia).
  destruct (Z.ltb_spec (Z.of_nat c + Z.of_nat k - Z.of_nat half) 0).
  { rewrite lookup_app_l by (rewrite length_reverse; lia).
    rewrite reverse_lookup, Hl, lookup_take_lt, lookup_drop by lia. f_equal. lia. }
  rewrite lookup_app_r by (rewrite length_reverse; lia). rewrite length_reverse, Hl.
  destruct (Z.leb_spec (Z.of_nat (length row)) (Z.of_nat c + Z.of_nat k - Z.of_nat half)).
  - rewrite lookup_app_r, lookup_take_lt, lookup_drop, reverse_lookup by lia. f_equal. lia.
  - rewrite lookup_app_l by lia. f_equal. lia.
Qed.

Lemma window_loop original half c :
  (2 * half + 1 <= length original)%nat -> (c < length original)%nat ->
  wp (for_each (seq 0 (2 * half + 1)) (fun k window =>
        let! v := index original (reflect_index (length original) half c k) in
        store window k v)%rust (replicate (2 * half + 1) value_zero) : Run (list Value))
     (fun window => window = window_at half original c).
Proof.
  intros Hw Hc. set (w := (2 * half + 1)%nat) in *.
  pose proof (length_reflect_padded half original ltac:(lia)) as Hlen.
  apply (wp_for_seq _ _ _ (fun k window =>
    window = take k (drop c (reflect_padded half original)) ++ replicate (w - k) value_zero)).
  - simpl. by rewrite Nat.sub_0_r.
  - intros k window Hk ->.
    destruct (lookup_lt_is_Some_2 (reflect_padded half original) (c + k)) as [v Hv]; [lia|].
    eapply wp_index_step; [by rewrite <- reflect_padded_lookup by lia|].
    assert (length (take k (drop c (reflect_padded half original))) = k) as Hk'
      by (rewrite length_take, length_drop; lia).
    apply wp_store; [rewrite length_app, Hk', length_replicate; lia|].
    rewrite insert_app_r_alt by lia. rewrite Hk', Nat.sub_diag.
    rewrite (take_S_r _ _ v) by (by rewrite lookup_drop). rewrite <- app_assoc. f_equal.
    by replace (w - k)%nat with (S (w - S k)) by lia.
  - intros window ->. by rewrite Nat.add_0_l, Nat.sub_diag, app_nil_r.
Qed.

(** What the filter computes: the middle of the sorted window. *)
Definition sorted_middle (half : nat) (row : list Value) (c : nat) (v : Value) : Prop :=
  merge_sort value_le (window_at half row c) !! half = Some v.

Lemma filter_sample_spec original half c :
  (2 * half + 1 <= length original)%nat -> (c < length original)%nat ->
  wp (filter_sample (length original) (2 * half + 1) original c) (sorted_middle half original c).
Proof.
  intros Hw Hc. unfold filter_sample.
  replace ((2 * half + 1) / 2)%nat with half by (rewrite Nat.mul_comm, Nat.div_add_l by lia; simpl; lia).
  eapply wp_step; [by apply window_loop|]. intros window ->. unfold index.
  destruct (merge_sort value_le (window_at half original c) !! half) as [v|] eqn:Hv;
    [by apply wp_ret|]. exfalso. apply lookup_ge_None in Hv.
  rewrite merge_sort_Permutation in Hv. unfold window_at in Hv.
  rewrite length_take, length_drop, length_reflect_padded in Hv by lia. lia.
Qed.

(** One row of a matrix. *)
Definition row_of mx (r : nat) : list Value := take (cols mx) (drop (r * cols mx) (values mx)).

Lemma length_row_of mx r : matrix_ok mx -> (r < rows mx)%nat -> length (row_of mx r) = cols mx.
Proof.
  intros (_ & _ & Hlen & _) Hr. unfold row_of. rewrite length_take, length_drop, Hlen. nia.
Qed.

(** The rows before [r] are filtered, the others untouched. *)
Definition filtered_before mx half (r : nat) (vs : list Value) : Prop :=
  length vs = length (values mx) /\
  forall r' c v, (r' < rows mx)%nat -> (c < cols mx)%nat ->
    vs !! (r' * cols mx + c)%nat = Some v ->
    if (r' <? r)%nat
    then sorted_middle half (row_of mx r') c v
    else values mx !! (r' * cols mx + c)%nat = Some v.

Lemma take_drop_lookup {A} (l : list A) a n k :
  (k < n)%nat -> take n (drop a l) !! k = l !! (a + k)%nat.
Proof. intros Hk. by rewrite lookup_take_lt, lookup_drop by done. Qed.

Lemma filter_row_spec mx half r vs :
  matrix_ok mx -> (2 * half + 1 <= cols mx)%nat -> (r < rows mx)%nat ->
  filtered_before mx half r vs ->
  wp (filter_row (cols mx) (2 * half + 1) (r * cols mx) vs) (filtered_before mx half (S r)).
Proof.
  intros Hmx Hw Hr [Hvl Hvs]. pose proof Hmx as (_ & _ & Hlen & _). unfold filter_row.
  apply wp_slice_range_step; [rewrite Hvl, Hlen; nia|].
  replace (r * cols mx + cols mx - r * cols mx)%nat with (cols mx) by lia.
  assert (take (cols mx) (drop (r * cols mx) vs) = row_of mx r) as ->.
  { unfold row_of. apply list_eq. intros c. destruct (decide (c < cols mx)%nat) as [Hc|Hc].
    - rewrite !take_drop_lookup by done.
      destruct (lookup_lt_is_Some_2 vs (r * cols mx + c)) as [v Hv]; [rewrite Hvl, Hlen; nia|].
      pose proof (Hvs r c v Hr Hc Hv) as Hv'. rewrite Nat.ltb_irrefl in Hv'. congruence.
    - rewrite !lookup_take_ge by lia. done. }
  pose proof (length_row_of mx r Hmx Hr) as Hol.
  apply (wp_for_seq _ _ _ (fun c vs => length vs = length (values mx) /\
    forall r' c' v, (r' < rows mx)%nat -> (c' < cols mx)%nat ->
      vs !! (r' * cols mx + c')%nat = Some v ->
      if (r' <? r)%nat || ((r' =? r)%nat && (c' <? c)%nat)
      then sorted_middle half (row_of mx r') c' v
      else values mx !! (r' * cols mx + c')%nat = Some v)).
  - split; [done|]. intros r' c' v Hr' Hc' Hv. specialize (Hvs r' c' v Hr' Hc' Hv).
    by rewrite andb_false_r, orb_false_r.
  - intros c vs' Hc [Hvl' Hvs']. eapply wp_step; [rewrite <- Hol; apply filter_sample_spec; lia|].
    intros v Hmed. apply wp_store; [rewrite Hvl', Hlen; nia|].
    split; [by rewrite length_insert|]. intros r' c' v' Hr' Hc' Hv'.
    destruct (decide (r' = r /\ c' = c)) as [[-> ->]|Hne].
    + rewrite list_lookup_insert_eq in Hv' by (rewrite Hvl', Hlen; nia). simplify_eq.
      rewrite Nat.eqb_refl, Nat.ltb_irrefl. destruct (Nat.ltb_spec c (S c)); [done|lia].
    + rewrite list_lookup_insert_ne in Hv'; [|intros Heq; apply flat_inj in Heq as [<- <-]; lia].
      specialize (Hvs' r' c' v' Hr' Hc' Hv').
      destruct (Nat.ltb_spec r' r), (Nat.eqb_spec r' r), (Nat.ltb_spec c' c), (Nat.ltb_spec c' (S c));
        simpl in *; try done; exfalso; lia.
  - intros vs' [Hvl' Hvs']. split; [done|]. intros r' c' v' Hr' Hc' Hv'.
    specialize (Hvs' r' c' v' Hr' Hc' Hv').
    destruct (Nat.ltb_spec r' r), (Nat.eqb_spec r' r), (Nat.ltb_spec c' (0 + cols mx)),
      (Nat.ltb_spec r' (S r)); simpl in *; try done; exfalso; lia.
Qed.

Lemma sorted_middle_singleton row c v : row !! c = Some v -> sorted_middle 0 row c v.
Proof.
  intros Hv. unfold sorted_middle, window_at, reflect_padded.
  rewrite !take_0. simpl. change (reverse []) with (@nil Value). simpl. rewrite app_nil_r.
  by rewrite (drop_S _ v) by done.
Qed.

Lemma median_filter_spec mx width :
  matrix_ok mx ->
  ((width mod 2)%nat = 0%nat ->
     uninterrupted (median_filter_rows mx width) = Some (Err (EvenFilterWidth width))) /\
  ((width mod 2)%nat <> 0%nat ->
     exists mx' half, uninterrupted (median_filter_rows mx width) = Some (Ok mx') /\
       rows mx' = rows mx /\ cols mx' = cols mx /\ length (values mx') = length (values mx) /\
       largest_half width (cols mx) half /\
       forall r c v, (r < rows mx)%nat -> (c < cols mx)%nat ->
         values mx' !! (r * cols mx + c)%nat = Some v -> sorted_middle half (row_of mx r) c v).
Proof.
  intros Hmx. pose proof Hmx as (Hr & Hc & Hlen & _). unfold median_filter_rows.
  destruct (Nat.eqb_spec (width mod 2) 0) as [Heven|Hodd]; [done|]. split; [done|]. intros _.
  pose proof (Nat.mod_upper_bound width 2). pose proof (Nat.div_mod_eq width 2).
  destruct ((width <=? 1)%nat || (cols mx =? 1)%nat) eqn:Htriv.
  { exists mx, 0%nat. split_and!; try done.
    - apply orb_true_iff in Htriv. rewrite Nat.leb_le, Nat.eqb_eq in Htriv.
      unfold largest_half. clear Hlen Hmx. split_and!; lia.
    - intros r c v Hr' Hc' Hv. apply sorted_middle_singleton. unfold row_of.
      by rewrite take_drop_lookup. }
  bool_to_prop. destruct (effective_width_largest (cols mx) width) as (half & -> & Hhalf); [lia..|].
  destruct (wp_uninterrupted (for_each (seq 0 (rows mx)) (fun r vs =>
      filter_row (cols mx) (2 * half + 1) (r * cols mx) vs) (values mx))
      (filtered_before mx half (rows mx))) as (vs & Hvs & Hl & Hf).
  { apply (wp_for_seq _ _ _ (filtered_before mx half)).
    - split; [done|]. intros r' c v _ _ Hv. by destruct (Nat.ltb_spec r' 0); [lia|].
    - intros r vs Hr'. apply filter_row_spec; [done|apply Hhalf|lia].
    - done. }
  exists (mkMatrix (rows mx) (cols mx) vs), half. unfold uninterrupted, bind. rewrite Hvs.
  split_and!; try done. intros r c v Hr' Hc' Hv. specialize (Hf r c v Hr' Hc' Hv).
  by destruct (Nat.ltb_spec r (rows mx)); [|lia].
Qed.

End median.

(** *** The order of the samples *)

(** The order the filter sorts by, as integers: the value in half units, and
    [-0.0] just below [0.0]. *)
Definition sort_key (v : SpecFloat.spec_float) : Z :=
  match v with SpecFloat.S754_zero true => -1 | _ => 2 * units32 v end.

Definition key_le (a b : SpecFloat.spec_float) : Prop := sort_key a <= sort_key b.
#[global] Instance key_le_dec : RelDecision key_le.
Proof. unfold key_le. intros a b. apply _. Defined.

#[export] Instance key_le_trans : Transitive key_le.
Proof. unfold key_le. intros a b c. lia. Qed.
#[export] Instance key_le_total : Total key_le.
Proof. unfold key_le. intros a b. lia. Qed.

Lemma value_le_key a b :
  finite_f32 a -> finite_f32 b -> value_le (H := float_costs) a b <-> key_le a b.
Proof.
  intros Ha Hb. unfold value_le, key_le. simpl value_total_leb. unfold float_total_leb.
  assert (SpecFloat.SFleb a b = true <-> units32 a <= units32 b) as Hle
    by (rewrite (leb_units 24 128) by done; apply Z.leb_le).
  destruct a as [[]| | |sa ma ea], b as [[]| | |sb mb eb]; try done; rewrite ?Hle; unfold sort_key;
    cbn [units] in *; try lia.
  pose proof (units_pos 24 128 ltac:(lia) ma ea Ha). destruct sa; lia.
Qed.

Lemma length_filter_all {A} (P : A -> Prop) `{!forall x, Decision (P x)} l :
  Forall P l -> length (filter P l) = length l.
Proof.
  induction 1 as [|x l Hx Hl IH]; [done|]. rewrite filter_cons_True by done. simpl. by rewrite IH.
Qed.

(** In a sorted list of [2 * half + 1] elements more than half are on either
    side of the middle one, itself included. *)
Lemma sorted_middle_counts l half v :
  StronglySorted key_le l -> length l = (2 * half + 1)%nat -> l !! half = Some v ->
  (half < length (filter (fun x => key_le x v) l))%nat /\
  (half < length (filter (fun x => key_le v x) l))%nat.
Proof.
  intros Hs Hl Hv. pose proof (take_drop_middle _ _ _ Hv) as Hsplit.
  assert (length (take half l) = half) as Ht by (rewrite length_take; lia).
  assert (length (drop (S half) l) = half) as Hd by (rewrite length_drop; lia).
  rewrite <- Hsplit in Hs |- *. apply StronglySorted_app in Hs as (Hcross & _ & Hs).
  apply StronglySorted_inv in Hs as [_ Hup]. unfold key_le in *.
  rewrite !filter_app, !length_app, !filter_cons_True by lia. simpl.
  rewrite (length_filter_all (fun x => sort_key x <= sort_key v) (take half l)).
  2:{ apply list.Forall_forall. intros x Hx. apply Hcross; [done|]. apply elem_of_cons. by left. }
  rewrite (length_filter_all (fun x => sort_key v <= sort_key x) (drop (S half) l)) by done.
  lia.
Qed.

(** [v] is the median of a window of [2 * half + 1] samples. *)
Definition median_of (window : list SpecFloat.spec_float) (half : nat) (v : SpecFloat.spec_float)
    : Prop :=
  v ∈ window /\
  (half < length (filter (fun x => (sort_key x <= sort_key v)%Z) window))%nat /\
  (half < length (filter (fun x => (sort_key v <= sort_key x)%Z) window))%nat.

Lemma sorted_middle_median half row c v :
  Forall finite_f32 row -> (2 * half + 1 <= length row)%nat -> (c < length row)%nat ->
  sorted_middle (H := float_costs) half row c v -> median_of (window_at half row c) half v.
Proof.
  intros Hfin Hh Hc. unfold sorted_middle.
  assert (Forall finite_f32 (window_at half row c)) as Hwin.
  { unfold window_at. apply Forall_take, Forall_drop. unfold reflect_padded.
    rewrite !Forall_app. split_and!; [|done|].
    - rewrite Forall_reverse. by apply Forall_take, Forall_drop.
    - apply Forall_take, Forall_drop. by rewrite Forall_reverse. }
  assert (length (window_at half row c) = (2 * half + 1)%nat) as Hlen.
  { unfold window_at. rewrite length_take, length_drop, length_reflect_padded by lia. lia. }
  assert (@merge_sort SpecFloat.spec_float (value_le (H := float_costs)) _ (window_at half row c) =
    merge_sort key_le (window_at half row c)) as Heq
    by (apply (merge_sort_ext _ _ finite_f32); [apply value_le_key|exact Hwin]).
  intros Hv. assert (merge_sort key_le (window_at half row c) !! half = Some v) as Hv'
    by (rewrite <- Heq; exact Hv). pose proof (merge_sort_Permutation key_le (window_at half row c)) as Hp.
  destruct (sorted_middle_counts (merge_sort key_le (window_at half row c)) half v) as [H1 H2];
    [apply StronglySorted_merge_sort; apply _|by rewrite Hp|done|].
  split_and!.
  - rewrite <- Hp. by eapply list_elem_of_lookup_2.
  - by rewrite <- Hp.
  - by rewrite <- Hp.
Qed.

(** ** Properties *)

Section properties.
Context `{CostOps}.
Implicit Types (mx : CostMatrix).

(** [CostMatrix::new] admits exactly the non-empty shapes whose buffer has
    one value per cell and holds finite values only, and a refusal of a
    non-finite value names the first one. *)
Theorem matrix_admission_is_exact r c vs :
  match matrix_new r c vs with
  | Ok mx =>
      rows mx = r /\ cols mx = c /\ values mx = vs /\ matrix_ok mx /\
      Z.of_nat r * Z.of_nat c <= usize_max
  | Err (FaDtw.Empty _ _) => r = 0%nat \/ c = 0%nat
  | Err (ShapeMismatch _ _ n) =>
      n = length vs /\ ((r * c)%nat <> length vs \/ usize_max < Z.of_nat r * Z.of_nat c)
  | Err (NonFinite i) =>
      (exists v, vs !! i = Some v /\ value_is_finite v = false) /\
      forall k v, (k < i)%nat -> vs !! k = Some v -> value_is_finite v = true
  | Err (EvenFilterWidth _) => False
  end.
Proof.
  unfold matrix_new. destruct ((r =? 0)%nat || (c =? 0)%nat) eqn:He.
  { apply orb_true_iff in He. rewrite !Nat.eqb_eq in He. done. }
  bool_to_prop. destruct (_ || _) eqn:Hs.
  { split; [done|]. apply orb_true_iff in Hs. rewrite negb_true_iff in Hs.
    rewrite Z.ltb_lt, Nat.eqb_neq in Hs. tauto. }
  bool_to_prop. destruct (position _ vs) as [i|] eqn:Hp.
  - apply position_some in Hp as [(x & Hx & Hf) Hlt]. split; [exists x; by rewrite negb_true_iff in Hf|].
    intros k v Hk Hv. specialize (Hlt k v Hk Hv). by apply negb_false_iff in Hlt.
  - apply position_none in Hp. split_and!; try done. split_and!; simpl; try lia.
    eapply Forall_impl; [apply Hp|]. intros v Hv. by apply negb_false_iff in Hv.
Qed.

(** C25: for every arithmetic, binary floats included: on an admitted matrix
    the warp ends (no index out of range, no missing fuel) in a path of legal
    moves, inside the matrix, that ends in the last cell and begins in the
    first row or the first column. *)
Theorem warp_path_is_legal mx begin :
  matrix_ok mx ->
  exists path s, uninterrupted (warp mx begin) = Some path /\
    walk s path ((rows mx - 1)%nat, (cols mx - 1)%nat) /\ (s.1 = 0%nat \/ s.2 = 0%nat) /\
    Forall (fun p => (p.1 < rows mx)%nat /\ (p.2 < cols mx)%nat) path.
Proof.
  intros Hmx. pose proof Hmx as (Hr & Hc & _).
  destruct (wp_uninterrupted (warp mx begin) (fun path => exists s,
    walk s path ((rows mx - 1)%nat, (cols mx - 1)%nat) /\ (s.1 = 0%nat \/ s.2 = 0%nat)))
    as (path & Hp & s & Hw & Hs).
  { unfold warp. eapply wp_step; [by apply warp_tables_spec|]. intros [cost trace] Ht.
    eapply wp_step; [apply (backtrace_spec mx begin (cost, trace)); [done|lia..]|].
    intros path (s & l & -> & Hw & Hs). apply wp_ret. exists s. simpl. by rewrite rev_involutive. }
  exists path, s. unfold uninterrupted. rewrite Hp. split_and!; try done.
  apply walk_bounds in Hw as (_ & _ & Hall). eapply Forall_impl; [apply Hall|].
  intros p; simpl. lia.
Qed.

End properties.

(** *** On the source's floats *)

Lemma finite_values (mx : CostMatrix (H := float_costs)) :
  matrix_ok mx -> Forall is_f32 (values mx) -> Forall finite_f32 (values mx).
Proof.
  intros (_ & _ & _ & Hfin) Hv. apply list.Forall_forall. intros v Hin.
  rewrite list.Forall_forall in Hfin, Hv. specialize (Hfin v Hin). specialize (Hv v Hin).
  by destruct v.
Qed.

(** C8: on any matrix of finite [f32] values the warp's path is a cheapest one
    in the source's own arithmetic, [f64] sums accumulated along the path with
    their rounding: it starts where the boundary allows (the first cell when
    closed, any cell of the first row when open), no legal path from such a
    start to the last cell costs less, and its cost is finite however long it
    is. *)
Theorem warp_path_is_cheapest (mx : CostMatrix (H := float_costs)) begin :
  matrix_ok mx -> Forall is_f32 (values mx) ->
  exists path s, uninterrupted (warp mx begin) = Some path /\
    walk s path ((rows mx - 1)%nat, (cols mx - 1)%nat) /\ origin begin s.1 s.2 /\
    cost_leb cost_infinity (path_cost mx path) = false /\
    forall s' path', origin begin s'.1 s'.2 ->
      walk s' path' ((rows mx - 1)%nat, (cols mx - 1)%nat) ->
      cost_leb (path_cost mx path) (path_cost mx path') = true.
Proof.
  intros Hmx Hv.
  destruct (wp_uninterrupted _ _ (warp_cheapest (HL := float_laws) mx begin Hmx (finite_values mx Hmx Hv)))
    as (path & Hp & s & Hs).
  exists path, s. unfold uninterrupted. by rewrite Hp.
Qed.

(** C24: on any matrix of finite [f32] values the lexical alignment enters
    every row: it returns one frame per row, in order, never decreasing and
    inside the matrix, and they are the frames the jump-time computation reads
    off the same path. *)
Theorem lexical_alignment_covers_every_row (mx : CostMatrix (H := float_costs)) :
  matrix_ok mx -> Forall is_f32 (values mx) ->
  exists path entries,
    uninterrupted (warp mx Open) = Some path /\
    uninterrupted (lexical_frame_align mx) = Some entries /\
    length entries = rows mx /\ StronglySorted Nat.le entries /\
    Forall (fun e => (e < cols mx)%nat) entries /\ token_jump_frames path = entries.
Proof.
  intros Hmx Hv. pose proof Hmx as (Hr & Hc & _).
  destruct (wp_uninterrupted _ _ (warp_cheapest (HL := float_laws) mx Open Hmx (finite_values mx Hmx Hv)))
    as (path & Hp & s & Hw & Hs & _).
  destruct (row_entries_walk _ _ _ Hw Hs) as (Hlen & Hsort & Hall).
  exists path, (row_entries_of path). unfold uninterrupted, lexical_frame_align, bind.
  rewrite Hp. split_and!; try done.
  - simpl in Hlen. lia.
  - eapply Forall_impl; [apply Hall|]. simpl. intros; lia.
  - unfold token_jump_frames. by rewrite (jump_frames_walk _ _ _ Hw Hs).
Qed.

(** C32: the median filter on a matrix of finite [f32] values: an even width is
    refused; with an odd one it ends without reading outside a row or a window,
    keeps the shape, and each sample becomes the median of its own row's
    window: the largest odd width that fits both the request and the row,
    centred at the sample, in the row mirrored at both ends without repeating
    the edge sample. The median is a sample of the window with more than half
    of the window at or below it and more than half at or above it, in the order
    of the values with [-0.0] below [0.0]. *)
Theorem median_filter_is_row_median (mx : CostMatrix (H := float_costs)) width :
  matrix_ok mx -> Forall is_f32 (values mx) ->
  if (width mod 2 =? 0)%nat
  then uninterrupted (median_filter_rows mx width) = Some (Err (EvenFilterWidth width))
  else exists mx' half, uninterrupted (median_filter_rows mx width) = Some (Ok mx') /\
    rows mx' = rows mx /\ cols mx' = cols mx /\ length (values mx') = length (values mx) /\
    largest_half width (cols mx) half /\
    forall r c v, (r < rows mx)%nat -> (c < cols mx)%nat ->
      values mx' !! (r * cols mx + c)%nat = Some v ->
      median_of (window_at half (row_of mx r) c) half v.
Proof.
  intros Hmx Hv. pose proof (finite_values mx Hmx Hv) as Hfin.
  destruct (median_filter_spec mx width Hmx) as [Heven Hodd].
  destruct (Nat.eqb_spec (width mod 2) 0) as [Hz|Hz]; [by apply Heven|].
  destruct (Hodd Hz) as (mx' & half & Hrun & Hrows & Hcols & Hlen & Hhalf & Hmed).
  exists mx', half. split_and!; try done. intros r c v Hr Hc Hl.
  assert (@length SpecFloat.spec_float (row_of mx r) = cols mx) as Hrow by exact (length_row_of (H := float_costs) mx r Hmx Hr).
  destruct Hhalf as (_ & Hh & _). apply sorted_middle_median.
  - by apply Forall_take, Forall_drop.
  - by rewrite Hrow.
  - by rewrite Hrow.
  - by apply Hmed.
Qed.

(** ** Witnesses *)

(** Small integers as [f32] values. *)
Definition f32_of (z : Z) : SpecFloat.spec_float := SpecFloat.binary_normalize 24 128 z 0 false.

Definition float_matrix : CostMatrix (H := float_costs) :=
  mkMatrix (H := float_costs) 2 4 (f32_of <$> [9; 9; -4; 9; 9; 9; 9; -4]).

Lemma float_matrix_ok : matrix_ok float_matrix.
Proof. split_and!; [simpl; lia..|done|]. repeat constructor. Qed.

Lemma float_matrix_f32 : Forall is_f32 (values float_matrix).
Proof. repeat constructor. Qed.

(** The open warp on binary floats skips the prefix and covers both rows. *)
Example float_row_entries : uninterrupted (lexical_frame_align float_matrix) = Some [2; 3]%nat.
Proof. vm_compute. reflexivity. Qed.

Lemma warp_path_is_legal_witness :
  exists path s, uninterrupted (warp float_matrix Closed) = Some path /\
    walk s path (1, 3)%nat /\ (s.1 = 0%nat \/ s.2 = 0%nat) /\
    Forall (fun p => (p.1 < 2)%nat /\ (p.2 < 4)%nat) path.
Proof. apply (warp_path_is_legal float_matrix Closed). apply float_matrix_ok. Defined.

Lemma warp_path_is_cheapest_witness :
  exists path s, uninterrupted (warp float_matrix Open) = Some path /\
    walk s path (1, 3)%nat /\ origin Open s.1 s.2 /\
    cost_leb cost_infinity (path_cost float_matrix path) = false /\
    forall s' path', origin Open s'.1 s'.2 -> walk s' path' (1, 3)%nat ->
      cost_leb (path_cost float_matrix path) (path_cost float_matrix path') = true.
Proof.
  apply (warp_path_is_cheapest float_matrix Open); [apply float_matrix_ok|apply float_matrix_f32].
Defined.

Lemma lexical_alignment_covers_every_row_witness :
  exists path entries,
    uninterrupted (warp float_matrix Open) = Some path /\
    uninterrupted (lexical_frame_align float_matrix) = Some entries /\
    length entries = 2%nat /\ StronglySorted Nat.le entries /\
    Forall (fun e => (e < 4)%nat) entries /\ token_jump_frames path = entries.
Proof.
  apply (lexical_alignment_covers_every_row float_matrix);
    [apply float_matrix_ok|apply float_matrix_f32].
Defined.

(** The source's reference row, filtered with width 3. *)
Definition median_matrix : CostMatrix (H := float_costs) :=
  mkMatrix (H := float_costs) 1 4 (f32_of <$> [1; 5; 2; 4]).

Example median_run :
  match uninterrupted (median_filter_rows median_matrix 3) with
  | Some (Ok mx) => values mx
  | _ => []
  end = f32_of <$> [5; 2; 4; 2].
Proof. vm_compute. reflexivity. Qed.

Lemma median_filter_is_row_median_witness :
  exists mx' half, uninterrupted (median_filter_rows median_matrix 3) = Some (Ok mx') /\
    rows mx' = 1%nat /\ cols mx' = 4%nat /\ length (values mx') = 4%nat /\
    largest_half 3 4 half /\
    forall r c v, (r < 1)%nat -> (c < 4)%nat -> values mx' !! (r * 4 + c)%nat = Some v ->
      median_of (window_at half (row_of median_matrix r) c) half v.
Proof.
  apply (median_filter_is_row_median median_matrix 3).
  - split_and!; [simpl; lia..|done|repeat constructor].
  - repeat constructor.
Defined.
